(* ===== verification/_CoqProject ===== *)
-Q . S2P
Prelude.v
Prog.v
Reach.v
Extern.v
Win32.v
IoState.v
IoCells.v
Socket.v
IoHandle.v
IoHandleSys.v
IoHandleInv.v
IoHandleSafe.v
IoHandleThm.v
IoHandleEx.v
HandleThm.v
HandleSys.v
HandleRef.v
HandleDuplex.v
HandleDrop.v
HandleEx.v
HandleComplete.v
IoEvent.v
IoEventSys.v
IoEventThm.v
IoEventEx.v
IoEventType.v
IoEventRef.v
IoEventDrop.v
Waker.v
Threadpool.v
ThreadpoolThm.v
Context.v
Executor.v
ExecutorThm.v
ExecutorEx.v
ExecutorRef.v
Runtime.v
RuntimeThm.v
RuntimeEx.v
Task.v
IoBuf.v
Read.v
ReadThm.v
Write.v
WriteThm.v
Transfer.v
TransferThm.v
TransferTcp.v
Duplex.v
DuplexThm.v
DuplexEx.v
SockAddr.v
SockAddrThm.v
ResolveDrop.v
Tcp.v
TcpThm.v
TcpEx.v
ResolveThm.v
Resources.v
ResourcesThm.v
ConnectSys.v
ConnectThm.v
ConnectWake.v
ConnectTerm.v
ConnectEx.v
IncomingThm.v
Debug.v
Macros.v
