(* ===== verification/Prelude.v ===== *)
(** * wae: a verified model of an asynchronous runtime for Windows

    wae runs Rust futures on the Windows thread pool and offers TCP sockets
    whose operations are overlapped (completed by the system in the
    background).  This library models the crate's own logic, with the Win32
    functions, the crates async-task, atomic-waker, concurrent-queue and
    socket2, and the parsers of the standard library as interfaces.

    ** The program

    - A [Handle] (src/src/threadpool.rs) names a thread pool: three task queues,
      one per priority, each with a work object of the system.  Spawning a
      future (src/src/task/spawn.rs) makes a task whose schedule function pushes
      it to the queue of the handle and submits the queue's work object; the
      work callback pops a task and runs it inside the handle's context
      (src/src/context.rs).
    - [block_on] (src/src/task/block_on.rs) runs a task from a thread outside
      the pool, sleeping on the word of an [InlineWaker] (task/waker.rs).
    - An overlapped operation is described by three cells: an [IoState], an
      [IoResult] (src/src/io/shared/state.rs, result.rs) and an [AtomicWaker].
      The task that polls, a canceller and the callback of the thread pool race
      on them.  [IoHandle] (handle.rs) has two such triples, one per direction;
      [IoEvent] (event.rs) has one and signals completion by an event.
    - On top of these are the traits [AsyncRead] and [AsyncWrite] with their
      extensions (src/src/io/read, src/src/io/write), TCP (src/src/net/tcp), name
      resolution (src/src/net/sockaddr) and the attribute macros
      (src/macros/src/lib.rs).

    ** How it is modelled

    Code whose calls or interleavings matter is a term of [Prog.prog]: a tree
    of atomic actions with functions as continuations, which reads like the
    Rust function.  A loop is a [Loop] whose body yields [Some] to leave it; a
    panic or an undefined access is a [Fault].  Three semantics are given to
    it: one step of a thread in a shared state ([tstep], from which the
    transition systems are built), a run against an oracle that answers every
    call ([calls], with the weakest precondition [wp]) and the traces a program
    with loops can produce ([produces], with [wlp]), also up to a moment on the
    way ([reaches], with [wls]).  Code without effects is
    a function.  Concurrent components are executable labelled transition
    systems ([LTS] below): a schedule is a list of labels, each naming the
    thread that moves and the answer of the environment.

    ** The files

    - Prelude (this file): results, polls and errors of Rust, machine
      integers, tactics, sums, transition systems with their invariant rules
      and simulation.  Prog, Reach: programs and their semantics.  Extern: interfaces
      of atomic-waker, concurrent-queue and async-task, with their laws and an
      instance of each.  Win32: the calls the crate makes.
    - IoState (state.rs, result.rs), IoCells (the actions on the three cells and
      their effect), Socket (net/tcp/socket.rs and every closure that starts an
      overlapped operation).
    - IoHandle (handle.rs): poll, cancel, the completion callback, new, drop.
      IoHandleSys puts one half in its environment: a client that polls and
      cancels in any order, the system that completes operations and posts
      packets, the callbacks of the pool.  IoHandleInv and IoHandleSafe have the
      invariants, IoHandleThm the theorems, IoHandleEx witnesses and the
      schedules on which the guarantees end.  HandleThm: what single calls of
      the handle do to both halves, and the outcomes of its drop.
    - HandleSys puts the whole handle in its environment: a client per
      direction, one completion port whose packets carry the address of an
      [OVERLAPPED], the callbacks that look their half up by it, and the drop.
      HandleRef projects its runs to runs of a half; HandleDuplex and HandleDrop
      carry the guarantees over and add those of the drop; HandleComplete has
      the converse; HandleEx the witnesses.
    - IoEvent (event.rs), IoEventSys (its environment, for the three operations
      that use one: connecting, accepting, resolving), IoEventThm, IoEventEx;
      IoEventType (the typestate of the word of an event); IoEventRef (the future
      with atomic polls that an event refines); IoEventDrop adds the drop of the
      event to that system.
    - Waker (waker.rs, block_on.rs): the code, the system of one blocked thread
      and any number of wakers, and its theorems.  Runtime puts the blocked
      thread on top of the pool as [Handle::block_on] does, with any number of
      tasks that are spawned, polled, pending and woken; RuntimeThm has its
      theorems, RuntimeEx the witnesses.
    - Threadpool (threadpool.rs), ThreadpoolThm; Context (context.rs); Executor
      ([push_task] and the work callback, and the pool as a system),
      ExecutorThm, ExecutorEx; ExecutorRef (an abstract executor and the
      refinement); Task (spawn.rs, util.rs).
    - IoBuf (IoSlice, IoSliceMut, memory), Read and ReadThm (read/mod.rs,
      read/ext.rs), Write and WriteThm (write/mod.rs, write/ext.rs): the traits
      with their contracts, and the extensions verified against them.
      Transfer puts the extensions on top of a half instead, with the memory
      the system works on while an operation is in flight; TransferThm has its
      invariant, TransferTcp the two instances and the schedule on which they
      go wrong.  Duplex has both at once on the two halves of one handle, with
      one memory and one completion port; DuplexThm sees each of them as a
      transfer of its own, in which what the other one receives is written by
      the rest of the program, DuplexEx has the witnesses.
    - SockAddr and SockAddrThm (get_addr_info.rs, to_socket_addrs.rs),
      ResolveDrop (the drop of a resolution, in the system of its event); Tcp,
      TcpThm and TcpEx (listener.rs, stream.rs, split.rs), ResolveThm (the lists of
      addresses along the runs of [bind] and [connect]), Resources (a triple over
      the resources a program holds) and ResourcesThm ([bind] and [connect], also
      when their futures are given up half way), IncomingThm (the stream
      of incoming connections); Debug (what every type shows of itself); Macros.
    - ConnectSys puts the loop of [connect] over the addresses in its
      environment: the executor that polls it, the system that completes the
      attempts, the callbacks of the one event all attempts share.  ConnectThm
      abstracts its runs to those of a machine whose states say which attempt
      is where ([step_moves]), ConnectWake and ConnectTerm have what holds when the
      task is polled only because it was woken, ConnectEx the witnesses and
      the schedule that loses a wake-up.

    ** What is proved

    - Overlapped operations: a handle refines two independent halves
      ([handle_is_two_halves]) and has all their behaviours
      ([half_states_are_handle_states]).  On a half no cell is accessed
      concurrently in a conflicting way ([handle_race_free]) and every outcome
      is delivered exactly once and in order ([handle_delivery]), as long as no
      operation that completes at once posts a packet and, for the second, no
      waiting cancellation caught an operation; both conditions are necessary
      (IoHandleEx).  The drop of a handle starts to close it only when the
      system has finished with it ([drop_waits_for_the_system]), but not when
      the callbacks have ([drop_frees_under_a_callback]).  An event delivers the
      outcome of its operation and loses no wake-up ([event_delivery],
      [event_wakes]): it refines a future of one operation whose polls are
      atomic ([event_refines_future]), and its word changes as its typestate says
      ([event_typestate]); its drop waits for the operation and then returns
      ([event_drop_waits], [event_drop_returns]), and callbacks that the pool
      starts later leave what the event stores alone.
    - Connecting: every attempt of [connect] has its own outcome although the
      attempts share one event ([connect_delivery]); when the task is polled
      only because it was woken the loop ends ([connect_terminates],
      [connect_wakes]), otherwise it may wait for ever
      ([connect_loses_a_wake_up]).  A resolution that is given up frees what the
      system is working on ([resolution_freed_in_flight]).
    - The executor: it refines three first in first out queues and a bag of
      running tasks ([executor_refines]); whatever the interleaving it never
      panics, tasks run in the right context, every task pushed is run exactly
      once, and without new tasks the pool comes to rest (ExecutorThm); a pool
      that [build] returns is wired as these theorems ask.
    - Blocking: no wake-up is lost and the result is the task's (Waker); down
      to the queues and callbacks of the pool, with other tasks around,
      [block_on] returns what its future is ready with and polls it no further
      ([block_on_yields]), and the runtime and the wake-ups of that future are
      enough for it to return ([block_on_completes]).
    - Resources: what [build], [bind], [connect], [accept] and the drop of a
      handle acquire and release, on every path (ThreadpoolThm, TcpThm,
      HandleThm); a list of addresses is freed once
      ([resolved_list_is_freed_once]); [bind] and [connect] return all they take
      but what their result owns, also when their future is given up while it is
      suspended, and then leave a socket that nobody owns and, while the
      resolution goes on, the list that the system makes for it
      ([network_functions_account]); the connections of [Incoming] have sockets
      of their own (IncomingThm).
    - Data: [read_exact] and [write_all] transfer exactly the bytes of the
      buffer, over any reader or writer that honours its contract
      ([read_exact_is_exact], [write_all_is_exact]) and over a [TcpStream] down
      to the completion callbacks, one at a time ([tcp_read_exact_is_exact],
      [tcp_write_all_is_exact]) or both at once
      ([duplex_transfers_are_exact]), the system writing only in the buffer that
      is lent ([duplex_writes_only_the_lent_buffer]); a dropped future gives its buffer back
      ([dropped_future_returns_its_buffer]) unless it was cancelled before
      ([cancelled_future_is_written_after_its_drop]), but may leave its result to
      the next one ([stale_results_corrupt_the_next_transfer]).  A chain reads one
      reader after the other, wide strings and ports decode to what they came
      from, iterators over addresses are exhaustive.
    - Where the code does not do what it means to, a theorem says what it does
      instead: the files named -Ex, [wait_blocks_at_most_once],
      [builder_setters_are_swapped], [dropping_a_suspended_cancel_is_undefined]
      and others.

    ** Bounds and fuel

    Functions that call themselves ([exact_poll], [all_poll], [info_next])
    take fuel and answer [None] when it is used up; the theorems on
    [read_exact], [write_all] and the address iterators say how much is enough
    (one unit more than the bytes of the buffer, or than the nodes and addresses
    of the list), and those on the end of the input that no amount is.  The
    runs of a transition system are unbounded; progress theorems give the
    number of steps.  Integers are [Z]; the casts of the code ([as u32], [as
    i32]) and the wrap-around of [usize] and [u32] arithmetic in release builds
    are written out.

    ** What is not modelled

    Memory orderings (all atomic accesses are sequentially consistent), the
    inside of async-task (for the runs of the pool it is two facts about a
    task, whether it has a [Runnable] and whether it is completed; a task that
    is woken while it runs is woken after the run), the rendering of [Debug] (what is shown is modelled,
    not its layout), the optional feature tracing, spurious failures of
    allocation; [HeapAllocated] and [Extract] (src/src/util.rs) have no behaviour.
    The nodes of a resolved list are read at once, before the loop over them:
    nothing changes them until they are freed.  When a future panics, the drops
    of its variables are not modelled.  [Cancelable::cancel] is a move of the
    system of one transfer (Transfer); the two transfers at once (Duplex) are
    not cancelled but by their drops.  A reader is lent its slice as [&mut
    IoSliceMut] and could shrink it; no reader of the crate does, and the model
    of [AsyncRead] returns no slice.

    Programs are compared as functions ([translate_bind], [translate_unroll]),
    so the projection of a handle to its halves uses functional extensionality,
    the only axiom of the development.

    The lines of the implementation no definition translates are the module
    declarations and imports, the headers of [impl] blocks, the marker
    implementations ([Send], [Sync]), the lines of the feature tracing and
    the functions that only forward: the free [block_on] and [yield_now],
    [AsRef] of the split halves and [Deref] of [Threadpool]. *)

From stdpp Require Export base tactics list strings gmap.
From Stdlib Require Export ZArith Lia.

#[export] Set Default Goal Selector "!".

(** ** Scopes and hint databases *)

Declare Scope wae_scope.
Delimit Scope wae_scope with wae.
#[global] Open Scope Z_scope.
#[global] Open Scope wae_scope.

(** [wae] collects the lemmas that close the routine side conditions. *)
Create HintDb wae discriminated.
Create Rewrite HintDb wae.

(** ** Rust's [Result], [Poll] and [std::io::Error] *)

Inductive result (A E : Type) : Type :=
| Ok (a : A)
| Err (e : E).
Arguments Ok {A E} _.
Arguments Err {A E} _.

Inductive Poll (A : Type) : Type :=
| Ready (a : A)
| Pending.
Arguments Ready {A} _.
Arguments Pending {A}.

(** The only custom error kind the sources build is [NotFound]. *)
Inductive ErrorKind := NotFound.

Inductive io_error :=
| OsError (code : Z)
| Custom (kind : ErrorKind) (msg : string).

Abbreviation io_result A := (result A io_error).

#[export] Instance ErrorKind_eq_dec : EqDecision ErrorKind.
Proof. solve_decision. Defined.
#[export] Instance io_error_eq_dec : EqDecision io_error.
Proof. solve_decision. Defined.
#[export] Instance result_eq_dec `{EqDecision A, EqDecision E} : EqDecision (result A E).
Proof. solve_decision. Defined.
#[export] Instance Poll_eq_dec `{EqDecision A} : EqDecision (Poll A).
Proof. solve_decision. Defined.

Definition map_err {A E F} (f : E → F) (r : result A E) : result A F :=
  match r with Ok a => Ok a | Err e => Err (f e) end.

Definition result_map {A B E} (f : A → B) (r : result A E) : result B E :=
  match r with Ok a => Ok (f a) | Err e => Err e end.

Definition is_ok {A E} (r : result A E) : bool :=
  match r with Ok _ => true | Err _ => false end.

(** ** Machine integers

    A [w]-bit unsigned integer is a [Z]; a cast truncates, [as i32]
    reinterprets the truncated value in two's complement. *)

Definition wrap (w z : Z) : Z := z mod 2 ^ w.
Abbreviation as_u32 z := (wrap 32 z).

Definition as_i32 (z : Z) : Z :=
  let u := wrap 32 z in if u <? 2 ^ 31 then u else u - 2 ^ 32.

Definition u32_max : Z := 2 ^ 32 - 1.

Lemma wrap_small (w z : Z) : 0 ≤ z < 2 ^ w → wrap w z = z.
Proof. intros H. unfold wrap. by apply Z.mod_small. Qed.

Lemma wrap_range (w z : Z) : 0 ≤ w → 0 ≤ wrap w z < 2 ^ w.
Proof. intros H. unfold wrap. apply Z.mod_pos_bound. lia. Qed.

Lemma as_i32_small (z : Z) : 0 ≤ z < 2 ^ 31 → as_i32 z = z.
Proof.
  intros H. unfold as_i32. rewrite wrap_small by lia.
  destruct (Z.ltb_spec z (2 ^ 31)); lia.
Qed.

#[export] Hint Resolve wrap_range : wae.

(** ** Tactics shared by the development *)

(** Case on the first match of the goal or a hypothesis and simplify. *)
Ltac split_match :=
  repeat (first
    [ progress simplify_eq/=
    | match goal with H : context [match ?x with _ => _ end] |- _ => destruct x eqn:? end
    | match goal with |- context [match ?x with _ => _ end] => destruct x eqn:? end ]).

(** Destruct every conjunction and existential of the context. *)
Ltac explode :=
  repeat match goal with
  | H : _ ∧ _ |- _ => destruct H
  | H : ∃ _, _ |- _ => destruct H
  end.

(** ** Sums and counting *)

Fixpoint total {A} (f : A → nat) (l : list A) : nat :=
  match l with
  | [] => 0
  | x :: l => f x + total f l
  end.

Abbreviation count P := (total (λ x, if P x then 1%nat else 0%nat)).

Section counting.
Context {A : Type}.
Implicit Types (f : A → nat) (P : A → bool) (l : list A).

Lemma total_app f l1 l2 : total f (l1 ++ l2) = (total f l1 + total f l2)%nat.
Proof. induction l1 as [|x l1 IH]; simpl; [done|]. rewrite IH. lia. Qed.

Lemma total_insert f l i x y :
  l !! i = Some x → (total f (<[i := y]> l) + f x = total f l + f y)%nat.
Proof.
  revert i; induction l as [|z l IH]; intros [|i] Hi; simplify_eq/=; [lia|].
  specialize (IH i Hi). lia.
Qed.

Lemma total_delete f l i x :
  l !! i = Some x → (total f (delete i l) + f x = total f l)%nat.
Proof.
  revert i; induction l as [|z l IH]; intros [|i] Hi; simplify_eq/=; [lia|].
  specialize (IH i Hi). change (total f (delete i l) + f x = total f l)%nat in IH. lia.
Qed.

Lemma count_app P l1 l2 : count P (l1 ++ l2) = (count P l1 + count P l2)%nat.
Proof. apply total_app. Qed.

Lemma count_insert P l i x y :
  l !! i = Some x →
  (count P (<[i := y]> l) + (if P x then 1 else 0) = count P l + (if P y then 1 else 0))%nat.
Proof. apply (total_insert (λ x, if P x then 1%nat else 0%nat)). Qed.

Lemma count_delete P l i x :
  l !! i = Some x → (count P (delete i l) + (if P x then 1 else 0) = count P l)%nat.
Proof. apply (total_delete (λ x, if P x then 1%nat else 0%nat)). Qed.

Lemma count_pos P l i x : l !! i = Some x → P x = true → (0 < count P l)%nat.
Proof. intros Hi Hx. pose proof (count_delete P l i x Hi) as H. rewrite Hx in H. lia. Qed.

Lemma count_zero P l : (∀ x, x ∈ l → P x = false) → count P l = 0%nat.
Proof.
  induction l as [|x l IH]; intros H; [done|]. simpl.
  rewrite (H x) by set_solver. apply IH. set_solver.
Qed.

Lemma total_perm f l1 l2 : l1 ≡ₚ l2 → total f l1 = total f l2.
Proof. induction 1; simpl; lia. Qed.

Lemma count_ext P P' l : (∀ x, x ∈ l → P x = P' x) → count P l = count P' l.
Proof.
  induction l as [|x l IH]; intros H; [done|]. simpl. rewrite (H x) by set_solver.
  f_equal. apply IH. set_solver.
Qed.
End counting.

Lemma count_fmap {A B} (g : A → B) (P : B → bool) (l : list A) : count P (g <$> l) = count (λ x, P (g x)) l.
Proof. induction l as [|x l IH]; [done|]. simpl. by f_equal. Qed.

Lemma count_omap {A B} (g : A → option B) (P : B → bool) (l : list A) :
  count P (omap g l) = count (λ x, match g x with Some y => P y | None => false end) l.
Proof.
  induction l as [|x l IH]; [done|]. simpl. destruct (g x); simpl; unfold omap in IH; by rewrite IH.
Qed.

(** ** Deleting from a concatenation *)

Lemma delete_app_l {A} (l1 l2 : list A) i : (i < length l1)%nat → delete i (l1 ++ l2) = delete i l1 ++ l2.
Proof. revert i. induction l1 as [|x l1 IH]; intros [|i] Hi; simpl in *; try lia; [done|]. f_equal. apply IH. lia. Qed.

Lemma delete_app_r {A} (l1 l2 : list A) i :
  (length l1 ≤ i)%nat → delete i (l1 ++ l2) = l1 ++ delete (i - length l1)%nat l2.
Proof. revert i. induction l1 as [|x l1 IH]; intros [|i] Hi; simpl in *; try lia; try done. f_equal. apply IH. lia. Qed.

(** ** Prefixes *)

(** The prefix of a list grows by what comes next. *)
Lemma take_more {A} (l xs rest : list A) k :
  (k ≤ length l)%nat → skipn k l = xs ++ rest →
  take (k + length xs) l = take k l ++ xs ∧ rest = skipn (k + length xs) l ∧
  (k + length xs ≤ length l)%nat.
Proof.
  intros Hk Hl. split_and!.
  - by rewrite <- take_take_drop, Hl, take_app_length.
  - by rewrite <- drop_drop, Hl, drop_app_length.
  - pose proof (length_skipn k l) as Hlen. rewrite Hl, length_app in Hlen. lia.
Qed.

(** ** Lists of tagged values, functions updated at a point *)

Section tagged.
Context {K : Type} `{EqDecision K} {A : Type}.
Implicit Types (a : K) (l : list (K * A)).

(** The values tagged [a]. *)
Definition at_key a l : list A :=
  omap (λ e : K * A, if decide (e.1 = a) then Some e.2 else None) l.

#[local] Arguments at_key : simpl never.

Lemma at_key_app a l1 l2 : at_key a (l1 ++ l2) = at_key a l1 ++ at_key a l2.
Proof. unfold at_key. by rewrite omap_app. Qed.

Lemma at_key_one a b x : at_key a [(b, x)] = if decide (b = a) then [x] else [].
Proof. unfold at_key. simpl. by destruct (decide (b = a)). Qed.

Lemma at_key_cons a b x l : at_key a ((b, x) :: l) = if decide (b = a) then x :: at_key a l else at_key a l.
Proof. unfold at_key. simpl. by destruct (decide (b = a)). Qed.

(** A position among the values tagged [a]: what happens there happens at
    one position of the whole list, and conversely. *)
Lemma at_key_lookup a l i x :
  l !! i = Some (a, x) →
  ∃ j, at_key a l !! j = Some x ∧ (∀ y, at_key a (<[i := (a, y)]> l) = <[j := y]> (at_key a l)) ∧
    at_key a (delete i l) = delete j (at_key a l).
Proof.
  revert i. induction l as [|[b z] l IH]; intros [|i] Hi; simplify_eq/=.
  - exists 0%nat. rewrite at_key_cons, decide_True by done. split_and!; [done| |done].
    intros y. simpl. by rewrite at_key_cons, decide_True.
  - destruct (IH i Hi) as (j & Hj & Hins & Hdel).
    exists (if decide (b = a) then S j else j). rewrite at_key_cons. split_and!.
    + by destruct (decide (b = a)).
    + intros y. simpl. rewrite at_key_cons, Hins. by destruct (decide (b = a)).
    + rewrite at_key_cons. destruct (decide (b = a)); [apply (f_equal (cons z)); exact Hdel|exact Hdel].
Qed.

Lemma at_key_other a b l i x :
  l !! i = Some (b, x) → b ≠ a →
  (∀ y, at_key a (<[i := (b, y)]> l) = at_key a l) ∧ at_key a (delete i l) = at_key a l.
Proof.
  revert i. induction l as [|[b' z] l IH]; intros [|i] Hi Hb; simplify_eq/=.
  - split; [intros y; simpl|]; by rewrite !at_key_cons, !decide_False.
  - destruct (IH i Hi Hb) as [Hins Hdel].
    split; [intros y; simpl; by rewrite !at_key_cons, Hins|].
    rewrite !at_key_cons. destruct (decide (b' = a)); [apply (f_equal (cons z)); exact Hdel|exact Hdel].
Qed.

(** The first value tagged [a]. *)
Lemma at_key_split a t l xs :
  at_key a l = t :: xs → ∃ l3 l4, l = l3 ++ (a, t) :: l4 ∧ at_key a l3 = [] ∧ at_key a l4 = xs.
Proof.
  induction l as [|[b t'] l IH]; intros Hl; [done|]. rewrite at_key_cons in Hl.
  case_decide as Hb; simplify_eq/=; [by exists [], l|].
  destruct (IH Hl) as (l3 & l4 & -> & Hl3 & Hl4). exists ((b, t') :: l3), l4. split_and!; [done| |done].
  rewrite at_key_cons. by rewrite decide_False.
Qed.

(** A list that for every tag has the first values of another. *)
Lemma at_key_submseteq l1 l2 : (∀ a, ∃ xs, at_key a l2 = at_key a l1 ++ xs) → l1 ⊆+ l2.
Proof.
  revert l2. induction l1 as [|[a t] l1 IH]; intros l2 Heq; [apply submseteq_nil_l|].
  destruct (Heq a) as (xs & Ha). rewrite at_key_cons, decide_True in Ha by done. simpl in Ha.
  apply at_key_split in Ha as (l3 & l4 & -> & Hl3 & Hl4).
  rewrite <- Permutation_middle. apply submseteq_skip, IH. intros b. destruct (Heq b) as (ys & Hb).
  rewrite at_key_app, !at_key_cons in Hb. rewrite at_key_app.
  case_decide as Hab; simplify_eq/=; [|by exists ys]. rewrite Hl3 in *. simplify_eq/=. by exists xs.
Qed.

(** Lists with the same values for every tag have the same elements. *)
Lemma at_key_perm l1 l2 : (∀ a, at_key a l1 = at_key a l2) → l1 ≡ₚ l2.
Proof.
  intros Heq. apply (anti_symm submseteq); apply at_key_submseteq; intros a; exists []; by rewrite app_nil_r.
Qed.

(** [f] with the value [x] at [a]. *)
Definition update {B} a (x : B) (f : K → B) : K → B := λ b, if decide (b = a) then x else f b.

Lemma update_same {B} a (x : B) f : update a x f a = x.
Proof. unfold update. by rewrite decide_True. Qed.
Lemma update_other {B} a b (x : B) f : b ≠ a → update a x f b = f b.
Proof. intros Hb. unfold update. by rewrite decide_False. Qed.
End tagged.

#[global] Arguments at_key : simpl never.

(** ** Labelled transition systems

    Every concurrent component of the development is an executable
    labelled transition system: the label names the thread that moves and
    carries the answer of the environment, [lstep] says where it leads, or
    [None] when the move is not enabled. *)

Class LTS (L St : Type) := {
  linit : St;
  lstep : L → St → option St;
}.
#[export] Hint Mode LTS - ! : typeclass_instances.

Section lts.
Context `{LTS L St}.
Implicit Types (l : L) (ls : list L) (s : St).
(** A schedule is a list of labels. *)
Fixpoint exec (ls : list L) (s : St) : option St :=
  match ls with
  | [] => Some s
  | l :: ls => s' ← lstep l s; exec ls s'
  end.
(** The unlabelled relation, for induction and for stdpp's closures. *)
Inductive step (s s' : St) : Prop :=
| step_intro l (Hl : lstep l s = Some s').
Definition reachable s : Prop := rtc step linit s.
Lemma exec_app ls1 ls2 s :
  exec (ls1 ++ ls2) s = (s' ← exec ls1 s; exec ls2 s').
Proof.
  revert s; induction ls1 as [|l ls1 IH]; intros s; [done|]; simpl.
  destruct (lstep l s); simpl; [apply IH | done].
Qed.
Lemma exec_rtc ls s s' : exec ls s = Some s' → rtc step s s'.
Proof.
  revert s; induction ls as [|l ls IH]; intros s Hex; simplify_eq/=; [done|].
  destruct (lstep l s) as [s1|] eqn:Hl; simplify_eq/=.
  eapply rtc_l; [by econstructor | by apply IH].
Qed.
Lemma rtc_exec s s' : rtc step s s' → ∃ ls, exec ls s = Some s'.
Proof.
  induction 1 as [s|s s1 s2 [l Hl] _ [ls Hls]]; [by exists []|].
  exists (l :: ls). simpl. by rewrite Hl.
Qed.
Lemma reachable_exec s : reachable s ↔ ∃ ls, exec ls linit = Some s.
Proof. split; [apply rtc_exec | intros [ls Hls]; by eapply exec_rtc]. Qed.
(** [P] is inductive when every enabled move preserves it. *)
Definition preserved (P : St → Prop) : Prop :=
  ∀ l s s', P s → lstep l s = Some s' → P s'.
Lemma exec_preserved (P : St → Prop) ls s s' :
  preserved P → P s → exec ls s = Some s' → P s'.
Proof.
  intros HP. revert s; induction ls as [|l ls IH]; intros s Hs Hex; simplify_eq/=; [done|].
  destruct (lstep l s) as [s1|] eqn:Hl; simplify_eq/=. eauto.
Qed.
(** The invariant rule: an inductive property of the initial state holds
    after every schedule. *)
Lemma invariant (P : St → Prop) ls s :
  P linit → preserved P → exec ls linit = Some s → P s.
Proof. intros ???. by eapply exec_preserved. Qed.
(** [G] holds of every state a schedule goes through. *)
Fixpoint along (G : St → bool) (ls : list L) (s : St) : bool :=
  G s && match ls with
         | [] => true
         | l :: ls => match lstep l s with Some s' => along G ls s' | None => true end
         end.
Lemma along_app (G : St → bool) ls1 ls2 s s1 :
  exec ls1 s = Some s1 → along G (ls1 ++ ls2) s = along G ls1 s && along G ls2 s1.
Proof.
  revert s; induction ls1 as [|l ls1 IH]; intros s Hex; simplify_eq/=.
  - rewrite andb_true_r. destruct ls2; simpl; by destruct (G s1).
  - destruct (lstep l s) as [s2|]; simplify_eq/=. by rewrite (IH s2 Hex), andb_assoc.
Qed.
(** The invariant rule under a guard that holds along the schedule. *)
Lemma invariant_along (G : St → bool) (P : St → Prop) ls s s' :
  (∀ l s s', P s → G s' = true → lstep l s = Some s' → P s') →
  P s → along G ls s = true → exec ls s = Some s' → P s'.
Proof.
  intros HP. revert s; induction ls as [|l ls IH]; intros s Hs HG Hex; simplify_eq/=; [done|].
  apply andb_prop in HG as [_ HG]. destruct (lstep l s) as [s1|] eqn:Hl; simplify_eq/=.
  eapply (IH s1); [|done|done]. eapply HP; [done| |done].
  destruct ls; simpl in HG; by apply andb_prop in HG as [??].
Qed.
(** The rule for schedules made of some labels only. *)
Lemma exec_preserved_by (ok : L → bool) (P : St → Prop) ls s s' :
  (∀ l s s', ok l = true → P s → lstep l s = Some s' → P s') →
  forallb ok ls = true → P s → exec ls s = Some s' → P s'.
Proof.
  intros HP. revert s; induction ls as [|l ls IH]; intros s Hok Hs Hex; simplify_eq/=; [done|].
  apply andb_prop in Hok as [Hl Hok]. destruct (lstep l s) as [s1|] eqn:Hs1; simplify_eq/=.
  eauto.
Qed.
(** A set of states closed under every move can never be left. *)
Lemma preserved_rtc (P : St → Prop) s s' : preserved P → P s → rtc step s s' → P s'.
Proof. intros HP Hs [ls Hls]%rtc_exec. by eapply exec_preserved. Qed.
End lts.

(** Two systems that take the same steps on some labels have the same runs on
    the schedules made of them. *)
Lemma exec_agree {L St} (H1 H2 : LTS L St) (ok : L → bool) ls s :
  (∀ l s, ok l = true → lstep (LTS := H1) l s = lstep (LTS := H2) l s) → forallb ok ls = true →
  exec (H := H1) ls s = exec (H := H2) ls s ∧
  ∀ G, along (H := H1) G ls s = along (H := H2) G ls s.
Proof.
  intros Hok. revert s. induction ls as [|l ls IH]; intros s Hls; [done|].
  simpl in Hls. apply andb_prop in Hls as [Hl Hls]. simpl. rewrite Hok by done.
  destruct (lstep (LTS := H2) l s) as [s'|]; simpl; [|done].
  destruct (IH s' Hls) as [-> HG]. split; [done|]. intros G. by rewrite HG.
Qed.

(** Forward simulation with stuttering: every schedule of the concrete
    system is matched by one of the abstract system. *)
Section simulation.
Context `{LTS L1 S1} `{LTS L2 S2} (R : S1 → S2 → Prop).
Definition simulates : Prop :=
  R linit linit ∧
  ∀ l s t s', R s t → lstep l s = Some s' → ∃ ls t', exec ls t = Some t' ∧ R s' t'.
Lemma simulation_exec ls s t s' :
  simulates → R s t → exec ls s = Some s' → ∃ ls' t', exec ls' t = Some t' ∧ R s' t'.
Proof.
  intros [_ Hsim]. revert s t; induction ls as [|l ls IH]; intros s t HR Hex; simplify_eq/=.
  { by exists [], t. }
  destruct (lstep l s) as [s1|] eqn:Hl; simplify_eq/=.
  destruct (Hsim _ _ _ _ HR Hl) as (ls1 & t1 & Hex1 & HR1).
  destruct (IH _ _ HR1 Hex) as (ls2 & t2 & Hex2 & HR2).
  exists (ls1 ++ ls2), t2. split; [|done]. rewrite exec_app, Hex1. done.
Qed.
End simulation.
