(* ===== verification/Prog.v ===== *)
(** * Programs over atomic actions

    The functions of the crate whose interleaving or whose calls to Win32
    matter are written as terms of [prog]: a tree of atomic actions with
    Coq functions as continuations, so that a definition reads like the
    Rust function it models.  An action [a] is answered with a value of type
    [ans a].  [Loop body k] is a Rust [while]/[loop]: [body] is run again
    and again until it yields [Some x], then [k x] follows.  [Fault]
    is the end of a thread that panicked or performed undefined behaviour. *)

From Stdlib Require Import FunctionalExtensionality.
From S2P Require Import Prelude.

Inductive fault :=
| Panicked (msg : string)
| Undefined (what : string).

#[export] Instance fault_eq_dec : EqDecision fault.
Proof. solve_decision. Defined.

Inductive prog (act : Type) (ans : act → Type) (A : Type) : Type :=
| Ret (a : A)
| Act (a : act) (k : ans a → prog act ans A)
| Loop (X : Type) (body : prog act ans (option X)) (k : X → prog act ans A)
| Fault (f : fault).
Arguments Ret {act ans A} _.
Arguments Act {act ans A} _ _.
Arguments Loop {act ans A X} _ _.
Arguments Fault {act ans A} _.

Section bind.
Context {act : Type} {ans : act → Type}.
Fixpoint bind {A B} (p : prog act ans A) (f : A → prog act ans B) : prog act ans B :=
  match p with
  | Ret a => f a
  | Act a k => Act a (λ r, bind (k r) f)
  | Loop body k => Loop body (λ x, bind (k x) f)
  | Fault e => Fault e
  end.
(** One atomic action. *)
Definition act1 (a : act) : prog act ans (ans a) := Act a Ret.
(** One iteration of a loop followed by the rest of it. *)
Definition unroll {A X} (body : prog act ans (option X)) (k : X → prog act ans A) :
    prog act ans A :=
  bind body (λ o, match o with Some x => k x | None => Loop body k end).
Definition loop {X} (body : prog act ans (option X)) : prog act ans X := Loop body Ret.
End bind.

(** Renaming the actions of a program: [f] embeds the actions, [g] reads the
    answers back. *)
Fixpoint translate {act1 ans1 act2 ans2 A} (f : act1 → act2)
    (g : ∀ a, ans2 (f a) → ans1 a) (p : prog act1 ans1 A) : prog act2 ans2 A :=
  match p with
  | Ret a => Ret a
  | Act a k => Act (f a) (λ r, translate f g (k (g a r)))
  | Loop body k => Loop (translate f g body) (λ x, translate f g (k x))
  | Fault e => Fault e
  end.

(** The action a thread is about to perform. *)
Definition next_act {act ans A} (p : prog act ans A) : option act :=
  match p with Act a _ => Some a | _ => None end.

Notation "x <- p ;; q" := (bind p (λ x, q))
  (at level 100, p at next level, right associativity) : wae_scope.
Notation "p ;;; q" := (bind p (λ _, q))
  (at level 100, right associativity) : wae_scope.
(** Rust's [?] operator on a [Result]. *)
Notation "x <-? p ;; q" :=
  (bind p (λ r, match r with Ok x => q | Err e => Ret (Err e) end))
  (at level 100, p at next level, right associativity) : wae_scope.

(** ** Running a program

    [astep a c s] answers action [a] in state [s] under the environment's
    choice [c]; [None] means that the action blocks. *)
Section run.
Context {act : Type} {ans : act → Type} {ch St : Type}.
Context (astep : ∀ a : act, ch → St → option (ans a * St)).
(** One step of a thread. Entering a loop iteration is silent. *)
Definition tstep {A} (c : ch) (p : prog act ans A) (s : St) : option (prog act ans A * St) :=
  match p with
  | Ret _ => None
  | Act a k => '(r, s') ← astep a c s; Some (k r, s')
  | Loop body k => Some (unroll body k, s)
  | Fault _ => None
  end.
(** A thread running alone, one choice per step. *)
Fixpoint run {A} (cs : list ch) (p : prog act ans A) (s : St) : option (prog act ans A * St) :=
  match cs with
  | [] => Some (p, s)
  | c :: cs => '(p', s') ← tstep c p s; run cs p' s'
  end.
Lemma run_app {A} cs1 cs2 (p : prog act ans A) s :
  run (cs1 ++ cs2) p s = ('(p', s') ← run cs1 p s; run cs2 p' s').
Proof.
  revert p s; induction cs1 as [|c cs1 IH]; intros p s; [done|]; simpl.
  destruct (tstep c p s) as [[p' s']|]; simpl; [apply IH | done].
Qed.
(** A thread running alone in an environment that makes the one choice
    [c], for at most [fuel] steps, up to its result. *)
Fixpoint run_to {A} (fuel : nat) (c : ch) (p : prog act ans A) (s : St) :
    option ((A + fault) * St) :=
  match fuel with
  | O => None
  | S fuel =>
    match p with
    | Ret a => Some (inl a, s)
    | Fault f => Some (inr f, s)
    | _ => '(p', s') ← tstep c p s; run_to fuel c p' s'
    end
  end.
(** More fuel never changes a result. *)
Lemma run_to_mono {A} n m c (p : prog act ans A) s x :
  (n ≤ m)%nat → run_to n c p s = Some x → run_to m c p s = Some x.
Proof.
  revert m p s; induction n as [|n IH]; intros m p s Hle Hrun; [done|].
  destruct m as [|m]; [lia|]. simpl in *.
  destruct p; [done| | |done].
  all: destruct (tstep c _ s) as [[p' s']|]; simplify_eq/=; apply IH; [lia|done].
Qed.
End run.

(** The answer is known: the step of an action reduces. *)
Lemma tstep_act {act ans ch St} (astep : ∀ a : act, ch → St → option (ans a * St))
    {A} c a (k : ans a → prog act ans A) s p' s' :
  tstep astep c (Act a k) s = Some (p', s') ↔
  ∃ r, astep a c s = Some (r, s') ∧ p' = k r.
Proof.
  simpl. destruct (astep a c s) as [[r s1]|]; simpl; split; intros; explode; naive_solver.
Qed.

(** ** Equations of programs

    Continuations are functions, so the monad laws are equalities up to
    functional extensionality. *)
Section equations.
Context {act : Type} {ans : act → Type}.

Lemma bind_assoc {A B C} (p : prog act ans A) (f : A → prog act ans B) (g : B → prog act ans C) :
  bind (bind p f) g = bind p (λ a, bind (f a) g).
Proof.
  revert f. induction p as [A a|A a k IH|A X body _ k IH|A e]; intros f; simpl; [done|..|done].
  all: f_equal; apply functional_extensionality; auto.
Qed.

Lemma bind_unroll {A B X} (body : prog act ans (option X)) (k : X → prog act ans A)
    (f : A → prog act ans B) :
  bind (unroll body k) f = unroll body (λ x, bind (k x) f).
Proof.
  unfold unroll. rewrite bind_assoc. f_equal. apply functional_extensionality. by intros [x|].
Qed.

(** The program can move. *)
Definition running {A} (p : prog act ans A) : bool :=
  match p with Act _ _ | Loop _ _ => true | _ => false end.

(** A step of a sequence is a step of its first part. *)
Lemma tstep_bind {ch St A B} (astep : ∀ a : act, ch → St → option (ans a * St)) c
    (p : prog act ans A) (f : A → prog act ans B) s :
  running p = true →
  tstep astep c (bind p f) s = (λ x : prog act ans A * St, (bind x.1 f, x.2)) <$> tstep astep c p s.
Proof.
  destruct p as [|a k|X body k|]; intros Hp; try done; simpl.
  - by destruct (astep a c s) as [[r s']|].
  - by rewrite bind_unroll.
Qed.
End equations.

Section translation.
Context {act1 act2 : Type} {ans1 : act1 → Type} {ans2 : act2 → Type}.
Context (f : act1 → act2) (g : ∀ a, ans2 (f a) → ans1 a).
Abbreviation tr := (translate f g).

Lemma translate_bind {A B} (p : prog act1 ans1 A) (k : A → prog act1 ans1 B) :
  tr (bind p k) = bind (tr p) (λ a, tr (k a)).
Proof.
  revert k. induction p as [A a|A a kp IH|A X body _ kp IH|A e]; intros k; simpl; [done|..|done].
  all: f_equal; apply functional_extensionality; auto.
Qed.

Lemma translate_unroll {A X} (body : prog act1 ans1 (option X)) (k : X → prog act1 ans1 A) :
  tr (unroll body k) = unroll (tr body) (λ x, tr (k x)).
Proof.
  unfold unroll. rewrite translate_bind. f_equal. apply functional_extensionality. by intros [x|].
Qed.

Lemma running_translate {A} (p : prog act1 ans1 A) : running (tr p) = running p.
Proof. by destruct p. Qed.

(** A step of a translated program in a larger state: [get] and [put] give the
    part of the state the actions work on. *)
Lemma tstep_translate {ch St1 St2 A} (astep1 : ∀ a, ch → St1 → option (ans1 a * St1))
    (astep2 : ∀ a, ch → St2 → option (ans2 a * St2)) (get : St2 → St1) (Put : St1 → St2 → St2 → Prop)
    c (p : prog act1 ans1 A) s q s2 :
  (∀ a r s2, astep2 (f a) c s = Some (r, s2) →
     ∃ s1, astep1 a c (get s) = Some (g a r, s1) ∧ Put s1 s s2) →
  Put (get s) s s →
  tstep astep2 c (tr p) s = Some (q, s2) →
  ∃ p' s1, q = tr p' ∧ tstep astep1 c p (get s) = Some (p', s1) ∧ Put s1 s s2.
Proof.
  intros Hstep Hsame Ht. destruct p as [a|a k|X body k|e]; simpl in Ht; try done.
  - destruct (astep2 (f a) c s) as [[r s3]|] eqn:Ha; simplify_eq/=.
    destruct (Hstep a r s2 Ha) as (s1 & Hs1 & Hput). exists (k (g a r)), s1. by rewrite Hs1.
  - simplify_eq. exists (unroll body k), (get s2). by rewrite translate_unroll.
Qed.
End translation.

(** ** Sequential programs against an oracle

    Code that only calls the operating system is run against an oracle that
    answers the [n]-th call; the state is the list of the calls made so far
    with their answers.  Quantifying over the oracle quantifies over every
    behaviour of the operating system. *)
Section oracle.
Context {call : Type} {ans : call → Type}.
Inductive event := Ev (c : call) (r : ans c).
Definition oracle := nat → ∀ c : call, ans c.
Fixpoint calls {A} (p : prog call ans A) (o : oracle) (tr : list event) :
    option (A + fault) * list event :=
  match p with
  | Ret a => (Some (inl a), tr)
  | Fault f => (Some (inr f), tr)
  | Act c k => let r := o (length tr) c in calls (k r) o (tr ++ [Ev c r])
  | Loop _ _ => (None, tr)
  end.
Lemma calls_bind {A B} (p : prog call ans A) (f : A → prog call ans B) o tr :
  calls (bind p f) o tr =
  match calls p o tr with
  | (Some (inl a), tr') => calls (f a) o tr'
  | (Some (inr e), tr') => (Some (inr e), tr')
  | (None, tr') => (None, tr')
  end.
Proof. revert tr; induction p; intros tr; simpl; auto. Qed.

(** The trace only grows. *)
Lemma calls_extends {A} (p : prog call ans A) o tr : ∃ t, (calls p o tr).2 = tr ++ t.
Proof.
  revert tr; induction p as [? ?|? c k IH|? ? body _ k _|? ?]; intros tr; simpl;
    try (by exists []; rewrite app_nil_r).
  destruct (IH (o (length tr) c) (tr ++ [Ev c (o (length tr) c)])) as [t Ht].
  exists (Ev c (o (length tr) c) :: t). by rewrite Ht, <- app_assoc.
Qed.

(** Weakest precondition over every oracle: [Q] holds of the outcome and
    the calls made, whatever the answers. *)
Fixpoint wp {A} (p : prog call ans A) (Q : A + fault → list event → Prop) (tr : list event) : Prop :=
  match p with
  | Ret a => Q (inl a) tr
  | Fault f => Q (inr f) tr
  | Act c k => ∀ r, wp (k r) Q (tr ++ [Ev c r])
  | Loop _ _ => False
  end.

Lemma wp_bind {A B} (p : prog call ans A) (f : A → prog call ans B) Q tr :
  wp p (λ x tr', match x with inl a => wp (f a) Q tr' | inr e => Q (inr e) tr' end) tr →
  wp (bind p f) Q tr.
Proof. revert tr; induction p; intros tr; simpl; auto. Qed.

Lemma wp_mono {A} (p : prog call ans A) (Q1 Q2 : A + fault → list event → Prop) tr :
  (∀ x tr', Q1 x tr' → Q2 x tr') → wp p Q1 tr → wp p Q2 tr.
Proof. revert Q1 Q2 tr; induction p; intros Q1 Q2 tr HQ; simpl; eauto. Qed.

Lemma wp_calls {A} (p : prog call ans A) Q (o : oracle) tr :
  wp p Q tr → ∃ x tr', calls p o tr = (Some x, tr') ∧ Q x tr'.
Proof. revert Q tr; induction p; intros Q tr; simpl; intros HQ; eauto; done. Qed.

Lemma calls_wp {A} (p : prog call ans A) Q (o : oracle) tr x tr' :
  wp p Q tr → calls p o tr = (Some x, tr') → Q x tr'.
Proof.
  intros HQ Heq. destruct (wp_calls p Q o tr HQ) as (y & tr2 & Heq2 & HQ2).
  rewrite Heq in Heq2. injection Heq2 as <- <-. done.
Qed.
End oracle.
Arguments event call ans : clear implicits.
Arguments Ev {call ans} _ _.

(** ** What a program may do

    [within ok p]: whatever the answers, [p] performs only actions of [ok].
    [produces p tr out]: [p] can perform [tr] and end with [out]; loops
    included.  [wlp] is a weakest precondition for it, with an invariant
    for each loop. *)
Section traces.
Context {act : Type} {ans : act → Type}.
Abbreviation event := (event act ans).

Fixpoint within {A} (ok : act → Prop) (p : prog act ans A) : Prop :=
  match p with
  | Ret _ | Fault _ => True
  | Act a k => ok a ∧ ∀ r, within ok (k r)
  | Loop body k => within ok body ∧ ∀ x, within ok (k x)
  end.

Inductive produces : ∀ {A}, prog act ans A → list event → A + fault → Prop :=
| produces_ret A (a : A) : produces (Ret a) [] (inl a)
| produces_fault A f : produces (Fault (A := A) f) [] (inr f)
| produces_act A a (k : ans a → prog act ans A) r tr out :
    produces (k r) tr out → produces (Act a k) (Ev a r :: tr) out
| produces_loop A X (body : prog act ans (option X)) (k : X → prog act ans A) tr out :
    produces (unroll body k) tr out → produces (Loop body k) tr out.

Fixpoint wlp {A} (p : prog act ans A) (Q : A + fault → list event → Prop) (tr : list event) : Prop :=
  match p with
  | Ret a => Q (inl a) tr
  | Fault f => Q (inr f) tr
  | Act a k => ∀ r, wlp (k r) Q (tr ++ [Ev a r])
  | Loop body k =>
      ∃ I : list event → Prop, I tr ∧ ∀ tr, I tr →
        wlp body (λ x tr', match x with
                           | inl None => I tr'
                           | inl (Some x) => wlp (k x) Q tr'
                           | inr f => Q (inr f) tr'
                           end) tr
  end.

Lemma within_bind {A B} ok (p : prog act ans A) (f : A → prog act ans B) :
  within ok p → (∀ a, within ok (f a)) → within ok (bind p f).
Proof. induction p; simpl; intros; naive_solver. Qed.

Definition all_events (ok : act → Prop) (tr : list event) : Prop :=
  Forall (λ e : event, let '(Ev a _) := e in ok a) tr.

Lemma all_events_nil ok : all_events ok [].
Proof. constructor. Qed.

Lemma all_events_cons (ok : act → Prop) a r tr : ok a → all_events ok tr → all_events ok (Ev a r :: tr).
Proof. by constructor. Qed.

Lemma all_events_app ok tr1 tr2 : all_events ok (tr1 ++ tr2) ↔ all_events ok tr1 ∧ all_events ok tr2.
Proof. apply Forall_app. Qed.

Lemma wlp_mono {A} (p : prog act ans A) (Q1 Q2 : A + fault → list event → Prop) tr :
  (∀ x tr', Q1 x tr' → Q2 x tr') → wlp p Q1 tr → wlp p Q2 tr.
Proof.
  revert Q1 Q2 tr. induction p as [A a|A a k IH|A X body IHb k IHk|A f]; intros Q1 Q2 tr HQ; simpl; eauto.
  intros (I & HI & Hb). exists I. split; [done|]. intros tr' Htr'. eapply IHb; [|by apply Hb].
  intros [[x|]|f]; simpl; eauto.
Qed.

Lemma wlp_bind {A B} (p : prog act ans A) (f : A → prog act ans B) Q tr :
  wlp p (λ x tr', match x with inl a => wlp (f a) Q tr' | inr e => Q (inr e) tr' end) tr →
  wlp (bind p f) Q tr.
Proof.
  revert f Q tr. induction p as [A a|A a k IH|A X body IHb k IHk|A e]; intros f Q tr; simpl; eauto.
  intros (I & HI & Hb). exists I. split; [done|]. intros tr' Htr'. eapply wlp_mono; [|by apply Hb].
  intros [[x|]|e]; simpl; eauto.
Qed.

(** A program within [ok] leaves a trace of [ok] actions. *)
Lemma wlp_within {A} ok (p : prog act ans A) Q tr :
  within ok p → (∀ x es, all_events ok es → Q x (tr ++ es)) → wlp p Q tr.
Proof.
  revert Q tr. induction p as [A a|A a k IH|A X body IHb k IHk|A f]; intros Q tr Hp HQ; simpl in *.
  - rewrite <- (app_nil_r tr). by apply HQ, all_events_nil.
  - intros r. destruct Hp as [Ha Hk]. apply IH; [done|]. intros x es Hes. rewrite <- app_assoc.
    by apply HQ, all_events_cons.
  - destruct Hp as [Hb Hk]. exists (λ tr', ∃ es, tr' = tr ++ es ∧ all_events ok es).
    split; [by exists []; rewrite app_nil_r; split; [|apply all_events_nil]|].
    intros ? (es & -> & Hes). apply IHb; [done|].
    intros [[x|]|f] es' Hes'; rewrite <- app_assoc.
    + apply IHk; [done|]. intros y es2 Hes2. rewrite <- !app_assoc. apply HQ.
      by rewrite !all_events_app.
    + exists (es ++ es'). by rewrite all_events_app.
    + apply HQ. by rewrite all_events_app.
  - rewrite <- (app_nil_r tr). by apply HQ, all_events_nil.
Qed.

(** Two postconditions at once. *)
Lemma wlp_and {A} (p : prog act ans A) (Q1 Q2 : A + fault → list event → Prop) tr :
  wlp p Q1 tr → wlp p Q2 tr → wlp p (λ x tr', Q1 x tr' ∧ Q2 x tr') tr.
Proof.
  revert Q1 Q2 tr. induction p as [A a|A a k IH|A X body IHb k IHk|A f]; intros Q1 Q2 tr; simpl; eauto.
  intros (I1 & HI1 & Hb1) (I2 & HI2 & Hb2). exists (λ t, I1 t ∧ I2 t). split; [done|].
  intros tr' [Htr1 Htr2]. eapply wlp_mono; [|by apply IHb; [apply Hb1|apply Hb2]].
  intros [[x|]|f] t [H1 H2]; simpl in *; eauto.
Qed.

(** What a program does, next to what it yields. *)
Lemma wlp_with {A} ok (p : prog act ans A) (Q : A + fault → list event → Prop) tr :
  within ok p → wlp p Q tr → wlp p (λ x tr', Q x tr' ∧ ∃ es, tr' = tr ++ es ∧ all_events ok es) tr.
Proof. intros Hp HQ. apply wlp_and; [done|]. apply (wlp_within ok); [done|]. eauto. Qed.

(** Every run of the program ends as [wlp] says. *)
Lemma wlp_produces {A} (p : prog act ans A) Q tr t out :
  wlp p Q tr → produces p t out → Q out (tr ++ t).
Proof.
  intros Hw Hp. revert Q tr Hw.
  induction Hp as [A a|A f|A a k r t out Hp IH|A X body k t out Hp IH]; intros Q tr Hw; simpl in *.
  - by rewrite app_nil_r.
  - by rewrite app_nil_r.
  - specialize (IH Q (tr ++ [Ev a r])). rewrite <- app_assoc in IH. apply IH, Hw.
  - apply IH. unfold unroll. apply wlp_bind. pose proof Hw as (I & HI & Hb).
    eapply wlp_mono; [|by apply Hb]. intros [[x|]|f] tr' Htr'; simpl; try done.
    exists I. by split.
Qed.

(** Runs of a sequence. *)
Lemma produces_bind {A B} (p : prog act ans A) (f : A → prog act ans B) t a t2 out :
  produces p t (inl a) → produces (f a) t2 out → produces (bind p f) (t ++ t2) out.
Proof.
  intros Hp. revert f. remember (inl a) as x eqn:Hx. revert a Hx.
  induction Hp as [A a0|A e|A c k r t x Hp IH|A X body k t x Hp IH]; intros a Hx f Hf; simplify_eq/=.
  - done.
  - apply produces_act. by eapply IH.
  - apply produces_loop. rewrite <- bind_unroll. by eapply IH.
Qed.

Lemma produces_bind_fault {A B} (p : prog act ans A) (f : A → prog act ans B) t e :
  produces p t (inr e) → produces (bind p f) t (inr e).
Proof.
  intros Hp. revert f. remember (inr e) as x eqn:Hx. revert e Hx.
  induction Hp as [A a0|A e0|A c k r t x Hp IH|A X body k t x Hp IH]; intros e Hx f; simplify_eq/=.
  - constructor.
  - apply produces_act. by eapply IH.
  - apply produces_loop. rewrite <- bind_unroll. by eapply IH.
Qed.

(** Whatever a program does is one of its runs. *)
Lemma wlp_run {A} (p : prog act ans A) tr : wlp p (λ x tr', ∃ es, tr' = tr ++ es ∧ produces p es x) tr.
Proof.
  revert tr. induction p as [A a|A a k IH|A X body IHb k IHk|A f]; intros tr; simpl.
  - exists []. rewrite app_nil_r. split; [done|constructor].
  - intros r. eapply wlp_mono; [|apply IH]. intros x tr' (es & -> & Hes). exists (Ev a r :: es).
    rewrite <- app_assoc. split; [done|by constructor].
  - exists (λ tr', ∃ es, tr' = tr ++ es ∧ ∀ t x, produces (Loop body k) t x → produces (Loop body k) (es ++ t) x).
    split; [by exists []; rewrite app_nil_r|]. intros tr1 (es & -> & Hes).
    eapply wlp_mono; [|apply IHb]. intros [[x|]|f] tr2 (es2 & -> & Hes2).
    + eapply wlp_mono; [|apply IHk]. intros y tr3 (es3 & -> & Hes3). exists (es ++ es2 ++ es3).
      rewrite !app_assoc. split; [done|]. rewrite <- app_assoc. apply Hes. constructor.
      by eapply (produces_bind body).
    + exists (es ++ es2). rewrite app_assoc. split; [done|]. intros t x Ht. rewrite <- app_assoc.
      apply Hes. constructor. by eapply (produces_bind body).
    + exists (es ++ es2). rewrite app_assoc. split; [done|]. apply Hes. constructor. by apply produces_bind_fault.
  - exists []. rewrite app_nil_r. split; [done|constructor].
Qed.
End traces.

(** Walks through a program whose actions are all harmless. *)
Ltac solve_within :=
  repeat first [ done | progress simpl | split | intro | case_match ].

(** Programs embedded in a larger set of actions. *)
Lemma within_translate {act1 ans1 act2 ans2 A} (ok : act2 → Prop) (f : act1 → act2)
    (g : ∀ a, ans2 (f a) → ans1 a) (p : prog act1 ans1 A) :
  within (λ a, ok (f a)) p → within ok (translate f g p).
Proof. induction p; simpl; naive_solver. Qed.

Lemma within_true {act1 ans1 A} (p : prog act1 ans1 A) : within (λ _, True) p.
Proof. by induction p; simpl. Qed.

Lemma wlp_translate_bind {act1 ans1 act2 ans2 A B} (f : act1 → act2) (g : ∀ a, ans2 (f a) → ans1 a)
    (p : prog act1 ans1 A) (k : A → prog act1 ans1 B) Q tr :
  wlp (translate f g p) (λ x tr', match x with
    | inl a => wlp (translate f g (k a)) Q tr'
    | inr e => Q (inr e) tr' end) tr →
  wlp (translate f g (x <- p ;; k x)) Q tr.
Proof.
  revert k Q tr. induction p as [A a|A a kp IH|A X body IHb kp IHk|A e]; intros k Q tr; simpl; eauto.
  intros (I & HI & Hb). exists I. split; [done|]. intros tr' Htr'. eapply wlp_mono; [|by apply Hb].
  intros [[x|]|e]; simpl; eauto.
Qed.

(** One run of a program: every action is answered by [o]. *)
Fixpoint follow {act ans A} (fuel : nat) (o : ∀ a : act, ans a) (p : prog act ans A) :
    option (list (event act ans) * (A + fault)) :=
  match fuel with
  | O => None
  | S fuel =>
    match p with
    | Ret a => Some ([], inl a)
    | Fault f => Some ([], inr f)
    | Act a k => '(tr, out) ← follow fuel o (k (o a)); Some (Ev a (o a) :: tr, out)
    | Loop body k => follow fuel o (unroll body k)
    end
  end.

Lemma follow_produces {act ans A} fuel (o : ∀ a : act, ans a) (p : prog act ans A) tr out :
  follow fuel o p = Some (tr, out) → produces p tr out.
Proof.
  revert p tr out. induction fuel as [|fuel IH]; intros p tr out Hf; [done|].
  destruct p as [a|a k|X body k|f]; simpl in Hf; simplify_eq/=.
  - constructor.
  - destruct (follow _ _ _) as [[tr' out']|] eqn:Hk; simplify_eq/=. constructor. by apply IH.
  - constructor. by apply IH.
  - constructor.
Qed.
