(* ===== verification/Reach.v ===== *)
(** * Programs that stop on the way

    A program need not be run to its end: the future of an [async] function
    can be given up wherever it is suspended.  [reaches p tr a] says that [p]
    can perform [tr] and is then about to perform [a]; [wls] is a weakest
    precondition that speaks of those moments too. *)

From Stdlib Require Import FunctionalExtensionality.
From S2P Require Import Prelude Prog.

Section reach.
Context {act : Type} {ans : act → Type}.
Abbreviation event := (event act ans).
Abbreviation prog := (prog act ans).
Implicit Types (tr es t : list event).

Inductive reaches : ∀ {A}, prog A → list event → act → Prop :=
| reaches_here A a (k : ans a → prog A) : reaches (Act a k) [] a
| reaches_act A a (k : ans a → prog A) r tr b : reaches (k r) tr b → reaches (Act a k) (Ev a r :: tr) b
| reaches_loop A X (body : prog (option X)) (k : X → prog A) tr b :
    reaches (unroll body k) tr b → reaches (Loop body k) tr b.

(** [S] holds before every action, [Q] at the end. *)
Fixpoint wls {A} (S : act → list event → Prop) (p : prog A) (Q : A + fault → list event → Prop) tr : Prop :=
  match p with
  | Ret a => Q (inl a) tr
  | Fault f => Q (inr f) tr
  | Act a k => S a tr ∧ ∀ r, wls S (k r) Q (tr ++ [Ev a r])
  | Loop body k =>
      ∃ I : list event → Prop, I tr ∧ ∀ tr, I tr →
        wls S body (λ x tr', match x with
                             | inl None => I tr'
                             | inl (Some x) => wls S (k x) Q tr'
                             | inr f => Q (inr f) tr'
                             end) tr
  end.

Section rules.
Context (S : act → list event → Prop).

Lemma wls_mono {A} (p : prog A) (Q1 Q2 : A + fault → list event → Prop) tr :
  (∀ x tr', Q1 x tr' → Q2 x tr') → wls S p Q1 tr → wls S p Q2 tr.
Proof.
  revert Q1 Q2 tr. induction p as [A a|A a k IH|A X body IHb k IHk|A f]; intros Q1 Q2 tr HQ; simpl; eauto.
  - intros [Ha Hk]. split; eauto.
  - intros (I & HI & Hb). exists I. split; [done|]. intros tr' Htr'. eapply IHb; [|by apply Hb].
    intros [[x|]|f]; simpl; eauto.
Qed.

Lemma wls_bind {A B} (p : prog A) (f : A → prog B) Q tr :
  wls S p (λ x tr', match x with inl a => wls S (f a) Q tr' | inr e => Q (inr e) tr' end) tr →
  wls S (bind p f) Q tr.
Proof.
  revert f Q tr. induction p as [A a|A a k IH|A X body IHb k IHk|A e]; intros f Q tr; simpl; eauto.
  - intros [Ha Hk]. split; eauto.
  - intros (I & HI & Hb). exists I. split; [done|]. intros tr' Htr'. eapply wls_mono; [|by apply Hb].
    intros [[x|]|e]; simpl; eauto.
Qed.

(** Where the moments in between do not matter. *)
Lemma wls_within {A} (ok : act → Prop) (p : prog A) (Q : A + fault → list event → Prop) tr :
  (∀ a tr, ok a → S a tr) → within ok p → (∀ x es, all_events ok es → Q x (tr ++ es)) → wls S p Q tr.
Proof.
  intros HS. revert Q tr. induction p as [A a|A a k IH|A X body IHb k IHk|A f]; intros Q tr Hp HQ; simpl in *.
  - rewrite <- (app_nil_r tr). by apply HQ, all_events_nil.
  - destruct Hp as [Ha Hk]. split; [by apply HS|]. intros r. apply IH; [done|]. intros x es Hes. rewrite <- app_assoc.
    by apply HQ, all_events_cons.
  - destruct Hp as [Hb Hk]. exists (λ tr', ∃ es, tr' = tr ++ es ∧ all_events ok es).
    split; [by exists []; rewrite app_nil_r; split; [|apply all_events_nil]|].
    intros ? (es & -> & Hes). apply IHb; [done|].
    intros [[x|]|f] es' Hes'; rewrite <- app_assoc.
    + apply IHk; [done|]. intros y es2 Hes2. rewrite <- !app_assoc. apply HQ.
      by rewrite !all_events_app.
    + exists (es ++ es'). by rewrite all_events_app.
    + apply HQ. by rewrite all_events_app.
  - rewrite <- (app_nil_r tr). by apply HQ, all_events_nil.
Qed.

Lemma wls_wlp {A} (p : prog A) Q tr : wls S p Q tr → wlp p Q tr.
Proof.
  revert Q tr. induction p as [A a|A a k IH|A X body IHb k IHk|A f]; intros Q tr; simpl; eauto.
  - intros [_ Hk] r. by apply IH.
  - intros (I & HI & Hb). exists I. split; [done|]. intros tr' Htr'. eapply wlp_mono; [|by apply IHb, Hb].
    intros [[x|]|f]; simpl; eauto.
Qed.

(** What [wls] promises of the moments on the way. *)
Lemma wls_reaches {A} (p : prog A) Q tr t a : wls S p Q tr → reaches p t a → S a (tr ++ t).
Proof.
  intros Hw Hr. revert Q tr Hw.
  induction Hr as [A a k|A a k r t b Hr IH|A X body k t b Hr IH]; intros Q tr Hw; simpl in *.
  - rewrite app_nil_r. apply Hw.
  - specialize (IH Q (tr ++ [Ev a r])). rewrite <- app_assoc in IH. apply IH, Hw.
  - apply (IH Q). unfold unroll. apply wls_bind. pose proof Hw as (I & HI & Hb).
    eapply wls_mono; [|by apply Hb]. intros [[x|]|f] tr' Htr'; simpl; try done.
    exists I. by split.
Qed.
End rules.

(** One run up to an action: the first one that [stop] wants. *)
Fixpoint follow_to {A} (fuel : nat) (o : ∀ a : act, ans a) (stop : list event → act → bool) (tr : list event)
    (p : prog A) : option (list event * act) :=
  match fuel with
  | O => None
  | Datatypes.S fuel =>
    match p with
    | Ret _ | Fault _ => None
    | Act a k => if stop tr a then Some ([], a) else
        '(es, b) ← follow_to fuel o stop (tr ++ [Ev a (o a)]) (k (o a)); Some (Ev a (o a) :: es, b)
    | Loop body k => follow_to fuel o stop tr (unroll body k)
    end
  end.

Lemma follow_to_reaches {A} fuel o stop tr (p : prog A) es a :
  follow_to fuel o stop tr p = Some (es, a) → reaches p es a.
Proof.
  revert tr p es a. induction fuel as [|fuel IH]; intros tr p es a Hf; [done|].
  destruct p as [x|b k|X body k|f]; simpl in Hf; simplify_eq/=.
  - destruct (stop tr b); simplify_eq/=; [constructor|].
    destruct (follow_to _ _ _ _ _) as [[es' c]|] eqn:Hk; simplify_eq/=. constructor. by eapply IH.
  - constructor. by eapply IH.
Qed.
End reach.

(** A renaming after another. *)
Lemma translate_translate {act1 ans1 act2 ans2 act3 ans3 A} (f : act1 → act2) (g : ∀ a, ans2 (f a) → ans1 a)
    (f' : act2 → act3) (g' : ∀ a, ans3 (f' a) → ans2 a) (p : prog act1 ans1 A) :
  translate f' g' (translate f g p) = translate (λ a, f' (f a)) (λ a r, g a (g' (f a) r)) p.
Proof.
  induction p as [A a|A a k IH|A X body IHb k IHk|A e]; simpl; [done|..|done].
  - f_equal. apply functional_extensionality. intros r. apply IH.
  - f_equal; [done|]. apply functional_extensionality. intros x. apply IHk.
Qed.
