(* ===== verification/Extern.v ===== *)
(** * Third-party crates the sources rely on

    [atomic-waker], [concurrent-queue] and [async-task] are not part of the
    repository.  Each is an interface: the operations the sources call and
    the documented behaviour they rely on.  Components are proved against
    the interface; [option_waker], [list_queue] and [flag_task] show that
    the laws can hold and let witnesses compute. *)

From S2P Require Import Prelude.

(** ** [atomic_waker::AtomicWaker]

    [register] stores a waker and replaces the one stored before; [take]
    (the first half of [wake]) removes the stored waker, which is then woken. *)
Class AtomicWaker (W waker : Type) := {
  aw_new : W;
  aw_register : waker → W → W;
  aw_take : W → option waker * W;
}.

Class AtomicWakerLaws (W waker : Type) `{AtomicWaker W waker} : Prop := {
  aw_take_new : (aw_take aw_new).1 = None;
  aw_take_register (k : waker) (w : W) : (aw_take (aw_register k w)).1 = Some k;
  aw_take_take (w : W) : (aw_take (aw_take w).2).1 = None;
}.

#[export] Hint Mode AtomicWaker - - : typeclass_instances.

#[export] Instance option_waker {waker} : AtomicWaker (option waker) waker := {
  aw_new := None;
  aw_register k _ := Some k;
  aw_take w := (w, None);
}.

#[export] Instance option_waker_laws {waker} : AtomicWakerLaws (option waker) waker.
Proof. by constructor. Qed.

(** ** [concurrent_queue::ConcurrentQueue]

    [push] fails when the queue is full or closed; an unbounded queue is
    never full and the sources never close one.  [pop] takes the oldest
    element.  [cq_items] is the abstract content. *)
Class ConcurrentQueue (Q T : Type) := {
  cq_unbounded : Q;
  cq_push : T → Q → option Q;
  cq_pop : Q → option (T * Q);
  cq_items : Q → list T;
}.

Class ConcurrentQueueLaws (Q T : Type) `{ConcurrentQueue Q T} : Prop := {
  cq_items_unbounded : cq_items cq_unbounded = [];
  cq_push_ok (x : T) (q : Q) : ∃ q', cq_push x q = Some q' ∧ cq_items q' = cq_items q ++ [x];
  cq_pop_spec (q : Q) :
    match cq_items q with
    | [] => cq_pop q = None
    | x :: xs => ∃ q', cq_pop q = Some (x, q') ∧ cq_items q' = xs
    end;
}.

#[export] Instance list_queue {T} : ConcurrentQueue (list T) T := {
  cq_unbounded := [];
  cq_push x q := Some (q ++ [x]);
  cq_pop q := match q with [] => None | x :: q' => Some (x, q') end;
  cq_items q := q;
}.

#[export] Instance list_queue_laws {T} : ConcurrentQueueLaws (list T) T.
Proof. constructor; [done | eauto |]. intros [|x q]; simpl; eauto. Qed.

(** ** [async_task]: when a task is scheduled

    [spawn] makes a task with one [Runnable], which the caller schedules.  To
    run a [Runnable] polls the future of the task once and consumes it; waking
    the task calls its schedule function with a new [Runnable], unless it has
    one already or is completed.  A task that is woken while it runs is
    scheduled after the run, as one woken just after it. *)
Class AsyncTask (S : Type) := {
  at_spawn : S;
  at_run : bool → S → S;           (* a run; whether the poll was [Ready] *)
  at_wake : S → S * bool;          (* whether the schedule function is called *)
  at_scheduled : S → bool;         (* there is a [Runnable] *)
  at_completed : S → bool;
}.

Class AsyncTaskLaws (S : Type) `{AsyncTask S} : Prop := {
  at_spawn_spec : at_scheduled at_spawn = true ∧ at_completed at_spawn = false;
  at_run_spec (ready : bool) (s : S) :
    at_scheduled s = true → at_completed s = false →
    at_scheduled (at_run ready s) = false ∧ at_completed (at_run ready s) = ready;
  at_wake_spec (s : S) :
    (at_wake s).2 = negb (at_scheduled s || at_completed s) ∧
    at_scheduled (at_wake s).1 = (at_scheduled s || (at_wake s).2) ∧
    at_completed (at_wake s).1 = at_completed s;
}.

(** Two flags: scheduled, completed. *)
#[export] Instance flag_task : AsyncTask (bool * bool) := {
  at_spawn := (true, false);
  at_run ready s := (false, ready);
  at_wake s := if s.1 || s.2 then (s, false) else ((true, false), true);
  at_scheduled s := s.1;
  at_completed s := s.2;
}.

#[export] Instance flag_task_laws : AsyncTaskLaws (bool * bool).
Proof. constructor; [done|done|]. by intros [[] []]. Qed.
