(* ===== verification/Win32.v ===== *)
(** * The Win32 interface

    The calls the crate makes, as the actions of a program.  Nothing is
    assumed here about what they do: an answer is whatever the environment of
    a run gives.  Handles, sockets and pointers are integers, [null] is 0. *)

From S2P Require Import Prelude Prog.

Definition HANDLE : Type := Z.
Definition SOCKET : Type := Z.
Definition null : Z := 0.
Definition is_null (p : Z) : bool := bool_decide (p = null).

Definition TRUE : Z := 1.
Definition FALSE : Z := 0.
Definition INVALID_SOCKET : SOCKET := 2 ^ 64 - 1.
Definition WSA_IO_PENDING : Z := 997.
Definition ERROR_OPERATION_ABORTED : Z := 995.
Definition ERROR_NOT_FOUND : Z := 1168.
Definition WSAEISCONN : Z := 10056.

Definition AF_UNSPEC : Z := 0.
Definition AF_INET : Z := 2.
Definition AF_INET6 : Z := 23.
Definition SOCK_STREAM : Z := 1.
Definition IPPROTO_TCP : Z := 6.
Definition WSA_FLAG_OVERLAPPED : Z := 1.

(** [WSABUF]: a 32-bit length and the address of the first byte. *)
Record WSABUF := { wsa_len : Z; wsa_buf : Z }.

#[export] Instance WSABUF_eq_dec : EqDecision WSABUF.
Proof. solve_decision. Defined.

(** [TP_CALLBACK_ENVIRON_V3], the fields the crate sets to a value that is
    not null. *)
Record CallbackEnviron := {
  Version : Z;
  Pool : Z;
  CleanupGroup : Z;
  CallbackPriority : Z;
}.

#[export] Instance CallbackEnviron_eq_dec : EqDecision CallbackEnviron.
Proof. solve_decision. Defined.

(** The extension functions the crate asks for by their GUID. *)
Inductive extension := WSAID_ACCEPTEX | WSAID_GETACCEPTEXSOCKADDRS | WSAID_CONNECTEX.

#[export] Instance extension_eq_dec : EqDecision extension.
Proof. solve_decision. Defined.

(** A [SOCKADDR] argument: the bytes of the object the pointer refers to, and
    the length passed along with it. *)
Record sockaddr := { sa_bytes : list Z; sa_len : Z }.

#[export] Instance sockaddr_eq_dec : EqDecision sockaddr.
Proof. solve_decision. Defined.

Inductive win32 :=
(* errors *)
| GetLastError
| WSAGetLastError
(* thread pool *)
| GetSystemInfo
| CreateThreadpool
| SetThreadpoolThreadMaximum (pool max : Z)
| SetThreadpoolThreadMinimum (pool min : Z)
| CloseThreadpool (pool : Z)
| CreateThreadpoolCleanupGroup
| CloseThreadpoolCleanupGroupMembers (group : Z) (cancel : Z)
| CloseThreadpoolCleanupGroup (group : Z)
| CreateThreadpoolWork (context : Z) (environ : CallbackEnviron)
| SubmitThreadpoolWork (work : Z)
| CallbackMayRunLong (instance : Z)
| WSAStartup (version : Z)
(* thread pool input and output *)
| CreateThreadpoolIo (handle : HANDLE) (context : Z) (environ : CallbackEnviron)
| StartThreadpoolIo (io : Z)
| CloseThreadpoolIo (io : Z)
| CancelIoEx (handle : HANDLE) (overlapped : Z)
| GetOverlappedResult (handle : HANDLE) (overlapped : Z) (wait : Z)
| CreateEventW (manual_reset initial : Z)
| ResetEvent (event : HANDLE)
| CreateThreadpoolWait (context : Z) (environ : CallbackEnviron)
| SetThreadpoolWait (wait : Z) (event : HANDLE)
| CloseThreadpoolWait (wait : Z)
| CloseHandle (handle : HANDLE)
(* sockets and names; a function pointer is an address *)
| WSASocketW (family type protocol flags : Z)
| closesocket (s : SOCKET)
| WSARecv (s : SOCKET) (buf : WSABUF) (overlapped : Z)
| WSASend (s : SOCKET) (buf : WSABUF) (overlapped : Z)
| WSAGetOverlappedResult (s : SOCKET) (overlapped : Z) (wait : Z)
| Bind (s : SOCKET) (addr : sockaddr)
| Listen (s : SOCKET) (backlog : Z)
| ExtensionFunction (s : SOCKET) (guid : extension)  (* WSAIoctl, SIO_GET_EXTENSION_FUNCTION_POINTER *)
| ConnectEx (f : Z) (s : SOCKET) (addr : sockaddr) (overlapped : Z)
| AcceptEx (f : Z) (s client : SOCKET) (buf local_len remote_len : Z) (overlapped : Z)
| GetAcceptExSockaddrs (f : Z) (buf local_len remote_len : Z)
| GetAddrInfoExW (host : Z) (port : Z) (hints : Z) (result : Z) (overlapped : Z)
| FreeAddrInfoExW (info : Z).

(** The answer of a call: its return value, with the values written through
    the out-parameters the crate reads. *)
Definition win32_ans (c : win32) : Type :=
  match c with
  | SetThreadpoolThreadMaximum _ _ | CloseThreadpool _
  | CloseThreadpoolCleanupGroupMembers _ _ | CloseThreadpoolCleanupGroup _
  | SubmitThreadpoolWork _ | StartThreadpoolIo _ | CloseThreadpoolIo _
  | SetThreadpoolWait _ _ | CloseThreadpoolWait _ => unit
  | WSAGetOverlappedResult _ _ _ => Z * Z (* the return value and the bytes transferred *)
  | ExtensionFunction _ _ => Z * Z        (* the return value and the function pointer *)
  | GetAcceptExSockaddrs _ _ _ _ => Z * Z (* the remote address and its length *)
  | FreeAddrInfoExW _ => unit
  | _ => Z
  end.

(** The same answer to every call. *)
Definition win32_answer (z : Z) (c : win32) : win32_ans c :=
  match c with
  | SetThreadpoolThreadMaximum _ _ | CloseThreadpool _
  | CloseThreadpoolCleanupGroupMembers _ _ | CloseThreadpoolCleanupGroup _
  | SubmitThreadpoolWork _ | StartThreadpoolIo _ | CloseThreadpoolIo _
  | SetThreadpoolWait _ _ | CloseThreadpoolWait _ => tt
  | WSAGetOverlappedResult _ _ _ | ExtensionFunction _ _ | GetAcceptExSockaddrs _ _ _ _ => (z, z)
  | FreeAddrInfoExW _ => tt
  | _ => z
  end.

(** An action type that contains the Win32 calls. *)
Class HasWin32 (act : Type) (ans : act → Type) := {
  win32_act : win32 → act;
  win32_res : ∀ c, ans (win32_act c) → win32_ans c;
}.

#[export] Instance win32_self : HasWin32 win32 win32_ans := {
  win32_act c := c;
  win32_res _ r := r;
}.

Section sys.
Context {act : Type} {ans : act → Type} `{!HasWin32 act ans}.
Definition sys (c : win32) : prog act ans (win32_ans c) :=
  Act (win32_act c) (λ r, Ret (win32_res c r)).
(** [std::io::Error::last_os_error()] *)
Definition last_os_error : prog act ans io_error :=
  err <- sys GetLastError ;; Ret (OsError (as_i32 err)).
End sys.
