(* ===== verification/IoState.v ===== *)
(** * The shared I/O cells: [src/src/io/shared/state.rs] and [result.rs]

    [IoState] is one atomic word that the polling task, the canceller and the
    thread pool callback race on; [IoResult] is the plain cell in which the
    callback leaves its result.  The operations are programs over four atomic
    actions, so that every client interleaves exactly at the accesses the
    source makes.  Memory orderings are not modelled: accesses are
    sequentially consistent. *)

From S2P Require Import Prelude Prog.

(** ** The states (state.rs, the associated constants) *)

Inductive io_state :=
| IDLE | SCHEDULING | PENDING | CALLBACK | READY | CANCELLED_NOWAIT | CANCELLED_WAIT.

(** The [usize] each constant stands for. *)
Definition io_state_repr (s : io_state) : Z :=
  match s with
  | IDLE => 0
  | SCHEDULING => 1
  | PENDING => 2
  | CALLBACK => 3
  | READY => 4
  | CANCELLED_NOWAIT => 5
  | CANCELLED_WAIT => 6
  end.

#[export] Instance io_state_eq_dec : EqDecision io_state.
Proof. solve_decision. Defined.

#[export] Instance io_state_repr_inj : Inj (=) (=) io_state_repr.
Proof. by intros [] []. Qed.

(** ** Atomic accesses *)

Inductive atomic :=
| ALoad
| AStore (s : io_state)
| ASwap (s : io_state)
| ACompareExchange (expected new : io_state).

Definition atomic_ans (a : atomic) : Type :=
  match a with
  | ALoad | ASwap _ => io_state
  | AStore _ => unit
  | ACompareExchange _ _ => bool
  end.

(** The semantics of one access; [compare_exchange] answers [is_ok()]. *)
Definition atomic_step (a : atomic) (s : io_state) : atomic_ans a * io_state :=
  match a with
  | ALoad => (s, s)
  | AStore s' => (tt, s')
  | ASwap s' => (s, s')
  | ACompareExchange e n => if decide (s = e) then (true, n) else (false, s)
  end.

(** An action type that contains the accesses of an [IoState]. *)
Class HasState (act : Type) (ans : act → Type) := {
  state_act : atomic → act;
  state_ans : ∀ a, ans (state_act a) → atomic_ans a;
}.

Section ops.
Context {act : Type} {ans : act → Type} `{!HasState act ans}.
Abbreviation prog := (prog act ans).
Definition access (a : atomic) : prog (atomic_ans a) :=
  Act (state_act a) (λ r, Ret (state_ans a r)).
Definition new : io_state := IDLE.
Definition set_idle : prog unit := access (AStore IDLE).
Definition schedule : prog bool := access (ACompareExchange IDLE SCHEDULING).
Definition set_pending : prog unit := access (AStore PENDING).
Definition cancel (wait : bool) : prog bool :=
  old <- (if negb wait then access (ASwap CANCELLED_NOWAIT)
          else access (ASwap CANCELLED_WAIT)) ;;
  Ret (bool_decide (old ≠ CANCELLED_NOWAIT)).
Definition callback_pending : prog bool :=
  loop (s <- access ALoad ;;
        Ret (if decide (s = SCHEDULING) then None else Some tt)) ;;;
  access (ACompareExchange PENDING CALLBACK).
Definition callback_cancelled_nowait : prog bool :=
  access (ACompareExchange CANCELLED_NOWAIT CALLBACK).
Definition callback_cancelled_wait : prog bool :=
  access (ACompareExchange CANCELLED_WAIT CALLBACK).
Definition set_ready : prog unit := access (AStore READY).
Definition finish : prog bool := access (ACompareExchange READY READY).
Definition is_cancellable : prog bool :=
  s <- access ALoad ;; Ret (bool_decide (s = PENDING)).
Definition is_busy : prog bool :=
  s <- access ALoad ;; Ret (match s with IDLE | READY => false | _ => true end).
End ops.

(** ** [IoResult] (result.rs)

    [None] is the uninitialised cell; [set] keeps the error code as
    the [u32] the system passed, [get] reinterprets it as an [i32]. *)

Definition IoResult : Type := option (result Z Z).

Definition result_new : IoResult := None.

Definition result_set (result transferred : Z) : IoResult :=
  Some (if decide (result = 0) then Ok transferred else Err result).

(** Reading the uninitialised cell is undefined: [None]. *)
Definition result_get (r : IoResult) : option (io_result Z) :=
  map_err (λ err, OsError (as_i32 err)) <$> r.

Arguments result_set : simpl never.
Arguments result_get : simpl never.

(** What a completion [(result, transferred)] means for the caller. *)
Definition completion (result transferred : Z) : io_result Z :=
  if decide (result = 0) then Ok transferred else Err (OsError (as_i32 result)).

(** [get] after [set] is the completion, for every pair the system passes. *)
Lemma result_get_set (e t : Z) : result_get (result_set e t) = Some (completion e t).
Proof. unfold result_set, completion. by destruct (decide (e = 0)). Qed.
#[export] Hint Rewrite result_get_set : wae.
