(* ===== verification/IoCells.v ===== *)
(** * The cells of an overlapped operation

    [IoHalf] (handle.rs) and [IoEvent] (event.rs) are built from the same
    three cells, an [IoState], an [IoResult] and an [AtomicWaker], next to
    their [OVERLAPPED].  This file has the actions of the code that works on
    such a triple, their effect on the cells, and the call of the
    operating system among them. *)

From S2P Require Import Prelude Prog Extern Win32 IoState.

(** ** Actions *)

Inductive hact (waker : Type) :=
| HState (a : atomic)                     (* self.state *)
| HResultSet (result transferred : Z)     (* self.result.set *)
| HResultGet                              (* self.result.get *)
| HRegister (w : waker)                   (* self.waker.register *)
| HWake                                   (* self.waker.wake *)
| HMayBlock                               (* Handle::try_current().map(may_block) *)
| HSys (c : win32).
Arguments HState {waker} _.
Arguments HResultSet {waker} _ _.
Arguments HResultGet {waker}.
Arguments HRegister {waker} _.
Arguments HWake {waker}.
Arguments HMayBlock {waker}.
Arguments HSys {waker} _.

Definition hans {waker} (a : hact waker) : Type :=
  match a with
  | HState a => atomic_ans a
  | HResultGet => option (io_result Z)
  | HResultSet _ _ | HRegister _ | HWake | HMayBlock => unit
  | HSys c => win32_ans c
  end.

#[export] Instance hact_state {waker} : HasState (hact waker) hans := {
  state_act := HState;
  state_ans _ r := r;
}.

#[export] Instance hact_win32 {waker} : HasWin32 (hact waker) hans := {
  win32_act := HSys;
  win32_res _ r := r;
}.

(** ** The accesses as programs *)

Section accesses.
Context {waker : Type}.
Abbreviation prog := (prog (hact waker) hans).
(** [self.result.get()]: reading a cell never written is undefined. *)
Definition get_result : prog (io_result Z) :=
  r <- act1 (HResultGet : hact waker) ;;
  match r with
  | Some r => Ret r
  | None => Fault (Undefined "read of an uninitialised IoResult")
  end.
Definition register (w : waker) : prog unit := act1 (HRegister w).
End accesses.

(** ** Their effect *)

(** The cells; [woken] logs the wakers [wake] has woken. *)
Record cells (W waker : Type) := {
  c_state : io_state;
  c_result : IoResult;
  c_waker : W;
  woken : list waker;
}.
Arguments c_state {W waker} _.
Arguments c_result {W waker} _.
Arguments c_waker {W waker} _.
Arguments woken {W waker} _.
Arguments Build_cells {W waker} _ _ _ _.

(** The effect of an action, given the system's answer to a call: [sys c ch k]
    is the answer to call [c] in the system state [k] under the choice [ch]. *)
Section actions.
Context {W waker : Type} `{!AtomicWaker W waker}.
Context {ch K : Type} (sys : ∀ c : win32, ch → K → option (win32_ans c * K)).
Definition cells_step (a : hact waker) (x : ch) (s : cells W waker * K) :
    option (hans a * (cells W waker * K)) :=
  let '(c, k) := s in
  match a with
  | HState a =>
      let '(r, st) := atomic_step a (c_state c) in
      Some (r, (Build_cells st (c_result c) (c_waker c) (woken c), k))
  | HResultSet e t =>
      Some (tt, (Build_cells (c_state c) (result_set e t) (c_waker c) (woken c), k))
  | HResultGet => Some (result_get (c_result c), (c, k))
  | HRegister w =>
      Some (tt, (Build_cells (c_state c) (c_result c) (aw_register w (c_waker c)) (woken c), k))
  | HWake =>
      let '(o, aw) := aw_take (c_waker c) in
      Some (tt, (Build_cells (c_state c) (c_result c) aw
                   (woken c ++ match o with Some w => [w] | None => [] end), k))
  | HMayBlock => Some (tt, (c, k))
  | HSys c' => '(r, k') ← sys c' x k; Some (r, (c, k'))
  end.
End actions.
