(* ===== verification/Socket.v ===== *)
(** * Sockets: [src/src/net/tcp/socket.rs] and the [schedule] functions of
    [read.rs] and [write.rs]

    These are the functions an [IoHandle] is parameterised with. *)

From S2P Require Import Prelude Prog Win32.

Section socket.
Context {act : Type} {ans : act → Type} `{!HasWin32 act ans}.
Abbreviation prog := (prog act ans).
(** socket.rs, [new] *)
Definition new : prog (io_result SOCKET) :=
  socket <- sys (WSASocketW AF_UNSPEC SOCK_STREAM IPPROTO_TCP WSA_FLAG_OVERLAPPED) ;;
  if decide (socket ≠ INVALID_SOCKET) then Ret (Ok socket)
  else err <- last_os_error ;; Ret (Err err).
(** socket.rs, [close] *)
Definition close (handle : HANDLE) : prog unit :=
  sys (closesocket handle) ;;; Ret tt.
(** socket.rs, [cancel] *)
Definition cancel (handle : HANDLE) (overlapped : Z) (wait : bool) : prog (io_result unit) :=
  c <- sys (CancelIoEx handle overlapped) ;;
  ret <- (if decide (c ≠ 0) then Ret (Ok tt)
          else err <- last_os_error ;; Ret (Err err)) ;;
  (if wait then sys (GetOverlappedResult handle overlapped TRUE) ;;; Ret tt else Ret tt) ;;;
  Ret ret.
(** The common shape of the two [schedule] functions: start the call,
    fetch the result of an immediate completion, classify the error. *)
Definition schedule_with (start : prog Z) (socket : SOCKET) (overlapped : Z) :
    prog (Poll (io_result Z)) :=
  ret <- start ;;
  if decide (ret = 0) then
    r <- sys (WSAGetOverlappedResult socket overlapped TRUE) ;;
    if decide (r.1 = TRUE) then Ret (Ready (Ok r.2))
    else err <- last_os_error ;; Ret (Ready (Err err))
  else
    err <- sys WSAGetLastError ;;
    if decide (err = WSA_IO_PENDING) then Ret Pending
    else Ret (Ready (Err (OsError err))).
(** read.rs, [schedule] *)
Definition read_schedule (handle : HANDLE) (overlapped : Z) (buf : WSABUF) :
    prog (Poll (io_result Z)) :=
  schedule_with (sys (WSARecv handle buf overlapped)) handle overlapped.
(** write.rs, [schedule] *)
Definition write_schedule (handle : HANDLE) (overlapped : Z) (buf : WSABUF) :
    prog (Poll (io_result Z)) :=
  schedule_with (sys (WSASend handle buf overlapped)) handle overlapped.

(** The common shape of the [AcceptEx] and [ConnectEx] closures (listener.rs,
    stream.rs): [success] are the error codes that count as success. *)
Definition start_extension (start : prog Z) (success : Z → bool) : prog (Poll (io_result unit)) :=
  ret <- start ;;
  if decide (ret = TRUE) then Ret (Ready (Ok tt))
  else
    err <- sys WSAGetLastError ;;
    if success err then Ret (Ready (Ok tt))
    else if decide (err = WSA_IO_PENDING) then Ret Pending
    else Ret (Ready (Err (OsError err))).

(** listener.rs, the closure of [Accept::poll] *)
Definition accept_schedule (acceptex : Z) (socket client : SOCKET) (buf addr_space : Z) (overlapped : Z) :
    prog (Poll (io_result unit)) :=
  start_extension (sys (AcceptEx acceptex socket client buf addr_space addr_space overlapped))
    (λ _, false).

(** stream.rs, the closure of [Connect::poll] *)
Definition connect_schedule (connectex : Z) (socket : SOCKET) (addr : sockaddr) (overlapped : Z) :
    prog (Poll (io_result unit)) :=
  start_extension (sys (ConnectEx connectex socket addr overlapped))
    (λ err, bool_decide (err = WSAEISCONN)).

(** get_addr_info.rs, the closure of [GetAddrInfoFuture::poll] *)
Definition resolve_schedule (host port hints result : Z) (overlapped : Z) :
    prog (Poll (io_result unit)) :=
  ret <- sys (GetAddrInfoExW host port hints result overlapped) ;;
  if decide (ret = 0) then Ret (Ready (Ok tt))
  else if decide (ret = WSA_IO_PENDING) then Ret Pending
  else Ret (Ready (Err (OsError ret))).
End socket.
