(* ===== verification/IoHandle.v ===== *)
(** * Overlapped input and output: [src/src/io/shared/handle.rs]

    An [IoHandle] owns a system handle and two halves, one per direction.
    This file has the code: the functions of one half ([poll], [cancel], the
    completion [callback]) as programs over the cells of that half, and the
    handle's own functions over both halves.  [IoHandleSys] puts a half in
    its environment and [IoHandleInv] proves what it guarantees. *)

From S2P Require Import Prelude Prog Extern Win32.
From S2P Require Import IoState IoCells.

(** ** One half *)

Section half.
Context {waker : Type}.
Abbreviation prog := (prog (hact waker) hans).
Definition ScheduleFn : Type := HANDLE → Z → WSABUF → prog (Poll (io_result Z)).
Definition CancelFn : Type := HANDLE → Z → bool → prog (io_result unit).
(** The fields of [IoHalf] that never change; the [state], [result] and
    [waker] cells are the ones the actions access. *)
Record IoHalf := {
  overlapped : Z;
  half_schedule : ScheduleFn;
  half_cancel : CancelFn;
}.
(** [IoHandle::poll] *)
Definition poll (handle ptp_io : Z) (half : IoHalf) (w : waker) (buf : WSABUF) :
    prog (Poll (io_result Z)) :=
  finished <- IoState.finish ;;
  if (finished : bool) then
    result <- get_result ;;
    IoState.set_idle ;;;
    Ret (Ready result)
  else
    scheduled <- IoState.schedule ;;
    if (scheduled : bool) then
      sys (StartThreadpoolIo ptp_io) ;;;
      p <- half_schedule half handle (overlapped half) buf ;;
      match p with
      | Ready result =>
          register w ;;;
          IoState.set_idle ;;;
          Ret (Ready result)
      | Pending =>
          IoState.set_pending ;;;
          Ret Pending
      end
    else
      register w ;;;
      Ret Pending.
(** [while wait && half.state.is_busy() { thread::yield_now() }] *)
Definition wait_not_busy (wait : bool) : prog unit :=
  loop (if wait then busy <- IoState.is_busy ;;
                     Ret (if (busy : bool) then None else Some tt)
        else Ret (Some tt)).
(** [IoHandle::cancel] *)
Definition cancel (handle : HANDLE) (half : IoHalf) (wait : bool) : prog (io_result unit) :=
  cancellable <- IoState.is_cancellable ;;
  if negb cancellable then Ret (Ok tt) else
  cancel <- IoState.cancel wait ;;
  (if wait then act1 (HMayBlock : hact waker) else Ret tt) ;;;
  ret <- (if (cancel : bool) then half_cancel half handle (overlapped half) wait
          else Ret (Ok tt)) ;;
  wait_not_busy wait ;;;
  Ret ret.
(** The part of [callback] that runs on the half it selected. *)
Definition callback_half (result transferred : Z) : prog unit :=
  let complete :=
    act1 (HResultSet result transferred : hact waker) ;;;
    IoState.set_ready ;;;
    act1 (HWake : hact waker) in
  pending <- IoState.callback_pending ;;
  if (pending : bool) then complete else
  nowait <- IoState.callback_cancelled_nowait ;;
  if (nowait : bool) then complete else
  wait <- IoState.callback_cancelled_wait ;;
  if (wait : bool) then IoState.set_ready else Ret tt.
End half.
Arguments IoHalf : clear implicits.

(** ** The handle *)

Inductive half_id := ReadHalf | WriteHalf.

#[export] Instance half_id_eq_dec : EqDecision half_id.
Proof. solve_decision. Defined.

(** Actions on one of the two halves, or system calls of the handle itself. *)
Inductive iact (waker : Type) :=
| On (h : half_id) (a : hact waker)
| ISys (c : win32).
Arguments On {waker} _ _.
Arguments ISys {waker} _.

Definition ians {waker} (a : iact waker) : Type :=
  match a with On _ a => hans a | ISys c => win32_ans c end.

#[export] Instance iact_win32 {waker} : HasWin32 (iact waker) ians := {
  win32_act := ISys;
  win32_res _ r := r;
}.

Section handle.
Context {waker : Type}.
Abbreviation prog := (prog (iact waker) ians).
Record IoHandle := {
  handle : HANDLE;
  ptp_io : Z;
  close : HANDLE → prog unit;
  read : IoHalf waker;
  write : IoHalf waker;
}.
Definition half_of (self : IoHandle) (h : half_id) : IoHalf waker :=
  match h with ReadHalf => read self | WriteHalf => write self end.
Definition on {A} (h : half_id) (p : Prog.prog (hact waker) hans A) : prog A :=
  translate (On h) (λ _ r, r) p.
(** The completion callback compares the address of the [OVERLAPPED] it is
    given with the two halves'. *)
Definition select_half (self : IoHandle) (ov : Z) : option half_id :=
  if decide (ov = overlapped (read self)) then Some ReadHalf
  else if decide (ov = overlapped (write self)) then Some WriteHalf
  else None.
Definition callback (self : IoHandle) (ov result transferred : Z) : prog unit :=
  match select_half self ov with
  | Some h => on h (callback_half result transferred)
  | None => Fault (Panicked "internal error: entered unreachable code")
  end.
Definition poll_read (self : IoHandle) (w : waker) (buf : WSABUF) :=
  on ReadHalf (poll (handle self) (ptp_io self) (read self) w buf).
Definition poll_write (self : IoHandle) (w : waker) (buf : WSABUF) :=
  on WriteHalf (poll (handle self) (ptp_io self) (write self) w buf).
Definition cancel_read (self : IoHandle) (wait : bool) :=
  on ReadHalf (cancel (handle self) (read self) wait).
Definition cancel_write (self : IoHandle) (wait : bool) :=
  on WriteHalf (cancel (handle self) (write self) wait).
(** [.unwrap()] on an [io::Result<()>] *)
Definition unwrap (p : prog (io_result unit)) : prog unit :=
  r <- p ;;
  match r with
  | Ok _ => Ret tt
  | Err _ => Fault (Panicked "called `Result::unwrap()` on an `Err` value")
  end.
(** [impl Drop for IoHandle] *)
Definition drop (self : IoHandle) : prog unit :=
  unwrap (cancel_read self true) ;;;
  unwrap (cancel_write self true) ;;;
  (if is_null (ptp_io self) then Ret tt else sys (CloseThreadpoolIo (ptp_io self))) ;;;
  close self (handle self).
(** [IoHalf::new]; its cells start as [IoState.new] and the like say. *)
Definition half_new (overlapped : Z) (schedule : ScheduleFn) (cancel : CancelFn) : IoHalf waker :=
  {| overlapped := overlapped; half_schedule := schedule; half_cancel := cancel |}.
(** [IoHandle::new]; [this] is the address of the allocation, [read_overlapped]
    and [write_overlapped] those of the [OVERLAPPED]s in it.  When
    [CreateThreadpoolIo] fails the half-built handle is dropped. *)
Definition new (this read_overlapped write_overlapped : Z) (handle : HANDLE) (close : HANDLE → prog unit)
    (schedule_read : ScheduleFn) (cancel_read : CancelFn)
    (schedule_write : ScheduleFn) (cancel_write : CancelFn) (callback_environ : CallbackEnviron) :
    prog (io_result IoHandle) :=
  let read := half_new read_overlapped schedule_read cancel_read in
  let write := half_new write_overlapped schedule_write cancel_write in
  ptp_io <- sys (CreateThreadpoolIo handle this callback_environ) ;;
  if is_null ptp_io then
    err <- last_os_error ;;
    drop {| handle := handle; ptp_io := null; close := close; read := read; write := write |} ;;;
    Ret (Err err)
  else
    Ret (Ok {| handle := handle; ptp_io := ptp_io; close := close; read := read; write := write |}).
End handle.
Arguments IoHandle : clear implicits.
