(* ===== verification/IoHandleSys.v ===== *)
(** * One half of an [IoHandle] in its environment

    The system has one client (every operation of a half takes [&mut] of the
    stream or split half that owns it, so there is never a second one), the
    operating system and the completion callbacks running on the thread pool.
    A label moves one of them by one atomic action. *)

From S2P Require Import Prelude Prog Extern Win32 Socket.
From S2P Require Import IoState IoCells IoHandle.

(** ** State *)

(** The operating system's view of the half's [OVERLAPPED]. *)
Record kernel := {
  in_flight : nat;                  (* operations started and not completed *)
  status : option (Z * Z);          (* error code and byte count left in the OVERLAPPED *)
  packets : list (Z * Z);           (* completions posted and not yet dispatched *)
  last_error : Z;                   (* of the client's thread *)
  outcomes : list (io_result Z);    (* the outcome of every operation, in order *)
}.

Inductive client_op (waker : Type) :=
| OpPoll (w : waker) (buf : WSABUF)
| OpCancel (wait : bool).
Arguments OpPoll {waker} _ _.
Arguments OpCancel {waker} _.

Inductive client_ret :=
| RPoll (p : Poll (io_result Z))
| RCancel (r : io_result unit).

Inductive client (waker : Type) :=
| Idle
| Running (op : client_op waker) (p : prog (hact waker) hans client_ret).
Arguments Idle {waker}.
Arguments Running {waker} _ _.

Record config (W waker : Type) := {
  cl : cells W waker;
  kn : kernel;
  who : client waker;
  callbacks : list (prog (hact waker) hans unit);
  history : list (client_op waker * client_ret);
}.
Arguments cl {W waker} _.
Arguments kn {W waker} _.
Arguments who {W waker} _.
Arguments callbacks {W waker} _.
Arguments history {W waker} _.
Arguments Build_config {W waker} _ _ _ _ _.

(** ** The environment *)

(** How the system answers [WSARecv] or [WSASend]. *)
Inductive start_answer :=
| StartDone (transferred : Z)   (* completed at once *)
| StartPending                  (* ERROR_IO_PENDING *)
| StartFailed (err : Z).

Inductive answer :=
| ADefault
| AStart (a : start_answer).

Inductive label (waker : Type) :=
| LBegin (op : client_op waker)            (* the client calls an operation *)
| LClient (a : answer)                     (* one action of that operation *)
| LReturn                                  (* it returns *)
| LComplete (result transferred : Z)       (* the system completes an operation *)
| LDispatch                                (* the thread pool runs a callback *)
| LCallback (i : nat)                      (* one action of a callback *)
| LRetire (i : nat).                       (* a finished callback ends *)
Arguments LBegin {waker} _.
Arguments LClient {waker} _.
Arguments LReturn {waker}.
Arguments LComplete {waker} _ _.
Arguments LDispatch {waker}.
Arguments LCallback {waker} _.
Arguments LRetire {waker} _.

(** The moves other than the calls of the client and their returns. *)
Definition internal {waker} (l : label waker) : bool :=
  match l with LBegin _ | LReturn => false | _ => true end.

(** The documented behaviour of the calls on this half's [OVERLAPPED].
    [posts] says whether an operation that completes at once also posts a
    completion packet: it does by default, and does not when the handle was set
    to [FILE_SKIP_COMPLETION_PORT_ON_SUCCESS]. *)
Section environment.
Context (posts : bool).
Definition start_op (a : start_answer) (k : kernel) : option (Z * kernel) :=
  match a with
  | StartDone n =>
      Some (0, {| in_flight := in_flight k; status := Some (0, n);
                  packets := if posts then packets k ++ [(0, n)] else packets k;
                  last_error := last_error k; outcomes := outcomes k ++ [Ok n] |})
  | StartPending =>
      Some (-1, {| in_flight := S (in_flight k); status := None; packets := packets k;
                   last_error := WSA_IO_PENDING; outcomes := outcomes k |})
  | StartFailed e =>
      if decide (e = WSA_IO_PENDING) then None else
      Some (-1, {| in_flight := in_flight k; status := status k; packets := packets k;
                   last_error := e; outcomes := outcomes k ++ [Err (OsError e)] |})
  end.
Definition set_error (e : Z) (k : kernel) : kernel :=
  {| in_flight := in_flight k; status := status k; packets := packets k;
     last_error := e; outcomes := outcomes k |}.
(** A waiting query blocks while the operation is in flight. *)
Definition query (k : kernel) : option ((Z * Z) * kernel) :=
  match status k with
  | None => None
  | Some (e, n) => if decide (e = 0) then Some ((TRUE, n), k)
                   else Some ((FALSE, n), set_error e k)
  end.
Definition sys_step (c : win32) (a : answer) (k : kernel) : option (win32_ans c * kernel) :=
  match c, a return option (win32_ans c * kernel) with
  | StartThreadpoolIo _, _ => Some (tt, k)
  | WSARecv _ _ _, AStart a => start_op a k
  | WSASend _ _ _, AStart a => start_op a k
  | WSAGetOverlappedResult _ _ _, _ => query k
  | GetOverlappedResult _ _ _, _ => '(r, k') ← query k; Some (r.1, k')
  | CancelIoEx _ _, _ =>
      if decide (in_flight k = 0%nat) then Some (0, set_error ERROR_NOT_FOUND k)
      else Some (1, k)
  | GetLastError, _ => Some (last_error k, k)
  | WSAGetLastError, _ => Some (last_error k, k)
  | _, _ => None
  end.
(** The system finishes an operation in flight and posts its packet. *)
Definition complete_op (result transferred : Z) (k : kernel) : option kernel :=
  match in_flight k with
  | O => None
  | S n => Some {| in_flight := n; status := Some (result, transferred);
                   packets := packets k ++ [(result, transferred)];
                   last_error := last_error k;
                   outcomes := outcomes k ++ [completion result transferred] |}
  end.
End environment.

(** One action of the client or of a callback. *)
Abbreviation hstep posts := (cells_step (sys_step posts)).

(** ** The transition system *)

Section system.
Context {W waker : Type} `{!AtomicWaker W waker}.
(** [posts]: see [environment]; [allowed]: the operations the client may
    call; [hid]: which half of [self] is observed. *)
Context (posts : bool) (allowed : client_op waker → bool).
Context (handle ptp_io ov : Z) (hid : half_id).
Definition the_half : IoHalf waker := {|
  overlapped := ov;
  half_schedule := match hid with ReadHalf => read_schedule | WriteHalf => write_schedule end;
  half_cancel := Socket.cancel;
|}.
Definition run_op (op : client_op waker) : prog (hact waker) hans client_ret :=
  match op with
  | OpPoll w buf => p <- poll handle ptp_io the_half w buf ;; Ret (RPoll p)
  | OpCancel wait => r <- IoHandle.cancel handle the_half wait ;; Ret (RCancel r)
  end.
Definition start : config W waker := {|
  cl := Build_cells IoState.new result_new aw_new [];
  kn := {| in_flight := 0; status := Some (0, 0); packets := []; last_error := 0;
           outcomes := [] |};
  who := Idle;
  callbacks := [];
  history := [];
|}.
Definition with_cells (c : config W waker) (s : cells W waker * kernel) who callbacks :=
  Build_config s.1 s.2 who callbacks (history c).
Definition half_step (l : label waker) (c : config W waker) : option (config W waker) :=
  match l with
  | LBegin op =>
      match who c with
      | Idle =>
          if allowed op then
            Some (with_cells c (cl c, kn c) (Running op (run_op op)) (callbacks c))
          else None
      | Running _ _ => None
      end
  | LClient a =>
      match who c with
      | Idle => None
      | Running op p =>
          '(p', s') ← tstep (hstep posts) a p (cl c, kn c);
          Some (with_cells c s' (Running op p') (callbacks c))
      end
  | LReturn =>
      match who c with
      | Running op (Ret r) =>
          Some (Build_config (cl c) (kn c) Idle (callbacks c) (history c ++ [(op, r)]))
      | _ => None
      end
  | LComplete e t =>
      k' ← complete_op e t (kn c);
      Some (with_cells c (cl c, k') (who c) (callbacks c))
  | LDispatch =>
      match packets (kn c) with
      | [] => None
      | (e, t) :: ps =>
          let k := kn c in
          Some (with_cells c
                  (cl c, {| in_flight := in_flight k; status := status k; packets := ps;
                            last_error := last_error k; outcomes := outcomes k |})
                  (who c) (callbacks c ++ [callback_half e t]))
      end
  | LCallback i =>
      p ← callbacks c !! i;
      '(p', s') ← tstep (hstep posts) ADefault p (cl c, kn c);
      Some (with_cells c s' (who c) (<[i := p']> (callbacks c)))
  | LRetire i =>
      match callbacks c !! i with
      | Some (Ret tt) => Some (with_cells c (cl c, kn c) (who c) (delete i (callbacks c)))
      | _ => None
      end
  end.
#[export] Instance half_lts : LTS (label waker) (config W waker) := {
  linit := start;
  lstep := half_step;
}.
End system.

(** The results the completed polls have returned, in order. *)
Definition delivered {waker} (h : list (client_op waker * client_ret)) : list (io_result Z) :=
  omap (λ e : client_op waker * client_ret, match e.2 with RPoll (Ready r) => Some r | _ => None end) h.

(** The state after a schedule, from the initial state. *)
Definition half_exec {W waker} `{!AtomicWaker W waker} (posts : bool)
    (allowed : client_op waker → bool) (handle ptp_io ov : Z) (hid : half_id)
    (ls : list (label waker)) : option (config W waker) :=
  exec (H := half_lts posts allowed handle ptp_io ov hid) ls start.

(** What the client is about to do. *)
Definition client_next {W waker} (c : config W waker) : option (hact waker) :=
  match who c with Running _ p => next_act p | Idle => None end.

(** Every operation is allowed. *)
Definition any_op {waker} (op : client_op waker) : bool := true.
