(* ===== verification/IoHandleInv.v ===== *)
(** * What a half of an [IoHandle] guarantees *)

From S2P Require Import Prelude Prog Extern Win32 Socket.
From S2P Require Import IoState IoCells IoHandle IoHandleSys.

Section phases.
Context {waker : Type}.
Context (handle ptp_io ov : Z) (hid : half_id).
Abbreviation prog := (Prog.prog (hact waker) hans).
Abbreviation half := (the_half (waker := waker) ov hid).
Implicit Types (w : waker) (buf : WSABUF).
(** ** Program counters of the client *)
Inductive cphase :=
(* poll *)
| PStart w buf | PGet | PTaken (r : io_result Z)
| PSchedule w buf | PStartIo w buf | PCall w buf | PQuery w | PQueryErr w | PLastError w
| PRegisterReady w (r : io_result Z) | PIdleReady (r : io_result Z) | PSetPending
| PRegister w | PDone (p : Poll (io_result Z))
(* cancel *)
| CStart (wait : bool) | CSwap (wait : bool) | CMayBlock (c : bool)
| CCancelIo (wait : bool) | CError (wait : bool) | CQuery (r : io_result unit)
| CLoop (wait : bool) (r : io_result unit) | CBusy (r : io_result unit)
| CDone (r : io_result unit)
(* undefined behaviour *)
| CFault (f : fault).
Definition as_poll (p : prog (Poll (io_result Z))) : prog client_ret :=
  r <- p ;; Ret (RPoll r).
Definition as_cancel (p : prog (io_result unit)) : prog client_ret :=
  r <- p ;; Ret (RCancel r).
(** What is left of [poll] and of [cancel] at each point. *)
Definition after_call w (p : Poll (io_result Z)) : prog (Poll (io_result Z)) :=
  match p with
  | Ready r => register w ;;; IoState.set_idle ;;; Ret (Ready r)
  | Pending => IoState.set_pending ;;; Ret Pending
  end.
Definition call_op w buf : prog (Poll (io_result Z)) :=
  p <- half_schedule half handle ov buf ;; after_call w p.
Definition cancel_tail (wait : bool) (r : io_result unit) : prog (io_result unit) :=
  wait_not_busy wait ;;; Ret r.
Definition cancel_call (wait c : bool) : prog (io_result unit) :=
  r <- (if c then half_cancel half handle ov wait else Ret (Ok tt)) ;; cancel_tail wait r.
Definition cancel_query (wait : bool) (r : io_result unit) : prog (io_result unit) :=
  (if wait then sys (GetOverlappedResult handle ov TRUE) ;;; Ret tt else Ret tt) ;;; Ret r.
Definition cden (ph : cphase) : prog client_ret :=
  match ph with
  | PStart w buf => as_poll (poll handle ptp_io half w buf)
  | PGet => as_poll (r <- get_result ;; IoState.set_idle ;;; Ret (Ready r))
  | PTaken r => as_poll (IoState.set_idle ;;; Ret (Ready r))
  | PSchedule w buf => as_poll (
      scheduled <- IoState.schedule ;;
      if (scheduled : bool) then sys (StartThreadpoolIo ptp_io) ;;; call_op w buf
      else register w ;;; Ret Pending)
  | PStartIo w buf => as_poll (sys (StartThreadpoolIo ptp_io) ;;; call_op w buf)
  | PCall w buf => as_poll (call_op w buf)
  | PQuery w => as_poll (
      p <- (r <- sys (WSAGetOverlappedResult handle ov TRUE) ;;
            if decide (r.1 = TRUE) then Ret (Ready (Ok r.2))
            else err <- last_os_error ;; Ret (Ready (Err err))) ;;
      after_call w p)
  | PQueryErr w => as_poll (
      p <- (err <- last_os_error ;; Ret (Ready (Err err))) ;; after_call w p)
  | PLastError w => as_poll (
      p <- (err <- sys WSAGetLastError ;;
            if decide (err = WSA_IO_PENDING) then Ret Pending
            else Ret (Ready (Err (OsError err)))) ;;
      after_call w p)
  | PRegisterReady w r => as_poll (after_call w (Ready r))
  | PIdleReady r => as_poll (IoState.set_idle ;;; Ret (Ready r))
  | PSetPending => as_poll (IoState.set_pending ;;; Ret Pending)
  | PRegister w => as_poll (register w ;;; Ret Pending)
  | PDone p => as_poll (Ret p)
  | CStart wait => as_cancel (IoHandle.cancel handle half wait)
  | CSwap wait => as_cancel (
      c <- IoState.cancel wait ;;
      (if wait then act1 (HMayBlock : hact waker) else Ret tt) ;;;
      cancel_call wait c)
  | CMayBlock c => as_cancel (act1 (HMayBlock : hact waker) ;;; cancel_call true c)
  | CCancelIo wait => as_cancel (cancel_call wait true)
  | CError wait => as_cancel (
      r <- (r <- (err <- last_os_error ;; Ret (Err err)) ;; cancel_query wait r) ;;
      cancel_tail wait r)
  | CQuery r => as_cancel (r <- cancel_query true r ;; cancel_tail true r)
  | CLoop wait r => as_cancel (cancel_tail wait r)
  | CBusy r =>
      o <- (busy <- IoState.is_busy ;; Ret (if (busy : bool) then None else Some tt)) ;;
      match o with
      | Some _ => Ret (RCancel r)
      | None => as_cancel (cancel_tail true r)
      end
  | CDone r => as_cancel (Ret r)
  | CFault f => Fault f
  end.
(** ** Program counters of a callback *)
Inductive kphase :=
| KStart (e t : Z) | KLoad (e t : Z) | KPending (e t : Z) | KNowait (e t : Z)
| KWait (e t : Z) | KSet (e t : Z) | KReady | KReadyWait | KWake | KEnd.
Definition kcomplete (e t : Z) : prog unit :=
  act1 (HResultSet e t : hact waker) ;;; IoState.set_ready ;;; act1 (HWake : hact waker).
Definition kwait : prog unit :=
  wait <- IoState.callback_cancelled_wait ;;
  if (wait : bool) then IoState.set_ready else Ret tt.
Definition knowait (e t : Z) : prog unit :=
  nowait <- IoState.callback_cancelled_nowait ;;
  if (nowait : bool) then kcomplete e t else kwait.
Definition kpending (e t : Z) : prog unit :=
  pending <- IoState.access (ACompareExchange PENDING CALLBACK) ;;
  if (pending : bool) then kcomplete e t else knowait e t.
Definition kden (ph : kphase) : prog unit :=
  match ph with
  | KStart e t => callback_half e t
  | KLoad e t =>
      o <- (s <- IoState.access ALoad ;;
            Ret (if decide (s = SCHEDULING) then None else Some tt)) ;;
      match o with Some _ => kpending e t | None => callback_half e t end
  | KPending e t => kpending e t
  | KNowait e t => knowait e t
  | KWait e t => kwait
  | KSet e t => kcomplete e t
  | KReady => IoState.set_ready ;;; act1 (HWake : hact waker)
  | KReadyWait => IoState.set_ready
  | KWake => act1 (HWake : hact waker)
  | KEnd => Ret tt
  end.
End phases.
Arguments cphase : clear implicits.

(** ** The two automata

    [cnext] and [knext] are the moves of the client and of a callback from
    program counter to program counter; [cstep_next] and [kstep_next] show
    that they are the steps of the programs of [IoHandle]. *)
Section counters.
Context {W waker : Type} `{!AtomicWaker W waker}.
Context (posts : bool) (handle ptp_io ov : Z) (hid : half_id).
Abbreviation cden := (cden (waker := waker) handle ptp_io ov hid).
Abbreviation kden := (kden (waker := waker)).
Abbreviation shared := (cells W waker * kernel)%type.
Definition put (st : io_state) (c : cells W waker) : cells W waker :=
  Build_cells st (c_result c) (c_waker c) (woken c).
Definition put_result (e t : Z) (c : cells W waker) : cells W waker :=
  Build_cells (c_state c) (result_set e t) (c_waker c) (woken c).
Definition put_waker (w : waker) (c : cells W waker) : cells W waker :=
  Build_cells (c_state c) (c_result c) (aw_register w (c_waker c)) (woken c).
Definition do_wake (c : cells W waker) : cells W waker :=
  Build_cells (c_state c) (c_result c) (aw_take (c_waker c)).2
    (woken c ++ match (aw_take (c_waker c)).1 with Some w => [w] | None => [] end).
Definition cancelled (wait : bool) : io_state :=
  if wait then CANCELLED_WAIT else CANCELLED_NOWAIT.
Definition cnext (ph : cphase waker) (a : answer) (s : shared) : option (cphase waker * shared) :=
  let '(c, k) := s in
  let st := c_state c in
  match ph with
  | PStart w buf => Some (if decide (st = READY) then PGet else PSchedule w buf, s)
  | PGet =>
      Some (match result_get (c_result c) with
            | Some r => PTaken r
            | None => CFault (Undefined "read of an uninitialised IoResult")
            end, s)
  | PTaken r => Some (PDone (Ready r), (put IDLE c, k))
  | PSchedule w buf =>
      Some (if decide (st = IDLE) then (PStartIo w buf, (put SCHEDULING c, k))
            else (PRegister w, s))
  | PStartIo w buf => Some (PCall w buf, s)
  | PCall w buf =>
      match a with
      | ADefault => None
      | AStart a =>
          '(r, k') ← start_op posts a k;
          Some (if decide (r = 0) then PQuery w else PLastError w, (c, k'))
      end
  | PQuery w =>
      '(r, k') ← query k;
      Some (if decide (r.1 = TRUE) then PRegisterReady w (Ok r.2) else PQueryErr w, (c, k'))
  | PQueryErr w => Some (PRegisterReady w (Err (OsError (as_i32 (last_error k)))), s)
  | PLastError w =>
      Some (if decide (last_error k = WSA_IO_PENDING) then PSetPending
            else PRegisterReady w (Err (OsError (last_error k))), s)
  | PRegisterReady w r => Some (PIdleReady r, (put_waker w c, k))
  | PIdleReady r => Some (PDone (Ready r), (put IDLE c, k))
  | PSetPending => Some (PDone Pending, (put PENDING c, k))
  | PRegister w => Some (PDone Pending, (put_waker w c, k))
  | CStart wait => Some (if decide (st = PENDING) then CSwap wait else CDone (Ok tt), s)
  | CSwap wait =>
      let b := bool_decide (st ≠ CANCELLED_NOWAIT) in
      Some (if wait then CMayBlock b
            else if b then CCancelIo false else CLoop false (Ok tt),
            (put (cancelled wait) c, k))
  | CMayBlock b => Some (if b then CCancelIo true else CLoop true (Ok tt), s)
  | CCancelIo wait =>
      if decide (in_flight k = 0%nat) then
        Some (CError wait, (c, set_error ERROR_NOT_FOUND k))
      else Some (if wait then CQuery (Ok tt) else CLoop false (Ok tt), s)
  | CError wait =>
      let e := Err (OsError (as_i32 (last_error k))) in
      Some (if wait then CQuery e else CLoop false e, s)
  | CQuery r => '(_, k') ← query k; Some (CLoop true r, (c, k'))
  | CLoop wait r => Some (if wait then CBusy r else CDone r, s)
  | CBusy r => Some (match st with IDLE | READY => CDone r | _ => CLoop true r end, s)
  | PDone _ | CDone _ | CFault _ => None
  end.
Definition knext (ph : kphase) (s : shared) : option (kphase * shared) :=
  let '(c, k) := s in
  let st := c_state c in
  match ph with
  | KStart e t => Some (KLoad e t, s)
  | KLoad e t => Some (if decide (st = SCHEDULING) then KStart e t else KPending e t, s)
  | KPending e t =>
      Some (if decide (st = PENDING) then (KSet e t, (put CALLBACK c, k)) else (KNowait e t, s))
  | KNowait e t =>
      Some (if decide (st = CANCELLED_NOWAIT) then (KSet e t, (put CALLBACK c, k))
            else (KWait e t, s))
  | KWait e t =>
      Some (if decide (st = CANCELLED_WAIT) then (KReadyWait, (put CALLBACK c, k))
            else (KEnd, s))
  | KSet e t => Some (KReady, (put_result e t c, k))
  | KReady => Some (KWake, (put READY c, k))
  | KReadyWait => Some (KEnd, (put READY c, k))
  | KWake => Some (KEnd, (do_wake c, k))
  | KEnd => None
  end.
Definition relabel {A B C} (f : A → B) (o : option (A * C)) : option (B * C) :=
  (λ x : A * C, (f x.1, x.2)) <$> o.
Lemma put_same (c : cells W waker) st : c_state c = st → put st c = c.
Proof. destruct c; simpl. by intros ->. Qed.
Ltac counter_step :=
  repeat first
    [ reflexivity
    | progress (simpl; rewrite ?put_same by (simpl; congruence))
    | match goal with |- context [decide ?P] => destruct (decide P);
        rewrite ?bool_decide_true, ?bool_decide_false by done; simplify_eq/= end
    | match goal with |- context [start_op ?p ?a ?k] => destruct (start_op p a k) as [[??]|] end
    | match goal with |- context [query ?k] => destruct (query k) as [[[??] ?]|] end
    | match goal with |- context [match ?x with _ => _ end] => destruct x eqn:?; simplify_eq/= end
    | match goal with H : aw_take _ = _ |- _ => rewrite H end
    | congruence ].
Lemma cstep_next ph a (s : shared) :
  tstep (hstep posts) a (cden ph) s = relabel cden (cnext ph a s).
Proof.
  destruct s as [[st res aw wk] k], ph, hid; unfold put; counter_step.
Qed.
Lemma kstep_next ph (s : shared) :
  tstep (hstep posts) ADefault (kden ph) s = relabel kden (knext ph s).
Proof. destruct s as [[st res aw wk] k], ph; unfold relabel, knext, put, do_wake; simpl;
  counter_step.
Qed.
End counters.

(** ** The invariant

    Where the outstanding operation is: nowhere, in flight, in a posted
    packet, or in the hands of a callback that has not published it yet. *)
Inductive stage :=
| SNone
| SFlight
| SPacket (e t : Z)
| SLive (k : kphase).

Definition live (k : kphase) : bool :=
  match k with KWake | KEnd => false | _ => true end.

(** The callbacks that hold a completion. *)
Definition lives (ks : list kphase) : list kphase := filter (λ k, live k = true) ks.

Definition stage_ok (k : kernel) (ks : list kphase) (s : stage) : Prop :=
  match s with
  | SNone => in_flight k = 0%nat ∧ packets k = [] ∧ lives ks = []
  | SFlight => in_flight k = 1%nat ∧ packets k = [] ∧ lives ks = []
  | SPacket e t => in_flight k = 0%nat ∧ packets k = [(e, t)] ∧ lives ks = []
  | SLive ph => in_flight k = 0%nat ∧ packets k = [] ∧ lives ks = [ph]
  end.

(** The completion has not been claimed by a callback. *)
Definition unclaimed (s : stage) : bool :=
  match s with
  | SFlight | SPacket _ _ | SLive (KStart _ _) | SLive (KLoad _ _) => true
  | _ => false
  end.

(** Which stages go with which state while the client is not between two
    accesses of its own. *)
Definition rest (st : io_state) (s : stage) : bool :=
  match st, s with
  | IDLE, SNone | READY, SNone => true
  | PENDING, SLive (KPending _ _) => true
  | PENDING, s => unclaimed s
  | CALLBACK, SLive (KSet _ _ | KReady | KReadyWait) => true
  | CANCELLED_NOWAIT, SLive (KWait _ _) => false
  | (CANCELLED_NOWAIT | CANCELLED_WAIT), _ => true
  | _, _ => false
  end.

Section invariant.
Context {waker : Type}.
Implicit Types (ph : cphase waker).
Definition shape ph (st : io_state) (s : stage) (err : Z) : bool :=
  match ph with
  | PGet | PTaken _ =>
      match st, s with READY, SNone => true | _, _ => false end
  | PStartIo _ _ | PCall _ _ | PQuery _ | PQueryErr _ | PRegisterReady _ _ | PIdleReady _ =>
      match st, s with SCHEDULING, SNone => true | _, _ => false end
  | PLastError _ =>
      match st with
      | SCHEDULING =>
          if decide (err = WSA_IO_PENDING) then unclaimed s
          else match s with SNone => true | _ => false end
      | _ => false
      end
  | PSetPending => match st with SCHEDULING => unclaimed s | _ => false end
  | PDone (Ready _) => match st, s with IDLE, SNone => true | _, _ => false end
  | CSwap _ =>
      match st with PENDING | CALLBACK | READY => rest st s | _ => false end
  | _ => rest st s
  end.
(** What the half still owes the client: the outcomes not delivered yet. *)
Definition owes (st : io_state) (s : stage) (res : IoResult) (u : list (io_result Z)) : Prop :=
  match s with
  | SFlight => u = []
  | SPacket e t | SLive (KStart e t | KLoad e t | KPending e t | KNowait e t | KSet e t) =>
      u = [completion e t]
  | SLive KReady => ∃ r, u = [r] ∧ result_get res = Some r
  | SLive _ => False
  | SNone =>
      match st with
      | READY => ∃ r, u = [r] ∧ result_get res = Some r
      | IDLE => u = []
      | _ => (length u ≤ 1)%nat
      end
  end.
(** The client has not marked an operation as cancelled and waited for. *)
Definition unwaiting ph : bool :=
  match ph with
  | CCancelIo wait | CError wait | CLoop wait _ => negb wait
  | CMayBlock _ | CQuery _ | CBusy _ | CFault _ => false
  | _ => true
  end.
Definition integrity ph (st : io_state) (s : stage) (k : kernel) (res : IoResult)
    (u : list (io_result Z)) : Prop :=
  unwaiting ph = true ∧ st ≠ CANCELLED_WAIT ∧
  match ph with
  | PTaken r => u = [r] ∧ result_get res = Some r
  | PRegisterReady _ r | PIdleReady r | PDone (Ready r) => u = [r]
  | PStartIo _ _ | PCall _ _ => u = []
  | PQuery _ => ∃ n, status k = Some (0, n) ∧ u = [Ok n]
  | PQueryErr _ => False
  | PLastError _ =>
      if decide (last_error k = WSA_IO_PENDING) then owes st s res u
      else u = [Err (OsError (last_error k))]
  | _ => owes st s res u
  end.
End invariant.

Section preservation.
Context {W waker : Type} `{!AtomicWaker W waker}.
Context (nw : bool).
Context (handle ptp_io ov : Z) (hid : half_id).
Abbreviation shared := (cells W waker * kernel)%type.
Implicit Types (ph : cphase waker) (kph : kphase).
(** The invariant of a thread-free view: client counter, callback counters,
    cells and kernel. *)
Definition view_inv (ph : cphase waker) (ks : list kphase) (c : cells W waker) (k : kernel)
    (u : list (io_result Z)) : Prop :=
  ∃ s, stage_ok k ks s ∧ shape ph (c_state c) s (last_error k) = true ∧
       (nw = true → integrity ph (c_state c) s k (c_result c) u).
(** Solves the finite case analyses below. *)
Ltac finite :=
  repeat first
    [ progress simplify_eq/=
    | progress explode
    | match goal with H : nw = true → _ |- _ => destruct nw; [specialize (H eq_refl) | clear H] end
    | match goal with H : context [decide ?P] |- _ => destruct (decide P) end
    | match goal with |- context [decide ?P] => destruct (decide P) end
    | match goal with H : match ?x with _ => _ end = true |- _ => destruct x eqn:? end
    | done ].
Lemma stage_ok_kernel k k' ks s :
  in_flight k' = in_flight k → packets k' = packets k → stage_ok k ks s → stage_ok k' ks s.
Proof. intros Hi Hp. destruct s; simpl; by rewrite Hi, Hp. Qed.
(** A client action keeps the stage, except the one that starts an operation. *)
Definition starts (ph : cphase waker) : bool :=
  match ph with PCall _ _ => true | _ => false end.
Lemma cnext_kernel ph a c k ph' c' k' :
  starts ph = false → cnext (W := W) false ph a (c, k) = Some (ph', (c', k')) →
  in_flight k' = in_flight k ∧ packets k' = packets k ∧ outcomes k' = outcomes k ∧
  status k' = status k.
Proof. intros Hst Hstep. destruct ph; simpl in *; unfold query in *; split_match; done. Qed.
Lemma cnext_shape ph a c k s ph' c' k' :
  starts ph = false → shape ph (c_state c) s (last_error k) = true →
  cnext (W := W) false ph a (c, k) = Some (ph', (c', k')) →
  shape ph' (c_state c') s (last_error k') = true.
Proof.
  intros Hst Hsh Hstep. destruct c as [st res aw wk].
  destruct ph; simpl in *; simplify_eq/=; unfold query in *.
  all: destruct st; simpl in *; try done.
  all: finite.
  all: repeat (case_match; simplify_eq/=); try done; finite.
Qed.
Lemma cnext_integrity ph a c k s u ph' c' k' :
  starts ph = false → shape ph (c_state c) s (last_error k) = true →
  integrity ph (c_state c) s k (c_result c) u →
  cnext (W := W) false ph a (c, k) = Some (ph', (c', k')) → c_state c' ≠ CANCELLED_WAIT →
  integrity ph' (c_state c') s k' (c_result c') u.
Proof.
  intros Hst Hsh (Hw & Hs & Hint) Hstep Hs'. destruct c as [st res aw wk]. unfold integrity, owes in *.
  destruct ph; simpl in *; simplify_eq/=; unfold query in *.
  all: destruct st; simpl in *; try done.
  all: repeat (first [ progress simplify_eq/= | progress explode | case_match
    | match goal with |- context [bool_decide ?P] => destruct (bool_decide P) end ]); try done.
  all: repeat split; eauto; try lia.
Qed.
(** Starting the operation: at once, in flight or failed. *)
Lemma view_call w buf ks a c k u ph' c' k' :
  view_inv (PCall w buf) ks c k u →
  cnext (W := W) false (PCall w buf) a (c, k) = Some (ph', (c', k')) →
  ∃ new, outcomes k' = outcomes k ++ new ∧ view_inv ph' ks c' k' (u ++ new).
Proof.
  intros (s & Hok & Hsh & Hint) Hstep. destruct c as [st res aw wk]. simpl in *.
  destruct st; try done. destruct s; try done. destruct Hok as (Hfl & Hpk & Hq).
  destruct a as [|[n| |e]]; simplify_eq/=.
  - exists [Ok n]. split; [done|]. exists SNone. split_and!; [done|done|].
    intros Hnw. destruct (Hint Hnw) as (_ & _ & Hu). simplify_eq/=. split_and!; eauto.
  - exists []. split; [by rewrite app_nil_r|]. exists SFlight. split_and!; [split; simpl; [congruence|done]|done|].
    intros Hnw. destruct (Hint Hnw) as (_ & _ & Hu). simplify_eq/=. done.
  - destruct (decide (e = WSA_IO_PENDING)) as [|Hne]; simplify_eq/=.
    exists [Err (OsError e)]. split; [done|]. exists SNone. split_and!; [done|simpl; by case_decide|].
    intros Hnw. destruct (Hint Hnw) as (_ & _ & Hu). simplify_eq/=. do 2 (split; [done|]). simpl.
    by case_decide.
Qed.
Lemma view_client ph ks a c k u ph' c' k' :
  view_inv ph ks c k u → cnext (W := W) false ph a (c, k) = Some (ph', (c', k')) →
  (nw = true → c_state c' ≠ CANCELLED_WAIT) →
  ∃ new, outcomes k' = outcomes k ++ new ∧ view_inv ph' ks c' k' (u ++ new).
Proof.
  intros Hv Hstep Hg. destruct (starts ph) eqn:Hst.
  { destruct ph; try done. by eapply view_call. }
  destruct Hv as (s & Hok & Hsh & Hint).
  destruct (cnext_kernel _ _ _ _ _ _ _ Hst Hstep) as (Hf & Hp & Ho & _).
  exists []. rewrite !app_nil_r. split; [done|]. exists s. split_and!.
  - by eapply stage_ok_kernel.
  - by eapply cnext_shape.
  - intros Hnw. by eapply cnext_integrity; eauto.
Qed.
End preservation.
