(* ===== verification/IoHandleSafe.v ===== *)
(** * Safety of a half of an [IoHandle] *)

From S2P Require Import Prelude Prog Extern Win32 Socket.
From S2P Require Import IoState IoCells IoHandle IoHandleSys IoHandleInv.

Section preservation.
Context {W waker : Type} `{!AtomicWaker W waker}.
Context (nw : bool).
Implicit Types (ph : cphase waker) (kph : kphase).
Abbreviation view_inv := (view_inv (W := W) (waker := waker) nw).
(** A callback that still holds a completion moves. *)
Definition live_next (kph' : kphase) : stage :=
  if live kph' then SLive kph' else SNone.
Lemma knext_kernel kph c k kph' c' k' :
  knext (W := W) (waker := waker) kph (c, k) = Some (kph', (c', k')) → k' = k.
Proof. destruct kph; simpl; intros; split_match; done. Qed.
Lemma knext_shape ph kph c k kph' c' k' :
  live kph = true → shape ph (c_state c) (SLive kph) (last_error k) = true →
  knext (W := W) (waker := waker) kph (c, k) = Some (kph', (c', k')) →
  shape ph (c_state c') (live_next kph') (last_error k) = true.
Proof.
  intros Hl Hsh Hstep. destruct c as [st res aw wk].
  destruct kph; simpl in *; simplify_eq/=.
  all: destruct st; simplify_eq/=; try by destruct ph.
  all: destruct ph; simpl in *; try done; repeat case_match; done.
Qed.
Lemma knext_integrity ph kph c k u kph' c' k' :
  live kph = true → shape ph (c_state c) (SLive kph) (last_error k) = true →
  integrity ph (c_state c) (SLive kph) k (c_result c) u →
  knext (W := W) (waker := waker) kph (c, k) = Some (kph', (c', k')) →
  integrity ph (c_state c') (live_next kph') k (c_result c') u.
Proof.
  intros Hl Hsh (Hw & Hs & Hint) Hstep. destruct c as [st res aw wk]. unfold integrity.
  destruct kph; simpl in *; simplify_eq/=.
  all: destruct st; simplify_eq/=; try by destruct ph.
  all: destruct ph; simpl in *; try done; repeat (case_match; simplify_eq/=); try done.
  all: do 2 (split; [done|]); eauto using result_get_set.
Qed.
(** *** Where the live callbacks are *)
Lemma lives_insert ks i a b :
  ks !! i = Some a →
  ∃ l1 l2, lives ks = l1 ++ lives [a] ++ l2 ∧ lives (<[i := b]> ks) = l1 ++ lives [b] ++ l2.
Proof.
  intros Hi. exists (lives (take i ks)), (lives (skipn (S i) ks)).
  unfold lives. rewrite <- !filter_app. split.
  - by rewrite <- (take_drop_middle ks i a) at 1.
  - rewrite insert_take_drop; [done | by eapply lookup_lt_Some].
Qed.
Lemma lives_delete ks i a :
  ks !! i = Some a → live a = false → lives (delete i ks) = lives ks.
Proof.
  intros Hi Ha. unfold lives. rewrite delete_take_drop.
  rewrite <- (take_drop_middle ks i a) at 3 by done.
  rewrite !filter_app, filter_cons, decide_False by congruence. done.
Qed.
Lemma lives_one a : lives [a] = if live a then [a] else [].
Proof. unfold lives. rewrite filter_cons. by destruct (live a). Qed.
Lemma stage_ok_idle k ks i a b s :
  ks !! i = Some a → live a = false → live b = false →
  stage_ok k ks s → stage_ok k (<[i := b]> ks) s.
Proof.
  intros Hi Ha Hb. destruct (lives_insert ks i a b Hi) as (l1 & l2 & E1 & E2).
  rewrite lives_one, Ha in E1. rewrite lives_one, Hb in E2.
  destruct s; simpl; by rewrite E1, E2.
Qed.
Lemma stage_ok_live k ks i a b s :
  ks !! i = Some a → live a = true → stage_ok k ks s →
  s = SLive a ∧ stage_ok k (<[i := b]> ks) (live_next b).
Proof.
  intros Hi Ha Hok. destruct (lives_insert ks i a b Hi) as (l1 & l2 & E1 & E2).
  rewrite lives_one, Ha in E1. rewrite lives_one in E2. unfold live_next.
  destruct s as [| | |ph]; simpl in Hok; destruct Hok as (Hf & Hp & Hl); rewrite Hl in E1.
  1-3: by destruct l1.
  apply (f_equal length) in E1 as Hlen. rewrite !length_app in Hlen. simpl in Hlen.
  destruct l1; [|simpl in *; lia]. destruct l2; [|simpl in *; lia]. simplify_eq/=.
  split; [done|]. rewrite app_nil_r in E2. by destruct (live b).
Qed.
(** An action of a callback, wherever it is in the list. *)
Lemma view_callback ph ks i kph c k u kph' c' k' :
  view_inv ph ks c k u → ks !! i = Some kph →
  knext (W := W) (waker := waker) kph (c, k) = Some (kph', (c', k')) →
  k' = k ∧ view_inv ph (<[i := kph']> ks) c' k' u.
Proof.
  intros (s & Hok & Hsh & Hint) Hi Hstep.
  pose proof (knext_kernel _ _ _ _ _ _ Hstep) as ->. split; [done|].
  destruct (live kph) eqn:Hl.
  - destruct (stage_ok_live k ks i kph kph' s Hi Hl Hok) as [-> Hok'].
    exists (live_next kph'). split_and!; [done|by eapply knext_shape|].
    intros Hnw. eapply knext_integrity; eauto.
  - exists s. destruct kph; simplify_eq/=. split_and!; [|done|done].
    by eapply stage_ok_idle.
Qed.
(** The unclaimed stages are interchangeable for the client. *)
Lemma shape_unclaimed ph st err s s' :
  unclaimed s = true → unclaimed s' = true →
  shape ph st s err = true → shape ph st s' err = true.
Proof.
  intros Hs Hs' Hsh.
  assert (rest st s = rest st s') as Hr.
  { destruct s as [| | |[]]; try done; destruct s' as [| | |[]]; try done; by destruct st. }
  destruct ph; simpl in *; rewrite <- ?Hr, ?Hs'; try done.
  all: destruct st, s; try done; repeat (case_match; try done).
Qed.
Lemma integrity_flight ph st k k' res u e t :
  last_error k' = last_error k → shape ph st SFlight (last_error k) = true →
  integrity ph st SFlight k res u → integrity ph st (SPacket e t) k' res (u ++ [completion e t]).
Proof.
  intros He Hsh (Hw & Hs & Hint). unfold integrity, owes in *. rewrite He.
  split; [done|]. split; [done|].
  destruct ph; simpl in *; try done; try by subst.
  all: repeat (case_match; simplify_eq/=). all: done.
Qed.
Lemma integrity_dispatch ph st k k' res u e t :
  last_error k' = last_error k → status k' = status k →
  shape ph st (SPacket e t) (last_error k) = true →
  integrity ph st (SPacket e t) k res u → integrity ph st (SLive (KStart e t)) k' res u.
Proof.
  intros He Hst Hsh (Hw & Hs & Hint). unfold integrity, owes in *. rewrite He, Hst.
  done.
Qed.
(** The system completes the operation in flight. *)
Lemma view_complete ph ks c k u e t k' :
  view_inv ph ks c k u → complete_op e t k = Some k' →
  outcomes k' = outcomes k ++ [completion e t] ∧ view_inv ph ks c k' (u ++ [completion e t]).
Proof.
  intros (s & Hok & Hsh & Hint) Hk. unfold complete_op in Hk.
  destruct (in_flight k) as [|n] eqn:Hf; simplify_eq/=. split; [done|].
  destruct s; simpl in Hok; rewrite Hf in Hok; destruct Hok as (? & Hp & Hl); simplify_eq/=.
  exists (SPacket e t). split; [split_and!; simpl; rewrite ?Hp; done|]. split.
  - by eapply shape_unclaimed; [..|exact Hsh].
  - intros Hnw. apply (integrity_flight ph _ k); auto.
Qed.
(** The thread pool takes the packet. *)
Lemma view_dispatch ph ks c k u e t ps k' :
  view_inv ph ks c k u → packets k = (e, t) :: ps →
  k' = {| in_flight := in_flight k; status := status k; packets := ps;
          last_error := last_error k; outcomes := outcomes k |} →
  view_inv ph (ks ++ [KStart e t]) c k' u.
Proof.
  intros (s & Hok & Hsh & Hint) Hp ->.
  destruct s as [| |e' t'|]; simpl in Hok; rewrite Hp in Hok; destruct Hok as (Hf & ? & Hl); simplify_eq/=.
  exists (SLive (KStart e' t')). 
  split; [split_and!; simpl; [done..|unfold lives; rewrite filter_app; fold (lives ks); by rewrite Hl]|]. split.
  - by eapply shape_unclaimed; [..|exact Hsh].
  - intros Hnw. apply (integrity_dispatch ph _ k); auto.
Qed.
Lemma view_retire ph ks i c k u :
  view_inv ph ks c k u → ks !! i = Some KEnd → view_inv ph (delete i ks) c k u.
Proof.
  intros (s & Hok & Hsh & Hint) Hi. exists s. split_and!; [|done|done].
  pose proof (lives_delete ks i KEnd Hi eq_refl) as Hd. by destruct s; simpl in *; rewrite Hd.
Qed.
End preservation.
