(* ===== verification/IoHandleThm.v ===== *)
(** * The guarantees of a half of an [IoHandle], and where they end *)

From S2P Require Import Prelude Prog Extern Win32 Socket.
From S2P Require Import IoState IoCells IoHandle IoHandleSys IoHandleInv IoHandleSafe.

Section system.
Context {W waker : Type} `{!AtomicWaker W waker}.
Context (nw : bool) (allowed : client_op waker → bool).
Context (handle ptp_io ov : Z) (hid : half_id).
Abbreviation cden := (cden (waker := waker) handle ptp_io ov hid).
Abbreviation kden := (kden (waker := waker)).
#[local] Instance sys_lts : LTS (label waker) (config W waker) :=
  half_lts false allowed handle ptp_io ov hid.
(** A client that is not running is as good as one that has just returned. *)
Definition client_at (w : client waker) (ph : cphase waker) : Prop :=
  match w with
  | Idle => ph = PDone Pending
  | Running _ p => p = cden ph
  end.
Definition sys_inv (c : config W waker) : Prop :=
  ∃ ph ks u, callbacks c = kden <$> ks ∧ client_at (who c) ph ∧
    view_inv nw ph ks (cl c) (kn c) u ∧
    (nw = true → outcomes (kn c) = delivered (history c) ++ u).
Lemma sys_inv_start : sys_inv linit.
Proof.
  exists (PDone Pending), [], []. split_and!; [done|done|by exists SNone|done].
Qed.
Lemma cden_ret ph (r : client_ret) :
  cden ph = Ret r →
  (∃ p, ph = PDone p ∧ r = RPoll p) ∨ (∃ q, ph = CDone q ∧ r = RCancel q).
Proof.
  destruct ph, hid; simpl; unfold as_poll, as_cancel; simpl; intros; simplify_eq; eauto.
  all: by destruct wait.
Qed.
Lemma kden_ret ph : kden ph = Ret tt → ph = KEnd.
Proof. by destruct ph. Qed.
Definition begin (op : client_op waker) : cphase waker :=
  match op with OpPoll w buf => PStart w buf | OpCancel wait => CStart wait end.
Lemma view_begin ks c k u op :
  view_inv nw (W := W) (PDone Pending : cphase waker) ks c k u →
  view_inv nw (begin op) ks c k u.
Proof.
  intros (s & Hok & Hsh & Hint). exists s. split; [done|].
  split; [by destruct op|]. intros Hnw. destruct (Hint Hnw) as (_ & Hs & Ho).
  by destruct op.
Qed.
Lemma view_return_poll p ks c k u :
  view_inv nw (W := W) (PDone p : cphase waker) ks c k u →
  ∃ u', view_inv nw (W := W) (PDone Pending : cphase waker) ks c k u' ∧
    (nw = true → u = match p with Ready r => [r] | Pending => [] end ++ u').
Proof.
  destruct p as [r|]; [|by exists u]. intros (s & Hok & Hsh & Hint). exists [].
  simpl in Hsh. destruct (c_state c) eqn:Hst; try done. destruct s; try done. split.
  - exists SNone. rewrite Hst. done.
  - intros Hnw. by destruct (Hint Hnw) as (_ & _ & ->).
Qed.
Lemma view_return_cancel q ks c k u :
  view_inv nw (W := W) (CDone q : cphase waker) ks c k u →
  view_inv nw (W := W) (PDone Pending : cphase waker) ks c k u.
Proof.
  intros (s & Hok & Hsh & Hint). exists s. split_and!; [done..|].
  intros Hnw. by destruct (Hint Hnw) as (_ & Hs & Ho).
Qed.
Lemma delivered_app (h1 h2 : list (client_op waker * client_ret)) :
  delivered (h1 ++ h2) = delivered h1 ++ delivered h2.
Proof. apply omap_app. Qed.
(** No waiting cancellation has found an operation to cancel. *)
Definition unwaited (c : config W waker) : bool :=
  bool_decide (c_state (cl c) ≠ CANCELLED_WAIT).
(** The moves of the system and of the callbacks. *)
Definition others (l : label waker) : bool :=
  match l with LBegin _ | LClient _ | LReturn => false | _ => true end.
(** The client and the callbacks are at counters for which the invariant
    holds; [u] is what the half owes. *)
Definition at_counters ph ks u (c : config W waker) : Prop :=
  callbacks c = kden <$> ks ∧ client_at (who c) ph ∧ view_inv nw ph ks (cl c) (kn c) u.
(** A move of the half adds outcomes to what it owes, and the client goes one
    step further at most. *)
Lemma internal_counters l c c' ph ks u :
  internal l = true → at_counters ph ks u c → (nw = true → unwaited c' = true) → lstep l c = Some c' →
  ∃ ph' ks' new, at_counters ph' ks' (u ++ new) c' ∧
    outcomes (kn c') = outcomes (kn c) ++ new ∧ history c' = history c ∧
    ((others l = true ∧ ph' = ph ∧ who c' = who c) ∨
     ∃ a op, l = LClient a ∧ who c = Running op (cden ph) ∧ who c' = Running op (cden ph') ∧
       cnext false ph a (cl c, kn c) = Some (ph', (cl c', kn c'))).
Proof.
  intros Hl (Hks & Hcl & Hv) Hg Hstep.
  destruct c as [c k w cbs h]. simpl in *. subst cbs.
  destruct l as [op|a| |e t| |i|i]; simpl in Hstep; [done| |done|..].
  - (* LClient *)
    destruct w as [|op p]; [done|]. simpl in Hcl. subst p.
    rewrite cstep_next in Hstep.
    destruct (cnext false ph a (c, k)) as [[ph' [c1 k1]]|] eqn:Hn; [|done]. injection Hstep as <-.
    destruct (view_client nw _ _ _ _ _ _ _ _ _ Hv Hn) as (new & Ho & Hv').
    { intros Hnw. exact (bool_decide_unpack _ (proj2 (Is_true_true _) (Hg Hnw))). }
    exists ph', ks, new. split_and!; [by split_and!|done..|]. right. by exists a, op.
  - (* LComplete *)
    destruct (complete_op e t k) as [k'|] eqn:Hk; simplify_eq/=.
    destruct (view_complete nw _ _ _ _ _ _ _ _ Hv Hk) as [Ho Hv'].
    exists ph, ks, [completion e t]. split_and!; [by split_and!|done..|by left].
  - (* LDispatch *)
    destruct (packets k) as [|[e t] ps] eqn:Hp; simplify_eq/=.
    exists ph, (ks ++ [KStart e t]), []. rewrite !app_nil_r. split_and!; [|done..|by left].
    split_and!; [by rewrite fmap_app|done|]. by eapply view_dispatch.
  - (* LCallback *)
    rewrite list_lookup_fmap in Hstep. destruct (ks !! i) as [kph|] eqn:Hi; [|done].
    simpl in Hstep. rewrite kstep_next in Hstep.
    destruct (knext kph (c, k)) as [[kph' [c1 k1]]|] eqn:Hn; simplify_eq/=.
    destruct (view_callback nw _ _ _ _ _ _ _ _ _ _ Hv Hi Hn) as [-> Hv'].
    exists ph, (<[i := kph']> ks), []. rewrite !app_nil_r. split_and!; [|done..|by left].
    split_and!; [by rewrite list_fmap_insert|done..].
  - (* LRetire *)
    rewrite list_lookup_fmap in Hstep. destruct (ks !! i) as [kph|] eqn:Hi; [|done].
    simpl in Hstep. destruct (kden kph) as [[]| | |] eqn:Hk; simplify_eq/=.
    apply kden_ret in Hk as ->.
    exists ph, (delete i ks), []. rewrite !app_nil_r. split_and!; [|done..|by left].
    split_and!; [by rewrite list_fmap_delete|done|]. by eapply view_retire.
Qed.
Lemma sys_inv_step l c c' :
  sys_inv c → (nw = true → unwaited c' = true) → lstep l c = Some c' → sys_inv c'.
Proof.
  intros (ph & ks & u & Hks & Hcl & Hv & Hout) Hg Hstep. destruct (internal l) eqn:Hl.
  { destruct (internal_counters l c c' ph ks u Hl) as (ph' & ks' & new & (Hks' & Hcl' & Hv') & Ho & Hh & _);
      [by split_and!|done..|].
    exists ph', ks', (u ++ new). split_and!; [done..|]. intros Hnw. by rewrite Ho, Hh, Hout, app_assoc. }
  destruct c as [c k w cbs h]. simpl in *. subst cbs.
  destruct l as [op| | | | | |]; simpl in Hl, Hstep; try done.
  - (* LBegin *)
    destruct w as [|op' p]; [|done]. destruct (allowed op) eqn:Hop; simplify_eq/=.
    exists (begin op), ks, u. split_and!; [done|by destruct op|by apply view_begin|done].
  - (* LReturn *)
    destruct w as [|op' p]; [done|]. destruct p as [r| | |]; simplify_eq/=.
    destruct (cden_ret ph r (eq_sym Hcl)) as [(p & -> & ->)|(q & -> & ->)].
    + destruct (view_return_poll _ _ _ _ _ Hv) as (u' & Hv' & Hu).
      exists (PDone Pending), ks, u'. split_and!; [done..|].
      intros Hnw. simpl. rewrite delivered_app, Hout, Hu, <- app_assoc by done.
      by destruct p.
    + exists (PDone Pending), ks, u. split_and!; [done..|by eapply view_return_cancel|].
      intros Hnw. simpl. by rewrite delivered_app, Hout, app_nil_r.
Qed.
Lemma sys_inv_exec ls c :
  (nw = true → along unwaited ls linit = true) → exec ls linit = Some c → sys_inv c.
Proof.
  intros Hg. destruct nw eqn:Hnw.
  - apply invariant_along with (G := unwaited); [|apply sys_inv_start|by apply Hg].
    intros l s s' HP HG. apply sys_inv_step; by rewrite ?Hnw.
  - apply invariant; [apply sys_inv_start|]. intros l s s' HP. apply sys_inv_step; by rewrite ?Hnw.
Qed.
End system.

(** ** At most one live callback *)
Section unique.
Lemma lives_lookup ks i a : ks !! i = Some a → live a = true → a ∈ lives ks.
Proof. intros Hi Ha. apply list_elem_of_filter. split; [done|]. by eapply list_elem_of_lookup_2. Qed.
Lemma lives_unique ks i j a b :
  (length (lives ks) ≤ 1)%nat → ks !! i = Some a → ks !! j = Some b →
  live a = true → live b = true → i = j.
Proof.
  intros Hl Hi Hj Ha Hb. destruct (decide (i = j)) as [|Hne]; [done|]. exfalso.
  destruct (lives_insert ks i a KEnd Hi) as (l1 & l2 & E1 & E2).
  rewrite lives_one, Ha in E1. rewrite lives_one in E2. simpl in E2.
  assert (b ∈ lives (<[i := KEnd]> ks)) as Hin.
  { apply (lives_lookup _ j); [|done]. by rewrite list_lookup_insert_ne. }
  rewrite E1, length_app in Hl. simpl in Hl. rewrite E2 in Hin.
  destruct l1, l2; simpl in *; [by apply not_elem_of_nil in Hin|lia..].
Qed.
Lemma stage_ok_lives k ks s : stage_ok k ks s → (length (lives ks) ≤ 1)%nat.
Proof. destruct s; simpl; intros (_ & _ & ->); simpl; lia. Qed.
End unique.

Section guarantees.
Context {W waker : Type} `{!AtomicWaker W waker}.
Implicit Types (c : config W waker).
Lemma kden_set kph e t :
  next_act (kden (waker := waker) kph) = Some (HResultSet e t) → live kph = true.
Proof. by destruct kph. Qed.
Lemma cden_get handle ptp_io ov hid (ph : cphase waker) :
  next_act (cden handle ptp_io ov hid ph) = Some HResultGet → ph = PGet.
Proof. destruct ph, hid; simpl; try done; by destruct wait. Qed.
(** The call that hands the [OVERLAPPED] to the system. *)
Definition starting (a : option (hact waker)) : bool :=
  match a with Some (HSys (WSARecv _ _ _ | WSASend _ _ _)) => true | _ => false end.
Lemma cden_starting handle ptp_io ov hid (ph : cphase waker) :
  starting (next_act (cden handle ptp_io ov hid ph)) = true → ∃ w buf, ph = PCall w buf.
Proof. destruct ph, hid; simpl; try done; eauto; by destruct wait. Qed.
(** The system never answers that the operation completed at once. *)
Definition pends (l : label waker) : bool :=
  match l with LClient (AStart (StartDone _)) => false | _ => true end.
(** Either the handle skips the packets of operations that complete at
    once, or no operation does. *)
Definition no_stale_packet (posts : bool) (ls : list (label waker)) : Prop :=
  posts = true → forallb pends ls = true.
Lemma half_step_pends allowed handle ptp_io ov hid (l : label waker) (c : config W waker) :
  pends l = true →
  half_step true allowed handle ptp_io ov hid l c = half_step false allowed handle ptp_io ov hid l c.
Proof.
  assert (∀ A (p : prog (hact waker) hans A) a (s : cells W waker * kernel),
    pends (LClient a) = true → tstep (hstep true) a p s = tstep (hstep false) a p s) as Ht.
  { intros A p a [cs k] Ha. destruct p as [|b kont| |]; [done| |done|done].
    destruct b as [| | | | | |[]]; try done; destruct a as [|[]]; done. }
  intros Hl. destruct l as [|a| | | |i|]; try done; simpl.
  all: repeat case_match; try done; by rewrite Ht.
Qed.
Lemma half_exec_pends posts allowed handle ptp_io ov hid ls :
  no_stale_packet posts ls →
  half_exec (W := W) posts allowed handle ptp_io ov hid ls =
  half_exec false allowed handle ptp_io ov hid ls ∧
  ∀ G, along (H := half_lts (W := W) posts allowed handle ptp_io ov hid) G ls start =
       along (H := half_lts (W := W) false allowed handle ptp_io ov hid) G ls start.
Proof.
  destruct posts; [|done]. intros Hls. apply (exec_agree _ _ pends); [|by apply Hls].
  intros l c. apply half_step_pends.
Qed.
(** The guarantees without stale packets, for one half or for a whole handle. *)
Lemma half_race_safe allowed handle ptp_io ov hid ls c :
  half_exec false allowed handle ptp_io ov hid ls = Some c →
  (client_next c = Some HResultGet → ∀ i p e t,
     callbacks c !! i = Some p → next_act p ≠ Some (HResultSet e t)) ∧
  (∀ i j p q e t e' t', callbacks c !! i = Some p → callbacks c !! j = Some q →
     next_act p = Some (HResultSet e t) → next_act q = Some (HResultSet e' t') → i = j) ∧
  (starting (client_next c) = true →
     in_flight (kn c) = 0%nat ∧ packets (kn c) = [] ∧
     ∀ i p e t, callbacks c !! i = Some p → next_act p ≠ Some (HResultSet e t)).
Proof.
  intros Hex.
  destruct (sys_inv_exec false allowed handle ptp_io ov hid ls c ltac:(done) Hex)
    as (ph & ks & u & Hks & Hcl & (s & Hok & Hsh & _) & _).
  assert (∀ i p e t, lives ks = [] → callbacks c !! i = Some p →
    next_act p ≠ Some (HResultSet e t)) as Hnone.
  { intros i p e t Hl Hi Hp. rewrite Hks, list_lookup_fmap in Hi.
    destruct (ks !! i) as [kph|] eqn:Hk; simplify_eq/=.
    pose proof (lives_lookup ks i kph Hk (kden_set _ _ _ Hp)) as Hin. rewrite Hl in Hin.
    by apply not_elem_of_nil in Hin. }
  unfold client_next. split_and!.
  - destruct (who c) as [|op p]; [done|]. simpl in Hcl; subst p.
    intros ->%cden_get. simpl in Hsh. destruct (c_state (cl c)); try done.
    destruct s; try done. destruct Hok as (_ & _ & Hl). eauto.
  - intros i j p q e t e' t' Hi Hj Hp Hq. rewrite Hks, list_lookup_fmap in Hi, Hj.
    destruct (ks !! i) as [a|] eqn:Ha; simplify_eq/=.
    destruct (ks !! j) as [b|] eqn:Hb; simplify_eq/=.
    eapply (lives_unique ks i j a b); eauto using stage_ok_lives, kden_set.
  - destruct (who c) as [|op p]; [done|]. simpl in Hcl; subst p.
    intros (w & buf & ->)%cden_starting. simpl in Hsh.
    destruct (c_state (cl c)); try done. destruct s; try done.
    destruct Hok as (Hf & Hp & Hl). eauto.
Qed.
(** The cells of a half are never accessed concurrently in a
    conflicting way, whatever the client does, as long as no operation that
    completes at once posts a packet: while the client is about to read the
    result no callback is about to write it, two callbacks are never both
    about to write it, and the [OVERLAPPED] is handed to the system only
    when no earlier operation on it is in flight, posted or being published. *)
Theorem half_race_free posts allowed handle ptp_io ov hid ls c :
  no_stale_packet posts ls →
  half_exec posts allowed handle ptp_io ov hid ls = Some c →
  (client_next c = Some HResultGet → ∀ i p e t,
     callbacks c !! i = Some p → next_act p ≠ Some (HResultSet e t)) ∧
  (∀ i j p q e t e' t', callbacks c !! i = Some p → callbacks c !! j = Some q →
     next_act p = Some (HResultSet e t) → next_act q = Some (HResultSet e' t') → i = j) ∧
  (starting (client_next c) = true →
     in_flight (kn c) = 0%nat ∧ packets (kn c) = [] ∧
     ∀ i p e t, callbacks c !! i = Some p → next_act p ≠ Some (HResultSet e t)).
Proof.
  intros [-> _]%(half_exec_pends posts allowed handle ptp_io ov hid). apply half_race_safe.
Qed.
Lemma integrity_length (ph : cphase waker) st s k res u :
  integrity ph st s k res u → (length u ≤ 1)%nat.
Proof.
  intros (_ & _ & H). unfold owes in H.
  destruct ph; simpl in H; repeat case_match; explode; simplify_eq/=; try lia; done.
Qed.
Lemma half_delivers allowed handle ptp_io ov hid ls c :
  along (H := half_lts false allowed handle ptp_io ov hid) unwaited ls start = true →
  half_exec false allowed handle ptp_io ov hid ls = Some c →
  ∃ u, outcomes (kn c) = delivered (history c) ++ u ∧ (length u ≤ 1)%nat.
Proof.
  intros Hop Hex.
  destruct (sys_inv_exec true allowed handle ptp_io ov hid ls c (λ _, Hop) Hex)
    as (ph & ks & u & _ & _ & (s & _ & _ & Hint) & Hout).
  exists u. split; [by apply Hout|]. by eapply integrity_length, Hint.
Qed.
(** Exactly-once delivery: as long as no waiting cancellation has
    caught an operation and no operation that completes at once posts a
    packet, the results the polls return are, in order and without gap or
    repetition, the outcomes of the operations the half started; at most
    the last outcome has not been returned yet. *)
Theorem half_delivery posts allowed handle ptp_io ov hid ls c :
  no_stale_packet posts ls →
  along (H := half_lts posts allowed handle ptp_io ov hid) unwaited ls start = true →
  half_exec posts allowed handle ptp_io ov hid ls = Some c →
  ∃ u, outcomes (kn c) = delivered (history c) ++ u ∧ (length u ≤ 1)%nat.
Proof.
  intros [-> HG]%(half_exec_pends posts allowed handle ptp_io ov hid). rewrite HG. apply half_delivers.
Qed.
End guarantees.

(** ** The first poll is never woken *)
Section first_poll.
Context {W waker : Type} `{AtomicWakerLaws W waker}.
Context (posts : bool) (allowed : client_op waker → bool).
Context (handle ptp_io ov : Z) (hid : half_id) (w : waker) (buf : WSABUF).
Abbreviation cden := (cden (waker := waker) handle ptp_io ov hid).
Abbreviation kden := (kden (waker := waker)).
#[local] Instance first_lts : LTS (label waker) (config W waker) :=
  half_lts posts allowed handle ptp_io ov hid.
(** No waker has been registered, none has been woken. *)
Definition silent (c : cells W waker) : Prop :=
  woken c = [] ∧ (aw_take (c_waker c)).1 = None.
(** The points of the first poll before it takes the immediate path. *)
Definition unregistered (ph : cphase waker) : bool :=
  match ph with
  | PStart _ _ | PSchedule _ _ | PStartIo _ _ | PCall _ _ | PQuery _ | PQueryErr _
  | PLastError _ | PSetPending | PDone Pending => true
  | _ => false
  end.
Definition immediate (ph : cphase waker) : bool :=
  match ph with PRegisterReady _ _ | PIdleReady _ | PDone (Ready _) => true | _ => false end.
Definition untouched (c : config W waker) (ks : list kphase) : Prop :=
  c_state (cl c) = IDLE ∧ in_flight (kn c) = 0%nat ∧ packets (kn c) = [] ∧ ks = [].
Definition first_inv (c : config W waker) : Prop :=
  ∃ ph ks, callbacks c = kden <$> ks ∧
  match who c with
  | Running op p =>
      op = OpPoll w buf ∧ p = cden ph ∧ history c = [] ∧
      (immediate ph = true ∨
       unregistered ph = true ∧ silent (cl c) ∧
       match ph with PStart _ _ | PSchedule _ _ => untouched c ks | _ => True end)
  | Idle =>
      ∃ p, history c = [(OpPoll w buf, RPoll p)] ∧ (p = Pending → silent (cl c))
  end.
Definition not_begin (l : label waker) : bool :=
  match l with LBegin _ => false | _ => true end.
Lemma silent_step_callback ph (s : cells W waker * kernel) ph' s' :
  silent s.1 → knext ph s = Some (ph', s') → silent s'.1.
Proof.
  intros [Hw Ha] Hs. destruct s as [c k], ph; simpl in *; unfold silent;
    repeat case_decide; simplify_eq/=; try done.
  rewrite Hw, Ha. split; [done | apply aw_take_take].
Qed.
Lemma silent_step_client ph a (c : config W waker) ks ph' s' :
  unregistered ph = true → silent (cl c) →
  match ph with PStart _ _ | PSchedule _ _ => untouched c ks | _ => True end →
  cnext posts ph a (cl c, kn c) = Some (ph', s') →
  immediate ph' = true ∨
  unregistered ph' = true ∧ silent s'.1 ∧
  match ph' with
  | PStart _ _ | PSchedule _ _ => untouched c ks ∧ s' = (cl c, kn c)
  | _ => True
  end.
Proof.
  intros Hu Hs Hun Hstep. destruct c as [[st res aw wk] k who cbs h]; simpl in *.
  destruct ph as [| | | | | | | | | | | | |[]| | | | | | | | | |]; simpl in *; try done.
  all: unfold query in *; try (pose proof Hun as (Hst & _); simpl in Hst; subst st).
  all: try (destruct a as [|a]; [done|]; destruct (start_op posts a k) as [[??]|]).
  all: repeat (case_match; simplify_eq/=); try done; simplify_eq/=.
  all: repeat case_decide; try (by left); right; split_and!; done.
Qed.
(** A move of the system or of a callback. *)
Lemma others_step l (c c' : config W waker) ks :
  others l = true → callbacks c = kden <$> ks → lstep l c = Some c' →
  who c' = who c ∧ history c' = history c ∧ (∃ ks', callbacks c' = kden <$> ks') ∧
  (silent (cl c) → silent (cl c')) ∧ ¬ untouched c ks.
Proof.
  intros Hl Hks Hstep. destruct c as [c k wh cbs h]. simpl in *. subst cbs. unfold untouched.
  destruct l as [op|a| |e t| |i|i]; simpl in Hl, Hstep; try done.
  - unfold complete_op in Hstep. destruct (in_flight k) eqn:Hf; simplify_eq/=.
    split_and!; eauto. rewrite Hf. by intros (_ & ? & _).
  - destruct (packets k) as [|[e t] ps] eqn:Hp; simplify_eq/=. split_and!; eauto.
    + exists (ks ++ [KStart e t]). by rewrite fmap_app.
    + rewrite Hp. by intros (_ & _ & ? & _).
  - rewrite list_lookup_fmap in Hstep. destruct (ks !! i) as [kph|] eqn:Hi; [|done].
    simpl in Hstep. rewrite kstep_next in Hstep.
    destruct (knext kph (c, k)) as [[kph' s1]|] eqn:Hn; simplify_eq/=. split_and!; eauto.
    + exists (<[i := kph']> ks). by rewrite list_fmap_insert.
    + intros Hs. by eapply (silent_step_callback kph (c, k)).
    + intros (_ & _ & _ & ->). done.
  - rewrite list_lookup_fmap in Hstep. destruct (ks !! i) as [kph|] eqn:Hi; [|done].
    simpl in Hstep. destruct (kden kph) as [[]| | |]; simplify_eq/=. split_and!; eauto.
    + exists (delete i ks). by rewrite list_fmap_delete.
    + intros (_ & _ & _ & ->). done.
Qed.
Lemma immediate_step ph a (s : cells W waker * kernel) ph' s' :
  immediate ph = true → cnext posts ph a s = Some (ph', s') → immediate ph' = true.
Proof. by destruct s, ph; simpl; intros; simplify_eq/=. Qed.
Lemma first_inv_step l c c' :
  not_begin l = true → first_inv c → lstep l c = Some c' → first_inv c'.
Proof.
  intros Hl (ph & ks & Hks & Hw) Hstep. destruct (others l) eqn:Ho.
  { destruct (others_step l c c' ks Ho Hks Hstep) as (Hwho & Hh & [ks' Hks'] & Hs & Hun).
    exists ph, ks'. split; [done|]. rewrite Hwho, Hh. destruct (who c).
    - destruct Hw as (p & Hp & Hw). exists p. auto.
    - destruct Hw as (-> & -> & Hh0 & [Hi|(Hu & Hsi & Hx)]); split_and!; auto.
      right. split_and!; auto. by destruct ph. }
  destruct l as [|a| | | | |]; try done; simpl in Hstep.
  - destruct (who c) as [|op p]; [done|]. destruct Hw as (-> & -> & Hh & Hp).
    rewrite cstep_next in Hstep.
    destruct (cnext posts ph a (cl c, kn c)) as [[ph' s']|] eqn:Hn; simplify_eq/=.
    exists ph', ks. split; [done|]. simpl. do 3 (split; [done|]). destruct Hp as [Hi|(Hu & Hs & Hx)].
    + left. exact (immediate_step ph a (cl c, kn c) ph' s' Hi Hn).
    + destruct (silent_step_client ph a c ks ph' s' Hu Hs Hx Hn) as [?|(? & ? & Hx')]; [by left|].
      right. split_and!; [done..|].
      destruct ph'; try done; by destruct Hx' as [? ->].
  - destruct (who c) as [|op p]; [done|]. destruct Hw as (-> & -> & Hh & Hp).
    destruct (cden ph) as [r| | |] eqn:Hr; simplify_eq/=.
    exists ph, ks. split; [done|]. simpl. rewrite Hh.
    destruct (cden_ret _ _ _ _ ph r Hr) as [(p & -> & ->)|(q & -> & ->)].
    + exists p. split; [done|]. intros ->. by destruct Hp as [|(_ & ? & _)].
    + by destruct Hp as [|(? & _)].
Qed.
End first_poll.

Section never_woken.
Context {W waker : Type} `{AtomicWakerLaws W waker}.
(** C33. When the first poll of a half returns [Pending], its waker is not
    registered: whatever the system and the callbacks do afterwards (until
    the next call), nobody is woken, even when the operation has completed
    and the result is ready. *)
Theorem first_pending_poll_never_woken posts allowed handle ptp_io ov hid w buf ls
    (c : config W waker) :
  forallb not_begin ls = true →
  half_exec posts allowed handle ptp_io ov hid (LBegin (OpPoll w buf) :: ls) = Some c →
  history c = [(OpPoll w buf, RPoll Pending)] →
  woken (cl c) = [] ∧ (aw_take (c_waker (cl c))).1 = None.
Proof.
  intros Hls Hex Hh. unfold half_exec in Hex. simpl in Hex.
  destruct (allowed (OpPoll w buf)); [|done]. simpl in Hex.
  assert (first_inv handle ptp_io ov hid w buf c) as (ph & ks & _ & Hc).
  { revert Hex. apply (exec_preserved_by not_begin); [|done|].
    - intros l s s'. apply first_inv_step.
    - exists (PStart w buf), []. split; [done|]. simpl. do 3 (split; [done|]). right.
      split_and!; [done| |done]. split; [done|apply aw_take_new]. }
  rewrite Hh in Hc. destruct (who c) as [|op p].
  - destruct Hc as (p & Hp & Hs). simplify_eq. by apply Hs.
  - by destruct Hc as (_ & _ & ? & _).
Qed.
End never_woken.
