(* ===== verification/IoHandleEx.v ===== *)
(** * Concrete schedules of a half: witnesses, and what goes wrong *)

From S2P Require Import Prelude Prog Extern Win32 Socket.
From S2P Require Import IoState IoCells IoHandle IoHandleSys IoHandleInv IoHandleSafe IoHandleThm.

(** Wakers are numbered; the buffer is arbitrary. *)
Abbreviation conf := (config (option nat) nat).
Definition buf0 : WSABUF := {| wsa_len := 16; wsa_buf := 4096 |}.

(** ** Pieces of schedules *)

Definition client_steps (n : nat) : list (label nat) := repeat (LClient ADefault) n.

(** A poll up to the call that starts the operation, answered by [a]. *)
Definition poll_call (w : nat) (a : start_answer) : list (label nat) :=
  LBegin (OpPoll w buf0) :: client_steps 3 ++ [LClient (AStart a)].

(** A poll whose operation is left in flight. *)
Definition poll_pending (w : nat) : list (label nat) :=
  poll_call w StartPending ++ client_steps 2 ++ [LReturn].

(** A poll whose operation completes at once with [n] bytes. *)
Definition poll_done (w : nat) (n : Z) : list (label nat) :=
  poll_call w (StartDone n) ++ client_steps 3 ++ [LReturn].

(** A poll that takes the result a callback left. *)
Definition poll_take (w : nat) : list (label nat) :=
  LBegin (OpPoll w buf0) :: client_steps 3 ++ [LReturn].

(** The operation in flight completes and its callback runs to the end. *)
Definition run_callback : list (label nat) := LDispatch :: repeat (LCallback 0) 6 ++ [LRetire 0].
Definition complete (e t : Z) : list (label nat) := LComplete e t :: run_callback.

(** The state a schedule reaches. *)
Definition reach (posts : bool) (ls : list (label nat)) : conf :=
  default start (half_exec posts any_op 1 2 3 ReadHalf ls).

(** ** Witnesses *)

Definition two_reads : list (label nat) :=
  poll_pending 7 ++ complete 0 5 ++ poll_take 7 ++ poll_done 7 9 ++
  LBegin (OpCancel true) :: client_steps 1 ++ [LReturn].

Lemma half_race_free_witness :
  let ls := poll_pending 7 ++ LComplete 0 5 :: LDispatch :: repeat (LCallback 0) 3 in
  let c := reach true ls in
  half_exec true any_op 1 2 3 ReadHalf ls = Some c ∧
  (∃ p, callbacks c !! 0%nat = Some p ∧ next_act p = Some (HResultSet 0 5)) ∧
  (client_next c = Some HResultGet → ∀ i p e t,
     callbacks c !! i = Some p → next_act p ≠ Some (HResultSet e t)).
Proof.
  intros ls c.
  assert (half_exec true any_op 1 2 3 ReadHalf ls = Some c) as Hex by (vm_compute; reflexivity).
  split; [exact Hex|]. split; [eexists; split; vm_compute; reflexivity|].
  exact (proj1 (half_race_free true any_op 1 2 3 ReadHalf ls c (λ _, eq_refl) Hex)).
Defined.

Lemma half_delivery_witness :
  let c := reach false two_reads in
  delivered (history c) = [Ok 5; Ok 9] ∧
  ∃ u, outcomes (kn c) = delivered (history c) ++ u ∧ (length u ≤ 1)%nat.
Proof.
  intros c. split; [vm_compute; reflexivity|].
  apply (half_delivery false any_op 1 2 3 ReadHalf two_reads c); [done|vm_compute; reflexivity..].
Defined.

Lemma first_pending_poll_never_woken_witness :
  let ls := (client_steps 3 ++ LClient (AStart StartPending) :: client_steps 2 ++ [LReturn]) ++
            complete 0 5 in
  let c := reach false (LBegin (OpPoll 7%nat buf0) :: ls) in
  (c_state (cl c) = READY ∧ callbacks c = [] ∧ in_flight (kn c) = 0%nat ∧ who c = Idle) ∧
  woken (cl c) = [] ∧ (aw_take (c_waker (cl c))).1 = None.
Proof.
  intros ls c. split; [split_and!; vm_compute; reflexivity|].
  apply (first_pending_poll_never_woken false any_op 1 2 3 ReadHalf 7%nat buf0 ls c);
    vm_compute; reflexivity.
Defined.

(** ** Where the guarantees end *)

(** A waiting cancellation leaves the half [READY] without a result:
    after a pending poll is cancelled with [wait = true] (what dropping a
    [Read] does), the next poll reads a result cell that was never written. *)
Theorem waiting_cancel_then_poll_is_undefined :
  ∃ ls (c : conf) op f, half_exec false any_op 1 2 3 ReadHalf ls = Some c ∧
    map fst (history c) = [OpPoll 7%nat buf0; OpCancel true] ∧
    who c = Running op (Fault (Undefined f)).
Proof.
  exists (poll_pending 7 ++
    LBegin (OpCancel true) :: client_steps 4 ++
    LComplete ERROR_OPERATION_ABORTED 0 :: run_callback ++ client_steps 3 ++ LReturn ::
    LBegin (OpPoll 7%nat buf0) :: client_steps 2).
  eexists _, _, _. split_and!; vm_compute; reflexivity.
Qed.

(** A cancellation that does not wait disarms the waiting one: the
    client has called [cancel(false)] and then [cancel(true)] (a [Read]
    cancelled and dropped), both have returned [Ok], and the operation, whose
    buffer the client now considers its own, is still in flight. *)
Theorem cancel_then_drop_leaves_the_operation_in_flight :
  ∃ ls (c : conf), half_exec false any_op 1 2 3 ReadHalf ls = Some c ∧
    who c = Idle ∧
    history c = [(OpPoll 7%nat buf0, RPoll Pending);
                 (OpCancel false, RCancel (Ok tt)); (OpCancel true, RCancel (Ok tt))] ∧
    in_flight (kn c) = 1%nat.
Proof.
  exists (poll_pending 7 ++
    LBegin (OpCancel false) :: client_steps 4 ++ LReturn ::
    LBegin (OpCancel true) :: client_steps 1 ++ [LReturn]).
  eexists _. split_and!; vm_compute; reflexivity.
Qed.

(** When an operation that completes at once also posts a packet (the
    default for an overlapped handle), the callback of the first operation
    completes the second one: the client is told twice of the first outcome
    while the second operation is still in flight. *)
Theorem stale_packet_completes_the_next_operation :
  ∃ ls (c : conf), half_exec true any_op 1 2 3 ReadHalf ls = Some c ∧
    delivered (history c) = [Ok 5; Ok 5] ∧ outcomes (kn c) = [Ok 5] ∧
    in_flight (kn c) = 1%nat.
Proof.
  exists (poll_done 7 5 ++ poll_pending 7 ++ run_callback ++ poll_take 7).
  eexists _. split_and!; vm_compute; reflexivity.
Qed.

(** A waiting cancellation fails when the operation completes between its
    check and [CancelIoEx]: it returns [ERROR_NOT_FOUND] although the operation
    succeeded, and the outcome is lost.  The destructors of [Write] and of
    [IoHandle] unwrap this result. *)
Theorem waiting_cancel_can_fail :
  ∃ ls (c : conf), half_exec false any_op 1 2 3 WriteHalf ls = Some c ∧
    history c = [(OpPoll 7%nat buf0, RPoll Pending);
                 (OpCancel true, RCancel (Err (OsError ERROR_NOT_FOUND)))] ∧
    outcomes (kn c) = [Ok 5] ∧ in_flight (kn c) = 0%nat ∧ c_result (cl c) = None.
Proof.
  exists (poll_pending 7 ++ LBegin (OpCancel true) :: client_steps 1 ++
    LComplete 0 5 :: client_steps 5 ++ run_callback ++ client_steps 2 ++ [LReturn]).
  eexists _. split_and!; vm_compute; reflexivity.
Qed.

(** *** The cancellation that never returns *)

Abbreviation half0 := (half_lts (W := option nat) (waker := nat) false any_op 1 2 3 ReadHalf).

(** The canceller has replaced the [READY] of a finished callback. *)
Definition lost (c : conf) : Prop :=
  (∃ r ph, who c = Running (OpCancel true) (cden 1 2 3 ReadHalf ph) ∧
           (ph = CLoop true r ∨ ph = CBusy r)) ∧
  c_state (cl c) = CANCELLED_WAIT ∧ in_flight (kn c) = 0%nat ∧ packets (kn c) = [] ∧
  callbacks c = [].

Lemma lost_preserved : preserved (H := half0) lost.
Proof.
  intros l c c' ((r & ph & Hw & Hph) & Hst & Hf & Hp & Hcb) Hstep.
  destruct c as [c k w cbs h]. simpl in *. subst w cbs.
  destruct l as [op|a| |e t| |i|i]; simpl in Hstep; try done.
  - rewrite cstep_next in Hstep. destruct c as [st res aw wk]; simpl in Hst; subst st.
    destruct Hph as [->| ->]; simplify_eq/=; split_and!; try done.
    + exists r, (CBusy r). split; [done | by right].
    + exists r, (CLoop true r). split; [done | by left].
  - by destruct Hph as [->| ->].
  - unfold complete_op in Hstep. by rewrite Hf in Hstep.
  - by rewrite Hp in Hstep.
Qed.

Lemma lost_running (c : conf) : lost c →
  ∃ p, who c = Running (OpCancel true) p ∧ ∀ r, p ≠ Ret r.
Proof. intros ((r & ph & Hw & [->| ->]) & _); eauto. Qed.

(** The check of [cancel] races with the callback: the canceller sees
    [PENDING], the callback publishes its result, the canceller swaps
    [CANCELLED_WAIT] over [READY], and from there no schedule ever lets the
    cancellation return. *)
Theorem cancel_race_never_returns :
  ∃ ls (c : conf), half_exec false any_op 1 2 3 ReadHalf ls = Some c ∧
    ∀ ls' c', exec (H := half0) ls' c = Some c' →
      ∃ p, who c' = Running (OpCancel true) p ∧ ∀ r, p ≠ Ret r.
Proof.
  exists (poll_pending 7 ++ LBegin (OpCancel true) :: client_steps 1 ++
          complete 0 5 ++ client_steps 5).
  eexists. split; [vm_compute; reflexivity|].
  intros ls' c' Hex. apply lost_running.
  eapply (exec_preserved (H := half0) lost); [apply lost_preserved| |exact Hex].
  split_and!; [|reflexivity..].
  exists (Err (OsError ERROR_NOT_FOUND)), (CLoop true (Err (OsError ERROR_NOT_FOUND))).
  split; [reflexivity | by left].
Qed.

(** A waiting cancellation does not wait for a callback that has
    published its result: it returns [Ok] at once because the half is
    [READY], while the callback is still about to call [wake] on the waker
    cell of the half.  The drop of an [IoHandle] frees the cell at this
    point. *)
Theorem cancel_returns_before_the_callback :
  ∃ ls (c : conf) p, half_exec false any_op 1 2 3 ReadHalf ls = Some c ∧
    who c = Idle ∧
    history c = [(OpPoll 7%nat buf0, RPoll Pending); (OpCancel true, RCancel (Ok tt))] ∧
    callbacks c = [p] ∧ next_act p = Some HWake.
Proof.
  exists (poll_pending 7 ++ LComplete 0 5 :: LDispatch :: repeat (LCallback 0) 5 ++
    LBegin (OpCancel true) :: client_steps 1 ++ [LReturn]).
  eexists _, _. split_and!; vm_compute; reflexivity.
Qed.
