(* ===== verification/HandleThm.v ===== *)
(** * What a whole [IoHandle] guarantees

    [IoHandleThm] is about one half in its environment.  Here: the functions
    of a handle act on one half each, so that what holds of a half holds of
    both, and what the drop of a handle closes. *)

From S2P Require Import Prelude Prog Extern Win32 Socket.
From S2P Require Import IoState IoCells IoHandle.

Section handle.
Context {waker : Type}.
Implicit Types (self : IoHandle waker).
Abbreviation event := (Prog.event (iact waker) ians).

Definition in_half (h : half_id) (a : iact waker) : Prop := match a with On h' _ => h' = h | ISys _ => False end.

Lemma on_in_half {A} h (p : Prog.prog (hact waker) hans A) : within (in_half h) (on h p).
Proof. apply within_translate. induction p; simpl; naive_solver. Qed.

(** The functions of a handle for one direction touch the cells of that
    direction's half only; and the completion of an operation, which is told
    apart by the address of its [OVERLAPPED], runs the callback of the half
    that address belongs to, on nothing but that half.  A completion for any
    other address panics. *)
Theorem operations_stay_in_their_half self (w : waker) buf wait ov result transferred :
  overlapped (read self) ≠ overlapped (write self) →
  within (in_half ReadHalf) (poll_read self w buf) ∧ within (in_half WriteHalf) (poll_write self w buf) ∧
  within (in_half ReadHalf) (cancel_read self wait) ∧ within (in_half WriteHalf) (cancel_write self wait) ∧
  (∀ h, ov = overlapped (half_of self h) →
     callback self ov result transferred = on h (callback_half result transferred) ∧
     within (in_half h) (callback self ov result transferred)) ∧
  ((∀ h, ov ≠ overlapped (half_of self h)) → ∃ msg, callback self ov result transferred = Fault (Panicked msg)).
Proof.
  intros Hne. split_and!; try apply on_in_half.
  - intros h ->. assert (callback self (overlapped (half_of self h)) result transferred =
      on h (callback_half result transferred)) as Hcb.
    { unfold callback, select_half. destruct h; simpl; [by rewrite decide_True|].
      by rewrite decide_False, decide_True by congruence. }
    rewrite Hcb. split; [done|apply on_in_half].
  - intros Hov. unfold callback, select_half.
    rewrite decide_False by exact (Hov ReadHalf). rewrite decide_False by exact (Hov WriteHalf). eauto.
Qed.

(** ** The drop *)

Definition releasing (a : iact waker) : Prop :=
  match a with
  | ISys (CloseThreadpoolIo _) | ISys (closesocket _)
  | On _ (HSys (CloseThreadpoolIo _)) | On _ (HSys (closesocket _)) => True
  | _ => False
  end.
Abbreviation keeping := (λ a : iact waker, ¬ releasing a).

Lemma cancel_keeps h handle ov wait :
  within keeping (on h (cancel handle {| overlapped := ov; half_schedule := Socket.read_schedule;
                                         half_cancel := Socket.cancel |} wait)).
Proof.
  apply within_translate. unfold cancel, wait_not_busy, Socket.cancel.
  repeat first [ done | progress simpl | split | intro | case_match ].
Qed.

Lemma cancel_schedule_irrelevant handle ov s s' wait :
  cancel (waker := waker) handle {| overlapped := ov; half_schedule := s; half_cancel := Socket.cancel |} wait =
  cancel handle {| overlapped := ov; half_schedule := s'; half_cancel := Socket.cancel |} wait.
Proof. done. Qed.

Lemma unwrap_keeps (p : Prog.prog (iact waker) ians (io_result unit)) :
  within keeping p → within keeping (unwrap p).
Proof. intros Hp. apply within_bind; [done|]. by intros []. Qed.

(** The handle of a socket, as [TcpStream] makes it. *)
Definition of_socket (self : IoHandle waker) : Prop :=
  close self = Socket.close ∧ half_cancel (read self) = Socket.cancel ∧ half_cancel (write self) = Socket.cancel.

Lemma half_cancel_keeps h handle (half : IoHalf waker) wait :
  half_cancel half = Socket.cancel → within keeping (on h (cancel handle half wait)).
Proof.
  intros Hc. destruct half as [ov s c]. simpl in Hc. subst c.
  rewrite (cancel_schedule_irrelevant _ _ s Socket.read_schedule). apply cancel_keeps.
Qed.

(** The drop of a handle releases nothing while it cancels; when both
    cancellations succeed it closes the thread pool I/O object, if there is
    one, and then the socket, each once.  When a cancellation fails it panics
    having released neither. *)
Theorem drop_releases_once_or_leaks self tr (out : unit + fault) :
  of_socket self → produces (drop self) tr out →
  match out with
  | inl _ => ∃ t r, all_events keeping t ∧
      tr = t ++ (if is_null (ptp_io self) then [] else [Ev (ISys (CloseThreadpoolIo (ptp_io self))) tt]) ++
           [Ev (ISys (closesocket (handle self))) r]
  | inr _ => all_events keeping tr
  end.
Proof.
  intros (Hclose & Hr & Hw) Hp. pattern out, tr. change tr with ([] ++ tr).
  eapply wlp_produces; [|exact Hp]. clear Hp tr out. unfold drop.
  apply wlp_bind, (wlp_within keeping); [by apply unwrap_keeps, half_cancel_keeps|].
  intros [[]|f] es1 Hes1; [|done].
  apply wlp_bind, (wlp_within keeping); [by apply unwrap_keeps, half_cancel_keeps|].
  intros [[]|f] es2 Hes2; [|by apply all_events_app].
  rewrite Hclose. destruct (is_null (ptp_io self)); simpl.
  - intros r. exists (es1 ++ es2), r. split; [by apply all_events_app|done].
  - intros [] r. exists (es1 ++ es2), r. split; [by apply all_events_app|]. by rewrite <- !app_assoc.
Qed.
End handle.

(** ** Instances *)

Definition half_at (ov : Z) : IoHalf nat :=
  {| overlapped := ov; half_schedule := Socket.read_schedule; half_cancel := Socket.cancel |}.
Definition handle_of (io : Z) : IoHandle nat :=
  {| handle := 7; ptp_io := io; close := Socket.close; read := half_at 8; write := half_at 16 |}.

Lemma operations_stay_in_their_half_witness :
  8 ≠ 16 ∧ callback (handle_of 5) 16 0 3 = on WriteHalf (callback_half 0 3).
Proof.
  split; [done|].
  destruct (operations_stay_in_their_half (handle_of 5) 9%nat {| wsa_len := 4; wsa_buf := 64 |} true 16 0 3)
    as (_ & _ & _ & _ & Hcb & _); [done|].
  exact (proj1 (Hcb WriteHalf eq_refl)).
Defined.

(** Both halves are idle: nothing to cancel. *)
Lemma drop_releases_once_or_leaks_witness :
  let tr : list (Prog.event (iact nat) ians) :=
    [Ev (On ReadHalf (HState ALoad)) IDLE; Ev (On WriteHalf (HState ALoad)) IDLE;
     Ev (ISys (CloseThreadpoolIo 5)) tt; Ev (ISys (closesocket 7)) 0] in
  produces (drop (handle_of 5)) tr (inl tt) ∧
  ∃ t r, all_events (λ a, ¬ releasing a) t ∧
    tr = t ++ [Ev (ISys (CloseThreadpoolIo 5)) tt] ++ [Ev (ISys (closesocket 7)) r].
Proof.
  intros tr.
  assert (produces (drop (handle_of 5)) tr (inl tt)) as Hp.
  { repeat first [apply produces_ret | apply (produces_act unit)]. }
  split; [exact Hp|].
  exact (drop_releases_once_or_leaks (handle_of 5) tr (inl tt) (conj eq_refl (conj eq_refl eq_refl)) Hp).
Defined.
