(* ===== verification/HandleSys.v ===== *)
(** * A whole [IoHandle] in its environment

    Both directions at once: one client per half (the two ends of a split
    stream), the system, the one completion queue of the thread pool I/O
    object, on which a packet carries the address of the [OVERLAPPED] it
    completes, the callbacks that find their half by that address, and the
    drop of the handle, after which its memory is free. *)

From S2P Require Import Prelude Prog Extern Win32 Socket.
From S2P Require Import IoState IoCells IoHandle IoHandleSys.

(** ** State *)

Record hstate (W waker : Type) := {
  s_cells : half_id → cells W waker;
  s_kernel : half_id → kernel;           (* the packets of a half are in [s_port] *)
  s_port : list (Z * (Z * Z));           (* OVERLAPPED, error code, byte count *)
  s_released : list win32;               (* what the drop has closed *)
}.
Arguments s_cells {W waker} _ _.
Arguments s_kernel {W waker} _ _.
Arguments s_port {W waker} _.
Arguments s_released {W waker} _.
Arguments Build_hstate {W waker} _ _ _ _.

Inductive hclient (waker : Type) :=
| HIdle
| HRunning (op : client_op waker) (p : prog (iact waker) ians client_ret).
Arguments HIdle {waker}.
Arguments HRunning {waker} _ _.

Record hconfig (W waker : Type) := {
  st : hstate W waker;
  clients : half_id → hclient waker;
  hcallbacks : list (prog (iact waker) ians unit);
  hhistory : half_id → list (client_op waker * client_ret);
  dropper : option (prog (iact waker) ians unit);   (* the drop, once it has begun *)
}.
Arguments st {W waker} _.
Arguments clients {W waker} _ _.
Arguments hcallbacks {W waker} _.
Arguments hhistory {W waker} _ _.
Arguments dropper {W waker} _.
Arguments Build_hconfig {W waker} _ _ _ _ _.

Inductive hlabel (waker : Type) :=
| HBegin (h : half_id) (op : client_op waker)          (* a client calls an operation *)
| HClient (h : half_id) (a : answer)                   (* one action of it *)
| HReturn (h : half_id)                                (* it returns *)
| HComplete (h : half_id) (result transferred : Z)     (* the system completes an operation *)
| HDispatch                                            (* the pool runs the callback of a packet *)
| HCallback (i : nat)                                  (* one action of a callback *)
| HRetire (i : nat)                                    (* a callback ends *)
| HDrop                                                (* the last owner drops the handle *)
| HDropper (a : answer).                               (* one action of the drop *)
Arguments HBegin {waker} _ _.
Arguments HClient {waker} _ _.
Arguments HReturn {waker} _.
Arguments HComplete {waker} _ _ _.
Arguments HDispatch {waker}.
Arguments HCallback {waker} _.
Arguments HRetire {waker} _.
Arguments HDrop {waker}.
Arguments HDropper {waker} _.

Definition with_packets (k : kernel) (ps : list (Z * Z)) : kernel :=
  {| in_flight := in_flight k; status := status k; packets := ps;
     last_error := last_error k; outcomes := outcomes k |}.

(** ** The transition system *)

Section system.
Context {W waker : Type} `{!AtomicWaker W waker}.
Abbreviation prog := (Prog.prog (iact waker) ians).

(** [ovs]: the addresses of the two [OVERLAPPED]s. *)
Context (posts : bool) (allowed : half_id → client_op waker → bool).
Context (handle ptp_io : Z) (ovs : half_id → Z).

(** The handle of a socket ([Tcp.new_stream] makes it). *)
Definition the_handle : IoHandle waker := {|
  IoHandle.handle := handle; IoHandle.ptp_io := ptp_io; close := Socket.close;
  read := the_half (ovs ReadHalf) ReadHalf; write := the_half (ovs WriteHalf) WriteHalf;
|}.

(** The half's part of the state with the kernel and port updated: the packets
    an action has posted go to the end of the port. *)
Definition set_half (h : half_id) (c : cells W waker) (k : kernel) (s : hstate W waker) : hstate W waker :=
  Build_hstate (update h c (s_cells s)) (update h (with_packets k []) (s_kernel s))
    (s_port s ++ (pair (ovs h) <$> packets k)) (s_released s).

Definition istep (a : iact waker) (x : answer) (s : hstate W waker) : option (ians a * hstate W waker) :=
  match a return option (ians a * hstate W waker) with
  | On h a =>
      '(r, (c, k)) ← hstep posts a x (s_cells s h, s_kernel s h);
      Some (r, set_half h c k s)
  | ISys c =>
      let s' := Build_hstate (s_cells s) (s_kernel s) (s_port s) (s_released s ++ [c]) in
      match c return option (win32_ans c * hstate W waker) with
      | CloseThreadpoolIo io => Some (tt, s')
      | closesocket socket => Some (0, s')
      | _ => None
      end
  end.

(** The operation a client calls on its end. *)
Definition handle_op (h : half_id) (op : client_op waker) : prog client_ret :=
  match op with
  | OpPoll w buf =>
      p <- match h with ReadHalf => poll_read the_handle w buf | WriteHalf => poll_write the_handle w buf end ;;
      Ret (RPoll p)
  | OpCancel wait =>
      r <- match h with ReadHalf => cancel_read the_handle wait | WriteHalf => cancel_write the_handle wait end ;;
      Ret (RCancel r)
  end.

Definition hstart : hconfig W waker := {|
  st := Build_hstate (λ _, Build_cells IoState.new result_new aw_new [])
          (λ _, {| in_flight := 0; status := Some (0, 0); packets := []; last_error := 0; outcomes := [] |}) [] [];
  clients := λ _, HIdle;
  hcallbacks := [];
  hhistory := λ _, [];
  dropper := None;
|}.

Definition idle (w : hclient waker) : bool := match w with HIdle => true | HRunning _ _ => false end.

Definition handle_step (l : hlabel waker) (c : hconfig W waker) : option (hconfig W waker) :=
  match l with
  | HBegin h op =>
      match clients c h, dropper c with
      | HIdle, None =>
          if allowed h op then
            Some (Build_hconfig (st c) (update h (HRunning op (handle_op h op)) (clients c))
                    (hcallbacks c) (hhistory c) None)
          else None
      | _, _ => None
      end
  | HClient h a =>
      match clients c h with
      | HRunning op p =>
          '(p', s') ← tstep istep a p (st c);
          Some (Build_hconfig s' (update h (HRunning op p') (clients c)) (hcallbacks c) (hhistory c) (dropper c))
      | HIdle => None
      end
  | HReturn h =>
      match clients c h with
      | HRunning op (Ret r) =>
          Some (Build_hconfig (st c) (update h HIdle (clients c)) (hcallbacks c)
                  (update h (hhistory c h ++ [(op, r)]) (hhistory c)) (dropper c))
      | _ => None
      end
  | HComplete h e t =>
      k ← complete_op e t (s_kernel (st c) h);
      Some (Build_hconfig (set_half h (s_cells (st c) h) k (st c)) (clients c) (hcallbacks c) (hhistory c) (dropper c))
  | HDispatch =>
      match s_port (st c) with
      | [] => None
      | (ov, (e, t)) :: port =>
          Some (Build_hconfig (Build_hstate (s_cells (st c)) (s_kernel (st c)) port (s_released (st c)))
                  (clients c) (hcallbacks c ++ [callback the_handle ov e t]) (hhistory c) (dropper c))
      end
  | HCallback i =>
      p ← hcallbacks c !! i;
      '(p', s') ← tstep istep ADefault p (st c);
      Some (Build_hconfig s' (clients c) (<[i := p']> (hcallbacks c)) (hhistory c) (dropper c))
  | HRetire i =>
      match hcallbacks c !! i with
      | Some (Ret tt) => Some (Build_hconfig (st c) (clients c) (delete i (hcallbacks c)) (hhistory c) (dropper c))
      | _ => None
      end
  | HDrop =>
      if idle (clients c ReadHalf) && idle (clients c WriteHalf) then
        match dropper c with
        | None => Some (Build_hconfig (st c) (clients c) (hcallbacks c) (hhistory c) (Some (drop the_handle)))
        | Some _ => None
        end
      else None
  | HDropper a =>
      p ← dropper c;
      '(p', s') ← tstep istep a p (st c);
      Some (Build_hconfig s' (clients c) (hcallbacks c) (hhistory c) (Some p'))
  end.

#[export] Instance handle_lts : LTS (hlabel waker) (hconfig W waker) := {
  linit := hstart;
  lstep := handle_step;
}.

Definition handle_exec (ls : list (hlabel waker)) : option (hconfig W waker) :=
  exec (H := handle_lts) ls hstart.
End system.
