(* ===== verification/HandleRef.v ===== *)
(** * A handle is two independent halves

    Every schedule of a whole [IoHandle], clients, system, shared completion
    port, callbacks and drop together, is for each half a schedule of that
    half alone ([IoHandleSys]), so what [IoHandleThm] shows of a half holds
    of both halves of a handle at once. *)

From Stdlib Require Import FunctionalExtensionality.
From S2P Require Import Prelude Prog Extern Win32 Socket.
From S2P Require Import IoState IoCells IoHandle IoHandleSys IoHandleInv IoHandleSafe IoHandleThm HandleSys.

Section projection.
Context {W waker : Type} `{!AtomicWaker W waker}.
Context (posts : bool) (allowed : half_id → client_op waker → bool).
Context (handle ptp_io : Z) (ovs : half_id → Z) (Hovs : Inj (=) (=) ovs).
Abbreviation hprog := (Prog.prog (hact waker) hans).
Abbreviation iprog := (Prog.prog (iact waker) ians).
Implicit Types (s : hstate W waker) (c : hconfig W waker) (d : config W waker) (h : half_id).

(** ** The part of the state that belongs to a half *)

Definition half_view h s : cells W waker * kernel :=
  (s_cells s h, with_packets (s_kernel s h) (at_key (ovs h) (s_port s))).

(** The packets are in the port, and each is for one of the halves. *)
Definition well_formed s : Prop :=
  (∀ h, packets (s_kernel s h) = []) ∧ Forall (λ e : Z * (Z * Z), ∃ h, e.1 = ovs h) (s_port s).

Lemma with_packets_id k : with_packets k (packets k) = k.
Proof. by destruct k. Qed.

Lemma at_key_pairs (a b : Z) (l : list (Z * Z)) :
  at_key a (pair b <$> l) = if decide (b = a) then l else [].
Proof.
  induction l as [|x l IH]; [by destruct (decide (b = a))|].
  rewrite fmap_cons, at_key_cons, IH. by destruct (decide (b = a)).
Qed.

Lemma view_set_same h k cs s :
  half_view h (set_half ovs h cs k s) = (cs, with_packets k (at_key (ovs h) (s_port s) ++ packets k)).
Proof.
  unfold half_view, set_half. simpl.
  by rewrite !update_same, at_key_app, at_key_pairs, decide_True.
Qed.

Lemma view_set_other h h' k cs s : h' ≠ h → half_view h' (set_half ovs h cs k s) = half_view h' s.
Proof.
  intros Hh. unfold half_view, set_half. simpl.
  rewrite !update_other, at_key_app, at_key_pairs, decide_False, app_nil_r; try done.
  intros ?%(inj ovs). congruence.
Qed.

Lemma well_formed_set h cs k s : well_formed s → well_formed (set_half ovs h cs k s).
Proof.
  intros [Hk Hp]. split; simpl.
  - intros h'. unfold update. by case_decide.
  - apply Forall_app. split; [done|]. apply Forall_fmap, Forall_true. eauto.
Qed.

(** Nothing changes when a part is written back. *)
Lemma set_half_id h s : packets (s_kernel s h) = [] → set_half ovs h (s_cells s h) (s_kernel s h) s = s.
Proof.
  destruct s as [cs ks port rel]; unfold set_half; simpl. intros Hk.
  assert (with_packets (ks h) [] = ks h) as -> by (by rewrite <- Hk, with_packets_id).
  rewrite Hk, app_nil_r. f_equal.
  all: apply functional_extensionality; intros h'; unfold update; case_decide; congruence.
Qed.

(** Calls only add packets to those that are there. *)
Lemma sys_step_packets call a k ps :
  packets k = [] →
  sys_step posts call a (with_packets k ps) =
  (λ x : win32_ans call * kernel, (x.1, with_packets x.2 (ps ++ packets x.2))) <$> sys_step posts call a k.
Proof.
  destruct k as [n sta pk le os]. intros Hk. simpl in Hk. subst pk. unfold with_packets.
  destruct call; simpl; try done; unfold start_op, query, set_error; simpl;
    repeat (case_match; simplify_eq/=); rewrite ?app_nil_r; done.
Qed.

Lemma hstep_packets a x cs k ps :
  packets k = [] →
  hstep posts a x (cs, with_packets k ps) =
  (λ y : hans a * (cells W waker * kernel), (y.1, (y.2.1, with_packets y.2.2 (ps ++ packets y.2.2))))
    <$> hstep posts a x (cs, k).
Proof.
  intros Hk. destruct a as [a|e t| |w| | |call]; simpl; rewrite ?Hk, ?app_nil_r; try done.
  - destruct (atomic_step a (c_state cs)); simpl. by rewrite Hk, app_nil_r.
  - destruct (aw_take (c_waker cs)) as [[w|] aw]; simpl; by rewrite Hk, !app_nil_r.
  - rewrite sys_step_packets by done. by destruct (sys_step posts call x k) as [[r k']|].
Qed.

(** A step of a program of one half, seen from both halves. *)
Lemma step_view {A} h a (p : hprog A) s q s' :
  well_formed s → tstep (istep posts ovs) a (on h p) s = Some (q, s') →
  ∃ p', q = on h p' ∧ tstep (hstep posts) a p (half_view h s) = Some (p', half_view h s') ∧
    (∀ h', h' ≠ h → half_view h' s' = half_view h' s) ∧ well_formed s' ∧ s_released s' = s_released s.
Proof.
  intros Hwf Ht. pose proof (proj1 Hwf h) as Hk.
  destruct p as [x|b k|X body k|f]; [done| | |done].
  - apply tstep_act in Ht as (r & Hr & ->). cbn [istep] in Hr.
    destruct (hstep posts b a (s_cells s h, s_kernel s h)) as [[r' [cs k']]|] eqn:Hb; simplify_eq.
    cbn in Hr. simplify_eq.
    exists (k r). split; [done|]. split.
    { apply tstep_act. exists r. split; [|done]. unfold half_view at 1.
      rewrite hstep_packets, Hb by done. simpl. by rewrite view_set_same. }
    split; [intros h' Hh; by apply view_set_other|]. split; [by apply well_formed_set|done].
  - simpl in Ht. simplify_eq. exists (unroll body k). unfold on. by rewrite translate_unroll.
Qed.

(** ** The drop *)

Abbreviation self := (the_handle (waker := waker) handle ptp_io ovs).
Abbreviation half h := (the_half (waker := waker) (ovs h) h).

(** What follows the two cancellations. *)
Definition closing : iprog unit :=
  (if is_null ptp_io then Ret tt else sys (CloseThreadpoolIo ptp_io)) ;;; Socket.close handle.

(** Where the drop is: cancelling a half, closing, or stopped by a panic. *)
Inductive dphase :=
| DCancel h (p : hprog (io_result unit))
| DClose (p : iprog unit)
| DFault (f : fault).

Definition dden (ph : dphase) : iprog unit :=
  match ph with
  | DCancel ReadHalf p => unwrap (on ReadHalf p) ;;; unwrap (cancel_write self true) ;;; closing
  | DCancel WriteHalf p => unwrap (on WriteHalf p) ;;; closing
  | DClose p => p
  | DFault f => Fault f
  end.

Definition on_no_half (a : iact waker) : Prop := match a with On _ _ => False | ISys _ => True end.

Definition dphase_ok (ph : dphase) : Prop :=
  match ph with
  | DCancel _ p => running p = true
  | DClose p => within on_no_half p
  | DFault _ => True
  end.

Lemma drop_starts : drop self = dden (DCancel ReadHalf (IoHandle.cancel handle (half ReadHalf) true)).
Proof. done. Qed.

Lemma closing_ok : dphase_ok (DClose closing).
Proof. simpl. unfold closing. by destruct (is_null ptp_io); simpl. Qed.

(** A step of the drop while it cancels. *)
Lemma dden_step h a p s p' s' :
  running p = true → well_formed s →
  tstep (istep posts ovs) a (dden (DCancel h p)) s = Some (p', s') →
  ∃ q, tstep (hstep posts) a p (half_view h s) = Some (q, half_view h s') ∧
    (∀ h', h' ≠ h → half_view h' s' = half_view h' s) ∧ well_formed s' ∧ s_released s' = s_released s ∧
    p' = match q with
         | Ret (Ok _) =>
             match h with
             | ReadHalf => dden (DCancel WriteHalf (IoHandle.cancel handle (half WriteHalf) true))
             | WriteHalf => closing
             end
         | Ret (Err _) => Fault (Panicked "called `Result::unwrap()` on an `Err` value")
         | Fault f => Fault f
         | _ => dden (DCancel h q)
         end.
Proof.
  intros Hr Hwf Ht.
  assert (∃ k, dden (DCancel h p) = bind (unwrap (on h p)) (λ _, k) ∧
    k = match h with ReadHalf => unwrap (cancel_write self true) ;;; closing | WriteHalf => closing end)
    as (k & Hk & Hk') by (destruct h; eauto).
  rewrite Hk in Ht. unfold unwrap in Ht. rewrite bind_assoc, tstep_bind in Ht
    by (unfold on; by rewrite running_translate).
  destruct (tstep (istep posts ovs) a (on h p) s) as [[q' s2]|] eqn:Hq; simplify_eq/=.
  destruct (step_view h a p s q' s' Hwf Hq) as (q & -> & Hv & Ho & Hwf' & Hrel).
  exists q. split_and!; [done..|]. destruct q as [[[]|e]|b kk|X body kk|f]; [by destruct h|done|..|done].
  all: destruct h; unfold dden, unwrap; by rewrite bind_assoc.
Qed.

(** ** The simulation *)

(** The schedules of a half of a handle that is dropped in the end: the drop
    is one more waiting cancellation. *)
Definition half_allowed h (op : client_op waker) : bool :=
  allowed h op || match op with OpCancel true => true | _ => false end.

Definition lift_client h (x : client waker) : hclient waker :=
  match x with Idle => HIdle | Running op p => HRunning op (on h p) end.

(** The last thing the client did was a waiting cancellation that succeeded. *)
Definition cancelled_ok d : Prop :=
  who d = Idle ∧ ∃ hs, history d = hs ++ [(OpCancel true, RCancel (Ok tt))].

Definition drop_view h (ph : dphase) d : Prop :=
  match ph with
  | DCancel h' p =>
      if decide (h = h') then who d = Running (OpCancel true) (as_cancel p)
      else who d = Idle ∧ (h = ReadHalf → cancelled_ok d)
  | DClose _ => cancelled_ok d
  | DFault _ => True
  end.

(** What the programs of the handle are, half by half. *)
Record ghost := {
  g_callbacks : list (half_id * hprog unit);
  g_clients : half_id → client waker;
  g_drop : option dphase;
}.
Implicit Types (g : ghost).

(** The invariant of the handle. *)
Record handle_inv c g : Prop := {
  hi_callbacks : hcallbacks c = (λ x : half_id * hprog unit, on x.1 x.2) <$> g_callbacks g;
  hi_clients : ∀ h, clients c h = lift_client h (g_clients g h);
  hi_state : well_formed (st c);
  hi_dropper : dropper c = dden <$> g_drop g;
  hi_phase : ∀ ph, g_drop g = Some ph → dphase_ok ph ∧ ∀ h, g_clients g h = Idle;
}.

(** [d] is the half [h] of [c]. *)
Record shows h c g d : Prop := {
  sh_state : (cl d, kn d) = half_view h (st c);
  sh_callbacks : callbacks d = at_key h (g_callbacks g);
  sh_client : match g_drop g with
              | None => who d = g_clients g h ∧ history d = hhistory c h
              | Some ph => drop_view h ph d
              end;
}.

Definition the_half_lts h : LTS (label waker) (config W waker) :=
  half_lts posts (half_allowed h) handle ptp_io (ovs h) h.

(** A half follows a step of the handle by at most one move, or by the last
    move of a cancellation and its return. *)
Definition short (ls : list (label waker)) : Prop :=
  (length ls ≤ 1)%nat ∨ ∃ a, ls = [LClient a; LReturn].

(** The move of a half is what the label of the handle says of it; which
    callback of the half moves depends on the state. *)
Definition tell h h' (l : label waker) : list (label waker) := if decide (h = h') then [l] else [].
Definition mirrors (l : hlabel waker) h (ls : list (label waker)) : Prop :=
  match l with
  | HBegin h' op => ls = tell h h' (LBegin op)
  | HClient h' a => ls = tell h h' (LClient a)
  | HReturn h' => ls = tell h h' LReturn
  | HComplete h' e t => ls = tell h h' (LComplete e t)
  | HDispatch => ls = [] ∨ ls = [LDispatch]
  | HCallback _ => ls = [] ∨ ∃ j, ls = [LCallback j]
  | HRetire _ => ls = [] ∨ ∃ j, ls = [LRetire j]
  | HDrop | HDropper _ => True
  end.
Definition moves l h ls d d' : Prop :=
  exec (H := the_half_lts h) ls d = Some d' ∧ short ls ∧ mirrors l h ls.

(** What a step of the handle must be for the half [h], and for both. *)
Definition matched l h c g c' g' : Prop :=
  ∀ d, shows h c g d → ∃ ls d', moves l h ls d d' ∧ shows h c' g' d'.
Definition followed l c g c' : Prop :=
  ∃ g', handle_inv c' g' ∧ ∀ h, matched l h c g c' g'.

Lemma handle_op_on h (op : client_op waker) : handle_op handle ptp_io ovs h op = on h (run_op handle ptp_io (ovs h) h op).
Proof. destruct h, op; unfold on, handle_op, run_op; by rewrite translate_bind. Qed.

Abbreviation hstep_of := (handle_step posts allowed handle ptp_io ovs).

(** The half's side of a step. *)
Ltac moved :=
  split; [first [reflexivity | eassumption]|split; [first [left; simpl; lia | right; eauto]|]];
  simpl; unfold tell; rewrite ?decide_True, ?decide_False by done; eauto.

(** One lemma per label: the invariant is kept and both halves follow. *)
Lemma follow_begin h op c g c' :
  handle_inv c g → hstep_of (HBegin h op) c = Some c' → followed (HBegin h op) c g c'.
Proof.
  intros [Hcb Hcl Hst Hdr Hph] Hstep. destruct g as [cbs ws dp]. simpl in *. rewrite Hcl in Hstep.
  destruct (ws h) eqn:Hw; [|done]. rewrite Hdr in Hstep. destruct dp; [done|]. simpl in Hstep.
  destruct (allowed h op) eqn:Ha; simplify_eq.
  exists {| g_callbacks := cbs; g_drop := None;
            g_clients := update h (Running op (run_op handle ptp_io (ovs h) h op)) ws |}. split.
  - constructor; try done. intros h'. simpl. unfold update. case_decide as Hd; [|done]. subst.
    by rewrite handle_op_on.
  - intros h' d [Hs Hcs [Hwho Hh]]. simpl in *. destruct (decide (h' = h)) as [->|Hne].
    + rewrite Hw in Hwho. exists [LBegin op]. eexists. unfold moves; simpl. rewrite Hwho. unfold half_allowed.
      rewrite Ha. simpl. split; [moved|]. constructor; simpl; [done..|]. by rewrite update_same.
    + exists [], d. split; [moved|]. constructor; simpl; [done..|]. by rewrite update_other.
Qed.

Lemma follow_client h a c g c' :
  handle_inv c g → hstep_of (HClient h a) c = Some c' → followed (HClient h a) c g c'.
Proof.
  intros [Hcb Hcl Hst Hdr Hph] Hstep. destruct g as [cbs ws dp]. simpl in *. rewrite Hcl in Hstep.
  destruct (ws h) as [|op p] eqn:Hw; [done|]. simpl in Hstep.
  destruct (tstep (istep posts ovs) a (on h p) (st c)) as [[p' s']|] eqn:Ht; simplify_eq/=.
  destruct dp as [ph|]; [destruct (Hph ph eq_refl) as [_ Hi]; by rewrite Hi in Hw|].
  destruct (step_view h a p (st c) p' s' Hst Ht) as (q & -> & Hv & Ho & Hwf & _).
  exists {| g_callbacks := cbs; g_drop := None; g_clients := update h (Running op q) ws |}. split.
  - constructor; simpl; try done. intros h'. unfold update. case_decide as Hd; [by subst|done].
  - intros h' d [Hs Hcs [Hwho Hh]]. simpl in *. destruct (decide (h' = h)) as [->|Hne].
    + rewrite Hw in Hwho. rewrite <- Hs in Hv. exists [LClient a]. eexists. unfold moves; simpl. rewrite Hwho, Hv.
      split; [moved|]. constructor; simpl; [done..|].
      by rewrite update_same.
    + exists [], d. split; [moved|]. constructor; simpl; [by rewrite Ho|done|]. by rewrite update_other.
Qed.

Lemma follow_return h c g c' :
  handle_inv c g → hstep_of (HReturn h) c = Some c' → followed (HReturn h) c g c'.
Proof.
  intros [Hcb Hcl Hst Hdr Hph] Hstep. destruct g as [cbs ws dp]. simpl in *. rewrite Hcl in Hstep.
  destruct (ws h) as [|op p] eqn:Hw; [done|]. simpl in Hstep.
  destruct dp as [ph|]; [destruct (Hph ph eq_refl) as [_ Hi]; by rewrite Hi in Hw|].
  destruct p as [r| | |]; simplify_eq/=.
  exists {| g_callbacks := cbs; g_drop := None; g_clients := update h Idle ws |}. split.
  - constructor; simpl; try done. intros h'. unfold update. by case_decide.
  - intros h' d [Hs Hcs [Hwho Hh]]. simpl in *. destruct (decide (h' = h)) as [->|Hne].
    + rewrite Hw in Hwho. exists [LReturn]. eexists. unfold moves; simpl. rewrite Hwho.
      split; [moved|]. constructor; simpl; [done..|]. by rewrite !update_same, Hh.
    + exists [], d. split; [moved|]. constructor; simpl; [done..|]. by rewrite !update_other.
Qed.

(** The sides of a view that a step leaves alone. *)
Lemma shows_same h c g d c' g' :
  shows h c g d → half_view h (st c') = half_view h (st c) →
  at_key h (g_callbacks g') = at_key h (g_callbacks g) → g_drop g' = g_drop g →
  g_clients g' = g_clients g → hhistory c' = hhistory c → shows h c' g' d.
Proof.
  intros [? ? ?] Hv Hk Hd Hc Hh. constructor; [congruence..|]. by rewrite Hd, Hc, Hh.
Qed.

(** The system completes an operation. *)
Lemma follow_complete h e t c g c' :
  handle_inv c g → hstep_of (HComplete h e t) c = Some c' → followed (HComplete h e t) c g c'.
Proof.
  intros [Hcb Hcl Hst Hdr Hph] Hstep. simpl in Hstep.
  destruct (complete_op e t (s_kernel (st c) h)) as [k|] eqn:Hk; simplify_eq/=.
  exists g. split; [constructor; simpl; try done; by apply well_formed_set|].
  intros h' d Hs. destruct (decide (h' = h)) as [->|Hne].
  - pose proof Hs as [Hsh Hcs Hx]. pose proof (proj1 Hst h) as Hp.
    assert (complete_op e t (kn d) = Some (half_view h (set_half ovs h (s_cells (st c) h) k (st c))).2) as Hc.
    { rewrite view_set_same. unfold half_view in Hsh. injection Hsh as _ ->. unfold complete_op in *. simpl.
      destruct (in_flight (s_kernel (st c) h)); simplify_eq/=. by rewrite Hp. }
    exists [LComplete e t]. eexists. unfold moves; simpl. rewrite Hc. split; [moved|].
    constructor; [|done|by destruct (g_drop g) as [[]|]].
    cbn [with_cells cl kn fst snd st]. rewrite view_set_same. by injection Hsh as -> _.
  - exists [], d. split; [moved|]. eapply shows_same; try done. by apply view_set_other.
Qed.

(** The head of the port is the head of the packets of its half. *)
Lemma follow_dispatch c g c' :
  handle_inv c g → hstep_of HDispatch c = Some c' → followed HDispatch c g c'.
Proof.
  intros [Hcb Hcl Hst Hdr Hph] Hstep. destruct g as [cbs ws dp]. simpl in *.
  destruct (s_port (st c)) as [|[ov [e t]] port] eqn:Hp; simplify_eq/=.
  destruct Hst as [Hk Hall]. rewrite Hp, Forall_cons in Hall. destruct Hall as [[h Hov] Hall].
  simpl in Hov. subst ov.
  assert (callback self (ovs h) e t = on h (callback_half e t)) as ->.
  { unfold callback, select_half. simpl. destruct h; [by rewrite decide_True|].
    rewrite decide_False by (by intros ?%(inj ovs)). by rewrite decide_True. }
  exists {| g_callbacks := cbs ++ [(h, callback_half e t)]; g_clients := ws; g_drop := dp |}. split.
  { constructor; simpl; try done. by rewrite Hcb, fmap_app. }
  intros h' d Hs. destruct (decide (h' = h)) as [->|Hne].
  - destruct Hs as [Hsh Hcs Hx]. unfold half_view in Hsh. rewrite Hp, at_key_cons, decide_True in Hsh by done.
    injection Hsh as Hc Hkn. exists [LDispatch]. eexists. unfold moves; simpl. rewrite Hkn. simpl. split; [moved|].
    constructor; simpl in *.
    + by rewrite Hc.
    + by rewrite at_key_app, at_key_one, decide_True, Hcs.
    + by destruct dp as [[]|].
  - exists [], d. split; [moved|]. eapply shows_same; try done.
    + unfold half_view; simpl. rewrite Hp, at_key_cons, decide_False; [done|]. intros ?%(inj ovs). congruence.
    + simpl. by rewrite at_key_app, at_key_one, decide_False, app_nil_r by congruence.
Qed.

Lemma follow_callback i c g c' :
  handle_inv c g → hstep_of (HCallback i) c = Some c' → followed (HCallback i) c g c'.
Proof.
  intros [Hcb Hcl Hst Hdr Hph] Hstep. destruct g as [cbs ws dp]. simpl in *.
  rewrite Hcb, list_lookup_fmap in Hstep. destruct (cbs !! i) as [[h p]|] eqn:Hi; [|done]. simpl in Hstep.
  destruct (tstep (istep posts ovs) ADefault (on h p) (st c)) as [[p' s']|] eqn:Ht; simplify_eq/=.
  destruct (step_view h ADefault p (st c) p' s' Hst Ht) as (q & -> & Hv & Ho & Hwf & _).
  exists {| g_callbacks := <[i := (h, q)]> cbs; g_clients := ws; g_drop := dp |}. split.
  { constructor; simpl; try done. by rewrite list_fmap_insert. }
  intros h' d Hs. destruct (decide (h' = h)) as [->|Hne].
  - destruct Hs as [Hsh Hcs Hx]. destruct (at_key_lookup h cbs i p Hi) as (j & Hj & Hins & _).
    rewrite <- Hsh in Hv. simpl in Hcs. exists [LCallback j]. eexists. unfold moves; simpl. rewrite Hcs, Hj. simpl. rewrite Hv.
    split; [moved|]. constructor; simpl in *; [done|by rewrite Hins|by destruct dp as [[]|]].
  - exists [], d. split; [moved|]. eapply shows_same; try done; simpl; [by apply Ho|].
    by destruct (at_key_other h' h cbs i p Hi) as [-> _].
Qed.

Lemma follow_retire i c g c' :
  handle_inv c g → hstep_of (HRetire i) c = Some c' → followed (HRetire i) c g c'.
Proof.
  intros [Hcb Hcl Hst Hdr Hph] Hstep. destruct g as [cbs ws dp]. simpl in *.
  rewrite Hcb, list_lookup_fmap in Hstep. destruct (cbs !! i) as [[h p]|] eqn:Hi; [|done]. simpl in Hstep.
  destruct p as [[]| | |]; simplify_eq/=.
  exists {| g_callbacks := delete i cbs; g_clients := ws; g_drop := dp |}. split.
  { constructor; simpl; try done. by rewrite list_fmap_delete. }
  intros h' d Hs. destruct (decide (h' = h)) as [->|Hne].
  - destruct Hs as [Hsh Hcs Hx]. destruct (at_key_lookup h cbs i _ Hi) as (j & Hj & _ & Hdel).
    simpl in Hcs. exists [LRetire j]. eexists. unfold moves; simpl. rewrite Hcs, Hj.
    split; [moved|]. constructor; simpl in *; [done|by rewrite Hdel|by destruct dp as [[]|]].
  - exists [], d. split; [moved|]. eapply shows_same; try done; simpl.
    by destruct (at_key_other h' h cbs i _ Hi) as [_ ->].
Qed.

Lemma follow_drop c g c' :
  handle_inv c g → hstep_of HDrop c = Some c' → followed HDrop c g c'.
Proof.
  intros [Hcb Hcl Hst Hdr Hph] Hstep. destruct g as [cbs ws dp]. simpl in *. rewrite !Hcl in Hstep.
  destruct (ws ReadHalf) eqn:Hr; [|done]. destruct (ws WriteHalf) eqn:Hw; [|done]. simpl in Hstep.
  rewrite Hdr in Hstep. destruct dp as [|]; simplify_eq/=.
  assert (∀ h, ws h = Idle) as Hidle by (by intros []).
  exists {| g_callbacks := cbs; g_clients := ws;
            g_drop := Some (DCancel ReadHalf (IoHandle.cancel handle (half ReadHalf) true)) |}. split.
  { constructor; simpl; [done..|]. intros ph ?; simplify_eq. done. }
  intros [] d [Hs Hcs [Hwho Hh]]; simpl in *; rewrite Hidle in Hwho.
  - exists [LBegin (OpCancel true)]. eexists. unfold moves; simpl. rewrite Hwho. unfold half_allowed. rewrite orb_true_r.
    split; [moved|]. by constructor.
  - exists [], d. split; [moved|]. by constructor.
Qed.

(** The half whose cancellation moves. *)
Lemma cancel_moves h a p q d s s' :
  (cl d, kn d) = half_view h s → who d = Running (OpCancel true) (as_cancel p) →
  running p = true → tstep (hstep posts) a p (half_view h s) = Some (q, half_view h s') →
  ∃ d', exec (H := the_half_lts h) [LClient a] d = Some d' ∧ (cl d', kn d') = half_view h s' ∧
    callbacks d' = callbacks d ∧ who d' = Running (OpCancel true) (as_cancel q) ∧ history d' = history d.
Proof.
  intros Hs Hw Hr Ht. eexists. split.
  - simpl. rewrite Hw. unfold as_cancel. rewrite tstep_bind by done. rewrite <- Hs in Ht. rewrite Ht.
    reflexivity.
  - done.
Qed.

(** A cancellation of the drop that goes on, or stops it. *)
Lemma follow_cancelling h a p q ph c g s' :
  handle_inv c g → g_drop g = Some (DCancel h p) → running p = true →
  tstep (hstep posts) a p (half_view h (st c)) = Some (q, half_view h s') →
  (∀ h', h' ≠ h → half_view h' s' = half_view h' (st c)) → well_formed s' →
  ph = DCancel h q ∧ running q = true ∨ (∃ f, ph = DFault f) →
  followed (HDropper a) c g (Build_hconfig s' (clients c) (hcallbacks c) (hhistory c) (Some (dden ph))).
Proof.
  intros [Hcb Hcl Hst Hdr Hph] Hd Hr Ht Ho Hwf Hq. destruct (Hph _ Hd) as [_ Hidle].
  exists {| g_callbacks := g_callbacks g; g_clients := g_clients g; g_drop := Some ph |}. split.
  { constructor; simpl; try done. intros ph' ?; simplify_eq. split; [|done].
    by destruct Hq as [[-> ?]|[f ->]]. }
  intros h' d [Hs Hcs Hx]. rewrite Hd in Hx. simpl in Hx. destruct (decide (h' = h)) as [->|Hne].
  - destruct (cancel_moves h a p q d (st c) s' Hs Hx Hr Ht) as (d' & Hex & Hs' & Hc' & Hw' & Hh').
    exists [LClient a], d'. split; [moved|]. constructor; simpl; [done|by rewrite Hc'|].
    destruct Hq as [[-> ?]|[f ->]]; simpl; [by rewrite decide_True|done].
  - exists [], d. split; [moved|]. constructor; simpl; [by rewrite Ho|done|].
    destruct Hq as [[-> ?]|[f ->]]; simpl; [by rewrite decide_False|done].
Qed.

(** A cancellation of the drop that succeeds. *)
Lemma cancel_returns h a p d s s' :
  (cl d, kn d) = half_view h s → who d = Running (OpCancel true) (as_cancel p) →
  running p = true → tstep (hstep posts) a p (half_view h s) = Some (Ret (Ok tt), half_view h s') →
  ∃ d', exec (H := the_half_lts h) [LClient a; LReturn] d = Some d' ∧ (cl d', kn d') = half_view h s' ∧
    callbacks d' = callbacks d ∧ cancelled_ok d'.
Proof.
  intros Hs Hw Hr Ht.
  destruct (cancel_moves h a p _ d s s' Hs Hw Hr Ht) as (d1 & Hex & Hs1 & Hc1 & Hw1 & Hh1).
  eexists. split.
  - change [LClient a; LReturn] with ([LClient (waker := waker) a] ++ [LReturn]).
    rewrite exec_app, Hex. simpl. rewrite Hw1. reflexivity.
  - simpl. split_and!; [done..|]. split; [done|]. eexists. reflexivity.
Qed.

Lemma follow_cancelled h a p c g s' :
  handle_inv c g → g_drop g = Some (DCancel h p) → running p = true →
  tstep (hstep posts) a p (half_view h (st c)) = Some (Ret (Ok tt), half_view h s') →
  (∀ h', h' ≠ h → half_view h' s' = half_view h' (st c)) → well_formed s' →
  followed (HDropper a) c g (Build_hconfig s' (clients c) (hcallbacks c) (hhistory c) (Some (dden
    (match h with
     | ReadHalf => DCancel WriteHalf (IoHandle.cancel handle (half WriteHalf) true)
     | WriteHalf => DClose closing
     end)))).
Proof.
  intros [Hcb Hcl Hst Hdr Hph] Hd Hr Ht Ho Hwf. destruct (Hph _ Hd) as [_ Hidle].
  eexists {| g_callbacks := g_callbacks g; g_clients := g_clients g; g_drop := Some _ |}. split.
  { constructor; simpl; try done. intros ph' ?; simplify_eq. split; [|done].
    destruct h; [done|apply closing_ok]. }
  intros h' d [Hs Hcs Hx]. rewrite Hd in Hx. simpl in Hx. destruct (decide (h' = h)) as [->|Hne].
  - destruct (cancel_returns h a p d (st c) s' Hs Hx Hr Ht) as (d' & Hex & Hs' & Hc' & Hok).
    exists [LClient a; LReturn], d'. split; [moved|]. constructor; simpl; [done|by rewrite Hc'|].
    destruct h; simpl; [|done]. by destruct Hok as [? ?].
  - destruct Hx as [Hidl Hok]. rewrite <- (Ho h' Hne) in Hs. destruct h, h'; try done; simpl.
    + exists [LBegin (OpCancel true)]. eexists. unfold moves; simpl. rewrite Hidl. unfold half_allowed. rewrite orb_true_r.
      split; [moved|]. by constructor.
    + exists [], d. split; [moved|]. constructor; simpl; [done..|by apply Hok].
Qed.

Lemma follow_closing a p c g p' s' :
  handle_inv c g → g_drop g = Some (DClose p) →
  tstep (istep posts ovs) a p (st c) = Some (p', s') →
  followed (HDropper a) c g (Build_hconfig s' (clients c) (hcallbacks c) (hhistory c) (Some p')).
Proof.
  intros [Hcb Hcl Hst Hdr Hph] Hd Ht. destruct (Hph _ Hd) as [Hp Hidle]. simpl in Hp.
  assert (within on_no_half p' ∧ s_cells s' = s_cells (st c) ∧ s_kernel s' = s_kernel (st c) ∧
          s_port s' = s_port (st c)) as (Hp' & Hc & Hk & Hpo).
  { destruct p as [|[h b|call] k|X body k|]; [done|by destruct Hp| | |done].
    - apply tstep_act in Ht as (r & Hr & ->). destruct Hp as [_ Hp].
      split; [apply Hp|]. by destruct call; simpl in Hr; simplify_eq.
    - simpl in Ht. simplify_eq. destruct Hp as [Hb Hk]. split; [|done].
      unfold unroll. apply within_bind; [done|]. by intros [x|]. }
  exists {| g_callbacks := g_callbacks g; g_clients := g_clients g; g_drop := Some (DClose p') |}. split.
  { constructor; simpl; try done; [by split; simpl; rewrite ?Hk, ?Hpo; apply Hst|].
    intros ph' ?; simplify_eq. by split. }
  intros h d [Hs Hcs Hx]. rewrite Hd in Hx. exists [], d. split; [moved|].
  constructor; simpl; [|done|done]. unfold half_view in *. by rewrite Hc, Hk, Hpo.
Qed.

Lemma follow_dropper a c g c' :
  handle_inv c g → hstep_of (HDropper a) c = Some c' → followed (HDropper a) c g c'.
Proof.
  intros Hinv Hstep. pose proof Hinv as [Hcb Hcl Hst Hdr Hph]. simpl in Hstep. rewrite Hdr in Hstep.
  destruct (g_drop g) as [ph|] eqn:Hd; [|done]. simpl in Hstep.
  destruct (Hph ph eq_refl) as [Hok _].
  destruct (tstep (istep posts ovs) a (dden ph) (st c)) as [[p' s']|] eqn:Ht; simplify_eq/=.
  destruct ph as [h p|p|f]; [|by eapply follow_closing|done].
  destruct (dden_step h a p (st c) p' s' Hok Hst Ht) as (q & Hq & Ho & Hwf & _ & Hp').
  destruct q as [[[]|e]|b k|X body k|f].
  - pose proof (follow_cancelled h a p c g s' Hinv Hd Hok Hq Ho Hwf) as Hf. by destruct h; subst p'.
  - subst p'. apply (follow_cancelling h a p _ (DFault _) c g s' Hinv Hd Hok Hq Ho Hwf). eauto.
  - subst p'. apply (follow_cancelling h a p _ (DCancel h _) c g s' Hinv Hd Hok Hq Ho Hwf). by left.
  - subst p'. apply (follow_cancelling h a p _ (DCancel h _) c g s' Hinv Hd Hok Hq Ho Hwf). by left.
  - subst p'. apply (follow_cancelling h a p _ (DFault f) c g s' Hinv Hd Hok Hq Ho Hwf). eauto.
Qed.

Lemma follow_step l c g c' : handle_inv c g → hstep_of l c = Some c' → followed l c g c'.
Proof.
  destruct l; eauto using follow_begin, follow_client, follow_return, follow_complete, follow_dispatch,
    follow_callback, follow_retire, follow_drop, follow_dropper.
Qed.

(** No waiting cancellation has caught an operation of the half. *)
Definition hunwaited h c : bool := bool_decide (c_state (s_cells (st c) h) ≠ CANCELLED_WAIT).

Lemma hunwaited_shows h c g d : shows h c g d → hunwaited h c = unwaited d.
Proof. intros [Hs _ _]. unfold hunwaited, unwaited. by injection Hs as -> _. Qed.

Lemma along_short l h ls d d' :
  moves l h ls d d' → unwaited d = true → unwaited d' = true →
  along (H := the_half_lts h) unwaited ls d = true.
Proof.
  intros (Hex & [Hl|[a ->]] & _) Hd Hd'.
  - destruct ls as [|l' [|]]; simpl in *; rewrite Hd; [done| |lia].
    destruct (half_step _ _ _ _ _ _ l' d); simplify_eq/=. by rewrite Hd'.
  - change [LClient a; LReturn] with ([LClient (waker := waker) a] ++ [LReturn]) in *.
    rewrite exec_app in Hex. destruct (exec [LClient a] d) as [d1|] eqn:Hd1; [|done].
    rewrite (along_app (H := the_half_lts h) _ _ _ _ _ Hd1). simpl in Hex, Hd1 |- *. rewrite Hd.
    destruct (who d) as [|op p]; [done|].
    destruct (tstep _ a p _) as [[p' v]|]; simplify_eq/=. destruct p'; simplify_eq/=.
    unfold unwaited in *. simpl in *. by rewrite Hd'.
Qed.

(** Every schedule of the handle is one of each half, under the same guard. *)
Lemma follow_exec h ls c g d c' :
  handle_inv c g → shows h c g d → exec (H := handle_lts posts allowed handle ptp_io ovs) ls c = Some c' →
  ∃ ls' d' g', exec (H := the_half_lts h) ls' d = Some d' ∧ handle_inv c' g' ∧ shows h c' g' d' ∧
    (along (H := handle_lts posts allowed handle ptp_io ovs) (hunwaited h) ls c = true →
     along (H := the_half_lts h) unwaited ls' d = true).
Proof.
  revert c g d. induction ls as [|l ls IH]; intros c g d Hinv Hs Hex; simpl in Hex.
  - simplify_eq. exists [], d, g. split_and!; [done..|]. simpl. by rewrite (hunwaited_shows h c' g d).
  - destruct (hstep_of l c) as [c1|] eqn:Hl; [|done]. simpl in Hex.
    destruct (follow_step l c g c1 Hinv Hl) as (g1 & Hinv1 & Hm).
    destruct (Hm h d Hs) as (ls1 & d1 & Hmv & Hs1).
    destruct (IH c1 g1 d1 Hinv1 Hs1 Hex) as (ls2 & d2 & g2 & Hex2 & Hinv2 & Hs2 & Hal).
    exists (ls1 ++ ls2), d2, g2. split_and!; [|done..|].
    + by rewrite exec_app, (proj1 Hmv).
    + simpl. rewrite Hl. intros [Hg Hg1]%andb_prop. rewrite (along_app (H := the_half_lts h) _ _ _ _ _ (proj1 Hmv)).
      rewrite Hal by done. rewrite andb_true_r. apply (along_short l h ls1 d d1 Hmv).
      * by rewrite <- (hunwaited_shows h c g d).
      * rewrite <- (hunwaited_shows h c1 g1 d1) by done. destruct ls; simpl in Hg1; by apply andb_prop in Hg1 as [? _].
Qed.

Lemma handle_half h ls c :
  handle_exec posts allowed handle ptp_io ovs ls = Some c →
  ∃ ls' d g, half_exec posts (half_allowed h) handle ptp_io (ovs h) h ls' = Some d ∧
    handle_inv c g ∧ shows h c g d ∧
    (along (H := handle_lts posts allowed handle ptp_io ovs) (hunwaited h) ls hstart = true →
     along (H := the_half_lts h) unwaited ls' start = true).
Proof.
  apply follow_exec with (g := {| g_callbacks := []; g_clients := λ _, Idle; g_drop := None |}); by constructor.
Qed.
End projection.
