(* ===== verification/HandleDuplex.v ===== *)
(** * Both directions of a handle at once

    What [HandleRef] is for: a handle in its environment is two halves, and
    the guarantees of a half hold of both, whatever the other one does. *)

From S2P Require Import Prelude Prog Extern Win32 Socket.
From S2P Require Import IoState IoCells IoHandle IoHandleSys IoHandleInv IoHandleSafe IoHandleThm.
From S2P Require Import HandleSys HandleRef.

Section guarantees.
Context {W waker : Type} `{!AtomicWaker W waker}.
Implicit Types (c : hconfig W waker).

(** The schedules in which no operation completes at once. *)
Definition hpends (l : hlabel waker) : bool :=
  match l with
  | HClient _ (AStart (StartDone _)) | HDropper (AStart (StartDone _)) => false
  | _ => true
  end.
Definition no_stale_packets (posts : bool) (ls : list (hlabel waker)) : Prop :=
  posts = true → forallb hpends ls = true.

Lemma istep_pends ovs (a : iact waker) x (s : hstate W waker) :
  match x with AStart (StartDone _) => false | _ => true end = true →
  istep true ovs a x s = istep false ovs a x s.
Proof.
  intros Hx. destruct a as [h a|]; [|done]. destruct a as [| | | | | |[]]; try done; simpl;
    by destruct x as [|[]].
Qed.

Lemma handle_step_pends allowed handle ptp_io ovs l c :
  hpends l = true →
  handle_step true allowed handle ptp_io ovs l c = handle_step false allowed handle ptp_io ovs l c.
Proof.
  assert (∀ A (p : prog (iact waker) ians A) x (s : hstate W waker),
    match x with AStart (StartDone _) => false | _ => true end = true →
    tstep (istep true ovs) x p s = tstep (istep false ovs) x p s) as Ht.
  { intros A p x s Hx. destruct p; simpl; [done| |done|done]. by rewrite istep_pends. }
  intros Hl. destruct l as [|h a| | | | | | |a]; try done; simpl.
  - destruct (clients c h); [done|]. by rewrite Ht.
  - destruct (dropper c); [|done]. simpl. by rewrite Ht.
Qed.

Lemma handle_exec_pends posts allowed handle ptp_io ovs ls :
  no_stale_packets posts ls →
  handle_exec (W := W) posts allowed handle ptp_io ovs ls = handle_exec false allowed handle ptp_io ovs ls ∧
  ∀ G, along (H := handle_lts (W := W) posts allowed handle ptp_io ovs) G ls hstart =
       along (H := handle_lts (W := W) false allowed handle ptp_io ovs) G ls hstart.
Proof.
  destruct posts; [|done]. intros Hls. apply (exec_agree _ _ hpends); [|by apply Hls].
  intros l c. apply handle_step_pends.
Qed.

(** C14. A handle refines two independent halves: whatever the two clients, the
    system, the callbacks on the shared completion port and the drop do, each
    half is in a state it can reach alone, with the packets of the port that
    carry its address, the callbacks that run on it, and the operations its
    own client has called. *)
Theorem handle_is_two_halves posts allowed handle ptp_io ovs ls c :
  Inj (=) (=) ovs →
  handle_exec posts allowed handle ptp_io ovs ls = Some c →
  ∀ h, ∃ ls' d,
    half_exec posts (half_allowed allowed h) handle ptp_io (ovs h) h ls' = Some d ∧
    cl d = s_cells (st c) h ∧
    kn d = with_packets (s_kernel (st c) h) (at_key (ovs h) (s_port (st c))) ∧
    (∃ cbs, hcallbacks c = (λ x : half_id * prog (hact waker) hans unit, on x.1 x.2) <$> cbs ∧
       callbacks d = at_key h cbs) ∧
    (dropper c = None → clients c h = lift_client h (who d) ∧ hhistory c h = history d).
Proof.
  intros Hovs Hex h.
  destruct (handle_half posts allowed handle ptp_io ovs Hovs h ls c Hex)
    as (ls' & d & g & Hex' & [Hcb Hcl Hst Hdr Hph] & [Hs Hcs Hx] & _).
  exists ls', d. injection Hs as Hc Hk. split_and!; [done..|by exists (g_callbacks g)|].
  intros Hnone. rewrite Hdr in Hnone. destruct (g_drop g); [done|]. destruct Hx as [-> ->].
  by rewrite Hcl.
Qed.

(** What a client is about to do. *)
Definition hclient_next c h : option (iact waker) :=
  match clients c h with HRunning _ p => next_act p | HIdle => None end.

(** The call that hands the [OVERLAPPED] of a half to the system. *)
Definition hstarting (a : option (iact waker)) : bool :=
  match a with Some (On _ (HSys (WSARecv _ _ _ | WSASend _ _ _))) => true | _ => false end.

Lemma next_on {A} h (p : prog (hact waker) hans A) : next_act (on h p) = On h <$> next_act p.
Proof. by destruct p. Qed.

Lemma client_next_shows handle ptp_io ovs c g d h a :
  handle_inv handle ptp_io ovs c g → shows ovs h c g d →
  hclient_next c h = Some a → ∃ b, a = On h b ∧ client_next d = Some b.
Proof.
  intros [Hcb Hcl Hst Hdr Hph] [Hs Hcs Hx] Ha. unfold hclient_next in Ha. rewrite Hcl in Ha.
  destruct (g_clients g h) as [|op p] eqn:Hg; [done|]. simpl in Ha. rewrite next_on in Ha.
  destruct (g_drop g) as [ph|] eqn:Hd.
  { destruct (Hph ph eq_refl) as [_ Hi]. by rewrite Hi in Hg. }
  destruct Hx as [Hw _]. unfold client_next. rewrite Hw.
  destruct (next_act p); simplify_eq/=. eauto.
Qed.

(** Two positions with one tag. *)
Lemma at_key_two {K A} `{EqDecision K} (a : K) (l : list (K * A)) i j x y :
  (i < j)%nat → l !! i = Some (a, x) → l !! j = Some (a, y) →
  ∃ i' j', (i' < j')%nat ∧ at_key a l !! i' = Some x ∧ at_key a l !! j' = Some y.
Proof.
  revert i j. induction l as [|[b z] l IH]; intros [|i] [|j] Hlt Hi Hj; simplify_eq/=; try lia.
  - destruct (at_key_lookup a l j y Hj) as (j' & Hj' & _). exists 0%nat, (S j').
    rewrite at_key_cons, decide_True by done. split_and!; [lia|done..].
  - destruct (IH i j ltac:(lia) Hi Hj) as (i' & j' & Hlt' & Hi' & Hj'). rewrite at_key_cons.
    destruct (decide (b = a)); [exists (S i'), (S j')|exists i', j']; split_and!; try done; lia.
Qed.

(** A callback about to act on a half is one of that half. *)
Lemma callback_next handle ptp_io ovs c g i p h b :
  handle_inv handle ptp_io ovs c g → hcallbacks c !! i = Some p → next_act p = Some (On h b) →
  ∃ q, g_callbacks g !! i = Some (h, q) ∧ next_act q = Some b.
Proof.
  intros [Hcb _ _ _ _] Hi Hp. rewrite Hcb, list_lookup_fmap in Hi.
  destruct (g_callbacks g !! i) as [[h' q]|]; simplify_eq/=. rewrite next_on in Hp.
  destruct (next_act q) eqn:Hq; simplify_eq/=. eauto.
Qed.

(** C1. On either half of a handle no cell is accessed concurrently in a
    conflicting way, as long as no operation that completes at once posts a
    packet: while the client of a half is about to read its result no callback
    is about to write it, two callbacks are never both about to write it, and
    its [OVERLAPPED] is handed to the system only when no operation on it is in
    flight, posted or being published, whatever happens on the other half. *)
Theorem handle_race_free posts allowed handle ptp_io ovs ls c :
  Inj (=) (=) ovs → no_stale_packets posts ls →
  handle_exec posts allowed handle ptp_io ovs ls = Some c → ∀ h,
  (hclient_next c h = Some (On h HResultGet) → ∀ i p e t,
     hcallbacks c !! i = Some p → next_act p ≠ Some (On h (HResultSet e t))) ∧
  (∀ i j p q e t e' t', hcallbacks c !! i = Some p → hcallbacks c !! j = Some q →
     next_act p = Some (On h (HResultSet e t)) → next_act q = Some (On h (HResultSet e' t')) → i = j) ∧
  (hstarting (hclient_next c h) = true →
     in_flight (s_kernel (st c) h) = 0%nat ∧ at_key (ovs h) (s_port (st c)) = [] ∧
     ∀ i p e t, hcallbacks c !! i = Some p → next_act p ≠ Some (On h (HResultSet e t))).
Proof.
  intros Hovs [-> _]%(handle_exec_pends posts allowed handle ptp_io ovs) Hex h.
  destruct (handle_half false allowed handle ptp_io ovs Hovs h ls c Hex) as (ls' & d & g & Hex' & Hinv & Hs & _).
  destruct (half_race_safe (half_allowed allowed h) handle ptp_io (ovs h) h ls' d Hex') as (Hget & Htwo & Hstart).
  pose proof Hs as [Hst Hcs _]. injection Hst as _ Hk.
  assert (∀ i p e t, hcallbacks c !! i = Some p → next_act p = Some (On h (HResultSet e t)) →
    ∃ j q, callbacks d !! j = Some q ∧ next_act q = Some (HResultSet e t)) as Hcall.
  { intros i p e t Hi Hp. destruct (callback_next _ _ _ _ _ _ _ _ _ Hinv Hi Hp) as (q & Hg & Hq).
    destruct (at_key_lookup h _ i q Hg) as (j & Hj & _). exists j, q. by rewrite Hcs. }
  assert (∀ i j p q e t e' t', (i < j)%nat → hcallbacks c !! i = Some p → hcallbacks c !! j = Some q →
    next_act p = Some (On h (HResultSet e t)) → next_act q = Some (On h (HResultSet e' t')) → False) as Hlt.
  { intros i j p q e t e' t' Hij Hi Hj Hp Hq.
    destruct (callback_next _ _ _ _ _ _ _ _ _ Hinv Hi Hp) as (p' & Hgi & Hp').
    destruct (callback_next _ _ _ _ _ _ _ _ _ Hinv Hj Hq) as (q' & Hgj & Hq').
    destruct (at_key_two h _ i j p' q' Hij Hgi Hgj) as (i' & j' & Hij' & Hi' & Hj'). rewrite <- Hcs in Hi', Hj'.
    pose proof (Htwo i' j' p' q' e t e' t' Hi' Hj' Hp' Hq'). lia. }
  split_and!.
  - intros Hn i p e t Hi Hp. destruct (client_next_shows _ _ _ _ _ _ _ _ Hinv Hs Hn) as (b & ? & Hb).
    simplify_eq. destruct (Hcall i p e t Hi Hp) as (j & q & Hj & Hq). by eapply Hget.
  - intros i j p q e t e' t' Hi Hj Hp Hq. destruct (lt_eq_lt_dec i j) as [[Hij|]|Hij]; [|done|].
    + destruct (Hlt i j p q e t e' t' Hij Hi Hj Hp Hq).
    + destruct (Hlt j i q p e' t' e t Hij Hj Hi Hq Hp).
  - intros Hn. destruct (hclient_next c h) as [a|] eqn:Ha; [|done].
    destruct (client_next_shows _ _ _ _ _ _ _ _ Hinv Hs Ha) as (b & -> & Hb). rewrite Hb in Hstart.
    destruct (Hstart Hn) as (Hf & Hpk & Hno). rewrite Hk in Hf, Hpk. split_and!; [done..|].
    intros i p e t Hi Hp. destruct (Hcall i p e t Hi Hp) as (j & q & Hj & Hq). by eapply Hno.
Qed.

(** C2. Both directions deliver: on each half the results its polls have returned
    are, in order and without gap or repetition, the outcomes of the
    operations started on it, all but the last one at most, whatever
    happens on the other half, as long as no operation that completes at once
    posts a packet ([IoHandleEx.stale_packet_completes_the_next_operation]), no
    waiting cancellation has caught an operation of this half, and the handle
    is not being dropped. *)
Theorem handle_delivery posts allowed handle ptp_io ovs ls c h :
  Inj (=) (=) ovs → no_stale_packets posts ls →
  along (H := handle_lts posts allowed handle ptp_io ovs) (hunwaited h) ls hstart = true →
  handle_exec posts allowed handle ptp_io ovs ls = Some c → dropper c = None →
  ∃ u, outcomes (s_kernel (st c) h) = delivered (hhistory c h) ++ u ∧ (length u ≤ 1)%nat.
Proof.
  intros Hovs [-> HG]%(handle_exec_pends posts allowed handle ptp_io ovs) Hal Hex Hd. rewrite HG in Hal.
  destruct (handle_half false allowed handle ptp_io ovs Hovs h ls c Hex)
    as (ls' & d & g & Hex' & [_ _ _ Hdr _] & [Hs _ Hx] & Hal').
  destruct (half_delivers (half_allowed allowed h) handle ptp_io (ovs h) h ls' d (Hal' Hal) Hex') as (u & Hu & Hlen).
  rewrite Hd in Hdr. destruct (g_drop g); [done|]. destruct Hx as [_ Hh]. injection Hs as _ Hk.
  exists u. by rewrite <- Hh, <- Hu, Hk.
Qed.
End guarantees.
