(* ===== verification/HandleDrop.v ===== *)
(** * Dropping a handle

    What the drop of an [IoHandle] guarantees in its environment: when it
    closes the handle, and frees it, the system has finished with both
    [OVERLAPPED]s.  [HandleEx] has the schedules in which a callback has not. *)

From S2P Require Import Prelude Prog Extern Win32 Socket.
From S2P Require Import IoState IoCells IoHandle IoHandleSys IoHandleInv IoHandleSafe IoHandleThm.
From S2P Require Import HandleSys HandleRef HandleDuplex.

(** ** A half after a waiting cancellation *)

Section half.
Context {W waker : Type} `{!AtomicWaker W waker}.
Context (allowed : client_op waker → bool) (Hallowed : allowed (OpCancel false) = false).
Context (handle ptp_io ov : Z) (hid : half_id).
Abbreviation cden := (cden (waker := waker) handle ptp_io ov hid).
Abbreviation kden := (kden (waker := waker)).
Implicit Types (d : config W waker).
#[local] Instance quiet_lts : LTS (label waker) (config W waker) :=
  half_lts false allowed handle ptp_io ov hid.

(** The last thing the client did was a waiting cancellation. *)
Definition settled (h : list (client_op waker * client_ret)) : bool :=
  match last h with Some (_, RCancel _) => true | _ => false end.

(** The states at each point of the client, when it never cancels without
    waiting. *)
Definition calm_at (ph : cphase waker) (st : io_state) : Prop :=
  match ph with
  | CStart wait | CSwap wait => wait = true ∧ st ≠ CANCELLED_WAIT
  | CCancelIo wait | CError wait | CLoop wait _ => wait = true
  | CMayBlock _ | CQuery _ | CBusy _ | CFault _ => True
  | CDone _ => st ≠ CANCELLED_WAIT ∧ st ≠ PENDING
  | _ => st ≠ CANCELLED_WAIT
  end.

Definition calm d : Prop :=
  c_state (cl d) ≠ CANCELLED_NOWAIT ∧
  (∃ ks, callbacks d = kden <$> ks) ∧
  match who d with
  | Idle => c_state (cl d) ≠ CANCELLED_WAIT ∧ (settled (history d) = true → c_state (cl d) ≠ PENDING)
  | Running op p => ∃ ph, p = cden ph ∧ calm_at ph (c_state (cl d))
  end.

Lemma calm_client ph a (s : cells W waker * kernel) ph' s' :
  calm_at ph (c_state s.1) → c_state s.1 ≠ CANCELLED_NOWAIT → cnext false ph a s = Some (ph', s') →
  calm_at ph' (c_state s'.1) ∧ c_state s'.1 ≠ CANCELLED_NOWAIT.
Proof.
  intros Hc Hs Hn. destruct s as [[st res aw wk] k], ph; simpl in *; unfold query, start_op in *;
    repeat (first [ progress simplify_eq/= | progress explode | case_decide | case_match ]); try done;
    by split.
Qed.

(** A callback only moves the state to [CALLBACK] and to [READY]. *)
Lemma calm_callback kph (s : cells W waker * kernel) kph' s' :
  knext kph s = Some (kph', s') →
  c_state s'.1 = c_state s.1 ∨ c_state s'.1 = CALLBACK ∨ c_state s'.1 = READY.
Proof. destruct s as [[st res aw wk] k], kph; simpl; intros; repeat case_decide; simplify_eq/=; eauto. Qed.

Lemma calm_at_callback ph st : calm_at ph st → calm_at ph CALLBACK ∧ calm_at ph READY.
Proof. destruct ph; simpl; intros; explode; done. Qed.

Lemma settled_snoc h op r : settled (h ++ [(op, r)]) = match r with RCancel _ => true | _ => false end.
Proof. unfold settled. rewrite last_snoc. by destruct r. Qed.

Lemma calm_step l d d' : calm d → lstep l d = Some d' → calm d'.
Proof.
  intros (Hs & [ks Hks] & Hw) Hstep. destruct d as [c k w cbs h]. simpl in *. subst cbs.
  destruct l as [op|a| |e t| |i|i]; simpl in Hstep.
  - destruct w; [|done]. destruct (allowed op) eqn:Hop; simplify_eq/=. split; [done|]. split; [eauto|].
    simpl. destruct op as [w buf|[]]; [exists (PStart w buf)|exists (CStart true)|congruence]; split; try done;
      by destruct Hw.
  - destruct w as [|op p]; [done|]. destruct Hw as (ph & -> & Hc). rewrite cstep_next in Hstep.
    destruct (cnext false ph a (c, k)) as [[ph' s1]|] eqn:Hn; simplify_eq/=.
    destruct (calm_client ph a (c, k) ph' s1 Hc Hs Hn) as [Hc' Hs']. split; [done|]. split; [eauto|].
    simpl. eauto.
  - destruct w as [|op p]; [done|]. destruct Hw as (ph & -> & Hc).
    destruct (cden ph) as [r| | |] eqn:Hr; simplify_eq/=. split; [done|]. split; [eauto|]. simpl.
    rewrite settled_snoc. destruct (cden_ret _ _ _ _ ph r Hr) as [(q & -> & ->)|(q & -> & ->)].
    + by split.
    + destruct Hc. by split.
  - destruct (complete_op e t k) as [k'|]; simplify_eq/=. split; [done|]. split; [eauto|done].
  - destruct (packets k) as [|[e t] ps]; simplify_eq/=. split; [done|]. split; [|done].
    exists (ks ++ [KStart e t]). simpl. by rewrite fmap_app.
  - rewrite list_lookup_fmap in Hstep. destruct (ks !! i) as [kph|] eqn:Hi; [|done].
    simpl in Hstep. rewrite kstep_next in Hstep.
    destruct (knext kph (c, k)) as [[kph' s1]|] eqn:Hn; simplify_eq/=.
    destruct (calm_callback kph (c, k) kph' s1 Hn) as [He|He]; simpl in He.
    + split; simpl; [by rewrite He|]. split; [exists (<[i := kph']> ks); by rewrite list_fmap_insert|].
      by rewrite He.
    + split; simpl; [by destruct He as [->| ->]|].
      split; [exists (<[i := kph']> ks); by rewrite list_fmap_insert|].
      destruct w as [|op p]; [by destruct He as [->| ->]|]. destruct Hw as (ph & -> & Hc).
      exists ph. split; [done|]. apply calm_at_callback in Hc as [? ?]. by destruct He as [->| ->].
  - rewrite list_lookup_fmap in Hstep. destruct (ks !! i) as [kph|] eqn:Hi; [|done].
    simpl in Hstep. destruct (kden kph) as [[]| | |]; simplify_eq/=. split; [done|].
    split; [exists (delete i ks); by rewrite list_fmap_delete|done].
Qed.

(** After a waiting cancellation nothing is left in the system. *)
Lemma settled_quiet ls d :
  half_exec false allowed handle ptp_io ov hid ls = Some d → who d = Idle → settled (history d) = true →
  in_flight (kn d) = 0%nat ∧ packets (kn d) = [] ∧
  (c_state (cl d) = IDLE ∨ c_state (cl d) = CALLBACK ∨ c_state (cl d) = READY).
Proof.
  intros Hex Hw Hh.
  assert (calm d) as (Hn & _ & Hc).
  { apply (invariant calm ls d); [|intros l s s'; apply calm_step|done].
    split; [done|]. split; [by exists []|]. done. }
  rewrite Hw in Hc. destruct Hc as [Hcw Hp]. specialize (Hp Hh).
  destruct (sys_inv_exec false allowed handle ptp_io ov hid ls d ltac:(done) Hex)
    as (ph & ks & u & _ & Hcl & (s & Hok & Hsh & _) & _).
  rewrite Hw in Hcl. simpl in Hcl. subst ph. simpl in Hsh.
  destruct (c_state (cl d)); try done; destruct s; try done;
    destruct Hok as (? & ? & ?); split_and!; auto.
Qed.
End half.

(** ** The drop *)

Section drop.
Context {W waker : Type} `{!AtomicWaker W waker}.
Implicit Types (c : hconfig W waker).

(** The drop is closing the handle, or is over and the handle is freed. *)
Definition closes c : bool :=
  match dropper c with
  | Some (Ret _) | Some (Act (ISys _) _) => true
  | _ => false
  end.

Lemma closes_phase handle ptp_io ovs c g :
  handle_inv handle ptp_io ovs c g → closes c = true → ∃ p, g_drop g = Some (DClose p).
Proof.
  intros [_ _ _ Hdr Hph] Hc. unfold closes in Hc. rewrite Hdr in Hc.
  destruct (g_drop g) as [[h p|p|f]|]; simpl in Hc; [|by eauto|done..].
  destruct (Hph _ eq_refl) as [Hr _]. simpl in Hr. by destruct h, p.
Qed.

(** C13. When the drop of a handle starts to close it, and for ever after, the
    system has finished with both its halves: no operation is in flight on
    either [OVERLAPPED], no completion packet is left in the port, so that no
    callback will be started on the freed memory, and both halves are idle,
    ready, or in the hands of a callback that already runs; provided that
    the clients never cancelled without waiting and no operation that
    completes at once posts a packet. *)
Theorem drop_waits_for_the_system posts allowed handle ptp_io ovs ls c :
  Inj (=) (=) ovs → no_stale_packets posts ls → (∀ h, allowed h (OpCancel false) = false) →
  handle_exec posts allowed handle ptp_io ovs ls = Some c → closes c = true →
  ∀ h, in_flight (s_kernel (st c) h) = 0%nat ∧ at_key (ovs h) (s_port (st c)) = [] ∧
    (c_state (s_cells (st c) h) = IDLE ∨ c_state (s_cells (st c) h) = CALLBACK ∨
     c_state (s_cells (st c) h) = READY).
Proof.
  intros Hovs [-> _]%(handle_exec_pends posts allowed handle ptp_io ovs) Hall Hex Hc h.
  destruct (handle_half false allowed handle ptp_io ovs Hovs h ls c Hex) as (ls' & d & g & Hex' & Hinv & Hs & _).
  destruct (closes_phase _ _ _ _ _ Hinv Hc) as [p Hp]. destruct Hs as [Hst _ Hx]. rewrite Hp in Hx.
  destruct Hx as [Hw [hs Hh]]. injection Hst as Hcl Hk.
  destruct (settled_quiet (half_allowed allowed h) ltac:(unfold half_allowed; by rewrite Hall)
    handle ptp_io (ovs h) h ls' d Hex' Hw) as (Hf & Hpk & Hst).
  { by rewrite Hh, settled_snoc. }
  rewrite Hk in Hf, Hpk. rewrite Hcl in Hst. done.
Qed.
End drop.
