(* ===== verification/HandleEx.v ===== *)
(** * Concrete schedules of a handle: witnesses, and the freed handle *)

From S2P Require Import Prelude Prog Extern Win32 Socket.
From S2P Require Import IoState IoCells IoHandle IoHandleSys IoHandleInv IoHandleSafe IoHandleThm.
From S2P Require Import HandleSys HandleRef HandleDuplex HandleDrop.

Abbreviation hconf := (hconfig (option nat) nat).
Definition hbuf : WSABUF := {| wsa_len := 16; wsa_buf := 4096 |}.

(** The [OVERLAPPED]s of a handle at address 4. *)
Definition ovs0 (h : half_id) : Z := match h with ReadHalf => 8 | WriteHalf => 16 end.

#[export] Instance ovs0_inj : Inj (=) (=) ovs0.
Proof. by intros [] []. Defined.

(** The clients poll only, or also cancel and wait. *)
Definition only_polls (h : half_id) (op : client_op nat) : bool :=
  match op with OpPoll _ _ => true | OpCancel _ => false end.
Definition polls_and_waits (h : half_id) (op : client_op nat) : bool :=
  match op with OpCancel wait => wait | OpPoll _ _ => true end.

(** ** Pieces of schedules *)

Definition hsteps (h : half_id) (n : nat) : list (hlabel nat) := repeat (HClient h ADefault) n.

(** A poll whose operation is left in flight. *)
Definition hpoll_pending (h : half_id) (w : nat) : list (hlabel nat) :=
  HBegin h (OpPoll w hbuf) :: hsteps h 3 ++ [HClient h (AStart StartPending)] ++ hsteps h 2 ++ [HReturn h].

(** A poll that takes the result a callback left. *)
Definition hpoll_take (h : half_id) (w : nat) : list (hlabel nat) :=
  HBegin h (OpPoll w hbuf) :: hsteps h 3 ++ [HReturn h].

Definition hreach (allowed : half_id → client_op nat → bool) (ls : list (hlabel nat)) : hconf :=
  default hstart (handle_exec true allowed 1 2 ovs0 ls).

(** The states are functions of the half, so a schedule is run to a verdict
    and not to a normal form. *)
Definition runs (posts : bool) (allowed : half_id → client_op nat → bool) (ls : list (hlabel nat)) : bool :=
  match handle_exec (W := option nat) posts allowed 1 2 ovs0 ls with Some _ => true | None => false end.

Lemma hreach_runs allowed ls :
  runs true allowed ls = true → handle_exec true allowed 1 2 ovs0 ls = Some (hreach allowed ls).
Proof. unfold runs, hreach. by destruct (handle_exec true allowed 1 2 ovs0 ls). Qed.

(** Both operations in flight; they complete in the other order, and their
    callbacks run interleaved. *)
Definition duplex : list (hlabel nat) :=
  hpoll_pending ReadHalf 7 ++ hpoll_pending WriteHalf 9 ++
  [HComplete WriteHalf 0 12; HComplete ReadHalf 0 5; HDispatch; HDispatch] ++
  flat_map (λ i, [HCallback 1; HCallback 0]) (seq 0 3).

Definition duplex_end : list (hlabel nat) :=
  duplex ++ flat_map (λ i, [HCallback 0; HCallback 1]) (seq 0 3) ++ [HRetire 1] ++
  hpoll_take ReadHalf 7 ++ hpoll_take WriteHalf 9.

(** ** Witnesses *)

Lemma handle_is_two_halves_witness :
  let c := hreach only_polls duplex in
  handle_exec true only_polls 1 2 ovs0 duplex = Some c ∧ length (hcallbacks c) = 2%nat ∧
  ∃ ls' d, half_exec true (half_allowed only_polls WriteHalf) 1 2 16 WriteHalf ls' = Some d ∧
    cl d = s_cells (st c) WriteHalf.
Proof.
  intros c. assert (handle_exec true only_polls 1 2 ovs0 duplex = Some c) as Hex
    by (apply hreach_runs; vm_compute; reflexivity).
  split; [exact Hex|]. split; [vm_compute; reflexivity|].
  destruct (handle_is_two_halves true only_polls 1 2 ovs0 duplex c _ Hex WriteHalf) as (ls' & d & Hd & Hc & _).
  exists ls', d. exact (conj Hd Hc).
Defined.

Lemma handle_race_free_witness :
  let c := hreach only_polls duplex in
  handle_exec true only_polls 1 2 ovs0 duplex = Some c ∧
  map next_act (hcallbacks c) = [Some (On WriteHalf (HResultSet 0 12)); Some (On ReadHalf (HResultSet 0 5))] ∧
  (∀ i j p q e t e' t', hcallbacks c !! i = Some p → hcallbacks c !! j = Some q →
     next_act p = Some (On ReadHalf (HResultSet e t)) → next_act q = Some (On ReadHalf (HResultSet e' t')) → i = j).
Proof.
  intros c. assert (handle_exec true only_polls 1 2 ovs0 duplex = Some c) as Hex
    by (apply hreach_runs; vm_compute; reflexivity).
  split; [exact Hex|]. split; [vm_compute; reflexivity|].
  exact (proj1 (proj2 (handle_race_free true only_polls 1 2 ovs0 duplex c _ (λ _, eq_refl) Hex ReadHalf))).
Defined.

Lemma handle_delivery_witness :
  let c := hreach only_polls duplex_end in
  (delivered (hhistory c ReadHalf) = [Ok 5] ∧ delivered (hhistory c WriteHalf) = [Ok 12]) ∧
  ∃ u, outcomes (s_kernel (st c) WriteHalf) = delivered (hhistory c WriteHalf) ++ u ∧ (length u ≤ 1)%nat.
Proof.
  intros c. split; [split; vm_compute; reflexivity|].
  apply (handle_delivery true only_polls 1 2 ovs0 duplex_end c WriteHalf);
    [exact _|done|vm_compute; reflexivity|apply hreach_runs; vm_compute; reflexivity|vm_compute; reflexivity].
Defined.

(** A pending read is cancelled by the drop, which waits for it and for its
    callback, and then closes the handle. *)
Definition dropping : list (hlabel nat) :=
  hpoll_pending ReadHalf 7 ++ HDrop :: repeat (HDropper ADefault) 4 ++
  [HComplete ReadHalf ERROR_OPERATION_ABORTED 0; HDropper ADefault; HDispatch] ++
  repeat (HCallback 0) 6 ++ repeat (HDropper ADefault) 3.

Lemma drop_waits_for_the_system_witness :
  let c := hreach polls_and_waits dropping in
  (closes c = true ∧ c_state (s_cells (st c) ReadHalf) = READY) ∧
  in_flight (s_kernel (st c) ReadHalf) = 0%nat ∧ at_key (ovs0 ReadHalf) (s_port (st c)) = [] ∧
  (c_state (s_cells (st c) ReadHalf) = IDLE ∨ c_state (s_cells (st c) ReadHalf) = CALLBACK ∨
   c_state (s_cells (st c) ReadHalf) = READY).
Proof.
  intros c. split; [split; vm_compute; reflexivity|].
  apply (drop_waits_for_the_system true polls_and_waits 1 2 ovs0 dropping c);
    [exact _|done|by intros []|apply hreach_runs; vm_compute; reflexivity|vm_compute; reflexivity].
Defined.

(** ** The freed handle *)

(** C37. The drop does not wait for a callback that has claimed the operation:
    [cancel] takes [CALLBACK] for "nothing to cancel" and returns at once, the
    handle is closed and freed, and the callback goes on to write the result
    into the freed half. *)
Theorem drop_frees_under_a_callback :
  ∃ ls (c : hconf), handle_exec true only_polls 1 2 ovs0 ls = Some c ∧ forallb hpends ls = true ∧
    dropper c = Some (Ret tt) ∧ s_released (st c) = [CloseThreadpoolIo 2; closesocket 1] ∧
    map next_act (hcallbacks c) = [Some (On ReadHalf (HResultSet 0 5))].
Proof.
  set (ls := hpoll_pending ReadHalf 7 ++ [HComplete ReadHalf 0 5; HDispatch] ++ repeat (HCallback 0) 3 ++
             HDrop :: repeat (HDropper ADefault) 4).
  exists ls, (hreach only_polls ls).
  split; [apply hreach_runs; vm_compute; reflexivity|]. split_and!; vm_compute; reflexivity.
Qed.
