(* ===== verification/HandleComplete.v ===== *)
(** * Every behaviour of a half is one of a handle

    The converse of [HandleRef]: whatever a half can do alone ([IoHandleSys])
    it can do inside a handle, so the two models of a half agree. *)

From S2P Require Import Prelude Prog Extern Win32 Socket.
From S2P Require Import IoState IoCells IoHandle IoHandleSys HandleSys HandleRef HandleDuplex HandleEx.

Section complete.
Context {W waker : Type} `{!AtomicWaker W waker}.
Context (posts : bool) (allowed : half_id → client_op waker → bool).
Context (handle ptp_io : Z) (ovs : half_id → Z) (Hovs : Inj (=) (=) ovs) (h : half_id).
Implicit Types (c : hconfig W waker) (d : config W waker) (s : hstate W waker).
Abbreviation hstep_of := (handle_step posts allowed handle ptp_io ovs).

(** The handle [c] whose half [h] is [d], the other half being unused. *)
Record embeds d c : Prop := {
  em_view : half_view ovs h (st c) = (cl d, kn d);
  em_state : well_formed ovs (st c);
  em_other : ∀ h', h' ≠ h → at_key (ovs h') (s_port (st c)) = [];
  em_client : clients c h = lift_client h (who d);
  em_callbacks : hcallbacks c = on h <$> callbacks d;
  em_history : hhistory c h = history d;
  em_alive : dropper c = None;
}.

(** A step of a program of the half is one of the handle. *)
Lemma step_embeds {A} a (p : prog (hact waker) hans A) s p' v :
  well_formed ovs s → tstep (hstep posts) a p (half_view ovs h s) = Some (p', v) →
  ∃ s', tstep (istep posts ovs) a (on h p) s = Some (on h p', s') ∧ half_view ovs h s' = v ∧ well_formed ovs s' ∧
    (∀ h', h' ≠ h → at_key (ovs h') (s_port s') = at_key (ovs h') (s_port s)).
Proof.
  intros Hwf Ht.
  assert (is_Some (tstep (istep posts ovs) a (on h p) s)) as [[q s'] Hs].
  { destruct p as [x|b k|X body k|f]; [done| |by eexists|done].
    apply tstep_act in Ht as (r & Hr & _). unfold half_view in Hr.
    rewrite hstep_packets in Hr by apply Hwf.
    unfold on. cbn [translate tstep istep].
    destruct (hstep posts b a (s_cells s h, s_kernel s h)) as [[r' [cs k']]|] eqn:Hb; [by eexists|done]. }
  destruct (step_view posts ovs Hovs h a p s q s' Hwf Hs) as (p2 & -> & Hv & Ho & Hwf' & _).
  rewrite Ht in Hv. injection Hv as -> ->. exists s'. split_and!; [done..|].
  intros h' Hh. specialize (Ho h' Hh). by injection Ho.
Qed.

Lemma embeds_client op p a d c p' v :
  embeds d c → who d = Running op p → tstep (hstep posts) a p (cl d, kn d) = Some (p', v) →
  ∃ c', hstep_of (HClient h a) c = Some c' ∧
    embeds (Build_config v.1 v.2 (Running op p') (callbacks d) (history d)) c'.
Proof.
  intros [Hv Hwf Ho Hcl Hcb Hh Ha] Hw Ht. rewrite <- Hv in Ht.
  destruct (step_embeds a p (st c) p' v Hwf Ht) as (s' & Hs & Hv' & Hwf' & Ho').
  eexists. unfold handle_step. rewrite Hcl, Hw. cbn [lift_client]. rewrite Hs. split; [reflexivity|].
  constructor; simpl; [by rewrite Hv'; destruct v|done| | |done..].
  - intros h' Hne. rewrite Ho'; auto.
  - by rewrite update_same.
Qed.

Lemma embeds_callback i p d c p' v :
  embeds d c → callbacks d !! i = Some p → tstep (hstep posts) ADefault p (cl d, kn d) = Some (p', v) →
  ∃ c', hstep_of (HCallback i) c = Some c' ∧
    embeds (Build_config v.1 v.2 (who d) (<[i := p']> (callbacks d)) (history d)) c'.
Proof.
  intros [Hv Hwf Ho Hcl Hcb Hh Ha] Hi Ht. rewrite <- Hv in Ht.
  destruct (step_embeds ADefault p (st c) p' v Hwf Ht) as (s' & Hs & Hv' & Hwf' & Ho').
  eexists. unfold handle_step. rewrite Hcb, list_lookup_fmap, Hi. cbn [fmap option_fmap option_map mbind option_bind].
  rewrite Hs. split; [reflexivity|].
  constructor; simpl; [by rewrite Hv'; destruct v|done| |done| |done..].
  - intros h' Hne. rewrite Ho'; auto.
  - by rewrite list_fmap_insert.
Qed.

Lemma embeds_complete e t d c k :
  embeds d c → complete_op e t (kn d) = Some k →
  ∃ c', hstep_of (HComplete h e t) c = Some c' ∧ embeds (Build_config (cl d) k (who d) (callbacks d) (history d)) c'.
Proof.
  intros [Hv Hwf Ho Hcl Hcb Hh Ha] Hk. injection Hv as Hcs Hkn. pose proof (proj1 Hwf h) as Hp.
  rewrite <- Hkn in Hk. unfold complete_op, handle_step in *. simpl in Hk.
  destruct (in_flight (s_kernel (st c) h)) as [|n] eqn:Hf; [done|]. simplify_eq/=.
  eexists. split; [unfold complete_op; rewrite Hf; reflexivity|].
  constructor; cbn [st clients hcallbacks hhistory dropper cl kn who callbacks history]; try done.
  - rewrite view_set_same. simpl. by rewrite Hp, Hcs.
  - by apply well_formed_set.
  - intros h' Hne. specialize (Ho h' Hne).
    simpl. rewrite at_key_app, Ho. simpl. rewrite Hp. simpl. rewrite at_key_one, decide_False; [done|].
    intros ?%(inj ovs). congruence.
Qed.

Lemma embeds_dispatch e t ps d c :
  embeds d c → packets (kn d) = (e, t) :: ps →
  ∃ c', hstep_of HDispatch c = Some c' ∧
    embeds (Build_config (cl d) (with_packets (kn d) ps) (who d) (callbacks d ++ [callback_half e t]) (history d)) c'.
Proof.
  intros [Hv Hwf Ho Hcl Hcb Hh Ha] Hp. injection Hv as Hcs Hkn. rewrite <- Hkn in Hp. simpl in Hp.
  destruct (s_port (st c)) as [|[ov x] port] eqn:Hport; [done|].
  pose proof (proj2 Hwf) as Hall. rewrite Hport, Forall_cons in Hall. destruct Hall as [[h' Hov] Hall].
  simpl in Hov. subst ov.
  assert (h' = h) as -> by (destruct (decide (h' = h)) as [|Hne]; [done|];
    specialize (Ho h' Hne); by rewrite at_key_cons, decide_True in Ho).
  rewrite at_key_cons, decide_True in Hp by done. injection Hp as -> Hps.
  eexists. unfold handle_step. rewrite Hport. split; [reflexivity|].
  constructor; cbn [st clients hcallbacks hhistory dropper cl kn who callbacks history]; try done.
  - unfold half_view. simpl. by rewrite Hcs, <- Hkn, Hps.
  - split; [apply Hwf|done].
  - intros h' Hne. specialize (Ho h' Hne). rewrite at_key_cons, decide_False in Ho; [done|].
    intros ?%(inj ovs). congruence.
  - rewrite Hcb, fmap_app. f_equal. simpl. f_equal. unfold callback, select_half. simpl.
    destruct h; [by rewrite decide_True|]. rewrite decide_False by (by intros ?%(inj ovs)). by rewrite decide_True.
Qed.

Lemma embeds_step l d c d' :
  embeds d c → half_step posts (allowed h) handle ptp_io (ovs h) h l d = Some d' →
  ∃ l' c', hstep_of l' c = Some c' ∧ embeds d' c'.
Proof.
  intros Hem Hst. pose proof Hem as [Hv Hwf Ho Hcl Hcb Hh Ha].
  destruct l as [op|a| |e t| |i|i]; simpl in Hst.
  - destruct (who d) eqn:Hw; [|done]. destruct (allowed h op) eqn:Hop; simplify_eq.
    exists (HBegin h op). eexists. simpl. rewrite Hcl, Ha, Hop. split; [reflexivity|].
    constructor; simpl; rewrite ?update_same, ?handle_op_on; done.
  - destruct (who d) as [|op p] eqn:Hw; [done|].
    destruct (tstep (hstep posts) a p (cl d, kn d)) as [[p' v]|] eqn:Ht; simplify_eq/=.
    destruct (embeds_client op p a d c p' v Hem Hw Ht) as (c' & ? & ?). by exists (HClient h a), c'.
  - destruct (who d) as [|op [r| | |]] eqn:Hw; simplify_eq.
    exists (HReturn h). eexists. simpl. rewrite Hcl. simpl. split; [reflexivity|].
    constructor; simpl; rewrite ?update_same, ?Hh; done.
  - destruct (complete_op e t (kn d)) as [k|] eqn:Hk; simplify_eq/=.
    destruct (embeds_complete e t d c k Hem Hk) as (c' & ? & ?). by exists (HComplete h e t), c'.
  - destruct (packets (kn d)) as [|[e t] ps] eqn:Hp; simplify_eq.
    destruct (embeds_dispatch e t ps d c Hem Hp) as (c' & ? & ?). by exists HDispatch, c'.
  - destruct (callbacks d !! i) as [p|] eqn:Hi; [|done]. simpl in Hst.
    destruct (tstep (hstep posts) ADefault p (cl d, kn d)) as [[p' v]|] eqn:Ht; simplify_eq/=.
    destruct (embeds_callback i p d c p' v Hem Hi Ht) as (c' & ? & ?). by exists (HCallback i), c'.
  - destruct (callbacks d !! i) as [[[]| | |]|] eqn:Hi; simplify_eq.
    exists (HRetire i). eexists. simpl. rewrite Hcb, list_lookup_fmap, Hi. simpl. split; [reflexivity|].
    constructor; simpl; try done. by rewrite list_fmap_delete.
Qed.

Lemma embeds_start : embeds start hstart.
Proof. by constructor. Qed.

(** C21. What a half can do alone it can do in a handle: every state a half
    reaches alone is the half of a state a live handle reaches, with the same
    cells, system state, callbacks, operation in progress and history. *)
Theorem half_states_are_handle_states ls d :
  half_exec posts (allowed h) handle ptp_io (ovs h) h ls = Some d →
  ∃ ls' c, handle_exec posts allowed handle ptp_io ovs ls' = Some c ∧ dropper c = None ∧
    s_cells (st c) h = cl d ∧
    with_packets (s_kernel (st c) h) (at_key (ovs h) (s_port (st c))) = kn d ∧
    hcallbacks c = on h <$> callbacks d ∧
    clients c h = lift_client h (who d) ∧ hhistory c h = history d.
Proof.
  intros Hex.
  assert (simulates (H := half_lts posts (allowed h) handle ptp_io (ovs h) h)
            (H0 := handle_lts posts allowed handle ptp_io ovs) embeds) as Hsim.
  { split; [apply embeds_start|]. intros l d0 c0 d' Hem Hst.
    destruct (embeds_step l d0 c0 d' Hem Hst) as (l' & c' & Hs & Hem').
    exists [l'], c'. split; [|done]. simpl. by rewrite Hs. }
  destruct (simulation_exec _ ls _ _ d Hsim (proj1 Hsim) Hex) as (ls' & c & Hex' & [Hv _ _ Hcl Hcb Hh Ha]).
  injection Hv as Hc Hk. by exists ls', c.
Qed.
End complete.

Lemma half_states_are_handle_states_witness :
  let ls := [LBegin (OpPoll 7%nat hbuf); LClient ADefault; LClient ADefault; LClient ADefault;
             LClient (AStart StartPending); LComplete 0 5; LDispatch] in
  let d : config (option nat) nat := default start (half_exec true (only_polls ReadHalf) 1 2 8 ReadHalf ls) in
  c_state (cl d) = SCHEDULING ∧
  ∃ ls' c, handle_exec true only_polls 1 2 ovs0 ls' = Some c ∧ hcallbacks c = on ReadHalf <$> callbacks d.
Proof.
  intros ls d. split; [vm_compute; reflexivity|].
  destruct (half_states_are_handle_states true only_polls 1 2 ovs0 _ ReadHalf ls d) as (ls' & c & Hex & _ & _ & _ & Hcb & _).
  - unfold d. assert (match half_exec (W := option nat) true (only_polls ReadHalf) 1 2 8 ReadHalf ls with Some _ => true | None => false end = true)
      as Hok by (vm_compute; reflexivity). by destruct (half_exec _ _ _ _ _ _ ls).
  - exists ls', c. exact (conj Hex Hcb).
Defined.
