(* ===== verification/IoEvent.v ===== *)
(** * Operations that signal an event: [src/src/io/shared/event.rs]

    An [IoEvent] is the completion side of an operation that has no handle in
    the thread pool of its own (connecting, accepting, resolving a name): a
    manual-reset event, a thread pool wait on it, and the same three cells as
    a half of an [IoHandle]. *)

From S2P Require Import Prelude Prog Extern Win32.
From S2P Require Import IoState IoCells.

Section event.
Context {waker : Type}.
Abbreviation prog := (prog (hact waker) hans).

(** The fields of [IoEvent] that are not cells. *)
Record IoEvent := {
  ev_wait : Z;         (* PTP_WAIT *)
  ev_overlapped : Z;   (* the address of its OVERLAPPED *)
  ev_event : HANDLE;   (* overlapped.hEvent *)
}.

(** [callback] *)
Definition callback (result : Z) : prog unit :=
  pending <- IoState.callback_pending ;;
  if (pending : bool) then
    act1 (HResultSet result 0 : hact waker) ;;;
    IoState.set_ready ;;;
    act1 (HWake : hact waker)
  else Ret tt.

(** [IoEvent::poll] *)
Definition poll (self : IoEvent) (w : waker) (handle : option HANDLE)
    (schedule : Z → prog (Poll (io_result unit))) : prog (Poll (io_result unit)) :=
  finished <- IoState.finish ;;
  if (finished : bool) then
    ret <- sys (ResetEvent (ev_event self)) ;;
    if decide (ret = 0) then
      IoState.set_idle ;;;
      err <- last_os_error ;;
      Ret (Ready (Err err))
    else
    sys (SetThreadpoolWait (ev_wait self) (ev_event self)) ;;;
    result <- get_result ;;
    match result, handle with
    | Err err, _ =>
        IoState.set_idle ;;;
        Ret (Ready (Err err))
    | Ok _, Some handle =>
        ret <- sys (GetOverlappedResult handle (ev_overlapped self) TRUE) ;;
        IoState.set_idle ;;;
        if decide (ret ≠ 0) then Ret (Ready (Ok tt))
        else err <- last_os_error ;; Ret (Ready (Err err))
    | Ok _, None =>
        IoState.set_idle ;;;
        Ret (Ready (Ok tt))
    end
  else
    scheduled <- IoState.schedule ;;
    if (scheduled : bool) then
      p <- schedule (ev_overlapped self) ;;
      match p with
      | Ready result =>
          IoState.set_idle ;;;
          Ret (Ready result)
      | Pending =>
          register w ;;;
          IoState.set_pending ;;;
          Ret Pending
      end
    else
      register w ;;;
      Ret Pending.

(** [impl Drop for IoEvent] *)
Definition drop (self : IoEvent) : prog unit :=
  act1 (HMayBlock : hact waker) ;;;
  loop (busy <- IoState.is_busy ;; Ret (if (busy : bool) then None else Some tt)) ;;;
  (if is_null (ev_wait self) then Ret tt else sys (CloseThreadpoolWait (ev_wait self))) ;;;
  sys (CloseHandle (ev_event self)) ;;;
  Ret tt.

(** [IoEvent::new]; [this] is the address of the allocation and [overlapped]
    that of its [OVERLAPPED]. *)
Definition new (this overlapped : Z) (callback_environ : CallbackEnviron) : prog (io_result IoEvent) :=
  event <- sys (CreateEventW TRUE FALSE) ;;
  if is_null event then err <- last_os_error ;; Ret (Err err) else
  wait <- sys (CreateThreadpoolWait this callback_environ) ;;
  if is_null wait then
    err <- last_os_error ;;
    drop {| ev_wait := null; ev_overlapped := overlapped; ev_event := event |} ;;;
    Ret (Err err)
  else
    sys (SetThreadpoolWait wait event) ;;;
    Ret (Ok {| ev_wait := wait; ev_overlapped := overlapped; ev_event := event |}).
End event.
