(* ===== verification/IoEventSys.v ===== *)
(** * An [IoEvent] in its environment

    One operation of one future: the client polls until the first [Ready],
    as [Accept], [Connect] and [GetAddrInfoFuture] do (each of them is a
    future of one operation).  The system completes the operation and signals
    the event; the thread pool runs the callback of a wait that is armed and
    signalled, once per arming. *)

From S2P Require Import Prelude Prog Extern Win32 Socket.
From S2P Require Import IoState IoCells IoEvent.

(** ** State *)

Record ekernel := {
  e_flight : bool;                          (* the operation is in flight *)
  e_outcome : option (io_result unit);      (* how it ended *)
  e_signaled : bool;                        (* the event *)
  e_armed : bool;                           (* the wait *)
  e_error : Z;                              (* last error of the client's thread *)
}.

Inductive eclient (waker : Type) :=
| EIdle
| ERunning (p : prog (hact waker) hans (Poll (io_result unit))).
Arguments EIdle {waker}.
Arguments ERunning {waker} _.

Record econfig (W waker : Type) := {
  ecl : cells W waker;
  ekn : ekernel;
  ewho : eclient waker;
  ecallbacks : list (prog (hact waker) hans unit);
  ehistory : list (Poll (io_result unit));
}.
Arguments ecl {W waker} _.
Arguments ekn {W waker} _.
Arguments ewho {W waker} _.
Arguments ecallbacks {W waker} _.
Arguments ehistory {W waker} _.
Arguments Build_econfig {W waker} _ _ _ _ _.

(** ** The environment *)

(** How the system answers the call that starts the operation. *)
Inductive estart :=
| EDone
| EPending
| EFailed (err : Z).

Inductive eanswer := EDefault | EStart (a : estart).

(** The three operations that use an event. *)
Inductive ekind :=
| KConnect (connectex : Z) (socket : SOCKET) (addr : sockaddr)
| KAccept (acceptex : Z) (socket client : SOCKET) (buf addr_space : Z)
| KResolve (host port hints result : Z).

(** The error codes of the starting call that count as success. *)
Definition success (kind : ekind) (err : Z) : bool :=
  match kind with KConnect _ _ _ => bool_decide (err = WSAEISCONN) | _ => false end.

(** What the starting call returns when it succeeds, is pending, fails. *)
Definition returned (kind : ekind) (a : estart) : Z :=
  match kind, a with
  | KResolve _ _ _ _, EDone => 0
  | KResolve _ _ _ _, EPending => WSA_IO_PENDING
  | KResolve _ _ _ _, EFailed e => e
  | _, EDone => TRUE
  | _, _ => FALSE
  end.

(** The result an error code of the completed operation stands for. *)
Definition eresult (e : Z) : io_result unit :=
  if decide (e = 0) then Ok tt else Err (OsError (as_i32 e)).

Section environment.
Context (kind : ekind).

(** [WSA_IO_PENDING] and 0 are not the codes of a failure. *)
Definition estart_op (a : estart) (k : ekernel) : option (Z * ekernel) :=
  match a with
  | EDone => Some (returned kind a,
      {| e_flight := false; e_outcome := Some (Ok tt); e_signaled := true;
         e_armed := e_armed k; e_error := e_error k |})
  | EPending => Some (returned kind a,
      {| e_flight := true; e_outcome := None; e_signaled := false;
         e_armed := e_armed k; e_error := WSA_IO_PENDING |})
  | EFailed e =>
      if decide (e = WSA_IO_PENDING ∨ e = 0) then None else
      Some (returned kind a,
        {| e_flight := false;
           e_outcome := Some (if success kind e then Ok tt else Err (OsError e));
           e_signaled := e_signaled k; e_armed := e_armed k; e_error := e |})
  end.

Definition eset (signaled armed : bool) (err : Z) (k : ekernel) : ekernel :=
  {| e_flight := e_flight k; e_outcome := e_outcome k; e_signaled := signaled;
     e_armed := armed; e_error := err |}.

(** [GetOverlappedResult] waits for the operation, and reports its error code
    through the last error. *)
Definition equery (k : ekernel) : option (Z * ekernel) :=
  if e_flight k then None else
  match e_outcome k with
  | Some (Err (OsError e)) => Some (FALSE, eset (e_signaled k) (e_armed k) e k)
  | _ => Some (TRUE, k)
  end.

Definition esys_step (c : win32) (a : eanswer) (k : ekernel) : option (win32_ans c * ekernel) :=
  match c, a return option (win32_ans c * ekernel) with
  | ConnectEx _ _ _ _, EStart a => estart_op a k
  | AcceptEx _ _ _ _ _ _ _, EStart a => estart_op a k
  | GetAddrInfoExW _ _ _ _ _, EStart a => estart_op a k
  | GetOverlappedResult _ _ _, _ => equery k
  | ResetEvent _, _ => Some (1, eset false (e_armed k) (e_error k) k)
  | SetThreadpoolWait _ _, _ => Some (tt, eset (e_signaled k) true (e_error k) k)
  | GetLastError, _ => Some (e_error k, k)
  | WSAGetLastError, _ => Some (e_error k, k)
  | _, _ => None
  end.
End environment.

(** ** The transition system *)

Inductive elabel :=
| EBegin                     (* the client polls *)
| EClient (a : eanswer)      (* one action of the poll *)
| EReturn                    (* it returns *)
| EComplete (err : Z)        (* the system completes the operation *)
| EFire                      (* the thread pool runs the callback of the wait *)
| ECallback (i : nat)        (* one action of a callback *)
| ERetire (i : nat).         (* a finished callback ends *)

Definition is_ready {A} (p : Poll A) : bool := match p with Ready _ => true | Pending => false end.

(** The [TP_WAIT_RESULT] of a signalled event. *)
Definition WAIT_OBJECT_0 : Z := 0.

Section system.
Context {W waker : Type} `{!AtomicWaker W waker}.

(** [w]: the waker of the task that polls; [ohandle]: the handle given to
    [poll]. *)
Context (kind : ekind) (self : IoEvent) (ohandle : option HANDLE) (w : waker).
Abbreviation prog := (prog (hact waker) hans).
Abbreviation econfig := (econfig W waker).

Definition eschedule : Z → prog (Poll (io_result unit)) :=
  match kind with
  | KConnect f s addr => connect_schedule f s addr
  | KAccept f s client buf space => accept_schedule f s client buf space
  | KResolve host port hints result => resolve_schedule host port hints result
  end.

Definition estart_config : econfig := {|
  ecl := Build_cells IoState.new result_new aw_new [];
  ekn := {| e_flight := false; e_outcome := None; e_signaled := false; e_armed := true; e_error := 0 |};
  ewho := EIdle; ecallbacks := []; ehistory := [];
|}.

Definition ewith (c : econfig) (s : cells W waker * ekernel) who callbacks : econfig :=
  Build_econfig s.1 s.2 who callbacks (ehistory c).

Definition event_step (l : elabel) (c : econfig) : option econfig :=
  let k := ekn c in
  match l with
  | EBegin =>
      match ewho c with
      | EIdle => if existsb is_ready (ehistory c) then None else
                 Some (ewith c (ecl c, k) (ERunning (poll self w ohandle eschedule)) (ecallbacks c))
      | ERunning _ => None
      end
  | EClient a =>
      match ewho c with
      | EIdle => None
      | ERunning p =>
          '(p', s') ← tstep (cells_step (esys_step kind)) a p (ecl c, k);
          Some (ewith c s' (ERunning p') (ecallbacks c))
      end
  | EReturn =>
      match ewho c with
      | ERunning (Ret r) => Some (Build_econfig (ecl c) k EIdle (ecallbacks c) (ehistory c ++ [r]))
      | _ => None
      end
  | EComplete e =>
      if e_flight k then
        Some (ewith c (ecl c, {| e_flight := false; e_outcome := Some (eresult e); e_signaled := true;
                                 e_armed := e_armed k; e_error := e_error k |}) (ewho c) (ecallbacks c))
      else None
  | EFire =>
      if e_armed k && e_signaled k then
        Some (ewith c (ecl c, eset (e_signaled k) false (e_error k) k) (ewho c)
                (ecallbacks c ++ [callback WAIT_OBJECT_0]))
      else None
  | ECallback i =>
      p ← ecallbacks c !! i;
      '(p', s') ← tstep (cells_step (esys_step kind)) EDefault p (ecl c, k);
      Some (ewith c s' (ewho c) (<[i := p']> (ecallbacks c)))
  | ERetire i =>
      match ecallbacks c !! i with
      | Some (Ret tt) => Some (ewith c (ecl c, k) (ewho c) (delete i (ecallbacks c)))
      | _ => None
      end
  end.

#[export] Instance event_lts : LTS elabel econfig := {
  linit := estart_config;
  lstep := event_step;
}.
End system.

Definition event_exec {W waker} `{!AtomicWaker W waker} (kind : ekind) (self : IoEvent)
    (ohandle : option HANDLE) (w : waker) (ls : list elabel) : option (econfig W waker) :=
  exec (H := event_lts kind self ohandle w) ls estart_config.
