(* ===== verification/IoEventThm.v ===== *)
(** * What an [IoEvent] guarantees *)

From S2P Require Import Prelude Prog Extern Win32 Socket.
From S2P Require Import IoState IoCells IoEvent IoEventSys.

Lemma as_i32_idem z : as_i32 (as_i32 z) = as_i32 z.
Proof.
  unfold as_i32. simpl. pose proof (wrap_range 32 z ltac:(lia)) as Hr.
  destruct (Z.ltb_spec (wrap 32 z) (2 ^ 31)) as [H|H].
  - rewrite wrap_small by lia. by destruct (Z.ltb_spec (wrap 32 z) (2 ^ 31)); [|lia].
  - assert (wrap 32 (wrap 32 z - 2 ^ 32) = wrap 32 z) as ->.
    { unfold wrap at 1. symmetry. apply (Z.mod_unique _ _ (-1)); lia. }
    by destruct (Z.ltb_spec (wrap 32 z) (2 ^ 31)); [lia|].
Qed.

Section event.
Context {W waker : Type} `{AtomicWakerLaws W waker}.
Context (kind : ekind) (self : IoEvent) (ohandle : option HANDLE) (w : waker).
Abbreviation prog := (prog (hact waker) hans).
Abbreviation econfig := (econfig W waker).
Abbreviation cells := (cells W waker).
Abbreviation result := (io_result unit).
#[local] Instance elts : LTS elabel econfig := event_lts kind self ohandle w.

(** ** Program counters *)

Inductive ephase :=
| EP_start | EP_schedule | EP_call | EP_error | EP_idle (r : result)
| EP_register | EP_pend | EP_wait
| EP_reset | EP_rearm | EP_get | EP_query (h : HANDLE) | EP_take (ret : Z) | EP_report
| EP_done (p : Poll result).

Definition after_call (p : Poll result) : prog (Poll result) :=
  match p with
  | Ready r => IoState.set_idle ;;; Ret (Ready r)
  | Pending => register w ;;; IoState.set_pending ;;; Ret Pending
  end.

Definition take_result (r : io_result Z) : prog (Poll result) :=
  match r, ohandle with
  | Err err, _ => IoState.set_idle ;;; Ret (Ready (Err err))
  | Ok _, Some handle =>
      ret <- sys (GetOverlappedResult handle (ev_overlapped self) TRUE) ;;
      IoState.set_idle ;;;
      if decide (ret ≠ 0) then Ret (Ready (Ok tt))
      else err <- last_os_error ;; Ret (Ready (Err err))
  | Ok _, None => IoState.set_idle ;;; Ret (Ready (Ok tt))
  end.

Definition eden (ph : ephase) : prog (Poll result) :=
  match ph with
  | EP_start => poll self w ohandle (eschedule kind)
  | EP_schedule =>
      scheduled <- IoState.schedule ;;
      if (scheduled : bool) then p <- eschedule kind (ev_overlapped self) ;; after_call p
      else register w ;;; Ret Pending
  | EP_call => p <- eschedule kind (ev_overlapped self) ;; after_call p
  | EP_error =>
      p <- (err <- sys WSAGetLastError ;;
            if success kind err then Ret (Ready (Ok tt))
            else if decide (err = WSA_IO_PENDING) then Ret Pending
            else Ret (Ready (Err (OsError err)))) ;;
      after_call p
  | EP_idle r => IoState.set_idle ;;; Ret (Ready r)
  | EP_register => register w ;;; IoState.set_pending ;;; Ret Pending
  | EP_pend => IoState.set_pending ;;; Ret Pending
  | EP_wait => register w ;;; Ret Pending
  | EP_reset =>
      ret <- sys (ResetEvent (ev_event self)) ;;
      if decide (ret = 0) then IoState.set_idle ;;; err <- last_os_error ;; Ret (Ready (Err err))
      else sys (SetThreadpoolWait (ev_wait self) (ev_event self)) ;;;
           result <- get_result ;; take_result result
  | EP_rearm => sys (SetThreadpoolWait (ev_wait self) (ev_event self)) ;;;
                result <- get_result ;; take_result result
  | EP_get => result <- get_result ;; take_result result
  | EP_query h =>
      ret <- sys (GetOverlappedResult h (ev_overlapped self) TRUE) ;;
      IoState.set_idle ;;;
      if decide (ret ≠ 0) then Ret (Ready (Ok tt))
      else err <- last_os_error ;; Ret (Ready (Err err))
  | EP_take ret =>
      IoState.set_idle ;;;
      if decide (ret ≠ 0) then Ret (Ready (Ok tt))
      else err <- last_os_error ;; Ret (Ready (Err err))
  | EP_report => err <- last_os_error ;; Ret (Ready (Err err))
  | EP_done p => Ret p
  end.

Inductive fphase := FStart | FTest | FSwap | FSet | FReady | FWake | FEnd.

#[export] Instance fphase_eq_dec : EqDecision fphase.
Proof. solve_decision. Defined.

Definition fden (ph : fphase) : prog unit :=
  let complete :=
    act1 (HResultSet WAIT_OBJECT_0 0 : hact waker) ;;; IoState.set_ready ;;; act1 (HWake : hact waker) in
  let swap :=
    p <- IoState.access (ACompareExchange PENDING CALLBACK) ;; if (p : bool) then complete else Ret tt in
  match ph with
  | FStart => callback WAIT_OBJECT_0
  | FTest =>
      o <- (s <- IoState.access ALoad ;; Ret (if decide (s = SCHEDULING) then None else Some tt)) ;;
      match (o : option unit) with Some _ => swap | None => callback WAIT_OBJECT_0 end
  | FSwap => swap
  | FSet => complete
  | FReady => IoState.set_ready ;;; act1 (HWake : hact waker)
  | FWake => act1 (HWake : hact waker)
  | FEnd => Ret tt
  end.

Definition fnext (ph : fphase) (c : cells) : option (fphase * cells) :=
  match ph with
  | FStart => Some (FTest, c)
  | FTest => Some (if decide (c_state c = SCHEDULING) then FStart else FSwap, c)
  | FSwap =>
      Some (if decide (c_state c = PENDING)
            then (FSet, Build_cells CALLBACK (c_result c) (c_waker c) (woken c)) else (FEnd, c))
  | FSet => Some (FReady, Build_cells (c_state c) (result_set WAIT_OBJECT_0 0) (c_waker c) (woken c))
  | FReady => Some (FWake, Build_cells READY (c_result c) (c_waker c) (woken c))
  | FWake =>
      let '(o, aw) := aw_take (c_waker c) in
      Some (FEnd, Build_cells (c_state c) (c_result c) aw
                    (woken c ++ match o with Some w => [w] | None => [] end))
  | FEnd => None
  end.

Lemma fnext_step (ph : fphase) (c : cells) (k : ekernel) :
  tstep (cells_step (esys_step kind)) EDefault (fden ph) (c, k) =
  (λ x : fphase * cells, (fden x.1, (x.2, k))) <$> fnext ph c.
Proof.
  destruct c as [st res aw wk]. destruct ph; simpl; try done.
  - by destruct (decide (st = SCHEDULING)).
  - by destruct (decide (st = PENDING)).
  - by destruct (aw_take aw).
Qed.

(** What one step of the client does, from the phases where it is not stuck. *)
Definition set_state (st : io_state) (c : cells) : cells :=
  Build_cells st (c_result c) (c_waker c) (woken c).
Definition set_waker (c : cells) : cells :=
  Build_cells (c_state c) (c_result c) (aw_register w (c_waker c)) (woken c).

(** The point after the starting call has returned [z]. *)
Definition after_start (z : Z) : ephase :=
  match kind with
  | KResolve _ _ _ _ =>
      if decide (z = 0) then EP_idle (Ok tt)
      else if decide (z = WSA_IO_PENDING) then EP_register else EP_idle (Err (OsError z))
  | _ => if decide (z = TRUE) then EP_idle (Ok tt) else EP_error
  end.

Definition enext (ph : ephase) (a : eanswer) (c : cells) (k : ekernel) :
    option (ephase * (cells * ekernel)) :=
  match ph with
  | EP_start => Some (if decide (c_state c = READY) then EP_reset else EP_schedule, (c, k))
  | EP_schedule =>
      Some (if decide (c_state c = IDLE) then (EP_call, (set_state SCHEDULING c, k)) else (EP_wait, (c, k)))
  | EP_call =>
      match a with
      | EStart a => '(z, k') ← estart_op kind a k; Some (after_start z, (c, k'))
      | EDefault => None
      end
  | EP_error =>
      Some (if success kind (e_error k) then EP_idle (Ok tt)
            else if decide (e_error k = WSA_IO_PENDING) then EP_register
            else EP_idle (Err (OsError (e_error k))), (c, k))
  | EP_idle r => Some (EP_done (Ready r), (set_state IDLE c, k))
  | EP_register => Some (EP_pend, (set_waker c, k))
  | EP_pend => Some (EP_done Pending, (set_state PENDING c, k))
  | EP_wait => Some (EP_done Pending, (set_waker c, k))
  | EP_reset => Some (EP_rearm, (c, eset false (e_armed k) (e_error k) k))
  | EP_rearm => Some (EP_get, (c, eset (e_signaled k) true (e_error k) k))
  | EP_get => Some (match ohandle with Some h => EP_query h | None => EP_idle (Ok tt) end, (c, k))
  | EP_query h => '(ret, k') ← equery k; Some (EP_take ret, (c, k'))
  | EP_take ret =>
      Some (if decide (ret ≠ 0) then EP_done (Ready (Ok tt)) else EP_report, (set_state IDLE c, k))
  | EP_report => Some (EP_done (Ready (Err (OsError (as_i32 (e_error k))))), (c, k))
  | EP_done _ => None
  end.

End event.
Arguments ephase : clear implicits.
#[local] Arguments success : simpl never.

Section steps.
Context {W waker : Type} `{AtomicWaker W waker}.
Implicit Types (c : cells W waker).

Lemma enext_step kind self ohandle (w : waker) ph a c k :
  (ph = EP_get → c_result c = result_set WAIT_OBJECT_0 0) →
  tstep (cells_step (esys_step kind)) a (eden kind self ohandle w ph) (c, k) =
  (λ x : ephase * (cells W waker * ekernel), (eden kind self ohandle w x.1, x.2)) <$>
    enext kind ohandle w ph a c k.
Proof.
  intros Hget. destruct c as [st res aw wk]. simpl in Hget.
  destruct ph; simpl; try done.
  - by destruct (decide (st = READY)) as [->|].
  - by destruct (decide (st = IDLE)).
  - unfold after_start. destruct a as [|a]; [by destruct kind|]. destruct kind; simpl;
      match goal with |- context [estart_op ?q a k] => destruct (estart_op q a k) as [[z k']|] end;
      simpl; try done; repeat case_decide; done.
  - destruct (success kind (e_error k)); [done|]. by case_decide.
  - rewrite Hget by done. rewrite result_get_set. unfold completion. simpl. by destruct ohandle.
  - by destruct (equery k) as [[ret k']|].
  - by case_decide.
Qed.
End steps.

(** ** The invariant *)

Lemma start_cases kind a k z k' :
  estart_op kind a k = Some (z, k') →
  e_armed k' = e_armed k ∧
  match a with
  | EDone => after_start kind z = EP_idle (Ok tt) ∧ e_flight k' = false ∧ e_outcome k' = Some (Ok tt)
  | EPending =>
      (after_start kind z = EP_register ∨
       after_start kind z = EP_error ∧ e_error k' = WSA_IO_PENDING ∧ success kind WSA_IO_PENDING = false) ∧
      e_flight k' = true ∧ e_signaled k' = false
  | EFailed e =>
      let r := if success kind e then Ok tt else Err (OsError e) in
      (after_start kind z = EP_idle r ∨
       after_start kind z = EP_error ∧ e_error k' = e ∧ e ≠ WSA_IO_PENDING) ∧
      e_flight k' = false ∧ e_outcome k' = Some r
  end.
Proof.
  unfold estart_op, after_start. destruct a as [| |e].
  - intros; simplify_eq/=. by destruct kind.
  - intros; simplify_eq/=. destruct kind; simpl; split_and!; auto.
  - case_decide as He; intros; simplify_eq/=. destruct kind; simpl; split_and!; auto;
      try (right; split_and!; [done|done|tauto]).
    left. rewrite !decide_False by tauto. done.
Qed.

Section invariant.
Context {W waker : Type} `{AtomicWakerLaws W waker}.
Context (kind : ekind) (self : IoEvent) (ohandle : option HANDLE) (w : waker).
Abbreviation econfig := (econfig W waker).
Abbreviation cells := (cells W waker).
Abbreviation result := (io_result unit).
Implicit Types (ph : option ephase) (c : cells) (k : ekernel) (fs : list fphase).

(** An error of the system, as the last error reports it. *)
Definition good (r : result) : Prop :=
  match r with Ok _ => True | Err (OsError x) => as_i32 x = x | Err _ => False end.

Definition has_waker c : Prop := (aw_take (c_waker c)).1 = Some w.

Definition all_pending (h : list (Poll result)) : Prop := Forall (λ p, p = Pending) h.

Lemma all_pending_nil : all_pending [].
Proof. constructor. Qed.
#[local] Hint Resolve all_pending_nil : core.

(** What a poll may return, given how the operation ended: without a handle
    every end looks like a success. *)
Definition correct k (r : result) : Prop := e_outcome k = Some r ∨ ohandle = None ∧ r = Ok tt.

(** Where the client can be while the operation is on its way. *)
Definition started ph (st : io_state) (err : Z) : Prop :=
  match ph with
  | None | Some (EP_start | EP_schedule | EP_wait | EP_done Pending) => st ≠ SCHEDULING
  | Some EP_error => st = SCHEDULING ∧ err = WSA_IO_PENDING ∧ success kind WSA_IO_PENDING = false
  | Some (EP_register | EP_pend) => st = SCHEDULING
  | _ => False
  end.

Definition registered ph : bool :=
  match ph with Some (EP_error | EP_register) => false | _ => true end.

(** A callback before it publishes. *)
Definition fired (f : fphase) (st : io_state) (res : IoResult) : Prop :=
  match f with
  | FStart | FTest => st = SCHEDULING ∨ st = PENDING
  | FSwap => st = PENDING
  | FSet => st = CALLBACK
  | FReady => st = CALLBACK ∧ res = result_set WAIT_OBJECT_0 0
  | FWake | FEnd => False
  end.

Definition ended k : Prop := ∃ r, e_outcome k = Some r ∧ good r.

Definition on_its_way c k fs : Prop :=
  fs = [] ∧ (c_state c = SCHEDULING ∨ c_state c = PENDING) ∧ e_armed k = true ∧
    (e_flight k = true ∧ e_signaled k = false ∨ e_flight k = false ∧ e_signaled k = true ∧ ended k) ∨
  ∃ f, fs = [f] ∧ e_armed k = false ∧ e_flight k = false ∧ ended k ∧ fired f (c_state c) (c_result c).

(** Where the client can be once the result is published. *)
Definition published ph k (r : result) : Prop :=
  match ph with
  | None | Some (EP_start | EP_schedule | EP_wait | EP_done Pending | EP_reset) => e_armed k = false
  | Some EP_rearm => e_armed k = false ∧ e_signaled k = false
  | Some EP_get => e_signaled k = false
  | Some (EP_query h) => e_signaled k = false ∧ ohandle = Some h
  | Some (EP_take ret) => e_signaled k = false ∧
      match r with Ok _ => ret = TRUE | Err (OsError x) => ret = FALSE ∧ e_error k = x | _ => False end
  | Some (EP_idle r') => e_signaled k = false ∧ ohandle = None ∧ r' = Ok tt
  | _ => False
  end.

Definition over ph (st : io_state) k h : Prop :=
  match ph with
  | None => st = IDLE ∧ ∃ h' r, h = h' ++ [Ready r] ∧ all_pending h' ∧ correct k r
  | Some EP_error => st = SCHEDULING ∧ all_pending h ∧ e_error k ≠ WSA_IO_PENDING ∧
      e_outcome k = Some (if success kind (e_error k) then Ok tt else Err (OsError (e_error k)))
  | Some (EP_idle r) => st = SCHEDULING ∧ all_pending h ∧ e_outcome k = Some r
  | Some EP_report => st = IDLE ∧ all_pending h ∧
      e_outcome k = Some (Err (OsError (e_error k))) ∧ as_i32 (e_error k) = e_error k
  | Some (EP_done (Ready r)) => st = IDLE ∧ all_pending h ∧ correct k r
  | _ => False
  end.

Definition harmless (f : fphase) : Prop :=
  match f with FSet | FReady => False | _ => True end.

Inductive einv ph c k fs (h : list (Poll result)) : Prop :=
| inv_new
    (Hph : match ph with
           | None | Some (EP_start | EP_schedule) => c_state c = IDLE
           | Some EP_call => c_state c = SCHEDULING
           | _ => False
           end)
    (Hk : e_flight k = false ∧ e_signaled k = false ∧ e_armed k = true) (Hfs : fs = []) (Hh : h = [])
| inv_started
    (Hph : started ph (c_state c) (e_error k)) (Hw : registered ph = true → has_waker c)
    (Hop : on_its_way c k fs) (Hh : all_pending h)
| inv_ready r
    (Hst : c_state c = READY) (Hres : c_result c = result_set WAIT_OBJECT_0 0)
    (Hk : e_flight k = false ∧ e_outcome k = Some r ∧ good r) (Hph : published ph k r)
    (Hfs : fs = [FWake] ∧ has_waker c ∨ (fs = [] ∨ fs = [FEnd]) ∧ w ∈ woken c) (Hh : all_pending h)
| inv_over
    (Hk : e_flight k = false) (Hph : over ph (c_state c) k h) (Hfs : Forall harmless fs).

Definition client_is ph (who : eclient waker) : Prop :=
  who = match ph with Some ph => ERunning (eden kind self ohandle w ph) | None => EIdle end.

Definition event_inv (c : econfig) : Prop :=
  ∃ ph fs, client_is ph (ewho c) ∧ ecallbacks c = fden <$> fs ∧
    einv ph (ecl c) (ekn c) fs (ehistory c).

Lemma event_inv_start : event_inv estart_config.
Proof. exists None, []. split_and!; [done|done|]. by apply inv_new. Qed.

Lemma on_its_way_state c k fs :
  on_its_way c k fs → c_state c = SCHEDULING ∨ c_state c = PENDING ∨ c_state c = CALLBACK.
Proof.
  intros [(_ & [?|?] & _)|(f & _ & _ & _ & _ & Hf)]; [by auto..|].
  destruct f; simpl in Hf; naive_solver.
Qed.

Lemma register_has_waker c : has_waker (set_waker w c).
Proof. unfold has_waker, set_waker. simpl. apply aw_take_register. Qed.

(** The client's moves, by the stage of the operation. *)
Lemma client_new (p : ephase) c k h a p' c' k' :
  match p with EP_start | EP_schedule => c_state c = IDLE | EP_call => c_state c = SCHEDULING | _ => False end →
  e_flight k = false ∧ e_signaled k = false ∧ e_armed k = true → h = [] →
  enext kind ohandle w p a c k = Some (p', (c', k')) → einv (Some p') c' k' [] h.
Proof.
  intros Hph (Hf & Hs & Ha) -> Hn. destruct p; try done; simpl in Hn.
  - rewrite Hph in Hn. simplify_eq/=. by apply inv_new.
  - rewrite Hph in Hn. simplify_eq/=. by apply inv_new.
  - destruct a as [|a]; [done|]. destruct (estart_op kind a k) as [[z k1]|] eqn:Hz; simplify_eq/=.
    destruct (start_cases _ _ _ _ _ Hz) as [Harm Hcase]. rewrite Ha in Harm. destruct a as [| |e].
    + destruct Hcase as (-> & ? & ?). apply inv_over; [done|by split_and!|done].
    + destruct Hcase as ([->|(-> & ? & ?)] & ? & ?);
        (apply inv_started; [done|done| |done]; left; auto 10).
    + destruct Hcase as ([->|(-> & He & ?)] & ? & Hr);
        (apply inv_over; [done| |done]; simpl; rewrite ?He; by split_and!).
Qed.

Lemma client_started (p : ephase) c k fs h a p' c' k' :
  started (Some p) (c_state c) (e_error k) → (registered (Some p) = true → has_waker c) →
  on_its_way c k fs → all_pending h →
  enext kind ohandle w p a c k = Some (p', (c', k')) → einv (Some p') c' k' fs h.
Proof.
  intros Hph Hw Hop Hh Hn. pose proof (on_its_way_state _ _ _ Hop) as Hst.
  destruct p as [| | | | | | | | | | | | | |[]]; simpl in Hph; try done; simpl in Hn.
  - rewrite decide_False in Hn by (by destruct Hst as [->|[->| ->]]). simplify_eq/=. by apply inv_started.
  - rewrite decide_False in Hn by (by destruct Hst as [->|[->| ->]]). simplify_eq/=. by apply inv_started.
  - destruct Hph as (Hs & He & Hnot). rewrite He, Hnot, decide_True in Hn by done. simplify_eq/=.
    by apply inv_started.
  - simplify_eq/=. apply inv_started; [done|intros _; apply register_has_waker|exact Hop|done].
  - simplify_eq/=. apply inv_started; [done|by intros _; apply Hw| |done].
    destruct Hop as [(-> & _ & ? & ?)|(f & -> & ? & ? & ? & Hf)]; [left; simpl; auto 10|].
    right. exists f. split_and!; [done..|].
    destruct f; simpl in Hf |- *; rewrite ?Hph in Hf; auto; try done; by destruct Hf.
  - simplify_eq/=. apply inv_started; [done|intros _; apply register_has_waker|exact Hop|done].
Qed.

Lemma client_ready (p : ephase) c k fs h r a p' c' k' :
  c_state c = READY → c_result c = result_set WAIT_OBJECT_0 0 →
  e_flight k = false ∧ e_outcome k = Some r ∧ good r → published (Some p) k r →
  fs = [FWake] ∧ has_waker c ∨ (fs = [] ∨ fs = [FEnd]) ∧ w ∈ woken c → all_pending h →
  enext kind ohandle w p a c k = Some (p', (c', k')) → einv (Some p') c' k' fs h.
Proof.
  intros Hst Hres (Hf & Ho & Hg) Hph Hfs Hh Hn.
  assert (Forall harmless fs) as Hharm.
  { destruct Hfs as [[-> _]|[[->| ->] _]]; repeat constructor. }
  assert (fs = [FWake] ∧ has_waker (set_waker w c) ∨ (fs = [] ∨ fs = [FEnd]) ∧ w ∈ woken (set_waker w c)) as Hfs'.
  { destruct Hfs as [[-> _]|?]; [left; split; [done|apply register_has_waker]|by right]. }
  destruct p as [| | | | | | | | | | |hd|ret| |[]]; simpl in Hph; try done; simpl in Hn.
  - rewrite Hst in Hn. simplify_eq/=. by apply (inv_ready _ _ _ _ _ r).
  - rewrite Hst in Hn. simplify_eq/=. by apply (inv_ready _ _ _ _ _ r).
  - simplify_eq/=. destruct Hph as (? & ? & ->). apply inv_over; [done| |done]. simpl.
    split_and!; [done|done|by right].
  - simplify_eq/=. by apply (inv_ready _ _ _ _ _ r).
  - simplify_eq/=. by apply (inv_ready _ _ _ _ _ r).
  - simplify_eq/=. destruct Hph. by apply (inv_ready _ _ _ _ _ r).
  - simplify_eq/=. apply (inv_ready _ _ _ _ _ r); [done..| |done|done]. destruct ohandle eqn:?; simpl; eauto.
  - unfold equery in Hn. rewrite Hf, Ho in Hn. destruct Hph as [? ?].
    destruct r as [[]|[x|]]; simplify_eq/=; [| |done].
    + by apply (inv_ready _ _ _ _ _ (Ok tt)).
    + by apply (inv_ready _ _ _ _ _ (Err (OsError x))).
  - simplify_eq/=. destruct Hph as [? Hr]. destruct r as [[]|[x|]]; simpl in Hr; [|destruct Hr as [-> Hx]|done].
    + subst ret. simpl. apply inv_over; [done| |done]. simpl. split_and!; [done|done|by left].
    + simpl. apply inv_over; [done| |done]. simpl. by rewrite Hx.
Qed.

Lemma client_over (p : ephase) c k fs h a p' c' k' :
  e_flight k = false → over (Some p) (c_state c) k h → Forall harmless fs →
  enext kind ohandle w p a c k = Some (p', (c', k')) → einv (Some p') c' k' fs h.
Proof.
  intros Hf Hph Hfs Hn.
  destruct p as [| | | | | | | | | | | | | |[]]; simpl in Hph; try done; simpl in Hn.
  - destruct Hph as (? & ? & Hne & Ho). rewrite decide_False in Hn by done.
    destruct (success kind (e_error k)); simplify_eq/=; by apply inv_over.
  - simplify_eq/=. destruct Hph as (? & ? & ?). apply inv_over; [done| |done]. simpl.
    split_and!; [done|done|by left].
  - simplify_eq/=. destruct Hph as (? & ? & Ho & He). apply inv_over; [done| |done]. simpl.
    rewrite He. split_and!; [done|done|by left].
Qed.

Lemma client_inv (p : ephase) c k fs h a p' c' k' :
  einv (Some p) c k fs h → enext kind ohandle w p a c k = Some (p', (c', k')) →
  einv (Some p') c' k' fs h.
Proof.
  intros [Hph Hk -> ->|Hph Hw Hop Hh|r Hst Hres Hk Hph Hfs Hh|Hk Hph Hfs] Hn.
  - by eapply client_new.
  - by eapply client_started.
  - by eapply client_ready.
  - by eapply client_over.
Qed.

(** A callback's moves. *)
Lemma callback_started ph c k h f f' c' :
  started ph (c_state c) (e_error k) → (registered ph = true → has_waker c) →
  e_armed k = false → e_flight k = false → ended k → fired f (c_state c) (c_result c) →
  all_pending h → fnext f c = Some (f', c') → einv ph c' k [f'] h.
Proof.
  intros Hph Hw Ha Hf Hend Hfi Hh Hn.
  assert (∀ g st res, fired g st res → started ph st (e_error k) →
    einv ph (Build_cells st res (c_waker c) (woken c)) k [g] h) as Hback.
  { intros g st res Hg Hst. apply inv_started; [done|done| |done]. right. by exists g. }
  destruct c as [st res aw wk], f; simpl in *; try done.
  - simplify_eq/=. by apply Hback.
  - case_decide as Hs; simplify_eq/=; apply Hback; simpl; [by left|done| |done].
    by destruct Hfi.
  - subst st. simplify_eq/=. apply Hback; [done|]. by destruct ph as [[| | | | | | | | | | | | | |[]]|]; simpl in *; explode.
  - simplify_eq/=. by apply Hback.
  - destruct Hfi as [-> ->]. simplify_eq/=. destruct Hend as (r & Ho & Hg).
    apply (inv_ready _ _ _ _ _ r); [done|done|done| |left; split; [done|]|done].
    + by destruct ph as [[| | | | | | | | | | | | | |[]]|]; simpl in *; explode.
    + apply Hw. by destruct ph as [[]|]; simpl in *; explode.
Qed.

Lemma callback_inv ph c k fs h i f f' c' :
  einv ph c k fs h → fs !! i = Some f → fnext f c = Some (f', c') → einv ph c' k (<[i := f']> fs) h.
Proof.
  intros [Hph Hk -> ->|Hph Hw Hop Hh|r Hst Hres Hk Hph Hfs Hh|Hk Hph Hfs] Hi Hn; [done|..].
  - destruct Hop as [(-> & _)|(g & -> & Ha & Hf & Hend & Hg)]; [done|].
    destruct i as [|i]; simplify_eq/=. by eapply callback_started.
  - destruct Hfs as [[-> Hw]|[[->| ->] _]]; [|done|].
    + destruct i as [|i]; simplify_eq/=. unfold has_waker in Hw.
      destruct (aw_take (c_waker c)) as [o aw]; simplify_eq/=.
      apply (inv_ready _ _ _ _ _ r); [done..| |done]. right. split; [by right|set_solver].
    + by destruct i as [|i]; simplify_eq/=.
  - pose proof (Forall_lookup_1 _ _ _ _ Hfs Hi) as Hf.
    assert (c_state c ≠ PENDING) as Hnp.
    { destruct ph as [[| | | | | | | | | | | | | |[]]|]; simpl in Hph; explode; congruence. }
    assert (c_state c' = c_state c ∧ harmless f') as [Hst Hharm].
    { destruct f; simpl in Hn, Hf; try done; repeat case_decide; simplify_eq/=; try done.
      destruct (aw_take (c_waker c)). by simplify_eq/=. }
    apply inv_over; [done|by rewrite Hst|by apply Forall_insert].
Qed.

(** The environment's moves. *)
Lemma complete_inv ph c k fs h e :
  einv ph c k fs h → e_flight k = true →
  einv ph c {| e_flight := false; e_outcome := Some (eresult e); e_signaled := true;
               e_armed := e_armed k; e_error := e_error k |} fs h.
Proof.
  intros [Hph Hk -> ->|Hph Hw Hop Hh|r Hst Hres Hk Hph Hfs Hh|Hk Hph Hfs] Hf; [destruct Hk; congruence| |destruct Hk; congruence|congruence].
  apply inv_started; [done|done| |done].
  destruct Hop as [(-> & Hst & Ha & _)|(g & _ & _ & Hf' & _)]; [|congruence].
  left. split_and!; [done|done|done|]. right. split_and!; [done|done|]. exists (eresult e). split; [done|].
  unfold eresult. case_decide; simpl; [done|apply as_i32_idem].
Qed.

Lemma fire_inv ph c k fs h :
  einv ph c k fs h → e_armed k && e_signaled k = true →
  einv ph c (eset (e_signaled k) false (e_error k) k) (fs ++ [FStart]) h.
Proof.
  intros [Hph Hk -> ->|Hph Hw Hop Hh|r Hst Hres Hk Hph Hfs Hh|Hk Hph Hfs] [Ha Hs]%andb_prop.
  - destruct Hk as (_ & ? & _). congruence.
  - apply inv_started; [done|done| |done].
    destruct Hop as [(-> & Hst & _ & [[_ ?]|(Hf & _ & Hend)])|(g & _ & ? & _)]; [congruence| |congruence].
    right. exists FStart. by split_and!.
  - exfalso. destruct ph as [[| | | | | | | | | | | | | |[]]|]; simpl in Hph; explode; congruence.
  - apply inv_over; [done| |].
    + by destruct ph as [[| | | | | | | | | | | | | |[]]|].
    + apply Forall_app. split; [done|]. by apply Forall_singleton.
Qed.

Lemma retire_inv ph c k fs h i :
  einv ph c k fs h → fs !! i = Some FEnd → einv ph c k (delete i fs) h.
Proof.
  intros [Hph Hk -> ->|Hph Hw Hop Hh|r Hst Hres Hk Hph Hfs Hh|Hk Hph Hfs] Hi; [done|..].
  - destruct Hop as [(-> & _)|(g & -> & _ & _ & _ & Hg)]; [done|].
    by destruct i as [|i]; simplify_eq/=.
  - apply (inv_ready _ _ _ _ _ r); [done..| |done].
    destruct Hfs as [[-> Hw]|[[->| ->] ?]]; [|done|]; destruct i as [|i]; simplify_eq/=.
    right. split; [by left|done].
  - apply inv_over; [done|done|by apply Forall_delete].
Qed.

Lemma existsb_all_pending h : all_pending h → existsb is_ready h = false.
Proof. by induction 1 as [|x h -> _ IH]. Qed.

Lemma begin_inv c k fs h :
  einv None c k fs h → existsb is_ready h = false → einv (Some EP_start) c k fs h.
Proof.
  intros [Hph Hk -> ->|Hph Hw Hop Hh|r Hst Hres Hk Hph Hfs Hh|Hk Hph Hfs] He.
  - by apply inv_new.
  - by apply inv_started.
  - by apply (inv_ready _ _ _ _ _ r).
  - destruct Hph as (_ & h' & r & -> & _). rewrite existsb_app in He. simpl in He.
    by rewrite orb_true_r in He.
Qed.

Lemma return_inv p c k fs h :
  einv (Some (EP_done p)) c k fs h → einv None c k fs (h ++ [p]).
Proof.
  intros [Hph Hk -> ->|Hph Hw Hop Hh|r Hst Hres Hk Hph Hfs Hh|Hk Hph Hfs]; [done|..].
  - destruct p; [done|]. apply inv_started; [done|done|done|]. apply Forall_app. split; [done|].
    by apply Forall_singleton.
  - destruct p; [done|]. apply (inv_ready _ _ _ _ _ r); [done..|]. apply Forall_app. split; [done|].
    by apply Forall_singleton.
  - destruct p as [r|]; [|done]. destruct Hph as (? & ? & ?). apply inv_over; [done| |done].
    simpl. eauto 10.
Qed.
End invariant.

Section preservation.
Context {W waker : Type} `{AtomicWakerLaws W waker}.
Context (kind : ekind) (self : IoEvent) (ohandle : option HANDLE) (w : waker).
Abbreviation econfig := (econfig W waker).
#[local] Instance elts' : LTS elabel econfig := event_lts kind self ohandle w.
Abbreviation Inv := (event_inv kind self ohandle w).
Abbreviation estep := (event_step kind self ohandle w).

Lemma exec_step l ls (c c1 : econfig) o :
  estep l c = Some c1 → exec (H := elts') ls c1 = o → exec (H := elts') (l :: ls) c = o.
Proof. intros Hl <-. change (estep l c ≫= exec (H := elts') ls = exec (H := elts') ls c1). by rewrite Hl. Qed.

Lemma einv_get c k fs h :
  einv kind ohandle w (Some EP_get) c k fs h → c_result c = result_set WAIT_OBJECT_0 0.
Proof. by intros [| | |]. Qed.

Lemma eden_ret ph r : eden (waker := waker) kind self ohandle w ph = Ret r → ph = EP_done r.
Proof. destruct ph; simpl; try done; [by destruct kind|by intros [= ->]]. Qed.

Lemma fden_ret f : fden (waker := waker) f = Ret tt → f = FEnd.
Proof. by destruct f. Qed.

(** One step of the client, through the table of its phases. *)
Lemma client_step (c : econfig) ph fs a :
  einv kind ohandle w (Some ph) (ecl c) (ekn c) fs (ehistory c) →
  ewho c = ERunning (eden kind self ohandle w ph) →
  estep (EClient a) c =
  (λ x, ewith c x.2 (ERunning (eden kind self ohandle w x.1)) (ecallbacks c)) <$>
    enext kind ohandle w ph a (ecl c) (ekn c).
Proof.
  intros Hinv Hwho. simpl. rewrite Hwho, enext_step.
  - by destruct (enext _ _ _ _ _ _ _) as [[ph' s']|].
  - intros ->. by eapply einv_get.
Qed.

Lemma event_step_inv : preserved (L := elabel) Inv.
Proof.
  intros l c c' (ph & fs & Hwho & Hcb & Hinv) Hst. destruct l as [|a| |e| |i|i]; simpl in Hst.
  - destruct (ewho c) eqn:Hw; [|done]. destruct ph as [ph|]; [done|].
    destruct (existsb is_ready (ehistory c)) eqn:He; simplify_eq/=.
    exists (Some EP_start), fs. split_and!; [done|done|]. by apply begin_inv.
  - destruct (ewho c) eqn:Hw; [done|]. destruct ph as [ph|]; [|done].
    unfold client_is in Hwho. injection Hwho as ->.
    pose proof (client_step c ph fs a Hinv Hw) as Hs. simpl in Hs. rewrite Hw, Hst in Hs.
    destruct (enext _ _ _ _ _ _ _) as [[ph' [c1 k1]]|] eqn:Hn; [|done]. injection Hs as ->.
    exists (Some ph'), fs. split_and!; [done|done|]. by eapply client_inv.
  - destruct (ewho c) as [|p] eqn:Hw; [done|]. destruct p as [r| | |]; simplify_eq/=.
    destruct ph as [ph|]; [|done]. unfold client_is in Hwho. injection Hwho as Hr.
    symmetry in Hr. apply eden_ret in Hr as ->.
    exists None, fs. split_and!; [done|done|]. by apply return_inv.
  - destruct (e_flight (ekn c)) eqn:Hf; simplify_eq/=.
    exists ph, fs. split_and!; [done|done|]. by apply complete_inv.
  - destruct (e_armed (ekn c) && e_signaled (ekn c)) eqn:Hf; simplify_eq/=.
    exists ph, (fs ++ [FStart]). split_and!; [done|by rewrite fmap_app, Hcb|]. by apply fire_inv.
  - rewrite Hcb, list_lookup_fmap in Hst. destruct (fs !! i) as [f|] eqn:Hi; [|done]. simpl in Hst.
    rewrite fnext_step in Hst. destruct (fnext f (ecl c)) as [[f' c1]|] eqn:Hn; simplify_eq/=.
    exists ph, (<[i := f']> fs). split_and!; [done|by rewrite <- list_fmap_insert|].
    by eapply callback_inv.
  - rewrite Hcb, list_lookup_fmap in Hst. destruct (fs !! i) as [f|] eqn:Hi; [|done]. simpl in Hst.
    destruct (fden f) as [[]| | |] eqn:Hf; simplify_eq/=. apply fden_ret in Hf as ->.
    exists ph, (delete i fs). split_and!; [done| |by apply retire_inv].
    simpl. by rewrite list_fmap_delete.
Qed.

Lemma event_exec_inv ls c : event_exec kind self ohandle w ls = Some c → Inv c.
Proof.
  intros Hex. eapply (invariant (H := elts') _ ls c); [|exact event_step_inv|exact Hex].
  apply event_inv_start.
Qed.

(** ** What a poll returns *)

Lemma all_pending_replicate (h : list (Poll (io_result unit))) :
  all_pending h → h = replicate (length h) Pending.
Proof. induction 1 as [|x h -> _ IH]; simpl; by f_equal. Qed.

Lemma ready_in_pending (h : list (Poll (io_result unit))) r : all_pending h → Ready r ∉ h.
Proof. intros Hh [= ]%(Forall_forall (λ p, p = Pending) h); done. Qed.

Lemma einv_history ph c k fs h r :
  einv kind ohandle w ph c k fs h → Ready r ∈ h →
  ph = None ∧ e_flight k = false ∧ c_state c = IDLE ∧ correct ohandle k r ∧
  ∃ n, h = replicate n Pending ++ [Ready r].
Proof.
  intros [Hph Hk Hfs ->|Hph Hw Hop Hh|r' Hst Hres Hk Hph Hfs Hh|Hk Hph Hfs] Hr;
    [by apply not_elem_of_nil in Hr|by destruct (ready_in_pending h r Hh)|by destruct (ready_in_pending h r Hh)|].
  destruct ph as [[| | | | | | | | | | | | | |[]]|]; simpl in Hph; explode;
    try done; try by destruct (ready_in_pending h r).
  subst h. apply elem_of_app in Hr as [Hr|[= <-]%list_elem_of_singleton]; [by eapply ready_in_pending in Hr|].
  split_and!; [done..|]. eexists. f_equal. by apply all_pending_replicate.
Qed.

(** However the polls, the completion of the operation and the callbacks
    of the thread pool interleave, an [IoEvent] that was given a handle
    yields [Ready] once, after some number of [Pending]s, only when the
    operation is over, and with the outcome of the operation. *)
Theorem event_delivery (ls : list elabel) (c : econfig) (h : HANDLE) (r : io_result unit) :
  event_exec kind self ohandle w ls = Some c → ohandle = Some h → Ready r ∈ ehistory c →
  e_flight (ekn c) = false ∧ e_outcome (ekn c) = Some r ∧
  ∃ n, ehistory c = replicate n Pending ++ [Ready r].
Proof.
  intros (ph & fs & _ & _ & Hinv)%event_exec_inv Hh Hr.
  destruct (einv_history _ _ _ _ _ _ Hinv Hr) as (_ & ? & _ & [?|[? _]] & ?); [done|congruence].
Qed.

(** ** Progress *)

Definition frank (f : fphase) : nat :=
  match f with
  | FStart => 6 | FTest => 5 | FSwap => 4 | FSet => 3 | FReady => 2 | FWake => 1 | FEnd => 0
  end.

Lemma idle_not_scheduling c k fs h : einv kind ohandle w None c k fs h → c_state c ≠ SCHEDULING.
Proof.
  intros [Hph _ _ _|Hph _ _ _|r Hst _ _ _ _ _|_ Hph _]; [congruence|done|congruence|].
  by destruct Hph as [-> _].
Qed.

Lemma fnext_progress f c :
  f ≠ FEnd → c_state c ≠ SCHEDULING →
  ∃ f' c', fnext f c = Some (f', c') ∧ (frank f' < frank f)%nat.
Proof.
  intros Hf Hs. destruct f; simpl; try done; try (do 2 eexists; split; [done|simpl; lia]).
  - rewrite decide_False by done. do 2 eexists. split; [done|simpl; lia].
  - case_decide; do 2 eexists; (split; [done|simpl; lia]).
  - destruct (aw_take (c_waker c)). do 2 eexists. split; [done|simpl; lia].
Qed.

(** A callback that runs alone comes to its end. *)
Lemma callback_finishes (n : nat) (c : econfig) f :
  (frank f ≤ n)%nat → Inv c → ewho c = EIdle → ecallbacks c = [fden f] →
  ∃ ls c', exec (H := elts') ls c = Some c' ∧ Forall (λ l, l = ECallback 0) ls ∧
    ewho c' = EIdle ∧ ecallbacks c' = [fden FEnd] ∧ ehistory c' = ehistory c ∧ e_flight (ekn c') = e_flight (ekn c).
Proof.
  revert f c. induction n as [|n IH]; intros f c Hn Hinv Hwho Hcb.
  { exists [], c. split_and!; [done|done|done| |done|done]. rewrite Hcb. by destruct f; simpl in Hn; try lia. }
  destruct (decide (frank f = 0%nat)) as [Hz|Hz].
  { exists [], c. split_and!; [done|done|done| |done|done]. rewrite Hcb. by destruct f. }
  assert (c_state (ecl c) ≠ SCHEDULING) as Hns.
  { destruct Hinv as (ph & fs & Hph & Hfs & Hinv). rewrite Hwho in Hph. destruct ph; [done|].
    by eapply idle_not_scheduling. }
  destruct (fnext_progress f (ecl c)) as (f' & c1 & Hf & Hr); [by intros ->|done|].
  assert (estep (ECallback 0) c = Some (ewith c (c1, ekn c) EIdle [fden f'])) as Hst.
  { simpl. rewrite Hcb. simpl. rewrite fnext_step, Hf. simpl. by rewrite Hwho. }
  destruct (IH f' (ewith c (c1, ekn c) EIdle [fden f'])) as (ls & c' & Hex & Hls & ? & ? & ? & ?);
    [lia|by eapply event_step_inv|done|done|].
  exists (ECallback 0 :: ls), c'. split_and!; try done; [by eapply exec_step|by constructor].
Qed.

(** The points of a poll from which it yields [Ready], and how many steps
    are left. *)
Definition late (ph : ephase) : bool :=
  match ph with
  | EP_reset | EP_rearm | EP_get | EP_query _ | EP_take _ | EP_report | EP_idle _ | EP_done (Ready _) => true
  | _ => false
  end.

Definition crank (ph : ephase) : nat :=
  match ph with
  | EP_reset => 6 | EP_rearm => 5 | EP_get => 4 | EP_query _ => 3 | EP_take _ => 2
  | EP_report | EP_idle _ => 1 | _ => 0
  end.

Lemma enext_progress ph c k :
  late ph = true → (0 < crank ph)%nat → e_flight k = false →
  ∃ ph' s, enext kind ohandle w ph EDefault c k = Some (ph', s) ∧ late ph' = true ∧ (crank ph' < crank ph)%nat.
Proof.
  intros Hl Hc Hf. destruct ph; simpl in *; try done; try lia;
    try (do 2 eexists; split; [done|split; [done|simpl; lia]]).
  - destruct ohandle; do 2 eexists; (split; [done|split; [done|simpl; lia]]).
  - unfold equery. rewrite Hf. destruct (e_outcome k) as [[|[]]|]; simpl;
      do 2 eexists; (split; [done|split; [done|simpl; lia]]).
  - case_decide; do 2 eexists; (split; [done|split; [done|simpl; lia]]).
Qed.

Lemma late_not_in_flight ph c k fs h :
  late ph = true → einv kind ohandle w (Some ph) c k fs h → e_flight k = false.
Proof.
  intros Hl [Hph _ _ _|Hph _ _ _|r _ _ [? _] _ _ _|? _ _]; [|by destruct ph as [| | | | | | | | | | | | | |[]]|done..].
  by destruct ph.
Qed.

(** A poll that is past the test of the state yields [Ready] on its own. *)
Lemma client_finishes (n : nat) (c : econfig) ph fs :
  (crank ph ≤ n)%nat → late ph = true → einv kind ohandle w (Some ph) (ecl c) (ekn c) fs (ehistory c) →
  ewho c = ERunning (eden kind self ohandle w ph) →
  ∃ m c' r, exec (H := elts') (replicate m (EClient EDefault) ++ [EReturn]) c = Some c' ∧ (m ≤ n)%nat ∧
    ehistory c' = ehistory c ++ [Ready r].
Proof.
  revert ph c. induction n as [n IH] using lt_wf_ind. intros ph c Hn Hl Hinv Hwho.
  destruct (decide (crank ph = 0%nat)) as [Hz|Hz].
  { destruct ph as [| | | | | | | | | | | | | |[r|]]; simplify_eq/=. exists 0%nat. simpl.
    rewrite Hwho. simpl. do 2 eexists. split_and!; [done|lia|done]. }
  destruct (enext_progress ph (ecl c) (ekn c) Hl) as (ph' & [c1 k1] & Hs & Hl' & Hr);
    [lia|by eapply late_not_in_flight|].
  pose proof (client_step c ph fs EDefault Hinv Hwho) as Hst. rewrite Hs in Hst. simpl fmap in Hst.
  destruct (IH (crank ph') ltac:(lia) ph' (ewith c (c1, k1) (ERunning (eden kind self ohandle w ph')) (ecallbacks c)))
    as (m & c' & r & Hex & Hm & Hh); [done|done|by eapply client_inv|done|].
  exists (S m), c', r. split_and!; [by eapply exec_step|lia|done].
Qed.

(** The labels of the thread pool. *)
Definition is_pool (l : elabel) : bool :=
  match l with EFire | ECallback _ => true | _ => false end.

(** Once the callback is over the task is woken and the result is there. *)
Lemma pool_done (c : econfig) :
  Inv c → ewho c = EIdle → ecallbacks c = [fden FEnd] → all_pending (ehistory c) →
  w ∈ woken (ecl c) ∧ c_state (ecl c) = READY.
Proof.
  intros (ph & fs & Hph & Hfs & Hi) Hwho Hcb Hh. rewrite Hwho in Hph. destruct ph; [done|].
  rewrite Hcb in Hfs. destruct fs as [|f [|]]; try done. injection Hfs as Hf.
  symmetry in Hf. apply fden_ret in Hf as ->.
  destruct Hi as [_ _ ? _|_ _ Hop _|r Hst _ _ _ [[? _]|[_ ?]] _|_ Ho _]; try done.
  - destruct Hop as [(? & _)|(f & [= <-] & _ & _ & _ & [])]; done.
  - destruct Ho as (_ & h' & r & Heq & _). rewrite Heq in Hh.
    apply Forall_app in Hh as [_ Hh]. by inversion Hh.
Qed.

(** Between two polls an event that is not idle is that of a pending future. *)
Lemma not_idle_pending (c : econfig) :
  Inv c → ewho c = EIdle →
  (c_state (ecl c) ≠ IDLE → all_pending (ehistory c)) ∧
  (ehistory c ≠ [] → all_pending (ehistory c) → c_state (ecl c) ≠ IDLE).
Proof.
  intros (ph & fs & Hph & _ & Hi) Hwho. rewrite Hwho in Hph. destruct ph; [done|].
  destruct Hi as [Hst _ _ Hh|_ _ Hop Hh|r Hst _ _ _ _ Hh|_ Ho _].
  - by rewrite Hh.
  - split; [done|]. intros _ _. by destruct (on_its_way_state _ _ _ Hop) as [->|[->| ->]].
  - split; [done|congruence].
  - destruct Ho as (Hst & h' & r & Heq & _). split; [done|]. rewrite Heq. intros _ Hh.
    apply Forall_app in Hh as [_ Hh]. by inversion Hh.
Qed.

(** The callback of a finished operation runs to its end. *)
Lemma pool_wakes (c : econfig) :
  Inv c → ewho c = EIdle → c_state (ecl c) ≠ IDLE → e_flight (ekn c) = false →
  ∃ ls c', exec (H := elts') ls c = Some c' ∧ forallb is_pool ls = true ∧ ewho c' = EIdle ∧
    ehistory c' = ehistory c ∧ w ∈ woken (ecl c') ∧ c_state (ecl c') = READY.
Proof.
  intros Hinv Hwho Hst0 Hf. pose proof (proj1 (not_idle_pending c Hinv Hwho) Hst0) as Hh.
  assert (∃ ls c1 f, exec (H := elts') ls c = Some c1 ∧ forallb is_pool ls = true ∧ Inv c1 ∧ ewho c1 = EIdle ∧
    ehistory c1 = ehistory c ∧ (ecallbacks c1 = [fden f] ∨ w ∈ woken (ecl c1) ∧ c_state (ecl c1) = READY))
    as (ls & c1 & f & Hex & Hls & Hinv1 & Hwho1 & Hh1 & Hcb).
  { pose proof Hinv as (ph & fs & Hph & Hfs & Hi). rewrite Hwho in Hph. destruct ph; [done|].
    destruct Hi as [? _ _ _|Hph' Hw Hop _|r Hst _ _ _ [[-> _]|[_ ?]] _|_ Ho _]; [done| | | |].
    - destruct Hop as [(-> & Hst & Ha & [[? _]|(_ & Hs & _)])|(f & -> & _)]; [congruence| |].
      + exists [EFire]. eexists. exists FStart.
        assert (estep EFire c = Some (ewith c (ecl c, eset (e_signaled (ekn c)) false (e_error (ekn c)) (ekn c))
          (ewho c) (ecallbacks c ++ [callback WAIT_OBJECT_0]))) as He.
        { simpl. by rewrite Ha, Hs. }
        split_and!; [by eapply exec_step|done| | | |].
        * by eapply event_step_inv.
        * done.
        * done.
        * left. simpl. by rewrite Hfs.
      + exists [], c, f. split_and!; [done..|]. by left.
    - exists [], c, FWake. split_and!; [done..|]. by left.
    - exists [], c, FEnd. split_and!; [done..|]. by right.
    - destruct Ho as (_ & h' & r & Heq & _). rewrite Heq in Hh.
      apply Forall_app in Hh as [_ Hh]. by inversion Hh. }
  destruct Hcb as [Hcb|[? ?]]; [|by exists ls, c1].
  destruct (callback_finishes (frank f) c1 f) as (ls2 & c2 & Hex2 & Hls2 & ? & Hcb2 & Hh2 & _); [done..|].
  assert (w ∈ woken (ecl c2) ∧ c_state (ecl c2) = READY) as Hready.
  { assert (Inv c2) as Hinv2 by (by eapply exec_preserved, Hex2; [apply event_step_inv|]).
    eapply pool_done; [done..|]. by rewrite Hh2, Hh1. }
  exists (ls ++ ls2), c2. rewrite exec_app, Hex. split_and!; [done| |done|congruence| |].
  - rewrite forallb_app, Hls. apply forallb_forall. intros l Hl%list_elem_of_In.
    by rewrite (proj1 (Forall_forall _ _) Hls2 l Hl).
  - by apply Hready.
  - by apply Hready.
Qed.

(** C15. No wake-up is lost: once the operation of a pending future is over,
    whatever happened before, the thread pool alone can run to a state where
    the task of the future has been woken, and the poll made there yields the
    result within seven steps: the outcome of the operation, or [Ok] when the
    future gave no handle. *)
Theorem event_wakes (ls : list elabel) (c : econfig) :
  event_exec kind self ohandle w ls = Some c →
  ewho c = EIdle → ehistory c ≠ [] → Forall (λ p, p = Pending) (ehistory c) → e_flight (ekn c) = false →
  ∃ ls1 c1 n c2 r, forallb is_pool ls1 = true ∧
    event_exec kind self ohandle w (ls ++ ls1) = Some c1 ∧ w ∈ woken (ecl c1) ∧
    event_exec kind self ohandle w ((ls ++ ls1) ++ EBegin :: replicate n (EClient EDefault) ++ [EReturn]) = Some c2 ∧
    (n ≤ 7)%nat ∧ ehistory c2 = ehistory c ++ [Ready r] ∧ correct ohandle (ekn c2) r.
Proof.
  intros Hex Hwho Hne Hh Hf. pose proof (event_exec_inv _ _ Hex) as Hinv.
  destruct (pool_wakes c Hinv Hwho (proj2 (not_idle_pending c Hinv Hwho) Hne Hh) Hf) as (ls1 & c1 & Hex1 & Hls1 & Hwho1 & Hh1 & Hw & Hst).
  unfold event_exec in *. fold elts' in *.
  assert (exec (H := elts') (ls ++ ls1) estart_config = Some c1) as Hexc1 by (by rewrite exec_app, Hex).
  pose proof (event_exec_inv _ _ Hexc1) as (ph & fs & Hph & Hfs & Hi). rewrite Hwho1 in Hph.
  destruct ph; [done|]. rewrite <- Hh1 in Hh.
  assert (existsb is_ready (ehistory c1) = false) as Hnr by (by apply existsb_all_pending).
  assert (einv kind ohandle w (Some EP_start) (ecl c1) (ekn c1) fs (ehistory c1)) as Hi1 by (by apply begin_inv).
  set (c2 := ewith c1 (ecl c1, ekn c1) (ERunning (eden kind self ohandle w EP_start)) (ecallbacks c1)).
  assert (estep EBegin c1 = Some c2) as Hs1 by (simpl; by rewrite Hwho1, Hnr).
  set (c3 := ewith c1 (ecl c1, ekn c1) (ERunning (eden kind self ohandle w EP_reset)) (ecallbacks c1)).
  assert (estep (EClient EDefault) c2 = Some c3) as Hs2.
  { rewrite (client_step c2 EP_start fs EDefault) by done. simpl. by rewrite Hst. }
  destruct (client_finishes 6 c3 EP_reset fs) as (m & c4 & r & Hex4 & Hm & Hh4); [done|done| |done|].
  { eapply (client_inv _ _ _ _ _ _ _ _ EDefault); [exact Hi1|]. simpl. by rewrite Hst. }
  assert (exec (H := elts') ((ls ++ ls1) ++ EBegin :: replicate (S m) (EClient EDefault) ++ [EReturn])
            estart_config = Some c4) as Hex5.
  { rewrite exec_app, Hexc1. eapply exec_step; [exact Hs1|]. by eapply exec_step. }
  exists ls1, c1, (S m), c4, r. split_and!; [done..|lia| |].
  - rewrite Hh4. simpl. by rewrite Hh1.
  - pose proof (event_exec_inv _ _ Hex5) as (ph & fs4 & _ & _ & Hi4).
    eapply einv_history; [exact Hi4|]. rewrite Hh4. set_solver.
Qed.
End preservation.
