(* ===== verification/IoEventEx.v ===== *)
(** * Concrete schedules of an [IoEvent]: witnesses, and what goes wrong *)

From S2P Require Import Prelude Prog Extern Win32 Socket.
From S2P Require Import IoState IoCells IoEvent IoEventSys IoEventThm.

Abbreviation conf := (econfig (option nat) nat).

Definition event0 : IoEvent := {| ev_wait := 48; ev_overlapped := 64; ev_event := 52 |}.

(** A connection and a name resolution. *)
Definition connect0 : ekind := KConnect 512 7 {| sa_bytes := [2; 0; 0; 80; 127; 0; 0; 1; 0; 0; 0; 0; 0; 0; 0; 0]; sa_len := 16 |}.
Definition resolve0 : ekind := KResolve 8192 8208 8224 8240.

(** ** Pieces of schedules *)

Definition eclient_steps (n : nat) : list elabel := replicate n (EClient EDefault).

(** A poll whose operation is left in flight; [n] steps follow the call. *)
Definition epoll_pending (n : nat) : list elabel :=
  EBegin :: eclient_steps 2 ++ EClient (EStart EPending) :: eclient_steps n ++ [EReturn].

Definition run_event_callback : list elabel := EFire :: replicate 6 (ECallback 0) ++ [ERetire 0].

(** A poll that takes the result a callback left, in [n] steps. *)
Definition epoll_take (n : nat) : list elabel := EBegin :: eclient_steps n ++ [EReturn].

Definition ereach (kind : ekind) (ohandle : option HANDLE) (ls : list elabel) : conf :=
  default estart_config (event_exec kind event0 ohandle 7%nat ls).

(** ** Witnesses *)

Lemma event_delivery_witness :
  let ls := epoll_pending 3 ++ EComplete 1225 :: run_event_callback ++ epoll_take 7 in
  let c := ereach connect0 (Some 7) ls in
  event_exec connect0 event0 (Some 7) 7%nat ls = Some c ∧ Ready (Err (OsError 1225)) ∈ ehistory c ∧
  e_outcome (ekn c) = Some (Err (OsError 1225)).
Proof.
  intros ls c.
  assert (event_exec connect0 event0 (Some 7) 7%nat ls = Some c) as Hex by (vm_compute; reflexivity).
  assert (Ready (Err (OsError 1225)) ∈ ehistory c) as Hin by (vm_compute; right; left).
  split; [exact Hex|]. split; [exact Hin|].
  exact (proj1 (proj2 (event_delivery connect0 event0 (Some 7) 7%nat ls c 7 _ Hex eq_refl Hin))).
Defined.

Lemma event_wakes_witness :
  let ls := epoll_pending 3 ++ [EComplete 0] in
  let c := ereach connect0 (Some 7) ls in
  woken (ecl c) = [] ∧
  ∃ ls1 c1 n c2 r, forallb is_pool ls1 = true ∧
    event_exec connect0 event0 (Some 7) 7%nat (ls ++ ls1) = Some c1 ∧ 7%nat ∈ woken (ecl c1) ∧
    event_exec connect0 event0 (Some 7) 7%nat
      ((ls ++ ls1) ++ EBegin :: replicate n (EClient EDefault) ++ [EReturn]) = Some c2 ∧
    (n ≤ 7)%nat ∧ ehistory c2 = ehistory c ++ [Ready r] ∧ correct (Some 7) (ekn c2) r.
Proof.
  intros ls c. split; [vm_compute; reflexivity|].
  apply (event_wakes connect0 event0 (Some 7) 7%nat ls c);
    [vm_compute; reflexivity|vm_compute; reflexivity|vm_compute; discriminate| |vm_compute; reflexivity].
  vm_compute. repeat constructor.
Defined.

(** ** Where the guarantees end *)

(** A future that gives [poll] no handle, as [GetAddrInfoFuture] does,
    never sees the failure of an operation that was pending: the resolution
    ends with an error and its future yields [Ok]. *)
Theorem pending_failure_without_a_handle_is_ok :
  ∃ ls (c : conf), event_exec resolve0 event0 None 7%nat ls = Some c ∧
    e_outcome (ekn c) = Some (Err (OsError 11001)) ∧
    ehistory c = [Pending; Ready (Ok tt)].
Proof.
  exists (epoll_pending 2 ++ EComplete 11001 :: run_event_callback ++ epoll_take 5).
  eexists. split_and!; vm_compute; reflexivity.
Qed.

(** The drop of an [IoEvent] waits until the state is not busy, and
    [READY] is not: the state can be [READY] while the callback is still about
    to call [wake] on the waker cell the drop frees. *)
Theorem event_is_not_busy_before_the_callback_ends :
  ∃ ls (c : conf) p, event_exec connect0 event0 (Some 7) 7%nat ls = Some c ∧
    ewho c = EIdle ∧ ehistory c = [Pending] ∧ ecallbacks c = [p] ∧ next_act p = Some HWake ∧
    ∃ q, tstep (cells_step (esys_step connect0)) EDefault (IoState.is_busy (act := hact nat) (ans := hans)) (ecl c, ekn c) =
         Some (q, (ecl c, ekn c)) ∧ q = Ret false.
Proof.
  exists (epoll_pending 3 ++ EComplete 0 :: EFire :: replicate 5 (ECallback 0)).
  eexists _, _. split_and!; try (vm_compute; reflexivity).
  eexists. split; vm_compute; reflexivity.
Qed.
