(* ===== verification/IoEventType.v ===== *)
(** * The typestate of an [IoEvent]

    The word of an event is an [IoState] like that of a handle, whose seven
    values an event could all store.  It uses five of them, and each party
    makes its own changes only: the task reserves ([IDLE] to [SCHEDULING]), publishes
    ([SCHEDULING] to [PENDING]) and releases (back to [IDLE]); a callback
    claims ([PENDING] to [CALLBACK]) and publishes ([CALLBACK] to [READY]). *)

From S2P Require Import Prelude Prog Extern Win32 Socket.
From S2P Require Import IoState IoCells IoEvent IoEventSys IoEventThm IoEventEx.

(** ** The type *)

(** The states of an event: those of a handle, less the cancelled ones. *)
Definition event_state (st : io_state) : bool :=
  match st with CANCELLED_NOWAIT | CANCELLED_WAIT => false | _ => true end.

Definition task_move (st st' : io_state) : bool :=
  match st, st' with
  | IDLE, SCHEDULING | SCHEDULING, PENDING | SCHEDULING, IDLE | READY, IDLE => true
  | _, _ => bool_decide (st = st')
  end.

Definition callback_move (st st' : io_state) : bool :=
  match st, st' with
  | PENDING, CALLBACK | CALLBACK, READY => true
  | _, _ => bool_decide (st = st')
  end.

(** What each move of the system may do to the word. *)
Definition typed_move (l : elabel) : io_state → io_state → bool :=
  match l with
  | EClient _ => task_move
  | ECallback _ => callback_move
  | _ => λ st st', bool_decide (st = st')
  end.

Lemma task_stays st : task_move st st = true.
Proof. by destruct st. Qed.

Lemma callback_stays st : callback_move st st = true.
Proof. by destruct st. Qed.

#[export] Hint Resolve task_stays callback_stays : core.

Lemma typed_move_state l st st' :
  typed_move l st st' = true → event_state st = true → event_state st' = true.
Proof. by destruct l, st, st'. Qed.

(** ** Every step of an event is typed *)

Section theorems.
Context {W waker : Type} `{AtomicWakerLaws W waker}.
Context (kind : ekind) (self : IoEvent) (ohandle : option HANDLE) (w : waker).
Abbreviation econfig := (econfig W waker).
Abbreviation cells := (cells W waker).
Abbreviation Inv := (event_inv kind self ohandle w).
Abbreviation estep := (event_step kind self ohandle w).
#[local] Instance elts_type : LTS elabel econfig := event_lts kind self ohandle w.

(** The task, in the phase [p] of its poll. *)
Lemma enext_typed (p : ephase) a (c : cells) k fs h p' c' k' :
  einv kind ohandle w (Some p) c k fs h → enext kind ohandle w p a c k = Some (p', (c', k')) →
  task_move (c_state c) (c_state c') = true.
Proof.
  intros Hi Hn.
  assert (match p with
          | EP_idle _ => c_state c = SCHEDULING ∨ c_state c = READY
          | EP_pend => c_state c = SCHEDULING
          | EP_take _ => c_state c = READY
          | _ => True
          end) as Hp.
  { destruct Hi as [Hph _ _ _|Hph _ _ _|r Hst _ _ Hph _ _|_ Hph _];
      destruct p as [| | | | | | | | | | |hd|ret| |[]]; simpl in Hph; naive_solver. }
  destruct c as [st res aw wk], p; simpl in Hn, Hp |- *; repeat case_decide; simplify_eq/=; auto.
  - destruct a as [|a]; [done|]. destruct (estart_op kind a k) as [[z k1]|]; by simplify_eq/=.
  - by destruct Hp as [-> | ->].
  - destruct (equery k) as [[ret k1]|]; by simplify_eq/=.
Qed.

(** A callback, in its phase [f]. *)
Lemma fnext_typed ph f (c : cells) k fs h i f' c' :
  einv kind ohandle w ph c k fs h → fs !! i = Some f → fnext f c = Some (f', c') →
  callback_move (c_state c) (c_state c') = true.
Proof.
  intros Hi Hf Hn.
  assert (f = FReady → c_state c = CALLBACK) as Hp.
  { intros ->. destruct Hi as [_ _ -> _|_ _ Hop _|r _ _ _ _ Hfs _|_ _ Hfs]; [done|..].
    - destruct Hop as [(-> & _)|(g & -> & _ & _ & _ & Hg)]; [done|].
      destruct i as [|i]; simplify_eq/=. by destruct Hg.
    - destruct Hfs as [[-> _]|[[->| ->] _]]; [|done|]; by destruct i as [|i]; simplify_eq/=.
    - by destruct (Forall_lookup_1 _ _ _ _ Hfs Hf). }
  destruct c as [st res aw wk], f; simpl in Hn, Hp |- *; repeat case_decide; simplify_eq/=; auto.
  - by rewrite Hp.
  - destruct (aw_take aw). by simplify_eq/=.
Qed.

Lemma estep_typed l (c c' : econfig) :
  Inv c → estep l c = Some c' → typed_move l (c_state (ecl c)) (c_state (ecl c')) = true.
Proof.
  intros (ph & fs & Hwho & Hcb & Hinv) Hst. destruct l as [|a| |e| |i|i].
  - simpl in *. destruct (ewho c); [|done]. destruct (existsb _ _); simplify_eq/=. by rewrite bool_decide_true.
  - destruct (ewho c) eqn:Hw; [by simpl in Hst; rewrite Hw in Hst|]. destruct ph as [ph|]; [|done].
    unfold client_is in Hwho. injection Hwho as ->.
    pose proof (client_step kind self ohandle w c ph fs a Hinv Hw) as Hs. rewrite Hst in Hs.
    destruct (enext _ _ _ _ _ _ _) as [[ph' [c1 k1]]|] eqn:Hn; [|done]. injection Hs as ->.
    by eapply enext_typed.
  - simpl in *. destruct (ewho c) as [|[]]; simplify_eq/=. by rewrite bool_decide_true.
  - simpl in *. destruct (e_flight (ekn c)); simplify_eq/=. by rewrite bool_decide_true.
  - simpl in *. destruct (e_armed (ekn c) && e_signaled (ekn c)); simplify_eq/=. by rewrite bool_decide_true.
  - simpl in *. rewrite Hcb, list_lookup_fmap in Hst. destruct (fs !! i) as [f|] eqn:Hi; [|done]. simpl in Hst.
    rewrite fnext_step in Hst. destruct (fnext f (ecl c)) as [[f' c1]|] eqn:Hn; simplify_eq/=.
    by eapply fnext_typed.
  - simpl in *. destruct (ecallbacks c !! i) as [[[]| | |]|]; simplify_eq/=. by rewrite bool_decide_true.
Qed.

(** C17. The word of an event is well typed: it is never one of the cancelled
    states, and whatever happens next changes it as the party that moves may
    change it, the task along [IDLE], [SCHEDULING], [PENDING] or back to
    [IDLE], a callback along [PENDING], [CALLBACK], [READY]. *)
Theorem event_typestate ls (c : econfig) :
  event_exec kind self ohandle w ls = Some c →
  event_state (c_state (ecl c)) = true ∧
  ∀ l c', estep l c = Some c' → typed_move l (c_state (ecl c)) (c_state (ecl c')) = true.
Proof.
  intros Hex.
  assert (Inv c ∧ event_state (c_state (ecl c)) = true) as [Hinv Hst].
  { eapply (invariant (H := elts_type) (λ c, Inv c ∧ event_state (c_state (ecl c)) = true) ls c);
      [split; [apply event_inv_start|done]| |exact Hex].
    intros l c1 c2 [Hi Hs] Hst. split; [by eapply event_step_inv|].
    apply (typed_move_state l (c_state (ecl c1))); [by apply estep_typed|done]. }
  split; [done|]. intros l c' Hl. by eapply estep_typed.
Qed.
End theorems.

Lemma event_typestate_witness :
  let ls := epoll_pending 3 ++ EComplete 0 :: EFire :: replicate 2 (ECallback 0) in
  let c := ereach connect0 (Some 7) ls in
  c_state (ecl c) = PENDING ∧ event_state (c_state (ecl c)) = true ∧
  ∃ c', event_step connect0 event0 (Some 7) 7%nat (ECallback 0) c = Some c' ∧ c_state (ecl c') = CALLBACK ∧
    callback_move (c_state (ecl c)) (c_state (ecl c')) = true.
Proof.
  intros ls c. assert (event_exec connect0 event0 (Some 7) 7%nat ls = Some c) as Hex by (vm_compute; reflexivity).
  split; [vm_compute; reflexivity|].
  destruct (event_typestate connect0 event0 (Some 7) 7%nat ls c Hex) as [Hs Ht]. split; [exact Hs|].
  assert (∃ c', event_step connect0 event0 (Some 7) 7%nat (ECallback 0) c = Some c' ∧ c_state (ecl c') = CALLBACK) as (c' & Hc' & Hst').
  { eexists. split; vm_compute; reflexivity. }
  exists c'. split; [exact Hc'|]. split; [exact Hst'|]. exact (Ht (ECallback 0) c' Hc').
Defined.
