(* ===== verification/IoEventRef.v ===== *)
(** * An [IoEvent] refines a future of one operation

    A client of an event may see it as a future whose polls are atomic: it is
    pending until it has been told that its operation is over, wakes its task
    once, and is then ready once, with the outcome if it is polled with a
    handle.  Here is that future, and the
    proof that whatever an event does, in any interleaving, is something the
    future does. *)

From S2P Require Import Prelude Prog Extern Win32 Socket.
From S2P Require Import IoState IoCells IoEvent IoEventSys IoEventThm IoEventEx.

(** ** The future *)

Abbreviation result := (io_result unit).

Inductive stage :=
| New                  (* not polled yet *)
| Waiting              (* the operation is in flight *)
| Over (r : result)    (* it is over *)
| Told (r : result)    (* and the future knows *)
| Done.                (* the future has yielded *)

Record future := {
  f_stage : stage;
  f_subscribed : bool;              (* the task is to be woken *)
  f_outcome : option result;
  f_polls : list (Poll result);
  f_wakes : nat;
}.

Inductive flabel :=
| APoll (p : Poll result)    (* a poll that returns [p] *)
| AEnd (r : result)          (* the operation ends *)
| ATell                      (* the future is told *)
| AWake.                     (* the task is woken *)

Section future.
(** Without a handle the future does not know how the operation ended. *)
Context (ohandle : option HANDLE).

Definition yields (r : result) : result := match ohandle with Some _ => r | None => Ok tt end.

Definition polled (p : Poll result) (s : future) (st : stage) (sub : bool) (o : option result) : future :=
  {| f_stage := st; f_subscribed := sub; f_outcome := o; f_polls := f_polls s ++ [p]; f_wakes := f_wakes s |}.

Definition future_step (l : flabel) (s : future) : option future :=
  match l, f_stage s with
  | APoll Pending, New => Some (polled Pending s Waiting true None)
  | APoll (Ready r), New => Some (polled (Ready r) s Done false (Some r))
  | APoll Pending, (Waiting | Over _) => Some (polled Pending s (f_stage s) true (f_outcome s))
  | APoll (Ready r'), Told r =>
      if decide (r' = yields r) then Some (polled (Ready r') s Done (f_subscribed s) (f_outcome s)) else None
  | AEnd r, Waiting =>
      Some {| f_stage := Over r; f_subscribed := f_subscribed s; f_outcome := Some r;
              f_polls := f_polls s; f_wakes := f_wakes s |}
  | ATell, Over r =>
      Some {| f_stage := Told r; f_subscribed := f_subscribed s; f_outcome := f_outcome s;
              f_polls := f_polls s; f_wakes := f_wakes s |}
  | AWake, (Told _ | Done) =>
      if f_subscribed s then
        Some {| f_stage := f_stage s; f_subscribed := false; f_outcome := f_outcome s;
                f_polls := f_polls s; f_wakes := S (f_wakes s) |}
      else None
  | _, _ => None
  end.

#[export] Instance future_lts : LTS flabel future := {
  linit := {| f_stage := New; f_subscribed := false; f_outcome := None; f_polls := []; f_wakes := 0 |};
  lstep := future_step;
}.
Definition future_exec (ls : list flabel) : option future :=
  exec (H := future_lts) ls (linit (LTS := future_lts)).

(** *** What the future promises *)

Definition pendings (l : list (Poll result)) : Prop := Forall (λ p, p = Pending) l.

(** At least one poll, and all of them pending. *)
Definition waited (l : list (Poll result)) : Prop := l ≠ [] ∧ pendings l.

Lemma waited_snoc l : pendings l → waited (l ++ [Pending]).
Proof. intros Hl. split; [by destruct l|]. apply Forall_app. split; [done|by repeat constructor]. Qed.

(** Between the polls that wait and the one that yields the task is woken once,
    at most and not before the operation is over; a first poll may also yield
    at once, and then nobody is woken. *)
Definition future_inv (s : future) : Prop :=
  match f_stage s with
  | New => s = linit (LTS := future_lts)
  | Waiting => f_outcome s = None ∧ f_subscribed s = true ∧ f_wakes s = 0%nat ∧ waited (f_polls s)
  | Over r => f_outcome s = Some r ∧ f_subscribed s = true ∧ f_wakes s = 0%nat ∧ waited (f_polls s)
  | Told r => f_outcome s = Some r ∧ f_wakes s = (if f_subscribed s then 0%nat else 1%nat) ∧ waited (f_polls s)
  | Done => ∃ r l r', f_outcome s = Some r ∧ f_polls s = l ++ [Ready r'] ∧
      (r' = yields r ∧ waited l ∧ f_wakes s = (if f_subscribed s then 0%nat else 1%nat) ∨
       r' = r ∧ l = [] ∧ f_subscribed s = false ∧ f_wakes s = 0%nat)
  end.

Lemma future_step_inv : preserved (H := future_lts) future_inv.
Proof.
  intros l s s' Hs Hst. unfold lstep, future_lts, future_step, future_inv in *.
  destruct s as [st sub o ps n], l as [[r|]|r| |]; destruct st as [| |r0|r0|]; simpl in *; try done;
    repeat case_decide; simplify_eq/=.
  - exists r, [], r. split_and!; [done|done|by right].
  - destruct Hs as (-> & -> & Hps). eexists r0, ps, _. split_and!; [done..|by left].
  - split_and!; [done..|]. by apply (waited_snoc []); constructor.
  - destruct Hs as (-> & _ & -> & _ & Hps). split_and!; [done..|]. by apply waited_snoc.
  - destruct Hs as (-> & _ & -> & _ & Hps). split_and!; [done..|]. by apply waited_snoc.
  - by destruct Hs as (_ & -> & -> & Hps).
  - by destruct Hs as (-> & -> & -> & Hps).
  - destruct sub; simplify_eq/=. by destruct Hs as (-> & -> & Hps).
  - destruct sub; simplify_eq/=. destruct Hs as (r & l & r' & -> & -> & [(-> & Hl & ->)|(_ & _ & ? & _)]); [|done].
    eexists r, l, _. split_and!; [done..|by left].
Qed.

(** The result a future is ready with. *)
Lemma future_ready s r' :
  future_inv s → Ready r' ∈ f_polls s →
  f_outcome s = Some r' ∨ (ohandle = None ∧ r' = Ok tt ∧ is_Some (f_outcome s)).
Proof.
  assert (∀ l, pendings l → Ready r' ∈ l → False) as Hno.
  { intros l Hl Hr. by pose proof (proj1 (Forall_forall _ _) Hl _ Hr). }
  intros Hs Hr. unfold future_inv in Hs. destruct (f_stage s) as [| |r|r|] eqn:Hst.
  - rewrite Hs in Hr. by apply not_elem_of_nil in Hr.
  - destruct Hs as (_ & _ & _ & _ & Hl). by destruct (Hno _ Hl).
  - destruct Hs as (_ & _ & _ & _ & Hl). by destruct (Hno _ Hl).
  - destruct Hs as (_ & _ & _ & Hl). by destruct (Hno _ Hl).
  - destruct Hs as (r & l & r1 & -> & Hp & Hc). rewrite Hp in Hr.
    apply elem_of_app in Hr as [Hr|Hr%list_elem_of_singleton].
    + destruct Hc as [(_ & [_ Hl] & _)|(_ & -> & _)]; [by destruct (Hno _ Hl)|by apply not_elem_of_nil in Hr].
    + injection Hr as ->. destruct Hc as [(-> & _)|(-> & _)]; [|by left]. unfold yields.
      destruct ohandle; [by left|by right].
Qed.

Lemma future_exec_inv ls s : future_exec ls = Some s → future_inv s.
Proof. intros Hex. by apply (invariant (H := future_lts) future_inv ls s); [|apply future_step_inv|]. Qed.
End future.

(** ** The future an event is *)

Section mapping.
Context {W waker : Type} `{AtomicWakerLaws W waker}.
Context (kind : ekind) (self : IoEvent) (ohandle : option HANDLE) (w : waker).
Abbreviation econfig := (econfig W waker).
Abbreviation cells := (cells W waker).
Implicit Types (ph : option ephase) (c : cells) (k : ekernel) (fs : list fphase) (h : list (Poll result)).
#[local] Instance flts : LTS flabel future := future_lts ohandle.
Abbreviation fexec := (exec (H := flts)).

(** The poll in progress has the result, or has nothing to do with it. *)
Definition yielding ph c k : bool :=
  match ph with
  | None => bool_decide (c_state c = IDLE)
  | Some EP_error => negb (bool_decide (e_error k = WSA_IO_PENDING))
  | Some (EP_idle _ | EP_report | EP_done (Ready _)) => true
  | _ => false
  end.

Definition stage_of ph c k : stage :=
  match e_outcome k with
  | None => if e_flight k then Waiting else New
  | Some r => if decide (c_state c = READY) then Told r else if yielding ph c k then Done else Over r
  end.

(** The poll in progress takes effect before it returns: when the operation
    is started or its state is read, or when the result is taken. *)
Definition in_progress ph k (st : stage) : list (Poll result) :=
  match st, ph with
  | (Waiting | Over _ | Told _),
    Some (EP_schedule | EP_wait | EP_error | EP_register | EP_pend | EP_done Pending) => [Pending]
  | Done, Some EP_error =>
      [Ready (if success kind (e_error k) then Ok tt else Err (OsError (e_error k)))]
  | Done, Some (EP_idle r | EP_done (Ready r)) => [Ready r]
  | Done, Some EP_report => [Ready (Err (OsError (e_error k)))]
  | _, _ => []
  end.

Definition subscribed (st : stage) fs : bool :=
  match st with
  | New => false
  | Waiting | Over _ => true
  | Told _ | Done => bool_decide (FWake ∈ fs)
  end.

Definition future_of ph c k fs h : future :=
  let st := stage_of ph c k in
  {| f_stage := st; f_subscribed := subscribed st fs; f_outcome := e_outcome k;
     f_polls := h ++ in_progress ph k st; f_wakes := length (woken c) |}.

(** *** The invariant of an event, with what the mapping needs *)

Definition unstarted ph c h : Prop :=
  match ph with
  | None | Some (EP_start | EP_schedule) => c_state c = IDLE ∧ h = []
  | Some EP_call => True
  | _ => False
  end.

Definition one_wake c fs : Prop :=
  ∀ i, fs !! i = Some FWake → has_waker w c ∧ ∀ j, fs !! j = Some FWake → i = j.

Record minv ph c k fs h : Prop := {
  m_inv : einv kind ohandle w ph c k fs h;
  m_outcome : e_outcome k = None ↔ e_flight k = true ∨ unstarted ph c h;
  m_wake : one_wake c fs;
  m_query : match ph with Some (EP_query _ | EP_take _) => ohandle ≠ None | _ => True end;
}.

Lemma one_wake_none c fs : FWake ∉ fs → one_wake c fs.
Proof. intros Hfs i Hi%list_elem_of_lookup_2. done. Qed.

Lemma one_wake_single c f : has_waker w c → one_wake c [f].
Proof. intros Hw [|i] Hi; [|done]. split; [done|]. by intros [|j]. Qed.

(** A step the future does not see. *)
Lemma unseen s s' : s = s' → ∃ ls, fexec ls s = Some s'.
Proof. intros ->. by exists []. Qed.

Lemma seen l s s' : future_step ohandle l s = Some s' → ∃ ls, fexec ls s = Some s'.
Proof. intros Hst. exists [l]. simpl. unfold lstep, flts, future_lts. by rewrite Hst. Qed.

(** *** The stages *)

Lemma started_stage ph c k fs h :
  minv ph c k fs h → started kind ph (c_state c) (e_error k) → on_its_way c k fs →
  stage_of ph c k = match e_outcome k with None => Waiting | Some r => Over r end ∧
  (e_outcome k = None ↔ e_flight k = true).
Proof.
  intros Hm Hph Hop. unfold stage_of.
  assert (c_state c ≠ READY ∧ c_state c ≠ IDLE) as [Hr Hi].
  { by destruct (on_its_way_state _ _ _ Hop) as [->|[->| ->]]. }
  assert (e_outcome k = None ↔ e_flight k = true) as Ho.
  { rewrite (m_outcome _ _ _ _ _ Hm). split; [intros [?|Hu]; [done|]|by left].
    by destruct ph as [[]|]; simpl in Hu, Hph; try (by destruct Hu). }
  split; [|done]. destruct (e_outcome k) as [r|] eqn:Hout.
  - rewrite decide_False by done.
    assert (yielding ph c k = false) as ->; [|done].
    destruct ph as [[| | | | | | | | | | | | | |[]]|]; simpl in Hph |- *; try done.
    + destruct Hph as (_ & -> & _). done.
    + by rewrite bool_decide_false.
  - by rewrite (proj1 Ho).
Qed.

Lemma ready_stage ph c k r : c_state c = READY → e_outcome k = Some r → stage_of ph c k = Told r.
Proof. intros Hs Ho. unfold stage_of. by rewrite Ho, Hs. Qed.

Lemma over_stage ph c k fs h :
  minv ph c k fs h → e_flight k = false → over kind ohandle ph (c_state c) k h →
  stage_of ph c k = Done ∧ e_outcome k ≠ None.
Proof.
  intros Hm Hf Hph.
  assert (e_outcome k ≠ None) as Ho.
  { rewrite (m_outcome _ _ _ _ _ Hm). intros [?|Hu]; [congruence|].
    destruct ph as [[]|]; simpl in Hu, Hph; try done. destruct Hph as (_ & h' & r & -> & _), Hu as [_ Hu].
    by destruct h'. }
  split; [|done]. unfold stage_of. destruct (e_outcome k) as [r|]; [|done].
  assert (c_state c ≠ READY ∧ yielding ph c k = true) as [Hs ->]; [|by rewrite decide_False].
  destruct ph as [[| | | | | | | | | | | | | |[]]|]; simpl in Hph |- *; try done.
  - destruct Hph as (-> & _ & ? & _). split; [done|]. by rewrite bool_decide_false.
  - by destruct Hph as (-> & _).
  - by destruct Hph as (-> & _).
  - by destruct Hph as (-> & _).
  - destruct Hph as (-> & _). by rewrite bool_decide_true.
Qed.

(** *** The client's moves *)

Lemma start_outcome a k z k' : estart_op kind a k = Some (z, k') → e_outcome k' = None ↔ a = EPending.
Proof. destruct a; simpl; [| |case_decide]; intros; by simplify_eq/=. Qed.

(** What the move leaves to show: the mapping needs its own facts again. *)
Lemma mapped ph c k fs h ph' c' k' fs' h' :
  einv kind ohandle w ph' c' k' fs' h' →
  (e_outcome k' = None ↔ e_flight k' = true ∨ unstarted ph' c' h') → one_wake c' fs' →
  match ph' with Some (EP_query _ | EP_take _) => ohandle ≠ None | _ => True end →
  (minv ph' c' k' fs' h' → ∃ ls, fexec ls (future_of ph c k fs h) = Some (future_of ph' c' k' fs' h')) →
  minv ph' c' k' fs' h' ∧ ∃ ls, fexec ls (future_of ph c k fs h) = Some (future_of ph' c' k' fs' h').
Proof. intros Hi Ho Hw Hq Hls. assert (minv ph' c' k' fs' h') as Hm by done. auto. Qed.

Lemma client_new_step (p : ephase) c k fs h a p' c' k' :
  minv (Some p) c k fs h →
  match p with EP_start | EP_schedule => c_state c = IDLE | EP_call => c_state c = SCHEDULING | _ => False end →
  e_flight k = false → fs = [] → h = [] → enext kind ohandle w p a c k = Some (p', (c', k')) →
  minv (Some p') c' k' fs h ∧ ∃ ls, fexec ls (future_of (Some p) c k fs h) = Some (future_of (Some p') c' k' fs h).
Proof.
  intros Hm Hp Hf -> -> Hn. pose proof (client_inv _ _ _ _ _ _ _ _ _ _ _ _ (m_inv _ _ _ _ _ Hm) Hn) as Hi.
  assert (e_outcome k = None) as Ho.
  { apply (m_outcome _ _ _ _ _ Hm). right. by destruct p. }
  assert (stage_of (Some p) c k = New) as Hs by (unfold stage_of; by rewrite Ho, Hf).
  destruct p; try done; simpl in Hn.
  - rewrite Hp in Hn. simplify_eq/=. apply mapped; [done| |by apply one_wake_none, not_elem_of_nil|done|].
    { split; [by right|done]. }
    intros _. apply unseen. unfold future_of. unfold stage_of. by rewrite Ho, Hf.
  - rewrite Hp in Hn. simplify_eq/=. apply mapped; [done| |by apply one_wake_none, not_elem_of_nil|done|].
    { split; [by right|done]. }
    intros _. apply unseen. unfold future_of. unfold stage_of. by rewrite Ho, Hf.
  - destruct a as [|a]; [done|]. destruct (estart_op kind a k) as [[z k1]|] eqn:Hz; simplify_eq/=.
    pose proof (start_outcome _ _ _ _ Hz) as Hout. destruct (start_cases _ _ _ _ _ Hz) as [_ Hcase].
    assert (let st := match e_outcome k' with Some _ => Done | None => Waiting end in
      stage_of (Some (after_start kind z)) c' k' = st ∧
      in_progress (Some (after_start kind z)) k' st =
        [match e_outcome k' with Some r => Ready r | None => Pending end]) as [Hs' Hpr].
    { unfold stage_of. rewrite Hp. destruct a as [| |e]; simpl.
      - by destruct Hcase as (-> & -> & ->).
      - destruct Hcase as (Hcase & -> & _). rewrite (proj2 Hout) by done. by destruct Hcase as [->|[-> _]].
      - destruct Hcase as (Hcase & -> & ->). destruct Hcase as [->|(-> & Her & He)]; [done|].
        simpl. by rewrite Her, bool_decide_false. }
    apply mapped; [done| |by apply one_wake_none, not_elem_of_nil| |].
    + rewrite Hout. destruct a as [| |e].
      * destruct Hcase as (-> & -> & _). naive_solver.
      * destruct Hcase as (_ & -> & _). naive_solver.
      * destruct Hcase as (Hcase & -> & _). by destruct Hcase as [->|(-> & _)]; naive_solver.
    + unfold after_start. destruct kind; by repeat case_decide.
    + intros _. unfold future_of. rewrite Hs, Hs', Hpr, Ho. simpl.
      destruct (e_outcome k') as [r|] eqn:Hr.
      * by apply (seen (APoll (Ready r))).
      * by apply (seen (APoll Pending)).
Qed.

(** While the operation is on its way the stage depends on the system only. *)
Lemma started_future ph c k fs h ph' c' :
  started kind ph' (c_state c') (e_error k) → on_its_way c' k fs →
  minv ph' c' k fs h → let st := match e_outcome k with None => Waiting | Some r => Over r end in
  future_of ph' c' k fs h =
    {| f_stage := st; f_subscribed := true; f_outcome := e_outcome k;
       f_polls := h ++ in_progress ph' k st; f_wakes := length (woken c') |}.
Proof.
  intros Hph Hop Hm st. unfold future_of. destruct (started_stage _ _ _ _ _ Hm Hph Hop) as [-> _].
  subst st. by destruct (e_outcome k).
Qed.

Lemma started_outcome ph c k fs h ph' c' :
  minv ph c k fs h → started kind ph (c_state c) (e_error k) → on_its_way c k fs →
  started kind ph' (c_state c') (e_error k) → (c_state c' = IDLE → c_state c = IDLE) →
  e_outcome k = None ↔ e_flight k = true ∨ unstarted ph' c' h.
Proof.
  intros Hm Hph Hop Hph' Hst. destruct (started_stage _ _ _ _ _ Hm Hph Hop) as [_ Ho].
  rewrite Ho. split; [by left|]. intros [?|Hu]; [done|].
  assert (c_state c ≠ IDLE) as Hi by (by destruct (on_its_way_state _ _ _ Hop) as [->|[->| ->]]).
  destruct ph' as [[]|]; simpl in Hu, Hph'; try done; by destruct Hu as [Hu%Hst _].
Qed.

Lemma client_started_step (p : ephase) c k fs h a p' c' k' :
  minv (Some p) c k fs h → started kind (Some p) (c_state c) (e_error k) → on_its_way c k fs →
  enext kind ohandle w p a c k = Some (p', (c', k')) →
  minv (Some p') c' k' fs h ∧ ∃ ls, fexec ls (future_of (Some p) c k fs h) = Some (future_of (Some p') c' k' fs h).
Proof.
  intros Hm Hph Hop Hn. pose proof (client_inv _ _ _ _ _ _ _ _ _ _ _ _ (m_inv _ _ _ _ _ Hm) Hn) as Hi.
  pose proof (on_its_way_state _ _ _ Hop) as Hst.
  assert (∀ f, fs !! f ≠ Some FWake) as Hno.
  { intros i Hi'. destruct Hop as [(-> & _)|(f & -> & _ & _ & _ & Hf)]; [done|]. destruct i; by simplify_eq/=. }
  assert (k' = k ∧ started kind (Some p') (c_state c') (e_error k) ∧ on_its_way c' k fs ∧
    (c_state c' = IDLE → c_state c = IDLE) ∧ woken c' = woken c ∧
    (p = EP_start ∧ p' = EP_schedule ∨ (∀ st, st ≠ Done → in_progress (Some p') k st = in_progress (Some p) k st)))
    as (-> & Hph' & Hop' & Hidle & Hw & Hp).
  { destruct p as [| | | | | | | | | | | | | |[]]; simpl in Hph; try done; simpl in Hn.
    - rewrite decide_False in Hn by (by destruct Hst as [->|[->| ->]]). simplify_eq/=. by split_and!; auto.
    - rewrite decide_False in Hn by (by destruct Hst as [->|[->| ->]]). simplify_eq/=. split_and!; auto.
    - destruct Hph as (Hs & He & Hnot). rewrite He, Hnot, decide_True in Hn by done. simplify_eq/=.
      split_and!; auto. right. by intros [].
    - simplify_eq/=. split_and!; auto.
    - simplify_eq/=. split_and!; [done|done| |by intros|done|by auto].
      destruct Hop as [(-> & _ & ? & ?)|(f & -> & ? & ? & ? & Hf)]; [left; simpl; auto 10|].
      right. exists f. split_and!; [done..|].
      destruct f; simpl in Hf |- *; rewrite ?Hph in Hf; auto; try done; by destruct Hf.
    - simplify_eq/=. split_and!; auto. }
  apply mapped; [done| | | |].
  - by eapply started_outcome.
  - intros i Hi'. by destruct (Hno i).
  - by destruct p'.
  - intros Hm'. rewrite (started_future (Some p) c k fs h) by done.
    rewrite (started_future (Some p) c k fs h (Some p') c') by done. rewrite Hw.
    destruct Hp as [[-> ->]|Hp]; [|apply unseen; rewrite Hp by (by destruct (e_outcome k)); done].
    apply (seen (APoll Pending)). destruct (e_outcome k); simpl; by rewrite app_nil_r.
Qed.

Lemma one_wake_kept c c' fs : (has_waker w c → has_waker w c') → one_wake c fs → one_wake c' fs.
Proof. intros Hw Ho i Hi. destruct (Ho i Hi) as [? Hu]. auto. Qed.

(** A poll that goes on after the operation is over has started before. *)
Definition resumed (p : ephase) : bool := match p with EP_start | EP_schedule | EP_call => false | _ => true end.

Lemma resumed_outcome (p : ephase) c k h :
  resumed p = true → e_outcome k ≠ None → e_flight k = false →
  e_outcome k = None ↔ e_flight k = true ∨ unstarted (Some p) c h.
Proof. intros Hp Ho Hf. split; [done|]. rewrite Hf. intros [?|Hu]; [done|]. by destruct p. Qed.

Lemma client_ready_step (p : ephase) c k fs h r a p' c' k' :
  minv (Some p) c k fs h → c_state c = READY → e_flight k = false → e_outcome k = Some r → good r →
  published ohandle (Some p) k r → enext kind ohandle w p a c k = Some (p', (c', k')) →
  minv (Some p') c' k' fs h ∧ ∃ ls, fexec ls (future_of (Some p) c k fs h) = Some (future_of (Some p') c' k' fs h).
Proof.
  intros Hm Hst Hf Ho Hg Hph Hn. pose proof (client_inv _ _ _ _ _ _ _ _ _ _ _ _ (m_inv _ _ _ _ _ Hm) Hn) as Hi.
  pose proof (m_query _ _ _ _ _ Hm) as Hq.
  assert (e_outcome k' = Some r ∧ e_flight k' = false ∧ resumed p' = true ∧ woken c' = woken c ∧
    (has_waker w c → has_waker w c') ∧ match p' with EP_query _ | EP_take _ => ohandle ≠ None | _ => True end ∧
    (c_state c' = READY ∧ in_progress (Some p') k' (Told r) = in_progress (Some p) k (Told r) ∨
     stage_of (Some p') c' k' = Done ∧ in_progress (Some p) k (Told r) = [] ∧
     in_progress (Some p') k' Done = [Ready (yields ohandle r)]))
    as (Ho' & Hf' & Hres & Hwk & Hhw & Hq' & Hp).
  { destruct p as [| | | | | | | | | | |hd|ret| |[]]; simpl in Hph; try done; simpl in Hn, Hq.
    - rewrite Hst in Hn. simplify_eq/=. split_and!; auto.
    - rewrite Hst in Hn. simplify_eq/=. split_and!; auto.
    - simplify_eq/=. destruct Hph as (_ & Hnone & ->). split_and!; auto. right. unfold stage_of, yields.
      by rewrite Ho, Hnone.
    - simplify_eq/=. split_and!; auto. intros _. apply register_has_waker.
    - simplify_eq/=. split_and!; auto.
    - simplify_eq/=. split_and!; auto.
    - simplify_eq/=. destruct ohandle as [hd|] eqn:Hh; split_and!; auto.
    - unfold equery in Hn. rewrite Hf, Ho in Hn. destruct r as [[]|[x|]]; simplify_eq/=; split_and!; auto.
    - simplify_eq/=. destruct Hph as [_ Hr]. unfold yields. destruct ohandle as [hd|]; [|done].
      destruct r as [[]|[x|]]; simpl in Hr; [| |done].
      + subst ret. split_and!; auto. right. unfold stage_of. by rewrite Ho.
      + destruct Hr as [-> Hx]. destruct (decide (FALSE ≠ 0)) as [Hne|_]; [by destruct Hne|]. split_and!; auto. right.
        unfold stage_of. simpl. by rewrite Ho, Hx. }
  apply mapped; [done|apply resumed_outcome; [done|by rewrite Ho'|done]| |done|].
  { eapply one_wake_kept; [exact Hhw|by apply (m_wake _ _ _ _ _ Hm)]. }
  intros Hm'. unfold future_of. rewrite (ready_stage _ _ _ r Hst Ho), Hwk, Ho, Ho'.
  destruct Hp as [[Hst' Hp]|(-> & Hp & Hp')].
  - rewrite (ready_stage _ _ _ r Hst' Ho'). apply unseen. by rewrite Hp.
  - rewrite Hp, Hp', app_nil_r. apply (seen (APoll (Ready (yields ohandle r)))). simpl. by rewrite decide_True.
Qed.

Lemma client_over_step (p : ephase) c k fs h a p' c' k' :
  minv (Some p) c k fs h → e_flight k = false → over kind ohandle (Some p) (c_state c) k h →
  enext kind ohandle w p a c k = Some (p', (c', k')) →
  minv (Some p') c' k' fs h ∧ ∃ ls, fexec ls (future_of (Some p) c k fs h) = Some (future_of (Some p') c' k' fs h).
Proof.
  intros Hm Hf Hph Hn. pose proof (client_inv _ _ _ _ _ _ _ _ _ _ _ _ (m_inv _ _ _ _ _ Hm) Hn) as Hi.
  destruct (over_stage _ _ _ _ _ Hm Hf Hph) as [Hs Ho].
  assert (k' = k ∧ resumed p' = true ∧ woken c' = woken c ∧ c_waker c' = c_waker c ∧ c_state c' ≠ READY ∧
    yielding (Some p') c' k = true ∧ in_progress (Some p') k Done = in_progress (Some p) k Done)
    as (-> & Hres & Hwk & Hw & Hst & Hy & Hp).
  { destruct p as [| | | | | | | | | | | | | |[]]; simpl in Hph; try done; simpl in Hn.
    - destruct Hph as (Hst & ? & Hne & _). rewrite decide_False in Hn by done.
      destruct (success kind (e_error k)) eqn:Hsu; simplify_eq/=; rewrite Hst, ?Hsu; by split_and!.
    - by simplify_eq/=.
    - simplify_eq/=. destruct Hph as (Hst & _ & _ & He). rewrite He, Hst. by split_and!. }
  apply mapped; [done|by apply resumed_outcome| |by destruct p'|].
  { eapply one_wake_kept; [|by apply (m_wake _ _ _ _ _ Hm)]. unfold has_waker. by rewrite Hw. }
  intros Hm'. unfold future_of. rewrite Hs, Hwk. apply unseen.
  assert (stage_of (Some p') c' k = Done) as ->; [|by rewrite Hp].
  unfold stage_of. destruct (e_outcome k); [|done]. by rewrite decide_False, Hy.
Qed.

(** *** The moves of the callbacks and of the system *)

Lemma one_wake_insert c c' fs i f' :
  one_wake c fs → (has_waker w c → has_waker w c') → f' ≠ FWake → one_wake c' (<[i := f']> fs).
Proof.
  intros Ho Hw Hf j [(_ & ? & _)|[_ Hj]]%list_lookup_insert_Some; [done|].
  destruct (Ho j Hj) as [Hwj Hu]. split; [by apply Hw|].
  intros j' [(_ & ? & _)|[_ Hj']]%list_lookup_insert_Some; [done|]. by apply Hu.
Qed.

Lemma wake_taken c fs i f' : one_wake c fs → fs !! i = Some FWake → f' ≠ FWake → FWake ∉ <[i := f']> fs.
Proof.
  intros Ho Hi Hf [j [(_ & ? & _)|[Hne Hj]]%list_lookup_insert_Some]%list_elem_of_lookup; [done|].
  destruct (Ho i Hi) as [_ Hu]. by apply Hne, Hu.
Qed.

Lemma wake_stays fs i f f' :
  fs !! i = Some f → f ≠ FWake → f' ≠ FWake → (FWake ∈ <[i := f']> fs ↔ FWake ∈ fs).
Proof.
  intros Hi Hf Hf'. rewrite !list_elem_of_lookup. split; intros [j Hj].
  - apply list_lookup_insert_Some in Hj as [(_ & ? & _)|[_ Hj]]; [done|by exists j].
  - exists j. rewrite list_lookup_insert_ne; [done|]. congruence.
Qed.

(** A callback before it publishes. *)
Lemma callback_started_step ph c k h f f' c' :
  minv ph c k [f] h → started kind ph (c_state c) (e_error k) → (registered ph = true → has_waker w c) →
  e_armed k = false → e_flight k = false → ended k → fired f (c_state c) (c_result c) →
  fnext f c = Some (f', c') →
  minv ph c' k [f'] h ∧ ∃ ls, fexec ls (future_of ph c k [f] h) = Some (future_of ph c' k [f'] h).
Proof.
  intros Hm Hph Hw Ha Hf Hend Hfi Hn.
  assert (on_its_way c k [f]) as Hop by (right; by exists f).
  destruct (started_stage _ _ _ _ _ Hm Hph Hop) as [Hs Hiff].
  assert (einv kind ohandle w ph c' k [f'] h) as Hi by exact (callback_inv kind ohandle w ph c k [f] h 0 f f' c' (m_inv _ _ _ _ _ Hm) eq_refl Hn).
  assert (c_waker c' = c_waker c ∧ woken c' = woken c ∧
    (f' = FWake ∧ c_state c' = READY ∧ registered ph = true ∨
     f' ≠ FWake ∧ started kind ph (c_state c') (e_error k) ∧ fired f' (c_state c') (c_result c'))) as (Hwk & Hwo & Hcase).
  { clear Hm Hop Hs Hiff Hi Hw. destruct c as [st res aw wk], f; simpl in Hn, Hfi, Hph; try done.
    - simplify_eq/=. split_and!; auto.
    - case_decide as Hd; simplify_eq/=; split_and!; auto; right; split_and!; auto. by destruct Hfi.
    - subst st. simplify_eq/=. split_and!; auto. right. split_and!; auto.
      by destruct ph as [[| | | | | | | | | | | | | |[]]|]; simpl in Hph |- *; explode.
    - simplify_eq/=. split_and!; auto.
    - destruct Hfi as [-> ->]. simplify_eq/=. split_and!; auto. left. split_and!; auto.
      by destruct ph as [[]|]; simpl in Hph |- *; explode. }
  apply mapped; [done| | |by apply (m_query _ _ _ _ _ Hm)|].
  - rewrite Hiff. split; [by left|]. intros [?|Hu]; [done|]. destruct Hcase as [(_ & Hst & _)|(_ & Hph' & Hf')].
    + by destruct ph as [[]|]; simpl in Hu, Hph; try done; destruct Hu as [Hu _]; rewrite Hst in Hu.
    + destruct f'; simpl in Hf'; destruct ph as [[]|]; simpl in Hu, Hph; try done; destruct Hu as [Hu _];
        rewrite Hu in Hf'; naive_solver.
  - destruct Hcase as [(-> & _ & Hreg)|(Hf' & _)].
    + apply one_wake_single. unfold has_waker. rewrite Hwk. by apply Hw.
    + apply one_wake_none. by intros ?%list_elem_of_singleton.
  - intros Hm'. destruct Hend as (r & Ho & Hg). unfold future_of at 1. rewrite Hs, Ho.
    destruct Hcase as [(-> & Hst & _)|(_ & Hph' & Hf')].
    + unfold future_of. rewrite (ready_stage _ _ _ r Hst Ho), Hwo, Ho.
      assert (subscribed (Told r) [FWake] = true) as -> by (apply bool_decide_eq_true; set_solver). by apply (seen ATell).
    + assert (on_its_way c' k [f']) as Hop' by (right; exists f'; split_and!; [done..|by exists r|done]).
      unfold future_of. destruct (started_stage _ _ _ _ _ Hm' Hph' Hop') as [-> _]. rewrite Ho, Hwo. by apply unseen.
Qed.

(** The callback that wakes the task. *)
Lemma wake_step ph c k fs h i c' :
  minv ph c k fs h → fs !! i = Some FWake → fnext FWake c = Some (FEnd, c') →
  (∃ r, stage_of ph c k = Told r) ∨ stage_of ph c k = Done →
  minv ph c' k (<[i := FEnd]> fs) h ∧
  ∃ ls, fexec ls (future_of ph c k fs h) = Some (future_of ph c' k (<[i := FEnd]> fs) h).
Proof.
  intros Hm Hi Hn Hs. pose proof (m_wake _ _ _ _ _ Hm) as Ho. destruct (Ho i Hi) as [Hw _].
  assert (einv kind ohandle w ph c' k (<[i := FEnd]> fs) h) as Hi' by (eapply callback_inv; [apply Hm|done|done]).
  simpl in Hn. unfold has_waker in Hw. destruct (aw_take (c_waker c)) as [o aw]; simpl in Hw; simplify_eq/=.
  apply mapped; [done| | |by apply (m_query _ _ _ _ _ Hm)|].
  - exact (m_outcome _ _ _ _ _ Hm).
  - by apply one_wake_none, (wake_taken c).
  - intros Hm'. unfold future_of.
    assert (stage_of ph (Build_cells (c_state c) (c_result c) aw (woken c ++ [w])) k = stage_of ph c k) as -> by done.
    assert (∀ l, FWake ∈ l → (∃ r, stage_of ph c k = Told r) ∨ stage_of ph c k = Done → subscribed (stage_of ph c k) l = true) as Hsub.
    { intros l Hl [[r ->]| ->]; by apply bool_decide_eq_true. }
    assert (subscribed (stage_of ph c k) (<[i := FEnd]> fs) = false) as ->.
    { assert (FWake ∉ <[i := FEnd]> fs) by (by apply (wake_taken c)). by destruct Hs as [[r ->]| ->]; apply bool_decide_eq_false. }
    rewrite Hsub by (done || by eapply list_elem_of_lookup_2). simpl. rewrite length_app, Nat.add_1_r.
    apply (seen AWake). by destruct Hs as [[r ->]| ->].
Qed.

(** Any other move of a callback once the operation is over. *)
Lemma idle_callback_step ph c k fs h i f f' c' :
  minv ph c k fs h → fs !! i = Some f → fnext f c = Some (f', c') → f ≠ FWake → f' ≠ FWake →
  c_state c' = c_state c → woken c' = woken c → c_waker c' = c_waker c → stage_of ph c k = Done →
  minv ph c' k (<[i := f']> fs) h ∧
  ∃ ls, fexec ls (future_of ph c k fs h) = Some (future_of ph c' k (<[i := f']> fs) h).
Proof.
  intros Hm Hi Hn Hf Hf' Hst Hwo Hwk Hs.
  assert (stage_of ph c' k = Done) as Hs'.
  { rewrite <- Hs. unfold stage_of, yielding. by rewrite Hst. }
  apply mapped; [by eapply callback_inv; [apply Hm|..]| | |by apply (m_query _ _ _ _ _ Hm)|].
  - rewrite (m_outcome _ _ _ _ _ Hm). unfold unstarted. by rewrite Hst.
  - eapply one_wake_insert; [apply Hm| |done]. unfold has_waker. by rewrite Hwk.
  - intros Hm'. unfold future_of. rewrite Hs, Hs', Hwo. apply unseen.
    assert (subscribed Done (<[i := f']> fs) = subscribed Done fs) as ->; [|done].
    apply bool_decide_ext. by eapply wake_stays.
Qed.

Lemma callback_seen ph c k fs h i f f' c' :
  minv ph c k fs h → fs !! i = Some f → fnext f c = Some (f', c') →
  minv ph c' k (<[i := f']> fs) h ∧
  ∃ ls, fexec ls (future_of ph c k fs h) = Some (future_of ph c' k (<[i := f']> fs) h).
Proof.
  intros Hm Hi Hn.
  assert (f = FWake → f' = FEnd) as Hend.
  { intros ->. simpl in Hn. by destruct (aw_take _); simplify_eq/=. }
  pose proof Hm as Hm0. destruct (m_inv _ _ _ _ _ Hm) as [Hph Hk -> ->|Hph Hw Hop Hh|r Hst Hres (Hf & Ho & Hg) Hph Hfs Hh|Hk Hph Hfs]; [done|..].
  - destruct Hop as [(-> & _)|(g & -> & Ha & Hf & He & Hg)]; [done|].
    destruct i as [|i]; simplify_eq/=. by eapply callback_started_step.
  - destruct Hfs as [[-> Hw]|[[->| ->] _]]; [|done|].
    + destruct i as [|i]; simplify_eq/=. rewrite Hend in * by done.
      apply (wake_step _ _ _ [FWake] _ 0%nat); [done..|]. left. exists r. by apply ready_stage.
    + by destruct i as [|i]; simplify_eq/=.
  - destruct (over_stage _ _ _ _ _ Hm Hk Hph) as [Hs _].
    pose proof (Forall_lookup_1 _ _ _ _ Hfs Hi) as Hharm.
    destruct (decide (f = FWake)) as [->|Hne].
    { rewrite Hend in * by done. apply wake_step; [done..|by right]. }
    assert (c_state c ≠ PENDING) as Hnp.
    { destruct ph as [[| | | | | | | | | | | | | |[]]|]; simpl in Hph; explode; congruence. }
    apply (idle_callback_step _ _ _ _ _ _ f); try done;
      by destruct f; simpl in Hn, Hharm; repeat case_decide; simplify_eq/=.
Qed.

Lemma client_step_seen (p : ephase) c k fs h a p' c' k' :
  minv (Some p) c k fs h → enext kind ohandle w p a c k = Some (p', (c', k')) →
  minv (Some p') c' k' fs h ∧ ∃ ls, fexec ls (future_of (Some p) c k fs h) = Some (future_of (Some p') c' k' fs h).
Proof.
  intros Hm Hn. pose proof Hm as Hm0.
  destruct (m_inv _ _ _ _ _ Hm) as [Hph Hk Hfs Hh|Hph Hw Hop Hh|r Hst Hres (Hf & Ho & Hg) Hph Hfs Hh|Hk Hph Hfs].
  - by eapply client_new_step; [|by destruct p|apply Hk|..].
  - by eapply client_started_step.
  - by eapply client_ready_step.
  - by eapply client_over_step.
Qed.

Lemma complete_seen ph c k fs h e :
  minv ph c k fs h → e_flight k = true →
  let k' := {| e_flight := false; e_outcome := Some (eresult e); e_signaled := true;
               e_armed := e_armed k; e_error := e_error k |} in
  minv ph c k' fs h ∧ ∃ ls, fexec ls (future_of ph c k fs h) = Some (future_of ph c k' fs h).
Proof.
  intros Hm Hf k'. pose proof (complete_inv _ _ _ _ _ _ _ _ e (m_inv _ _ _ _ _ Hm) Hf) as Hi.
  destruct (m_inv _ _ _ _ _ Hm) as [_ (? & _) _ _|Hph Hw Hop Hh|r _ _ (? & _) _ _ _|? _ _]; [congruence| |congruence..].
  destruct (started_stage _ _ _ _ _ Hm Hph Hop) as [Hs Ho]. apply Ho in Hf as Hnone.
  assert (e_outcome k' = None ↔ e_flight k' = true ∨ unstarted ph c h) as Ho'.
  { split; [done|]. intros [?|Hu]; [done|]. exfalso.
    destruct (on_its_way_state _ _ _ Hop) as [Hx|[Hx|Hx]]; destruct ph as [[]|]; simpl in Hu, Hph; try done;
      destruct Hu; congruence. }
  apply mapped; [done|done|apply Hm|apply Hm|]. intros Hm'.
  assert (on_its_way c k' fs) as Hop'.
  { destruct Hop as [(-> & Hst & Ha & _)|(g & _ & _ & Hf' & _)]; [|congruence].
    left. split_and!; [done|done|done|]. right. split_and!; [done|done|]. exists (eresult e). split; [done|].
    unfold eresult. case_decide; simpl; [done|apply as_i32_idem]. }
  destruct (started_stage _ _ _ _ _ Hm' Hph Hop') as [Hs' _]. unfold future_of. rewrite Hs, Hs', Hnone.
  by apply (seen (AEnd (eresult e))).
Qed.

Lemma fire_seen ph c k fs h :
  minv ph c k fs h → e_armed k && e_signaled k = true →
  let k' := eset (e_signaled k) false (e_error k) k in
  minv ph c k' (fs ++ [FStart]) h ∧
  ∃ ls, fexec ls (future_of ph c k fs h) = Some (future_of ph c k' (fs ++ [FStart]) h).
Proof.
  intros Hm Hf k'. pose proof (fire_inv _ _ _ _ _ _ _ _ (m_inv _ _ _ _ _ Hm) Hf) as Hi.
  assert (FWake ∈ fs ++ [FStart] ↔ FWake ∈ fs) as Hin by set_solver.
  apply mapped; [done|exact (m_outcome _ _ _ _ _ Hm)| |apply Hm|].
  - intros i [Hi'|[_ Hi']]%lookup_app_Some; [|by apply list_lookup_singleton_Some in Hi' as [_ ?]].
    destruct (m_wake _ _ _ _ _ Hm i Hi') as [? Hu]. split; [done|].
    intros j [Hj|[_ Hj]]%lookup_app_Some; [by apply Hu|by apply list_lookup_singleton_Some in Hj as [_ ?]].
  - intros _. apply unseen. unfold future_of.
    assert (stage_of ph c k' = stage_of ph c k) as -> by done.
    assert (subscribed (stage_of ph c k) (fs ++ [FStart]) = subscribed (stage_of ph c k) fs) as ->; [|done].
    destruct (stage_of ph c k); simpl; try done; by apply bool_decide_ext.
Qed.

Lemma one_wake_delete c fs i : one_wake c fs → one_wake c (delete i fs).
Proof.
  intros Ho.
  assert (∀ j, delete i fs !! j = fs !! (if decide (j < i)%nat then j else S j)) as Hd.
  { intros j. case_decide; [by apply list_lookup_delete_lt|apply list_lookup_delete_ge; lia]. }
  intros j. rewrite Hd. intros Hj. destruct (Ho _ Hj) as [Hw Hu]. split; [done|].
  intros j'. rewrite Hd. intros Hj'%Hu. repeat case_decide; lia.
Qed.

Lemma retire_seen ph c k fs h i :
  minv ph c k fs h → fs !! i = Some FEnd →
  minv ph c k (delete i fs) h ∧ ∃ ls, fexec ls (future_of ph c k fs h) = Some (future_of ph c k (delete i fs) h).
Proof.
  intros Hm Hi. pose proof (retire_inv _ _ _ _ _ _ _ _ _ (m_inv _ _ _ _ _ Hm) Hi) as Hinv.
  assert (FWake ∈ delete i fs ↔ FWake ∈ fs) as Hin.
  { rewrite <- (take_drop_middle _ _ _ Hi) at 2. rewrite delete_take_drop. set_solver. }
  apply mapped; [done|exact (m_outcome _ _ _ _ _ Hm)| |apply Hm|].
  - apply one_wake_delete, Hm.
  - intros _. apply unseen. unfold future_of.
    assert (subscribed (stage_of ph c k) (delete i fs) = subscribed (stage_of ph c k) fs) as ->; [|done].
    destruct (stage_of ph c k); simpl; try done; by apply bool_decide_ext.
Qed.

(** A poll begins, and returns. *)
Lemma begin_seen c k fs h :
  minv None c k fs h → existsb is_ready h = false →
  minv (Some EP_start) c k fs h ∧ ∃ ls, fexec ls (future_of None c k fs h) = Some (future_of (Some EP_start) c k fs h).
Proof.
  intros Hm He. pose proof (begin_inv _ _ _ _ _ _ _ (m_inv _ _ _ _ _ Hm) He) as Hi.
  assert (stage_of (Some EP_start) c k = stage_of None c k) as Hs.
  { destruct (m_inv _ _ _ _ _ Hm) as [Hst (Hf & _) _ Hh|Hph Hw Hop Hh|r Hst _ (_ & Ho & _) _ _ _|Hf Hph _].
    - assert (e_outcome k = None) as Ho by (apply (m_outcome _ _ _ _ _ Hm); right; by split).
      unfold stage_of. by rewrite Ho.
    - destruct (started_stage _ _ _ _ _ Hm Hph Hop) as [-> Ho]. unfold stage_of.
      destruct (e_outcome k) as [r|]; [|by rewrite (proj1 Ho)].
      rewrite decide_False; [done|]. by destruct (on_its_way_state _ _ _ Hop) as [->|[->| ->]].
    - by rewrite !(ready_stage _ _ _ r).
    - destruct Hph as (_ & h' & r & -> & _). rewrite existsb_app in He. simpl in He. by rewrite orb_true_r in He. }
  apply mapped; [done|exact (m_outcome _ _ _ _ _ Hm)|apply Hm|done|].
  intros _. apply unseen. unfold future_of. rewrite Hs. by destruct (stage_of None c k).
Qed.

Lemma return_seen p c k fs h :
  minv (Some (EP_done p)) c k fs h →
  minv None c k fs (h ++ [p]) ∧
  ∃ ls, fexec ls (future_of (Some (EP_done p)) c k fs h) = Some (future_of None c k fs (h ++ [p])).
Proof.
  intros Hm. pose proof (return_inv _ _ _ _ _ _ _ _ (m_inv _ _ _ _ _ Hm)) as Hi.
  assert (unstarted None c (h ++ [p]) ↔ unstarted (Some (EP_done p)) c h) as Hu.
  { simpl. split; [|done]. intros [_ Hh]. by destruct h. }
  apply mapped; [done|rewrite (m_outcome _ _ _ _ _ Hm); by rewrite Hu|apply Hm|done|].
  intros Hm'. apply unseen. unfold future_of. cbn [f_polls].
  destruct (m_inv _ _ _ _ _ Hm) as [? _ _ _|Hph Hw Hop Hh|r Hst _ (_ & Ho & _) Hph _ _|Hf Hph _]; [done|..].
  - destruct p as [|]; [done|]. destruct (started_stage _ _ _ _ _ Hm Hph Hop) as [-> _].
    destruct (started_stage _ _ _ _ _ Hm' Hph Hop) as [-> _].
    by destruct (e_outcome k); simpl; rewrite app_nil_r.
  - destruct p as [|]; [done|]. rewrite !(ready_stage _ _ _ r) by done. simpl. by rewrite app_nil_r.
  - destruct p as [r|]; [|done]. destruct (over_stage _ _ _ _ _ Hm Hf Hph) as [-> Ho].
    assert (stage_of None c k = Done) as ->.
    { destruct Hph as (Hst & _). unfold stage_of. destruct (e_outcome k); [|done]. simpl. by rewrite Hst. }
    simpl. by rewrite app_nil_r.
Qed.

(** ** The refinement *)

#[local] Instance elts_ref : LTS elabel econfig := event_lts kind self ohandle w.

Definition is_future (c : econfig) (s : future) : Prop :=
  ∃ ph fs, client_is kind self ohandle w ph (ewho c) ∧ ecallbacks c = fden <$> fs ∧
    minv ph (ecl c) (ekn c) fs (ehistory c) ∧ s = future_of ph (ecl c) (ekn c) fs (ehistory c).

(** A step of the parts is a step of the whole. *)
Lemma is_future_intro (e : econfig) ph ph' c k fs h fs' :
  client_is kind self ohandle w ph' (ewho e) → ecallbacks e = fden <$> fs' →
  minv ph' (ecl e) (ekn e) fs' (ehistory e) ∧
    (∃ ls, fexec ls (future_of ph c k fs h) = Some (future_of ph' (ecl e) (ekn e) fs' (ehistory e))) →
  ∃ ls s', fexec ls (future_of ph c k fs h) = Some s' ∧ is_future e s'.
Proof. intros Hwho Hcb [Hm [ls Hls]]. exists ls. eexists. split; [exact Hls|]. by exists ph', fs'. Qed.

Lemma event_simulates : simulates (H := elts_ref) (H0 := flts) is_future.
Proof.
  split.
  { exists None, []. split_and!; [done|done| |done]. split; [by apply inv_new|by split; [right|]|by intros i|done]. }
  intros l c s c' (ph & fs & Hwho & Hcb & Hm & ->) Hst. destruct l as [|a| |e| |i|i].
  - unfold lstep, elts_ref, event_lts, event_step in Hst.
    destruct (ewho c) eqn:Hw; [|done]. destruct ph as [ph|]; [done|].
    destruct (existsb is_ready (ehistory c)) eqn:He; simplify_eq/=.
    by apply (is_future_intro _ _ (Some EP_start) _ _ _ _ fs); [..|apply begin_seen].
  - destruct (ewho c) as [|p] eqn:Hw; [by simpl in Hst; rewrite Hw in Hst|]. destruct ph as [ph|]; [|done].
    unfold client_is in Hwho. injection Hwho as ->.
    pose proof (client_step kind self ohandle w c ph fs a (m_inv _ _ _ _ _ Hm) Hw) as Hs.
    change (event_step kind self ohandle w (EClient a) c = Some c') in Hst. rewrite Hst in Hs.
    destruct (enext _ _ _ _ _ _ _) as [[ph' [c1 k1]]|] eqn:Hn; [|done]. injection Hs as ->.
    by apply (is_future_intro _ _ (Some ph') _ _ _ _ fs); [..|eapply client_step_seen].
  - unfold lstep, elts_ref, event_lts, event_step in Hst.
    destruct (ewho c) as [|[r| | |]] eqn:Hw; simplify_eq/=.
    destruct ph as [ph|]; [|done]. unfold client_is in Hwho. injection Hwho as Hr.
    symmetry in Hr. apply eden_ret in Hr as ->.
    by apply (is_future_intro _ _ None _ _ _ _ fs); [..|apply return_seen].
  - unfold lstep, elts_ref, event_lts, event_step in Hst.
    destruct (e_flight (ekn c)) eqn:Hf; simplify_eq/=.
    by apply (is_future_intro _ _ ph _ _ _ _ fs); [..|apply complete_seen].
  - unfold lstep, elts_ref, event_lts, event_step in Hst.
    destruct (e_armed (ekn c) && e_signaled (ekn c)) eqn:Hf; simplify_eq/=.
    apply (is_future_intro _ _ ph _ _ _ _ (fs ++ [FStart])); [done|by rewrite fmap_app, <- Hcb|by apply fire_seen].
  - unfold lstep, elts_ref, event_lts, event_step in Hst.
    rewrite Hcb, list_lookup_fmap in Hst. destruct (fs !! i) as [f|] eqn:Hi; [|done]. simpl in Hst.
    rewrite fnext_step in Hst. destruct (fnext f (ecl c)) as [[f' c1]|] eqn:Hn; simplify_eq/=.
    apply (is_future_intro _ _ ph _ _ _ _ (<[i := f']> fs)); [done|by rewrite list_fmap_insert|by eapply callback_seen].
  - unfold lstep, elts_ref, event_lts, event_step in Hst.
    rewrite Hcb, list_lookup_fmap in Hst. destruct (fs !! i) as [f|] eqn:Hi; [|done]. simpl in Hst.
    destruct (fden f) as [[]| | |] eqn:Hf; simplify_eq/=. apply fden_ret in Hf as ->.
    apply (is_future_intro _ _ ph _ _ _ _ (delete i fs)); [done|by rewrite list_fmap_delete|by apply retire_seen].
Qed.

(** What a client sees of the future an event is. *)
Lemma is_future_seen (c : econfig) s :
  is_future c s → f_outcome s = e_outcome (ekn c) ∧ f_wakes s = length (woken (ecl c)) ∧
  ∃ now, f_polls s = ehistory c ++ now ∧ (length now ≤ 1)%nat ∧ (ewho c = EIdle → now = []).
Proof.
  intros (ph & fs & Hwho & _ & _ & ->). split_and!; [done|done|].
  exists (in_progress ph (ekn c) (stage_of ph (ecl c) (ekn c))). split_and!; [done| |].
  - destruct (stage_of ph (ecl c) (ekn c)), ph as [[| | | | | | | | | | | | | |[]]|]; simpl; lia.
  - intros Hi. rewrite Hi in Hwho. destruct ph; [done|]. by destruct (stage_of None _ _).
Qed.

(** C16. Whatever the polls, the system and the callbacks of the thread pool do to
    an [IoEvent], in any interleaving, is something a future with atomic polls
    does: it ends with the same outcome, has woken its task as often, and its
    polls have returned the same results in the same order (a poll in progress
    may have taken effect already).  That future is pending until it is told
    that the operation is over, wakes its task once at most, after a poll was
    pending and the operation is over, and is ready once: with the outcome when
    the polls are given a handle, or when the first poll is ready; without a
    handle ([IoEventEx.pending_failure_without_a_handle_is_ok]) a poll after the
    first yields [Ok] whatever the outcome. *)
Theorem event_refines_future ls (c : econfig) :
  event_exec kind self ohandle w ls = Some c →
  ∃ fls s, future_exec ohandle fls = Some s ∧ future_inv ohandle s ∧
    f_outcome s = e_outcome (ekn c) ∧ f_wakes s = length (woken (ecl c)) ∧
    (∃ now, f_polls s = ehistory c ++ now ∧ (length now ≤ 1)%nat ∧ (ewho c = EIdle → now = [])) ∧
    ∀ r, Ready r ∈ ehistory c →
      e_outcome (ekn c) = Some r ∨ (ohandle = None ∧ r = Ok tt ∧ is_Some (e_outcome (ekn c))).
Proof.
  intros Hex. destruct (simulation_exec (H := elts_ref) (H0 := flts) is_future ls linit linit c
    event_simulates (proj1 event_simulates) Hex) as (fls & s & Hfls & Hs).
  exists fls, s. split; [exact Hfls|]. 
  pose proof (future_exec_inv ohandle fls s Hfls) as Hi. destruct (is_future_seen c s Hs) as (Ho & Hw & now & Hp & Hn).
  split_and!; [done..|by exists now|]. intros r Hr. rewrite <- Ho. apply (future_ready ohandle s r Hi). rewrite Hp. set_solver.
Qed.
End mapping.

(** A connection that is refused while the task waits for it. *)
Lemma event_refines_future_witness :
  let ls := epoll_pending 3 ++ EComplete 1225 :: run_event_callback ++ epoll_take 7 in
  let c := ereach connect0 (Some 7) ls in
  event_exec connect0 event0 (Some 7) 7%nat ls = Some c ∧
  ∃ fls s, future_exec (Some 7) fls = Some s ∧ f_polls s = [Pending; Ready (Err (OsError 1225))] ∧ f_wakes s = 1%nat.
Proof.
  intros ls c.
  assert (event_exec connect0 event0 (Some 7) 7%nat ls = Some c) as Hex by (vm_compute; reflexivity).
  assert (ehistory c = [Pending; Ready (Err (OsError 1225))]) as Hh by (vm_compute; reflexivity).
  assert (ewho c = EIdle) as Hw by (vm_compute; reflexivity).
  assert (length (woken (ecl c)) = 1%nat) as Hk by (vm_compute; reflexivity).
  clearbody c. split; [exact Hex|].
  destruct (event_refines_future connect0 event0 (Some 7) 7%nat ls c Hex)
    as (fls & s & Hs & _ & _ & Hwk & (now & Hp & _ & Hnow) & _).
  exists fls, s. split; [exact Hs|]. rewrite Hp, (Hnow Hw), Hh, app_nil_r. split; [reflexivity|].
  rewrite Hwk. exact Hk.
Defined.
