(* ===== verification/IoEventDrop.v ===== *)
(** * Dropping an [IoEvent]

    The event of [IoEventSys] with its drop: the future that owns it is
    dropped between two polls (it has returned, or is given up), the drop
    waits for the operation, closes the wait and the event, and the memory
    is free.  Callbacks that run go on, and nothing keeps the system from
    starting another one, before or after the wait is closed: the drop only
    calls [CloseThreadpoolWait], it neither disarms the wait nor waits for
    its callbacks. *)

From S2P Require Import Prelude Prog Extern Win32 Socket.
From S2P Require Import IoState IoCells IoEvent IoEventSys IoEventThm IoEventEx.

(** ** The transition system *)

Record dconfig (W waker : Type) := {
  d_event : econfig W waker;
  d_drop : option (prog (hact waker) hans unit);   (* the drop, once it has begun *)
  d_closed : list win32;                           (* what it has closed *)
}.
Arguments d_event {W waker} _.
Arguments d_drop {W waker} _.
Arguments d_closed {W waker} _.
Arguments Build_dconfig {W waker} _ _ _.

Inductive dlabel :=
| DEvent (l : elabel)   (* a move of the event's own system *)
| DDrop                 (* the owner drops the event *)
| DStep.                (* one action of the drop *)

Section system.
Context {W waker : Type} `{!AtomicWaker W waker}.
Context (kind : ekind) (self : IoEvent) (ohandle : option HANDLE) (w : waker).
Abbreviation dconfig := (dconfig W waker).

(** The closing calls, next to the calls of the event. *)
Definition close_answer (c : win32) : option (win32_ans c) :=
  match c return option (win32_ans c) with
  | CloseThreadpoolWait _ => Some tt
  | CloseHandle _ => Some 1
  | _ => None
  end.
Definition dsys_step (c : win32) (x : eanswer) (k : ekernel * list win32) :
    option (win32_ans c * (ekernel * list win32)) :=
  match close_answer c with
  | Some r => Some (r, (k.1, k.2 ++ [c]))
  | None => '(r, k') ← esys_step kind c x k.1; Some (r, (k', k.2))
  end.

(** The owner does not poll an event it has begun to drop; every move of the
    system and of the pool stays possible. *)
Definition enabled (l : elabel) (d : dconfig) : bool :=
  match l with
  | EBegin => match d_drop d with None => true | Some _ => false end
  | _ => true
  end.

Definition drop_step (l : dlabel) (d : dconfig) : option dconfig :=
  match l with
  | DEvent l =>
      if enabled l d then
        c ← event_step kind self ohandle w l (d_event d);
        Some (Build_dconfig c (d_drop d) (d_closed d))
      else None
  | DDrop =>
      match ewho (d_event d), d_drop d with
      | EIdle, None => Some (Build_dconfig (d_event d) (Some (drop self)) (d_closed d))
      | _, _ => None
      end
  | DStep =>
      p ← d_drop d;
      let c := d_event d in
      '(p', (cs, (k, closed))) ← tstep (cells_step dsys_step) EDefault p (ecl c, (ekn c, d_closed d));
      Some (Build_dconfig (Build_econfig cs k (ewho c) (ecallbacks c) (ehistory c)) (Some p') closed)
  end.

#[export] Instance drop_lts : LTS dlabel dconfig := {
  linit := Build_dconfig estart_config None [];
  lstep := drop_step;
}.
Definition drop_exec (ls : list dlabel) : option dconfig :=
  exec (H := drop_lts) ls (linit (LTS := drop_lts)).
End system.

(** ** Program counters of the drop *)

Section drop.
Context {W waker : Type} `{AtomicWakerLaws W waker}.
Context (kind : ekind) (self : IoEvent) (ohandle : option HANDLE) (w : waker).
Abbreviation dconfig := (dconfig W waker).
Abbreviation prog := (prog (hact waker) hans).
#[local] Instance dlts : LTS dlabel dconfig := drop_lts kind self ohandle w.
Implicit Types (d : dconfig) (c : econfig W waker).

Inductive dphase := X_may | X_loop | X_test | X_wait | X_event | X_done.

Definition close_event : prog unit := sys (CloseHandle (ev_event self)) ;;; Ret tt.
Definition close_wait : prog unit :=
  (if is_null (ev_wait self) then Ret tt else sys (CloseThreadpoolWait (ev_wait self))) ;;; close_event.
Definition wait_loop : prog unit :=
  loop (busy <- IoState.is_busy ;; Ret (if (busy : bool) then None else Some tt)) ;;; close_wait.

Definition xden (ph : dphase) : prog unit :=
  match ph with
  | X_may => drop self
  | X_loop => wait_loop
  | X_test =>
      o <- (busy <- IoState.is_busy ;; Ret (if (busy : bool) then None else Some tt)) ;;
      match (o : option unit) with Some _ => close_wait | None => wait_loop end
  | X_wait => close_wait
  | X_event => close_event
  | X_done => Ret tt
  end.

(** What has been closed at each point. *)
Definition closed_wait : list win32 :=
  if is_null (ev_wait self) then [] else [CloseThreadpoolWait (ev_wait self)].
Definition closed_at (ph : dphase) : list win32 :=
  match ph with
  | X_event => closed_wait
  | X_done => closed_wait ++ [CloseHandle (ev_event self)]
  | _ => []
  end.

(** The point after the wait loop. *)
Definition x_close : dphase := if is_null (ev_wait self) then X_event else X_wait.

Lemma x_close_den : xden x_close = close_wait.
Proof. unfold x_close, xden, close_wait. by destruct (is_null (ev_wait self)). Qed.

Lemma x_close_closed : closed_at x_close = [].
Proof. unfold x_close, closed_at, closed_wait. by destruct (is_null (ev_wait self)). Qed.

Definition not_busy (st : io_state) : bool := match st with IDLE | READY => true | _ => false end.

Definition xnext (ph : dphase) (st : io_state) : option dphase :=
  match ph with
  | X_may => Some X_loop
  | X_loop => Some X_test
  | X_test => Some (if not_busy st then x_close else X_loop)
  | X_wait => Some X_event
  | X_event => Some X_done
  | X_done => None
  end.

(** [X_wait] is only reached when there is a wait to close. *)
Definition x_ok (ph : dphase) : Prop := ph = X_wait → is_null (ev_wait self) = false.

Lemma xstep_next ph (cs : cells W waker) k :
  x_ok ph →
  tstep (cells_step (dsys_step kind)) EDefault (xden ph) (cs, (k, closed_at ph)) =
  (λ ph', (xden ph', (cs, (k, closed_at ph')))) <$> xnext ph (c_state cs).
Proof.
  intros Hok. destruct cs as [st res aw wk]. destruct ph; simpl; try done.
  - destruct st; cbn [not_busy]; rewrite ?x_close_den, ?x_close_closed; done.
  - unfold close_wait, closed_wait. by rewrite (Hok eq_refl).
Qed.

(** ** The invariant *)

Definition late_drop (ph : dphase) : bool :=
  match ph with X_wait | X_event | X_done => true | _ => false end.

Definition drop_inv_at (o : option dphase) d : Prop :=
  event_inv kind self ohandle w (d_event d) ∧
  match o with
  | None => d_drop d = None ∧ d_closed d = []
  | Some ph => d_drop d = Some (xden ph) ∧ d_closed d = closed_at ph ∧ ewho (d_event d) = EIdle ∧
      x_ok ph ∧ (late_drop ph = true → not_busy (c_state (ecl (d_event d))) = true)
  end.
Definition drop_inv d : Prop := ∃ o, drop_inv_at o d.

(** Without polls the state and the result of an event that is not busy stay as
    they are. *)
Lemma not_busy_stays l c c' :
  event_inv kind self ohandle w c → ewho c = EIdle → l ≠ EBegin →
  event_step kind self ohandle w l c = Some c' →
  ewho c' = EIdle ∧
  (not_busy (c_state (ecl c)) = true →
   c_state (ecl c') = c_state (ecl c) ∧ c_result (ecl c') = c_result (ecl c)).
Proof.
  intros (ph & fs & Hph & Hcb & Hi) Hwho Hl Hst. rewrite Hwho in Hph. destruct ph; [done|].
  destruct l as [|a| |e| |i|i]; simpl in Hst; rewrite ?Hwho in Hst; try done.
  - by destruct (e_flight (ekn c)); simplify_eq/=.
  - by destruct (e_armed (ekn c) && e_signaled (ekn c)); simplify_eq/=.
  - rewrite Hcb, list_lookup_fmap in Hst. destruct (fs !! i) as [f|] eqn:Hf; [|done]. simpl in Hst.
    rewrite fnext_step in Hst. destruct (fnext f (ecl c)) as [[f' c1]|] eqn:Hn; simplify_eq/=.
    split; [done|]. intros Hnb.
    assert (harmless f ∨ c_state (ecl c) = CALLBACK) as Hf'.
    { destruct Hi as [_ _ -> _|_ _ Hop _|r _ _ _ _ Hfs _|_ _ Hfs]; [done| | |].
      - destruct Hop as [(-> & _)|(g & -> & _ & _ & _ & Hg)]; [done|].
        destruct i as [|i]; simplify_eq/=. destruct f; simpl in Hg |- *; naive_solver.
      - left. destruct Hfs as [[-> _]|[[->| ->] _]]; [| |]; destruct i as [|i]; by simplify_eq/=.
      - left. by eapply Forall_lookup_1 in Hfs. }
    destruct (ecl c) as [st res aw wk]. simpl in *. destruct f; simpl in Hn; simplify_eq/=; try done.
    + case_decide; by simplify_eq/=.
    + by destruct Hf' as [[]| ->].
    + by destruct Hf' as [[]| ->].
    + destruct (aw_take aw). by simplify_eq/=.
  - rewrite Hcb, list_lookup_fmap in Hst. destruct (fs !! i) as [f|] eqn:Hf; [|done]. simpl in Hst.
    destruct (fden f) as [[]| | |]; by simplify_eq/=.
Qed.

Lemma drop_moves ph d ph' :
  drop_inv_at (Some ph) d → xnext ph (c_state (ecl (d_event d))) = Some ph' →
  let d' := Build_dconfig (d_event d) (Some (xden ph')) (closed_at ph') in
  drop_step kind self ohandle w DStep d = Some d' ∧ drop_inv_at (Some ph') d'.
Proof.
  intros (Hev & Hd & Hc & Hwho & Hok & Hlate) Hn d'. split.
  - unfold drop_step, d'. rewrite Hd, Hc. cbn [mbind option_bind]. rewrite xstep_next, Hn by done.
    cbn. by destruct (d_event d).
  - split_and!; [done..| |].
    + intros ->. destruct ph; simpl in Hn; simplify_eq. destruct (not_busy _); [|done].
      unfold x_close in Hn. by destruct (is_null (ev_wait self)).
    + simpl. destruct ph; simpl in *; simplify_eq; try done; try (intros _; by apply Hlate).
      destruct (not_busy _) eqn:?; simplify_eq; done.
Qed.

(** The drop begun, the event stays in the state the drop has read. *)
Lemma event_moves l ph d c :
  drop_inv_at (Some ph) d → enabled l d = true → event_step kind self ohandle w l (d_event d) = Some c →
  drop_inv_at (Some ph) (Build_dconfig c (d_drop d) (d_closed d)) ∧
  (late_drop ph = true →
   c_state (ecl c) = c_state (ecl (d_event d)) ∧ c_result (ecl c) = c_result (ecl (d_event d))).
Proof.
  intros (Hev & Hd & Hc & Hwho & Hok & Hlate) Hen Hl.
  destruct (not_busy_stays l (d_event d) c) as [Hw Hs]; [done|done| |done|].
  { intros ->. simpl in Hen. by rewrite Hd in Hen. }
  split; [|by intros Hph; apply Hs, Hlate]. split; [by eapply event_step_inv|]. split_and!; [done..|].
  intros Hph. simpl. rewrite (proj1 (Hs (Hlate Hph))). by apply Hlate.
Qed.

Lemma drop_inv_step : preserved (H := dlts) drop_inv.
Proof.
  intros l d d' [o Hinv] Hst. destruct l as [l| |]; simpl in Hst.
  - destruct (enabled l d) eqn:Hen; [|done].
    destruct (event_step kind self ohandle w l (d_event d)) as [c|] eqn:Hl; simplify_eq/=.
    exists o. destruct o as [ph|]; [by eapply event_moves|].
    destruct Hinv as [Hev Ho]. split; [by eapply event_step_inv|done].
  - destruct (ewho (d_event d)) eqn:Hw; [|done]. destruct (d_drop d) eqn:Hd; simplify_eq/=.
    exists (Some X_may). destruct Hinv as [Hev Ho]. destruct o as [ph|]; [by destruct Ho; congruence|].
    destruct Ho as [_ Ho]. split; [done|]. by split_and!.
  - destruct o as [ph|].
    + pose proof Hinv as (Hev & Hd & Hc & Hwho & Hok & Hlate).
      destruct (xnext ph (c_state (ecl (d_event d)))) as [ph'|] eqn:Hn.
      * destruct (drop_moves ph d ph' Hinv Hn) as [Hs Hi]. simpl in Hs. rewrite Hs in Hst.
        simplify_eq. by exists (Some ph').
      * destruct ph; simpl in Hn; try done. by rewrite Hd in Hst.
    + destruct Hinv as (_ & Hd & _). by rewrite Hd in Hst.
Qed.

Lemma drop_exec_inv ls d : drop_exec kind self ohandle w ls = Some d → drop_inv d.
Proof.
  apply (invariant (H := dlts)); [|exact drop_inv_step].
  exists None. split; [apply event_inv_start|done].
Qed.

(** The drop is closing, or is over and the event is freed. *)
Definition dcloses d : bool :=
  match d_drop d with Some (Ret _) | Some (Act (HSys _) _) => true | _ => false end.

Lemma dcloses_late ph d : drop_inv_at (Some ph) d → dcloses d = true → late_drop ph = true.
Proof.
  intros (_ & Hd & _ & _ & _) Hc. unfold dcloses in Hc. rewrite Hd in Hc. by destruct ph.
Qed.

(** An event that is not busy and not polled has no operation on its way, and
    its callbacks do not write to it. *)
Lemma not_busy_over c :
  event_inv kind self ohandle w c → ewho c = EIdle → not_busy (c_state (ecl c)) = true →
  e_flight (ekn c) = false ∧
  ∀ p e t, p ∈ ecallbacks c → next_act p ≠ Some (HResultSet e t).
Proof.
  intros (o & fs & Hph & Hcb & Hi) Hwho Hnb. rewrite Hwho in Hph. destruct o; [done|].
  assert (Forall harmless fs → ∀ p e t, p ∈ ecallbacks c → next_act p ≠ Some (HResultSet e t)) as Hharm.
  { intros Hall p e t. rewrite Hcb. intros (f & -> & Hf)%list_elem_of_fmap.
    pose proof (proj1 (Forall_forall _ _) Hall f Hf) as Hh. by destruct f. }
  destruct Hi as [_ Hk -> _|_ _ Hop _|r _ _ Hk _ Hfs _|Hk _ Hfs].
  - split; [by apply Hk|by apply Hharm].
  - by destruct (on_its_way_state _ _ _ Hop) as [He|[He|He]]; rewrite He in Hnb.
  - split; [by apply Hk|]. apply Hharm. destruct Hfs as [[-> _]|[[->| ->] _]]; repeat constructor.
  - split; [done|by apply Hharm].
Qed.

(** Once the drop closes the event nobody changes its state or its result. *)
Lemma late_stays ph l d d' :
  drop_inv_at (Some ph) d → late_drop ph = true → drop_step kind self ohandle w l d = Some d' →
  ∃ ph', drop_inv_at (Some ph') d' ∧ late_drop ph' = true ∧
    c_state (ecl (d_event d')) = c_state (ecl (d_event d)) ∧
    c_result (ecl (d_event d')) = c_result (ecl (d_event d)).
Proof.
  intros Hinv Hph Hst. pose proof Hinv as (_ & Hd & _). destruct l as [l| |]; simpl in Hst.
  - destruct (enabled l d) eqn:Hen; [|done].
    destruct (event_step kind self ohandle w l (d_event d)) as [c|] eqn:Hl; simplify_eq/=.
    destruct (event_moves l ph d c Hinv Hen Hl) as [Hi Hs]. exists ph. by split_and!; try apply Hs.
  - rewrite Hd in Hst. by destruct (ewho (d_event d)).
  - destruct (xnext ph (c_state (ecl (d_event d)))) as [ph'|] eqn:Hn.
    + destruct (drop_moves ph d ph' Hinv Hn) as [Hs Hi]. simpl in Hs. rewrite Hs in Hst. simplify_eq.
      exists ph'. split_and!; [done| |done|done]. destruct ph; simpl in Hn; by simplify_eq.
    + destruct ph; simpl in Hn; try done. by rewrite Hd in Hst.
Qed.

(** C18. When the drop of an event starts to close it, and for ever after, the
    operation is over, and no callback, one that runs or one that is started
    later, is about to write the result: the state they find is [IDLE] or
    [READY], which they leave alone, so the system and the pool store nothing
    in the result of the freed event. *)
Theorem event_drop_waits ls d :
  drop_exec kind self ohandle w ls = Some d → dcloses d = true →
  e_flight (ekn (d_event d)) = false ∧
  (c_state (ecl (d_event d)) = IDLE ∨ c_state (ecl (d_event d)) = READY) ∧
  ∀ ls' d', drop_exec kind self ohandle w (ls ++ ls') = Some d' →
    c_state (ecl (d_event d')) = c_state (ecl (d_event d)) ∧
    c_result (ecl (d_event d')) = c_result (ecl (d_event d)) ∧
    (∀ p e t, p ∈ ecallbacks (d_event d') → next_act p ≠ Some (HResultSet e t)).
Proof.
  intros Hex Hc. pose proof (drop_exec_inv _ _ Hex) as [[ph|] Hinv];
    [|destruct Hinv as (_ & Hd & _); unfold dcloses in Hc; by rewrite Hd in Hc].
  pose proof (dcloses_late ph d Hinv Hc) as Hl.
  assert (∀ ph d, drop_inv_at (Some ph) d → late_drop ph = true →
    e_flight (ekn (d_event d)) = false ∧ (∀ p e t, p ∈ ecallbacks (d_event d) → next_act p ≠ Some (HResultSet e t)) ∧
    (c_state (ecl (d_event d)) = IDLE ∨ c_state (ecl (d_event d)) = READY)) as Hover.
  { clear. intros ph d (Hev & _ & _ & Hwho & _ & Hlate) Hl. specialize (Hlate Hl).
    destruct (not_busy_over _ Hev Hwho Hlate) as [Hf Hcb]. split_and!; [done..|].
    destruct (c_state (ecl (d_event d))); by auto. }
  destruct (Hover ph d Hinv Hl) as (Hf & _ & Hst). split_and!; [done..|].
  intros ls' d' Hex'. unfold drop_exec in Hex, Hex'. rewrite exec_app, Hex in Hex'. simpl in Hex'. clear Hex Hc Hf Hst.
  revert d ph Hinv Hl Hex'. induction ls' as [|l ls' IH]; intros d ph Hinv Hl Hex'.
  - simpl in Hex'. simplify_eq. split_and!; [done..|]. by apply (Hover ph).
  - simpl in Hex'. destruct (drop_step kind self ohandle w l d) as [d1|] eqn:Hs; [|done]. simpl in Hex'.
    destruct (late_stays ph l d d1 Hinv Hl Hs) as (ph1 & Hinv1 & Hl1 & <- & <-). by eapply IH.
Qed.

(** ** Progress *)

(** Moves of the pool while the drop waits. *)
Lemma lift_pool ls d c :
  forallb is_pool ls = true → exec (H := event_lts kind self ohandle w) ls (d_event d) = Some c →
  exec (H := dlts) (DEvent <$> ls) d = Some (Build_dconfig c (d_drop d) (d_closed d)).
Proof.
  revert d. induction ls as [|l ls IH]; intros d Hls Hex; simpl in Hex.
  - simplify_eq. by destruct d.
  - simpl in Hls. apply andb_prop in Hls as [Hl Hls].
    destruct (event_step kind self ohandle w l (d_event d)) as [c1|] eqn:Hs; [|done]. simpl in Hex.
    assert (enabled l d = true) as Hen by (destruct l; done).
    simpl. rewrite Hen, Hs. simpl. apply (IH (Build_dconfig c1 (d_drop d) (d_closed d))); done.
Qed.

Definition xrank (ph : dphase) : nat :=
  match ph with X_may => 5 | X_loop => 4 | X_test => 3 | X_wait => 2 | X_event => 1 | X_done => 0 end.

(** Once the event is not busy the drop needs five steps at most. *)
Lemma drop_finishes n d ph :
  (xrank ph ≤ n)%nat → drop_inv_at (Some ph) d → not_busy (c_state (ecl (d_event d))) = true →
  ∃ m d', exec (H := dlts) (replicate m DStep) d = Some d' ∧ (m ≤ n)%nat ∧ drop_inv_at (Some X_done) d'.
Proof.
  revert d ph. induction n as [|n IH]; intros d ph Hn Hinv Hnb.
  { exists 0%nat, d. split_and!; [done|done|]. by destruct ph; simpl in Hn; try lia. }
  destruct (xnext ph (c_state (ecl (d_event d)))) as [ph'|] eqn:Hx.
  - destruct (drop_moves ph d ph' Hinv Hx) as [Hs Hi].
    destruct (IH _ ph' (ltac:(
      destruct ph; simpl in Hx, Hn |- *; simplify_eq; simpl; try lia;
      rewrite Hnb; unfold x_close; destruct (is_null (ev_wait self)); simpl; lia)) Hi Hnb) as (m & d' & Hex & Hm & Hd').
    exists (S m), d'. split_and!; [|lia|done].
    change (drop_step kind self ohandle w DStep d ≫= exec (H := dlts) (replicate m DStep) = Some d').
    by rewrite Hs.
  - exists 0%nat, d. split_and!; [done|lia|]. by destruct ph.
Qed.

(** C19. Nothing keeps a drop waiting for ever: once the operation is over, from
    every reachable state in which the drop has begun, the pool and the drop
    alone can run to a state where the drop has returned, having closed the
    wait, if there is one, and then the event, each once.  The pool is only
    needed before anything is closed. *)
Theorem event_drop_returns ls d p :
  drop_exec kind self ohandle w ls = Some d → d_drop d = Some p → e_flight (ekn (d_event d)) = false →
  ∃ ls1 m d', forallb is_pool ls1 = true ∧ (m ≤ 5)%nat ∧ (d_closed d = [] ∨ ls1 = []) ∧
    drop_exec kind self ohandle w (ls ++ (DEvent <$> ls1) ++ replicate m DStep) = Some d' ∧
    d_drop d' = Some (Ret tt) ∧
    d_closed d' = (if is_null (ev_wait self) then [] else [CloseThreadpoolWait (ev_wait self)]) ++
                  [CloseHandle (ev_event self)].
Proof.
  intros Hex Hd Hf. pose proof (drop_exec_inv _ _ Hex) as [[ph|] Hinv]; [|destruct Hinv as (_ & ? & _); congruence].
  assert (∃ ls1 d1 ph1, forallb is_pool ls1 = true ∧ exec (H := dlts) (DEvent <$> ls1) d = Some d1 ∧
    drop_inv_at (Some ph1) d1 ∧ not_busy (c_state (ecl (d_event d1))) = true ∧ (d_closed d = [] ∨ ls1 = []))
    as (ls1 & d1 & ph1 & Hls1 & Hex1 & Hinv1 & Hnb & Hfirst).
  { destruct (not_busy (c_state (ecl (d_event d)))) eqn:Hnb; [by exists [], d, ph; split_and!; try right|].
    pose proof Hinv as (Hev & Hd' & Hc & Hwho & Hok & Hlate).
    assert (late_drop ph = false) as Hl by (destruct (late_drop ph); [by rewrite Hlate in Hnb|done]).
    destruct (pool_wakes kind self ohandle w (d_event d) Hev Hwho) as (ls1 & c1 & Hex1 & Hls1 & Hwho1 & _ & _ & Hst);
      [by intros Hi; rewrite Hi in Hnb|done|].
    assert (closed_at ph = []) as Hcl by (by destruct ph).
    exists ls1, (Build_dconfig c1 (d_drop d) []), ph. split_and!; [done|rewrite <- Hcl, <- Hc; by apply lift_pool| |by simpl; rewrite Hst|left; by rewrite Hc].
    split; [by eapply (exec_preserved (H := event_lts kind self ohandle w)), Hex1; [apply event_step_inv|]|].
    simpl. rewrite Hst, Hcl. by split_and!. }
  destruct (drop_finishes (xrank ph1) d1 ph1) as (m & d2 & Hex2 & Hm & Hd2 & Hdr & Hcl & _); [done..|].
  exists ls1, m, d2. split_and!; [done| |done| |done|done].
  - destruct ph1; simpl in Hm; lia.
  - unfold drop_exec in *. rewrite exec_app, Hex. simpl. rewrite exec_app. fold dlts. rewrite Hex1. done.
Qed.
End drop.

(** ** Concrete schedules *)

Abbreviation dconf := (dconfig (option nat) nat).
Definition dreach (kind : ekind) (ls : list dlabel) : dconf :=
  default (Build_dconfig estart_config None []) (drop_exec kind event0 (Some 7) 7%nat ls).

(** A pending connection is given up: the drop finds the event busy, the
    operation completes, its callback runs, and the drop returns. *)
Definition given_up : list dlabel :=
  (DEvent <$> epoll_pending 3) ++ [DDrop; DStep; DStep; DStep] ++ [DEvent (EComplete 995)].

(** An operation that is over before the drop closes has signaled the event:
    a callback that is started after the wait was closed finds nothing to do. *)
Definition fired_late : list dlabel :=
  (DEvent <$> EBegin :: eclient_steps 2 ++ EClient (EStart EDone) :: eclient_steps 1 ++ [EReturn]) ++
  DDrop :: replicate 5 DStep.

Lemma event_drop_waits_witness :
  let ls' := DEvent <$> [EFire; ECallback 0; ECallback 0; ECallback 0; ERetire 0] in
  let d := dreach connect0 fired_late in
  let d' := dreach connect0 (fired_late ++ ls') in
  drop_exec connect0 event0 (Some 7) 7%nat (fired_late ++ ls') = Some d' ∧
  d_closed d = [CloseThreadpoolWait 48; CloseHandle 52] ∧
  c_state (ecl (d_event d')) = c_state (ecl (d_event d)) ∧ c_result (ecl (d_event d')) = c_result (ecl (d_event d)).
Proof.
  intros ls' d d'.
  assert (drop_exec connect0 event0 (Some 7) 7%nat fired_late = Some d) as Hex by (vm_compute; reflexivity).
  assert (drop_exec connect0 event0 (Some 7) 7%nat (fired_late ++ ls') = Some d') as Hex' by (vm_compute; reflexivity).
  split; [exact Hex'|]. split; [vm_compute; reflexivity|].
  destruct (event_drop_waits connect0 event0 (Some 7) 7%nat fired_late d Hex eq_refl) as (_ & _ & Hst).
  destruct (Hst ls' d' Hex') as (Hs & Hr & _). exact (conj Hs Hr).
Defined.

Lemma event_drop_returns_witness :
  let d := dreach connect0 given_up in
  (c_state (ecl (d_event d)) = PENDING ∧ d_closed d = []) ∧
  ∃ ls1 m d', forallb is_pool ls1 = true ∧ (m ≤ 5)%nat ∧ (d_closed d = [] ∨ ls1 = []) ∧
    drop_exec connect0 event0 (Some 7) 7%nat (given_up ++ (DEvent <$> ls1) ++ replicate m DStep) = Some d' ∧
    d_drop d' = Some (Ret tt) ∧ d_closed d' = [CloseThreadpoolWait 48; CloseHandle 52].
Proof.
  intros d. split; [split; vm_compute; reflexivity|].
  eapply (event_drop_returns connect0 event0 (Some 7) 7%nat given_up d);
    [vm_compute; reflexivity|vm_compute; reflexivity|vm_compute; reflexivity].
Defined.

(** The drop does not wait for the end of the callback: the state is [READY]
    while the callback is about to call [wake] on the waker of the event, the
    drop closes and frees the event, and the callback uses the freed waker.
    An operation that completes at once is enough too: the event it signals
    starts a callback, which reads the state of the freed event. *)
Theorem event_freed_under_a_callback :
  (∃ ls (d : dconf), drop_exec connect0 event0 (Some 7) 7%nat ls = Some d ∧
    d_drop d = Some (Ret tt) ∧ d_closed d = [CloseThreadpoolWait 48; CloseHandle 52] ∧
    map next_act (ecallbacks (d_event d)) = [Some HWake]) ∧
  (∃ ls (d : dconf), drop_exec connect0 event0 (Some 7) 7%nat ls = Some d ∧
    d_drop d = Some (Ret tt) ∧ d_closed d = [CloseThreadpoolWait 48; CloseHandle 52] ∧
    ehistory (d_event d) = [Ready (Ok tt)] ∧
    map next_act (ecallbacks (d_event d)) = [Some (HState ALoad)]).
Proof.
  split.
  - exists ((DEvent <$> epoll_pending 3 ++ EComplete 0 :: EFire :: replicate 5 (ECallback 0)) ++
            DDrop :: replicate 5 DStep).
    eexists. split_and!; vm_compute; reflexivity.
  - exists ((DEvent <$> EBegin :: eclient_steps 2 ++ EClient (EStart EDone) :: eclient_steps 1 ++
              [EReturn; EFire; ECallback 0]) ++ DDrop :: replicate 5 DStep).
    eexists. split_and!; vm_compute; reflexivity.
Qed.
