(* ===== verification/Waker.v ===== *)
(** * Blocking on a future: [src/src/task/waker.rs] and [block_on.rs]

    [InlineWaker] is one word that [wake] moves from 0 to 1; [wait] sleeps
    with [WaitOnAddress] until it is 1; [block_on] polls, and waits whenever
    the future is pending.  The system below interleaves one blocked thread
    with any number of threads calling [wake]. *)

From S2P Require Import Prelude Prog.

(** ** Code *)

Inductive wact :=
| WLoad                              (* self.state.load *)
| WCompareExchange (e n : Z)         (* self.state.compare_exchange(..).is_ok() *)
| WCompareAndSleep (compare : Z)     (* WaitOnAddress: fall asleep if the word is [compare] *)
| WSlept                             (* WaitOnAddress: return once awake *)
| WakeByAddressAll
| WPoll.                             (* future.as_mut().poll(&mut cx) *)

Section code.
(** The output type of the future that is blocked on. *)
Context {T : Type}.
Definition wans (a : wact) : Type :=
  match a with
  | WLoad => Z
  | WCompareExchange _ _ => bool
  | WPoll => Poll T
  | WCompareAndSleep _ | WSlept | WakeByAddressAll => unit
  end.
Abbreviation prog := (prog wact wans).
(** [InlineWaker::new] *)
Definition new : Z := 0.
(** [InlineWaker::wake] *)
Definition wake : prog unit :=
  ok <- act1 (WCompareExchange 0 1) ;;
  if (ok : bool) then act1 WakeByAddressAll else Ret tt.
(** [WaitOnAddress(&self.state, &compare, 4, INFINITE)] *)
Definition WaitOnAddress (compare : Z) : prog unit :=
  act1 (WCompareAndSleep compare) ;;; act1 WSlept.
(** [InlineWaker::wait] *)
Definition wait : prog unit :=
  loop (state <- act1 WLoad ;;
        if decide (state ≠ 1) then WaitOnAddress 0 ;;; Ret None else Ret (Some tt)).
(** The loop of [Handle::block_on], with the future already spawned. *)
Definition block_on : prog T :=
  loop (p <- act1 WPoll ;;
        match p with
        | Ready output => Ret (Some output)
        | Pending => wait ;;; Ret None
        end).
(** The [RawWaker] behind [get_waker] and its table: a clone keeps the
    pointer, both wakes call [InlineWaker::wake], dropping does nothing. *)
Record RawWaker := {
  data : Z;
  by_value : Z → prog unit;
  by_ref : Z → prog unit;
  on_drop : Z → prog unit;
}.
Definition wake_fn (ptr : Z) : prog unit := wake.
Definition drop_fn (ptr : Z) : prog unit := Ret tt.
Definition clone_fn (ptr : Z) : RawWaker :=
  {| data := ptr; by_value := wake_fn; by_ref := wake_fn; on_drop := drop_fn |}.
Definition get_waker (self : Z) : RawWaker := clone_fn self.
(** [Waker::wake] of a clone of that waker. *)
Definition call_waker (w : RawWaker) : prog unit := by_value w (data w).
End code.
Arguments wans : clear implicits.

(** ** The system *)

Section system.
Context {T : Type}.
Abbreviation prog := (prog wact (wans T)).
Record config := {
  word : Z;                 (* InlineWaker.state *)
  asleep : bool;            (* the blocked thread sleeps on the address *)
  output : option T;        (* of the task, once it has run to completion *)
  registered : bool;        (* the task holds a waker to call on completion *)
  main : prog T;            (* the thread inside [block_on] *)
  wakers : list (prog unit) (* threads inside [wake] *)
}.
Definition set_word (w : Z) (c : config) : config :=
  {| word := w; asleep := asleep c; output := output c; registered := registered c;
     main := main c; wakers := wakers c |}.
Definition set_asleep (b : bool) (c : config) : config :=
  {| word := word c; asleep := b; output := output c; registered := registered c;
     main := main c; wakers := wakers c |}.
Definition set_main (p : prog T) (c : config) : config :=
  {| word := word c; asleep := asleep c; output := output c; registered := registered c;
     main := p; wakers := wakers c |}.
Definition set_wakers (l : list (prog unit)) (c : config) : config :=
  {| word := word c; asleep := asleep c; output := output c; registered := registered c;
     main := main c; wakers := l |}.
Definition set_task (o : option T) (b : bool) (c : config) : config :=
  {| word := word c; asleep := asleep c; output := o; registered := b;
     main := main c; wakers := wakers c |}.
(** [WaitOnAddress] compares and falls asleep in one step; a poll that
    finds the task running leaves the waker with it. *)
Definition wstep (a : wact) (_ : unit) (c : config) : option (wans T a * config) :=
  match a return option (wans T a * config) with
  | WLoad => Some (word c, c)
  | WCompareExchange e n =>
      if decide (word c = e) then Some (true, set_word n c) else Some (false, c)
  | WCompareAndSleep v => Some (tt, if decide (word c = v) then set_asleep true c else c)
  | WSlept => if asleep c then None else Some (tt, c)
  | WakeByAddressAll => Some (tt, set_asleep false c)
  | WPoll =>
      match output c with
      | Some v => Some (Ready v, c)
      | None => Some (Pending, set_task None true c)
      end
  end.
Inductive label :=
| LMain                  (* the blocked thread *)
| LWaker (i : nat)       (* a thread inside [wake] *)
| LFinish (v : T)        (* the task completes and wakes its awaiter *)
| LWake                  (* anybody calls a clone of the waker *)
| LSpurious.             (* WaitOnAddress may return without a reason *)
Definition step_main (c : config) : option config :=
  '(p, c') ← tstep wstep tt (main c) c; Some (set_main p c').
Definition block_step (l : label) (c : config) : option config :=
  match l with
  | LMain => step_main c
  | LWaker i =>
      p ← wakers c !! i;
      '(p', c') ← tstep wstep tt p c;
      Some (set_wakers (match p' with
                        | Ret _ => delete i (wakers c')
                        | _ => <[i := p']> (wakers c')
                        end) c')
  | LFinish v =>
      match output c with
      | Some _ => None
      | None =>
          Some (set_wakers (if registered c then wakers c ++ [call_waker (get_waker 0)] else wakers c)
                  (set_task (Some v) false c))
      end
  | LWake => Some (set_wakers (wakers c ++ [call_waker (get_waker 0)]) c)
  | LSpurious => if asleep c then Some (set_asleep false c) else None
  end.
Definition start : config := {|
  word := new; asleep := false; output := None; registered := false;
  main := block_on; wakers := [] |}.
#[export] Instance block_lts : LTS label config := {
  linit := start;
  lstep := block_step;
}.
End system.
Arguments config : clear implicits.
Arguments label : clear implicits.

(** ** Program counters *)

Section counters.
Context {T : Type}.
Abbreviation prog := (prog wact (wans T)).
Implicit Types (c : config T).
Inductive mphase := MLoop | MPoll | MWait | MLoad | MCompare | MSleep | MDone (v : T).
(** What is left of [block_on] after a [wait]. *)
Definition waiting (p : prog unit) : prog T :=
  o <- (p ;;; Ret None) ;;
  match o with Some v => Ret v | None => block_on end.
Definition mden (ph : mphase) : prog T :=
  match ph with
  | MLoop => block_on
  | MPoll =>
      o <- (p <- act1 WPoll ;;
            match p with Ready v => Ret (Some v) | Pending => wait ;;; Ret None end) ;;
      match o with Some v => Ret v | None => block_on end
  | MWait => waiting wait
  | MLoad =>
      o <- (state <- act1 WLoad ;;
            if decide (state ≠ 1) then WaitOnAddress 0 ;;; Ret None else Ret (Some tt)) ;;
      match o with Some _ => block_on | None => waiting wait end
  | MCompare => WaitOnAddress 0 ;;; waiting wait
  | MSleep => act1 WSlept ;;; waiting wait
  | MDone v => Ret v
  end.
Definition mnext (ph : mphase) (c : config T) : option (mphase * config T) :=
  match ph with
  | MLoop => Some (MPoll, c)
  | MPoll =>
      Some (match output c with
            | Some v => (MDone v, c)
            | None => (MWait, set_task None true c)
            end)
  | MWait => Some (MLoad, c)
  | MLoad => Some (if decide (word c ≠ 1) then MCompare else MLoop, c)
  | MCompare => Some (MSleep, if decide (word c = 0) then set_asleep true c else c)
  | MSleep => if asleep c then None else Some (MWait, c)
  | MDone _ => None
  end.
Lemma mstep_next ph c :
  tstep wstep tt (mden ph) c = (λ x, (mden x.1, x.2)) <$> mnext ph c.
Proof. destruct ph; simpl; repeat case_match; simplify_eq/=; done. Qed.
(** A waking thread has the word to set, or the sleeper to wake. *)
Inductive kphase := KSet | KWakeAll.
Definition kden (ph : kphase) : prog unit :=
  match ph with KSet => wake | KWakeAll => act1 WakeByAddressAll end.
(** Deleting one element keeps the others. *)
Lemma elem_of_delete_ne (ks : list kphase) i a b :
  ks !! i = Some a → a ≠ b → b ∈ ks → b ∈ delete i ks.
Proof.
  intros Hi Hne [j Hj]%list_elem_of_lookup_1.
  rewrite delete_take_drop. rewrite <- (take_drop_middle ks i a Hi) in Hj.
  apply list_elem_of_lookup_2 in Hj. set_solver.
Qed.
(** ** The invariant *)
Definition waits (ph : mphase) : bool :=
  match ph with MWait | MLoad | MCompare | MSleep => true | _ => false end.
Definition block_inv c : Prop :=
  ∃ ph ks, main c = mden ph ∧ wakers c = kden <$> ks ∧
    (word c = 0 ∨ word c = 1) ∧
    (asleep c = true → ph = MSleep ∧ (word c = 0 ∨ KWakeAll ∈ ks)) ∧
    (waits ph = true → output c = None ∧ registered c = true ∨ word c = 1 ∨ KSet ∈ ks) ∧
    (∀ v, ph = MDone v → output c = Some v).
Lemma block_inv_start : block_inv start.
Proof. exists MLoop, []. split_and!; [done|done|by left|done|done|done]. Qed.
Lemma block_inv_step l c c' : block_inv c → lstep l c = Some c' → block_inv c'.
Proof.
  intros (ph & ks & Hm & Hk & Hw & Ha & Hr & Hd) Hstep.
  destruct l as [|i|v| |]; simpl in Hstep.
  - unfold step_main in Hstep. rewrite Hm, mstep_next in Hstep.
    destruct (mnext ph c) as [[ph' c1]|] eqn:Hn; simplify_eq/=.
    exists ph', ks. destruct c as [w a o r m wk]; simpl in *. subst.
    destruct ph; simpl in Hn; repeat case_match; simplify_eq/=; split_and!; auto; naive_solver.
  - rewrite Hk, list_lookup_fmap in Hstep. destruct (ks !! i) as [kph|] eqn:Hi; [|done].
    pose proof (list_elem_of_lookup_2 _ _ _ Hi) as Hin.
    destruct c as [w a o r m wk]; simpl in *. subst.
    destruct kph; simpl in Hstep.
    + destruct (decide (w = 0)) as [->|Hne]; simplify_eq/=.
      * exists ph, (<[i := KWakeAll]> ks). rewrite list_fmap_insert.
        assert (KWakeAll ∈ <[i := KWakeAll]> ks).
        { apply (list_elem_of_lookup_2 _ i). apply list_lookup_insert_eq. by eapply lookup_lt_Some. }
        split_and!; naive_solver.
      * exists ph, (delete i ks). rewrite list_fmap_delete.
        assert (w = 1) as -> by naive_solver.
        split_and!; auto. intros Ha'. destruct (Ha Ha') as [? [|Hw']]; [done|].
        split; [done|]. right. by eapply elem_of_delete_ne.
    + simplify_eq/=. exists ph, (delete i ks). rewrite list_fmap_delete.
      split_and!; auto; [naive_solver|]. intros Hph.
      destruct (Hr Hph) as [?|[?|Hset]]; auto. right; right. by eapply elem_of_delete_ne.
  - destruct (output c) eqn:Ho; simplify_eq/=. destruct c as [w a o r m wk]; simpl in *. subst.
    exists ph, (if r then ks ++ [KSet] else ks).
    destruct r; rewrite ?fmap_app; split_and!; auto; rewrite ?elem_of_app; try naive_solver set_solver.
  - simplify_eq/=. destruct c as [w a o r m wk]; simpl in *. subst.
    exists ph, (ks ++ [KSet]). rewrite ?fmap_app.
    split_and!; auto; rewrite ?elem_of_app; naive_solver.
  - destruct (asleep c) eqn:Ha'; simplify_eq/=. exists ph, ks. split_and!; naive_solver.
Qed.
End counters.

(** ** What blocking on a future guarantees *)

Section guarantees.
Context {T : Type}.
Implicit Types (c : config T) (v : T).
Lemma reachable_block_inv ls c : exec ls start = Some c → block_inv c.
Proof. exact (invariant (L := label T) block_inv ls c block_inv_start block_inv_step). Qed.
(** How many steps the blocked thread is from its result, once nothing
    makes it sleep. *)
Definition rank (ph : mphase (T := T)) : nat :=
  match ph with
  | MDone _ => 0 | MPoll => 1 | MLoop => 2 | MLoad => 3 | MWait => 4 | MSleep => 5 | MCompare => 6
  end.
Lemma main_step ph ph' c c' :
  main c = mden ph → mnext ph c = Some (ph', c') →
  lstep (L := label T) LMain c = Some (set_main (mden ph') c').
Proof. intros Hm Hn. simpl. unfold step_main. by rewrite Hm, mstep_next, Hn. Qed.
(** With the output there and the word set, the thread runs to its end. *)
Lemma main_runs n ph c v :
  (rank ph ≤ n)%nat → main c = mden ph → output c = Some v → asleep c = false →
  (waits ph = true → word c = 1) → (∀ u, ph = MDone u → u = v) →
  ∃ m c', (m ≤ n)%nat ∧ exec (replicate m LMain) c = Some c' ∧ main c' = Ret v.
Proof.
  revert ph c. induction n as [|n IH]; intros ph c Hle Hm Ho Ha Hw Hd.
  { exists 0%nat, c. destruct ph; simpl in Hle; try lia. naive_solver. }
  destruct (decide (rank ph = 0%nat)) as [H0|].
  { exists 0%nat, c. destruct ph; simpl in H0; try lia. split_and!; [lia|done|naive_solver]. }
  assert (∃ ph' c1, mnext ph c = Some (ph', c1) ∧ (rank ph' < rank ph)%nat ∧ output c1 = Some v ∧
            asleep c1 = false ∧ (waits ph' = true → word c1 = 1) ∧ (∀ u, ph' = MDone u → u = v))
    as (ph' & c1 & Hn & Hr & ? & ? & Hw' & Hd').
  { destruct ph; simpl in *; rewrite ?Ha, ?Ho, ?Hw by done;
      repeat case_decide; try done; try lia; do 2 eexists;
      (split_and!; [done|simpl; lia|done|done| | ]); naive_solver. }
  destruct (IH ph' (set_main (mden ph') c1)) as (m & c' & Hle' & Hex & Hret); [lia|done..|].
  exists (S m), c'. split_and!; [lia| |done]. cbn [replicate exec]. by rewrite (main_step ph ph' c c1).
Qed.
(** Threads inside [wake] finish on their own. *)
Lemma wakers_drain ks c :
  wakers c = kden <$> ks →
  ∃ m c', (m ≤ 2 * length ks)%nat ∧ exec (replicate m (LWaker 0)) c = Some c' ∧
    wakers c' = [] ∧ output c' = output c ∧ main c' = main c.
Proof.
  revert c. induction ks as [|k ks IH]; intros c Hk.
  { exists 0%nat, c. split_and!; done || lia. }
  assert (∃ j c1, (j ≤ 2)%nat ∧ exec (replicate j (LWaker 0)) c = Some c1 ∧
            wakers c1 = kden <$> ks ∧ output c1 = output c ∧ main c1 = main c)
    as (j & c1 & Hj & Hex & Hk1 & Ho & Hm).
  { destruct c as [w a o r m wk]; simpl in Hk; subst. destruct k; simpl.
    - destruct (decide (w = 0)) eqn:Hd.
      + exists 2%nat. eexists. simpl. rewrite Hd. simpl. split_and!; reflexivity || lia.
      + exists 1%nat. eexists. simpl. rewrite Hd. simpl. split_and!; reflexivity || lia.
    - exists 1%nat. eexists. split_and!; reflexivity || lia. }
  destruct (IH c1 Hk1) as (m & c' & Hm' & Hex' & ? & ? & ?).
  exists (j + m)%nat, c'. split_and!; [simpl; lia| |done|congruence|congruence].
  by rewrite replicate_add, exec_app, Hex.
Qed.
(** Once the word is set nothing puts the thread to sleep again. *)
Lemma awake_step l c c' :
  block_inv c ∧ word c = 1 ∧ asleep c = false → lstep (L := label T) l c = Some c' →
  block_inv c' ∧ word c' = 1 ∧ asleep c' = false.
Proof.
  intros (Hinv & Hw & Ha) Hs. split; [by eapply block_inv_step|].
  destruct Hinv as (ph & ks & Hm & Hk & _). destruct l as [|i|v| |]; simpl in Hs.
  - unfold step_main in Hs. rewrite Hm, mstep_next in Hs.
    destruct ph; simpl in Hs; rewrite ?Ha, ?Hw in Hs; repeat case_match; simplify_eq/=; done.
  - rewrite Hk, list_lookup_fmap in Hs. destruct (ks !! i) as [[]|]; simpl in Hs; [..|done].
    all: rewrite ?Hw in Hs; simplify_eq/=; done.
  - destruct (output c), (registered c); simplify_eq/=; done.
  - by simplify_eq/=.
  - by rewrite Ha in Hs.
Qed.
(** From a state in which the task has completed the threads inside [wake] and
    the blocked thread run to the end. *)
Lemma block_finishes c v :
  block_inv c → output c = Some v →
  ∃ k m c', (k ≤ 2 * length (wakers c))%nat ∧ (m ≤ 6)%nat ∧
    exec (replicate k (LWaker 0) ++ replicate m LMain) c = Some c' ∧ main c' = Ret v.
Proof.
  intros Hinv Ho. pose proof Hinv as (_ & ks & _ & Hk & _).
  destruct (wakers_drain ks c Hk) as (k & c1 & Hle & Hex1 & Hw1 & Ho1 & Hm1).
  assert (block_inv c1) as (ph & ks1 & Hm & Hk1 & Hw & Ha & Hr & Hd)
    by exact (exec_preserved (L := label T) block_inv _ _ _ block_inv_step Hinv Hex1).
  rewrite Hw1 in Hk1. symmetry in Hk1. apply fmap_nil_inv in Hk1. subst ks1.
  rewrite Ho1, Ho in *.
  assert (waits ph = true → word c1 = 1) as Hset by set_solver.
  assert (asleep c1 = false) as Hawake.
  { destruct (asleep c1); [|done]. destruct (Ha eq_refl) as [-> [H0|]]; [|set_solver].
    rewrite Hset in H0; done. }
  destruct (main_runs 6 ph c1 v) as (m & c2 & ? & ? & ?); [by destruct ph; simpl; lia|done..| |].
  { intros u ->. specialize (Hd u eq_refl). congruence. }
  exists k, m, c2. split_and!; [|done| |done].
  - by rewrite Hk, length_fmap.
  - by rewrite exec_app, Hex1.
Qed.

(** The blocked thread has returned the output. *)
Lemma block_inv_result c v : block_inv c → main c = Ret v → output c = Some v.
Proof.
  intros (ph & ks & Hm' & _ & _ & _ & _ & Hd) Hm. rewrite Hm in Hm'. destruct ph; simplify_eq/=. by apply Hd.
Qed.

(** Only the completion of the task changes its output. *)
Lemma output_stays l c c' :
  block_inv c → (∀ v, l ≠ LFinish v) → lstep (L := label T) l c = Some c' → output c' = output c.
Proof.
  intros (ph & ks & Hm & Hk & _) Hl Hs. destruct l as [|i|v| |]; simpl in Hs.
  - unfold step_main in Hs. rewrite Hm, mstep_next in Hs.
    destruct ph; simpl in Hs; repeat case_match; simplify_eq/=; congruence.
  - rewrite Hk, list_lookup_fmap in Hs. destruct (ks !! i) as [[]|]; simpl in Hs; [..|done].
    all: repeat case_decide; simplify_eq/=; done.
  - by destruct (Hl v).
  - by simplify_eq/=.
  - destruct (asleep c); by simplify_eq/=.
Qed.

(** C12. No wake-up is lost: from every state the system can reach in which the
    task has completed, once the threads inside [wake] have run (at most two
    steps each), the blocked thread returns the task's output within six of
    its own steps. *)
Theorem block_on_returns (ls : list (label T)) c v :
  exec ls start = Some c → output c = Some v →
  ∃ k m c', (k ≤ 2 * length (wakers c))%nat ∧ (m ≤ 6)%nat ∧
    exec (replicate k (LWaker 0) ++ replicate m LMain) c = Some c' ∧ main c' = Ret v.
Proof. intros Hex. by apply block_finishes, (reachable_block_inv ls). Qed.
(** Whatever wakes the blocked thread, and however often, [block_on] only
    returns the output the task has completed with. *)
Theorem block_on_result (ls : list (label T)) c v :
  exec ls start = Some c → main c = Ret v → output c = Some v.
Proof. intros Hex. by apply block_inv_result, (reachable_block_inv ls). Qed.
(** The word of an [InlineWaker] is never reset: once it has been set
    and the thread is not asleep, the thread is never put to sleep again, and
    every state it is in lets it move on, until [block_on] returns: from the
    first wake on it spins. *)
Theorem wait_blocks_at_most_once (ls ls' : list (label T)) c c' :
  exec ls start = Some c → word c = 1 → asleep c = false → exec ls' c = Some c' →
  asleep c' = false ∧ (lstep (L := label T) LMain c' = None → ∃ v, main c' = Ret v).
Proof.
  intros Hex Hw Ha Hex'.
  assert (block_inv c' ∧ word c' = 1 ∧ asleep c' = false) as ((ph & ks & Hm & _) & Hw' & Ha').
  { refine (exec_preserved (L := label T) (λ c, block_inv c ∧ word c = 1 ∧ asleep c = false)
      _ _ _ awake_step _ Hex'). split; [by eapply reachable_block_inv | done]. }
  split; [done|]. intros Hnone.
  destruct ph as [| | | | | |v]; [..|by exists v]; exfalso.
  all: simpl in Hnone; unfold step_main in Hnone; rewrite Hm, mstep_next in Hnone; simpl in Hnone.
  all: rewrite ?Ha' in Hnone; done.
Qed.
End guarantees.

(** ** Instances *)

(** The blocked thread polls, finds the task running, and sleeps; then the
    task completes. *)
Definition sleeping_schedule : list (label Z) := replicate 5 LMain ++ [LFinish 7].

Lemma block_on_returns_witness :
  ∃ c, exec sleeping_schedule start = Some c ∧ asleep c = true ∧
    ∃ k m c', (k ≤ 2 * length (wakers c))%nat ∧ (m ≤ 6)%nat ∧
      exec (replicate k (LWaker 0) ++ replicate m LMain) c = Some c' ∧ main c' = Ret 7.
Proof.
  eexists. split; [vm_compute; reflexivity|]. split; [vm_compute; reflexivity|].
  apply (block_on_returns sleeping_schedule); reflexivity.
Defined.

Lemma block_on_result_witness :
  ∃ c, exec (sleeping_schedule ++ replicate 2 (LWaker 0) ++ replicate 5 LMain) start = Some c ∧
    main c = Ret 7 ∧ output c = Some 7.
Proof.
  eexists. split; [vm_compute; reflexivity|]. split; [vm_compute; reflexivity|].
  apply (block_on_result (sleeping_schedule ++ replicate 2 (LWaker 0) ++ replicate 5 LMain)); reflexivity.
Defined.

(** Any clone of the waker is woken before the task is done: from then on
    the blocked thread polls without ever sleeping. *)
Lemma wait_blocks_at_most_once_witness :
  ∃ c c', exec [LMain; LMain; LWake; LWaker 0; LWaker 0] (start (T := Z)) = Some c ∧
    exec (replicate 40 LMain) c = Some c' ∧ output c' = None ∧ asleep c' = false ∧
    (lstep (L := label Z) LMain c' = None → ∃ v, main c' = Ret v).
Proof.
  do 2 eexists. split; [vm_compute; reflexivity|]. split; [vm_compute; reflexivity|]. split; [vm_compute; reflexivity|].
  apply (wait_blocks_at_most_once [LMain; LMain; LWake; LWaker 0; LWaker 0] (replicate 40 LMain)
    _ _ eq_refl); reflexivity.
Defined.
