(* ===== verification/Threadpool.v ===== *)
(** * The thread pool: [src/src/threadpool.rs]

    Priorities, the builder, the functions of a [Handle] and its destructor,
    as programs over Win32 calls.  A [Handle] is the address-like part of
    Rust's: the queues it refers to are shared state, named here by their
    addresses ([Executor] has their contents). *)

From S2P Require Import Prelude Prog Win32.

(** ** Priorities *)

Inductive Priority := High | Normal | Low.

#[export] Instance Priority_eq_dec : EqDecision Priority.
Proof. solve_decision. Defined.

(** [priority as u32]: [TP_CALLBACK_PRIORITY_HIGH], [_NORMAL], [_LOW]. *)
Definition priority_repr (p : Priority) : Z :=
  match p with High => 0 | Normal => 1 | Low => 2 end.

Definition priority_default : Priority := Normal.

(** The macro [priority_ord!] behind [Ord::cmp]. *)
Definition cmp (self other : Priority) : comparison :=
  match Z.compare (priority_repr self) (priority_repr other) with
  | Lt => Gt
  | Eq => Eq
  | Gt => Lt
  end.

Definition partial_cmp (self other : Priority) : option comparison := Some (cmp self other).

(** ** Data *)

Record TaskQueue := {
  queue : Z;   (* the address of its ConcurrentQueue *)
  work : Z;    (* PTP_WORK *)
}.

Record HandleInner := {
  high_queue : TaskQueue;
  normal_queue : TaskQueue;
  low_queue : TaskQueue;
  inner_callback_environ : CallbackEnviron;
}.

Record Handle := {
  inner : HandleInner;
  handle_priority : Priority;
  callback_instance : option Z;
}.

Record Threadpool := { tp_handle : Handle }.

Record Builder := {
  b_max_threads : Z;
  b_min_threads : Z;
  b_net : bool;
}.

#[export] Instance TaskQueue_eq_dec : EqDecision TaskQueue.
Proof. solve_decision. Defined.
#[export] Instance HandleInner_eq_dec : EqDecision HandleInner.
Proof. solve_decision. Defined.
#[export] Instance Handle_eq_dec : EqDecision Handle.
Proof. solve_decision. Defined.

Definition task_queue (inner : HandleInner) (p : Priority) : TaskQueue :=
  match p with
  | High => high_queue inner
  | Normal => normal_queue inner
  | Low => low_queue inner
  end.

Definition with_priority (ce : CallbackEnviron) (p : Priority) : CallbackEnviron :=
  {| Version := Version ce; Pool := Pool ce; CleanupGroup := CleanupGroup ce;
     CallbackPriority := priority_repr p |}.

(** ** The builder's setters *)

Definition min_threads (self : Builder) (max : Z) : Builder :=
  {| b_max_threads := max; b_min_threads := b_min_threads self; b_net := b_net self |}.

Definition max_threads (self : Builder) (min : Z) : Builder :=
  {| b_max_threads := b_max_threads self; b_min_threads := min; b_net := b_net self |}.

Definition net (self : Builder) (enabled : bool) : Builder :=
  {| b_max_threads := b_max_threads self; b_min_threads := b_min_threads self; b_net := enabled |}.

(** ** Programs *)

Section programs.
Context {act : Type} {ans : act → Type} `{!HasWin32 act ans}.
Abbreviation prog := (prog act ans).

(** *** [impl Handle] *)

Definition callback_environ (self : Handle) : CallbackEnviron :=
  with_priority (inner_callback_environ (inner self)) (handle_priority self).

Definition set_max_threads (self : Handle) (maximum : Z) : prog unit :=
  sys (SetThreadpoolThreadMaximum (Pool (inner_callback_environ (inner self))) maximum).

Definition try_set_min_threads (self : Handle) (minimum : Z) : prog (io_result unit) :=
  r <- sys (SetThreadpoolThreadMinimum (Pool (inner_callback_environ (inner self))) minimum) ;;
  if decide (r = TRUE) then Ret (Ok tt) else err <- last_os_error ;; Ret (Err err).

Definition set_min_threads (self : Handle) (minimum : Z) : prog unit :=
  r <- try_set_min_threads self minimum ;;
  match r with
  | Ok _ => Ret tt
  | Err _ => Fault (Panicked "called `Result::unwrap()` on an `Err` value")
  end.

Definition priority (self : Handle) : Priority := handle_priority self.

Definition set_priority (self : Handle) (p : Priority) : Handle :=
  {| inner := inner self; handle_priority := p; callback_instance := callback_instance self |}.

(** *** [impl Builder] *)

Definition builder_new : prog Builder :=
  processors <- sys GetSystemInfo ;;
  Ret {| b_max_threads := 512; b_min_threads := processors; b_net := true |}.

(** The environment it leaves behind its [&mut] comes with the result. *)
Definition create_work (p : Priority) (queue : Z) (ce : CallbackEnviron) :
    prog (io_result Z * CallbackEnviron) :=
  let ce := with_priority ce p in
  work <- sys (CreateThreadpoolWork queue ce) ;;
  if negb (is_null work) then Ret (Ok work, ce)
  else
    sys (CloseThreadpoolCleanupGroupMembers (CleanupGroup ce) TRUE) ;;;
    sys (CloseThreadpoolCleanupGroup (CleanupGroup ce)) ;;;
    sys (CloseThreadpool (Pool ce)) ;;;
    err <- last_os_error ;;
    Ret (Err err, ce).

(** [impl Drop for HandleInner] *)
Definition drop_inner (self : HandleInner) : prog unit :=
  let ce := inner_callback_environ self in
  sys (CloseThreadpoolCleanupGroupMembers (CleanupGroup ce) TRUE) ;;;
  sys (CloseThreadpoolCleanupGroup (CleanupGroup ce)) ;;;
  sys (CloseThreadpool (Pool ce)).

(** Leaving a function with an error while [inner] is still a local. *)
Definition or_drop {A} (inner : HandleInner) (p : prog (io_result A)) : prog (io_result A) :=
  r <- p ;;
  match r with
  | Ok a => Ret (Ok a)
  | Err e => drop_inner inner ;;; Ret (Err e)
  end.

(** [Builder::build]; [at_] has the addresses of the three queues. *)
Definition build (at_ : Priority → Z) (self : Builder) : prog (io_result Threadpool) :=
  pool <- sys CreateThreadpool ;;
  if is_null pool then err <- last_os_error ;; Ret (Err err) else
  sys (SetThreadpoolThreadMaximum pool (b_max_threads self)) ;;;
  minimum <- sys (SetThreadpoolThreadMinimum pool (b_min_threads self)) ;;
  if decide (minimum = FALSE) then
    sys (CloseThreadpool pool) ;;; err <- last_os_error ;; Ret (Err err)
  else
  cleanup_group <- sys CreateThreadpoolCleanupGroup ;;
  if is_null cleanup_group then
    sys (CloseThreadpool pool) ;;; err <- last_os_error ;; Ret (Err err)
  else
  let ce := {| Version := 3; Pool := pool; CleanupGroup := cleanup_group;
               CallbackPriority := priority_repr priority_default |} in
  let inner := {| high_queue := {| queue := at_ High; work := null |};
                  normal_queue := {| queue := at_ Normal; work := null |};
                  low_queue := {| queue := at_ Low; work := null |};
                  inner_callback_environ := ce |} in
  or_drop inner (
    h <- create_work High (at_ High) ce ;; high <-? Ret h.1 ;;
    n <- create_work Normal (at_ Normal) h.2 ;; normal <-? Ret n.1 ;;
    l <- create_work Low (at_ Low) n.2 ;; low <-? Ret l.1 ;;
    started <-? (if b_net self then
                   ret <- sys (WSAStartup 514) ;;
                   if decide (ret ≠ 0) then
                     sys (CloseThreadpool pool) ;;; Ret (Err (OsError ret))
                   else Ret (Ok tt)
                 else Ret (Ok tt)) ;;
    let inner := {| high_queue := {| queue := at_ High; work := high |};
                    normal_queue := {| queue := at_ Normal; work := normal |};
                    low_queue := {| queue := at_ Low; work := low |};
                    inner_callback_environ := ce |} in
    Ret (Ok {| tp_handle := {| inner := inner; handle_priority := Normal;
                               callback_instance := None |} |})).

(** [Builder::default], [Threadpool::builder] *)
Definition builder_default : prog Builder := builder_new.
Definition builder : prog Builder := builder_default.

(** [Threadpool::new] *)
Definition threadpool_new (at_ : Priority → Z) : prog (io_result Threadpool) :=
  b <- builder_default ;; build at_ b.
End programs.
