(* ===== verification/ThreadpoolThm.v ===== *)
(** * What building and dropping a thread pool does to the system's objects

    The trace of the Win32 calls of [Threadpool.v] is audited: every call
    must use objects that are alive.  Building succeeds with exactly the
    objects the handle names, or fails; which failures release everything
    once and which release what twice is [build_outcome]. *)

From S2P Require Import Prelude Prog Win32 Threadpool.

Abbreviation trace := (list (event win32 win32_ans)).

(** ** The audit *)

(** What is alive of what one build takes: its pool, its group, the work objects
    and how often Windows Sockets were started (the code never calls
    [WSACleanup]); and the releases of objects that were not alive any more. *)
Record objects := {
  a_pool : option Z;
  a_group : option Z;
  a_works : list Z;
  a_sockets : nat;
  a_again : list win32;
}.

(** Nothing is alive, but for Windows Sockets. *)
Definition released (sockets : nat) (again : list win32) : objects :=
  {| a_pool := None; a_group := None; a_works := []; a_sockets := sockets; a_again := again |}.

Definition no_objects : objects := released 0 [].

(** A use of an object; [None]: it is not alive. *)
Definition check (b : bool) (h : objects) : option objects := if b then Some h else None.

(** A release; the release of an object that is not alive is kept as such. *)
Definition release (b : bool) (c : win32) (h h' : objects) : option objects :=
  Some (if b then h'
        else {| a_pool := a_pool h; a_group := a_group h; a_works := a_works h;
                a_sockets := a_sockets h; a_again := a_again h ++ [c] |}).

Definition audit_call (c : win32) (h : objects) : win32_ans c → option objects :=
  let '{| a_pool := pool; a_group := group; a_works := works; a_sockets := sockets; a_again := again |} := h in
  match c as c return win32_ans c → option objects with
  | CreateThreadpool => λ r, Some (if is_null r then h else Build_objects (Some r) group works sockets again)
  | CreateThreadpoolCleanupGroup => λ r,
      Some (if is_null r then h else Build_objects pool (Some r) works sockets again)
  | CreateThreadpoolWork _ ce => λ r,
      check (bool_decide (pool = Some (Pool ce) ∧ group = Some (CleanupGroup ce)))
        (if is_null r then h else Build_objects pool group (works ++ [r]) sockets again)
  | SetThreadpoolThreadMaximum p _ => λ _, check (bool_decide (pool = Some p)) h
  | SetThreadpoolThreadMinimum p _ => λ _, check (bool_decide (pool = Some p)) h
  | WSAStartup _ => λ r, Some (if decide (r = 0) then Build_objects pool group works (S sockets) again else h)
  | CloseThreadpoolCleanupGroupMembers g cancel => λ _,
      release (bool_decide (group = Some g)) (CloseThreadpoolCleanupGroupMembers g cancel) h
        (Build_objects pool group [] sockets again)
  | CloseThreadpoolCleanupGroup g => λ _,
      release (bool_decide (group = Some g)) (CloseThreadpoolCleanupGroup g) h
        (Build_objects pool None works sockets again)
  | CloseThreadpool p => λ _,
      release (bool_decide (pool = Some p)) (CloseThreadpool p) h (Build_objects None group works sockets again)
  | _ => λ _, Some h
  end.

(** [None]: some call uses an object that is not alive. *)
Fixpoint audit (tr : trace) (h : objects) : option objects :=
  match tr with
  | [] => Some h
  | Ev c r :: tr => h' ← audit_call c h r; audit tr h'
  end.

Definition creates_work (e : event win32 win32_ans) : bool :=
  match e with Ev (CreateThreadpoolWork _ _) _ => true | _ => false end.
Definition starts_sockets (e : event win32 win32_ans) : bool :=
  match e with Ev (WSAStartup _) _ => true | _ => false end.

(** The objects a handle names. *)
Definition objects_of (inner : HandleInner) (sockets : nat) : objects :=
  let ce := inner_callback_environ inner in
  {| a_pool := Some (Pool ce); a_group := Some (CleanupGroup ce);
     a_works := [work (high_queue inner); work (normal_queue inner); work (low_queue inner)];
     a_sockets := sockets; a_again := [] |}.

(** ** Reasoning about traces *)

Lemma audit_app tr1 tr2 h : audit (tr1 ++ tr2) h = (h' ← audit tr1 h; audit tr2 h').
Proof.
  revert h; induction tr1 as [|[c r] tr1 IH]; intros h; [done|]; simpl.
  destruct (audit_call c h r); simpl; [apply IH | done].
Qed.

(** The calls of the drop of a handle, and of a failed [create_work]. *)
Definition closing (ce : CallbackEnviron) : trace :=
  [Ev (CloseThreadpoolCleanupGroupMembers (CleanupGroup ce) TRUE) tt;
   Ev (CloseThreadpoolCleanupGroup (CleanupGroup ce)) tt; Ev (CloseThreadpool (Pool ce)) tt].

Definition closing_calls (ce : CallbackEnviron) : list win32 :=
  [CloseThreadpoolCleanupGroupMembers (CleanupGroup ce) TRUE; CloseThreadpoolCleanupGroup (CleanupGroup ce);
   CloseThreadpool (Pool ce)].

(** Evaluate an audit call by call. *)
Ltac audit_calls :=
  unfold check, release, no_objects, released, objects_of, closing; simpl;
  repeat (first [ rewrite bool_decide_true by done | rewrite bool_decide_false by done
                | match goal with H : is_null ?x = _ |- context [is_null ?x] => rewrite H end
                | progress (rewrite ?decide_True, ?decide_False by done) ]; simpl).

Lemma wp_drop_inner (i : HandleInner) (tr : trace) Q :
  Q (inl tt) (tr ++ closing (inner_callback_environ i)) → wp (drop_inner i) Q tr.
Proof. intros HQ. simpl. intros [] [] []. by rewrite <- !app_assoc. Qed.

(** ** Building *)

(** Every queue has a work object, created with its own address and the
    priority of the queue, in the pool and the group of the handle. *)
Definition wired (at_ : Priority → Z) (tr : trace) (inner : HandleInner) : Prop :=
  ∀ p, let q := task_queue inner p in
    queue q = at_ p ∧
    Ev (CreateThreadpoolWork (queue q) (with_priority (inner_callback_environ inner) p)) (work q) ∈ tr.

(** The releases of objects already released that a failure makes: none before
    the first work object was requested; all of [closing] when a work object
    could not be created; the pool when Windows Sockets could not be started. *)
Definition released_again (tr : trace) (again : list win32) : Prop :=
  if existsb creates_work tr then
    ∃ ce, Ev CreateThreadpool (Pool ce) ∈ tr ∧ Ev CreateThreadpoolCleanupGroup (CleanupGroup ce) ∈ tr ∧
      again = if existsb starts_sockets tr then [CloseThreadpool (Pool ce)] else closing_calls ce
  else again = [].

(** What [build] leaves behind, by outcome: a success has exactly the objects
    its handle names, and dropping the handle releases each of them once but
    leaves Windows Sockets started; a failure leaves nothing, and releases
    again what [released_again] says. *)
Definition build_post (at_ : Priority → Z) (b : Builder) (r : io_result Threadpool) (tr : trace) : Prop :=
  match r with
  | Ok tp =>
      let inner := inner (tp_handle tp) in
      let sockets := if b_net b then 1%nat else 0%nat in
      audit tr no_objects = Some (objects_of inner sockets) ∧
      wired at_ tr inner ∧
      wp (drop_inner inner) (λ _ tr', audit tr' no_objects = Some (released sockets [])) tr
  | Err _ => ∃ again, audit tr no_objects = Some (released 0 again) ∧ released_again tr again
  end.

Lemma wp_create_work p q ce tr Q :
  (∀ w, is_null w = false →
     Q (inl (Ok w, with_priority ce p)) (tr ++ [Ev (CreateThreadpoolWork q (with_priority ce p)) w])) →
  (∀ e, Q (inl (Err (OsError (as_i32 e)), with_priority ce p))
     (tr ++ Ev (CreateThreadpoolWork q (with_priority ce p)) null :: closing ce ++ [Ev GetLastError e])) →
  wp (create_work p q ce) Q tr.
Proof.
  intros Hok Herr. unfold create_work. simpl. intros w. destruct (is_null w) eqn:Hw; simpl.
  - intros [] [] [] e. rewrite <- !app_assoc. unfold is_null in Hw. apply bool_decide_eq_true in Hw as ->.
    apply Herr.
  - by apply Hok.
Qed.

(** Leaving with an error drops the handle. *)
Lemma wp_or_drop {A} i (p : prog win32 win32_ans (io_result A)) tr Q :
  wp p (λ x tr1, match x with
                 | inl (Err e) => Q (inl (Err e)) (tr1 ++ closing (inner_callback_environ i))
                 | x => Q x tr1
                 end) tr →
  wp (or_drop i p) Q tr.
Proof.
  intros Hp. apply wp_bind. eapply wp_mono; [|exact Hp]. intros [[a|e]|f] tr' HQ; [done| |done].
  apply wp_bind, wp_drop_inner, HQ.
Qed.

#[local] Opaque create_work or_drop drop_inner.

(** The trace of a build that made all its calls. *)
Lemma built_ok at_ b pool minimum group high normal low t :
  let ce := {| Version := 3; Pool := pool; CleanupGroup := group; CallbackPriority := 1 |} in
  let i := {| high_queue := {| queue := at_ High; work := high |};
              normal_queue := {| queue := at_ Normal; work := normal |};
              low_queue := {| queue := at_ Low; work := low |}; inner_callback_environ := ce |} in
  let tr := [Ev CreateThreadpool pool; Ev (SetThreadpoolThreadMaximum pool (b_max_threads b)) ();
    Ev (SetThreadpoolThreadMinimum pool (b_min_threads b)) minimum;
    Ev CreateThreadpoolCleanupGroup group;
    Ev (CreateThreadpoolWork (at_ High) (with_priority ce High)) high;
    Ev (CreateThreadpoolWork (at_ Normal) (with_priority ce Normal)) normal;
    Ev (CreateThreadpoolWork (at_ Low) (with_priority ce Low)) low] ++ t in
  is_null pool = false → is_null group = false →
  is_null high = false → is_null normal = false → is_null low = false →
  t = (if b_net b then [Ev (WSAStartup 514) 0] else []) →
  build_post at_ b (Ok {| tp_handle := {| inner := i; handle_priority := Normal; callback_instance := None |} |}) tr.
Proof.
  intros ce i tr ????? Ht. unfold build_post. cbn [tp_handle inner]. set (sockets := if b_net b then 1%nat else 0%nat).
  assert (audit tr no_objects = Some (objects_of i sockets)) as Ha.
  { subst tr t sockets. destruct (b_net b); by audit_calls. }
  split; [done|]. split.
  - intros []; split; set_solver.
  - apply wp_drop_inner. rewrite audit_app, Ha. by audit_calls.
Qed.

(** A failure at a work object or at Windows Sockets. *)
Ltac released_twice pool group :=
  eexists; split; [by audit_calls|]; unfold released_again; simpl;
  exists {| Version := 3; Pool := pool; CleanupGroup := group; CallbackPriority := 1 |};
  split_and!; [set_solver|set_solver|done].

Lemma wp_build at_ b :
  wp (build at_ b) (λ x tr, match x with inl r => build_post at_ b r tr | inr _ => False end) [].
Proof.
  unfold build. simpl. intros pool. destruct (is_null pool) eqn:Hp; simpl.
  { intros e. exists []. split; by audit_calls. }
  intros [] minimum. case_decide; simpl; [intros [] e; exists []; split; by audit_calls|].
  intros group. destruct (is_null group) eqn:Hg; simpl; [intros [] e; exists []; split; by audit_calls|].
  apply wp_or_drop, wp_bind, wp_create_work; simpl; [|intros e; released_twice pool group].
  intros high Hh. apply wp_bind, wp_create_work; simpl; [|intros e; released_twice pool group].
  intros normal Hn. apply wp_bind, wp_create_work; simpl; [|intros e; released_twice pool group].
  intros low Hl. destruct (b_net b) eqn:Hb; simpl.
  - intros ret. destruct (decide (ret ≠ 0)) as [Hr|Hr]; simpl.
    + intros []. released_twice pool group.
    + assert (ret = 0) as -> by (destruct (decide (ret = 0)); tauto).
      apply (built_ok at_ b pool minimum group high normal low [Ev (WSAStartup 514) 0]); by rewrite ?Hb.
  - apply (built_ok at_ b pool minimum group high normal low []); by rewrite ?Hb.
Qed.

(** C22. Building a thread pool returns, for every behaviour of the system; on
    success every queue is wired to a work object of its priority, exactly the
    objects the handle names are alive, and dropping the handle releases each
    of them once, while Windows Sockets stay started when they were; on
    failure nothing stays alive, but when a work object could not be created
    the group and the pool are closed twice, and when Windows Sockets could not
    be started the pool is. *)
Theorem build_outcome at_ b (o : oracle) :
  ∃ r tr, calls (build at_ b) o [] = (Some (inl r), tr) ∧ build_post at_ b r tr.
Proof.
  destruct (wp_calls _ _ o [] (wp_build at_ b)) as ([r|f] & tr & Hc & Hpost); [|done].
  by exists r, tr.
Qed.

(** ** The bounds on the number of threads *)

Definition maxima (tr : trace) : list Z :=
  omap (λ e : event win32 win32_ans,
    match e with Ev (SetThreadpoolThreadMaximum _ m) _ => Some m | _ => None end) tr.
Definition minima (tr : trace) : list Z :=
  omap (λ e : event win32 win32_ans,
    match e with Ev (SetThreadpoolThreadMinimum _ m) _ => Some m | _ => None end) tr.

#[local] Transparent create_work or_drop drop_inner.

Lemma build_bounds at_ b (o : oracle) :
  let tr := (calls (build at_ b) o []).2 in
  maxima tr = (if is_null (o 0%nat CreateThreadpool) then [] else [b_max_threads b]) ∧
  minima tr = (if is_null (o 0%nat CreateThreadpool) then [] else [b_min_threads b]).
Proof.
  assert (wp (build at_ b) (λ _ tr, match tr with
    | Ev CreateThreadpool p :: _ =>
        maxima tr = (if is_null p then [] else [b_max_threads b]) ∧
        minima tr = (if is_null p then [] else [b_min_threads b])
    | _ => False end) []) as Hwp.
  { unfold build, or_drop, create_work, drop_inner. simpl. intros pool.
    destruct (is_null pool) eqn:Hp; simpl; [intros ?; by rewrite Hp|].
    repeat (first [progress simpl | case_decide | case_match | intros ?]); try congruence; by rewrite ?Hp. }
  change (calls (build at_ b) o []) with
    (calls (match build at_ b with Act c k => k (o 0%nat c) | p => p end) o
       [Ev CreateThreadpool (o 0%nat CreateThreadpool)]).
  destruct (wp_calls _ _ o _ (Hwp (o 0%nat CreateThreadpool))) as (x & tr & Hc & Htr).
  destruct (calls_extends (match build at_ b with Act c k => k (o 0%nat c) | p => p end) o
    [Ev CreateThreadpool (o 0%nat CreateThreadpool)]) as [t Ht].
  simpl in *. rewrite Hc in Ht |- *. simpl in Ht. by subst tr.
Qed.

(** The setters of the builder are swapped: [min_threads(n)] bounds the
    number of threads from above and leaves the lower bound as it was, and
    [max_threads(n)] does the opposite. *)
Theorem builder_setters_are_swapped at_ b n (o : oracle) :
  let created := negb (is_null (o 0%nat CreateThreadpool)) in
  let tr := (calls (build at_ (min_threads b n)) o []).2 in
  let tr' := (calls (build at_ (max_threads b n)) o []).2 in
  (maxima tr, minima tr) = (if created then ([n], [b_min_threads b]) else ([], [])) ∧
  (maxima tr', minima tr') = (if created then ([b_max_threads b], [n]) else ([], [])).
Proof.
  intros created tr tr'. subst created tr tr'.
  destruct (build_bounds at_ (min_threads b n) o) as [-> ->].
  destruct (build_bounds at_ (max_threads b n) o) as [-> ->].
  by destruct (is_null _).
Qed.
