(* ===== verification/Context.v ===== *)
(** * The thread-local context: [src/src/context.rs]

    [HANDLE] is a thread-local cell; entering a handle stores it there and
    returns a guard that puts the previous content back when it is dropped.
    The operations are programs over one atomic access to the cell, so that
    the callback of the thread pool ([Executor]) is built from them. *)

From S2P Require Import Prelude Prog Win32 Threadpool.

(** ** Accesses *)

Inductive tls :=
| TGet                            (* HANDLE.with(|h| h.borrow().clone()) *)
| TReplace (h : option Handle).   (* replace the content, answer the old one *)

(** Both accesses answer the content found. *)
Definition tls_step (a : tls) (s : option Handle) : option Handle * option Handle :=
  match a with
  | TGet => (s, s)
  | TReplace h => (s, h)
  end.

(** An action type that contains the accesses to the cell. *)
Class HasTls (act : Type) (ans : act → Type) := {
  tls_act : tls → act;
  tls_ans : ∀ a, ans (tls_act a) → option Handle;
}.

(** ** Operations *)

Record ContextGuard := { previous : option Handle }.

Section ops.
Context {act : Type} {ans : act → Type} `{!HasTls act ans}.
Abbreviation prog := (prog act ans).

Definition with_handle (a : tls) : prog (option Handle) :=
  Act (tls_act a) (λ r, Ret (tls_ans a r)).

(** [Handle::enter] *)
Definition enter (self : Handle) : prog ContextGuard :=
  previous <- with_handle (TReplace (Some self)) ;;
  Ret {| previous := previous |}.

(** [impl Drop for ContextGuard] *)
Definition drop_guard (self : ContextGuard) : prog unit :=
  with_handle (TReplace (previous self)) ;;; Ret tt.

(** [Handle::try_current] *)
Definition try_current : prog (option Handle) := with_handle TGet.

(** [Handle::current] *)
Definition current : prog Handle :=
  h <- try_current ;;
  match h with
  | Some h => Ret h
  | None => Fault (Panicked "no wae context")
  end.
End ops.

(** ** A thread that enters and leaves *)

#[export] Instance tls_self : HasTls tls (λ _, option Handle) := {
  tls_act a := a;
  tls_ans _ r := r;
}.

(** What a thread does with its guards: enter a handle, or drop the [i]-th
    guard it holds, the most recent one first.  Rust lets it drop them in any
    order. *)
Inductive scope := Enter (h : Handle) | Leave (i : nat).

Record thread := {
  cell : option Handle;
  guards : list (Handle * ContextGuard);   (* the handle entered, its guard *)
}.

Definition tstep_tls (a : tls) (_ : unit) (s : option Handle) : option (option Handle * option Handle) :=
  Some (tls_step a s).

(** Run one operation on the cell of the thread. *)
Definition on_cell {A} (p : prog tls (λ _, option Handle) A) (s : option Handle) :
    option (A * option Handle) :=
  match run_to tstep_tls 3 tt p s with
  | Some (inl a, s') => Some (a, s')
  | _ => None
  end.

Definition scope_step (op : scope) (t : thread) : option thread :=
  match op with
  | Enter h =>
      '(g, s) ← on_cell (enter h) (cell t);
      Some {| cell := s; guards := (h, g) :: guards t |}
  | Leave i =>
      '(h, g) ← guards t !! i;
      '(_, s) ← on_cell (drop_guard g) (cell t);
      Some {| cell := s; guards := delete i (guards t) |}
  end.

(** A fresh thread whose cell contains [s0]. *)
#[export] Instance scope_lts (s0 : option Handle) : LTS scope thread := {
  linit := {| cell := s0; guards := [] |};
  lstep := scope_step;
}.

Definition innermost (s0 : option Handle) (t : thread) : option Handle :=
  match guards t with (h, _) :: _ => Some h | [] => s0 end.

(** Guards dropped in the reverse order of their creation. *)
Definition nested (op : scope) : bool :=
  match op with Leave (S _) => false | _ => true end.

(** ** What the guards guarantee *)

(** Each guard remembers the handle entered below it. *)
Fixpoint stacked (s0 : option Handle) (gs : list (Handle * ContextGuard)) : Prop :=
  match gs with
  | [] => True
  | (_, g) :: gs =>
      previous g = match gs with (h, _) :: _ => Some h | [] => s0 end ∧ stacked s0 gs
  end.

Lemma nested_step s0 op t t' :
  nested op = true → cell t = innermost s0 t ∧ stacked s0 (guards t) →
  scope_step op t = Some t' → cell t' = innermost s0 t' ∧ stacked s0 (guards t').
Proof.
  intros Hop [Hc Hs] Hstep. destruct t as [c gs]. unfold innermost in Hc. simpl in *. subst c.
  destruct op as [h|[|i]]; simplify_eq/=; [done|].
  destruct gs as [|[h g] gs]; simplify_eq/=. by destruct Hs as [-> ?].
Qed.

(** As long as a thread drops its guards in the reverse order of their
    creation, the current handle is the innermost one entered and not yet
    left, and the one found at the start once every guard is gone. *)
Theorem current_is_innermost s0 ops t :
  forallb nested ops = true →
  exec (H := scope_lts s0) ops {| cell := s0; guards := [] |} = Some t →
  on_cell try_current (cell t) = Some (innermost s0 t, cell t) ∧
  (guards t = [] → cell t = s0).
Proof.
  intros Hops Hex.
  assert (cell t = innermost s0 t ∧ stacked s0 (guards t)) as [Hc _].
  { refine (exec_preserved_by (H := scope_lts s0) nested
      (λ t, cell t = innermost s0 t ∧ stacked s0 (guards t)) ops _ t _ Hops _ Hex); [|done].
    apply nested_step. }
  split; [by rewrite <- Hc|]. rewrite Hc. unfold innermost. by intros ->.
Qed.

(** *** Instances *)

Definition env0 : CallbackEnviron := {| Version := 3; Pool := 1; CleanupGroup := 2; CallbackPriority := 1 |}.
Definition inner0 : HandleInner := {|
  high_queue := {| queue := 10; work := 11 |};
  normal_queue := {| queue := 20; work := 21 |};
  low_queue := {| queue := 30; work := 31 |};
  inner_callback_environ := env0 |}.
Definition handle0 (p : Priority) : Handle :=
  {| inner := inner0; handle_priority := p; callback_instance := None |}.

Lemma current_is_innermost_witness :
  let ops := [Enter (handle0 High); Enter (handle0 Low); Leave 0] in
  ∃ t, exec (H := scope_lts None) ops {| cell := None; guards := [] |} = Some t ∧
    innermost None t = Some (handle0 High) ∧
    on_cell try_current (cell t) = Some (innermost None t, cell t) ∧
    (guards t = [] → cell t = None).
Proof.
  intros ops. eexists. split; [vm_compute; reflexivity|]. split; [reflexivity|].
  by apply (current_is_innermost None ops).
Defined.

(** Guards dropped in the other order leave a handle current that no
    live guard has entered: [a.enter()], [b.enter()], then the guard of [a]
    and the guard of [b] are dropped, and [a] is current although the thread
    had none at the start. *)
Theorem guards_out_of_order_leave_a_stale_handle (a b : Handle) :
  ∃ t, exec (H := scope_lts None) [Enter a; Enter b; Leave 1; Leave 0]
         {| cell := None; guards := [] |} = Some t ∧
    guards t = [] ∧ on_cell try_current (cell t) = Some (Some a, Some a).
Proof. eexists. split; [reflexivity|]. by split. Qed.
