(* ===== verification/Executor.v ===== *)
(** * Running tasks on the thread pool

    [Handle::push_task] (threadpool.rs) and the work callback
    (task/spawn.rs), and the system they form: threads that push tasks, the
    three queues, the work submissions the operating system has not started
    yet, and the callbacks running on the pool, each with its thread's
    [HANDLE]. *)

From S2P Require Import Prelude Prog Extern Win32 Threadpool Context.

(** ** Actions *)

Inductive xact (R : Type) :=
| XPush (queue : Z) (task : R * Handle)  (* queue.push(task).is_ok() *)
| XPop (queue : Z)                       (* queue.pop().ok() *)
| XTls (a : tls)
| XRun (runnable : R)                    (* catch_unwind(move || runnable.run()).ok() *)
| XSys (c : win32).
Arguments XPush {R} _ _.
Arguments XPop {R} _.
Arguments XTls {R} _.
Arguments XRun {R} _.
Arguments XSys {R} _.

Definition xans {R} (a : xact R) : Type :=
  match a with
  | XPush _ _ => bool
  | XPop _ => option (R * Handle)
  | XTls _ => option Handle
  | XRun _ => unit
  | XSys c => win32_ans c
  end.

#[export] Instance xact_win32 {R} : HasWin32 (xact R) xans := {
  win32_act := XSys;
  win32_res _ r := r;
}.

#[export] Instance xact_tls {R} : HasTls (xact R) xans := {
  tls_act := XTls;
  tls_ans _ r := r;
}.

(** ** Code *)

Section code.
Context {R : Type}.
Abbreviation prog := (prog (xact R) xans).

(** [Handle::push_task] *)
Definition push_task (self : Handle) (runnable : R) : prog unit :=
  let queue :=
    match handle_priority self with
    | High => high_queue (inner self)
    | Normal => normal_queue (inner self)
    | Low => low_queue (inner self)
    end in
  pushed <- act1 (XPush (Threadpool.queue queue) (runnable, self)) ;;
  if (pushed : bool) then sys (SubmitThreadpoolWork (work queue))
  else Fault (Panicked "called `Result::unwrap()` on an `Err` value").

(** [handle.callback_instance.replace(instance)] *)
Definition with_instance (h : Handle) (instance : Z) : Handle :=
  {| inner := inner h; handle_priority := handle_priority h; callback_instance := Some instance |}.

(** The work callback; [context] is the address of the queue.  The guard is
    dropped when it returns, and a panic of the task stays inside [XRun]. *)
Definition callback (instance context : Z) : prog unit :=
  popped <- act1 (XPop context) ;;
  match (popped : option (R * Handle)) with
  | None => Fault (Panicked "called `Result::unwrap()` on an `Err` value")
  | Some (runnable, handle) =>
      let handle := with_instance handle instance in
      guard <- enter handle ;;
      act1 (XRun runnable) ;;;
      drop_guard guard
  end.
End code.

(** ** The system *)

Section system.
Context {R Q : Type} `{!ConcurrentQueue Q (R * Handle)}.
Abbreviation prog := (prog (xact R) xans).

(** [the_inner]: the shared part of the pool's handles; [context_of]: the
    context each work object was created with. *)
Context (the_inner : HandleInner) (context_of : Z → Z).

Record shared := {
  queues : Z → Q;                         (* by address *)
  submitted : list Z;                     (* work objects submitted, callback not started *)
  pushed : list (Z * (R * Handle));       (* every push, with its queue *)
  popped : list (Z * (R * Handle));       (* every pop, with its queue *)
  ran : list (R * option Handle);         (* what was run, and the current handle then *)
}.

Record worker := {
  w_instance : Z;            (* the PTP_CALLBACK_INSTANCE the system passed to it *)
  w_found : option Handle;   (* the content of its thread's HANDLE when it started *)
  w_cell : option Handle;    (* and now *)
  w_prog : prog unit;
}.

Record config := {
  sh : shared;
  pushers : list (prog unit);
  workers : list worker;
  finished : list (option Handle * option Handle);   (* the cell before and after a callback *)
}.

Definition at_address (a : Z) (q : Q) (f : Z → Q) : Z → Q :=
  λ b, if decide (b = a) then q else f b.

(** The answer and the effect of an action of a thread whose cell is [s.2]. *)
Definition xstep (a : xact R) (_ : unit) (s : shared * option Handle) :
    option (xans a * (shared * option Handle)) :=
  let '(c, cell) := s in
  match a return option (xans a * (shared * option Handle)) with
  | XPush q t =>
      match cq_push t (queues c q) with
      | Some q' => Some (true, ({| queues := at_address q q' (queues c); submitted := submitted c;
                                   pushed := pushed c ++ [(q, t)]; popped := popped c; ran := ran c |}, cell))
      | None => Some (false, s)
      end
  | XPop q =>
      match cq_pop (queues c q) with
      | Some (t, q') => Some (Some t, ({| queues := at_address q q' (queues c); submitted := submitted c;
                                          pushed := pushed c; popped := popped c ++ [(q, t)]; ran := ran c |}, cell))
      | None => Some (None, s)
      end
  | XTls a => let '(r, cell') := tls_step a cell in Some (r, (c, cell'))
  | XRun r => Some (tt, ({| queues := queues c; submitted := submitted c; pushed := pushed c;
                            popped := popped c; ran := ran c ++ [(r, cell)] |}, cell))
  | XSys (SubmitThreadpoolWork w) =>
      Some (tt, ({| queues := queues c; submitted := submitted c ++ [w]; pushed := pushed c;
                    popped := popped c; ran := ran c |}, cell))
  | XSys _ => None
  end.

Inductive label :=
| LPush (h : Handle) (r : R)             (* a thread schedules a task on a handle of the pool *)
| LPusher (i : nat)                      (* one step of such a thread *)
| LDispatch (i : nat) (instance : Z) (found : option Handle)
                                         (* the system starts a submitted callback *)
| LWorker (i : nat)                      (* one step of a callback *)
| LDone (i : nat).                       (* a callback has returned *)

Definition with_shared (c : config) (s : shared) : config :=
  {| sh := s; pushers := pushers c; workers := workers c; finished := finished c |}.

Definition ended (p : prog unit) : bool := match p with Ret _ => true | _ => false end.

Definition pool_step (l : label) (c : config) : option config :=
  match l with
  | LPush h r =>
      if decide (inner h = the_inner) then
        Some {| sh := sh c; pushers := pushers c ++ [push_task h r];
                workers := workers c; finished := finished c |}
      else None
  | LPusher i =>
      p ← pushers c !! i;
      '(p', (s', _)) ← tstep xstep tt p (sh c, None);
      Some {| sh := s'; workers := workers c; finished := finished c;
              pushers := if ended p' then delete i (pushers c) else <[i := p']> (pushers c) |}
  | LDispatch i instance found =>
      w ← submitted (sh c) !! i;
      let s := sh c in
      Some {| sh := {| queues := queues s; submitted := delete i (submitted s); pushed := pushed s;
                       popped := popped s; ran := ran s |};
              pushers := pushers c; finished := finished c;
              workers := workers c ++ [{| w_instance := instance; w_found := found; w_cell := found;
                                          w_prog := callback instance (context_of w) |}] |}
  | LWorker i =>
      w ← workers c !! i;
      '(p', (s', cell')) ← tstep xstep tt (w_prog w) (sh c, w_cell w);
      Some {| sh := s'; pushers := pushers c; finished := finished c;
              workers := <[i := {| w_instance := w_instance w; w_found := w_found w; w_cell := cell';
                                w_prog := p' |}]> (workers c) |}
  | LDone i =>
      w ← workers c !! i;
      if ended (w_prog w) then
        Some {| sh := sh c; pushers := pushers c; workers := delete i (workers c);
                finished := finished c ++ [(w_found w, w_cell w)] |}
      else None
  end.

Definition start : config := {|
  sh := {| queues := λ _, cq_unbounded; submitted := []; pushed := []; popped := []; ran := [] |};
  pushers := []; workers := []; finished := [];
|}.

#[export] Instance pool_lts : LTS label config := {
  linit := start;
  lstep := pool_step;
}.
End system.
Arguments shared : clear implicits.
Arguments worker : clear implicits.
Arguments config : clear implicits.
Arguments label : clear implicits.

(** The schedules without new pushes. *)
Definition internal {R} (l : label R) : bool := match l with LPush _ _ => false | _ => true end.
