(* ===== verification/ExecutorThm.v ===== *)
(** * What the executor guarantees

    Program counters for [push_task] and [callback], the invariant that ties
    the work submissions to the content of the queues, and the theorems: no
    panic, first in first out, every task pushed is run once, in its own
    context, and the thread's context is restored. *)

From S2P Require Import Prelude Prog Extern Win32 Threadpool ThreadpoolThm Context Executor.

Section executor.
Context {R Q : Type} `{ConcurrentQueueLaws Q (R * Handle)}.
Context (the_inner : HandleInner) (context_of : Z → Z).

(** The work objects were created with the address of their own queue. *)
Context (Hwired : ∀ p, context_of (work (task_queue the_inner p)) = queue (task_queue the_inner p)).

Abbreviation config := (config R Q).
Abbreviation shared := (shared R Q).
Abbreviation prog := (prog (xact R) xans).
#[local] Instance lts : LTS (label R) config := pool_lts the_inner context_of.
Implicit Types (c : config) (s : shared).

(** ** Program counters *)

Inductive pphase := PPush (h : Handle) (r : R) | PSubmit (h : Handle).

Definition queue_of (h : Handle) : TaskQueue := task_queue (inner h) (handle_priority h).

Definition pden (ph : pphase) : prog unit :=
  match ph with
  | PPush h r => push_task h r
  | PSubmit h => sys (SubmitThreadpoolWork (work (queue_of h)))
  end.

Inductive wphase :=
| WPop (instance context : Z)
| WEnter (r : R) (h : Handle)
| WRun (r : R) (g : ContextGuard)
| WLeave (g : ContextGuard)
| WDone.

Definition wden (ph : wphase) : prog unit :=
  match ph with
  | WPop instance context => callback instance context
  | WEnter r h => guard <- enter h ;; act1 (XRun r) ;;; drop_guard guard
  | WRun r g => act1 (XRun r) ;;; drop_guard g
  | WLeave g => drop_guard g
  | WDone => Ret tt
  end.

(** ** The invariant *)

(** A task without the callback instance of its handle. *)
Definition mask (h : Handle) : Handle :=
  {| inner := inner h; handle_priority := handle_priority h; callback_instance := None |}.

Definition masked (t : R * Handle) : R * Handle := (t.1, mask t.2).

(** A callback: where it is, its instance, the cell it found and its cell now. *)
Record view := { v_ph : wphase; v_instance : Z; v_found : option Handle; v_cell : option Handle }.

Definition to_worker (v : view) : worker R :=
  {| w_instance := v_instance v; w_found := v_found v; w_cell := v_cell v; w_prog := wden (v_ph v) |}.

(** The tasks a callback has popped and not run yet. *)
Definition holding (v : view) : list (R * Handle) :=
  match v_ph v, v_cell v with
  | WEnter r h, _ => [(r, mask h)]
  | WRun r _, Some h => [(r, mask h)]
  | _, _ => []
  end.

Definition holdings (vs : list view) : list (R * Handle) := mjoin (holding <$> vs).

(** What a run logged, without the instance. *)
Definition run_task (e : R * option Handle) : option (R * Handle) :=
  match e.2 with Some h => Some (e.1, mask h) | None => None end.

Definition has_instance (o : option Handle) : Prop :=
  match o with Some h => is_Some (callback_instance h) | None => False end.

(** The handle of the callback [instance]. *)
Definition carries (instance : Z) (o : option Handle) : Prop :=
  match o with Some h => callback_instance h = Some instance | None => False end.

Lemma carries_has instance o : carries instance o → has_instance o.
Proof. destruct o as [h|]; [|done]. by eexists. Qed.

Definition view_ok (v : view) : Prop :=
  match v_ph v with
  | WPop instance _ => v_cell v = v_found v ∧ v_instance v = instance
  | WDone => v_cell v = v_found v
  | WEnter _ h => v_cell v = v_found v ∧ carries (v_instance v) (Some h)
  | WRun _ g => previous g = v_found v ∧ carries (v_instance v) (v_cell v)
  | WLeave g => previous g = v_found v
  end.

Definition is_pop (a : Z) (v : view) : bool :=
  match v_ph v with WPop _ b => bool_decide (b = a) | _ => false end.
Definition is_submit (a : Z) (ph : pphase) : bool :=
  match ph with PSubmit h => bool_decide (queue (queue_of h) = a) | _ => false end.
Definition for_queue (a : Z) (w : Z) : bool := bool_decide (context_of w = a).

Definition phandle (ph : pphase) : Handle := match ph with PPush h _ | PSubmit h => h end.

(** The part of the invariant about the queues and the threads. *)
Record threads_inv (s : shared) (ps : list pphase) (vs : list view) : Prop := {
  inv_handles : Forall (λ ph, inner (phandle ph) = the_inner) ps;
  inv_views : Forall view_ok vs;
  inv_count : ∀ a, length (cq_items (queues s a)) =
    (count (for_queue a) (submitted s) + count (is_pop a) vs + count (is_submit a) ps)%nat;
  inv_pushed : Forall (λ e : Z * (R * Handle),
    inner e.2.2 = the_inner ∧ e.1 = queue (queue_of e.2.2)) (pushed s);
  inv_fifo : ∀ a, at_key a (pushed s) = at_key a (popped s) ++ cq_items (queues s a);
  inv_ran : masked <$> (popped s).*2 ≡ₚ omap run_task (ran s) ++ holdings vs;
  inv_context : Forall (λ e : R * option Handle, has_instance e.2) (ran s);
}.

Definition inv (c : config) (ps : list pphase) (vs : list view) : Prop :=
  pushers c = pden <$> ps ∧ workers c = to_worker <$> vs ∧
  Forall (λ e : option Handle * option Handle, e.1 = e.2) (finished c) ∧
  threads_inv (sh c) ps vs.

(** The number of steps left, pushes excepted. *)
Definition pweight (ph : pphase) : nat := match ph with PPush _ _ => 8 | PSubmit _ => 7 end.
Definition vweight (v : view) : nat :=
  match v_ph v with WPop _ _ => 5 | WEnter _ _ => 4 | WRun _ _ => 3 | WLeave _ => 2 | WDone => 1 end.
Definition weight (s : shared) (ps : list pphase) (vs : list view) : nat :=
  total pweight ps + 6 * length (submitted s) + total vweight vs.

Lemma queue_wired h : inner h = the_inner → context_of (work (queue_of h)) = queue (queue_of h).
Proof. unfold queue_of. intros ->. apply Hwired. Qed.

Lemma inv_start : inv start [] [].
Proof.
  split_and!; [done..|]. constructor; simpl; try done; intros a; by rewrite cq_items_unbounded.
Qed.

(** ** Lists of callbacks *)

Lemma holdings_insert vs i v v' :
  vs !! i = Some v → holdings (<[i := v']> vs) ++ holding v ≡ₚ holdings vs ++ holding v'.
Proof.
  intros Hi. unfold holdings. rewrite <- (take_drop_middle vs i v Hi) at 2.
  rewrite insert_take_drop by by eapply lookup_lt_Some.
  rewrite !fmap_app, !join_app. simpl. solve_Permutation.
Qed.

Lemma holdings_delete vs i v :
  vs !! i = Some v → holdings vs ≡ₚ holdings (delete i vs) ++ holding v.
Proof.
  intros Hi. unfold holdings. rewrite <- (take_drop_middle vs i v Hi) at 1.
  rewrite delete_take_drop, !fmap_app, !join_app. simpl. solve_Permutation.
Qed.

(** ** One lemma per move *)

Lemma push_inv s ps vs i h r :
  threads_inv s ps vs → ps !! i = Some (PPush h r) →
  ∃ q', cq_push (r, h) (queues s (queue (queue_of h))) = Some q' ∧
    threads_inv {| queues := at_address (queue (queue_of h)) q' (queues s); submitted := submitted s;
                   pushed := pushed s ++ [(queue (queue_of h), (r, h))]; popped := popped s; ran := ran s |}
      (<[i := PSubmit h]> ps) vs.
Proof.
  intros [Hh Hv Hc Hpu Hf Hr Hx] Hi.
  destruct (cq_push_ok (r, h) (queues s (queue (queue_of h)))) as (q' & Hq & Hit).
  exists q'. split; [done|]. constructor; simpl; try done.
  - apply Forall_insert; [done|]. by apply (Forall_lookup_1 _ _ _ _ Hh Hi).
  - intros a. pose proof (count_insert (is_submit a) ps i _ (PSubmit h) Hi) as Hci. simpl in Hci.
    unfold at_address. specialize (Hc a). destruct (decide (a = _)) as [->|Hne].
    + rewrite bool_decide_true in Hci by done. rewrite Hit, length_app. simpl. lia.
    + rewrite bool_decide_false in Hci by done. lia.
  - apply Forall_app. split; [done|]. apply Forall_singleton. split; [|done].
    by apply (Forall_lookup_1 _ _ _ _ Hh Hi).
  - intros a. rewrite at_key_app, at_key_one, Hf. unfold at_address.
    destruct (decide (a = _)) as [->|Hne].
    + rewrite decide_True by done. by rewrite Hit, app_assoc.
    + rewrite decide_False by done. by rewrite app_nil_r.
Qed.

Lemma submit_inv s ps vs i h :
  threads_inv s ps vs → ps !! i = Some (PSubmit h) →
  threads_inv {| queues := queues s; submitted := submitted s ++ [work (queue_of h)];
                 pushed := pushed s; popped := popped s; ran := ran s |} (delete i ps) vs.
Proof.
  intros [Hh Hv Hc Hpu Hf Hr Hx] Hi. constructor; simpl; try done.
  - by apply Forall_delete.
  - intros a. pose proof (count_delete (is_submit a) ps i _ Hi) as Hci. simpl in Hci.
    rewrite count_app. simpl. unfold for_queue at 2.
    rewrite queue_wired by (by apply (Forall_lookup_1 _ _ _ _ Hh Hi)).
    specialize (Hc a). case_bool_decide; lia.
Qed.

Lemma dispatch_inv s ps vs i w instance found :
  threads_inv s ps vs → submitted s !! i = Some w →
  threads_inv {| queues := queues s; submitted := delete i (submitted s);
                 pushed := pushed s; popped := popped s; ran := ran s |} ps
    (vs ++ [{| v_ph := WPop instance (context_of w); v_instance := instance; v_found := found; v_cell := found |}]).
Proof.
  intros [Hh Hv Hc Hpu Hf Hr Hx] Hi. constructor; simpl; try done.
  - apply Forall_app. split; [done|]. by apply Forall_singleton.
  - intros a. pose proof (count_delete (for_queue a) _ i _ Hi) as Hci.
    rewrite count_app. simpl. unfold is_pop at 2. simpl. fold (for_queue a w).
    specialize (Hc a). destruct (for_queue a w); lia.
  - unfold holdings in *. rewrite fmap_app, join_app. simpl. by rewrite app_nil_r.
Qed.

Lemma pop_inv s ps vs i instance a found :
  threads_inv s ps vs →
  vs !! i = Some {| v_ph := WPop instance a; v_instance := instance; v_found := found; v_cell := found |} →
  ∃ r h q', cq_pop (queues s a) = Some ((r, h), q') ∧
    threads_inv {| queues := at_address a q' (queues s); submitted := submitted s;
                   pushed := pushed s; popped := popped s ++ [(a, (r, h))]; ran := ran s |} ps
      (<[i := {| v_ph := WEnter r (with_instance h instance); v_instance := instance; v_found := found; v_cell := found |}]> vs).
Proof.
  intros [Hh Hv Hc Hpu Hf Hr Hx] Hi.
  assert (0 < length (cq_items (queues s a)))%nat as Hpos.
  { rewrite Hc. pose proof (count_pos (is_pop a) vs i _ Hi) as Hp. simpl in Hp.
    specialize (Hp ltac:(by unfold is_pop; simpl; rewrite bool_decide_true)). lia. }
  pose proof (cq_pop_spec (queues s a)) as Hspec.
  destruct (cq_items (queues s a)) as [|[r h] xs] eqn:Hit; [simpl in Hpos; lia|].
  destruct Hspec as (q' & Hq & Hxs). exists r, h, q'. split; [done|]. constructor; simpl; try done.
  - by apply Forall_insert.
  - intros b. pose proof (count_insert (is_pop b) vs i _
      {| v_ph := WEnter r (with_instance h instance); v_instance := instance; v_found := found; v_cell := found |} Hi) as Hci.
    unfold is_pop at 2 4 in Hci. simpl in Hci. specialize (Hc b). unfold at_address.
    destruct (decide (b = a)) as [->|Hne].
    + rewrite bool_decide_true in Hci by done. rewrite Hit in Hc. rewrite Hxs. simpl in Hc. lia.
    + rewrite bool_decide_false in Hci by done. lia.
  - intros b. rewrite at_key_app, at_key_one, Hf. unfold at_address.
    destruct (decide (b = a)) as [->|Hne].
    + rewrite decide_True by done. by rewrite Hxs, Hit, <- app_assoc.
    + rewrite decide_False by done. by rewrite app_nil_r.
  - rewrite !fmap_app. simpl. rewrite Hr.
    pose proof (holdings_insert vs i _
      {| v_ph := WEnter r (with_instance h instance); v_instance := instance; v_found := found; v_cell := found |} Hi) as Hp.
    unfold holding in Hp. simpl in Hp. rewrite app_nil_r in Hp. rewrite Hp.
    by rewrite <- app_assoc.
Qed.

(** A callback moves without touching the shared state. *)
Lemma move_inv s ps vs i v v' :
  threads_inv s ps vs → vs !! i = Some v → view_ok v' → holding v' = holding v →
  (∀ a, is_pop a v' = is_pop a v) → threads_inv s ps (<[i := v']> vs).
Proof.
  intros [Hh Hv Hc Hpu Hf Hr Hx] Hi Hok Hho Hp. constructor; try done.
  - by apply Forall_insert.
  - intros a. pose proof (count_insert (is_pop a) vs i _ v' Hi) as Hci.
    rewrite Hp in Hci. specialize (Hc a). lia.
  - rewrite Hr. pose proof (holdings_insert vs i v v' Hi) as Hpm. rewrite Hho in Hpm.
    by apply Permutation_app_inv_r in Hpm as ->.
Qed.

Lemma run_inv s ps vs i r g instance found h :
  threads_inv s ps vs → vs !! i = Some {| v_ph := WRun r g; v_instance := instance; v_found := found; v_cell := Some h |} →
  threads_inv {| queues := queues s; submitted := submitted s; pushed := pushed s; popped := popped s;
                 ran := ran s ++ [(r, Some h)] |} ps
    (<[i := {| v_ph := WLeave g; v_instance := instance; v_found := found; v_cell := Some h |}]> vs).
Proof.
  intros [Hh Hv Hc Hpu Hf Hr Hx] Hi. pose proof (Forall_lookup_1 _ _ _ _ Hv Hi) as [Hg Hins].
  constructor; simpl; try done.
  - by apply Forall_insert.
  - intros a. pose proof (count_insert (is_pop a) vs i _
      {| v_ph := WLeave g; v_instance := instance; v_found := found; v_cell := Some h |} Hi) as Hci.
    simpl in Hci. specialize (Hc a). lia.
  - rewrite Hr, omap_app, <- app_assoc. apply Permutation_app_head. simpl.
    pose proof (holdings_insert vs i _
      {| v_ph := WLeave g; v_instance := instance; v_found := found; v_cell := Some h |} Hi) as Hp.
    unfold holding in Hp. simpl in Hp. rewrite app_nil_r in Hp. rewrite <- Hp.
    by rewrite Permutation_app_comm.
  - apply Forall_app. split; [done|]. apply Forall_singleton. by eapply carries_has.
Qed.

Lemma done_inv s ps vs i v :
  threads_inv s ps vs → vs !! i = Some v → v_ph v = WDone → threads_inv s ps (delete i vs).
Proof.
  intros [Hh Hv Hc Hpu Hf Hr Hx] Hi Hph. constructor; try done.
  - by apply Forall_delete.
  - intros a. pose proof (count_delete (is_pop a) vs i _ Hi) as Hci.
    unfold is_pop in Hci at 2. rewrite Hph in Hci. specialize (Hc a). lia.
  - rewrite Hr. pose proof (holdings_delete vs i v Hi) as Hp.
    unfold holding in Hp. rewrite Hph in Hp. by rewrite Hp, app_nil_r.
Qed.

(** A callback about to run a task. *)
Lemma runs_in_context s ps vs v r :
  threads_inv s ps vs → v ∈ vs → next_act (w_prog (to_worker v)) = Some (XRun r) →
  ∃ h, v_cell v = Some h ∧ callback_instance h = Some (v_instance v) ∧ (r, mask h) ∈ masked <$> (popped s).*2.
Proof.
  intros Hinv Hv Hr. pose proof (proj1 (Forall_forall _ _) (inv_views _ _ _ Hinv) v Hv) as Hok.
  assert (∀ t, t ∈ holding v → t ∈ masked <$> (popped s).*2) as Hin.
  { intros t Ht. rewrite (inv_ran _ _ _ Hinv). apply elem_of_app. right. apply list_elem_of_join.
    exists (holding v). split; [done|]. by apply list_elem_of_fmap_2. }
  destruct v as [ph instance found cell]. unfold view_ok in Hok.
  destruct ph as [instance' a|r' h|r' g|g|]; simpl in Hr, Hok; simplify_eq.
  destruct Hok as [_ Hc]. destruct cell as [h|]; [|done]. exists h. split_and!; [done..|].
  apply Hin. simpl. by apply list_elem_of_singleton.
Qed.

Lemma pusher_step c ps vs i c' :
  inv c ps vs → pool_step the_inner context_of (LPusher i) c = Some c' →
  ∃ ps', inv c' ps' vs ∧ S (weight (sh c') ps' vs) = weight (sh c) ps vs.
Proof.
  intros (Hps & Hvs & Hfin & Hinv) Hstep. simpl in Hstep.
  rewrite Hps, list_lookup_fmap in Hstep. destruct (ps !! i) as [[h r|h]|] eqn:Hi; [| |done].
  - destruct (push_inv _ _ _ _ _ _ Hinv Hi) as (q' & Hq & Hinv').
    cbn [fmap option_fmap option_map mbind option_bind pden push_task bind act1 tstep xstep] in Hstep.
    change (match handle_priority h with
            | High => _ | Normal => _ | Low => _ end) with (queue_of h) in Hstep.
    rewrite Hq in Hstep. simpl in Hstep. injection Hstep as <-. exists (<[i := PSubmit h]> ps).
    split; [split_and!; [|done|done|done]; simpl; by rewrite list_fmap_insert|].
    pose proof (total_insert pweight ps i _ (PSubmit h) Hi). unfold weight; simpl in *. lia.
  - simpl in Hstep. injection Hstep as <-. exists (delete i ps).
    split; [split_and!; [|done|done|by apply submit_inv]; simpl; by rewrite list_fmap_delete|].
    pose proof (total_delete pweight ps i _ Hi). unfold weight; simpl in *. rewrite length_app. simpl. lia.
Qed.

Lemma weight_insert s s' ps vs i v v' :
  vs !! i = Some v → submitted s' = submitted s → vweight v = S (vweight v') →
  S (weight s' ps (<[i := v']> vs)) = weight s ps vs.
Proof.
  intros Hi Hs Hw. pose proof (total_insert vweight vs i v v' Hi). unfold weight. rewrite Hs. lia.
Qed.

Lemma worker_step c ps vs i c' :
  inv c ps vs → pool_step the_inner context_of (LWorker i) c = Some c' →
  ∃ vs', inv c' ps vs' ∧ S (weight (sh c') ps vs') = weight (sh c) ps vs.
Proof.
  intros (Hps & Hvs & Hfin & Hinv) Hstep. simpl in Hstep.
  rewrite Hvs, list_lookup_fmap in Hstep. destruct (vs !! i) as [[ph instance found cell]|] eqn:Hi; [|done].
  pose proof (Forall_lookup_1 _ _ _ _ (inv_views _ _ _ Hinv) Hi) as Hok.
  unfold view_ok in Hok. simpl in Hok.
  destruct ph as [instance' a|r h|r g|g|]; simpl in Hstep; [..|done].
  - destruct Hok as [? ?]. subst cell instance'. destruct (pop_inv _ _ _ _ _ _ _ Hinv Hi) as (r & h & q' & Hq & Hinv').
    rewrite Hq in Hstep. simpl in Hstep. injection Hstep as <-. eexists.
    split; [split_and!; [done| |done|exact Hinv']|by eapply weight_insert].
    simpl. by rewrite list_fmap_insert.
  - destruct Hok as [? Hins]. subst cell. injection Hstep as <-.
    exists (<[i := {| v_ph := WRun r {| previous := found |}; v_instance := instance; v_found := found; v_cell := Some h |}]> vs).
    split; [|by eapply weight_insert].
    split_and!; [done| |done|by eapply move_inv]. simpl. by rewrite list_fmap_insert.
  - destruct Hok as [? Hins]. destruct cell as [h|]; [|done]. injection Hstep as <-. eexists.
    split; [split_and!; [done| |done|by eapply run_inv]|by eapply weight_insert].
    simpl. by rewrite list_fmap_insert.
  - injection Hstep as <-.
    exists (<[i := {| v_ph := WDone; v_instance := instance; v_found := found; v_cell := previous g |}]> vs).
    split; [|by eapply weight_insert].
    split_and!; [done| |done|by eapply move_inv]. simpl. by rewrite list_fmap_insert.
Qed.

Lemma inv_step l c ps vs c' :
  inv c ps vs → pool_step the_inner context_of l c = Some c' →
  ∃ ps' vs', inv c' ps' vs' ∧
    (internal l = true → S (weight (sh c') ps' vs') = weight (sh c) ps vs).
Proof.
  intros Hall Hstep. destruct l as [h r|i|i instance found|i|i].
  - destruct Hall as (Hps & Hvs & Hfin & Hinv). simpl in Hstep. case_decide as Hh; simplify_eq/=.
    exists (ps ++ [PPush h r]), vs. split; [|done].
    split_and!; [by rewrite Hps, fmap_app|done|done|].
    destruct Hinv as [? ? Hc ? ? ? ?]. constructor; try done.
    + apply Forall_app. split; [done|]. by apply Forall_singleton.
    + intros a. rewrite count_app. simpl. specialize (Hc a). lia.
  - destruct (pusher_step c ps vs i c' Hall Hstep) as (ps' & ? & ?). by exists ps', vs.
  - destruct Hall as (Hps & Hvs & Hfin & Hinv). simpl in Hstep.
    destruct (submitted (sh c) !! i) as [w|] eqn:Hi; simplify_eq/=.
    eexists ps, _. split; [split_and!; [done| |done|by eapply dispatch_inv]|].
    + simpl. by rewrite Hvs, fmap_app.
    + intros _. unfold weight. simpl. rewrite total_app. simpl.
      pose proof (lookup_lt_Some _ _ _ Hi). rewrite length_delete by (by rewrite Hi). lia.
  - destruct (worker_step c ps vs i c' Hall Hstep) as (vs' & ? & ?). by exists ps, vs'.
  - destruct Hall as (Hps & Hvs & Hfin & Hinv). simpl in Hstep.
    rewrite Hvs, list_lookup_fmap in Hstep. destruct (vs !! i) as [[ph instance found cell]|] eqn:Hi; [|done].
    simpl in Hstep. destruct ph; simpl in Hstep; try done. injection Hstep as <-.
    exists ps, (delete i vs). split.
    + split_and!; simpl; [done|by rewrite list_fmap_delete| |by eapply done_inv].
      apply Forall_app. split; [done|]. apply Forall_singleton.
      by pose proof (Forall_lookup_1 _ _ _ _ (inv_views _ _ _ Hinv) Hi).
    + intros _. pose proof (total_delete vweight vs i _ Hi) as Hd. unfold weight. cbn [sh].
      change (vweight _) with 1%nat in Hd. lia.
Qed.

Lemma inv_exec ls c : exec ls start = Some c → ∃ ps vs, inv c ps vs.
Proof.
  refine (invariant (L := label R) (λ c, ∃ ps vs, inv c ps vs) ls c _ _).
  - by exists [], []; apply inv_start.
  - intros l s s' (ps & vs & Hinv) Hstep.
    destruct (inv_step l s ps vs s' Hinv Hstep) as (ps' & vs' & ? & _). by exists ps', vs'.
Qed.

(** As long as something is left to do, some internal move is enabled. *)
Lemma progress c ps vs :
  inv c ps vs → (0 < weight (sh c) ps vs)%nat →
  ∃ l c', internal l = true ∧ pool_step the_inner context_of l c = Some c'.
Proof.
  intros (Hps & Hvs & Hfin & Hinv) Hw.
  destruct ps as [|[h r|h] ps].
  - destruct vs as [|[ph instance found cell] vs].
    + destruct (submitted (sh c)) as [|w ws] eqn:Hs; [unfold weight in Hw; rewrite Hs in Hw; simpl in Hw; lia|].
      exists (LDispatch 0 0 None). simpl. rewrite Hs. eauto.
    + pose proof (Forall_inv (inv_views _ _ _ Hinv)) as Hok.
      unfold view_ok in Hok; simpl in Hok. destruct ph as [instance' a|r h|r g|g|].
      1: { destruct Hok as [? ?]. subst cell instance'. destruct (pop_inv _ _ _ 0 _ _ _ Hinv eq_refl) as (r & h & q' & Hq & _).
           exists (LWorker 0). simpl. rewrite Hvs. simpl. rewrite Hq. simpl. eauto. }
      4: { exists (LDone 0). simpl. rewrite Hvs. simpl. eauto. }
      all: exists (LWorker 0); simpl; rewrite Hvs; simpl; eauto.
  - destruct (push_inv _ _ _ 0 h r Hinv eq_refl) as (q' & Hq & _).
    exists (LPusher 0). simpl. rewrite Hps.
    cbn [fmap list_fmap lookup list_lookup mbind option_bind pden push_task bind act1 tstep xstep].
    change (match handle_priority h with
            | High => _ | Normal => _ | Low => _ end) with (queue_of h).
    rewrite Hq. simpl. eauto.
  - exists (LPusher 0). simpl. rewrite Hps. simpl. eauto.
Qed.

(** Running without new pushes ends with nothing left to do. *)
Lemma drain n c ps vs :
  inv c ps vs → weight (sh c) ps vs = n →
  ∃ ls c', length ls = n ∧ forallb internal ls = true ∧ exec ls c = Some c' ∧
    inv c' [] [] ∧ submitted (sh c') = [].
Proof.
  revert c ps vs. induction n as [|n IH]; intros c ps vs Hinv Hw.
  - exists [], c. unfold weight in Hw. destruct ps as [|[] ps]; [|simpl in Hw; lia..].
    destruct vs as [|[[] ? ?] vs]; [|simpl in Hw; lia..].
    destruct (submitted (sh c)) eqn:Hs; [|simpl in Hw; lia]. by split_and!.
  - destruct (progress c ps vs Hinv ltac:(lia)) as (l & c1 & Hl & Hstep).
    destruct (inv_step l c ps vs c1 Hinv Hstep) as (ps1 & vs1 & Hinv1 & Hw1).
    specialize (Hw1 Hl). destruct (IH c1 ps1 vs1 Hinv1 ltac:(lia)) as (ls & c' & Hlen & Hls & Hex & Hend).
    exists (l :: ls), c'. split_and!; [simpl; lia|simpl; by rewrite Hl| |by apply Hend..].
    simpl. rewrite Hstep. apply Hex.
Qed.

End executor.

(** ** The theorems *)

Section theorems.
Context {R Q : Type} `{ConcurrentQueueLaws Q (R * Handle)}.
Implicit Types (c : config R Q).

(** Every work object of the pool was created with the address of its own
    queue as context, which [ThreadpoolThm.build_outcome] shows of [build]. *)
Definition works_wired (i : HandleInner) (context_of : Z → Z) : Prop :=
  ∀ p, context_of (work (task_queue i p)) = queue (task_queue i p).

Definition pool_exec (i : HandleInner) (context_of : Z → Z) (ls : list (label R)) : option (config R Q) :=
  exec (H := pool_lts i context_of) ls start.

(** A thread pool that [build] returns is wired: when the system passes to
    the callback of a work object the context the object was created with,
    the callbacks of a queue's work object pop from that very queue. *)
Theorem built_pool_is_wired at_ b (o : oracle) tp tr context_of :
  calls (build at_ b) o [] = (Some (inl (Ok tp)), tr) →
  (∀ q ce w, Ev (CreateThreadpoolWork q ce) w ∈ tr → context_of w = q) →
  works_wired (inner (tp_handle tp)) context_of.
Proof.
  intros Hc Hctx p. pose proof (calls_wp _ _ o [] _ _ (wp_build at_ b) Hc) as (_ & Hw & _).
  destruct (Hw p) as [Hq Hev]. by eapply Hctx.
Qed.

(** No thread of the executor ever panics: pushing never fails, and a
    callback always finds a task in the queue it was submitted for, however
    pushes and callbacks of the three queues interleave. *)
Theorem executor_never_panics i context_of ls c :
  works_wired i context_of → pool_exec i context_of ls = Some c →
  (∀ p f, p ∈ pushers c → p ≠ Fault f) ∧ (∀ w f, w ∈ workers c → w_prog w ≠ Fault f).
Proof.
  intros Hi Hex. destruct (inv_exec i context_of Hi ls c Hex) as (ps & vs & Hps & Hvs & _ & _).
  split.
  - rewrite Hps. intros p f ([] & -> & _)%list_elem_of_fmap; done.
  - rewrite Hvs. intros w f ([[] ? ?] & -> & _)%list_elem_of_fmap; done.
Qed.

(** Each queue is first in first out and loses nothing: the tasks popped
    from it followed by the tasks still in it are the tasks pushed to it, in
    order, and every task was pushed to the queue of its handle's priority. *)
Theorem queues_are_fifo i context_of ls c a :
  works_wired i context_of → pool_exec i context_of ls = Some c →
  at_key a (pushed (sh c)) = at_key a (popped (sh c)) ++ cq_items (queues (sh c) a) ∧
  Forall (λ e : Z * (R * Handle), e.1 = queue (task_queue (inner e.2.2) (handle_priority e.2.2)))
    (pushed (sh c)).
Proof.
  intros Hi Hex. destruct (inv_exec i context_of Hi ls c Hex) as (ps & vs & _ & _ & _ & Hinv).
  split; [by apply (inv_fifo _ _ _ _ _ Hinv)|].
  eapply Forall_impl; [apply (inv_pushed _ _ _ _ _ Hinv)|]. by intros e [_ He].
Qed.

(** C23. Every task is run in a context: when a callback is about to run a task,
    the current handle of its thread is the one the task was popped with,
    carrying the very instance the system has passed to this callback; so each
    task that was run has found a handle with an instance, these handles are,
    but for the instance, those of the tasks popped, and when a callback has
    returned its thread's context is the one it found. *)
Theorem tasks_run_in_context i context_of ls c :
  works_wired i context_of → pool_exec i context_of ls = Some c →
  (∀ w r, w ∈ workers c → next_act (w_prog w) = Some (XRun r) →
     ∃ h, w_cell w = Some h ∧ callback_instance h = Some (w_instance w) ∧
          (r, mask h) ∈ masked <$> (popped (sh c)).*2) ∧
  Forall (λ e : R * option Handle, has_instance e.2) (ran (sh c)) ∧
  (∃ rest, masked <$> (popped (sh c)).*2 ≡ₚ omap run_task (ran (sh c)) ++ rest) ∧
  Forall (λ e : option Handle * option Handle, e.1 = e.2) (finished c).
Proof.
  intros Hi Hex. destruct (inv_exec i context_of Hi ls c Hex) as (ps & vs & Hps & Hvs & Hfin & Hinv).
  split_and!; [|by apply (inv_context _ _ _ _ _ Hinv)| |done].
  - rewrite Hvs. intros w r (v & -> & Hv)%list_elem_of_fmap Hr. by eapply runs_in_context.
  - eexists. apply (inv_ran _ _ _ _ _ Hinv).
Qed.

(** C11. Every task pushed is run exactly once: from every state the pool can
    reach, letting the threads inside [push_task] and the submitted callbacks
    run (a number of steps known in advance) leads to a state where nothing
    is left to do, the queues are empty, and the tasks run are the tasks
    pushed, each with its handle. *)
Theorem executor_drains i context_of ls c :
  works_wired i context_of → pool_exec i context_of ls = Some c →
  ∃ ls' c', forallb internal ls' = true ∧ pool_exec i context_of (ls ++ ls') = Some c' ∧
    pushers c' = [] ∧ workers c' = [] ∧ submitted (sh c') = [] ∧
    (∀ a, cq_items (queues (sh c') a) = []) ∧
    omap run_task (ran (sh c')) ≡ₚ masked <$> (pushed (sh c')).*2.
Proof.
  intros Hi Hex. destruct (inv_exec i context_of Hi ls c Hex) as (ps & vs & Hinv).
  destruct (drain i context_of Hi _ c ps vs Hinv eq_refl)
    as (ls' & c' & _ & Hls' & Hex' & (Hps & Hvs & _ & Hinv') & Hs).
  exists ls', c'. assert (∀ a, cq_items (queues (sh c') a) = []) as Hempty.
  { intros a. apply length_zero_iff_nil. by rewrite (inv_count _ _ _ _ _ Hinv' a), Hs. }
  split_and!; [done| |done|done|done|done|].
  - unfold pool_exec in *. by rewrite exec_app, Hex.
  - pose proof (inv_ran _ _ _ _ _ Hinv') as Hran. rewrite app_nil_r in Hran. rewrite <- Hran.
    apply fmap_Permutation, fmap_Permutation, at_key_perm. intros a.
    by rewrite (inv_fifo _ _ _ _ _ Hinv' a), Hempty, app_nil_r.
Qed.

(** C24. Nothing keeps the executor busy: without new pushes every schedule is
    finite, with a bound that does not depend on it. *)
Theorem executor_terminates i context_of ls c :
  works_wired i context_of → pool_exec i context_of ls = Some c →
  ∃ n, ∀ ls' c', forallb internal ls' = true →
    pool_exec i context_of (ls ++ ls') = Some c' → (length ls' ≤ n)%nat.
Proof.
  intros Hi Hex. destruct (inv_exec i context_of Hi ls c Hex) as (ps & vs & Hinv).
  exists (weight (sh c) ps vs). intros ls' c' Hls' Hex'.
  unfold pool_exec in *. rewrite exec_app, Hex in Hex'. simpl in Hex'. clear Hex ls.
  revert c ps vs Hinv Hex'. induction ls' as [|l ls' IH]; intros c ps vs Hinv Hex'; simpl; [lia|].
  simpl in *. apply andb_prop in Hls' as [Hl Hls'].
  destruct (pool_step i context_of l c) as [c1|] eqn:Hstep; simpl in Hex'; [|done].
  destruct (inv_step i context_of Hi l c ps vs c1 Hinv Hstep) as (ps1 & vs1 & Hinv1 & Hw).
  specialize (Hw Hl). specialize (IH Hls' c1 ps1 vs1 Hinv1 Hex'). lia.
Qed.
End theorems.
