(* ===== verification/ExecutorEx.v ===== *)
(** * A concrete run of the executor: witnesses *)

From S2P Require Import Prelude Prog Extern Win32 Threadpool ThreadpoolThm Context Executor ExecutorThm.

(** Tasks are numbers; the work object of a queue is next to its address. *)
Definition ctx0 (w : Z) : Z := w - 1.

Lemma works_wired0 : works_wired inner0 ctx0.
Proof. by intros []. Defined.

(** Three tasks on two queues; two callbacks run to their end, in the order
    opposite to the pushes. *)
Definition run0 : list (label nat) :=
  [LPush (handle0 Low) 1%nat; LPush (handle0 High) 2%nat; LPush (handle0 High) 3%nat;
   LPusher 0; LPusher 1; LPusher 0; LPusher 0; LPusher 0; LPusher 0;
   LDispatch 1 77 None; LDispatch 0 78 (Some (handle0 Low))] ++
  repeat (LWorker 1) 4 ++ repeat (LWorker 0) 4 ++ [LDone 0].

Definition state0 : config nat (list (nat * Handle)) := default start (pool_exec inner0 ctx0 run0).

Lemma run0_reaches : pool_exec inner0 ctx0 run0 = Some state0.
Proof. vm_compute. reflexivity. Qed.

Lemma executor_never_panics_witness :
  (submitted (sh state0) = [31] ∨ submitted (sh state0) = [11]) ∧
  (∀ p f, p ∈ pushers state0 → p ≠ Fault f) ∧ (∀ w f, w ∈ workers state0 → w_prog w ≠ Fault f).
Proof.
  split; [vm_compute; auto|].
  exact (executor_never_panics inner0 ctx0 run0 state0 works_wired0 run0_reaches).
Defined.

Lemma queues_are_fifo_witness :
  at_key 10 (pushed (sh state0)) = [(2%nat, handle0 High); (3%nat, handle0 High)] ∧
  at_key 10 (pushed (sh state0)) = at_key 10 (popped (sh state0)) ++ cq_items (queues (sh state0) 10) ∧
  Forall (λ e : Z * (nat * Handle), e.1 = queue (task_queue (inner e.2.2) (handle_priority e.2.2)))
    (pushed (sh state0)).
Proof.
  split; [vm_compute; reflexivity|].
  exact (queues_are_fifo inner0 ctx0 run0 state0 10 works_wired0 run0_reaches).
Defined.

(** The callback of instance 78 is about to run its task, on a thread that had
    another handle. *)
Definition run1 : list (label nat) :=
  [LPush (handle0 Low) 1%nat; LPush (handle0 High) 2%nat; LPusher 0; LPusher 1; LPusher 0; LPusher 0;
   LDispatch 1 77 None; LDispatch 0 78 (Some (handle0 Low))] ++
  repeat (LWorker 0) 4 ++ [LDone 0] ++ repeat (LWorker 0) 2.

Definition state1 : config nat (list (nat * Handle)) := default start (pool_exec inner0 ctx0 run1).

Definition about_to_run (w : worker nat) : option (nat * Z) :=
  match next_act (w_prog w) with Some (XRun r) => Some (r, w_instance w) | _ => None end.

Lemma tasks_run_in_context_witness :
  omap about_to_run (workers state1) = [(1%nat, 78)] ∧ length (ran (sh state1)) = 1%nat ∧
  (∀ w r, w ∈ workers state1 → next_act (w_prog w) = Some (XRun r) →
     ∃ h, w_cell w = Some h ∧ callback_instance h = Some (w_instance w) ∧
          (r, mask h) ∈ masked <$> (popped (sh state1)).*2) ∧
  Forall (λ e : nat * option Handle, has_instance e.2) (ran (sh state1)) ∧
  (∃ rest, masked <$> (popped (sh state1)).*2 ≡ₚ omap run_task (ran (sh state1)) ++ rest) ∧
  Forall (λ e : option Handle * option Handle, e.1 = e.2) (finished state1).
Proof.
  split; [vm_compute; reflexivity|]. split; [vm_compute; reflexivity|].
  apply (tasks_run_in_context inner0 ctx0 run1 state1 works_wired0). vm_compute. reflexivity.
Defined.

Lemma executor_drains_witness :
  ∃ ls' (c' : config nat (list (nat * Handle))),
    forallb internal ls' = true ∧ pool_exec inner0 ctx0 (run0 ++ ls') = Some c' ∧
    pushers c' = [] ∧ workers c' = [] ∧ submitted (sh c') = [] ∧
    (∀ a, cq_items (queues (sh c') a) = []) ∧
    omap run_task (ran (sh c')) ≡ₚ masked <$> (pushed (sh c')).*2.
Proof. exact (executor_drains inner0 ctx0 run0 state0 works_wired0 run0_reaches). Defined.

Lemma executor_terminates_witness :
  ∃ n, ∀ ls' (c' : config nat (list (nat * Handle))), forallb internal ls' = true →
    pool_exec inner0 ctx0 (run0 ++ ls') = Some c' → (length ls' ≤ n)%nat.
Proof. exact (executor_terminates inner0 ctx0 run0 state0 works_wired0 run0_reaches). Defined.

(** A system that answers the [n]-th call with [n + 1]: every object is new. *)
Definition counting : oracle (call := win32) (ans := win32_ans) := λ n, win32_answer (Z.of_nat n + 1).

Definition built0 : HandleInner := {|
  high_queue := {| queue := 0; work := 5 |};
  normal_queue := {| queue := 1; work := 6 |};
  low_queue := {| queue := 2; work := 7 |};
  inner_callback_environ := {| Version := 3; Pool := 1; CleanupGroup := 4; CallbackPriority := 1 |} |}.

(** The queue and the work object of a creation. *)
Definition work_made (e : event win32 win32_ans) : option (Z * Z) :=
  match e with Ev (CreateThreadpoolWork q _) w => Some (q, w) | _ => None end.

Lemma built_pool_is_wired_witness :
  works_wired built0 (λ w, w - 5).
Proof.
  apply (built_pool_is_wired priority_repr {| b_max_threads := 512; b_min_threads := 4; b_net := false |}
    counting {| tp_handle := {| inner := built0; handle_priority := Normal; callback_instance := None |} |}
    (calls (build priority_repr {| b_max_threads := 512; b_min_threads := 4; b_net := false |}) counting []).2).
  - vm_compute. reflexivity.
  - intros q ce w Hin. apply (list_elem_of_fmap_2 work_made) in Hin.
    replace (work_made <$> _) with [None; None; None; None; Some (0, 5); Some (1, 6); Some (2, 7)]
      in Hin by (vm_compute; reflexivity).
    simpl in Hin. set_solver.
Defined.
