(* ===== verification/ExecutorRef.v ===== *)
(** * The executor implements three queues and a bag of running tasks

    The abstract executor knows nothing of submissions, callbacks and thread
    contexts: a task arrives at the queue of its priority, the oldest task of
    a queue is taken, and a task that was taken is run, in any order.  Every
    schedule of the pool is one of the abstract executor, with the same
    arrivals, the same takes and the same runs. *)

From S2P Require Import Prelude Prog Extern Win32 Threadpool ThreadpoolThm Context.
From S2P Require Import Executor ExecutorThm ExecutorEx.

(** ** The abstract executor *)

Inductive move (T : Type) :=
| Arrive (t : T)          (* [t] is queued *)
| Take (p : Priority)     (* the oldest task of a queue leaves it *)
| Finish (i : nat).       (* the [i]-th task in progress is run *)
Arguments Arrive {T} _.
Arguments Take {T} _.
Arguments Finish {T} _.

Record bag (T : Type) := {
  waiting : Priority → list T;
  taken : list T;
  complete : list T;
}.
Arguments Build_bag {T} _ _ _.
Arguments waiting {T} _ _.
Arguments taken {T} _.
Arguments complete {T} _.

Section bag.
Context {T : Type} (prio : T → Priority).

Definition bag_step (l : move T) (b : bag T) : option (bag T) :=
  match l with
  | Arrive t =>
      Some {| waiting := update (prio t) (waiting b (prio t) ++ [t]) (waiting b);
              taken := taken b; complete := complete b |}
  | Take p =>
      match waiting b p with
      | t :: ts => Some {| waiting := update p ts (waiting b); taken := taken b ++ [t];
                           complete := complete b |}
      | [] => None
      end
  | Finish i =>
      t ← taken b !! i;
      Some {| waiting := waiting b; taken := delete i (taken b); complete := complete b ++ [t] |}
  end.

#[local] Instance bag_lts : LTS (move T) (bag T) := {
  linit := {| waiting := λ _, []; taken := []; complete := [] |};
  lstep := bag_step;
}.

(** A schedule of the abstract executor from the start. *)
Definition bag_exec (ls : list (move T)) : option (bag T) := exec (H := bag_lts) ls (linit (LTS := bag_lts)).

(** What arrived, and from which queues tasks were taken. *)
Definition arrivals (ls : list (move T)) : list T :=
  omap (λ l, match l with Arrive t => Some t | _ => None end) ls.
Definition takes (ls : list (move T)) : list Priority :=
  omap (λ l, match l with Take p => Some p | _ => None end) ls.
End bag.

(** ** The logs of the pool *)

Section logs.
Context {R Q : Type} `{!ConcurrentQueue Q (R * Handle)}.
Implicit Types (s : shared R Q).

(** One step of a thread adds at most one entry to one log. *)
Inductive grows s s' : Prop :=
| grows_none : pushed s' = pushed s → popped s' = popped s → ran s' = ran s → grows s s'
| grows_push e : pushed s' = pushed s ++ [e] → popped s' = popped s → ran s' = ran s → grows s s'
| grows_pop e : pushed s' = pushed s → popped s' = popped s ++ [e] → ran s' = ran s → grows s s'
| grows_run e : pushed s' = pushed s → popped s' = popped s → ran s' = ran s ++ [e] → grows s s'.

Lemma xstep_grows (a : xact R) u s cell r s' cell' :
  xstep a u (s, cell) = Some (r, (s', cell')) → grows s s'.
Proof.
  destruct a as [q t|q|a|t|c]; simpl.
  - destruct (cq_push t _); intros ?; simplify_eq; [by eapply grows_push|by apply grows_none].
  - destruct (cq_pop _) as [[t q']|]; intros ?; simplify_eq; [by eapply grows_pop|by apply grows_none].
  - destruct (tls_step a cell). intros ?; simplify_eq. by apply grows_none.
  - intros ?; simplify_eq. by eapply grows_run.
  - destruct c; intros ?; simplify_eq. by apply grows_none.
Qed.

Lemma tstep_grows {A} (p p' : prog (xact R) xans A) s cell s' cell' :
  tstep xstep tt p (s, cell) = Some (p', (s', cell')) → grows s s'.
Proof.
  destruct p as [|a k|X body k|]; [done| | |done].
  - intros (r & Hr & _)%tstep_act. by eapply xstep_grows.
  - simpl. intros ?; simplify_eq. by apply grows_none.
Qed.

Lemma pool_step_grows the_inner context_of l (c c' : config R Q) :
  pool_step the_inner context_of l c = Some c' → grows (sh c) (sh c').
Proof.
  destruct l as [h r|i|i instance found|i|i]; simpl; intros Hstep.
  - case_decide; simplify_eq. by apply grows_none.
  - destruct (pushers c !! i) as [p|]; [|done]. simpl in Hstep.
    destruct (tstep xstep tt p (sh c, None)) as [[p' [s' ?]]|] eqn:Ht; simplify_eq/=.
    by eapply tstep_grows.
  - destruct (submitted (sh c) !! i); simplify_eq/=. by apply grows_none.
  - destruct (workers c !! i) as [w|]; [|done]. simpl in Hstep.
    destruct (tstep xstep tt (w_prog w) (sh c, w_cell w)) as [[p' [s' ?]]|] eqn:Ht; simplify_eq/=.
    by eapply tstep_grows.
  - destruct (workers c !! i) as [w|]; [|done]. simpl in Hstep.
    destruct (ended (w_prog w)); simplify_eq. by apply grows_none.
Qed.
End logs.

(** ** The simulation *)

Section refinement.
Context {R Q : Type} `{ConcurrentQueueLaws Q (R * Handle)}.
Context (the_inner : HandleInner) (context_of : Z → Z).
Implicit Types (s : shared R Q) (t : bag (R * Handle)) (ls : list (move (R * Handle))).

(** The address of the queue of a priority; the three queues are distinct. *)
Definition address (p : Priority) : Z := queue (task_queue the_inner p).
Definition prio_of (t : R * Handle) : Priority := handle_priority t.2.

Context (Hwired : works_wired the_inner context_of) (Hqueues : Inj (=) (=) address).
#[local] Instance spec : LTS (move (R * Handle)) (bag (R * Handle)) := bag_lts prio_of.

(** The abstract state [t], reached by [ls], has the history [s] records. *)
Record same_history s ls t : Prop := {
  same_waiting : ∀ p, masked <$> at_key (address p) (pushed s) =
    (masked <$> at_key (address p) (popped s)) ++ waiting t p;
  same_taken : masked <$> (popped s).*2 ≡ₚ complete t ++ taken t;
  same_complete : complete t = omap run_task (ran s);
  same_arrivals : arrivals ls = masked <$> (pushed s).*2;
  same_takes : address <$> takes ls = (popped s).*1;
}.

Definition logs_inv s : Prop := ∃ ps vs, threads_inv the_inner context_of s ps vs.

Lemma masked_at_one p e :
  inner e.2.2 = the_inner → e.1 = queue (queue_of e.2.2) →
  masked <$> at_key (address p) [e] = if decide (p = prio_of e.2) then [masked e.2] else [].
Proof.
  destruct e as [a [r h]]. cbn [fst snd]. unfold queue_of. intros -> ->. rewrite at_key_one.
  fold (address (handle_priority h)). unfold prio_of; simpl.
  destruct (decide (p = _)) as [->|Hne]; [by rewrite decide_True|].
  rewrite decide_False; [done|]. intros ?%(inj address). congruence.
Qed.

Lemma arrive_history s s' e ls t :
  logs_inv s' → pushed s' = pushed s ++ [e] → popped s' = popped s → ran s' = ran s →
  same_history s ls t →
  ∃ t', exec [Arrive (masked e.2)] t = Some t' ∧ same_history s' (ls ++ [Arrive (masked e.2)]) t'.
Proof.
  intros (ps & vs & Hinv) Hpu Hpo Hra [Hw Ht Hc Ha Hk]. eexists. split; [reflexivity|].
  pose proof (inv_pushed _ _ _ _ _ Hinv) as Hall.
  rewrite Hpu, Forall_app, Forall_singleton in Hall. destruct Hall as [_ [Hi Hq]].
  constructor; rewrite ?Hpu, ?Hpo, ?Hra; simpl; try done.
  - intros p. rewrite at_key_app, fmap_app, masked_at_one, Hw by done. rewrite <- app_assoc. f_equal.
    change (prio_of (masked e.2)) with (prio_of e.2). unfold update.
    destruct (decide (p = _)) as [->|]; [done|by rewrite app_nil_r].
  - unfold arrivals in *. rewrite omap_app, Ha, !fmap_app. done.
  - unfold takes in *. by rewrite omap_app, fmap_app, Hk, app_nil_r.
Qed.

Lemma take_history s s' e ls t :
  logs_inv s' → pushed s' = pushed s → popped s' = popped s ++ [e] → ran s' = ran s →
  same_history s ls t →
  ∃ t', exec [Take (prio_of e.2)] t = Some t' ∧ same_history s' (ls ++ [Take (prio_of e.2)]) t'.
Proof.
  intros (ps & vs & Hinv) Hpu Hpo Hra [Hw Ht Hc Ha Hk].
  pose proof (inv_fifo _ _ _ _ _ Hinv e.1) as Hf. rewrite Hpo, at_key_app in Hf.
  assert (e ∈ pushed s') as Hin.
  { destruct e as [a x]. rewrite at_key_one, decide_True in Hf by done. cbn [fst] in Hf.
    assert (x ∈ at_key a (pushed s')) as Hx by (rewrite Hf; set_solver).
    unfold at_key in Hx. apply list_elem_of_omap in Hx as ([b y] & Hb & Hy).
    simpl in Hy. by case_decide; simplify_eq. }
  destruct (proj1 (Forall_forall _ _) (inv_pushed _ _ _ _ _ Hinv) e Hin) as [Hi Hq].
  assert (e.1 = address (prio_of e.2)) as Hadr by (unfold address, prio_of; by rewrite <- Hi).
  assert (∃ ts, waiting t (prio_of e.2) = masked e.2 :: ts) as [ts Hts].
  { specialize (Hw (prio_of e.2)). rewrite <- Hpu, <- Hadr, Hf, !fmap_app, <- app_assoc in Hw.
    apply app_inv_head in Hw. rewrite Hadr, masked_at_one, decide_True in Hw by done. eauto. }
  eexists. split; [simpl; rewrite Hts; reflexivity|].
  constructor; rewrite ?Hpu, ?Hpo, ?Hra; simpl; try done.
  - intros p. rewrite at_key_app, fmap_app, masked_at_one, Hw, <- app_assoc by done. f_equal.
    unfold update. destruct (decide (p = _)) as [->|]; [by rewrite Hts|done].
  - rewrite !fmap_app, Ht. simpl. by rewrite <- app_assoc.
  - unfold arrivals in *. by rewrite omap_app, Ha, app_nil_r.
  - unfold takes in *. rewrite omap_app, !fmap_app, Hk. simpl. by rewrite Hadr.
Qed.

Lemma finish_history s s' e ls t :
  logs_inv s' → pushed s' = pushed s → popped s' = popped s → ran s' = ran s ++ [e] →
  same_history s ls t →
  ∃ i t', exec [Finish i] t = Some t' ∧ same_history s' (ls ++ [Finish i]) t'.
Proof.
  intros (ps & vs & Hinv) Hpu Hpo Hra [Hw Ht Hc Ha Hk].
  pose proof (inv_context _ _ _ _ _ Hinv) as Hall.
  rewrite Hra, Forall_app, Forall_singleton in Hall. destruct Hall as [_ He].
  destruct e as [r [h|]]; [|done]. pose proof (inv_ran _ _ _ _ _ Hinv) as Hr.
  rewrite Hpo, Ht, Hc, Hra, omap_app, <- app_assoc in Hr. apply Permutation_app_inv_l in Hr.
  simpl in Hr.
  assert ((r, mask h) ∈ taken t) as [i Hi]%list_elem_of_lookup by (rewrite Hr; set_solver).
  exists i. eexists. split; [simpl; rewrite Hi; reflexivity|].
  constructor; rewrite ?Hpu, ?Hpo, ?Hra; simpl; try done.
  - rewrite Ht, <- app_assoc. apply Permutation_app_head. by apply delete_Permutation.
  - by rewrite omap_app, Hc.
  - unfold arrivals in *. by rewrite omap_app, Ha, app_nil_r.
  - unfold takes in *. by rewrite omap_app, fmap_app, Hk, app_nil_r.
Qed.

Lemma grow_history s s' ls t :
  logs_inv s' → grows s s' → same_history s ls t →
  ∃ ls' t', exec ls' t = Some t' ∧ same_history s' (ls ++ ls') t'.
Proof.
  intros Hinv [Hpu Hpo Hra|e Hpu Hpo Hra|e Hpu Hpo Hra|e Hpu Hpo Hra] Hs.
  - exists [], t. split; [done|]. rewrite app_nil_r.
    destruct Hs. constructor; rewrite ?Hpu, ?Hpo, ?Hra; done.
  - destruct (arrive_history _ _ _ _ _ Hinv Hpu Hpo Hra Hs) as (t' & ? & ?). eauto.
  - destruct (take_history _ _ _ _ _ Hinv Hpu Hpo Hra Hs) as (t' & ? & ?). eauto.
  - destruct (finish_history _ _ _ _ _ Hinv Hpu Hpo Hra Hs) as (i & t' & ? & ?). eauto.
Qed.

(** The relation of the simulation: the invariant of the pool, and a schedule
    of the abstract executor with the same history. *)
Definition represents (c : config R Q) t : Prop :=
  (∃ ps vs, inv the_inner context_of c ps vs) ∧
  ∃ ls, exec ls linit = Some t ∧ same_history (sh c) ls t.

Lemma pool_simulates :
  simulates (H := pool_lts the_inner context_of) (H0 := spec) represents.
Proof.
  split.
  - split; [exists [], []; apply inv_start|]. exists []. split; [done|]. by constructor.
  - intros l c t c' [(ps & vs & Hinv) (ls & Hex & Hs)] Hstep.
    destruct (inv_step the_inner context_of Hwired l c ps vs c' Hinv Hstep) as (ps' & vs' & Hinv' & _).
    destruct (grow_history (sh c) (sh c') ls t) as (ls' & t' & Hex' & Hs').
    + exists ps', vs'. apply Hinv'.
    + exact (pool_step_grows the_inner context_of l c c' Hstep).
    + done.
    + exists ls', t'. split; [done|]. split; [eauto|].
      exists (ls ++ ls'). split; [|done]. by rewrite exec_app, Hex.
Qed.
End refinement.

(** ** The theorem *)

(** C8. The pool refines three first in first out queues and a bag of running
    tasks: whatever the schedule of threads, submissions and callbacks, there
    is a schedule of the abstract executor in which the tasks arrive in the
    order they were pushed, leave the queues in the order they were popped,
    and complete in the order they were run, and which ends with the content
    of the queues of the pool waiting. *)
Theorem executor_refines {R Q} `{ConcurrentQueueLaws Q (R * Handle)} i context_of ls (c : config R Q) :
  works_wired i context_of → Inj (=) (=) (address i) →
  pool_exec i context_of ls = Some c →
  ∃ ls' b, bag_exec prio_of ls' = Some b ∧
    arrivals ls' = masked <$> (pushed (sh c)).*2 ∧
    address i <$> takes ls' = (popped (sh c)).*1 ∧
    complete b = omap run_task (ran (sh c)) ∧
    (∀ p, waiting b p = masked <$> cq_items (queues (sh c) (address i p))).
Proof.
  intros Hi Hq Hex.
  pose proof (pool_simulates i context_of Hi Hq) as Hsim.
  destruct (simulation_exec _ ls _ _ c Hsim (proj1 Hsim) Hex)
    as (ls0 & b & _ & (ps & vs & _ & _ & _ & Hinv) & ls' & Hex' & [Hw Ht Hc Ha Hk]).
  exists ls', b. split_and!; [done..|]. intros p. specialize (Hw p).
  rewrite (inv_fifo _ _ _ _ _ Hinv), fmap_app in Hw. by apply app_inv_head in Hw.
Qed.

Lemma executor_refines_witness :
  (popped (sh state0)).*2.*1 = [1%nat; 2%nat] ∧
  ∃ ls' b, bag_exec prio_of ls' = Some b ∧
    arrivals ls' = masked <$> (pushed (sh state0)).*2 ∧
    address inner0 <$> takes ls' = (popped (sh state0)).*1 ∧
    complete b = omap run_task (ran (sh state0)) ∧
    (∀ p, waiting b p = masked <$> cq_items (queues (sh state0) (address inner0 p))).
Proof.
  split; [vm_compute; reflexivity|].
  apply (executor_refines inner0 ctx0 run0 state0 works_wired0); [|exact run0_reaches].
  by intros [] [].
Defined.
