(* ===== verification/Runtime.v ===== *)
(** * The runtime: [block_on] over the executor

    [Handle::block_on] (src/src/task/block_on.rs) spawns its future on the pool
    and waits for the [JoinHandle].  This file puts together the system of the
    executor ([Executor]) and that of the blocked thread ([Waker]), with any
    number of tasks that share the pool: running a task polls its future, a
    future that is pending wakes its task later, which schedules it again, and
    the completion of the awaited task is what the blocked thread waits for.

    The blocked thread starts its loop when its [spawn] has returned. *)

From S2P Require Import Prelude Prog Extern Win32 Threadpool ThreadpoolThm Context Executor Waker.

(** ** State *)

Section system.
Context {R Q task T : Type} `{!EqDecision R} `{!ConcurrentQueue Q (R * Handle)} `{!AsyncTask task}.

Record runtime := {
  rt_pool : Executor.config R Q;
  rt_block : Waker.config T;
  rt_spawning : bool;                    (* the blocked thread is still inside [spawn] *)
  rt_tasks : R → option (task * Handle);    (* with the handle its schedule function has *)
}.

Inductive rlabel :=
| RPool (l : Executor.label R)           (* a thread inside [push_task], or the pool *)
| RBlock (l : Waker.label T)             (* the blocked thread, or one inside [wake] *)
| RWake (r : R)                          (* somebody wakes a task *)
| RSpawn (r : R) (h : Handle).           (* somebody spawns another task *)

(** The pool; the future of a task, as what its polls yield; the task that
    [block_on] waits for and the handle it was called on. *)
Context (the_inner : HandleInner) (context_of : Z → Z).
Context (future : R → nat → option T) (awaited : R) (handle : Handle).

(** How often a task has been run. *)
Definition is_run (r : R) (e : R * option Handle) : bool := bool_decide (e.1 = r).
Definition runs (r : R) (c : Executor.config R Q) : nat := count (is_run r) (ran (sh c)).

(** The task that a step of the pool has run. *)
Definition just_ran (c c' : Executor.config R Q) : option R :=
  match drop (length (ran (sh c))) (ran (sh c')) with
  | (r, _) :: _ => Some r
  | [] => None
  end.

(** [Runnable::run], the [k]-th of the task [r]: it polls the future.  The
    completion of the awaited task wakes the thread that has polled its
    [JoinHandle]. *)
Definition poll_task (r : R) (k : nat) (s : runtime) : option runtime :=
  '(a, h) ← rt_tasks s r;
  let output := future r k in
  let a := at_run (if output is Some _ then true else false) a in
  b ← match output with
      | Some v => if decide (r = awaited) then block_step (LFinish v) (rt_block s) else Some (rt_block s)
      | None => Some (rt_block s)
      end;
  Some {| rt_pool := rt_pool s; rt_block := b; rt_spawning := rt_spawning s;
          rt_tasks := update r (Some (a, h)) (rt_tasks s) |}.

(** The blocked thread is the first of those inside [push_task]: it leaves
    when that one does. *)
Definition still_spawning (l : Executor.label R) (c c' : Executor.config R Q) : bool :=
  match l with
  | LPusher 0 => bool_decide (length (pushers c) = length (pushers c'))
  | _ => true
  end.

Definition schedule_task (r : R) (a : task) (h : Handle) (s : runtime) : option runtime :=
  c ← pool_step the_inner context_of (LPush h r) (rt_pool s);
  Some {| rt_pool := c; rt_block := rt_block s; rt_spawning := rt_spawning s;
          rt_tasks := update r (Some (a, h)) (rt_tasks s) |}.

Definition runtime_step (l : rlabel) (s : runtime) : option runtime :=
  match l with
  | RPool l =>
      if internal l then
        c ← pool_step the_inner context_of l (rt_pool s);
        let s' := {| rt_pool := c; rt_block := rt_block s; rt_tasks := rt_tasks s;
                     rt_spawning := rt_spawning s && still_spawning l (rt_pool s) c |} in
        match just_ran (rt_pool s) c with
        | Some r => poll_task r (runs r (rt_pool s)) s'
        | None => Some s'
        end
      else None
  | RBlock l =>
      match l, rt_spawning s with
      | (LMain | LWaker _ | LSpurious), false =>
          b ← block_step l (rt_block s);
          Some {| rt_pool := rt_pool s; rt_block := b; rt_spawning := false; rt_tasks := rt_tasks s |}
      | _, _ => None
      end
  | RWake r =>
      '(a, h) ← rt_tasks s r;
      let '(a, schedule) := at_wake a in
      if (schedule : bool) then schedule_task r a h s
      else Some {| rt_pool := rt_pool s; rt_block := rt_block s; rt_spawning := rt_spawning s;
                   rt_tasks := update r (Some (a, h)) (rt_tasks s) |}
  | RSpawn r h =>
      match rt_tasks s r with
      | None => schedule_task r at_spawn h s
      | Some _ => None
      end
  end.

(** [block_on] has called [spawn]: the task has its first [Runnable]. *)
Definition runtime_start : runtime := {|
  rt_pool := {| sh := sh Executor.start; pushers := [push_task handle awaited]; workers := []; finished := [] |};
  rt_block := Waker.start;
  rt_spawning := true;
  rt_tasks := update awaited (Some (at_spawn, handle)) (λ _, None);
|}.

#[export] Instance runtime_lts : LTS rlabel runtime := {
  linit := runtime_start;
  lstep := runtime_step;
}.
Definition runtime_exec (ls : list rlabel) : option runtime :=
  exec (H := runtime_lts) ls runtime_start.
End system.
Arguments runtime : clear implicits.
Arguments rlabel : clear implicits.
