(* ===== verification/RuntimeThm.v ===== *)
(** * What blocking on a future guarantees, down to the thread pool *)

From S2P Require Import Prelude Prog Extern Win32 Threadpool ThreadpoolThm Context.
From S2P Require Import Executor ExecutorThm Waker Runtime.

(** ** Tasks in the pool

    A task is due as often as it was pushed or is about to be; it is never
    run more often. *)

Section pool.
Context {R Q : Type} `{!EqDecision R} `{ConcurrentQueueLaws Q (R * Handle)}.
Context (the_inner : HandleInner) (context_of : Z → Z) (Hwired : works_wired the_inner context_of).
Abbreviation config := (Executor.config R Q).
Abbreviation prog := (prog (xact R) xans).
Abbreviation pstep := (pool_step (R := R) (Q := Q) the_inner context_of).
Abbreviation Inv := (ExecutorThm.inv (R := R) (Q := Q) the_inner context_of).
Implicit Types (c : config) (r : R).

(** A thread that is about to push [r]. *)
Definition pushing r (p : prog unit) : bool :=
  match p with Act (XPush _ t) _ => bool_decide (t.1 = r) | _ => false end.
Definition is_push r (e : Z * (R * Handle)) : bool := bool_decide (e.2.1 = r).
Definition due r c : nat := (count (pushing r) (pushers c) + count (is_push r) (pushed (sh c)))%nat.

Lemma pushing_task r r' h : pushing r (push_task h r') = bool_decide (r' = r).
Proof. done. Qed.

(** The runs of a task, with the callbacks that hold it, are pushes of it. *)
Lemma runs_pushed c ps vs r :
  Inv c ps vs → (runs r c + count (λ t, bool_decide (t.1 = r)) (holdings vs) ≤ count (is_push r) (pushed (sh c)))%nat.
Proof.
  intros (_ & _ & _ & Hinv).
  assert (popped (sh c) ⊆+ pushed (sh c)) as Hsub.
  { apply at_key_submseteq. intros a. eexists. apply (inv_fifo _ _ _ _ _ Hinv). }
  apply submseteq_Permutation in Hsub as [rest Hp]. rewrite (total_perm _ _ _ Hp), count_app.
  pose proof (inv_ran _ _ _ _ _ Hinv) as Hran.
  apply (total_perm (λ t : R * Handle, if bool_decide (t.1 = r) then 1%nat else 0%nat)) in Hran.
  rewrite count_app, count_omap, !count_fmap in Hran.
  assert (runs r c = count (λ e, match run_task e with Some y => bool_decide (y.1 = r) | None => false end) (ran (sh c))) as Hr.
  { apply count_ext. intros [r' [h|]] Hin; [done|].
    by destruct (proj1 (Forall_forall _ _) (inv_context _ _ _ _ _ Hinv) _ Hin). }
  unfold is_push in *. unfold masked in Hran. simpl in Hran. lia.
Qed.

(** When nothing is left to do every push has been run. *)
Lemma drained_runs c r : Inv c [] [] → submitted (sh c) = [] → due r c = runs r c.
Proof.
  intros Hc Hs. pose proof (runs_pushed c [] [] r Hc) as Hle. destruct Hc as (Hp & _ & _ & Hinv).
  unfold due. rewrite Hp. simpl. simpl in Hle.
  assert (pushed (sh c) ≡ₚ popped (sh c)) as Hpp.
  { apply at_key_perm. intros a. rewrite (inv_fifo _ _ _ _ _ Hinv a).
    assert (cq_items (queues (sh c) a) = []) as ->; [|by rewrite app_nil_r].
    apply length_zero_iff_nil. by rewrite (inv_count _ _ _ _ _ Hinv a), Hs. }
  rewrite (total_perm _ _ _ Hpp). rewrite (total_perm _ _ _ Hpp) in Hle.
  pose proof (inv_ran _ _ _ _ _ Hinv) as Hran. rewrite app_nil_r in Hran.
  apply (total_perm (λ t : R * Handle, if bool_decide (t.1 = r) then 1%nat else 0%nat)) in Hran.
  rewrite count_omap, !count_fmap in Hran.
  assert (count (is_push r) (popped (sh c)) ≤ runs r c)%nat; [|lia].
  unfold is_push, runs, masked in *. simpl in Hran. rewrite Hran.
  clear. induction (ran (sh c)) as [|[r' [h|]] l IH]; simpl; [lia|..]; unfold is_run at 1; simpl; lia.
Qed.

(** A step that spawns nothing keeps what is due, and may run one task, which
    was due. *)
Lemma internal_step c ps vs l c' :
  Inv c ps vs → internal l = true → pstep l c = Some c' →
  (∀ r, due r c' = due r c) ∧
  (ran (sh c') = ran (sh c) ∨
   ∃ r cell, ran (sh c') = ran (sh c) ++ [(r, cell)] ∧ (runs r c < due r c)%nat).
Proof.
  intros Hc Hl Hst. pose proof Hc as (Hps & Hvs & _ & Hinv). unfold due.
  destruct l as [h r|i|i instance found|i|i]; [done|..]; simpl in Hst.
  - destruct (pushers c !! i) as [p|] eqn:Hi; [|done].
    pose proof Hi as Hi'. rewrite Hps, list_lookup_fmap in Hi'.
    destruct (ps !! i) as [[h r|h]|]; simplify_eq/=.
    + destruct (cq_push_ok (r, h) (queues (sh c) (queue (queue_of h)))) as (q' & Hq & _).
      cbn [mbind option_bind push_task bind act1 tstep xstep] in Hst.
      change (match handle_priority h with
              | High => _ | Normal => _ | Low => _ end) with (queue_of h) in Hst.
      rewrite Hq in Hst. simpl in Hst. injection Hst as <-. split; [|by left]. intros r'. simpl.
      rewrite count_app. simpl. unfold is_push at 2. simpl.
      pose proof (count_insert (pushing r') (pushers c) i _
        (sys (SubmitThreadpoolWork (work (queue_of h))) : prog unit) Hi) as Hci. simpl in Hci. lia.
    + split; [|by left]. intros r'. pose proof (count_delete (pushing r') (pushers c) i _ Hi). simpl in *. lia.
  - destruct (submitted (sh c) !! i); simplify_eq/=. split; [done|by left].
  - destruct (workers c !! i) as [w|] eqn:Hi; [|done].
    pose proof Hi as Hi'. rewrite Hvs, list_lookup_fmap in Hi'.
    destruct (vs !! i) as [[ph instance found cell]|] eqn:Hv; simplify_eq/=.
    pose proof (Forall_lookup_1 _ _ _ _ (inv_views _ _ _ _ _ Hinv) Hv) as Hok.
    destruct ph as [instance' a|r h|r g|g|]; simpl in Hst; [..|done].
    + destruct (cq_pop _) as [[[r h] q']|]; simplify_eq/=; (split; [done|by left]).
    + simplify_eq/=. split; [done|by left].
    + destruct Hok as [_ Hins]. destruct cell as [h|]; [|done]. simplify_eq/=. split; [done|]. right.
      exists r, (Some h). split; [done|]. pose proof (runs_pushed c ps vs r Hc) as Hr.
      pose proof (holdings_delete vs i _ Hv) as Hd. rewrite (total_perm _ _ _ Hd), count_app in Hr.
      unfold holding in Hr. simpl in Hr. rewrite bool_decide_true in Hr by done. unfold due. lia.
    + simplify_eq/=. split; [done|by left].
  - destruct (workers c !! i) as [w|]; [|done]. simpl in Hst. destruct (ended (w_prog w)); simplify_eq/=.
    split; [done|by left].
Qed.

(** The threads inside [push_task]. *)
Lemma internal_pushers l c c' :
  internal l = true → pstep l c = Some c' →
  match l with
  | LPusher i => ∃ p, pushers c !! i = Some p ∧
      (pushers c' = delete i (pushers c) ∨ ∃ p', pushers c' = <[i := p']> (pushers c))
  | _ => pushers c' = pushers c
  end.
Proof.
  intros Hl Hst. destruct l as [h r|i|i instance found|i|i]; simpl in Hst; [done|..].
  - destruct (pushers c !! i) as [p|]; [|done]. simpl in Hst.
    destruct (tstep _ _ _ _) as [[p' [s' cell]]|]; simplify_eq/=. exists p. split; [done|].
    destruct (ended p'); [by left|right; by eexists].
  - by destruct (submitted (sh c) !! i); simplify_eq/=.
  - destruct (workers c !! i) as [w|]; [|done]. simpl in Hst.
    by destruct (tstep _ _ _ _) as [[p' [s' cell]]|]; simplify_eq/=.
  - destruct (workers c !! i) as [w|]; [|done]. simpl in Hst. by destruct (ended (w_prog w)); simplify_eq/=.
Qed.
End pool.

(** ** The invariant of the runtime *)

Section runtime.
Context {R Q task T : Type} `{!EqDecision R} `{ConcurrentQueueLaws Q (R * Handle)} `{AsyncTaskLaws task}.
Context (the_inner : HandleInner) (context_of : Z → Z) (Hwired : works_wired the_inner context_of).
Context (future : R → nat → option T) (awaited : R) (handle : Handle) (Hhandle : inner handle = the_inner).
Abbreviation runtime := (runtime R Q task T).
Abbreviation Inv := (ExecutorThm.inv (R := R) (Q := Q) the_inner context_of).
Abbreviation rstep := (runtime_step the_inner context_of future awaited).
Implicit Types (s : runtime) (r : R).

(** The [Runnable]s of a task. *)
Definition runnables (o : option (task * Handle)) : nat :=
  match o with Some (a, _) => if at_scheduled a then 1 else 0 | None => 0 end.

(** What the polls of a future have yielded after [n] runs. *)
Definition polled r (n : nat) (ready : bool) : Prop :=
  if ready then ∃ k v, n = S k ∧ future r k = Some v ∧ ∀ j, (j < k)%nat → future r j = None
  else ∀ j, (j < n)%nat → future r j = None.

Definition task_ok r (o : option (task * Handle)) (n : nat) : Prop :=
  match o with
  | None => n = 0%nat
  | Some (a, h) => inner h = the_inner ∧ (at_scheduled a = true → at_completed a = false) ∧
      (at_scheduled a = false → (0 < n)%nat) ∧ polled r n (at_completed a)
  end.

Definition result (n : nat) (a : task) : option T :=
  if at_completed a then future awaited (pred n) else None.

Record runtime_inv s : Prop := {
  ri_pool : ∃ ps vs, Inv (rt_pool s) ps vs;
  ri_block : block_inv (rt_block s);
  ri_spawn : rt_spawning s = true → pushers (rt_pool s) ≠ [];
  ri_due r : due r (rt_pool s) = (runs r (rt_pool s) + runnables (rt_tasks s r))%nat;
  ri_task r : task_ok r (rt_tasks s r) (runs r (rt_pool s));
  ri_output : ∃ a h, rt_tasks s awaited = Some (a, h) ∧
    output (rt_block s) = result (runs awaited (rt_pool s)) a;
}.

Lemma polled_zero r : polled r 0 false.
Proof. intros j Hj. lia. Qed.

Lemma runtime_inv_start : runtime_inv (runtime_start awaited handle).
Proof.
  destruct at_spawn_spec as [Hs Hc]. constructor; simpl.
  - edestruct (inv_step the_inner context_of Hwired (LPush handle awaited) Executor.start [] [])
      as (ps & vs & Hinv & _); [apply inv_start|simpl; by rewrite decide_True|]. by exists ps, vs.
  - apply block_inv_start.
  - done.
  - intros r. unfold due. simpl. unfold update. case_decide as Hr.
    + subst r. simpl. rewrite Hs, bool_decide_true by done. done.
    + by rewrite bool_decide_false.
  - intros r. unfold update. case_decide as Hr; [|done]. simpl. rewrite Hc.
    split_and!; [done|done|by rewrite Hs|apply polled_zero].
  - exists at_spawn, handle. rewrite update_same. split; [done|]. unfold result. by rewrite Hc.
Qed.

(** A task gets a [Runnable], which is being pushed. *)
Lemma schedule_inv r a h s s' :
  runtime_inv s → schedule_task the_inner context_of r a h s = Some s' →
  at_scheduled a = true → at_completed a = false → runnables (rt_tasks s r) = 0%nat →
  polled r (runs r (rt_pool s)) false → (r = awaited → output (rt_block s) = None) → runtime_inv s'.
Proof.
  intros [(ps & vs & Hp) Hb Hsp Hd Ht Ho] Hst Hs Hc Hr Hpo Haw.
  unfold schedule_task in Hst. destruct (pool_step _ _ (LPush h r) (rt_pool s)) as [c|] eqn:Hc'; [|done].
  pose proof (inv_step the_inner context_of Hwired _ _ _ _ _ Hp Hc') as (ps' & vs' & Hp' & _).
  simpl in Hc'. case_decide as Hh; simplify_eq/=. constructor; simpl.
  - by exists ps', vs'.
  - done.
  - intros _. by destruct (pushers (rt_pool s)).
  - intros r'. specialize (Hd r'). unfold due in *. simpl. rewrite count_app. simpl. unfold update.
    destruct (decide (r' = r)) as [->|Hne].
    + rewrite bool_decide_true by done. simpl. rewrite Hs. unfold runs in *. simpl. lia.
    + rewrite bool_decide_false by done. unfold runs in *. simpl. lia.
  - intros r'. unfold update. case_decide as Hr'; [|apply Ht]. subst r'. simpl. rewrite Hc.
    split_and!; [done|done|by rewrite Hs|done].
  - destruct Ho as (a' & h' & Ha' & Hout). unfold update. case_decide as Hr'; [|by exists a', h'].
    exists a, h. split; [done|]. unfold result. rewrite Hc. by apply Haw.
Qed.

(** The blocked thread is inside [push_task] as long as it spawns. *)
Lemma spawn_inv (l : Executor.label R) (c c' : Executor.config R Q) :
  pushers c ≠ [] → internal l = true → pool_step the_inner context_of l c = Some c' →
  still_spawning l c c' = true → pushers c' ≠ [].
Proof.
  intros Hc Hl Hst Hstill. pose proof (internal_pushers the_inner context_of l c c' Hl Hst) as Hp.
  destruct l as [h r|i|i instance found|i|i]; [done| |by rewrite Hp..].
  destruct Hp as (p & Hi & Hp). destruct i as [|i].
  - simpl in Hstill. apply bool_decide_eq_true in Hstill. intros Hnil. rewrite Hnil in Hstill. by destruct (pushers c).
  - destruct (pushers c) as [|p0 [|p1 ps]]; simplify_eq/=. by destruct Hp as [->|[p' ->]].
Qed.

Lemma runs_snoc r r' cell (c c' : Executor.config R Q) :
  ran (sh c') = ran (sh c) ++ [(r, cell)] →
  runs r' c' = (runs r' c + if decide (r = r') then 1 else 0)%nat.
Proof.
  intros Hr. unfold runs. rewrite Hr, count_app. simpl. unfold is_run at 2. simpl.
  destruct (decide (r = r')); [rewrite bool_decide_true by done|rewrite bool_decide_false by done]; lia.
Qed.

(** A task that is run: it has a [Runnable], and its future is polled for the
    next time. *)
Lemma polling_inv r a h (n : nat) :
  task_ok r (Some (a, h)) n → at_scheduled a = true →
  at_completed a = false ∧ at_scheduled (at_run (if future r n is Some _ then true else false) a) = false ∧
  at_completed (at_run (if future r n is Some _ then true else false) a) = (if future r n is Some _ then true else false) ∧
  task_ok r (Some (at_run (if future r n is Some _ then true else false) a, h)) (S n).
Proof.
  intros (Hh & Hc & _ & Hp) Hs. specialize (Hc Hs). rewrite Hc in Hp.
  destruct (at_run_spec (if future r n is Some _ then true else false) a Hs Hc) as [Hs' Hc'].
  split_and!; [done..|]. simpl. rewrite Hs', Hc'. split_and!; [done|done|lia|].
  destruct (future r n) as [v|] eqn:Hf; simpl.
  - by exists n, v.
  - intros j Hj. destruct (decide (j = n)) as [->|]; [done|]. apply Hp. lia.
Qed.

Lemma pool_step_inv l s s' : runtime_inv s → rstep (RPool l) s = Some s' → runtime_inv s'.
Proof.
  intros [(ps & vs & Hp) Hb Hsp Hd Ht Ho] Hst. simpl in Hst. destruct (internal l) eqn:Hl; [|done].
  destruct (pool_step the_inner context_of l (rt_pool s)) as [c|] eqn:Hc; [|done]. cbn [mbind option_bind] in Hst.
  pose proof (inv_step the_inner context_of Hwired _ _ _ _ _ Hp Hc) as (ps' & vs' & Hp' & _).
  assert (rt_spawning s && still_spawning l (rt_pool s) c = true → pushers c ≠ []) as Hsp'.
  { intros [H1' H2']%andb_prop. by eapply spawn_inv; [apply Hsp| | |]. }
  destruct (internal_step the_inner context_of _ _ _ _ _ Hp Hl Hc) as [Hdue Hran].
  destruct Hran as [Hran|(r & cell & Hran & Hlt)].
  - assert (∀ r, runs r c = runs r (rt_pool s)) as Hruns by (intros r; unfold runs; by rewrite Hran).
    unfold just_ran in Hst. rewrite Hran, drop_all in Hst. simplify_eq/=.
    constructor; simpl; [by exists ps', vs'|done|done|..].
    + intros r. by rewrite Hdue, Hruns.
    + intros r. rewrite Hruns. apply Ht.
    + by rewrite Hruns.
  - unfold just_ran in Hst. rewrite Hran, drop_app_length in Hst. unfold poll_task in Hst.
    cbn [rt_pool rt_block rt_spawning rt_tasks] in Hst.
    pose proof (Hd r) as Hdr. pose proof (Ht r) as Htr.
    destruct (rt_tasks s r) as [[a h]|] eqn:Hta; [|simpl in Hdr; lia].
    cbn [mbind option_bind] in Hst.
    destruct (at_scheduled a) eqn:Hs; [|simpl in Hdr; rewrite Hs in Hdr; lia].
    destruct (polling_inv r a h _ Htr Hs) as (Hcomp & Hs' & Hc' & Hok').
    set (a' := at_run _ a) in *. set (k := runs r (rt_pool s)) in *.
    assert (r = awaited → output (rt_block s) = None) as Hnone.
    { intros ->. destruct Ho as (a0 & h0 & Ha0 & Hout). rewrite Ha0 in Hta. simplify_eq.
      rewrite Hout. unfold result. by rewrite Hcomp. }
    destruct (match future r k with
              | Some v => if decide (r = awaited) then block_step (LFinish v) (rt_block s) else Some (rt_block s)
              | None => Some (rt_block s) end) as [b|] eqn:Hblk; [|done]. cbn [mbind option_bind] in Hst. injection Hst as <-.
    assert (block_inv b ∧ output b = if decide (r = awaited) then future r k else output (rt_block s)) as [Hb' Hout'].
    { destruct (future r k) as [v|] eqn:Hf.
      - destruct (decide (r = awaited)) as [Hra|]; [|by simplify_eq]. simpl in Hblk. split.
        + by eapply (block_inv_step (LFinish v)).
        + rewrite (Hnone Hra) in Hblk. by simplify_eq/=.
      - simplify_eq. split; [done|]. case_decide; [by apply Hnone|done]. }
    constructor; simpl; [by exists ps', vs'|done|done|..].
    + intros r'. rewrite Hdue, (runs_snoc r r' cell _ _ Hran), Hd. unfold update.
      destruct (decide (r' = r)) as [->|Hne].
      * rewrite decide_True by done. rewrite Hta. simpl. rewrite Hs, Hs'. lia.
      * rewrite decide_False by done. lia.
    + intros r'. rewrite (runs_snoc r r' cell _ _ Hran). unfold update.
      destruct (decide (r' = r)) as [->|Hne].
      * rewrite decide_True, Nat.add_1_r by done. exact Hok'.
      * rewrite decide_False, Nat.add_0_r by done. apply Ht.
    + rewrite Hout', (runs_snoc r awaited cell _ _ Hran). unfold update.
      destruct (decide (awaited = r)) as [<-|Hne].
      * exists a', h. rewrite !decide_True, Nat.add_1_r by done. split; [done|]. unfold result. simpl.
        rewrite Hc'. fold k. by destruct (future awaited k).
      * rewrite !decide_False, Nat.add_0_r by done. exact Ho.
Qed.

Lemma block_moves_inv l s s' : runtime_inv s → rstep (RBlock l) s = Some s' → runtime_inv s'.
Proof.
  intros [Hp Hb Hsp Hd Ht Ho] Hst.
  assert (∀ b, block_step l (rt_block s) = Some b → (∀ v, l ≠ LFinish v) →
    runtime_inv {| rt_pool := rt_pool s; rt_block := b; rt_spawning := false; rt_tasks := rt_tasks s |}) as Hmove.
  { intros b Hl Hne. constructor; simpl; try done; [by eapply (block_inv_step l)|].
    by rewrite (output_stays l (rt_block s) b Hb Hne Hl). }
  simpl in Hst. destruct l, (rt_spawning s); try done;
    (destruct (block_step _ (rt_block s)) as [b|] eqn:Hl; [|done]); injection Hst as <-; by apply Hmove.
Qed.

Lemma wake_inv r s s' : runtime_inv s → rstep (RWake r) s = Some s' → runtime_inv s'.
Proof.
  intros Hs Hst. pose proof Hs as [Hp Hb Hsp Hd Ht Ho]. simpl in Hst.
  pose proof (Ht r) as Htr. destruct (rt_tasks s r) as [[a h]|] eqn:Hta; [|done]. cbn [mbind option_bind] in Hst.
  destruct Htr as (Hh & Hsc & Hpos & Hpo). pose proof (at_wake_spec a) as (Hfl & Hs' & Hc').
  destruct (at_wake a) as [a' fl]. simpl in *. destruct fl.
  - symmetry in Hfl. apply negb_true_iff, orb_false_iff in Hfl as [Hns Hnc]. rewrite Hnc in *.
    eapply (schedule_inv r a' h s); try done; [by rewrite Hs', orb_true_r|by rewrite Hta; simpl; rewrite Hns|].
    intros ->. destruct Ho as (a0 & h0 & Ha0 & ->). rewrite Hta in Ha0. simplify_eq. unfold result. by rewrite Hnc.
  - simplify_eq/=. rewrite orb_false_r in Hs'. constructor; simpl; try done.
    + intros r'. rewrite Hd. unfold update. destruct (decide (r' = r)) as [->|]; [|done].
      rewrite Hta. simpl. by rewrite Hs'.
    + intros r'. unfold update. destruct (decide (r' = r)) as [->|]; [|by apply Ht]. simpl. by rewrite Hs', Hc'.
    + destruct Ho as (a0 & h0 & Ha0 & Hout). unfold update. destruct (decide (awaited = r)) as [<-|]; [|by exists a0, h0].
      rewrite Hta in Ha0. simplify_eq. exists a', h0. split; [done|]. rewrite Hout. unfold result. by rewrite Hc'.
Qed.

Lemma runtime_step_inv l s s' : runtime_inv s → rstep l s = Some s' → runtime_inv s'.
Proof.
  intros Hs Hst. destruct l as [l|l|r|r h].
  - by eapply pool_step_inv.
  - by eapply block_moves_inv.
  - by eapply wake_inv.
  - simpl in Hst. pose proof (ri_task s Hs r) as Ht. destruct (rt_tasks s r) eqn:Hta; [done|].
    destruct at_spawn_spec as [Hsp Hc]. simpl in Ht. eapply (schedule_inv r at_spawn h s); try done.
    + by rewrite Hta.
    + rewrite Ht. apply polled_zero.
    + intros ->. destruct (ri_output s Hs) as (a0 & h0 & Ha0 & _). congruence.
Qed.

#[local] Instance rlts : LTS (rlabel R T) runtime := runtime_lts the_inner context_of future awaited handle.

Lemma runtime_exec_inv ls s :
  runtime_exec the_inner context_of future awaited handle ls = Some s → runtime_inv s.
Proof.
  apply (invariant (H := rlts) runtime_inv ls s); [apply runtime_inv_start|].
  intros l s1 s2. apply runtime_step_inv.
Qed.

(** ** Progress *)

(** The pool can always move as it would alone. *)
Lemma pool_step_enabled l s c :
  runtime_inv s → internal l = true → pool_step the_inner context_of l (rt_pool s) = Some c →
  ∃ s', rstep (RPool l) s = Some s' ∧ rt_pool s' = c.
Proof.
  intros [(ps & vs & Hp) Hb Hsp Hd Ht Ho] Hl Hc. simpl. rewrite Hl, Hc. cbn [mbind option_bind].
  destruct (internal_step the_inner context_of _ _ _ _ _ Hp Hl Hc) as [Hdue Hran].
  destruct Hran as [Hran|(r & cell & Hran & Hlt)].
  - unfold just_ran. rewrite Hran, drop_all. by eexists.
  - unfold just_ran. rewrite Hran, drop_app_length. unfold poll_task. cbn [rt_pool rt_block rt_spawning rt_tasks].
    pose proof (Hd r) as Hdr. pose proof (Ht r) as Htr.
    destruct (rt_tasks s r) as [[a h]|] eqn:Hta; [|simpl in Hdr; lia]. cbn [mbind option_bind].
    destruct (at_scheduled a) eqn:Hs; [|simpl in Hdr; rewrite Hs in Hdr; lia].
    destruct (polling_inv r a h _ Htr Hs) as (Hcomp & _).
    destruct (future r _) as [v|]; [|by eexists]. case_decide as Hra; [|by eexists]. subst r.
    destruct Ho as (a0 & h0 & Ha0 & Hout). rewrite Ha0 in Hta. simplify_eq.
    unfold result in Hout. rewrite Hcomp in Hout. simpl. rewrite Hout. by eexists.
Qed.

Lemma pool_exec_enabled ls s c :
  runtime_inv s → forallb internal ls = true →
  exec (H := pool_lts the_inner context_of) ls (rt_pool s) = Some c →
  ∃ s', exec (H := rlts) (RPool <$> ls) s = Some s' ∧ rt_pool s' = c ∧ runtime_inv s' ∧
    ∀ r, due r c = due r (rt_pool s).
Proof.
  revert s. induction ls as [|l ls IH]; intros s Hs Hls Hex.
  - simplify_eq/=. by exists s.
  - simpl in Hls, Hex. apply andb_prop in Hls as [Hl Hls].
    destruct (pool_step the_inner context_of l (rt_pool s)) as [c1|] eqn:Hc; [|done]. simpl in Hex.
    destruct (pool_step_enabled l s c1 Hs Hl Hc) as (s1 & Hs1 & <-).
    destruct (IH s1) as (s' & Hex' & Hc' & Hinv & Hdue); [by eapply runtime_step_inv|done|done|].
    exists s'. split_and!; [|done|done|].
    + transitivity (rstep (RPool l) s ≫= exec (H := rlts) (RPool <$> ls)); [done|]. by rewrite Hs1.
    + intros r. destruct Hs as [(ps & vs & Hp) _ _ _ _ _]. rewrite Hdue.
      apply (internal_step the_inner context_of _ _ _ _ _ Hp Hl Hc).
Qed.

(** The pool runs every [Runnable] there is. *)
Lemma pool_settles s :
  runtime_inv s →
  ∃ ls s', forallb internal ls = true ∧ exec (H := rlts) (RPool <$> ls) s = Some s' ∧ runtime_inv s' ∧
    rt_spawning s' = false ∧ ∀ r, runnables (rt_tasks s' r) = 0%nat ∧
      runs r (rt_pool s') = (runs r (rt_pool s) + runnables (rt_tasks s r))%nat.
Proof.
  intros Hs. pose proof (ri_pool s Hs) as (ps & vs & Hp).
  destruct (drain the_inner context_of Hwired _ (rt_pool s) ps vs Hp eq_refl)
    as (ls & c & _ & Hls & Hex & Hc & Hsub).
  destruct (pool_exec_enabled ls s c Hs Hls Hex) as (s' & Hex' & <- & Hs' & Hdue).
  exists ls, s'. split_and!; [done|done|done| |].
  - destruct (rt_spawning s') eqn:Hsp; [|done]. destruct (ri_spawn s' Hs' Hsp). by destruct Hc.
  - intros r. pose proof (drained_runs the_inner context_of (rt_pool s') r Hc Hsub) as Hr.
    pose proof (ri_due s' Hs' r). pose proof (ri_due s Hs r). rewrite Hdue in *. lia.
Qed.

(** The moves of the runtime and of the awaited future itself; the second
    kind counted. *)
Definition own (l : rlabel R T) : bool :=
  match l with RPool _ | RBlock _ => true | RWake r => bool_decide (r = awaited) | RSpawn _ _ => false end.
Definition is_wake (l : rlabel R T) : bool := match l with RWake _ => true | _ => false end.

Lemma own_pool ls : forallb own (RPool <$> ls) = true ∧ count is_wake (RPool (T := T) <$> ls) = 0%nat.
Proof. induction ls as [|l ls [IH1 IH2]]; [done|]. by split. Qed.

Lemma own_block ls : forallb own (RBlock <$> ls) = true ∧ count is_wake (RBlock (R := R) (T := T) <$> ls) = 0%nat.
Proof. induction ls as [|l ls [IH1 IH2]]; [done|]. by split. Qed.

(** The blocked thread moves as it would alone. *)
Lemma block_exec_enabled ls s b :
  rt_spawning s = false → Forall (λ l, match l with LMain | LWaker _ => True | _ => False end) ls →
  exec (L := Waker.label T) ls (rt_block s) = Some b →
  exec (H := rlts) (RBlock <$> ls) s =
    Some {| rt_pool := rt_pool s; rt_block := b; rt_spawning := false; rt_tasks := rt_tasks s |}.
Proof.
  intros Hsp Hls. revert s Hsp. induction Hls as [|l ls Hl _ IH]; intros s Hsp Hex.
  - simplify_eq/=. destruct s. simpl in *. by subst.
  - cbn [exec] in Hex. destruct (lstep l (rt_block s)) as [b1|] eqn:Hb; [|done].
    transitivity (rstep (RBlock l) s ≫= exec (H := rlts) (RBlock <$> ls)); [done|].
    change (block_step l (rt_block s) = Some b1) in Hb.
    assert (rstep (RBlock l) s =
      Some {| rt_pool := rt_pool s; rt_block := b1; rt_spawning := false; rt_tasks := rt_tasks s |}) as ->.
    { unfold runtime_step. rewrite Hsp. by destruct l; rewrite ?Hb. }
    by apply (IH {| rt_pool := rt_pool s; rt_block := b1; rt_spawning := false; rt_tasks := rt_tasks s |}).
Qed.

(** A task without a [Runnable] has been run. *)
Lemma has_run s : runtime_inv s → runnables (rt_tasks s awaited) = 0%nat → (0 < runs awaited (rt_pool s))%nat.
Proof.
  intros Hs Hr. destruct (ri_output s Hs) as (a & h & Hta & _). pose proof (ri_task s Hs awaited) as Ht.
  rewrite Hta in Ht, Hr. destruct Ht as (_ & _ & Hpos & _). simpl in Hr. apply Hpos. by destruct (at_scheduled a).
Qed.

(** One round: the awaited future is woken, and polled again. *)
Lemma wake_and_run s a h :
  runtime_inv s → rt_tasks s awaited = Some (a, h) → at_scheduled a = false → at_completed a = false →
  ∃ ls s', forallb own ls = true ∧ count is_wake ls = 1%nat ∧ exec (H := rlts) ls s = Some s' ∧ runtime_inv s' ∧
    rt_spawning s' = false ∧ runnables (rt_tasks s' awaited) = 0%nat ∧
    runs awaited (rt_pool s') = S (runs awaited (rt_pool s)).
Proof.
  intros Hs Hta Hns Hnc. pose proof (ri_task s Hs awaited) as Ht. rewrite Hta in Ht. destruct Ht as (Hh & _).
  pose proof (at_wake_spec a) as (Hfl & Hs1 & _). rewrite Hns, Hnc in *. simpl in Hfl. rewrite Hfl in Hs1. simpl in Hs1.
  assert (∃ s1, rstep (RWake awaited) s = Some s1 ∧ runnables (rt_tasks s1 awaited) = 1%nat ∧
    runs awaited (rt_pool s1) = runs awaited (rt_pool s)) as (s1 & Hst & Hr1 & Hruns).
  { unfold runtime_step, schedule_task. rewrite Hta. cbn [mbind option_bind].
    destruct (at_wake a) as [a1 fl]. simpl in Hfl, Hs1. subst fl. cbn [pool_step].
    rewrite decide_True by done. eexists. split; [done|]. simpl. rewrite update_same. simpl. by rewrite Hs1. }
  assert (runtime_inv s1) as Hinv1 by (by eapply runtime_step_inv).
  destruct (pool_settles s1 Hinv1) as (ls & s' & _ & Hex & Hs' & Hsp & Hall).
  destruct (Hall awaited) as [H0' Hruns']. destruct (own_pool ls) as [Hown Hcnt].
  exists (RWake awaited :: (RPool <$> ls)), s'. split_and!; [| | |done|done|done|].
  - simpl. rewrite Hown. by rewrite bool_decide_true.
  - simpl. by rewrite Hcnt.
  - transitivity (rstep (RWake awaited) s ≫= exec (H := rlts) (RPool <$> ls)); [done|]. by rewrite Hst.
  - rewrite Hruns', Hr1, Hruns. lia.
Qed.

(** The awaited task completes once its future is polled often enough. *)
Lemma awaited_completes m s n v :
  runtime_inv s → rt_spawning s = false → runnables (rt_tasks s awaited) = 0%nat →
  future awaited n = Some v → (∀ j, (j < n)%nat → future awaited j = None) →
  (S n - runs awaited (rt_pool s) ≤ m)%nat →
  ∃ ls s', forallb own ls = true ∧ (count is_wake ls ≤ m)%nat ∧ exec (H := rlts) ls s = Some s' ∧ runtime_inv s' ∧
    rt_spawning s' = false ∧ output (rt_block s') = Some v ∧ runs awaited (rt_pool s') = S n.
Proof.
  intros Hs Hsp Hr Hn Hlt. revert s Hs Hsp Hr. induction m as [|m IH]; intros s Hs Hsp Hr Hm;
    destruct (ri_output s Hs) as (a & h & Hta & Hout); pose proof (ri_task s Hs awaited) as Ht;
    rewrite Hta in Ht, Hr; destruct Ht as (_ & _ & _ & Hpo); simpl in Hr;
    (destruct (at_completed a) eqn:Hc;
      [destruct Hpo as (k & v' & Hk & Hv' & Hnone)
      |assert (runs awaited (rt_pool s) ≤ n)%nat as Hle
         by (destruct (decide (runs awaited (rt_pool s) ≤ n)%nat) as [|Hgt]; [done|]; rewrite Hpo in Hn by lia; done)]).
  1, 3: assert (k = n) as -> by
      (destruct (Nat.lt_trichotomy k n) as [Hkn|[->|Hkn]]; [by rewrite Hlt in Hv'|done|by rewrite Hnone in Hn]);
    exists [], s; split_and!; [done|simpl; lia|done|done|done| |done]; rewrite Hout; unfold result; by rewrite Hc, Hk.
  - lia.
  - destruct (at_scheduled a) eqn:Hsc; [done|].
    destruct (wake_and_run s a h Hs Hta Hsc Hc) as (ls1 & s1 & Ho1 & Hw1 & Hex1 & Hs1 & Hsp1 & Hr1 & Hruns1).
    destruct (IH s1 Hs1 Hsp1 Hr1 ltac:(lia)) as (ls & s' & Ho & Hw & Hex & ? & ? & ? & ?).
    exists (ls1 ++ ls), s'. split_and!; [by rewrite forallb_app, Ho1|rewrite count_app; lia| |done..].
    by rewrite exec_app, Hex1.
Qed.
End runtime.

(** ** What [block_on] guarantees *)

Section theorems.
Context {R Q task T : Type} `{!EqDecision R} `{ConcurrentQueueLaws Q (R * Handle)} `{AsyncTaskLaws task}.
Context (the_inner : HandleInner) (context_of : Z → Z).
Context (future : R → nat → option T) (awaited : R) (handle : Handle).
Abbreviation rexec := (runtime_exec (Q := Q) (task := task) the_inner context_of future awaited handle).

(** C9. Whatever the other tasks of the pool do, [block_on] can always be brought
    to its end by the runtime and the awaited future alone: if the future is
    ready at its [n]-th poll (from zero), then from every state that is
    reached, [n] wake-ups of it at most, moves of the pool and moves of the
    blocked thread lead to a state where [block_on] has returned its output,
    and where it has been polled no more than that. *)
Theorem block_on_completes ls s n v :
  works_wired the_inner context_of → inner handle = the_inner → rexec ls = Some s →
  future awaited n = Some v → (∀ j, (j < n)%nat → future awaited j = None) →
  ∃ ls' s', forallb (own awaited) ls' = true ∧ (count (is_wake (T := T)) ls' ≤ n)%nat ∧
    rexec (ls ++ ls') = Some s' ∧ main (rt_block s') = Ret v ∧ runs awaited (rt_pool s') = S n.
Proof.
  intros Hwired Hh Hex Hn Hlt.
  pose proof (runtime_exec_inv the_inner context_of Hwired future awaited handle Hh ls s Hex) as Hs.
  destruct (pool_settles the_inner context_of Hwired future awaited handle Hh s Hs)
    as (ls1 & s1 & _ & Hex1 & Hs1 & Hsp1 & Hall).
  destruct (Hall awaited) as [Hr1 _].
  pose proof (has_run the_inner context_of future awaited s1 Hs1 Hr1) as Hpos.
  destruct (awaited_completes the_inner context_of Hwired future awaited handle Hh n s1 n v Hs1 Hsp1 Hr1 Hn Hlt ltac:(lia))
    as (ls2 & s2 & Ho2 & Hw2 & Hex2 & Hs2 & Hsp2 & Hout2 & Hruns2).
  destruct (block_finishes (rt_block s2) v (ri_block _ _ _ _ _ Hs2) Hout2) as (k & m & b & _ & _ & Hex3 & Hmain).
  apply (block_exec_enabled the_inner context_of Hwired future awaited handle Hh _ _ _ Hsp2) in Hex3;
    [|apply Forall_app; split; by apply Forall_replicate].
  destruct (own_pool (T := T) awaited ls1) as [Ho1 Hw1].
  destruct (own_block (T := T) awaited (replicate k (LWaker 0) ++ replicate m LMain)) as [Ho3 Hw3].
  eexists ((RPool <$> ls1) ++ ls2 ++ (RBlock <$> _)),
    {| rt_pool := rt_pool s2; rt_block := b; rt_spawning := false; rt_tasks := rt_tasks s2 |}.
  split_and!; [| | |exact Hmain|exact Hruns2].
  - rewrite !forallb_app, Ho1, Ho2. exact Ho3.
  - rewrite !count_app, Hw1, Hw3. lia.
  - unfold runtime_exec, rlts in *. rewrite exec_app, Hex. simpl. rewrite exec_app, Hex1. simpl.
    rewrite exec_app, Hex2. exact Hex3.
Qed.

(** C10. [block_on] is handed what its future was ready with, and polls it no
    further: when the blocked thread has returned [v], the awaited task was
    run [k + 1] times, its first [k] polls were pending and the next one
    yielded [v]; whatever the other tasks, and the wake-ups of this one, do. *)
Theorem block_on_yields ls s v :
  works_wired the_inner context_of → inner handle = the_inner → rexec ls = Some s →
  main (rt_block s) = Ret v →
  ∃ k, runs awaited (rt_pool s) = S k ∧ future awaited k = Some v ∧ ∀ j, (j < k)%nat → future awaited j = None.
Proof.
  intros Hwired Hh Hex Hm.
  pose proof (runtime_exec_inv the_inner context_of Hwired future awaited handle Hh ls s Hex) as Hs.
  pose proof (block_inv_result _ _ (ri_block _ _ _ _ _ Hs) Hm) as Hout.
  destruct (ri_output _ _ _ _ _ Hs) as (a & h & Hta & Hres).
  pose proof (ri_task _ _ _ _ _ Hs awaited) as Ht. rewrite Hta in Ht. destruct Ht as (_ & _ & _ & Hp).
  rewrite Hres in Hout. unfold result in Hout. destruct (at_completed a); [|done].
  destruct Hp as (k & v' & Hk & Hv' & Hnone). exists k. rewrite Hk in *. simpl in Hout. by split_and!.
Qed.
End theorems.
