(* ===== verification/RuntimeEx.v ===== *)
(** * A concrete run of the runtime: witnesses *)

From S2P Require Import Prelude Prog Extern Win32 Threadpool ThreadpoolThm Context.
From S2P Require Import Executor ExecutorThm ExecutorEx Waker Runtime RuntimeThm.

(** Task 1 is awaited and ready at its second poll; task 2 never is. *)
Definition future0 (r k : nat) : option Z :=
  if decide (r = 1%nat ∧ (0 < k)%nat) then Some 7 else None.

Abbreviation rexec0 := (runtime_exec (Q := list (nat * Handle)) (task := bool * bool)
  inner0 ctx0 future0 1%nat (handle0 Normal)).

(** Task 2 is spawned, task 1 is polled once while the blocked thread falls
    asleep, and is then woken; neither has been pushed yet. *)
Definition asleep0 : list (rlabel nat Z) :=
  [RSpawn 2%nat (handle0 Low); RPool (LPusher 0); RPool (LPusher 0)] ++
  (RBlock <$> replicate 2 LMain) ++
  [RPool (LDispatch 0 77 None)] ++ (RPool <$> replicate 4 (LWorker 0)) ++ [RPool (LDone 0)] ++
  (RBlock <$> replicate 3 LMain) ++ [RWake 1%nat].

(** The pool runs it again, its completion wakes the blocked thread. *)
Definition woken0 : list (rlabel nat Z) :=
  asleep0 ++ [RPool (LPusher 1); RPool (LPusher 0); RPool (LPusher 1); RPool (LDispatch 0 78 None)] ++
  (RPool <$> replicate 4 (LWorker 0)) ++ (RBlock <$> replicate 2 (LWaker 0)) ++ (RBlock <$> replicate 5 LMain).

Lemma block_on_completes_witness :
  ∃ s, rexec0 asleep0 = Some s ∧ asleep (rt_block s) = true ∧ length (pushers (rt_pool s)) = 2%nat ∧
  ∃ ls' s', forallb (own 1%nat) ls' = true ∧ (count (is_wake (T := Z)) ls' ≤ 1)%nat ∧
    rexec0 (asleep0 ++ ls') = Some s' ∧ main (rt_block s') = Ret 7 ∧ runs 1%nat (rt_pool s') = 2%nat.
Proof.
  eexists. split; [vm_compute; reflexivity|]. split; [vm_compute; reflexivity|].
  split; [vm_compute; reflexivity|].
  eapply (block_on_completes inner0 ctx0 future0 1%nat (handle0 Normal) asleep0 _ 1%nat 7).
  - exact works_wired0.
  - reflexivity.
  - vm_compute; reflexivity.
  - reflexivity.
  - intros j Hj. replace j with 0%nat by lia. reflexivity.
Defined.

Lemma block_on_yields_witness :
  ∃ s, rexec0 woken0 = Some s ∧ main (rt_block s) = Ret 7 ∧
  ∃ k, runs 1%nat (rt_pool s) = S k ∧ future0 1%nat k = Some 7 ∧ ∀ j, (j < k)%nat → future0 1%nat j = None.
Proof.
  eexists. split; [vm_compute; reflexivity|]. split; [vm_compute; reflexivity|].
  eapply (block_on_yields inner0 ctx0 future0 1%nat (handle0 Normal) woken0).
  - exact works_wired0.
  - reflexivity.
  - vm_compute; reflexivity.
  - vm_compute; reflexivity.
Defined.
