(* ===== verification/Task.v ===== *)
(** * Tasks: [src/src/task/spawn.rs] ([JoinHandle], [spawn]) and [util.rs]

    [async_task::Task] is not part of the repository: its operations are
    actions.  What the crate adds is the ownership of the [Task] value inside
    a [ManuallyDrop], which is what is verified here. *)

From S2P Require Import Prelude Prog Extern Win32 Threadpool Context Executor.

(** ** [Handle::spawn] *)

Section spawn.
Context {R T : Type}.
Abbreviation prog := (prog (xact R) xans).

(** The closure handed to [async_task::spawn], which also gets the future:
    it pushes the runnable on the clone of the handle it captured. *)
Definition schedule (handle : Handle) (runnable : R) : prog unit := push_task handle runnable.

(** [async_spawn] is [async_task::spawn(future, _)]: the runnable and the
    task; [runnable.schedule()] calls the closure. *)
Definition spawn (self : Handle) (async_spawn : (R → prog unit) → R * T) : prog T :=
  let schedule := schedule self in
  let '(runnable, task) := async_spawn schedule in
  schedule runnable ;;;
  Ret task.

(** The free function [spawn]. *)
Definition spawn_current (async_spawn : (R → prog unit) → R * T) : prog T :=
  h <- current ;; spawn h async_spawn.

(** [Handle::may_block] *)
Definition may_block (self : Handle) : prog bool :=
  match callback_instance self with
  | Some instance => r <- sys (CallbackMayRunLong instance) ;; Ret (bool_decide (r = TRUE))
  | None => Ret false
  end.

(** The free function [may_block]. *)
Definition may_block_current : prog bool := h <- current ;; may_block h.
End spawn.

(** ** [YieldNow] *)

(** [YieldNow::poll]: the new field, whether the waker is woken, the result. *)
Definition yield_poll (self : bool) : bool * bool * Poll unit :=
  if negb self then (true, true, Pending) else (self, false, Ready tt).

(** ** [JoinHandle] *)

Section join.
Context {T : Type}.

Inductive jact :=
| JTake            (* ManuallyDrop::take: was the value still there? *)
| JPoll            (* Task::poll *)
| JDetach          (* Task::detach *)
| JCancelPoll      (* polling the future of Task::cancel *)
| JCancelDrop.     (* dropping it, with the Task it owns *)

Definition jans (a : jact) : Type :=
  match a with
  | JTake => bool
  | JPoll => Poll T
  | JCancelPoll => Poll (option T)
  | JDetach | JCancelDrop => unit
  end.
Abbreviation prog := (prog jact jans).

Definition take : prog unit :=
  present <- act1 JTake ;;
  if (present : bool) then Ret tt
  else Fault (Undefined "ManuallyDrop::take of a value already taken").

(** [JoinHandle::poll] *)
Definition join_poll : prog (Poll T) := act1 JPoll.

(** [impl Drop for JoinHandle] *)
Definition join_drop : prog unit := take ;;; act1 JDetach.

(** [JoinHandle::cancel] is an [async fn]: its future is in one of three
    states, and owns the handle until it completes. *)
Inductive cancel_future := Unresumed | Suspended | Returned.

Definition cancel_await : prog (cancel_future * Poll (option T)) :=
  p <- act1 JCancelPoll ;;
  match p with
  | Ready output => Ret (Returned, Ready output)   (* mem::forget(this) *)
  | Pending => Ret (Suspended, Pending)
  end.

Definition cancel_poll (self : cancel_future) : prog (cancel_future * Poll (option T)) :=
  match self with
  | Unresumed => take ;;; cancel_await
  | Suspended => cancel_await
  | Returned => Fault (Panicked "`async fn` resumed after completion")
  end.

(** Dropping the future drops its live variables: the handle before the first
    poll; the awaited future and the handle at the await. *)
Definition cancel_drop (self : cancel_future) : prog unit :=
  match self with
  | Unresumed => join_drop
  | Suspended => act1 JCancelDrop ;;; join_drop
  | Returned => Ret tt
  end.

(** The future is polled [n] times without success, then polled to its end
    or dropped. *)
Inductive ending := Completes (output : option T) | Dropped.

Fixpoint cancel_life (n : nat) (e : ending) (self : cancel_future) : prog cancel_future :=
  match n with
  | S n => r <- cancel_poll self ;; cancel_life n e r.1
  | O => match e with
         | Completes _ => r <- cancel_poll self ;; Ret r.1
         | Dropped => cancel_drop self ;;; Ret self
         end
  end.

(** Who owns the [Task]: the cell of the handle; how often it was detached,
    or dropped with the future of [Task::cancel]; the polls left before the
    cancellation completes with [e]. *)
Record owner := { present : bool; released : nat; polls_left : nat }.

Definition jstep (e : ending) (a : jact) (_ : unit) (s : owner) : option (jans a * owner) :=
  match a return option (jans a * owner) with
  | JTake => Some (present s, {| present := false; released := released s; polls_left := polls_left s |})
  | JPoll => Some (Pending, s)
  | JDetach | JCancelDrop =>
      Some (tt, {| present := present s; released := S (released s); polls_left := polls_left s |})
  | JCancelPoll =>
      match polls_left s, e with
      | S k, _ => Some (Pending, {| present := present s; released := released s; polls_left := k |})
      | O, Completes o =>
          Some (Ready o, {| present := present s; released := S (released s); polls_left := 0 |})
      | O, Dropped => None
      end
  end.

Definition cancel_run (n : nat) (e : ending) : option ((cancel_future + fault) * owner) :=
  run_to (jstep e) (2 * n + 6) tt (cancel_life n e Unresumed)
    {| present := true; released := 0; polls_left := n |}.

(** The polls after the first one. *)
Lemma cancel_suspended n e k rel fuel :
  run_to (jstep e) (n + fuel) tt (cancel_life n e Suspended)
    {| present := false; released := rel; polls_left := n + k |} =
  run_to (jstep e) fuel tt (cancel_life 0 e Suspended)
    {| present := false; released := rel; polls_left := k |}.
Proof. induction n as [|n IH]; [done|]. exact IH. Qed.

Lemma cancel_first_poll n e :
  cancel_run (S n) e =
  run_to (jstep e) (n + 6) tt (cancel_life 0 e Suspended)
    {| present := false; released := 0; polls_left := 0 |}.
Proof.
  pose proof (cancel_suspended n e 0 0 (n + 6)) as Hs. rewrite Nat.add_0_r in Hs. rewrite <- Hs.
  unfold cancel_run. replace (2 * S n + 6)%nat with (S (S (n + (n + 6)))) by lia. reflexivity.
Qed.

(** Polled to its end, however many times it takes, [cancel] takes the
    task out of the handle and releases it exactly once. *)
Theorem cancel_releases_once n (o : option T) :
  cancel_run n (Completes o) =
    Some (inl Returned, {| present := false; released := 1; polls_left := 0 |}).
Proof.
  destruct n as [|n]; [reflexivity|]. rewrite cancel_first_poll.
  by replace (n + 6)%nat with (S (S (n + 4))) by lia.
Qed.

(** C38. Dropping the future of [cancel] releases the task once when it was
    never polled; once it has been polled, the task is taken out of the
    handle a second time, after it was dropped. *)
Theorem dropping_a_suspended_cancel_is_undefined n :
  cancel_run n Dropped =
    match n with
    | O => Some (inl Unresumed, {| present := false; released := 1; polls_left := 0 |})
    | S _ => Some (inr (Undefined "ManuallyDrop::take of a value already taken"),
               {| present := false; released := 1; polls_left := 0 |})
    end.
Proof.
  destruct n as [|n]; [reflexivity|]. rewrite cancel_first_poll.
  by replace (n + 6)%nat with (S (S (S (n + 3)))) by lia.
Qed.
End join.

(** A task that yields is pending once, having woken itself, and then done. *)
Lemma yield_once :
  let '(s1, woken, p1) := yield_poll false in
  let '(s2, woken', p2) := yield_poll s1 in
  (woken, p1) = (true, Pending) ∧ (woken', p2) = (false, Ready tt).
Proof. done. Qed.
