(* ===== verification/IoBuf.v ===== *)
(** * Buffers: [IoSliceMut] (src/src/io/read/mod.rs) and [IoSlice] (write/mod.rs)

    Both are a [WSABUF] whose lifetime is that of a borrowed slice.  A slice
    is the address and the length of its bytes; memory maps addresses to
    bytes. *)

From S2P Require Import Prelude Win32.
From Stdlib Require Import Strings.Byte.

(** ** Memory *)

Abbreviation memory := (gmap Z byte).

#[export] Instance byte_inhabited : Inhabited byte := populate x00.

Definition mem_write (m : memory) (a : Z) (bs : list byte) : memory := map_seqZ a bs ∪ m.

Definition mem_read (m : memory) (a : Z) (n : nat) : list byte :=
  (λ i, default x00 (m !! (a + Z.of_nat i))) <$> seq 0 n.

Lemma mem_write_nil m a : mem_write m a [] = m.
Proof. apply (left_id_L ∅ (∪)). Qed.

(** Two adjacent writes are one. *)
Lemma mem_write_app m a bs1 bs2 :
  mem_write (mem_write m a bs1) (a + Z.of_nat (length bs1)) bs2 = mem_write m a (bs1 ++ bs2).
Proof.
  unfold mem_write. rewrite (map_seqZ_app (M := gmap Z)), (assoc_L (∪)).
  f_equal. apply map_union_comm. symmetry. apply (map_seqZ_app_disjoint (M := gmap Z)).
Qed.

Lemma mem_read_length m a n : length (mem_read m a n) = n.
Proof. unfold mem_read. by rewrite length_fmap, length_seq. Qed.

(** Two adjacent reads are one. *)
Lemma mem_read_app m a n1 n2 :
  mem_read m a (n1 + n2) = mem_read m a n1 ++ mem_read m (a + Z.of_nat n1) n2.
Proof.
  unfold mem_read. rewrite seq_app, fmap_app. f_equal. simpl.
  rewrite <- (Nat.add_0_r n1) at 1. rewrite <- fmap_add_seq, <- list_fmap_compose.
  apply list_fmap_ext. intros i x _. simpl. do 2 f_equal. lia.
Qed.

(** What was written is what is read. *)
Lemma mem_read_write m a bs : mem_read (mem_write m a bs) a (length bs) = bs.
Proof.
  apply list_eq. intros i. unfold mem_read. rewrite list_lookup_fmap.
  destruct (decide (i < length bs)%nat) as [Hi|Hi].
  - rewrite lookup_seq_lt by done. simpl. destruct (lookup_lt_is_Some_2 bs i Hi) as [b Hb].
    rewrite Hb. unfold mem_write.
    erewrite lookup_union_Some_l; [done|]. apply (lookup_map_seqZ_Some (M := gmap Z)). split; [lia|].
    rewrite <- Hb. f_equal. lia.
  - rewrite lookup_seq_ge by lia. simpl. symmetry. apply lookup_ge_None_2. lia.
Qed.

(** Writes to places that do not overlap, and a read of another place. *)
Lemma mem_write_comm m a xs b ys :
  a + Z.of_nat (length xs) ≤ b ∨ b + Z.of_nat (length ys) ≤ a →
  mem_write (mem_write m a xs) b ys = mem_write (mem_write m b ys) a xs.
Proof.
  intros Hab. unfold mem_write. rewrite !(assoc_L (∪)). f_equal. apply map_union_comm.
  apply map_disjoint_spec. intros i x y Hx Hy.
  apply (lookup_map_seqZ_Some (M := gmap Z)) in Hx as [? Hx%lookup_lt_Some].
  apply (lookup_map_seqZ_Some (M := gmap Z)) in Hy as [? Hy%lookup_lt_Some]. lia.
Qed.

Lemma mem_read_outside m a bs b n :
  a + Z.of_nat (length bs) ≤ b ∨ b + Z.of_nat n ≤ a → mem_read (mem_write m a bs) b n = mem_read m b n.
Proof.
  intros Hab. unfold mem_read. apply list_fmap_ext. intros i j [-> Hj]%lookup_seq. simpl. f_equal.
  unfold mem_write. apply lookup_union_r. apply eq_None_not_Some. intros [x Hx].
  apply (lookup_map_seqZ_Some (M := gmap Z)) in Hx as [? Hx%lookup_lt_Some]. lia.
Qed.

(** ** Slices *)

(** A Rust slice of bytes; [usize] is 64 bits wide. *)
Record slice := { s_ptr : Z; s_len : Z }.

(** [IoSliceMut] and [IoSlice] are transparent wrappers of [WSABUF]. *)
Definition IoSliceMut : Type := WSABUF.
Definition IoSlice : Type := WSABUF.

(** [From<&mut [u8]>], [From<&mut [MaybeUninit<u8>]>] *)
Definition slice_mut_from (buf : slice) : IoSliceMut :=
  {| wsa_len := as_u32 (s_len buf); wsa_buf := s_ptr buf |}.

(** [From<&[u8]>] *)
Definition slice_from (buf : slice) : IoSlice :=
  {| wsa_len := as_u32 (s_len buf); wsa_buf := s_ptr buf |}.

(** [From<std::io::IoSliceMut>]: a transmute of the [WSABUF] inside. *)
Definition slice_mut_from_std (buf : WSABUF) : IoSliceMut := buf.
Definition slice_from_std (buf : WSABUF) : IoSlice := buf.

(** [From<&mut T>] and [From<&T>] for the types that dereference to bytes *)
Definition slice_mut_from_ref {T} (deref_mut : T → slice) (buf : T) : IoSliceMut := slice_mut_from (deref_mut buf).
Definition slice_from_ref {T} (deref : T → slice) (buf : T) : IoSlice := slice_from (deref buf).

(** [as_wsabuf], [as_mut_wsabuf] *)
Definition as_wsabuf (self : IoSliceMut) : WSABUF := self.
Definition as_mut_wsabuf (self : IoSliceMut) : WSABUF := self.
Definition slice_as_wsabuf (self : IoSlice) : WSABUF := self.

(** [Deref] and [DerefMut] of [IoSliceMut], [Deref] of [IoSlice] *)
Definition deref (self : IoSliceMut) : slice := {| s_ptr := wsa_buf self; s_len := wsa_len self |}.
Definition slice_deref (self : IoSlice) : slice := {| s_ptr := wsa_buf self; s_len := wsa_len self |}.

(** A buffer made from a slice covers the slice when its length fits in 32
    bits; a longer slice is cut to its length modulo 2^32, so that a slice of
    2^32 bytes becomes an empty buffer. *)
Theorem deref_slice_from (s : slice) :
  0 ≤ s_len s →
  s_ptr (deref (slice_mut_from s)) = s_ptr s ∧
  slice_deref (slice_from s) = deref (slice_mut_from s) ∧
  0 ≤ s_len (deref (slice_mut_from s)) ≤ s_len s ∧
  (s_len s < 2 ^ 32 ↔ deref (slice_mut_from s) = s).
Proof.
  intros Hlen. destruct s as [p len]; simpl in *.
  pose proof (wrap_range 32 len ltac:(lia)) as Hr. split_and!; [done|done|lia| |].
  - unfold wrap. by apply Z.mod_le.
  - unfold deref, slice_mut_from; simpl. split.
    + intros ?. by rewrite wrap_small.
    + intros Heq. simplify_eq. lia.
Qed.

Lemma deref_slice_from_witness :
  let s := {| s_ptr := 4096; s_len := 2 ^ 32 |} in
  s_len (deref (slice_mut_from s)) = 0 ∧
  s_ptr (deref (slice_mut_from s)) = s_ptr s ∧
  slice_deref (slice_from s) = deref (slice_mut_from s) ∧
  0 ≤ s_len (deref (slice_mut_from s)) ≤ s_len s ∧
  (s_len s < 2 ^ 32 ↔ deref (slice_mut_from s) = s).
Proof.
  intros s. split; [reflexivity|]. apply (deref_slice_from s). done.
Defined.
