(* ===== verification/ReadThm.v ===== *)
(** * What the reading extensions guarantee *)

From S2P Require Import Prelude Win32 IoBuf Read.
From Stdlib Require Import Strings.Byte.

(** ** [Chain] honours the contract *)

Section chain.
Context {cx T U : Type} `{HT : AsyncReadLaws cx T} `{HU : AsyncReadLaws cx U}.
Implicit Types (self : Chain T U).

(** The first reader's bytes, then the next one's. *)
Definition chain_incoming self : list byte :=
  if chained self then incoming (next self) else incoming (first self) ++ incoming (next self).

(** Reading nothing leaves what is incoming. *)
Lemma read_zero {V} `{HV : AsyncReadLaws cx V} io (w : cx) buf m io' m' :
  0 ≤ wsa_len buf → poll_read io w buf m = (io', m', Ready (Ok 0)) →
  incoming io' = incoming (T := V) io ∧ m' = m.
Proof.
  intros Hlen Hp. destruct (read_ready _ _ _ _ _ _ _ Hlen Hp) as (bs & Hbs & Hn & _ & ->).
  assert (length bs = 0%nat) as ->%length_zero_iff_nil by lia. by rewrite Hbs, mem_write_nil.
Qed.

(** A chained poll is one of the first reader that is not empty-handed, or
    one of the next after the first had nothing. *)
Lemma chain_poll_cases self (w : cx) buf m self' m' p :
  chain_poll_read self w buf m = (self', m', p) →
  (chained self = false ∧ p ≠ Ready (Ok 0) ∧
     poll_read (first self) w buf m = (first self', m', p) ∧
     next self' = next self ∧ chained self' = false) ∨
  (∃ m1, poll_read (next self) w buf m1 = (next self', m', p) ∧ chained self' = chained self ∧
     (chained self = true ∧ m1 = m ∧ first self' = first self ∨
      chained self = false ∧ poll_read (first self) w buf m = (first self', m1, Ready (Ok 0)))).
Proof.
  unfold chain_poll_read, chain_poll_next. destruct self as [f nx []]; simpl.
  - destruct (poll_read nx w buf m) as [[nx1 m1] p1] eqn:Hn. intros; simplify_eq/=. right. eauto 10.
  - destruct (poll_read f w buf m) as [[f1 m1] p1] eqn:Hf.
    destruct (decide (p1 = Ready (Ok 0))) as [->|Hne].
    + simpl. destruct (poll_read nx w buf m1) as [[nx1 m2] p2] eqn:Hn.
      intros; simplify_eq/=. right. eauto 10.
    + intros Heq. left. destruct p1 as [[[]|]|]; simplify_eq/=; eauto 10.
Qed.

Lemma chain_ready self (w : cx) buf m self' m' n :
  0 ≤ wsa_len buf → chain_poll_read self w buf m = (self', m', Ready (Ok n)) →
  ∃ bs, chain_incoming self = bs ++ chain_incoming self' ∧ n = Z.of_nat (length bs) ∧
        n ≤ wsa_len buf ∧ m' = mem_write m (wsa_buf buf) bs.
Proof.
  intros Hlen Hp. unfold chain_incoming.
  destruct (chain_poll_cases _ _ _ _ _ _ _ Hp) as [(-> & _ & Hf & -> & ->)|(m1 & Hn & -> & Hcase)].
  - destruct (read_ready _ _ _ _ _ _ _ Hlen Hf) as (bs & -> & Hbs). exists bs.
    by rewrite app_assoc.
  - destruct (read_ready _ _ _ _ _ _ _ Hlen Hn) as (bs & -> & Hbs & Hle & Hm). exists bs.
    destruct Hcase as [(-> & -> & _)|(-> & Hf)]; [done|].
    destruct (read_zero _ _ _ _ _ _ Hlen Hf) as [-> ->].
    destruct (decide (wsa_len buf = 0)).
    + assert (length bs = 0%nat) as ->%length_zero_iff_nil by lia. done.
    + assert (0 < wsa_len buf) as Hpos by lia. by rewrite (read_end _ _ _ _ _ _ Hpos Hf).
Qed.

Lemma chain_not_ready self (w : cx) buf m self' m' p :
  0 ≤ wsa_len buf → chain_poll_read self w buf m = (self', m', p) → (∀ n, p ≠ Ready (Ok n)) →
  chain_incoming self' = chain_incoming self ∧ m' = m.
Proof.
  intros Hlen Hp Hne. unfold chain_incoming.
  destruct (chain_poll_cases _ _ _ _ _ _ _ Hp) as [(-> & _ & Hf & -> & ->)|(m1 & Hn & -> & Hcase)].
  - by destruct (read_not_ready _ _ _ _ _ _ _ Hlen Hf Hne) as [-> ->].
  - destruct (read_not_ready _ _ _ _ _ _ _ Hlen Hn Hne) as [-> ->].
    destruct Hcase as [(-> & -> & _)|(-> & Hf)]; [done|].
    by destruct (read_zero _ _ _ _ _ _ Hlen Hf) as [-> ->].
Qed.

Lemma chain_end self (w : cx) buf m self' m' :
  0 < wsa_len buf → chain_poll_read self w buf m = (self', m', Ready (Ok 0)) →
  chain_incoming self = [].
Proof.
  intros Hlen Hp. unfold chain_incoming.
  destruct (chain_poll_cases _ _ _ _ _ _ _ Hp) as [(-> & ? & _)|(m1 & Hn & _ & Hcase)]; [done|].
  rewrite (read_end _ _ _ _ _ _ Hlen Hn).
  destruct Hcase as [(-> & _)|(-> & Hf)]; [done|]. by rewrite (read_end _ _ _ _ _ _ Hlen Hf).
Qed.

#[export] Instance chain_laws : AsyncReadLaws cx (Chain T U) := {
  incoming := chain_incoming;
  read_ready := chain_ready;
  read_not_ready := chain_not_ready;
  read_end := chain_end;
}.

(** C32. What a chain still has to deliver is what its first reader has
    followed by what the next one has, and every poll honours the contract of
    [AsyncRead] for it: a successful poll moves the first bytes to the buffer,
    and an empty-handed one means that both are at their end. *)
Theorem chain_poll_delivers (a : T) (b : U) (w : cx) buf m self' m' p :
  0 < wsa_len buf → chain_poll_read (chain a b) w buf m = (self', m', p) →
  match p with
  | Ready (Ok n) =>
      ∃ bs, incoming a ++ incoming b = bs ++ chain_incoming self' ∧ n = Z.of_nat (length bs) ∧
        n ≤ wsa_len buf ∧ m' = mem_write m (wsa_buf buf) bs ∧
        (n = 0 → incoming a = [] ∧ incoming b = [])
  | _ => chain_incoming self' = incoming a ++ incoming b ∧ m' = m
  end.
Proof.
  intros Hlen Hp. pose proof (Z.lt_le_incl _ _ Hlen) as Hle. destruct p as [[n|e]|].
  - destruct (chain_ready _ _ _ _ _ _ _ Hle Hp) as (bs & Hbs & ? & ? & ?).
    exists bs. split_and!; [done..|]. intros ->.
    pose proof (chain_end _ _ _ _ _ _ Hlen Hp) as He. by apply app_nil in He.
  - by apply (chain_not_ready _ _ _ _ _ _ _ Hle Hp).
  - by apply (chain_not_ready _ _ _ _ _ _ _ Hle Hp).
Qed.

(** A user of a chain: polls and cancellations. *)
Inductive chain_op := ChainPoll (w : cx) (buf : IoSliceMut) (m : memory) | ChainCancel (wait : bool).

Fixpoint chain_run (ops : list chain_op) self : Chain T U :=
  match ops with
  | [] => self
  | ChainPoll w buf m :: ops => chain_run ops (chain_poll_read self w buf m).1.1
  | ChainCancel wait :: ops => chain_run ops (chain_cancel_read self wait).1
  end.

Lemma chain_run_not_chained ops self : chained self = false → chained (chain_run ops self) = false.
Proof.
  revert self. induction ops as [|[w buf m|wait] ops IH]; intros self Hc; [done|..]; simpl; apply IH.
  - destruct (chain_poll_read self w buf m) as [[self' m'] p] eqn:Hp.
    destruct (chain_poll_cases _ _ _ _ _ _ _ Hp) as [(_ & _ & _ & _ & ?)|(? & _ & Hch & _)]; simpl; congruence.
  - unfold chain_cancel_read. rewrite Hc. simpl. by destruct (cancel_read _ _).
Qed.

(** [chained] is never set: whatever a chain has been used for, its next
    poll asks the first reader again, even after its end, and a cancellation
    always goes to the first reader and never reaches the second one, even
    when it is the one with an operation in flight. *)
Theorem chain_cancel_never_reaches_next (a : T) (b : U) ops wait :
  let self := chain_run ops (chain a b) in
  chained self = false ∧
  chain_cancel_read self wait =
    (Build_Chain (cancel_read (cx := cx) (first self) wait).1 (next self) false,
     (cancel_read (cx := cx) (first self) wait).2).
Proof.
  intros self. assert (chained self = false) as Hc by by apply chain_run_not_chained.
  split; [done|]. unfold chain_cancel_read. rewrite Hc. simpl. by destruct (cancel_read _ _).
Qed.
End chain.

(** ** [ReadExact] *)

Section exact.
Context {cx T : Type} `{HT : AsyncReadLaws cx T}.
Implicit Types (self : ReadExact T) (m : memory).

(** What a [ReadExact] on [len] bytes at [base] has done so far: the first [k]
    bytes of [data] are in place and the buffer covers the rest. *)
Definition progressed (data : list byte) (base len : Z) m0 self m : Prop :=
  ∃ k : nat, (k ≤ length data)%nat ∧ Z.of_nat k ≤ len ∧ re_n self = Z.of_nat k ∧
    re_buf self = {| wsa_len := len; wsa_buf := base |} ∧
    read_buf (re_read self) = {| wsa_len := len - Z.of_nat k; wsa_buf := base + Z.of_nat k |} ∧
    m = mem_write m0 base (take k data) ∧ incoming (io (re_read self)) = skipn k data.

(** The outcome of a poll. *)
Definition exact_post data base len m0 (self : ReadExact T) m (p : Poll (io_result unit)) : Prop :=
  match p with
  | Ready (Ok _) =>
      len ≤ Z.of_nat (length data) ∧ m = mem_write m0 base (take (Z.to_nat len) data) ∧
      incoming (io (re_read self)) = skipn (Z.to_nat len) data
  | _ => progressed data base len m0 self m
  end.

(** The future after a successful poll of its [Read]. *)
Definition advance self (io' : T) (n : Z) : ReadExact T :=
  let buf := read_buf (re_read self) in
  Build_ReadExact
    (Build_Read io' {| wsa_len := wrap 32 (wsa_len buf - as_u32 n); wsa_buf := wsa_buf buf + n |})
    (re_buf self) (wrap 64 (re_n self + n)).

Lemma exact_step data base len m0 (w : cx) self m io' m1 n :
  0 ≤ len < 2 ^ 32 → progressed data base len m0 self m →
  poll_read (io (re_read self)) w (read_buf (re_read self)) m = (io', m1, Ready (Ok n)) →
  progressed data base len m0 (advance self io' n) m1 ∧ 0 ≤ n ∧
  re_n (advance self io' n) = re_n self + n ∧ re_n self + n ≤ len ∧ 0 ≤ re_n self ∧
  (n = 0 → re_n self < len → Z.of_nat (length data) = re_n self).
Proof.
  intros Hlen (k & Hk & Hkl & Hn & Hb & Hrb & -> & Hin) Hp. rewrite Hrb in Hp.
  assert (0 ≤ wsa_len {| wsa_len := len - Z.of_nat k; wsa_buf := base + Z.of_nat k |}) as Hrest
    by (simpl; lia).
  destruct (read_ready _ w _ _ _ _ n Hrest Hp) as (bs & Hbs & -> & Hle & ->).
  simpl in Hle. rewrite Hin in Hbs. destruct (take_more data bs (incoming io') k Hk Hbs) as (Htake & Hinc & Hld).
  unfold advance. simpl. rewrite Hrb, Hn. simpl.
  rewrite (wrap_small 32 (Z.of_nat (length bs))), !wrap_small by lia.
  split_and!; [|lia..|].
  - exists (k + length bs)%nat. simpl. split_and!; [lia|lia|lia|done| | |done].
    + f_equal; lia.
    + rewrite Htake, <- mem_write_app. by rewrite length_take_le.
  - intros H0 Hlt. assert (0 < wsa_len {| wsa_len := len - Z.of_nat k; wsa_buf := base + Z.of_nat k |}) as Hpos
      by (simpl; lia).
    rewrite H0 in Hp. pose proof (read_end _ w _ _ _ _ Hpos Hp) as Hend.
    rewrite Hin in Hend. apply (f_equal length) in Hend. rewrite length_drop in Hend. simpl in Hend. lia.
Qed.

(** A poll that is not successful leaves the progress made. *)
Lemma exact_step_other data base len m0 (w : cx) self m io' m1 p :
  progressed data base len m0 self m → (∀ n, p ≠ Ready (Ok n)) →
  poll_read (io (re_read self)) w (read_buf (re_read self)) m = (io', m1, p) →
  progressed data base len m0
    (Build_ReadExact (Build_Read io' (read_buf (re_read self))) (re_buf self) (re_n self)) m1.
Proof.
  intros (k & Hk & Hkl & Hn & Hb & Hrb & -> & Hin) Hne Hp.
  assert (0 ≤ wsa_len (read_buf (re_read self))) as Hrest by (rewrite Hrb; simpl; lia).
  destruct (read_not_ready _ w _ _ _ _ _ Hrest Hp Hne) as [Hi ->].
  exists k. simpl. by rewrite Hi.
Qed.

Lemma exact_poll_inv data base len m0 fuel (w : cx) self m self' m' p :
  0 ≤ len < 2 ^ 32 → progressed data base len m0 self m →
  exact_poll fuel self w m = Some (self', m', p) → exact_post data base len m0 self' m' p.
Proof.
  intros Hlen. revert self m. induction fuel as [|fuel IH]; intros self m; [done|].
  intros Hinv. simpl. unfold read_poll, exact_resume.
  destruct (poll_read (io (re_read self)) w (read_buf (re_read self)) m) as [[io' m1] [[n|e]|]] eqn:Hp; simpl.
  - destruct (exact_step _ _ _ _ _ _ _ _ _ _ Hlen Hinv Hp) as (Hinv' & _).
    case_decide as Hd; [|by apply IH]. intros; simplify_eq/=.
    destruct Hinv' as (k & Hk & Hkl & Hn & Hb & _ & -> & Hin). simpl in *.
    assert (len = Z.of_nat k) as ->.
    { rewrite <- Hn, Hd, Hb. done. }
    rewrite Nat2Z.id. split_and!; [lia|done|done].
  - intros; simplify_eq/=. by eapply exact_step_other; [exact Hinv| |exact Hp].
  - intros; simplify_eq/=. by eapply exact_step_other; [exact Hinv| |exact Hp].
Qed.

Lemma exact_await_inv data base len m0 fuel ws self m self' m' p :
  0 ≤ len < 2 ^ 32 → progressed data base len m0 self m →
  exact_await fuel ws self m = Some (self', m', p) → exact_post data base len m0 self' m' p.
Proof.
  intros Hlen. revert self m. induction ws as [|w ws IH]; intros self m Hinv Hex; simplify_eq/=; [done|].
  destruct (exact_poll fuel self w m) as [[[self1 m1] p1]|] eqn:Hp; [|done].
  pose proof (exact_poll_inv _ _ _ _ _ _ _ _ _ _ _ Hlen Hinv Hp) as Hpost.
  destruct p1 as [[u|e]|]; simplify_eq/=; [done..|]. by eapply IH.
Qed.

Lemma read_exact_progressed (r : T) buf m :
  0 ≤ wsa_len buf < 2 ^ 32 →
  progressed (incoming r) (wsa_buf buf) (wsa_len buf) m (read_exact r buf) m.
Proof.
  intros Hlen. exists 0%nat. unfold read_exact, read; simpl. rewrite mem_write_nil.
  destruct buf as [len base]. split_and!; try lia; [done|simpl; f_equal; lia|done|done].
Qed.

(** C20. [read_exact] is exact: when the future completes successfully, after
    any number of polls and however the bytes came in, the buffer contains the
    next [len] bytes of the reader, nothing else was written, and the reader
    has moved on by exactly those bytes; until then the bytes received are at
    the start of the buffer and what is left of it is what is left to read. *)
Theorem read_exact_is_exact fuel ws (r : T) buf m self' m' p :
  0 ≤ wsa_len buf < 2 ^ 32 →
  exact_await fuel ws (read_exact r buf) m = Some (self', m', p) →
  exact_post (incoming r) (wsa_buf buf) (wsa_len buf) m self' m' p.
Proof.
  intros Hlen Hex. eapply exact_await_inv; [done| |exact Hex]. by apply read_exact_progressed.
Qed.

Lemma exact_poll_returns data base len m0 fuel (w : cx) self m :
  0 ≤ len < 2 ^ 32 → len ≤ Z.of_nat (length data) → progressed data base len m0 self m →
  (Z.to_nat (len - re_n self) < fuel)%nat → ∃ r, exact_poll fuel self w m = Some r.
Proof.
  intros Hlen Hdata. revert self m. induction fuel as [|fuel IH]; intros self m Hinv Hfuel; [lia|].
  simpl. unfold read_poll, exact_resume.
  destruct (poll_read (io (re_read self)) w (read_buf (re_read self)) m) as [[io' m1] [[n|e]|]] eqn:Hp;
    simpl; [|eauto..].
  destruct (exact_step _ _ _ _ _ _ _ _ _ _ Hlen Hinv Hp) as (Hinv' & Hn0 & Hn & Hnl & Hself & Hend).
  case_decide as Hd; [eauto|]. apply (IH (advance self io' n) m1 Hinv'). rewrite Hn.
  assert (re_buf self = {| wsa_len := len; wsa_buf := base |}) as Hb by (by destruct Hinv as (? & ? & ? & ? & ? & ?)).
  rewrite Hb in Hd. simpl in Hd, Hn. rewrite Hn in Hd. lia.
Qed.

Lemma exact_await_returns data base len m0 fuel ws self m :
  0 ≤ len < 2 ^ 32 → len ≤ Z.of_nat (length data) → progressed data base len m0 self m →
  (Z.to_nat len < fuel)%nat → ∃ r, exact_await fuel ws self m = Some r.
Proof.
  intros Hlen Hdata. revert self m. induction ws as [|w ws IH]; intros self m Hinv Hfuel; simpl; [eauto|].
  assert (0 ≤ re_n self) as Hn by (destruct Hinv as (k & _ & _ & -> & _); lia).
  destruct (exact_poll_returns _ _ _ _ fuel w self m Hlen Hdata Hinv ltac:(lia)) as [[[self' m'] p] Hp].
  rewrite Hp. pose proof (exact_poll_inv _ _ _ _ _ _ _ _ _ _ _ Hlen Hinv Hp) as Hpost.
  destruct p as [[]|]; [eauto..|]. by apply IH.
Qed.

(** When the reader has enough bytes to deliver, no poll of [read_exact]
    recurses more than [len] times: it returns. *)
Theorem read_exact_returns fuel ws (r : T) buf m :
  0 ≤ wsa_len buf < 2 ^ 32 → wsa_len buf ≤ Z.of_nat (length (incoming r)) →
  (Z.to_nat (wsa_len buf) < fuel)%nat →
  ∃ res, exact_await fuel ws (read_exact r buf) m = Some res.
Proof.
  intros Hlen Hdata Hfuel. by eapply exact_await_returns, Hfuel; [| |apply read_exact_progressed].
Qed.

(** At the end of the input it does not: when the reader answers that it
    has nothing more and the buffer is not full, [read_exact] polls it again
    and again inside one poll, and no fuel is enough. *)
Theorem read_exact_never_returns_at_end fuel (w : cx) self m :
  0 ≤ re_n self < wsa_len (re_buf self) → wsa_len (re_buf self) < 2 ^ 32 →
  (∀ buf m, poll_read (io (re_read self)) w buf m = (io (re_read self), m, Ready (Ok 0))) →
  exact_poll fuel self w m = None.
Proof.
  revert self. induction fuel as [|fuel IH]; intros self Hn Hb Hend; [done|].
  simpl. unfold read_poll, exact_resume. rewrite Hend. simpl. rewrite wrap_small by lia.
  rewrite decide_False by lia. apply IH; simpl; [lia|done|done].
Qed.
End exact.

(** ** A concrete reader *)

(** It has some bytes, and a script that says how many it delivers at most per
    poll; 0 means that the poll is pending. *)
Record script := { sc_data : list byte; sc_limits : list nat }.

Definition script_poll (r : script) (w : unit) (buf : IoSliceMut) (m : memory) :
    script * memory * Poll (io_result Z) :=
  let deliver limit limits :=
    let bs := take (Nat.min limit (Z.to_nat (wsa_len buf))) (sc_data r) in
    ({| sc_data := skipn (length bs) (sc_data r); sc_limits := limits |},
     mem_write m (wsa_buf buf) bs, Ready (Ok (Z.of_nat (length bs)))) in
  match sc_limits r with
  | [] => deliver (Z.to_nat (wsa_len buf)) []
  | O :: limits => ({| sc_data := sc_data r; sc_limits := limits |}, m, Pending)
  | limit :: limits => deliver limit limits
  end.

#[export] Instance script_read : AsyncRead unit script := {
  poll_read := script_poll;
  cancel_read r wait := (r, Ok tt);
}.

Lemma script_ready (r : script) (w : unit) buf m r' m' n :
  0 ≤ wsa_len buf → script_poll r w buf m = (r', m', Ready (Ok n)) →
  ∃ bs, sc_data r = bs ++ sc_data r' ∧ n = Z.of_nat (length bs) ∧ n ≤ wsa_len buf ∧
        m' = mem_write m (wsa_buf buf) bs.
Proof.
  intros Hlen. unfold script_poll.
  assert (∀ limit, let bs := take (Nat.min limit (Z.to_nat (wsa_len buf))) (sc_data r) in
    sc_data r = bs ++ skipn (length bs) (sc_data r) ∧ Z.of_nat (length bs) ≤ wsa_len buf) as Hd.
  { intros limit bs. split; [|subst bs; rewrite length_take; lia].
    subst bs. rewrite length_take. set (j := Nat.min limit _).
    destruct (Nat.min_spec j (length (sc_data r))) as [[? ->]|[? ->]]; [by rewrite take_drop|].
    by rewrite take_ge, drop_all, app_nil_r. }
  destruct (sc_limits r) as [|[|limit] limits]; [|done|]; intros Heq.
  - destruct (Hd (Z.to_nat (wsa_len buf))) as [H1 H2]. simplify_eq/=. eauto 10.
  - destruct (Hd (S limit)) as [H1 H2]. injection Heq as <- <- <-. eauto 10.
Qed.

Lemma script_not_ready (r : script) (w : unit) buf m r' m' p :
  0 ≤ wsa_len buf → script_poll r w buf m = (r', m', p) → (∀ n, p ≠ Ready (Ok n)) →
  sc_data r' = sc_data r ∧ m' = m.
Proof.
  intros _. unfold script_poll. destruct (sc_limits r) as [|[|limit] limits]; intros Heq Hne; simplify_eq/=.
  - by destruct (Hne _ eq_refl).
  - done.
  - by destruct (Hne _ eq_refl).
Qed.

Lemma script_end (r : script) (w : unit) buf m r' m' :
  0 < wsa_len buf → script_poll r w buf m = (r', m', Ready (Ok 0)) → sc_data r = [].
Proof.
  intros Hlen. unfold script_poll.
  assert (∀ limit, (0 < limit)%nat →
    Z.of_nat (length (take (Nat.min limit (Z.to_nat (wsa_len buf))) (sc_data r))) = 0 → sc_data r = []) as He.
  { intros limit Hl H0. rewrite length_take in H0. apply length_zero_iff_nil. lia. }
  destruct (sc_limits r) as [|[|limit] limits]; [|done|]; intros Heq; injection Heq as _ _ Hn.
  - apply (He (Z.to_nat (wsa_len buf))); [lia|done].
  - apply (He (S limit)); [lia|done].
Qed.

#[export] Instance script_laws : AsyncReadLaws unit script := {
  incoming := sc_data;
  read_ready := script_ready;
  read_not_ready := script_not_ready;
  read_end := script_end;
}.

(** *** Instances of the theorems *)

Definition hello : script := {| sc_data := [x68; x65; x6c; x6c; x6f; x21]; sc_limits := [2%nat; 0%nat; 1%nat] |}.
Definition buf5 : IoSliceMut := {| wsa_len := 5; wsa_buf := 100 |}.

Lemma chain_poll_delivers_witness :
  let b := {| sc_data := [x2e]; sc_limits := [] |} in
  let r := chain_poll_read (chain hello b) tt buf5 ∅ in
  r.2 = Ready (Ok 2) ∧
  ∃ bs, incoming hello ++ incoming b = bs ++ chain_incoming r.1.1 ∧ 2 = Z.of_nat (length bs) ∧
    2 ≤ wsa_len buf5 ∧ r.1.2 = mem_write ∅ (wsa_buf buf5) bs ∧
    (2 = 0 → incoming hello = [] ∧ incoming b = []).
Proof.
  intros b r. split; [vm_compute; reflexivity|].
  refine (chain_poll_delivers hello b tt buf5 ∅ r.1.1 r.1.2 (Ready (Ok 2)) _ _).
  - done.
  - vm_compute. reflexivity.
Defined.

Lemma read_exact_is_exact_witness :
  ∃ self' m', exact_await 9 [(); ()] (read_exact hello buf5) ∅ = Some (self', m', Ready (Ok tt)) ∧
    mem_read m' 100 5 = [x68; x65; x6c; x6c; x6f] ∧
    exact_post (incoming hello) 100 5 ∅ self' m' (Ready (Ok tt)).
Proof.
  do 2 eexists. split; [vm_compute; reflexivity|]. split; [vm_compute; reflexivity|].
  apply (read_exact_is_exact 9 [(); ()] hello buf5 ∅); [done | vm_compute; reflexivity].
Defined.

Lemma read_exact_returns_witness :
  ∃ res, exact_await 6 [(); ()] (read_exact hello buf5) ∅ = Some res.
Proof.
  apply (read_exact_returns 6 [(); ()] hello buf5 ∅); [done|done|].
  vm_compute. lia.
Defined.

Lemma read_exact_never_returns_at_end_witness :
  exact_poll 1000 (read_exact {| sc_data := []; sc_limits := [] |} buf5) tt ∅ = None.
Proof.
  apply (read_exact_never_returns_at_end 1000 tt (read_exact {| sc_data := []; sc_limits := [] |} buf5) ∅).
  - done.
  - done.
  - intros buf m. unfold poll_read; simpl. unfold script_poll; simpl.
    by rewrite take_nil, mem_write_nil.
Defined.
