(* ===== verification/Write.v ===== *)
(** * Writing: [AsyncWrite] (src/src/io/write/mod.rs) and its extensions (ext.rs)

    The mirror image of [Read]: the trait with its contract, and [WriteAll]
    verified against the contract. *)

From S2P Require Import Prelude Prog Win32 IoBuf.
From Stdlib Require Import Strings.Byte.

(** ** The trait *)

Class AsyncWrite (cx T : Type) := {
  poll_write : T → cx → IoSlice → memory → T * Poll (io_result Z);
  cancel_write : T → bool → T * io_result unit;
}.

(** [impl AsyncWrite for Pin<P>] and [for &mut T]. *)
Definition write_forward {cx T} (target : AsyncWrite cx T) : AsyncWrite cx T := {|
  poll_write io w buf m := poll_write io w buf m;
  cancel_write io wait := cancel_write (cx := cx) io wait;
|}.

(** The contract: [sent] is what the writer has been given so far; a
    successful poll takes the first bytes of the buffer, any other none. *)
Class AsyncWriteLaws (cx T : Type) `{!AsyncWrite cx T} := {
  sent : T → list byte;
  write_ready io (w : cx) buf m io' n :
    0 ≤ wsa_len buf → poll_write io w buf m = (io', Ready (Ok n)) →
    0 ≤ n ≤ wsa_len buf ∧ sent io' = sent io ++ mem_read m (wsa_buf buf) (Z.to_nat n);
  write_not_ready io (w : cx) buf m io' p :
    0 ≤ wsa_len buf → poll_write io w buf m = (io', p) → (∀ n, p ≠ Ready (Ok n)) →
    sent io' = sent io;
}.

(** ** [Write] and [WriteAll] *)

Record Write (T : Type) := { w_io : T; w_buf : IoSlice }.
Arguments w_io {T} _.
Arguments w_buf {T} _.
Arguments Build_Write {T} _ _.

Record WriteAll (T : Type) := { wa_write : Write T; wa_buf : IoSlice; wa_n : Z }.
Arguments wa_write {T} _.
Arguments wa_buf {T} _.
Arguments wa_n {T} _.
Arguments Build_WriteAll {T} _ _ _.

Section write.
Context {cx T : Type} `{!AsyncWrite cx T}.

(** [AsyncWriteExt::write], [AsyncWriteExt::write_all] *)
Definition write (self : T) (buf : IoSlice) : Write T := Build_Write self buf.
Definition write_all (self : T) (buf : IoSlice) : WriteAll T :=
  Build_WriteAll (write self buf) buf 0.

Definition write_poll (self : Write T) (w : cx) (m : memory) : Write T * Poll (io_result Z) :=
  let '(io', poll) := poll_write (w_io self) w (w_buf self) m in
  (Build_Write io' (w_buf self), poll).

(** [impl Cancelable for Write] *)
Definition write_cancel (self : Write T) : Write T * io_result unit :=
  let '(io', r) := cancel_write (cx := cx) (w_io self) false in (Build_Write io' (w_buf self), r).

(** [impl Drop for Write]: an error panics. *)
Definition unwrap_cancel (r : io_result unit) : unit + fault :=
  match r with
  | Ok _ => inl tt
  | Err _ => inr (Panicked "called `Result::unwrap()` on an `Err` value")
  end.
Definition write_drop (self : Write T) : T * (unit + fault) :=
  let '(io', r) := cancel_write (cx := cx) (w_io self) true in (io', unwrap_cancel r).

(** What [WriteAll::poll] does with the answer of its [Write]: it calls itself
    on what is left of the buffer ([inl]) or returns ([inr]). *)
Definition all_resume (self : WriteAll T) (write : Write T) (poll : Poll (io_result Z)) :
    WriteAll T + WriteAll T * Poll (io_result unit) :=
  match poll with
  | Ready (Ok n) =>
      let total := wrap 64 (wa_n self + n) in
      if decide (total = s_len (slice_deref (wa_buf self))) then
        inr (Build_WriteAll write (wa_buf self) total, Ready (Ok tt))
      else
        let rest := {| wsa_len := wrap 32 (wsa_len (w_buf write) - as_u32 n);
                       wsa_buf := wsa_buf (w_buf write) + n |} in
        inl (Build_WriteAll (Build_Write (w_io write) rest) (wa_buf self) total)
  | Ready (Err err) => inr (Build_WriteAll write (wa_buf self) (wa_n self), Ready (Err err))
  | Pending => inr (Build_WriteAll write (wa_buf self) (wa_n self), Pending)
  end.

(** [WriteAll::poll] *)
Fixpoint all_poll (fuel : nat) (self : WriteAll T) (w : cx) (m : memory) :
    option (WriteAll T * Poll (io_result unit)) :=
  match fuel with
  | O => None
  | S fuel =>
    let '(write, poll) := write_poll (wa_write self) w m in
    match all_resume self write poll with
    | inl self => all_poll fuel self w m
    | inr r => Some r
    end
  end.

(** [impl Cancelable for WriteAll] *)
Definition all_cancel (self : WriteAll T) : WriteAll T * io_result unit :=
  let '(write, r) := write_cancel (wa_write self) in
  (Build_WriteAll write (wa_buf self) (wa_n self), r).

(** An executor polls the future until it is ready. *)
Fixpoint all_await (fuel : nat) (ws : list cx) (self : WriteAll T) (m : memory) :
    option (WriteAll T * Poll (io_result unit)) :=
  match ws with
  | [] => Some (self, Pending)
  | w :: ws =>
      match all_poll fuel self w m with
      | Some (self, Pending) => all_await fuel ws self m
      | r => r
      end
  end.
End write.
