(* ===== verification/WriteThm.v ===== *)
(** * What the writing extensions guarantee *)

From S2P Require Import Prelude Prog Win32 IoBuf Write.
From Stdlib Require Import Strings.Byte.

Section all.
Context {cx T : Type} `{HT : AsyncWriteLaws cx T}.
Implicit Types (self : WriteAll T) (m : memory).

(** A [WriteAll] on [len] bytes at [base] has sent the first [k] of them. *)
Definition written (before : list byte) (base len : Z) m self : Prop :=
  ∃ k : nat, Z.of_nat k ≤ len ∧ wa_n self = Z.of_nat k ∧
    wa_buf self = {| wsa_len := len; wsa_buf := base |} ∧
    w_buf (wa_write self) = {| wsa_len := len - Z.of_nat k; wsa_buf := base + Z.of_nat k |} ∧
    sent (w_io (wa_write self)) = before ++ mem_read m base k.

Definition all_post before base len m self (p : Poll (io_result unit)) : Prop :=
  match p with
  | Ready (Ok _) => sent (w_io (wa_write self)) = before ++ mem_read m base (Z.to_nat len)
  | _ => written before base len m self
  end.

Definition all_advance self (io' : T) (n : Z) : WriteAll T :=
  let buf := w_buf (wa_write self) in
  Build_WriteAll
    (Build_Write io' {| wsa_len := wrap 32 (wsa_len buf - as_u32 n); wsa_buf := wsa_buf buf + n |})
    (wa_buf self) (wrap 64 (wa_n self + n)).

Lemma all_step before base len m (w : cx) self io' n :
  0 ≤ len < 2 ^ 32 → written before base len m self →
  poll_write (w_io (wa_write self)) w (w_buf (wa_write self)) m = (io', Ready (Ok n)) →
  written before base len m (all_advance self io' n) ∧ 0 ≤ n ∧
  wa_n (all_advance self io' n) = wa_n self + n ∧ wa_n self + n ≤ len ∧ 0 ≤ wa_n self.
Proof.
  intros Hlen (k & Hkl & Hn & Hb & Hwb & Hs) Hp.
  assert (0 ≤ wsa_len (w_buf (wa_write self))) as Hrest by (rewrite Hwb; simpl; lia).
  destruct (write_ready _ w _ _ _ n Hrest Hp) as (Hle & Hs').
  rewrite Hwb in Hle, Hs'. simpl in Hle, Hs'.
  unfold all_advance. simpl. rewrite Hwb, Hn. simpl.
  rewrite (wrap_small 32 n), !wrap_small by lia. split_and!; [|lia..].
  exists (k + Z.to_nat n)%nat. simpl. split_and!; [lia|lia|done| |].
  - f_equal; lia.
  - by rewrite Hs', Hs, mem_read_app, app_assoc.
Qed.

Lemma all_step_other before base len m (w : cx) self io' p :
  0 ≤ len → written before base len m self → (∀ n, p ≠ Ready (Ok n)) →
  poll_write (w_io (wa_write self)) w (w_buf (wa_write self)) m = (io', p) →
  written before base len m
    (Build_WriteAll (Build_Write io' (w_buf (wa_write self))) (wa_buf self) (wa_n self)).
Proof.
  intros Hlen (k & Hkl & Hn & Hb & Hwb & Hs) Hne Hp.
  assert (0 ≤ wsa_len (w_buf (wa_write self))) as Hrest by (rewrite Hwb; simpl; lia).
  pose proof (write_not_ready _ w _ _ _ _ Hrest Hp Hne) as Hi.
  exists k. simpl. by rewrite Hi.
Qed.

Lemma all_poll_inv before base len fuel (w : cx) self m self' p :
  0 ≤ len < 2 ^ 32 → written before base len m self →
  all_poll fuel self w m = Some (self', p) → all_post before base len m self' p.
Proof.
  intros Hlen. revert self. induction fuel as [|fuel IH]; intros self; [done|].
  intros Hinv. simpl. unfold write_poll, all_resume.
  destruct (poll_write (w_io (wa_write self)) w (w_buf (wa_write self)) m) as [io' [[n|e]|]] eqn:Hp; simpl.
  - destruct (all_step _ _ _ _ _ _ _ _ Hlen Hinv Hp) as (Hinv' & _).
    case_decide as Hd; [|by apply IH]. intros; simplify_eq/=.
    destruct Hinv' as (k & Hkl & Hn & Hb & _ & Hs). simpl in *.
    assert (len = Z.of_nat k) as ->.
    { rewrite <- Hn, Hd, Hb. done. }
    by rewrite Nat2Z.id.
  - intros; simplify_eq/=. by eapply all_step_other; [|exact Hinv| |exact Hp]; [lia|].
  - intros; simplify_eq/=. by eapply all_step_other; [|exact Hinv| |exact Hp]; [lia|].
Qed.

Lemma all_await_inv before base len fuel ws self m self' p :
  0 ≤ len < 2 ^ 32 → written before base len m self →
  all_await fuel ws self m = Some (self', p) → all_post before base len m self' p.
Proof.
  intros Hlen. revert self. induction ws as [|w ws IH]; intros self Hinv Hex; simplify_eq/=; [done|].
  destruct (all_poll fuel self w m) as [[self1 p1]|] eqn:Hp; [|done].
  pose proof (all_poll_inv _ _ _ _ _ _ _ _ _ Hlen Hinv Hp) as Hpost.
  destruct p1 as [[u|e]|]; simplify_eq/=; [done..|]. by eapply IH.
Qed.

Lemma write_all_written (r : T) buf m :
  0 ≤ wsa_len buf → written (sent r) (wsa_buf buf) (wsa_len buf) m (write_all r buf).
Proof.
  intros Hlen. exists 0%nat. unfold write_all, write; simpl. rewrite app_nil_r.
  destruct buf as [len base]. split_and!; try lia; [done|simpl; f_equal; lia|done].
Qed.

(** [write_all] writes all: when the future completes successfully, after
    any number of polls and however few bytes each of them took, the writer
    has been given exactly the bytes of the buffer, in order and once; until
    then it has been given a prefix, and the rest of the buffer is what is
    left. *)
Theorem write_all_is_exact fuel ws (r : T) buf m self' p :
  0 ≤ wsa_len buf < 2 ^ 32 →
  all_await fuel ws (write_all r buf) m = Some (self', p) →
  all_post (sent r) (wsa_buf buf) (wsa_len buf) m self' p.
Proof.
  intros Hlen Hex. eapply all_await_inv; [done| |exact Hex]. apply write_all_written. lia.
Qed.

(** A writer that takes at least a byte of a nonempty buffer when it takes any. *)
Definition eager : Prop :=
  ∀ (r : T) (w : cx) buf m r', 0 < wsa_len buf → poll_write r w buf m ≠ (r', Ready (Ok 0)).

Lemma all_poll_returns before base len fuel (w : cx) self m :
  eager → 0 ≤ len < 2 ^ 32 → written before base len m self →
  (Z.to_nat (len - wa_n self) < fuel)%nat → ∃ r, all_poll fuel self w m = Some r.
Proof.
  intros He Hlen. revert self. induction fuel as [|fuel IH]; intros self Hinv Hfuel; [lia|].
  simpl. unfold write_poll, all_resume.
  destruct (poll_write (w_io (wa_write self)) w (w_buf (wa_write self)) m) as [io' [[n|e]|]] eqn:Hp;
    simpl; [|eauto..].
  destruct (all_step _ _ _ _ _ _ _ _ Hlen Hinv Hp) as (Hinv' & Hn0 & Hn & Hnl & Hself).
  case_decide as Hd; [eauto|]. apply (IH (all_advance self io' n) Hinv'). rewrite Hn.
  destruct Hinv as (k & Hkl & Hk & Hb & Hwb & _). rewrite Hb in Hd. simpl in Hd, Hn. rewrite Hn in Hd.
  assert (n ≠ 0) as Hnz; [|lia]. intros ->.
  eapply He; [|exact Hp]. rewrite Hwb. simpl. lia.
Qed.

(** With such a writer no poll of [write_all] recurses more than [len]
    times. *)
Theorem write_all_returns fuel ws (r : T) buf m :
  eager → 0 ≤ wsa_len buf < 2 ^ 32 → (Z.to_nat (wsa_len buf) < fuel)%nat →
  ∃ res, all_await fuel ws (write_all r buf) m = Some res.
Proof.
  intros He Hlen Hfuel.
  pose proof (write_all_written r buf m (proj1 Hlen)) as Hinv.
  revert Hinv. generalize (write_all r buf).
  induction ws as [|w ws IH]; intros self Hinv; simpl; [eauto|].
  assert (0 ≤ wa_n self) as Hn by (destruct Hinv as (k & _ & -> & _); lia).
  destruct (all_poll_returns _ _ _ fuel w self m He Hlen Hinv ltac:(lia)) as [[self' p] Hp].
  rewrite Hp. pose proof (all_poll_inv _ _ _ _ _ _ _ _ _ Hlen Hinv Hp) as Hpost.
  destruct p as [[]|]; [eauto..|]. by apply IH.
Qed.

(** A writer that takes nothing is polled for ever inside one poll. *)
Theorem write_all_never_returns_on_zero fuel (w : cx) self m :
  0 ≤ wa_n self < wsa_len (wa_buf self) → wsa_len (wa_buf self) < 2 ^ 32 →
  (∀ buf, poll_write (w_io (wa_write self)) w buf m = (w_io (wa_write self), Ready (Ok 0))) →
  all_poll fuel self w m = None.
Proof.
  revert self. induction fuel as [|fuel IH]; intros self Hn Hb Hend; [done|].
  simpl. unfold write_poll, all_resume. rewrite Hend. simpl. rewrite wrap_small by lia.
  rewrite decide_False by lia. apply IH; simpl; [lia|done|done].
Qed.
End all.

(** ** A concrete writer *)

(** It keeps what it is given, at most [limit] bytes per poll. *)
Record sink := { sk_data : list byte; sk_limit : nat }.

Definition sink_poll (r : sink) (w : unit) (buf : IoSlice) (m : memory) : sink * Poll (io_result Z) :=
  let n := Nat.min (sk_limit r) (Z.to_nat (wsa_len buf)) in
  ({| sk_data := sk_data r ++ mem_read m (wsa_buf buf) n; sk_limit := sk_limit r |},
   Ready (Ok (Z.of_nat n))).

#[export] Instance sink_write : AsyncWrite unit sink := {
  poll_write := sink_poll;
  cancel_write r wait := (r, Err (OsError ERROR_NOT_FOUND));
}.

Lemma sink_ready (r : sink) (w : unit) buf m r' n :
  0 ≤ wsa_len buf → sink_poll r w buf m = (r', Ready (Ok n)) →
  0 ≤ n ≤ wsa_len buf ∧ sk_data r' = sk_data r ++ mem_read m (wsa_buf buf) (Z.to_nat n).
Proof.
  intros Hlen Heq. injection Heq as <- <-. split; [lia|]. simpl. by rewrite Nat2Z.id.
Qed.

Lemma sink_not_ready (r : sink) (w : unit) buf m r' p :
  0 ≤ wsa_len buf → sink_poll r w buf m = (r', p) → (∀ n, p ≠ Ready (Ok n)) → sk_data r' = sk_data r.
Proof. intros _ Heq Hne. injection Heq as <- <-. by destruct (Hne _ eq_refl). Qed.

#[export] Instance sink_laws : AsyncWriteLaws unit sink := {
  sent := sk_data;
  write_ready := sink_ready;
  write_not_ready := sink_not_ready;
}.

(** *** Instances of the theorems *)

Definition mem5 : memory := mem_write ∅ 100 [x68; x65; x6c; x6c; x6f].
Definition out5 : IoSlice := {| wsa_len := 5; wsa_buf := 100 |}.
Definition sink2 : sink := {| sk_data := [x3e]; sk_limit := 2 |}.

Lemma write_all_is_exact_witness :
  ∃ self', all_await 9 [()] (write_all sink2 out5) mem5 = Some (self', Ready (Ok tt)) ∧
    sk_data (w_io (wa_write self')) = [x3e; x68; x65; x6c; x6c; x6f] ∧
    all_post (sent sink2) 100 5 mem5 self' (Ready (Ok tt)).
Proof.
  eexists. split; [vm_compute; reflexivity|]. split; [reflexivity|].
  apply (write_all_is_exact 9 [()] sink2 out5 mem5); [done | vm_compute; reflexivity].
Defined.

(** The writer that takes everything is eager. *)
Record all_sink := { as_data : list byte }.

#[export] Instance all_sink_write : AsyncWrite unit all_sink := {
  poll_write r _ buf m :=
    ({| as_data := as_data r ++ mem_read m (wsa_buf buf) (Z.to_nat (wsa_len buf)) |},
     Ready (Ok (Z.max 0 (wsa_len buf))));
  cancel_write r wait := (r, Ok tt);
}.

#[export] Program Instance all_sink_laws : AsyncWriteLaws unit all_sink := { sent := as_data }.
Next Obligation. intros r w buf m r' n Hlen Heq. injection Heq as <- <-. split; [lia|]. by rewrite Z.max_r. Qed.
Next Obligation. intros r w buf m r' p Hlen Heq Hne. injection Heq as <- <-. by destruct (Hne _ eq_refl). Qed.

Lemma write_all_returns_witness :
  ∃ res, all_await 6 [()] (write_all {| as_data := [] |} out5) mem5 = Some res.
Proof.
  apply (write_all_returns 6 [()] {| as_data := [] |} out5 mem5).
  - intros r w buf m r' Hlen Heq. injection Heq as _ Hn. lia.
  - done.
  - vm_compute. lia.
Defined.

Lemma write_all_never_returns_on_zero_witness :
  all_poll 1000 (write_all {| sk_data := []; sk_limit := 0 |} out5) tt mem5 = None.
Proof.
  apply (write_all_never_returns_on_zero 1000 tt (write_all {| sk_data := []; sk_limit := 0 |} out5) mem5).
  - done.
  - done.
  - intros buf. reflexivity.
Defined.
