(* ===== verification/Transfer.v ===== *)
(** * Data transfers: [ReadExact] and [WriteAll] over a [TcpStream]

    [Read] and [Write] verify the extensions against the contract of the
    traits.  This file puts them on top of a half of an [IoHandle], where the
    bytes move behind the client's back: the system works on the buffer from
    the call of [WSARecv] or [WSASend] to the completion, whatever the future
    that lent the buffer does in between.  Both directions are one system,
    over an interface of what the system moves and an interface of the future
    that asks for it. *)

From S2P Require Import Prelude Prog Extern Win32 Socket.
From S2P Require Import IoState IoCells IoHandle IoHandleSys.
From S2P Require Import IoBuf Read Write.
From Stdlib Require Import Strings.Byte.

(** ** What the system moves *)

(** [transfer d buf n]: a completed operation has moved [n] bytes of [buf];
    [None] when it cannot.  [outside a bs d]: the rest of the program has
    written [bs] at [a]. *)
Class Device (D : Type) := {
  transfer : D → WSABUF → Z → option D;
  outside : Z → list byte → D → D;
}.

(** [n] bytes at [a] are not of the buffer. *)
Definition apart (buf : WSABUF) (a : Z) (n : nat) : bool :=
  bool_decide (a + Z.of_nat n ≤ wsa_buf buf) || bool_decide (wsa_buf buf + wsa_len buf ≤ a).

(** What is left of a buffer after [n] bytes. *)
Definition remaining (buf : WSABUF) (n : Z) : WSABUF :=
  {| wsa_len := wsa_len buf - n; wsa_buf := wsa_buf buf + n |}.

Lemma apart_spec buf a n :
  apart buf a n = true ↔ a + Z.of_nat n ≤ wsa_buf buf ∨ wsa_buf buf + wsa_len buf ≤ a.
Proof. unfold apart. by rewrite orb_true_iff, !bool_decide_eq_true. Qed.

(** No operation moves more than its buffer holds, two transfers in a row
    are one, and what is written elsewhere does not matter to one. *)
Class DeviceLaws (D : Type) `{!Device D} := {
  transfer_bound (d d' : D) buf n : transfer d buf n = Some d' → 0 ≤ n ≤ wsa_len buf;
  transfer_none (d : D) buf : 0 ≤ wsa_len buf → transfer d buf 0 = Some d;
  transfer_more (d d1 d2 : D) buf a b :
    transfer d buf a = Some d1 → transfer d1 (remaining buf a) b = Some d2 → transfer d buf (a + b) = Some d2;
  transfer_outside (d d' : D) buf n a bs :
    apart buf a (length bs) = true → transfer d buf n = Some d' →
    transfer (outside a bs d) buf n = Some (outside a bs d');
}.

(** Receiving: the memory, and the bytes the peer sends that were not
    received yet. *)
Record inbox := { in_memory : memory; in_bytes : list byte }.

Definition receive (d : inbox) (buf : WSABUF) (n : Z) : option inbox :=
  if decide (0 ≤ n ≤ wsa_len buf ∧ n ≤ Z.of_nat (length (in_bytes d))) then
    Some {| in_memory := mem_write (in_memory d) (wsa_buf buf) (take (Z.to_nat n) (in_bytes d));
            in_bytes := skipn (Z.to_nat n) (in_bytes d) |}
  else None.

#[export] Instance inbox_device : Device inbox := {
  transfer := receive;
  outside a bs d := {| in_memory := mem_write (in_memory d) a bs; in_bytes := in_bytes d |};
}.

(** Sending: the memory, and the bytes the peer has been sent. *)
Record outbox := { out_memory : memory; out_bytes : list byte }.

Definition send (d : outbox) (buf : WSABUF) (n : Z) : option outbox :=
  if decide (0 ≤ n ≤ wsa_len buf) then
    Some {| out_memory := out_memory d;
            out_bytes := out_bytes d ++ mem_read (out_memory d) (wsa_buf buf) (Z.to_nat n) |}
  else None.

#[export] Instance outbox_device : Device outbox := {
  transfer := send;
  outside a bs d := {| out_memory := mem_write (out_memory d) a bs; out_bytes := out_bytes d |};
}.

(** ** The future that asks for it *)

(** [resume] is the rest of [poll] after the poll of the half: [inl] polls the
    half again; [dropped] is what the drop does with the outcome of the
    cancellation. *)
Class IoFuture (F : Type) := {
  made_with : WSABUF → F;
  polls_with : F → WSABUF;
  resume : F → Poll (io_result Z) → F + F * Poll (io_result unit);
  dropped : io_result unit → unit + fault;
}.

Definition read_exact_future {T} (io : T) : IoFuture (ReadExact T) := {|
  made_with := read_exact io;
  polls_with f := read_buf (re_read f);
  resume f := exact_resume f (re_read f);
  dropped _ := inl tt;
|}.

Definition write_all_future {T} (io : T) : IoFuture (WriteAll T) := {|
  made_with := write_all io;
  polls_with f := w_buf (wa_write f);
  resume f := all_resume f (wa_write f);
  dropped := unwrap_cancel;
|}.

(** [progress buf n f]: the future was made with [buf] and has been told of
    [n] bytes. *)
Class IoFutureLaws (F : Type) `{!IoFuture F} := {
  progress : WSABUF → Z → F → Prop;
  progress_made buf : 0 ≤ wsa_len buf < 2 ^ 32 → progress buf 0 (made_with buf);
  progress_rest buf n f : progress buf n f → 0 ≤ n ≤ wsa_len buf ∧ polls_with f = remaining buf n;
  resume_ok buf n f k :
    progress buf n f → 0 ≤ k ≤ wsa_len (remaining buf n) →
    match resume f (Ready (Ok k)) with
    | inl f' => progress buf (n + k) f'
    | inr (f', p) => p = Ready (Ok tt) ∧ n + k = wsa_len buf
    end;
  resume_err f e : resume f (Ready (Err e)) = inr (f, Ready (Err e));
  resume_pending f : resume f Pending = inr (f, Pending);
  dropped_ok : dropped (F := F) (Ok tt) = inl tt;
}.

(** ** The system *)

(** Where the future is. *)
Inductive holder (F : Type) :=
| Gone                                    (* no future borrows the stream *)
| Held (f : F)                            (* it waits for its next poll *)
| Polling (f : F)                         (* it is being polled *)
| Finished (f : F) (r : io_result unit)   (* it has returned [Ready r] *)
| Dropping (f : F)                        (* its drop cancels *)
| Panicking (e : fault).                  (* its drop has panicked *)
Arguments Gone {F}.
Arguments Held {F} _.
Arguments Polling {F} _.
Arguments Finished {F} _ _.
Arguments Dropping {F} _.
Arguments Panicking {F} _.

Record tconfig (W waker D F : Type) := {
  t_half : config W waker;
  t_device : D;
  t_target : WSABUF;           (* the buffer of the operation in flight *)
  t_future : holder F;
  t_origin : WSABUF * D;       (* what the last future was made with, and on, with
                                  what the rest of the program has written since *)
  t_abandoned : bool;          (* a future was dropped before it had finished *)
}.
Arguments t_half {W waker D F} _.
Arguments t_device {W waker D F} _.
Arguments t_target {W waker D F} _.
Arguments t_future {W waker D F} _.
Arguments t_origin {W waker D F} _.
Arguments t_abandoned {W waker D F} _.
Arguments Build_tconfig {W waker D F} _ _ _ _ _ _.

Inductive tlabel (waker : Type) :=
| TNew (buf : WSABUF)         (* a future is made; [len] is a [ULONG] *)
| TPoll (w : waker)           (* and polled *)
| TSystem (l : label waker)   (* the half, the system and the callbacks move *)
| TReturn                     (* the operation of the half returns to the future *)
| TDrop                       (* the future is dropped *)
| TOther (a : Z) (bs : list byte).   (* the rest of the program writes *)
Arguments TNew {waker} _.
Arguments TPoll {waker} _.
Arguments TSystem {waker} _.
Arguments TReturn {waker}.
Arguments TDrop {waker}.
Arguments TOther {waker} _ _.

Inductive clabel (waker : Type) :=
| CTransfer (l : tlabel waker)
| CCancel                     (* its owner cancels the future *)
| CCancelled.                 (* and the call returns *)
Arguments CTransfer {waker} _.
Arguments CCancel {waker}.
Arguments CCancelled {waker}.

(** The polls and the drop of the future never cancel without waiting. *)
Definition waits {waker} (op : client_op waker) : bool :=
  match op with OpCancel false => false | _ => true end.

Section system.
Context {W waker D F : Type} `{!AtomicWaker W waker} `{!Device D} `{!IoFuture F}.
Context (posts : bool) (handle ptp_io ov : Z) (hid : half_id).
Abbreviation tconfig := (tconfig W waker D F).
Abbreviation step := (half_step posts (waits (waker := waker)) handle ptp_io ov hid).

(** The buffer of the call the client is about to make. *)
Definition buffer_of (a : option (hact waker)) : option WSABUF :=
  match a with
  | Some (HSys (WSARecv _ buf _)) | Some (HSys (WSASend _ buf _)) => Some buf
  | _ => None
  end.
Definition called (c : config W waker) : option WSABUF := buffer_of (client_next c).

(** What a move of the half does to the data: an operation that completes at
    once moves its bytes at once, one that is pending when it completes, and
    one that fails moves none.  [call] is the buffer of the call the client is
    about to make. *)
Definition moves_data (l : label waker) (call : option WSABUF) (d : D) (target : WSABUF) : option (D * WSABUF) :=
  match l, call with
  | LClient (AStart (StartDone n)), Some buf => d' ← transfer d buf n; Some (d', target)
  | LClient (AStart StartPending), Some buf => Some (d, buf)
  | LComplete e n, _ => if decide (e = 0) then d' ← transfer d target n; Some (d', target) else Some (d, target)
  | _, _ => Some (d, target)
  end.
Definition moves (l : label waker) (c : config W waker) : D → WSABUF → option (D * WSABUF) := moves_data l (called c).

(** The future polls the half. *)
Definition poll_half (w : waker) (f : F) (c : tconfig) : option tconfig :=
  h ← step (LBegin (OpPoll w (polls_with f))) (t_half c);
  Some (Build_tconfig h (t_device c) (t_target c) (Polling f) (t_origin c) (t_abandoned c)).

Definition with_future (c : tconfig) (h : config W waker) (f : holder F) : tconfig :=
  Build_tconfig h (t_device c) (t_target c) f (t_origin c) (t_abandoned c).

(** The buffer is borrowed from the making of a future to the end of its drop. *)
Definition borrowed (f : holder F) : bool := match f with Gone => false | _ => true end.

Definition transfer_step (l : tlabel waker) (c : tconfig) : option tconfig :=
  match l with
  | TNew buf =>
      match t_future c with
      | Gone =>
          if decide (0 ≤ wsa_len buf < 2 ^ 32) then
            Some (Build_tconfig (t_half c) (t_device c) (t_target c) (Held (made_with buf))
                    (buf, t_device c) (t_abandoned c))
          else None
      | _ => None
      end
  | TPoll w => match t_future c with Held f => poll_half w f c | _ => None end
  | TSystem l =>
      if internal l then
        '(d, target) ← moves l (t_half c) (t_device c) (t_target c);
        h ← step l (t_half c);
        Some (Build_tconfig h d target (t_future c) (t_origin c) (t_abandoned c))
      else None
  | TReturn =>
      match t_future c, who (t_half c) with
      | Polling f, Running (OpPoll w _) (Ret (RPoll p)) =>
          h ← step LReturn (t_half c);
          match resume f p with
          | inl f => poll_half w f (with_future c h (Polling f))
          | inr (f, Ready r) => Some (with_future c h (Finished f r))
          | inr (f, Pending) => Some (with_future c h (Held f))
          end
      | Dropping f, Running (OpCancel _) (Ret (RCancel r)) =>
          h ← step LReturn (t_half c);
          Some (with_future c h (match dropped r with inl _ => Gone | inr e => Panicking e end))
      | _, _ => None
      end
  | TDrop =>
      let drop f abandoned :=
        h ← step (LBegin (OpCancel true)) (t_half c);
        Some (Build_tconfig h (t_device c) (t_target c) (Dropping f) (t_origin c) abandoned) in
      match t_future c with
      | Held f => drop f true
      | Finished f _ => drop f (t_abandoned c)
      | _ => None
      end
  | TOther a bs =>
      if implb (borrowed (t_future c)) (apart (t_origin c).1 a (length bs)) then
        Some (Build_tconfig (t_half c) (outside a bs (t_device c)) (t_target c) (t_future c)
                ((t_origin c).1, outside a bs (t_origin c).2) (t_abandoned c))
      else None
  end.

(** A stream no future has used yet. *)
Definition tstart (d : D) : tconfig :=
  Build_tconfig start d {| wsa_len := 0; wsa_buf := 0 |} Gone ({| wsa_len := 0; wsa_buf := 0 |}, d) false.

#[export] Instance transfer_lts (d : D) : LTS (tlabel waker) tconfig := { linit := tstart d; lstep := transfer_step }.

Definition transfer_exec (d : D) (ls : list (tlabel waker)) : option tconfig :=
  exec (H := transfer_lts d) ls (tstart d).

(** *** Cancelling a future

    Between two polls the owner of the future may call [Cancelable::cancel],
    which cancels without waiting ([cancel_read(false)], [cancel_write(false)]);
    the call ends before the future is polled again or dropped. *)

Definition at_hand (f : holder F) : bool := match f with Held _ | Finished _ _ => true | _ => false end.

Definition cancelable_step (l : clabel waker) (c : tconfig) : option tconfig :=
  match l with
  | CTransfer l => transfer_step l c
  | CCancel =>
      if at_hand (t_future c) then
        h ← half_step posts (λ _, true) handle ptp_io ov hid (LBegin (OpCancel false)) (t_half c);
        Some (with_future c h (t_future c))
      else None
  | CCancelled =>
      match at_hand (t_future c), who (t_half c) with
      | true, Running (OpCancel _) (Ret (RCancel r)) =>
          h ← step LReturn (t_half c);
          Some (with_future c h (t_future c))
      | _, _ => None
      end
  end.

#[export] Instance cancelable_lts (d : D) : LTS (clabel waker) tconfig := { linit := tstart d; lstep := cancelable_step }.

Definition cancelable_exec (d : D) (ls : list (clabel waker)) : option tconfig :=
  exec (H := cancelable_lts d) ls (tstart d).
End system.
