(* ===== verification/TransferThm.v ===== *)
(** * What a transfer over a [TcpStream] guarantees *)

From S2P Require Import Prelude Prog Extern Win32 Socket.
From S2P Require Import IoState IoCells IoHandle IoHandleSys IoHandleInv IoHandleSafe IoHandleThm.
From S2P Require Import HandleDrop IoBuf Read Write Transfer.
From Stdlib Require Import Strings.Byte.

(** ** The data and the half *)

Section effect.
Context {W waker D : Type} `{!AtomicWaker W waker} `{!Device D}.
Context (handle ptp_io ov : Z) (hid : half_id).
Abbreviation cden := (cden (waker := waker) handle ptp_io ov hid).
Abbreviation kden := (kden (waker := waker)).
Implicit Types (c : config W waker) (d : D) (ph : cphase waker).

(** The buffer a running poll will hand to the system, or may. *)
Definition to_call ph : option WSABUF :=
  match ph with
  | PStart _ buf | PSchedule _ buf | PStartIo _ buf | PCall _ buf => Some buf
  | _ => None
  end.

(** An operation on [buf] had the outcome [r]. *)
Definition done_with d (buf : WSABUF) (r : io_result Z) d' : Prop :=
  match r with Ok n => transfer d buf n = Some d' | Err _ => d' = d end.

(** What a step does to the data, and the outcomes it adds. *)
Inductive effect ph c c' d (target : WSABUF) : D → WSABUF → list (io_result Z) → Prop :=
| effect_none :
    in_flight (kn c') = in_flight (kn c) → effect ph c c' d target d target []
| effect_start w buf :
    ph = PCall w buf → effect ph c c' d target d buf []
| effect_now w buf r d' :
    ph = PCall w buf → in_flight (kn c') = in_flight (kn c) → done_with d buf r d' →
    effect ph c c' d target d' target [r]
| effect_complete r d' :
    in_flight (kn c) ≠ 0%nat → (in_flight (kn c') < in_flight (kn c))%nat → done_with d target r d' →
    effect ph c c' d target d' target [r].

Lemma called_cden op ph c :
  who c = Running op (cden ph) →
  called c = match ph with PCall _ buf => Some buf | _ => None end.
Proof.
  intros Hw. unfold called, buffer_of, client_next. rewrite Hw.
  destruct ph, hid; try done; by destruct wait.
Qed.

Lemma client_effect op ph a c ph' s' d target d' target' :
  who c = Running op (cden ph) → cnext false ph a (cl c, kn c) = Some (ph', s') →
  moves (LClient a) c d target = Some (d', target') →
  ∃ new, outcomes s'.2 = outcomes (kn c) ++ new ∧
    effect ph c (Build_config s'.1 s'.2 (Running op (cden ph')) (callbacks c) (history c))
      d target d' target' new.
Proof.
  intros Hw Hn Hm. unfold moves, moves_data in Hm. rewrite (called_cden op ph c Hw) in Hm.
  destruct c as [c k w cbs h], s' as [c' k']; simpl in *.
  destruct (starts ph) eqn:Hs.
  - destruct ph; try done. destruct a as [|[n| |e]]; simplify_eq/=.
    + destruct (transfer d buf n) as [d1|] eqn:Ht; simplify_eq/=.
      exists [Ok n]. split; [done|]. by eapply (effect_now _ _ _ _ _ _ _ (Ok n)).
    + exists []. split; [by rewrite app_nil_r|]. by eapply effect_start.
    + case_decide; simplify_eq/=. exists [Err (OsError e)]. split; [done|].
      by eapply (effect_now _ _ _ _ _ _ _ (Err (OsError e))).
  - destruct (cnext_kernel _ _ _ _ _ _ _ Hs Hn) as (Hf & _ & Ho & _).
    assert (d' = d ∧ target' = target) as [-> ->] by (by destruct ph, a as [|[]]; simplify_eq/=).
    exists []. split; [by rewrite app_nil_r|]. by apply effect_none.
Qed.

Lemma cnext_to_call ph a (s s' : cells W waker * kernel) ph' b :
  cnext false ph a s = Some (ph', s') → to_call ph' = Some b → to_call ph = Some b.
Proof.
  intros Hn Hb. destruct s as [c k], ph, ph'; simplify_eq/=; try done; unfold query, start_op in *;
    repeat (case_match; simplify_eq/=); done.
Qed.

Lemma others_effect l ph ks c c' d target d' target' :
  others l = true → callbacks c = kden <$> ks → half_step false waits handle ptp_io ov hid l c = Some c' →
  moves l c d target = Some (d', target') →
  ∃ new, outcomes (kn c') = outcomes (kn c) ++ new ∧ effect ph c c' d target d' target' new.
Proof.
  intros Hl Hks Hstep Hm. destruct l as [op|a| |e t| |i|i]; try done; simpl in Hstep.
  - destruct (complete_op e t (kn c)) as [k'|] eqn:Hk; [|done]. injection Hstep as <-.
    unfold complete_op in Hk. destruct (in_flight (kn c)) as [|n] eqn:Hf; simplify_eq/=.
    exists [completion e t]. split; [done|]. unfold completion in *. case_decide.
    + destruct (transfer d target t) as [d1|] eqn:Ht; simplify_eq/=.
      apply effect_complete; [congruence|simpl; lia|done].
    + simplify_eq/=. apply effect_complete; [congruence|simpl; lia|done].
  - destruct (packets (kn c)) as [|[e t] ps]; simplify_eq/=.
    exists []. rewrite app_nil_r. split; [done|by apply effect_none].
  - rewrite Hks, list_lookup_fmap in Hstep. destruct (ks !! i) as [kph|]; [|done].
    simpl in Hstep. rewrite kstep_next in Hstep.
    destruct (knext kph (cl c, kn c)) as [[kph' [c1 k1]]|] eqn:Hn; simplify_eq/=.
    rewrite (knext_kernel _ _ _ _ _ _ Hn). exists []. rewrite app_nil_r. split; [done|by apply effect_none].
  - destruct (callbacks c !! i) as [[[]| | |]|]; simplify_eq/=.
    exists []. rewrite app_nil_r. split; [done|by apply effect_none].
Qed.

(** A move of the half, with what it does to the data. *)
Lemma half_effect l c c' ph ks u d target d' target' :
  internal l = true → half_step false waits handle ptp_io ov hid l c = Some c' →
  moves l c d target = Some (d', target') → at_counters true handle ptp_io ov hid ph ks u c →
  c_state (cl c') ≠ CANCELLED_WAIT →
  ∃ ph' ks' new, at_counters true handle ptp_io ov hid ph' ks' (u ++ new) c' ∧
    effect ph c c' d target d' target' new ∧ history c' = history c ∧
    ((ph' = ph ∧ who c' = who c) ∨
     ∃ a op, who c = Running op (cden ph) ∧ who c' = Running op (cden ph') ∧
       cnext false ph a (cl c, kn c) = Some (ph', (cl c', kn c'))).
Proof.
  intros Hl Hstep Hm Hat Hcw.
  destruct (internal_counters true waits handle ptp_io ov hid l c c' ph ks u) as
    (ph' & ks' & new & Hat' & Ho & Hh & Hp); [done..| |exact Hstep|].
  { intros _. unfold unwaited. by apply bool_decide_eq_true. }
  exists ph', ks', new. split; [done|]. split; [|split; [done|]].
  - destruct Hp as [(Hol & -> & Hw)|(a & op & -> & Hw & _ & Hn)].
    + destruct (others_effect l ph ks c c' d target d' target' Hol (proj1 Hat) Hstep Hm) as (new' & Ho' & He).
      rewrite Ho in Ho'. by apply app_inv_head in Ho' as ->.
    + destruct (client_effect op ph a c ph' (cl c', kn c') d target d' target' Hw Hn Hm) as (new' & Ho' & He).
      simpl in Ho'. rewrite Ho in Ho'. apply app_inv_head in Ho' as ->. destruct He; by econstructor.
  - destruct Hp as [(_ & ? & ?)|(a & op & _ & ?)]; [by left|right; eauto].
Qed.
End effect.

(** ** The invariant *)

Section invariant.
Context {W waker D F : Type} `{!AtomicWaker W waker} `{HD : DeviceLaws D} `{HF : IoFutureLaws F}.
Context (handle ptp_io ov : Z) (hid : half_id).
Abbreviation cden := (cden (waker := waker) handle ptp_io ov hid).
Abbreviation at_counters := (at_counters true handle ptp_io ov hid).
Abbreviation step := (half_step false waits handle ptp_io ov hid).
Abbreviation tconfig := (tconfig W waker D F).
Implicit Types (c : config W waker) (t : tconfig) (ph : cphase waker).

(** *** The half *)

(** The client is in a poll. *)
Definition polling ph : bool :=
  match ph with
  | CStart _ | CSwap _ | CMayBlock _ | CCancelIo _ | CError _ | CQuery _ | CLoop _ _ | CBusy _ | CDone _ => false
  | _ => true
  end.

Lemma polling_next ph a (s s' : cells W waker * kernel) ph' :
  polling ph = true → cnext false ph a s = Some (ph', s') → c_state s.1 ≠ CANCELLED_WAIT →
  polling ph' = true ∧ c_state s'.1 ≠ CANCELLED_WAIT.
Proof.
  intros Hp Hn Hs. destruct s as [[st res aw wk] k], ph; simpl in *; unfold query, start_op in *;
    repeat (first [ progress simplify_eq/= | case_decide | case_match ]); done.
Qed.

Lemma others_unwaited l ph ks u c c' :
  others l = true → at_counters ph ks u c → step l c = Some c' → c_state (cl c') ≠ CANCELLED_WAIT.
Proof.
  intros Hl (Hks & _ & s & _ & _ & Hint) Hstep. destruct (Hint eq_refl) as (_ & Hcw & _).
  destruct l as [op|a| |e t| |i|i]; try done; simpl in Hstep.
  - destruct (complete_op e t (kn c)); by simplify_eq/=.
  - destruct (packets (kn c)) as [|[]]; by simplify_eq/=.
  - rewrite Hks, list_lookup_fmap in Hstep. destruct (ks !! i) as [kph|]; [|done].
    simpl in Hstep. rewrite kstep_next in Hstep.
    destruct c as [[st res aw wk] k w cbs h], kph; simpl in *; repeat case_decide; by simplify_eq/=.
  - destruct (callbacks c !! i) as [[[]| | |]|]; by simplify_eq/=.
Qed.

(** While an operation is in flight nothing is owed. *)
Lemma flight_owes ph ks u c : at_counters ph ks u c → in_flight (kn c) ≠ 0%nat → u = [].
Proof.
  intros (_ & _ & s & Hok & Hsh & Hint) Hf. destruct (Hint eq_refl) as (_ & _ & Hu).
  destruct s; simpl in Hok; destruct Hok as (Hf' & _); [done| |done..]. simpl in Hu.
  destruct ph; simpl in *; try done; repeat (case_match; simplify_eq/=); try done.
Qed.

(** Nothing is outstanding: the system and the callbacks leave the half alone. *)
Definition spent (u : list (io_result Z)) c : Prop := u = [] ∧ c_state (cl c) = IDLE.

Lemma spent_stage ph ks u c :
  at_counters ph ks u c → spent u c → ph = PDone Pending ∨ ph = CStart true ∨ ph = CDone (Ok tt) →
  stage_ok (kn c) ks SNone.
Proof.
  intros (_ & _ & s & Hok & Hsh & _) [_ Hst] Hph. rewrite Hst in Hsh.
  destruct s; [done|..]; by destruct Hph as [->|[->| ->]].
Qed.

Lemma spent_others l ks c c' :
  others l = true → callbacks c = kden <$> ks → stage_ok (kn c) ks SNone → step l c = Some c' →
  c_state (cl c') = c_state (cl c) ∧ outcomes (kn c') = outcomes (kn c).
Proof.
  intros Hl Hks (Hf & Hp & Hlv) Hstep. destruct l as [op|a| |e t| |i|i]; try done; simpl in Hstep.
  - unfold complete_op in Hstep. by rewrite Hf in Hstep.
  - by rewrite Hp in Hstep.
  - rewrite Hks, list_lookup_fmap in Hstep. destruct (ks !! i) as [kph|] eqn:Hi; [|done].
    simpl in Hstep. rewrite kstep_next in Hstep.
    assert (live kph = false) as Hkl.
    { destruct (live kph) eqn:Hkl; [|done]. pose proof (lives_lookup ks i kph Hi Hkl) as Hin.
      rewrite Hlv in Hin. by apply not_elem_of_nil in Hin. }
    destruct c, kph; by simplify_eq/=.
  - destruct (callbacks c !! i) as [[[]| | |]|]; by simplify_eq/=.
Qed.

(** *** The data *)

(** The bytes of the outcomes that were not delivered. *)
Definition owed (u : list (io_result Z)) : Z :=
  foldr (λ r n, match r with Ok k => k | Err _ => 0 end + n) 0 u.

(** [n] bytes were moved for the future. *)
Definition moved t (n : Z) : Prop :=
  transfer (t_origin t).2 (t_origin t).1 n = Some (t_device t).

(** A live future has been told of all the bytes that were moved but the ones
    the half owes, and the system works on what is left of its buffer. *)
Definition lent (f : F) ph u t : Prop :=
  ∃ n, progress (t_origin t).1 n f ∧ 0 ≤ owed u ∧ moved t (n + owed u) ∧
    (in_flight (kn (t_half t)) ≠ 0%nat → t_target t = polls_with f) ∧
    (∀ buf, to_call ph = Some buf → buf = polls_with f).

Definition data_at ph u t : Prop :=
  match t_future t with
  | Held f => who (t_half t) = Idle ∧ lent f ph u t
  | Polling f => polling ph = true ∧ lent f ph u t
  | Finished f r =>
      who (t_half t) = Idle ∧ spent u (t_half t) ∧
      match r with Ok _ => moved t (wsa_len (t_origin t).1) | Err _ => ∃ n, moved t n end
  | Dropping f => (ph = CStart true ∨ ph = CDone (Ok tt)) ∧ spent u (t_half t)
  | Gone => who (t_half t) = Idle ∧ spent u (t_half t)
  | Panicking _ => False
  end.

Definition transfer_inv t : Prop :=
  t_abandoned t = true ∨ ∃ ph ks u, at_counters ph ks u (t_half t) ∧ data_at ph u t.

Lemma owed_app u1 u2 : owed (u1 ++ u2) = owed u1 + owed u2.
Proof. induction u1; simpl; lia. Qed.

(** Bytes moved on what is left of the buffer are bytes moved on the buffer. *)
Lemma moved_more f n t r d' :
  progress (t_origin t).1 n f → moved t n → done_with (t_device t) (polls_with f) r d' →
  transfer (t_origin t).2 (t_origin t).1 (n + owed [r]) = Some d'.
Proof.
  intros Hf Hm Hd. destruct (progress_rest _ _ _ Hf) as [_ Hr]. rewrite Hr in Hd.
  destruct r as [k|e]; simpl in *.
  - rewrite Z.add_0_r. by eapply transfer_more.
  - subst d'. rewrite Z.add_0_r. exact Hm.
Qed.

Lemma done_with_bound (d : D) buf r d' : done_with d buf r d' → 0 ≤ owed [r].
Proof. destruct r; simpl; [intros Ht%transfer_bound; lia|done]. Qed.

Lemma lent_effect f t h ph ph' ks u new d' target' :
  at_counters ph ks u (t_half t) → lent f ph u t →
  effect ph (t_half t) h (t_device t) (t_target t) d' target' new →
  (∀ buf, to_call ph' = Some buf → to_call ph = Some buf) →
  lent f ph' (u ++ new) (Build_tconfig h d' target' (t_future t) (t_origin t) (t_abandoned t)).
Proof.
  intros Hat (n & Hf & Hu & Hm & Ht & Hc) He Hn. exists n. simpl.
  assert (∀ buf, to_call ph' = Some buf → buf = polls_with f) as Hc' by eauto.
  inversion He as [Hfl|w buf Hph|w buf r d1 Hph Hfl Hd|r d1 Hfl Hlt Hd]; subst; rewrite ?app_nil_r.
  - split_and!; [done..|by rewrite Hfl|done].
  - split_and!; [done..|intros _; by apply Hc|done].
  - assert (u = []) as ->.
    { destruct Hat as (_ & _ & s & _ & _ & Hint). destruct (Hint eq_refl) as (_ & _ & Hu0). exact Hu0. }
    specialize (Hc buf eq_refl). subst buf. simpl app. split_and!; [done|by eapply done_with_bound| |by rewrite Hfl|done].
    simpl in Hm. rewrite Z.add_0_r in Hm. exact (moved_more f n t r _ Hf Hm Hd).
  - rewrite (flight_owes _ _ _ _ Hat Hfl) in *. rewrite (Ht Hfl) in *.
    split_and!; [done|by eapply done_with_bound| |done..]. simpl in Hm. rewrite Z.add_0_r in Hm. exact (moved_more f n t r _ Hf Hm Hd).
Qed.

(** A half with nothing outstanding stays so. *)
Definition resting ph : Prop := ph = PDone Pending ∨ ph = CStart true ∨ ph = CDone (Ok tt).

Lemma resting_next ph a (s s' : cells W waker * kernel) ph' :
  resting ph → c_state s.1 = IDLE → cnext false ph a s = Some (ph', s') →
  ph = CStart true ∧ ph' = CDone (Ok tt) ∧ s' = s.
Proof. destruct s as [c k]; simpl. intros [->|[->| ->]] Hs Hn; simplify_eq/=. by rewrite decide_False by congruence. Qed.

Lemma spent_idle l ph ks u c c' :
  internal l = true → step l c = Some c' → at_counters ph ks u c → spent u c → resting ph →
  c_state (cl c') = IDLE.
Proof.
  intros Hl Hstep Hat Hs Hph. destruct (others l) eqn:Ho.
  - destruct (spent_others l ks c c' Ho (proj1 Hat) (spent_stage _ _ _ _ Hat Hs Hph) Hstep) as [-> _]. apply Hs.
  - destruct l as [|a| | | | |]; try done. simpl in Hstep. destruct (who c) as [|op p] eqn:Hw; [done|].
    pose proof (proj1 (proj2 Hat)) as Hcl. rewrite Hw in Hcl. simpl in Hcl. subst p. rewrite cstep_next in Hstep.
    destruct (cnext false ph a (cl c, kn c)) as [[ph' s']|] eqn:Hn; [|done]. injection Hstep as <-.
    destruct (resting_next ph a (cl c, kn c) s' ph' Hph (proj2 Hs) Hn) as (_ & _ & ->). apply Hs.
Qed.

Lemma spent_system l ph ks u c c' (d : D) target d' target' :
  internal l = true → step l c = Some c' → moves l c d target = Some (d', target') →
  at_counters ph ks u c → spent u c → resting ph →
  ∃ ph' ks', at_counters ph' ks' [] c' ∧ spent [] c' ∧ d' = d ∧
    (ph' = ph ∧ who c' = who c ∨ ph' = CDone (Ok tt) ∧ ph = CStart true).
Proof.
  intros Hl Hstep Hm Hat Hs Hph. destruct (spent_stage _ _ _ _ Hat Hs Hph) as (Hf & _).
  pose proof (spent_idle _ _ _ _ _ _ Hl Hstep Hat Hs Hph) as Hst.
  destruct (half_effect _ _ _ _ _ _ _ _ _ _ _ _ _ _ Hl Hstep Hm Hat) as (ph' & ks' & new & Hat' & He & _ & Hp);
    [by rewrite Hst|].
  destruct Hs as [-> Hst0].
  inversion He; subst; try (by destruct Hph as [|[|]]); try done.
  exists ph', ks'. split_and!; [done|done|done|].
  destruct Hp as [[-> Hw]|(a & op & Hw & Hw' & Hn)]; [by left|]. right.
  by destruct (resting_next ph a (cl c, kn c) _ ph' Hph Hst0 Hn) as (-> & -> & _).
Qed.

Lemma at_idle ph ks u c : at_counters ph ks u c → who c = Idle → ph = PDone Pending.
Proof. intros (_ & Hcl & _) Hw. by rewrite Hw in Hcl. Qed.

(** A move of the half under a live future. *)
Lemma lent_system l f ph ks u t h d' target' :
  internal l = true → step l (t_half t) = Some h →
  moves l (t_half t) (t_device t) (t_target t) = Some (d', target') →
  at_counters ph ks u (t_half t) → polling ph = true → lent f ph u t →
  ∃ ph' ks' u', at_counters ph' ks' u' h ∧ polling ph' = true ∧
    lent f ph' u' (Build_tconfig h d' target' (t_future t) (t_origin t) (t_abandoned t)) ∧
    (who (t_half t) = Idle → who h = Idle).
Proof.
  intros Hl Hstep Hm Hat Hp Hf.
  assert (c_state (cl h) ≠ CANCELLED_WAIT) as Hcw.
  { destruct (others l) eqn:Ho; [by eapply others_unwaited|].
    destruct l as [|a| | | | |]; try done. simpl in Hstep. destruct (who (t_half t)) as [|op p] eqn:Hw; [done|].
    pose proof Hat as (_ & Hcl & s & _ & _ & Hint). rewrite Hw in Hcl. simpl in Hcl. subst p.
    rewrite cstep_next in Hstep.
    destruct (cnext false ph a (cl (t_half t), kn (t_half t))) as [[ph' s']|] eqn:Hn; [|done]. injection Hstep as <-.
    by destruct (polling_next _ _ _ _ _ Hp Hn (proj1 (proj2 (Hint eq_refl)))). }
  destruct (half_effect _ _ _ _ _ _ _ _ _ _ _ _ _ _ Hl Hstep Hm Hat Hcw) as (ph' & ks' & new & Hat' & He & _ & Hx).
  exists ph', ks', (u ++ new). destruct Hx as [[-> Hw]|(a & op & Hw & Hw' & Hn)].
  - split_and!; [done|done| |by rewrite Hw]. by eapply lent_effect.
  - pose proof Hat as (_ & _ & s & _ & _ & Hint).
    destruct (polling_next _ _ _ _ _ Hp Hn (proj1 (proj2 (Hint eq_refl)))) as [Hp' _].
    split_and!; [done|done| |by rewrite Hw]. eapply lent_effect; [exact Hat|done|done|].
    intros buf. by eapply (cnext_to_call ph a (cl (t_half t), kn (t_half t)) (cl h, kn h)).
Qed.

Lemma system_step l t t' :
  transfer_inv t → transfer_step false handle ptp_io ov hid (TSystem l) t = Some t' → transfer_inv t'.
Proof.
  intros Hinv Hstep. simpl in Hstep. destruct (internal l) eqn:Hl; [|done].
  destruct (moves l (t_half t) (t_device t) (t_target t)) as [[d' target']|] eqn:Hm; [|done].
  simpl in Hstep. destruct (step l (t_half t)) as [h|] eqn:Hs; [|done]. injection Hstep as <-.
  destruct Hinv as [|(ph & ks & u & Hat & Hd)]; [by left|]. right. unfold data_at in *. simpl.
  destruct (t_future t) as [|f|f|f r|f|e]; [| | | | |done].
  - destruct Hd as [Hw Hsp]. pose proof (at_idle _ _ _ _ Hat Hw) as Hph.
    destruct (spent_system _ _ _ _ _ _ _ _ _ _ Hl Hs Hm Hat Hsp (or_introl Hph)) as (ph' & ks' & Hat' & Hsp' & -> & Hx).
    exists ph', ks', []. destruct Hx as [[-> Hw']|[_ ?]]; [|congruence]. by rewrite Hw'.
  - destruct Hd as [Hw Hf]. pose proof (at_idle _ _ _ _ Hat Hw) as Hph.
    destruct (lent_system _ f _ _ _ _ _ _ _ Hl Hs Hm Hat ltac:(by rewrite Hph) Hf) as (ph' & ks' & u' & ? & _ & ? & ?).
    exists ph', ks', u'. eauto.
  - destruct Hd as [Hp Hf].
    destruct (lent_system _ f _ _ _ _ _ _ _ Hl Hs Hm Hat Hp Hf) as (ph' & ks' & u' & ? & ? & ? & _).
    exists ph', ks', u'. eauto.
  - destruct Hd as (Hw & Hsp & Ho). pose proof (at_idle _ _ _ _ Hat Hw) as Hph.
    destruct (spent_system _ _ _ _ _ _ _ _ _ _ Hl Hs Hm Hat Hsp (or_introl Hph)) as (ph' & ks' & Hat' & Hsp' & -> & Hx).
    exists ph', ks', []. destruct Hx as [[-> Hw']|[_ ?]]; [|congruence]. by rewrite Hw'.
  - destruct Hd as [Hph Hsp].
    destruct (spent_system _ _ _ _ _ _ _ _ _ _ Hl Hs Hm Hat Hsp (or_intror Hph)) as (ph' & ks' & Hat' & Hsp' & -> & Hx).
    exists ph', ks', []. split; [done|]. split; [|done]. destruct Hx as [[-> _]|[-> _]]; eauto.
Qed.

(** *** The future *)

Lemma begin_counters op ph ks u c c' :
  waits op = true → at_counters ph ks u c → step (LBegin op) c = Some c' →
  at_counters (begin op) ks u c' ∧ cl c' = cl c ∧ kn c' = kn c.
Proof.
  intros Hop Hat Hstep. simpl in Hstep. destruct (who c) eqn:Hw; [|done]. rewrite Hop in Hstep.
  injection Hstep as <-. pose proof (at_idle _ _ _ _ Hat Hw) as ->. destruct Hat as (Hks & _ & Hv).
  split; [|done]. split_and!; [done|by destruct op|]. by apply view_begin.
Qed.

Lemma poll_half_abandoned w f t t' :
  poll_half false handle ptp_io ov hid w f t = Some t' → t_abandoned t' = t_abandoned t.
Proof.
  unfold poll_half. destruct (step (LBegin (OpPoll w (polls_with f))) (t_half t)); [|done]. by intros [= <-].
Qed.

Lemma poll_inv w f ks u t t' :
  at_counters (PDone Pending) ks u (t_half t) → lent f (PDone Pending) u t →
  poll_half false handle ptp_io ov hid w f t = Some t' → transfer_inv t'.
Proof.
  intros Hat (n & Hf & Hu & Hm & Ht & _) Hstep. unfold poll_half in Hstep.
  destruct (step (LBegin (OpPoll w (polls_with f))) (t_half t)) as [h|] eqn:Hs; [|done]. injection Hstep as <-.
  destruct (begin_counters (OpPoll w (polls_with f)) _ _ _ _ _ eq_refl Hat Hs) as (Hat' & _ & Hk).
  right. exists (PStart w (polls_with f)), ks, u. split; [done|]. split; [done|].
  exists n. simpl. rewrite Hk. split_and!; [done..|]. by intros buf [= <-].
Qed.

(** A poll returns to the future. *)
Lemma return_counters op p ph ks u c c' :
  who c = Running op (Ret (RPoll p)) → at_counters ph ks u c → step LReturn c = Some c' →
  ph = PDone p ∧ cl c' = cl c ∧ kn c' = kn c ∧ who c' = Idle ∧
  ∃ u', at_counters (PDone Pending) ks u' c' ∧
    match p with Ready r => u = [r] ∧ spent u' c' | Pending => u = u' end.
Proof.
  intros Hw (Hks & Hcl & Hv) Hstep. simpl in Hstep. rewrite Hw in Hstep, Hcl. injection Hstep as <-.
  simpl in Hcl. destruct (cden_ret _ _ _ _ ph _ (eq_sym Hcl)) as [(p' & -> & [= <-])|(q & _ & ?)]; [|done].
  split_and!; [done..|]. destruct (view_return_poll true _ _ _ _ _ Hv) as (u' & Hv' & Hu).
  specialize (Hu eq_refl). exists u'. split; [by split_and!|]. destruct p as [r|]; [|done].
  destruct Hv as (s & _ & Hsh & _), Hv' as (s' & _ & Hsh' & Hint'). simpl in *.
  destruct (c_state (cl c)) eqn:Hst; try done. destruct s; try done.
  destruct s'; try done. destruct (Hint' eq_refl) as (_ & _ & ->). by rewrite Hu.
Qed.

Lemma return_poll w b p f t t' :
  t_future t = Polling f → who (t_half t) = Running (OpPoll w b) (Ret (RPoll p)) →
  transfer_inv t → transfer_step false handle ptp_io ov hid TReturn t = Some t' → transfer_inv t'.
Proof.
  intros Hfu Hw Hinv Hstep. unfold transfer_step in Hstep. rewrite Hfu, Hw in Hstep.
  destruct (step LReturn (t_half t)) as [h|] eqn:Hs; [|done]. simpl in Hstep.
  destruct Hinv as [Hab|(ph & ks & u & Hat & Hd)].
  { left. destruct (resume f p) as [f'|[f' [r|]]]; [|by simplify_eq/=..].
    by rewrite (poll_half_abandoned _ _ _ _ Hstep). }
  unfold data_at in Hd. rewrite Hfu in Hd. destruct Hd as [_ (n & Hf & Hu & Hm & Ht & _)].
  destruct (return_counters _ _ _ _ _ _ _ Hw Hat Hs) as (-> & Hc & Hk & Hi & u' & Hat' & Hp).
  destruct p as [[k|e]|].
  - destruct Hp as [-> [-> Hst]]. simpl in Hu, Hm. rewrite Z.add_0_r in Hu, Hm.
    pose proof (transfer_bound _ _ _ _ Hm) as Hb.
    pose proof (resume_ok _ n f k Hf ltac:(simpl; lia)) as Hr.
    destruct (resume f (Ready (Ok k))) as [f'|[f' p]].
    + eapply (poll_inv w f' ks []); [| |exact Hstep]; [done|]. exists (n + k). simpl. rewrite Z.add_0_r.
      split_and!; [done..| |done]. by destruct (spent_stage _ _ _ _ Hat' (conj eq_refl Hst) (or_introl eq_refl)) as [-> _].
    + destruct Hr as [-> Hlen]. injection Hstep as <-. right. exists (PDone Pending), ks, [].
      split; [done|]. split_and!; [done..|]. simpl. by rewrite <- Hlen.
  - destruct Hp as [-> [-> Hst]]. rewrite resume_err in Hstep. injection Hstep as <-.
    right. exists (PDone Pending), ks, []. split; [done|]. split_and!; [done..|]. by eexists.
  - subst u'. rewrite resume_pending in Hstep. injection Hstep as <-.
    right. exists (PDone Pending), ks, u. split; [done|]. split; [done|]. exists n. simpl. rewrite Hk.
    by split_and!.
Qed.

Lemma return_drop wait q f t t' :
  t_future t = Dropping f → who (t_half t) = Running (OpCancel wait) (Ret (RCancel q)) →
  transfer_inv t → transfer_step false handle ptp_io ov hid TReturn t = Some t' → transfer_inv t'.
Proof.
  intros Hfu Hw Hinv Hstep. simpl in Hstep. rewrite Hfu, Hw in Hstep. injection Hstep as <-.
  destruct Hinv as [Hab|(ph & ks & u & (Hks & Hcl & Hv) & Hd)]; [by left|]. right.
  unfold data_at in Hd. rewrite Hfu in Hd. destruct Hd as [Hph [-> Hst]]. rewrite Hw in Hcl. simpl in Hcl.
  assert (ph = CDone (Ok tt) ∧ q = Ok tt) as [-> ->].
  { destruct (cden_ret _ _ _ _ ph _ (eq_sym Hcl)) as [(p & _ & ?)|(q' & -> & ?)]; [done|].
    by destruct Hph as [|]; simplify_eq. }
  exists (PDone Pending), ks, []. split.
  - split_and!; [done..|]. by eapply view_return_cancel.
  - unfold data_at. simpl. rewrite dropped_ok. by split.
Qed.

Lemma return_step t t' :
  transfer_inv t → transfer_step false handle ptp_io ov hid TReturn t = Some t' → transfer_inv t'.
Proof.
  intros Hinv Hstep. destruct (t_future t) as [|f|f|f r|f|e] eqn:Hfu; try by (simpl in Hstep; rewrite Hfu in Hstep).
  - destruct (who (t_half t)) as [|op p] eqn:Hw; [simpl in Hstep; by rewrite Hfu, Hw in Hstep|].
    destruct op as [w b|wait], p as [[p|q]| | |]; try by (simpl in Hstep; rewrite Hfu, Hw in Hstep).
    by eapply return_poll.
  - destruct (who (t_half t)) as [|op p] eqn:Hw; [simpl in Hstep; by rewrite Hfu, Hw in Hstep|].
    destruct op as [w b|wait], p as [[p|q]| | |]; try by (simpl in Hstep; rewrite Hfu, Hw in Hstep).
    by eapply return_drop.
Qed.

Lemma drop_step t t' :
  transfer_inv t → transfer_step false handle ptp_io ov hid TDrop t = Some t' → transfer_inv t'.
Proof.
  intros Hinv Hstep. simpl in Hstep. destruct (t_future t) as [|f|f|f r|f|e] eqn:Hfu; try done.
  - destruct (who (t_half t)); [|done]. injection Hstep as <-. by left.
  - destruct (step (LBegin (OpCancel true)) (t_half t)) as [h|] eqn:Hs.
    2: { simpl in Hs. destruct (who (t_half t)); [by simplify_eq/=|done]. }
    destruct Hinv as [Hab|(ph & ks & u & Hat & Hd)].
    { left. simpl in Hs. destruct (who (t_half t)); by simplify_eq/=. }
    unfold data_at in Hd. rewrite Hfu in Hd. destruct Hd as (Hw & [-> Hst] & _).
    destruct (begin_counters (OpCancel true) _ _ _ _ _ eq_refl Hat Hs) as (Hat' & Hc & _).
    simpl in Hs. rewrite Hw in Hs, Hstep. injection Hs as <-. injection Hstep as <-.
    right. exists (CStart true), ks, []. split; [done|]. split; [by left|]. by split.
Qed.

(** The rest of the program writes elsewhere. *)
Definition writes (a : Z) (bs : list byte) t : tconfig :=
  Build_tconfig (t_half t) (outside a bs (t_device t)) (t_target t) (t_future t)
    ((t_origin t).1, outside a bs (t_origin t).2) (t_abandoned t).

Lemma moved_outside a bs t n :
  apart (t_origin t).1 a (length bs) = true → moved t n → moved (writes a bs t) n.
Proof. apply transfer_outside. Qed.

Lemma other_step a bs t t' :
  transfer_inv t → transfer_step false handle ptp_io ov hid (TOther a bs) t = Some t' → transfer_inv t'.
Proof.
  intros Hinv Hstep. simpl in Hstep. destruct (implb _ _) eqn:Hb; [|done].
  change (Some (writes a bs t) = Some t') in Hstep. injection Hstep as <-.
  destruct Hinv as [|(ph & ks & u & Hat & Hd)]; [by left|]. right. exists ph, ks, u. split; [done|].
  assert (∀ f, t_future t = f → borrowed f = true → ∀ n, moved t n → moved (writes a bs t) n) as Hm.
  { intros f <- Hf n. rewrite Hf in Hb. by apply moved_outside. }
  unfold data_at, lent in *. simpl. destruct (t_future t) as [|f|f|f r|f|e]; try done.
  - destruct Hd as [Hw (n & ? & ? & ? & ?)]. split; [done|]. exists n. split_and!; naive_solver.
  - destruct Hd as [Hw (n & ? & ? & ? & ?)]. split; [done|]. exists n. split_and!; naive_solver.
  - destruct Hd as (? & ? & Hr). split_and!; [done..|]. destruct r as [[]|e]; [|destruct Hr as [n Hr]; exists n]; by eapply Hm.
Qed.

Lemma transfer_inv_step l t t' :
  transfer_inv t → transfer_step false handle ptp_io ov hid l t = Some t' → transfer_inv t'.
Proof.
  intros Hinv Hstep. destruct l as [buf|w|l| | |a bs].
  - simpl in Hstep. destruct (t_future t) eqn:Hfu; try done. case_decide as Hb; [|done]. injection Hstep as <-.
    destruct Hinv as [|(ph & ks & u & Hat & Hd)]; [by left|]. right. unfold data_at in Hd. rewrite Hfu in Hd.
    destruct Hd as [Hw Hs]. pose proof (at_idle _ _ _ _ Hat Hw) as ->. exists (PDone Pending), ks, u.
    split; [done|]. split; [done|]. destruct (spent_stage _ _ _ _ Hat Hs (or_introl eq_refl)) as (Hf & _).
    destruct Hs as [-> _]. exists 0. simpl. split_and!; [by apply progress_made|done| |by rewrite Hf|done].
    apply transfer_none. apply Hb.
  - simpl in Hstep. destruct (t_future t) as [|f| | | |] eqn:Hfu; try done.
    destruct Hinv as [|(ph & ks & u & Hat & Hd)].
    { left. by rewrite (poll_half_abandoned _ _ _ _ Hstep). }
    unfold data_at in Hd. rewrite Hfu in Hd. destruct Hd as [Hw Hl].
    pose proof (at_idle _ _ _ _ Hat Hw) as ->. by eapply poll_inv.
  - by eapply system_step.
  - by eapply return_step.
  - by eapply drop_step.
  - by eapply other_step.
Qed.

Lemma transfer_exec_inv d ls t :
  transfer_exec false handle ptp_io ov hid d ls = Some t → transfer_inv t.
Proof.
  apply (invariant (H := transfer_lts false handle ptp_io ov hid d) transfer_inv);
    [|intros l s s'; apply transfer_inv_step].
  right. exists (PDone Pending), [], []. split; [|done]. split_and!; [done..|by exists SNone].
Qed.

(** The half moves bytes only for a live future, in its buffer. *)
Lemma system_data l t t' :
  transfer_inv t → t_abandoned t = false →
  transfer_step false handle ptp_io ov hid (TSystem l) t = Some t' →
  t_origin t' = t_origin t ∧
  (t_device t' = t_device t ∨ borrowed (t_future t) = true ∧ ∃ n n', moved t n ∧ moved t' n').
Proof.
  intros Hinv Hab Hstep. pose proof (system_step l t t' Hinv Hstep) as Hinv'.
  simpl in Hstep. destruct (internal l) eqn:Hl; [|done].
  destruct (moves l (t_half t) (t_device t) (t_target t)) as [[d' target']|] eqn:Hm; [|done].
  simpl in Hstep. destruct (step l (t_half t)) as [h|] eqn:Hs; [|done]. injection Hstep as <-. split; [done|].
  destruct Hinv as [|(ph & ks & u & Hat & Hd)]; [congruence|].
  destruct Hinv' as [Hab'|(ph' & ks' & u' & _ & Hd')]; [simpl in Hab'; congruence|].
  unfold data_at in Hd, Hd'. simpl in Hd'. destruct (t_future t) as [|f|f|f r|f|e] eqn:Hf; try done.
  - destruct Hd as [Hw Hsp]. left.
    by destruct (spent_system _ _ _ _ _ _ _ _ _ _ Hl Hs Hm Hat Hsp (or_introl (at_idle _ _ _ _ Hat Hw)))
      as (? & ? & _ & _ & -> & _).
  - right. split; [done|]. destruct Hd as (_ & n & _ & _ & Hn & _), Hd' as (_ & n' & _ & _ & Hn' & _). eauto.
  - right. split; [done|]. destruct Hd as (_ & n & _ & _ & Hn & _), Hd' as (_ & n' & _ & _ & Hn' & _). eauto.
  - right. split; [done|]. destruct Hd as (_ & _ & Hn), Hd' as (_ & _ & Hn').
    destruct r; [eauto|]. destruct Hn as [n Hn], Hn' as [n' Hn']. eauto.
  - destruct Hd as [Hph Hsp]. left.
    by destruct (spent_system _ _ _ _ _ _ _ _ _ _ Hl Hs Hm Hat Hsp (or_intror Hph))
      as (? & ? & _ & _ & -> & _).
Qed.

(** What the invariant says of the data at the end of a future. *)
Lemma transfer_outcome d ls t :
  transfer_exec false handle ptp_io ov hid d ls = Some t → t_abandoned t = false →
  match t_future t with
  | Held _ | Polling _ => ∃ n, moved t n
  | Finished _ (Ok _) => moved t (wsa_len (t_origin t).1) ∧ in_flight (kn (t_half t)) = 0%nat
  | Finished _ (Err _) => (∃ n, moved t n) ∧ in_flight (kn (t_half t)) = 0%nat
  | Gone | Dropping _ => in_flight (kn (t_half t)) = 0%nat
  | Panicking _ => False
  end.
Proof.
  intros Hex Hab. destruct (transfer_exec_inv d ls t Hex) as [|(ph & ks & u & Hat & Hd)]; [congruence|].
  unfold data_at in Hd. destruct (t_future t) as [|f|f|f [[]|e]|f|e]; [| | | | | |done].
  - destruct Hd as [Hw Hs]. by destruct (spent_stage _ _ _ _ Hat Hs (or_introl (at_idle _ _ _ _ Hat Hw))) as [-> _].
  - destruct Hd as (_ & n & _ & _ & Hm & _). eauto.
  - destruct Hd as (_ & n & _ & _ & Hm & _). eauto.
  - destruct Hd as (Hw & Hs & Hm). by destruct (spent_stage _ _ _ _ Hat Hs (or_introl (at_idle _ _ _ _ Hat Hw))) as [-> _].
  - destruct Hd as (Hw & Hs & Hm). by destruct (spent_stage _ _ _ _ Hat Hs (or_introl (at_idle _ _ _ _ Hat Hw))) as [-> _].
  - destruct Hd as (Hph & Hs). by destruct (spent_stage _ _ _ _ Hat Hs (or_intror Hph)) as [-> _].
Qed.
End invariant.

(** ** The guarantees *)

(** The system never answers that the operation completed at once. *)
Definition tpends {waker} (l : tlabel waker) : bool :=
  match l with TSystem l => pends l | _ => true end.

Definition no_stale_transfer {waker} (posts : bool) (ls : list (tlabel waker)) : Prop :=
  posts = true → forallb tpends ls = true.

(** No future is made, and the rest of the program writes nothing. *)
Definition untouched {waker} (l : tlabel waker) : bool :=
  match l with TNew _ | TOther _ _ => false | _ => true end.

(** The moves of a transfer, and the runs in which no future is cancelled. *)
Definition transfer_of {waker} (l : clabel waker) : option (tlabel waker) :=
  match l with CTransfer l => Some l | _ => None end.
Definition never_cancels {waker} (l : clabel waker) : bool :=
  match l with CTransfer _ => true | _ => false end.

Section guarantees.
Context {W waker D F : Type} `{!AtomicWaker W waker} `{!Device D} `{!IoFuture F}.
Context (handle ptp_io ov : Z) (hid : half_id).
Abbreviation tconfig := (tconfig W waker D F).
Abbreviation step := (half_step false waits handle ptp_io ov hid).
Implicit Types (t : tconfig).

Lemma transfer_step_pends l t :
  tpends l = true →
  transfer_step true handle ptp_io ov hid l t = transfer_step false handle ptp_io ov hid l t.
Proof.
  intros Hl. destruct l as [buf|w|l| | |]; try done. unfold transfer_step.
  destruct (internal l); [|done]. destruct (moves _ _ _ _) as [[d target]|]; [|done]. simpl.
  by rewrite half_step_pends.
Qed.

Lemma transfer_exec_pends posts d ls :
  no_stale_transfer posts ls →
  transfer_exec (W := W) (F := F) posts handle ptp_io ov hid d ls = transfer_exec false handle ptp_io ov hid d ls.
Proof.
  destruct posts; [|done]. intros Hls.
  apply (exec_agree (transfer_lts (W := W) (F := F) true handle ptp_io ov hid d)
    (transfer_lts false handle ptp_io ov hid d) tpends); [|by apply Hls].
  intros l t. apply transfer_step_pends.
Qed.

(** *** The half is one the half's system reaches *)

Definition projects t : Prop :=
  ∃ ls, half_exec false waits handle ptp_io ov hid ls = Some (t_half t) ∧
    (t_future t = Gone → who (t_half t) = Idle ∧ (t_half t = start ∨ settled (history (t_half t)) = true)).

Lemma reaches ls l (c c' : config W waker) :
  half_exec false waits handle ptp_io ov hid ls = Some c → step l c = Some c' →
  half_exec false waits handle ptp_io ov hid (ls ++ [l]) = Some c'.
Proof. unfold half_exec. intros Hex Hs. rewrite exec_app, Hex. simpl. by rewrite Hs. Qed.

Lemma projects_poll w f t t' :
  (∃ ls, half_exec false waits handle ptp_io ov hid ls = Some (t_half t)) →
  poll_half false handle ptp_io ov hid w f t = Some t' → projects t'.
Proof.
  intros [ls Hex] Hstep. unfold poll_half in Hstep.
  destruct (step _ (t_half t)) as [h|] eqn:Hs; [|done]. injection Hstep as <-.
  exists (ls ++ [LBegin (OpPoll w (polls_with f))]). split; [by eapply reaches|done].
Qed.

Lemma idle_internal l (c c' : config W waker) :
  internal l = true → who c = Idle → step l c = Some c' →
  who c' = Idle ∧ history c' = history c ∧ c ≠ start.
Proof.
  intros Hl Hw Hs. destruct l as [op|a| |e t| |i|i]; try done; simpl in Hs.
  - by rewrite Hw in Hs.
  - destruct (complete_op e t (kn c)) eqn:Hk; simplify_eq/=. split_and!; [done..|]. by intros ->.
  - destruct (packets (kn c)) as [|[]] eqn:Hp; simplify_eq/=. split_and!; [done..|]. by intros ->.
  - destruct (callbacks c !! i) as [p|] eqn:Hi; [|done]. simpl in Hs.
    destruct (tstep _ _ p _) as [[p' s']|]; simplify_eq/=. split_and!; [done..|]. by intros ->.
  - destruct (callbacks c !! i) as [[[]| | |]|] eqn:Hi; simplify_eq/=. split_and!; [done..|]. by intros ->.
Qed.

Lemma projects_step l t t' :
  projects t → transfer_step false handle ptp_io ov hid l t = Some t' → projects t'.
Proof.
  intros (ls & Hex & Hg) Hstep. destruct l as [buf|w|l| | |a bs]; unfold transfer_step in Hstep.
  - destruct (t_future t); try done. case_decide; [|done]. injection Hstep as <-. by exists ls.
  - destruct (t_future t); try done. eapply projects_poll; [|exact Hstep]. by exists ls.
  - destruct (internal l) eqn:Hl; [|done]. destruct (moves _ _ _ _) as [[d target]|]; [|done]. simpl in Hstep.
    destruct (step l (t_half t)) as [h|] eqn:Hs; [|done]. injection Hstep as <-.
    exists (ls ++ [l]). split; [by eapply reaches|]. simpl. intros [Hw Hset]%Hg.
    destruct (idle_internal l _ _ Hl Hw Hs) as (Hw' & Hh & Hne). split; [done|]. right. rewrite Hh. by destruct Hset.
  - destruct (t_future t) as [|f|f|f r|f|e]; try done.
    + destruct (who (t_half t)) as [|[w b|] p]; try done. destruct p as [[p|]| | |]; try done.
      destruct (step LReturn (t_half t)) as [h|] eqn:Hs; [|done]. simpl in Hstep.
      pose proof (reaches _ _ _ _ Hex Hs) as Hex'.
      destruct (resume f p) as [f'|[f' [r|]]]; [|by simplify_eq/=; eexists..].
      eapply projects_poll; [|exact Hstep]. by eexists.
    + destruct (who (t_half t)) as [|[|wait] p] eqn:Hw; try done. destruct p as [[|q]| | |]; try done.
      destruct (step LReturn (t_half t)) as [h|] eqn:Hs; [|done]. injection Hstep as <-.
      exists (ls ++ [LReturn]). split; [by eapply reaches|]. simpl in Hs. rewrite Hw in Hs. injection Hs as <-.
      intros _. split; [done|]. right. simpl. by rewrite settled_snoc.
  - destruct (t_future t) as [|f|f|f r|f|e]; try done.
    all: destruct (step (LBegin (OpCancel true)) (t_half t)) as [h|] eqn:Hs; [|done]; injection Hstep as <-.
    all: exists (ls ++ [LBegin (OpCancel true)]); split; [by eapply reaches|done].
  - destruct (implb _ _); [|done]. injection Hstep as <-. by exists ls.
Qed.

Lemma transfer_projects d ls t :
  transfer_exec false handle ptp_io ov hid d ls = Some t → projects t.
Proof.
  apply (invariant (H := transfer_lts false handle ptp_io ov hid d) projects);
    [|intros l s s'; apply projects_step].
  exists []. split; [done|]. intros _. by split; [|left].
Qed.

(** *** When no future borrows the stream *)

Lemma gone_quiet d ls t :
  transfer_exec false handle ptp_io ov hid d ls = Some t → t_future t = Gone →
  who (t_half t) = Idle ∧ in_flight (kn (t_half t)) = 0%nat ∧ packets (kn (t_half t)) = [].
Proof.
  intros Hex Hg. destruct (transfer_projects d ls t Hex) as (ls' & Hh & Hw). specialize (Hw Hg) as [Hw [Hs|Hs]].
  - by rewrite Hs.
  - by destruct (settled_quiet waits eq_refl handle ptp_io ov hid ls' _ Hh Hw Hs) as (? & ? & _).
Qed.

Lemma gone_step d ls t l t' :
  transfer_exec false handle ptp_io ov hid d ls = Some t → t_future t = Gone → untouched l = true →
  transfer_step false handle ptp_io ov hid l t = Some t' →
  t_future t' = Gone ∧ t_device t' = t_device t.
Proof.
  intros Hex Hg Hl Hstep. destruct (gone_quiet d ls t Hex Hg) as (Hw & Hf & _).
  destruct l as [buf|w|l| | |]; try done; simpl in Hstep; rewrite ?Hg in Hstep; try done.
  destruct (internal l) eqn:Hi; [|done].
  destruct (moves l (t_half t) (t_device t) (t_target t)) as [[d' target]|] eqn:Hm; [|done]. simpl in Hstep.
  destruct (step l (t_half t)) as [h|] eqn:Hs; [|done]. injection Hstep as <-. split; [done|]. simpl.
  destruct l as [op|a| |e n| |i|i]; simpl in Hs, Hm; try done.
  - by rewrite Hw in Hs.
  - unfold complete_op in Hs. by rewrite Hf in Hs.
  - unfold moves, moves_data in Hm. by simplify_eq.
  - unfold moves, moves_data in Hm. by simplify_eq.
  - unfold moves, moves_data in Hm. by simplify_eq.
Qed.

(** The data after the drop of a future, when nothing is cancelled without
    waiting. *)
Lemma gone_stays d ls1 ls2 t1 t2 :
  forallb untouched ls2 = true →
  transfer_exec false handle ptp_io ov hid d ls1 = Some t1 → t_future t1 = Gone →
  transfer_exec false handle ptp_io ov hid d (ls1 ++ ls2) = Some t2 →
  t_future t2 = Gone ∧ t_device t2 = t_device t1.
Proof.
  intros Hls Hex1 Hg. revert t2. induction ls2 as [|l ls IH] using rev_ind; intros t Ht.
  - rewrite app_nil_r in Ht. by simplify_eq.
  - rewrite forallb_app in Hls. apply andb_prop in Hls as [Hls' Hl]. simpl in Hl. rewrite andb_true_r in Hl.
    unfold transfer_exec in Ht. rewrite app_assoc, exec_app in Ht.
    destruct (exec (H := transfer_lts false handle ptp_io ov hid d) (ls1 ++ ls) (tstart d)) as [t'|] eqn:Ht'; [|done].
    simpl in Ht. destruct (transfer_step false handle ptp_io ov hid l t') as [t''|] eqn:Hs; simplify_eq/=.
    destruct (IH Hls' t' Ht') as [Hg' <-]. by eapply gone_step.
Qed.

(** *** Without cancellations *)

Lemma cancelable_exec_pends posts d ls :
  no_stale_transfer posts (omap transfer_of ls) →
  cancelable_exec (W := W) (F := F) posts handle ptp_io ov hid d ls = cancelable_exec false handle ptp_io ov hid d ls.
Proof.
  destruct posts; [|done]. intros Hls.
  apply (exec_agree (cancelable_lts (W := W) (F := F) true handle ptp_io ov hid d)
    (cancelable_lts false handle ptp_io ov hid d) (λ l, match transfer_of l with Some l => tpends l | None => true end)).
  - intros [l| |] t Hl; [by apply transfer_step_pends|done|done].
  - specialize (Hls eq_refl). clear -Hls. induction ls as [|[l| |] ls IH]; simpl in *; [done| |by apply IH|by apply IH].
    apply andb_prop in Hls as [-> Hls]. by apply IH.
Qed.

Lemma cancelable_exec_transfer d ls :
  forallb never_cancels ls = true →
  cancelable_exec (W := W) (F := F) false handle ptp_io ov hid d ls =
  transfer_exec false handle ptp_io ov hid d (omap transfer_of ls).
Proof.
  unfold cancelable_exec, transfer_exec. generalize (tstart (F := F) (W := W) (waker := waker) d).
  induction ls as [|[l| |] ls IH]; intros t Hls; simpl in *; [done| |done|done].
  destruct (transfer_step _ _ _ _ _ l t); [by apply IH|done].
Qed.

(** No future, nothing to cancel. *)
Lemma gone_cancelable d ls1 ls2 t1 t2 :
  transfer_exec (W := W) (F := F) false handle ptp_io ov hid d ls1 = Some t1 → t_future t1 = Gone →
  forallb untouched (omap transfer_of ls2) = true →
  exec (H := cancelable_lts false handle ptp_io ov hid d) ls2 t1 = Some t2 →
  transfer_exec false handle ptp_io ov hid d (ls1 ++ omap transfer_of ls2) = Some t2.
Proof.
  revert ls1 t1. induction ls2 as [|[l| |] ls IH]; intros ls1 t1 Hex Hg Hls Ht; simpl in *.
  - simplify_eq. by rewrite app_nil_r.
  - apply andb_prop in Hls as [Hl Hls].
    destruct (transfer_step false handle ptp_io ov hid l t1) as [t|] eqn:Hs; [|done]. simpl in Ht.
    change (list_omap _ _ transfer_of ls) with (omap transfer_of ls) in *.
    replace (ls1 ++ l :: omap transfer_of ls) with ((ls1 ++ [l]) ++ omap transfer_of ls) by (by rewrite <- app_assoc).
    apply (IH (ls1 ++ [l]) t); [|by eapply gone_step|done|done].
    unfold transfer_exec in *. rewrite exec_app, Hex. simpl. by rewrite Hs.
  - by rewrite Hg in Ht.
  - by rewrite Hg in Ht.
Qed.

(** C7. A buffer is given back: once the drop of a future has returned, finished
    or abandoned, the data stays as it is until another future is made or the
    rest of the program writes: the system moves no byte, provided that no
    operation that completes at once posts a packet, and that before the drop
    no future was cancelled with [Cancelable::cancel], which does not wait
    ([TransferTcp.cancelled_future_is_written_after_its_drop]). *)
Theorem dropped_future_returns_its_buffer posts d ls1 ls2 t1 t2 :
  no_stale_transfer posts (omap transfer_of (ls1 ++ ls2)) → forallb never_cancels ls1 = true →
  forallb untouched (omap transfer_of ls2) = true →
  cancelable_exec posts handle ptp_io ov hid d ls1 = Some t1 → t_future t1 = Gone →
  cancelable_exec posts handle ptp_io ov hid d (ls1 ++ ls2) = Some t2 →
  t_device t2 = t_device t1 ∧ in_flight (kn (t_half t2)) = 0%nat.
Proof.
  intros Hst Hnc Hls Hex1 Hg Hex2.
  rewrite cancelable_exec_pends in Hex1;
    [|intros Hp; specialize (Hst Hp); rewrite omap_app, forallb_app in Hst; by destruct (andb_prop _ _ Hst)].
  rewrite cancelable_exec_pends in Hex2 by done. clear Hst posts.
  unfold cancelable_exec in Hex2. rewrite exec_app in Hex2. fold (cancelable_exec false handle ptp_io ov hid d ls1) in Hex2.
  rewrite Hex1 in Hex2. rewrite cancelable_exec_transfer in Hex1 by done.
  pose proof (gone_cancelable d _ ls2 t1 t2 Hex1 Hg Hls Hex2) as Hex.
  destruct (gone_stays d _ _ t1 t2 Hls Hex1 Hg Hex) as [Hg2 Hd]. split; [done|].
  by destruct (gone_quiet d _ t2 Hex Hg2) as (_ & ? & _).
Qed.
End guarantees.
