(* ===== verification/TransferTcp.v ===== *)
(** * [read_exact] and [write_all] on a [TcpStream], end to end

    The instances of [Transfer]'s interfaces, the two transfers of the crate
    over a stream, and the schedule on which they go wrong: a future that is
    dropped before its result was fetched. *)

From S2P Require Import Prelude Prog Extern Win32 Socket.
From S2P Require Import IoState IoCells IoHandle IoHandleSys IoHandleEx.
From S2P Require Import IoBuf Read Write Transfer TransferThm.
From Stdlib Require Import Strings.Byte.

(** ** The devices *)

#[export] Instance inbox_laws : DeviceLaws inbox.
Proof.
  split; unfold transfer, inbox_device, receive.
  - intros d d' buf n. case_decide; [lia|done].
  - intros d buf Hb. rewrite decide_True by lia. destruct d. simpl. by rewrite mem_write_nil.
  - intros d d1 d2 buf a b. case_decide as Ha; [|done]. intros [= <-]. simpl. case_decide as Hb; [|done].
    intros [= <-]. rewrite length_drop in Hb. rewrite decide_True by lia. simpl. f_equal.
    rewrite Z2Nat.inj_add, skipn_skipn, (Nat.add_comm (Z.to_nat b)) by lia. f_equal.
    rewrite <- (firstn_skipn (Z.to_nat a) (take _ _)), <- mem_write_app.
    rewrite take_take, skipn_firstn_comm, Nat.min_l by lia. do 2 f_equal; [|f_equal; lia].
    rewrite length_take. lia.
  - intros d d' buf n a bs Hb%apart_spec. unfold receive. simpl. case_decide; [|done]. intros [= <-]. simpl.
    f_equal. f_equal. apply mem_write_comm. rewrite length_take. lia.
Qed.

#[export] Instance outbox_laws : DeviceLaws outbox.
Proof.
  split; unfold transfer, outbox_device, send.
  - intros d d' buf n. case_decide; [lia|done].
  - intros d buf Hb. rewrite decide_True by lia. destruct d. simpl. by rewrite app_nil_r.
  - intros d d1 d2 buf a b. case_decide as Ha; [|done]. intros [= <-]. simpl. case_decide as Hb; [|done].
    intros [= <-]. rewrite decide_True by lia. f_equal. f_equal.
    rewrite Z2Nat.inj_add, mem_read_app, Z2Nat.id, app_assoc by lia. done.
  - intros d d' buf n a bs Hb%apart_spec. unfold send. simpl. case_decide; [|done]. intros [= <-]. simpl.
    f_equal. f_equal. by rewrite mem_read_outside by lia.
Qed.

(** ** The futures *)

Section futures.
Context {T : Type} (io : T).
#[local] Instance read_future : IoFuture (ReadExact T) := read_exact_future io.
#[local] Instance write_future : IoFuture (WriteAll T) := write_all_future io.

Definition read_progress (buf : WSABUF) (n : Z) (f : ReadExact T) : Prop :=
  0 ≤ n ≤ wsa_len buf ∧ wsa_len buf < 2 ^ 32 ∧ re_n f = n ∧ re_buf f = buf ∧ read_buf (re_read f) = remaining buf n.

Definition write_progress (buf : WSABUF) (n : Z) (f : WriteAll T) : Prop :=
  0 ≤ n ≤ wsa_len buf ∧ wsa_len buf < 2 ^ 32 ∧ wa_n f = n ∧ wa_buf f = buf ∧ w_buf (wa_write f) = remaining buf n.

Lemma remaining_none buf : buf = remaining buf 0.
Proof. destruct buf. unfold remaining. simpl. f_equal; lia. Qed.

(** Advancing what is left of a buffer. *)
Lemma remaining_more buf n k :
  0 ≤ n → 0 ≤ k ≤ wsa_len (remaining buf n) → wsa_len buf < 2 ^ 32 →
  {| wsa_len := wrap 32 (wsa_len (remaining buf n) - as_u32 k); wsa_buf := wsa_buf (remaining buf n) + k |} =
  remaining buf (n + k).
Proof.
  simpl. intros Hn Hk Hl. unfold remaining. simpl. rewrite (wrap_small 32 k), wrap_small by lia. f_equal; lia.
Qed.

#[local] Instance read_laws : IoFutureLaws (ReadExact T).
Proof.
  apply (Build_IoFutureLaws _ _ read_progress).
  - intros buf Hb. split_and!; try lia; [done..|]. apply remaining_none.
  - by intros buf n f (? & _ & _ & _ & ?).
  - intros buf n f k (Hn & Hl & <- & <- & Hr) Hk. simpl. rewrite Hr.
    rewrite (wrap_small 64) by (simpl in Hk; lia). case_decide as Hd; simpl in Hd |- *; [done|].
    split_and!; [simpl in Hk; lia..|done|done|]. simpl. apply remaining_more; [lia|done|done].
  - by intros [[] ] e.
  - by intros [[] ].
  - done.
Defined.

#[local] Instance write_laws : IoFutureLaws (WriteAll T).
Proof.
  apply (Build_IoFutureLaws _ _ write_progress).
  - intros buf Hb. split_and!; try lia; [done..|]. apply remaining_none.
  - by intros buf n f (? & _ & _ & _ & ?).
  - intros buf n f k (Hn & Hl & <- & <- & Hr) Hk. simpl. rewrite Hr.
    rewrite (wrap_small 64) by (simpl in Hk; lia). case_decide as Hd; simpl in Hd |- *; [done|].
    split_and!; [simpl in Hk; lia..|done|done|]. simpl. apply remaining_more; [lia|done|done].
  - by intros [[] ] e.
  - by intros [[] ].
  - done.
Defined.
End futures.

(** ** The transfers *)

Section tcp.
Context {W waker : Type} `{!AtomicWaker W waker}.
Context {T : Type} (io : T) (handle ptp_io ov : Z).

(** The first [n] bytes the peer had sent when the future was made are in
    its buffer, the rest is still to come, and nothing else was written, but
    by the rest of the program. *)
Definition received {F} (t : tconfig W waker inbox F) (n : Z) : Prop :=
  let '(buf, before) := t_origin t in
  0 ≤ n ≤ wsa_len buf ∧ n ≤ Z.of_nat (length (in_bytes before)) ∧
  in_memory (t_device t) = mem_write (in_memory before) (wsa_buf buf) (take (Z.to_nat n) (in_bytes before)) ∧
  in_bytes (t_device t) = skipn (Z.to_nat n) (in_bytes before).

(** The peer has been sent the first [n] bytes of the buffer of the future,
    after what it had been sent before, and nothing was written, but by the
    rest of the program. *)
Definition sent_to_peer {F} (t : tconfig W waker outbox F) (n : Z) : Prop :=
  let '(buf, before) := t_origin t in
  0 ≤ n ≤ wsa_len buf ∧ out_memory (t_device t) = out_memory before ∧
  out_bytes (t_device t) = out_bytes before ++ mem_read (out_memory before) (wsa_buf buf) (Z.to_nat n).

Lemma moved_received {F} (t : tconfig W waker inbox F) n : moved t n → received t n.
Proof.
  unfold moved, received, transfer, inbox_device, receive. destruct (t_origin t) as [buf before]. simpl.
  case_decide as Hn; [|done]. intros [= Hd]. rewrite <- Hd. simpl. split_and!; [lia..|done|done].
Qed.

Lemma moved_sent {F} (t : tconfig W waker outbox F) n : moved t n → sent_to_peer t n.
Proof.
  unfold moved, sent_to_peer, transfer, outbox_device, send. destruct (t_origin t) as [buf before]. simpl.
  case_decide as Hn; [|done]. intros [= Hd]. rewrite <- Hd. simpl. split_and!; [lia..|done|done].
Qed.

(** Reading from a stream is exact, end to end: whatever the system and the
    callbacks do, and however often the future is polled, when [read_exact]
    has returned successfully its buffer contains exactly the next bytes of
    the peer, the system has written nothing else, and is done with the
    buffer; at every other moment the bytes that have come are in place.  This
    holds as long as no future was dropped before it had finished and no
    operation that completes at once posts a packet. *)
Theorem tcp_read_exact_is_exact posts d ls (t : tconfig W waker inbox (ReadExact T)) :
  no_stale_transfer posts ls →
  transfer_exec (IoFuture0 := read_exact_future io) posts handle ptp_io ov ReadHalf d ls = Some t →
  t_abandoned t = false →
  match t_future t with
  | Held _ | Polling _ => ∃ n, received t n
  | Finished _ (Ok _) => received t (wsa_len (t_origin t).1) ∧ in_flight (kn (t_half t)) = 0%nat
  | Finished _ (Err _) => (∃ n, received t n) ∧ in_flight (kn (t_half t)) = 0%nat
  | Gone | Dropping _ => in_flight (kn (t_half t)) = 0%nat
  | Panicking _ => False
  end.
Proof.
  intros Hst Hex Hab. rewrite transfer_exec_pends in Hex by done.
  pose proof (transfer_outcome (HF := read_laws io) handle ptp_io ov ReadHalf d ls t Hex Hab) as Ho.
  destruct (t_future t) as [|f|f|f [[]|e]|f|e]; naive_solver eauto using moved_received.
Qed.

(** Writing to a stream is exact, end to end: when [write_all] has returned
    successfully the peer has been sent exactly the bytes of the buffer, in
    order and once, and the system is done with the buffer; at every other
    moment the peer has been sent a prefix of them.  The drop of the future
    does not panic.  This holds under the conditions of
    [tcp_read_exact_is_exact]. *)
Theorem tcp_write_all_is_exact posts d ls (t : tconfig W waker outbox (WriteAll T)) :
  no_stale_transfer posts ls →
  transfer_exec (IoFuture0 := write_all_future io) posts handle ptp_io ov WriteHalf d ls = Some t →
  t_abandoned t = false →
  match t_future t with
  | Held _ | Polling _ => ∃ n, sent_to_peer t n
  | Finished _ (Ok _) => sent_to_peer t (wsa_len (t_origin t).1) ∧ in_flight (kn (t_half t)) = 0%nat
  | Finished _ (Err _) => (∃ n, sent_to_peer t n) ∧ in_flight (kn (t_half t)) = 0%nat
  | Gone | Dropping _ => in_flight (kn (t_half t)) = 0%nat
  | Panicking _ => False
  end.
Proof.
  intros Hst Hex Hab. rewrite transfer_exec_pends in Hex by done.
  pose proof (transfer_outcome (HF := write_laws io) handle ptp_io ov WriteHalf d ls t Hex Hab) as Ho.
  destruct (t_future t) as [|f|f|f [[]|e]|f|e]; naive_solver eauto using moved_sent.
Qed.
End tcp.

(** ** Concrete transfers *)

Definition hello : list byte := [x68; x65; x6c; x6c; x6f; x2c; x20; x77; x6f; x72; x6c; x64].
Definition buf8 : WSABUF := {| wsa_len := 8; wsa_buf := 100 |}.
Definition buf8' : WSABUF := {| wsa_len := 8; wsa_buf := 200 |}.
Definition buf5 : WSABUF := {| wsa_len := 5; wsa_buf := 200 |}.
Definition peer : inbox := {| in_memory := ∅; in_bytes := hello |}.
Definition disk : outbox := {| out_memory := mem_write ∅ 100 hello; out_bytes := [] |}.

Abbreviation tconf D F := (tconfig (option nat) nat D F).

Section schedules.
Context {D F : Type} `{!Device D} `{!IoFuture F}.

(** The state a schedule reaches, where completions at once post packets. *)
Definition treach (hid : half_id) (d : D) (ls : list (tlabel nat)) : tconf D F :=
  default (tstart d) (transfer_exec true 1 2 3 hid d ls).
Definition truns (hid : half_id) (d : D) (ls : list (tlabel nat)) : bool :=
  match transfer_exec (W := option nat) true 1 2 3 hid d ls with Some _ => true | None => false end.
Lemma treach_truns hid d ls :
  truns hid d ls = true → transfer_exec (W := option nat) true 1 2 3 hid d ls = Some (treach hid d ls).
Proof. unfold truns, treach. by destruct (transfer_exec true 1 2 3 hid d ls). Qed.
End schedules.

(** A poll that leaves an operation in flight. *)
Definition tstart_pending : list (tlabel nat) :=
  TSystem <$> client_steps 3 ++ LClient (AStart StartPending) :: client_steps 2.
(** A poll that fetches the result of a callback. *)
Definition ttake : list (tlabel nat) := TSystem <$> client_steps 3.
(** The operation in flight completes and its callback runs. *)
Definition tcomplete (n : Z) : list (tlabel nat) := TSystem <$> complete 0 n.
(** The future is dropped; nothing can be cancelled. *)
Definition tdrop : list (tlabel nat) := TDrop :: (TSystem <$> client_steps 1) ++ [TReturn].

(** A transfer of eight bytes in two operations, of five and three bytes. *)
Definition two_parts : list (tlabel nat) :=
  TNew buf8 :: TPoll 7%nat :: tstart_pending ++ TReturn :: tcomplete 5 ++
  TPoll 8%nat :: ttake ++ TReturn :: tstart_pending ++ TReturn :: tcomplete 3 ++
  TPoll 9%nat :: ttake ++ [TReturn].

Lemma tcp_read_exact_is_exact_witness :
  let t := treach (IoFuture0 := read_exact_future tt) ReadHalf peer two_parts in
  (t_abandoned t = false ∧ mem_read (in_memory (t_device t)) 100 8 = take 8 hello) ∧
  received t 8 ∧ in_flight (kn (t_half t)) = 0%nat.
Proof.
  intros t. split; [split; vm_compute; reflexivity|].
  assert (transfer_exec (IoFuture0 := read_exact_future tt) true 1 2 3 ReadHalf peer two_parts = Some t) as Hex
    by (apply treach_truns; vm_compute; reflexivity).
  assert (no_stale_transfer true two_parts) as Hst by (intros _; vm_compute; reflexivity).
  assert (t_abandoned t = false) as Hab by (vm_compute; reflexivity).
  assert (match t_future t with Finished _ (Ok _) => true | _ => false end = true) as Hf by (vm_compute; reflexivity).
  assert ((t_origin t).1 = buf8) as Hb by (vm_compute; reflexivity).
  clearbody t. pose proof (tcp_read_exact_is_exact tt 1 2 3 true peer two_parts t Hst Hex Hab) as H.
  rewrite Hb in H. destruct (t_future t) as [| | |f [[]|e]| |]; try discriminate Hf. exact H.
Defined.

Lemma tcp_write_all_is_exact_witness :
  let t := treach (IoFuture0 := write_all_future tt) WriteHalf disk two_parts in
  (t_abandoned t = false ∧ out_bytes (t_device t) = take 8 hello) ∧
  sent_to_peer t 8 ∧ in_flight (kn (t_half t)) = 0%nat.
Proof.
  intros t. split; [split; vm_compute; reflexivity|].
  assert (transfer_exec (IoFuture0 := write_all_future tt) true 1 2 3 WriteHalf disk two_parts = Some t) as Hex
    by (apply treach_truns; vm_compute; reflexivity).
  assert (no_stale_transfer true two_parts) as Hst by (intros _; vm_compute; reflexivity).
  assert (t_abandoned t = false) as Hab by (vm_compute; reflexivity).
  assert (match t_future t with Finished _ (Ok _) => true | _ => false end = true) as Hf by (vm_compute; reflexivity).
  assert ((t_origin t).1 = buf8) as Hb by (vm_compute; reflexivity).
  clearbody t. pose proof (tcp_write_all_is_exact tt 1 2 3 true disk two_parts t Hst Hex Hab) as H.
  rewrite Hb in H. destruct (t_future t) as [| | |f [[]|e]| |]; try discriminate Hf. exact H.
Defined.

(** ** A result nobody fetched *)

(** A future on eight bytes is dropped when its operation has completed. *)
Definition abandoned : list (tlabel nat) :=
  TNew buf8 :: TPoll 7%nat :: tstart_pending ++ TReturn :: tcomplete 8 ++ tdrop.

(** The next future takes the result for its own. *)
Definition stale (buf : WSABUF) : list (tlabel nat) :=
  abandoned ++ TNew buf :: TPoll 8%nat :: ttake ++ [TReturn].

(** C34. A future that is dropped while its operation is complete but not
    fetched leaves its result behind, for the cancellation of the drop
    ignores a half that is ready.  The next future takes it for its own:
    [read_exact] returns successfully with a buffer that was never written,
    and [write_all] without having sent a byte; and when the buffer of the
    next [read_exact] is smaller than the stale count, the length that is
    left wraps around, the system is given four gigabytes starting behind
    the buffer, and the bytes of the peer are written there. *)
Theorem stale_results_corrupt_the_next_transfer :
  (∃ t : tconf inbox (ReadExact unit),
    transfer_exec (IoFuture0 := read_exact_future tt) true 1 2 3 ReadHalf peer (stale buf8') = Some t ∧
    t_future t = Finished (Build_ReadExact (Build_Read tt buf8') buf8' 8) (Ok tt) ∧
    t_device t = (t_origin t).2 ∧ mem_read (in_memory (t_device t)) 200 8 = replicate 8 x00) ∧
  (∃ t : tconf outbox (WriteAll unit),
    transfer_exec (IoFuture0 := write_all_future tt) true 1 2 3 WriteHalf disk (stale buf8') = Some t ∧
    t_future t = Finished (Build_WriteAll (Build_Write tt buf8') buf8' 8) (Ok tt) ∧
    t_device t = (t_origin t).2) ∧
  (∃ t : tconf inbox (ReadExact unit),
    transfer_exec (IoFuture0 := read_exact_future tt) true 1 2 3 ReadHalf peer
      (stale buf5 ++ tstart_pending ++ TReturn :: tcomplete 4) = Some t ∧
    (t_origin t).1 = {| wsa_len := 5; wsa_buf := 200 |} ∧
    t_target t = {| wsa_len := 2 ^ 32 - 3; wsa_buf := 208 |} ∧
    mem_read (in_memory (t_device t)) 208 4 = take 4 (skipn 8 hello) ∧
    in_memory (t_origin t).2 !! 208 = None).
Proof.
  split; [|split].
  - exists (treach (IoFuture0 := read_exact_future tt) ReadHalf peer (stale buf8')).
    split; [apply treach_truns; vm_compute; reflexivity|]. split_and!; vm_compute; reflexivity.
  - exists (treach (IoFuture0 := write_all_future tt) WriteHalf disk (stale buf8')).
    split; [apply treach_truns; vm_compute; reflexivity|]. split_and!; vm_compute; reflexivity.
  - exists (treach (IoFuture0 := read_exact_future tt) ReadHalf peer
      (stale buf5 ++ tstart_pending ++ TReturn :: tcomplete 4)).
    split; [apply treach_truns; vm_compute; reflexivity|]. split_and!; vm_compute; reflexivity.
Qed.

(** A future dropped while its operation is in flight: the drop cancels it and
    waits. *)
Definition cancelled_in_flight : list (tlabel nat) :=
  TNew buf8 :: TPoll 7%nat :: tstart_pending ++ TReturn :: TDrop ::
  (TSystem <$> client_steps 4 ++ LComplete 995 0 :: client_steps 2 ++
               LDispatch :: repeat (LCallback 0) 6 ++ client_steps 1) ++ [TReturn].

Definition creach {D F} `{!Device D} `{!IoFuture F} (hid : half_id) (d : D) (ls : list (clabel nat)) : tconf D F :=
  default (tstart d) (cancelable_exec true 1 2 3 hid d ls).
Definition cruns {D F} `{!Device D} `{!IoFuture F} (hid : half_id) (d : D) (ls : list (clabel nat)) : bool :=
  match cancelable_exec (W := option nat) (F := F) true 1 2 3 hid d ls with Some _ => true | None => false end.
Lemma creach_cruns {D F} `{!Device D} `{!IoFuture F} hid (d : D) ls :
  cruns (F := F) hid d ls = true →
  cancelable_exec (W := option nat) true 1 2 3 hid d ls = Some (creach (F := F) hid d ls).
Proof. unfold cruns, creach. by destruct (cancelable_exec true 1 2 3 hid d ls). Qed.

Definition is_gone {F} (f : holder F) : bool := match f with Gone => true | _ => false end.

Lemma is_gone_true {F} (f : holder F) : is_gone f = true → f = Gone.
Proof. by destruct f. Qed.

Lemma dropped_future_returns_its_buffer_witness :
  let fut := read_exact_future tt in
  let ls := CTransfer <$> cancelled_in_flight in
  let t1 := creach (IoFuture0 := fut) ReadHalf peer ls in
  let t2 := creach (IoFuture0 := fut) ReadHalf peer (ls ++ [CTransfer (TSystem (LRetire 0))]) in
  t_abandoned t1 = true ∧ t_device t2 = t_device t1 ∧ in_flight (kn (t_half t2)) = 0%nat.
Proof.
  intros fut ls t1 t2. split; [vm_compute; reflexivity|].
  apply (dropped_future_returns_its_buffer (IoFuture0 := fut) 1 2 3 ReadHalf true peer
    ls [CTransfer (TSystem (LRetire 0))]).
  - intros _. vm_compute. reflexivity.
  - vm_compute. reflexivity.
  - vm_compute. reflexivity.
  - apply creach_cruns. vm_compute. reflexivity.
  - apply is_gone_true. vm_compute. reflexivity.
  - apply creach_cruns. vm_compute. reflexivity.
Defined.

(** [Cancelable::cancel] before the drop defeats it: the half is not cancellable
    any more, the drop returns at once with the operation in flight, and when
    the operation completes (the cancellation came too late) the system writes
    into the buffer of the future that is gone. *)
Definition cancelled_then_dropped : list (clabel nat) :=
  (CTransfer <$> TNew buf8 :: TPoll 7%nat :: tstart_pending ++ [TReturn]) ++
  CCancel :: (CTransfer ∘ TSystem <$> client_steps 4) ++ CCancelled ::
  (CTransfer <$> TDrop :: (TSystem <$> client_steps 1) ++ [TReturn]).

Theorem cancelled_future_is_written_after_its_drop :
  ∃ t1 t2 : tconf inbox (ReadExact unit),
    cancelable_exec (IoFuture0 := read_exact_future tt) true 1 2 3 ReadHalf peer cancelled_then_dropped = Some t1 ∧
    cancelable_exec (IoFuture0 := read_exact_future tt) true 1 2 3 ReadHalf peer
      (cancelled_then_dropped ++ [CTransfer (TSystem (LComplete 0 8))]) = Some t2 ∧
    t_future t1 = Gone ∧ in_flight (kn (t_half t1)) = 1%nat ∧
    mem_read (in_memory (t_device t1)) 100 8 = replicate 8 x00 ∧
    mem_read (in_memory (t_device t2)) 100 8 = take 8 hello.
Proof.
  eexists (creach (IoFuture0 := read_exact_future tt) ReadHalf peer cancelled_then_dropped),
    (creach (IoFuture0 := read_exact_future tt) ReadHalf peer _).
  split_and!; [apply creach_cruns; vm_compute; reflexivity|apply creach_cruns; vm_compute; reflexivity|..];
    vm_compute; reflexivity.
Qed.
