(* ===== verification/Duplex.v ===== *)
(** * Both directions of a stream at once

    [ReadHalf] and [WriteHalf] (src/src/net/tcp/split.rs) let two tasks use
    one stream: one reads while the other one writes.  [Transfer] puts a
    future on top of one half of the [IoHandle]; this file puts a future on
    each half of a whole one ([HandleSys]): they share the handle, its
    completion port and the memory of the program.

    The stream outlives the futures that borrow it, so its drop has no part
    here ([HandleDrop] has it). *)

From S2P Require Import Prelude Prog Extern Win32 Socket.
From S2P Require Import IoState IoCells IoHandle IoHandleSys HandleSys HandleDuplex.
From S2P Require Import IoBuf Read Write Transfer.
From Stdlib Require Import Strings.Byte.

(** ** State *)

(** The memory, what the peer sends and what it has been sent. *)
Record wire := { shared_memory : memory; incoming : list byte; outgoing : list byte }.

Definition inbox_of (w : wire) : inbox := {| in_memory := shared_memory w; in_bytes := incoming w |}.
Definition outbox_of (w : wire) : outbox := {| out_memory := shared_memory w; out_bytes := outgoing w |}.

(** One direction of the stream, as in [Transfer.tconfig]; what the last
    future was made with, and the data at that moment. *)
Record side (D F : Type) := {
  s_target : WSABUF;
  s_future : holder F;
  s_origin : WSABUF * D;
  s_abandoned : bool;
}.
Arguments s_target {D F} _.
Arguments s_future {D F} _.
Arguments s_origin {D F} _.
Arguments s_abandoned {D F} _.
Arguments Build_side {D F} _ _ _ _.

(** ** One direction *)

Section side.
Context {W waker D F : Type} `{!AtomicWaker W waker} `{!Device D} `{!IoFuture F}.
Context (posts : bool) (handle ptp_io : Z) (ovs : half_id → Z) (h : half_id).
Abbreviation hconfig := (hconfig W waker).
Abbreviation side := (side D F).
Abbreviation step := (handle_step posts (λ _, waits (waker := waker)) handle ptp_io ovs).

Definition with_holder (f : holder F) (s : side) : side :=
  Build_side (s_target s) f (s_origin s) (s_abandoned s).
Definition with_target (target : WSABUF) (s : side) : side :=
  Build_side target (s_future s) (s_origin s) (s_abandoned s).

(** The buffer of the call the client of the half is about to make. *)
Definition hcalled (c : hconfig) : option WSABUF :=
  match hclient_next c h with Some (On _ a) => buffer_of (Some a) | _ => None end.

(** What a move of the handle does to the data of this direction. *)
Definition heard (l : hlabel waker) : option (label waker) :=
  match l with
  | HClient h' a => if decide (h = h') then Some (LClient a) else None
  | HComplete h' e n => if decide (h = h') then Some (LComplete e n) else None
  | _ => None
  end.

Definition side_moves (l : hlabel waker) (c : hconfig) (d : D) (s : side) : option (D * side) :=
  match heard l with
  | Some l => '(d, target) ← moves_data l (hcalled c) d (s_target s); Some (d, with_target target s)
  | None => Some (d, s)
  end.

(** The steps of the future, as in [Transfer.transfer_step]. *)
Definition side_poll (w : waker) (f : F) (c : hconfig) (s : side) : option (hconfig * side) :=
  c ← step (HBegin h (OpPoll w (polls_with f))) c; Some (c, with_holder (Polling f) s).

Definition side_drop (f : F) (abandoned : bool) (c : hconfig) (s : side) : option (hconfig * side) :=
  c ← step (HBegin h (OpCancel true)) c;
  Some (c, Build_side (s_target s) (Dropping f) (s_origin s) abandoned).

Definition side_step (l : tlabel waker) (c : hconfig) (d : D) (s : side) : option (hconfig * side) :=
  match l with
  | TNew buf =>
      match s_future s with
      | Gone =>
          if decide (0 ≤ wsa_len buf < 2 ^ 32) then
            Some (c, Build_side (s_target s) (Held (made_with buf)) (buf, d) (s_abandoned s))
          else None
      | _ => None
      end
  | TPoll w => match s_future s with Held f => side_poll w f c s | _ => None end
  | TReturn =>
      match s_future s, clients c h with
      | Polling f, HRunning (OpPoll w _) (Ret (RPoll p)) =>
          c ← step (HReturn h) c;
          match resume f p with
          | inl f => side_poll w f c s
          | inr (f, Ready r) => Some (c, with_holder (Finished f r) s)
          | inr (f, Pending) => Some (c, with_holder (Held f) s)
          end
      | Dropping f, HRunning (OpCancel _) (Ret (RCancel r)) =>
          c ← step (HReturn h) c;
          Some (c, with_holder (match dropped r with inl _ => Gone | inr e => Panicking e end) s)
      | _, _ => None
      end
  | TDrop =>
      match s_future s with
      | Held f => side_drop f true c s
      | Finished f _ => side_drop f (s_abandoned s) c s
      | _ => None
      end
  | TSystem _ | TOther _ _ => None
  end.

(** [n] bytes at [a] do not belong to the buffer that is lent. *)
Definition keeps_off (s : side) (a : Z) (n : nat) : bool :=
  implb (borrowed (s_future s)) (apart (s_origin s).1 a n).

(** A direction no future has used yet. *)
Definition side_start (d : D) : side :=
  Build_side {| wsa_len := 0; wsa_buf := 0 |} Gone ({| wsa_len := 0; wsa_buf := 0 |}, d) false.
End side.

(** ** Both directions *)

Inductive dlabel (waker : Type) :=
| DRead (l : tlabel waker)              (* the future that reads moves *)
| DWrite (l : tlabel waker)             (* the one that writes *)
| DSystem (l : hlabel waker)            (* the handle, the system and the callbacks *)
| DOther (a : Z) (bs : list byte).      (* the rest of the program writes *)
Arguments DRead {waker} _.
Arguments DWrite {waker} _.
Arguments DSystem {waker} _.
Arguments DOther {waker} _ _.

Definition hinternal {waker} (l : hlabel waker) : bool :=
  match l with HBegin _ _ | HReturn _ | HDrop | HDropper _ => false | _ => true end.

Record dconfig (W waker Fr Fw : Type) := {
  d_handle : hconfig W waker;
  d_wire : wire;
  d_read : side inbox Fr;
  d_write : side outbox Fw;
}.
Arguments d_handle {W waker Fr Fw} _.
Arguments d_wire {W waker Fr Fw} _.
Arguments d_read {W waker Fr Fw} _.
Arguments d_write {W waker Fr Fw} _.
Arguments Build_dconfig {W waker Fr Fw} _ _ _ _.

Section duplex.
Context {W waker Fr Fw : Type} `{!AtomicWaker W waker} `{!IoFuture Fr} `{!IoFuture Fw}.
Context (posts : bool) (handle ptp_io : Z) (ovs : half_id → Z).
Abbreviation dconfig := (dconfig W waker Fr Fw).
Abbreviation step := (handle_step posts (λ _, waits (waker := waker)) handle ptp_io ovs).

(** The buffers that are lent at the same time are different ones. *)
Definition new_apart {D F} (l : tlabel waker) (other : side D F) : bool :=
  match l with TNew buf => keeps_off other (wsa_buf buf) (Z.to_nat (wsa_len buf)) | _ => true end.

Definition duplex_step (l : dlabel waker) (t : dconfig) : option dconfig :=
  match l with
  | DRead l =>
      if new_apart l (d_write t) then
        '(c, s) ← side_step posts handle ptp_io ovs ReadHalf l (d_handle t) (inbox_of (d_wire t)) (d_read t);
        Some (Build_dconfig c (d_wire t) s (d_write t))
      else None
  | DWrite l =>
      if new_apart l (d_read t) then
        '(c, s) ← side_step posts handle ptp_io ovs WriteHalf l (d_handle t) (outbox_of (d_wire t)) (d_write t);
        Some (Build_dconfig c (d_wire t) (d_read t) s)
      else None
  | DSystem l =>
      if hinternal l then
        '(i, r) ← side_moves ReadHalf l (d_handle t) (inbox_of (d_wire t)) (d_read t);
        '(o, w) ← side_moves WriteHalf l (d_handle t) (outbox_of (d_wire t)) (d_write t);
        c ← step l (d_handle t);
        Some (Build_dconfig c
                {| shared_memory := in_memory i; incoming := in_bytes i; outgoing := out_bytes o |} r w)
      else None
  | DOther a bs =>
      if keeps_off (d_read t) a (length bs) && keeps_off (d_write t) a (length bs) then
        let w := d_wire t in
        Some (Build_dconfig (d_handle t)
                {| shared_memory := mem_write (shared_memory w) a bs; incoming := incoming w; outgoing := outgoing w |}
                (d_read t) (d_write t))
      else None
  end.

Definition duplex_start (w : wire) : dconfig :=
  Build_dconfig hstart w (side_start (inbox_of w)) (side_start (outbox_of w)).

#[export] Instance duplex_lts (w : wire) : LTS (dlabel waker) dconfig := {
  linit := duplex_start w;
  lstep := duplex_step;
}.

Definition duplex_exec (w : wire) (ls : list (dlabel waker)) : option dconfig :=
  exec (H := duplex_lts w) ls (duplex_start w).
End duplex.
