(* ===== verification/DuplexThm.v ===== *)
(** * What the two directions of a stream guarantee each other

    Every run of the two futures on one handle is, for each direction, a run
    of [Transfer] on its half, in which the bytes that the other direction
    receives are writes of the rest of the program. *)

From Stdlib Require Import FunctionalExtensionality.
From S2P Require Import Prelude Prog Extern Win32 Socket.
From S2P Require Import IoState IoCells IoHandle IoHandleSys HandleSys HandleRef HandleDuplex.
From S2P Require Import IoBuf Read Write Transfer TransferThm TransferTcp Duplex.
From Stdlib Require Import Strings.Byte.

(** ** A handle whose clients wait for their cancellations *)

Section handle.
Context {W waker : Type} `{!AtomicWaker W waker}.
Context (posts : bool) (handle ptp_io : Z) (ovs : half_id → Z) (Hovs : Inj (=) (=) ovs).
Abbreviation hstep := (handle_step posts (λ _, waits (waker := waker)) handle ptp_io ovs).
Abbreviation hinv := (handle_inv handle ptp_io ovs).
Implicit Types (c : hconfig W waker) (d : config W waker) (h : half_id) (g : @ghost waker).

Definition wait_lts h : LTS (label waker) (config W waker) := half_lts posts waits handle ptp_io (ovs h) h.

Lemma the_half_waits h : the_half_lts posts (λ _, waits) handle ptp_io ovs h = wait_lts h.
Proof.
  unfold the_half_lts, wait_lts. f_equal. apply functional_extensionality.
  by intros [w buf|[]].
Qed.

(** A handle that is not being dropped. *)
Definition alive c g : Prop := hinv c g ∧ g_drop g = None.

Lemma alive_step l c g c' :
  alive c g → l ≠ HDrop → hstep l c = Some c' →
  ∃ g', alive c' g' ∧ ∀ h d, shows ovs h c g d →
    ∃ ls d', mirrors l h ls ∧ exec (H := wait_lts h) ls d = Some d' ∧ shows ovs h c' g' d'.
Proof.
  intros [Hinv Hd] Hl Hstep.
  destruct (follow_step posts _ handle ptp_io ovs Hovs l c g c' Hinv Hstep) as (g' & Hinv' & Hm).
  exists g'. split.
  - split; [done|]. pose proof (hi_dropper _ _ _ _ _ Hinv) as Hc. pose proof (hi_dropper _ _ _ _ _ Hinv') as Hc'.
    rewrite Hd in Hc. destruct (g_drop g') as [ph|]; [|done]. exfalso.
    destruct l as [h op|h a|h|h e t| |i|i| |a]; simpl in Hstep; rewrite ?Hc in Hstep; simpl in Hstep; try done;
      repeat (case_match; simplify_eq/=; try congruence).
    all: first [destruct (tstep _ _ _ _) as [[]|]; simplify_eq/=; congruence
               |destruct (complete_op _ _ _); simplify_eq/=; congruence
               |destruct (hcallbacks c !! i); simplify_eq/=;
                destruct (tstep _ _ _ _) as [[]|]; simplify_eq/=; congruence].
  - intros h d Hs. destruct (Hm h d Hs) as (ls & d' & (Hex & _ & Hmi) & Hs').
    rewrite the_half_waits in Hex. by exists ls, d'.
Qed.

(** A move of one half is no move of the other. *)
Lemma alive_told l h x c g c' :
  alive c g → l ≠ HDrop → hstep l c = Some c' → (∀ h' ls, mirrors l h' ls → ls = tell h' h x) →
  ∃ g', alive c' g' ∧
    (∀ d, shows ovs h c g d → ∃ d', half_step posts waits handle ptp_io (ovs h) h x d = Some d' ∧ shows ovs h c' g' d') ∧
    ∀ h' d, h' ≠ h → shows ovs h' c g d → shows ovs h' c' g' d.
Proof.
  intros Ha Hl Hstep Htell. destruct (alive_step l c g c' Ha Hl Hstep) as (g' & Ha' & Hm).
  exists g'. split; [done|]. split.
  - intros d Hs. destruct (Hm h d Hs) as (ls & d' & Hmi & Hex & Hs'). apply Htell in Hmi as ->.
    unfold tell in Hex. rewrite decide_True in Hex by done. cbn [exec] in Hex.
    change (lstep x d) with (half_step posts waits handle ptp_io (ovs h) h x d) in Hex.
    destruct (half_step _ _ _ _ _ _ x d) as [d1|]; simplify_eq/=. by exists d'.
  - intros h' d Hne Hs. destruct (Hm h' d Hs) as (ls & d' & Hmi & Hex & Hs'). apply Htell in Hmi as ->.
    unfold tell in Hex. rewrite decide_False in Hex by done. by simplify_eq/=.
Qed.

(** What the clients of the half and of the handle are about to call. *)
Lemma hcalled_shows c g d h : alive c g → shows ovs h c g d → hcalled h c = called d.
Proof.
  intros [[_ Hcl _ _ _] Hd] [_ _ Hx]. rewrite Hd in Hx. destruct Hx as [Hw _].
  unfold hcalled, called, hclient_next, client_next. rewrite Hcl, Hw.
  destruct (g_clients g h) as [|op p]; [done|]. simpl. rewrite next_on. by destruct (next_act p).
Qed.

(** The client of the half, when the one of the handle is to return. *)
Lemma shows_return c g d h op r :
  alive c g → shows ovs h c g d → clients c h = HRunning op (Ret r) → who d = Running op (Ret r).
Proof.
  intros [[_ Hcl _ _ _] Hd] [_ _ Hx] Hc. rewrite Hd in Hx. destruct Hx as [-> _].
  rewrite Hcl in Hc. destruct (g_clients g h) as [|op' [r'| | |]]; by simplify_eq/=.
Qed.
End handle.

(** ** One direction is a transfer *)

Section side.
Context {W waker D F : Type} `{!AtomicWaker W waker} `{!Device D} `{!IoFuture F}.
Context (posts : bool) (handle ptp_io : Z) (ovs : half_id → Z) (Hovs : Inj (=) (=) ovs) (h : half_id).
Abbreviation hstep := (handle_step posts (λ _, waits (waker := waker)) handle ptp_io ovs).
Abbreviation tstep_of := (transfer_step posts handle ptp_io (ovs h) h).
Abbreviation alive := (alive handle ptp_io ovs).
Implicit Types (c : hconfig W waker) (d : config W waker) (dv : D) (s : side D F) (t : tconfig W waker D F) (g : @ghost waker).

(** [d'] is [d] with what the rest of the program wrote elsewhere. *)
Definition elsewhere (buf : WSABUF) : D → D → Prop :=
  rtc (λ x y : D, ∃ a bs, apart buf a (length bs) = true ∧ y = outside a bs x).

(** [t] is this direction of the stream. *)
Definition tracks c g dv s t : Prop :=
  ∃ d o, t = Build_tconfig d dv (s_target s) (s_future s) ((s_origin s).1, o) (s_abandoned s) ∧
    shows ovs h c g d ∧ (borrowed (s_future s) = true → elsewhere (s_origin s).1 (s_origin s).2 o).

(** Where a step of the future leads. *)
Definition tracked l c g dv c' s' t : Prop :=
  ∃ t' g', tstep_of l t = Some t' ∧ alive c' g' ∧ tracks c' g' dv s' t' ∧
    ∀ h' d, h' ≠ h → shows ovs h' c g d → shows ovs h' c' g' d.

Lemma begin_told op c g c' :
  alive c g → hstep (HBegin h op) c = Some c' →
  ∃ g', alive c' g' ∧
    (∀ d, shows ovs h c g d → ∃ d', half_step posts waits handle ptp_io (ovs h) h (LBegin op) d = Some d' ∧ shows ovs h c' g' d') ∧
    ∀ h' d, h' ≠ h → shows ovs h' c g d → shows ovs h' c' g' d.
Proof. intros Ha Hs. by eapply (alive_told posts handle ptp_io ovs Hovs (HBegin h op)). Qed.

Lemma side_poll_tracks w f c dv s c' s' g t :
  alive c g → tracks c g dv s t → borrowed (s_future s) = true →
  side_poll posts handle ptp_io ovs h w f c s = Some (c', s') →
  ∃ t' g', poll_half posts handle ptp_io (ovs h) h w f t = Some t' ∧ alive c' g' ∧ tracks c' g' dv s' t' ∧
    ∀ h' d, h' ≠ h → shows ovs h' c g d → shows ovs h' c' g' d.
Proof.
  intros Ha (d & o & -> & Hs & Ho) Hb Hstep. unfold side_poll in Hstep.
  destruct (hstep _ c) as [c1|] eqn:Hc; [|done]. injection Hstep as <- <-.
  destruct (begin_told _ c g c1 Ha Hc) as (g' & Ha' & Hm & Hne). destruct (Hm d Hs) as (d' & Hd & Hs').
  unfold poll_half. cbn [t_half]. rewrite Hd. eexists _, g'. split; [reflexivity|]. split; [done|]. split; [|done].
  exists d', o. by specialize (Ho Hb).
Qed.

Lemma side_drop_tracks f ab c dv s c' s' g d o :
  alive c g → shows ovs h c g d → elsewhere (s_origin s).1 (s_origin s).2 o →
  side_drop posts handle ptp_io ovs h f ab c s = Some (c', s') →
  ∃ d' g', half_step posts waits handle ptp_io (ovs h) h (LBegin (OpCancel true)) d = Some d' ∧ alive c' g' ∧
    tracks c' g' dv s' (Build_tconfig d' dv (s_target s) (Dropping f) ((s_origin s).1, o) ab) ∧
    ∀ h' d, h' ≠ h → shows ovs h' c g d → shows ovs h' c' g' d.
Proof.
  intros Ha Hs Ho Hstep. unfold side_drop in Hstep.
  destruct (hstep _ c) as [c1|] eqn:Hc; [|done]. injection Hstep as <- <-.
  destruct (begin_told _ c g c1 Ha Hc) as (g' & Ha' & Hm & Hne). destruct (Hm d Hs) as (d' & Hd & Hs').
  exists d', g'. split; [done|]. split; [done|]. split; [|done]. by exists d', o.
Qed.

Lemma side_step_tracks l c dv s c' s' g t :
  alive c g → tracks c g dv s t → side_step posts handle ptp_io ovs h l c dv s = Some (c', s') →
  tracked l c g dv c' s' t.
Proof.
  intros Ha Htr Hstep. pose proof Htr as (d & o & -> & Hs & Ho). destruct l as [buf|w|l| | |a bs]; cbn [side_step] in Hstep; [| |done| | |done].
  - destruct (s_future s) eqn:Hf; try done. case_decide as Hb; [|done]. injection Hstep as <- <-.
    eexists _, g. cbn [transfer_step t_future]. rewrite decide_True by done. split; [reflexivity|].
    split; [done|]. split; [|done]. exists d, dv. split; [done|]. split; [done|]. intros _. apply rtc_refl.
  - destruct (s_future s) as [|f| | | |] eqn:Hf; try done.
    destruct (side_poll_tracks w f c dv s c' s' g _ Ha Htr ltac:(by rewrite Hf) Hstep) as (t' & g' & Ht & Hr).
    exists t', g'. split; [|done]. exact Ht.
  - destruct (s_future s) as [|f0|f|f0 r0|f|e] eqn:Hf; try done;
      destruct (clients c h) as [|op pr] eqn:Hc; try done; destruct op as [w b|wait], pr as [[p|q]| | |]; try done.
    all: destruct (hstep (HReturn h) c) as [c1|] eqn:Hr; [|done].
    all: destruct (alive_told posts handle ptp_io ovs Hovs (HReturn h) h LReturn c g c1 Ha ltac:(done) Hr ltac:(done))
      as (g1 & Ha1 & Hm & Hne); destruct (Hm d Hs) as (d1 & Hd & Hs1).
    all: pose proof (shows_return handle ptp_io ovs c g d h _ _ Ha Hs Hc) as Hw.
    all: unfold tracked; cbn [transfer_step t_future t_half]; rewrite Hw.
    all: change (half_step posts waits handle ptp_io (ovs h) h LReturn d) with
      (half_step posts waits handle ptp_io (ovs h) h LReturn d) in Hd; rewrite Hd.
    all: cbn [mbind option_bind] in Hstep |- *.
    + destruct (resume f p) as [f'|[f' [r|]]].
      * assert (tracks c1 g1 dv (with_holder (Polling f) s) (with_future
          (Build_tconfig d dv (s_target s) (Polling f) ((s_origin s).1, o) (s_abandoned s)) d1 (Polling f))) as Htr1
          by (exists d1, o; split; [done|]; split; [done|]; intros _; by apply Ho).
        destruct (side_poll_tracks w f' c1 dv (with_holder (Polling f) s) c' s' g1 _ Ha1 Htr1 eq_refl) as (t' & g' & Ht & Ha' & Htr' & Hne').
        { exact Hstep. }
        exists t', g'. split; [exact Ht|]. split; [done|]. split; [done|]. eauto.
      * injection Hstep as <- <-. eexists _, g1. split; [reflexivity|]. split; [done|]. split; [|done].
        exists d1, o. split; [done|]. split; [done|]. intros _. by apply Ho.
      * injection Hstep as <- <-. eexists _, g1. split; [reflexivity|]. split; [done|]. split; [|done].
        exists d1, o. split; [done|]. split; [done|]. intros _. by apply Ho.
    + injection Hstep as <- <-. eexists _, g1. split; [reflexivity|]. split; [done|]. split; [|done].
      exists d1, o. split; [done|]. split; [done|]. intros _. by apply Ho.
  - destruct (s_future s) as [|f|f|f r|f|e] eqn:Hf; try done;
      destruct (side_drop_tracks f _ c dv s c' s' g d o Ha Hs (Ho eq_refl) Hstep) as (d' & g' & Hd & Ha' & Htr' & Hne);
      unfold tracked; cbn [transfer_step t_future t_half];
      rewrite Hd; eexists _, g'; (split; [reflexivity|done]).
Qed.

(** The handle, the system and the callbacks. *)
Lemma side_system_tracks l c dv s dv' s' c' g g' t :
  alive c g → hinternal l = true → side_moves h l c dv s = Some (dv', s') →
  (∀ d, shows ovs h c g d → ∃ ls d', mirrors l h ls ∧
     exec (H := wait_lts posts handle ptp_io ovs h) ls d = Some d' ∧ shows ovs h c' g' d') →
  tracks c g dv s t →
  ∃ t', (t = t' ∨ ∃ x, tstep_of (TSystem x) t = Some t') ∧ tracks c' g' dv' s' t'.
Proof.
  intros Ha Hl Hmv Hm (d & o & -> & Hs & Ho). destruct (Hm d Hs) as (ls & d' & Hmi & Hex & Hs').
  pose proof (hcalled_shows handle ptp_io ovs c g d h Ha Hs) as Hcall.
  assert (∀ x, ls = [x] → internal x = true →
    (dv' = dv ∧ s' = s ∧ moves x d dv (s_target s) = Some (dv, s_target s) ∨
     ∃ target, moves x d dv (s_target s) = Some (dv', target) ∧ s' = with_target target s) →
    ∃ t', (Build_tconfig d dv (s_target s) (s_future s) ((s_origin s).1, o) (s_abandoned s) = t' ∨
      ∃ x, tstep_of (TSystem x) (Build_tconfig d dv (s_target s) (s_future s) ((s_origin s).1, o) (s_abandoned s)) = Some t') ∧
      tracks c' g' dv' s' t') as Hgo.
  { intros x -> Hi Hx. cbn [exec] in Hex.
    change (lstep x d) with (half_step posts waits handle ptp_io (ovs h) h x d) in Hex.
    destruct (half_step _ _ _ _ _ _ x d) as [d1|] eqn:Hd1; simplify_eq/=.
    destruct Hx as [(-> & -> & Hx)|(target & Hx & ->)].
    all: eexists; split; [right; exists x; rewrite Hi, Hx; cbn [mbind option_bind]; rewrite Hd1; reflexivity|].
    all: by exists d', o. }
  assert (ls = [] → dv' = dv → s' = s → ∃ t', (Build_tconfig d dv (s_target s) (s_future s) ((s_origin s).1, o) (s_abandoned s) = t' ∨
      ∃ x, tstep_of (TSystem x) (Build_tconfig d dv (s_target s) (s_future s) ((s_origin s).1, o) (s_abandoned s)) = Some t') ∧
      tracks c' g' dv' s' t') as Hno.
  { intros -> -> ->. simplify_eq/=. eexists. split; [by left|]. by exists d', o. }
  unfold side_moves in Hmv.
  assert (∀ h' x, ls = tell h h' x → internal x = true → heard h l = (if decide (h = h') then Some x else None) →
    ∃ t', (Build_tconfig d dv (s_target s) (s_future s) ((s_origin s).1, o) (s_abandoned s) = t' ∨
      ∃ x, tstep_of (TSystem x) (Build_tconfig d dv (s_target s) (s_future s) ((s_origin s).1, o) (s_abandoned s)) = Some t') ∧
      tracks c' g' dv' s' t') as Htell.
  { intros h' x Hls Hi Hh. unfold tell in Hls. rewrite Hh in Hmv. destruct (decide (h = h')) as [->|]; [|simplify_eq; by apply Hno].
    rewrite Hcall in Hmv. destruct (moves_data x (called d) dv (s_target s)) as [[dv1 target]|] eqn:Hmd; simplify_eq/=.
    apply (Hgo x eq_refl Hi). right. by exists target. }
  destruct l as [h' op|h' a|h'|h' e n| |i|i| |a]; try done; simpl in Hmi, Hmv.
  - by apply (Htell h' (LClient a)).
  - by apply (Htell h' (LComplete e n)).
  - simplify_eq. destruct Hmi as [->| ->]; [by apply Hno|]. apply (Hgo LDispatch); [done..|]. by left.
  - simplify_eq. destruct Hmi as [->|[j ->]]; [by apply Hno|]. apply (Hgo (LCallback j)); [done..|]. by left.
  - simplify_eq. destruct Hmi as [->|[j ->]]; [by apply Hno|]. apply (Hgo (LRetire j)); [done..|]. by left.
Qed.

(** The rest of the program. *)
Lemma side_other_tracks a bs c dv s g t :
  tracks c g dv s t → keeps_off s a (length bs) = true →
  ∃ t', tstep_of (TOther a bs) t = Some t' ∧ tracks c g (outside a bs dv) s t'.
Proof.
  intros (d & o & -> & Hs & Ho) Hk. unfold keeps_off in Hk. cbn [transfer_step t_future t_origin fst].
  rewrite Hk. eexists. split; [reflexivity|]. exists d, (outside a bs o). split; [done|]. split; [done|].
  intros Hb. rewrite Hb in Hk. eapply rtc_r; [by apply Ho|]. by exists a, bs.
Qed.
End side.

(** ** Both directions *)

Section both.
Context {W waker Fr Fw : Type} `{!AtomicWaker W waker} `{HR : IoFutureLaws Fr} `{HW : IoFutureLaws Fw}.
Context (handle ptp_io : Z) (ovs : half_id → Z) (Hovs : Inj (=) (=) ovs) (w0 : wire).
Abbreviation dconfig := (dconfig W waker Fr Fw).
Abbreviation dstep := (duplex_step false handle ptp_io ovs).
Abbreviation alive := (alive handle ptp_io ovs).
Implicit Types (t : dconfig) (g : @ghost waker).

(** A run of [Transfer] on a half. *)
Definition is_transfer {D F} `{!Device D} `{!IoFuture F} (h : half_id) (d0 : D) (x : tconfig W waker D F) : Prop :=
  ∃ ls, transfer_exec false handle ptp_io (ovs h) h d0 ls = Some x.

Lemma is_transfer_step {D F} `{!Device D} `{!IoFuture F} h (d0 : D) l (x y : tconfig W waker D F) :
  is_transfer h d0 x → transfer_step false handle ptp_io (ovs h) h l x = Some y → is_transfer h d0 y.
Proof.
  intros [ls Hex] Hl. exists (ls ++ [l]). unfold transfer_exec in *. rewrite exec_app, Hex.
  cbn [mbind option_bind exec]. change (lstep l x) with (transfer_step false handle ptp_io (ovs h) h l x).
  by rewrite Hl.
Qed.

Definition reads t g : Prop := ∃ x : tconfig W waker inbox Fr,
  is_transfer ReadHalf (inbox_of w0) x ∧ tracks ovs ReadHalf (d_handle t) g (inbox_of (d_wire t)) (d_read t) x.
Definition writes_too t g : Prop := ∃ x : tconfig W waker outbox Fw,
  is_transfer WriteHalf (outbox_of w0) x ∧ tracks ovs WriteHalf (d_handle t) g (outbox_of (d_wire t)) (d_write t) x.

(** The two buffers that are lent do not overlap. *)
Definition lent_apart t : Prop :=
  borrowed (s_future (d_read t)) = true → borrowed (s_future (d_write t)) = true →
  let r := (s_origin (d_read t)).1 in let w := (s_origin (d_write t)).1 in
  wsa_buf r + wsa_len r ≤ wsa_buf w ∨ wsa_buf w + wsa_len w ≤ wsa_buf r.

Definition duplex_inv t : Prop :=
  ∃ g, alive (d_handle t) g ∧ lent_apart t ∧ reads t g ∧ (s_abandoned (d_read t) = false → writes_too t g).

Lemma duplex_inv_start : duplex_inv (duplex_start w0).
Proof.
  exists {| g_callbacks := []; g_clients := λ _, Idle; g_drop := None |}.
  split_and!; [split; [by constructor|done]|done| |intros _].
  all: eexists; split; [by exists []|]; eexists start, _; split; [reflexivity|]; split; [|done]; by constructor.
Qed.

(** What a step of a future leaves as it is. *)
Lemma side_step_keeps {D F} `{!Device D} `{!IoFuture F} h l c (d : D) (s : side D F) c' s' :
  side_step (W := W) (waker := waker) false handle ptp_io ovs h l c d s = Some (c', s') →
  (s_abandoned s' = false → s_abandoned s = false) ∧
  match l with
  | TNew buf => (s_origin s').1 = buf ∧ 0 ≤ wsa_len buf
  | _ => s_origin s' = s_origin s ∧ (borrowed (s_future s') = true → borrowed (s_future s) = true)
  end.
Proof.
  intros Hstep. destruct l as [buf|w|l| | |a bs]; cbn [side_step] in Hstep; try done.
  - destruct (s_future s); try done. case_decide; [|done]. injection Hstep as <- <-. naive_solver.
  - destruct (s_future s); try done. unfold side_poll in Hstep. destruct (handle_step _ _ _ _ _ _ c); by simplify_eq/=.
  - destruct (s_future s) as [|f0|f|f0 r0|f|e] eqn:Hf, (clients c h) as [|op pr]; try done;
      destruct op as [w b|wait], pr as [[p|q]| | |]; try done;
      (destruct (handle_step _ _ _ _ _ (HReturn h) c) as [c1|]; [|done]); cbn [mbind option_bind] in Hstep.
    + destruct (resume f p) as [f'|[f' [r|]]]; [|by simplify_eq/=..].
      unfold side_poll in Hstep. destruct (handle_step _ _ _ _ _ _ c1); by simplify_eq/=.
    + by simplify_eq/=.
  - destruct (s_future s); try done; unfold side_drop in Hstep; destruct (handle_step _ _ _ _ _ _ c); by simplify_eq/=.
Qed.

Lemma tracks_other {D F} `{!Device D} h c g c' g' (d : D) (s : side D F) (x : tconfig W waker D F) :
  tracks ovs h c g d s x → (∀ d, shows ovs h c g d → shows ovs h c' g' d) → tracks ovs h c' g' d s x.
Proof. intros (d' & o & -> & Hs & Ho) Hsh. exists d', o. eauto. Qed.

Lemma read_step l t t' : duplex_inv t → dstep (DRead l) t = Some t' → duplex_inv t'.
Proof.
  intros (g & Ha & Hl & (x & Hx & Htr) & Hw) Hstep. cbn [duplex_step] in Hstep.
  destruct (new_apart l (d_write t)) eqn:Hn; [|done].
  destruct (side_step _ _ _ _ _ _ _ _ _) as [[c' s']|] eqn:Hs; [|done]. injection Hstep as <-.
  destruct (side_step_tracks false handle ptp_io ovs Hovs ReadHalf _ _ _ _ _ _ _ _ Ha Htr Hs) as (x' & g' & Hx' & Ha' & Htr' & Hne).
  destruct (side_step_keeps _ _ _ _ _ _ _ Hs) as [Hab Ho].
  exists g'. split; [done|]. split; [|split].
  - unfold lent_apart in *. cbn [d_read d_write]. destruct l as [buf|w|l| | |a bs]; [|destruct Ho as [-> Ho]; by eauto..].
    destruct Ho as [-> Hlen]. intros _ Hbw. simpl in Hn. unfold keeps_off in Hn. rewrite Hbw in Hn.
    apply apart_spec in Hn. rewrite Z2Nat.id in Hn by done. done.
  - exists x'. split; [|done]. by eapply is_transfer_step.
  - intros Hab'. destruct (Hw (Hab Hab')) as (y & Hy & Hty). exists y. split; [done|].
    eapply tracks_other; [done|]. intros d. by apply Hne.
Qed.

(** A half can always be seen as the half of a transfer. *)
Lemma tracks_exists {D F} `{!Device D} h c g (d : D) (s : side D F) :
  g_drop g = None → ∃ x : tconfig W waker D F, tracks ovs h c g d s x.
Proof.
  intros Hd. eexists.
  exists (Build_config (half_view ovs h (st c)).1 (half_view ovs h (st c)).2 (g_clients g h)
    (at_key h (g_callbacks g)) (hhistory c h)), (s_origin s).2.
  split; [reflexivity|]. split; [constructor; [done..|by rewrite Hd]|]. intros _. apply rtc_refl.
Qed.

Lemma writes_tracked t g :
  g_drop g = None → (s_abandoned (d_read t) = false → writes_too t g) →
  ∃ x : tconfig W waker outbox Fw,
    tracks ovs WriteHalf (d_handle t) g (outbox_of (d_wire t)) (d_write t) x ∧
    (s_abandoned (d_read t) = false → is_transfer WriteHalf (outbox_of w0) x).
Proof.
  intros Hd Hw. destruct (s_abandoned (d_read t)).
  - destruct (tracks_exists WriteHalf (d_handle t) g (outbox_of (d_wire t)) (d_write t) Hd) as [x Hx]. by exists x.
  - destruct (Hw eq_refl) as (x & ? & ?). by exists x.
Qed.

Lemma write_step l t t' : duplex_inv t → dstep (DWrite l) t = Some t' → duplex_inv t'.
Proof.
  intros (g & Ha & Hl & (x & Hx & Htr) & Hw) Hstep. cbn [duplex_step] in Hstep.
  destruct (new_apart l (d_read t)) eqn:Hn; [|done].
  destruct (side_step _ _ _ _ _ _ _ _ _) as [[c' s']|] eqn:Hs; [|done]. injection Hstep as <-.
  destruct (side_step_keeps _ _ _ _ _ _ _ Hs) as [_ Ho].
  destruct (writes_tracked t g (proj2 Ha) Hw) as (y & Hty & Hy).
  destruct (side_step_tracks false handle ptp_io ovs Hovs WriteHalf _ _ _ _ _ _ _ _ Ha Hty Hs) as (y' & g' & Hy' & Ha' & Hty' & Hne).
  exists g'. split; [done|]. split; [|split].
  - unfold lent_apart in *. cbn [d_read d_write]. destruct l as [buf|w|l| | |a bs]; [|destruct Ho as [-> Ho]; by eauto..].
    destruct Ho as [-> Hlen]. intros Hbr _. simpl in Hn. unfold keeps_off in Hn. rewrite Hbr in Hn.
    apply apart_spec in Hn. rewrite Z2Nat.id in Hn by done. lia.
  - exists x. split; [done|]. eapply tracks_other; [done|]. intros d. by apply Hne.
  - intros Hab. exists y'. split; [|done]. eapply is_transfer_step; [by apply Hy|done].
Qed.

Lemma other_step_inv a bs t t' : duplex_inv t → dstep (DOther a bs) t = Some t' → duplex_inv t'.
Proof.
  intros (g & Ha & Hl & (x & Hx & Htr) & Hw) Hstep. cbn [duplex_step] in Hstep.
  destruct (keeps_off (d_read t) a _) eqn:Hr; [|done]. destruct (keeps_off (d_write t) a _) eqn:Hk; [|done].
  injection Hstep as <-. exists g. split_and!; [done|done| |intros Hab].
  - destruct (side_other_tracks false handle ptp_io ovs ReadHalf a bs _ _ _ _ _ Htr Hr) as (x' & Hx' & Htr').
    exists x'. split; [by eapply is_transfer_step|exact Htr'].
  - destruct (Hw Hab) as (y & Hy & Hty).
    destruct (side_other_tracks false handle ptp_io ovs WriteHalf a bs _ _ _ _ _ Hty Hk) as (y' & Hy' & Hty').
    exists y'. split; [by eapply is_transfer_step|exact Hty'].
Qed.

(** What is received. *)
Lemma received_len l c (i i' : inbox) (s s' : side inbox Fr) :
  side_moves (W := W) (waker := waker) ReadHalf l c i s = Some (i', s') →
  (length (in_bytes i') ≤ length (in_bytes i))%nat ∧
  s_origin s' = s_origin s ∧ s_future s' = s_future s ∧ s_abandoned s' = s_abandoned s.
Proof.
  unfold side_moves. destruct (heard ReadHalf l) as [x|]; [|by intros [= <- <-]].
  unfold moves_data, transfer, inbox_device, receive. intros Hm.
  repeat (case_match; simplify_eq/=); try done; rewrite ?length_drop; split_and!; try done; lia.
Qed.

Lemma sent_memory l c (o o' : outbox) (s s' : side outbox Fw) :
  side_moves (W := W) (waker := waker) WriteHalf l c o s = Some (o', s') →
  out_memory o' = out_memory o ∧ s_origin s' = s_origin s ∧ s_future s' = s_future s.
Proof.
  unfold side_moves. destruct (heard WriteHalf l) as [x|]; [|by intros [= <- <-]].
  unfold moves_data, transfer, outbox_device, send. intros Hm.
  repeat (case_match; simplify_eq/=); done.
Qed.
(** It goes to the buffer that is lent. *)
Definition in_buffer (buf : WSABUF) (a : Z) (n : nat) : Prop :=
  wsa_buf buf ≤ a ∧ a + Z.of_nat n ≤ wsa_buf buf + wsa_len buf.

Lemma received_where l (x x' : tconfig W waker inbox Fr) :
  is_transfer ReadHalf (inbox_of w0) x → t_abandoned x = false →
  transfer_step false handle ptp_io (ovs ReadHalf) ReadHalf (TSystem l) x = Some x' →
  (length (in_bytes (t_device x')) ≤ length (in_bytes (t_device x)))%nat →
  t_device x' = t_device x ∨ borrowed (t_future x) = true ∧ ∃ a bs,
    in_memory (t_device x') = mem_write (in_memory (t_device x)) a bs ∧ in_buffer (t_origin x).1 a (length bs).
Proof.
  intros [ls Hex] Hab Hstep Hlen.
  pose proof (transfer_exec_inv handle ptp_io (ovs ReadHalf) ReadHalf _ ls x Hex) as Hinv.
  destruct (system_data handle ptp_io (ovs ReadHalf) ReadHalf l x x' Hinv Hab Hstep) as [Ho [Hd|(Hb & n & n' & Hn & Hn')]];
    [by left|]. right. split; [done|].
  apply moved_received in Hn, Hn'. unfold received in Hn, Hn'. rewrite Ho in Hn'.
  destruct (t_origin x) as [buf before]. destruct Hn as (Hn & Hln & Hm & Hi), Hn' as (Hn' & Hln' & Hm' & Hi').
  rewrite Hi, Hi', !length_drop in Hlen. assert (n ≤ n') as Hle by lia.
  exists (wsa_buf buf + n), (take (Z.to_nat (n' - n)) (skipn (Z.to_nat n) (in_bytes before))).
  rewrite length_take, length_drop. split; [|unfold in_buffer; simpl; lia]. rewrite Hm, Hm'.
  rewrite <- (Z2Nat.id n) at 2 by lia.
  replace (Z.to_nat n) with (length (take (Z.to_nat n) (in_bytes before))) at 2 by (rewrite length_take; lia).
  rewrite mem_write_app. f_equal. rewrite Z2Nat.inj_sub by lia.
  rewrite <- (firstn_skipn (Z.to_nat n) (take (Z.to_nat n') _)) at 1.
  rewrite take_take, skipn_firstn_comm, Nat.min_l by lia. done.
Qed.

(** What a move of the handle does to the memory. *)
Lemma system_where l t t' g :
  alive (d_handle t) g → reads t g → s_abandoned (d_read t) = false → dstep (DSystem l) t = Some t' →
  shared_memory (d_wire t') = shared_memory (d_wire t) ∨
  borrowed (s_future (d_read t)) = true ∧ ∃ a bs,
    shared_memory (d_wire t') = mem_write (shared_memory (d_wire t)) a bs ∧
    in_buffer (s_origin (d_read t)).1 a (length bs).
Proof.
  intros Ha (x & Hx & Htr) Hab Hstep. cbn [duplex_step] in Hstep. destruct (hinternal l) eqn:Hl; [|done].
  destruct (side_moves ReadHalf l _ _ _) as [[i r]|] eqn:Hr; [|done].
  destruct (side_moves WriteHalf l _ _ _) as [[o w]|] eqn:Hw; [|done].
  destruct (handle_step _ _ _ _ _ l _) as [c|] eqn:Hc; [|done]. injection Hstep as <-. cbn [d_wire shared_memory].
  destruct (received_len _ _ _ _ _ _ Hr) as (Hlen & _).
  destruct (alive_step false handle ptp_io ovs Hovs l _ g c Ha ltac:(by intros ->) Hc) as (g' & Ha' & Hm).
  destruct (side_system_tracks false handle ptp_io ovs ReadHalf l _ _ _ _ _ c g g' x Ha Hl Hr (Hm ReadHalf) Htr)
    as (x' & Hx' & Htr').
  destruct Htr as (d & q & -> & _ & _), Htr' as (d' & q' & -> & _ & _). cbn in *.
  destruct Hx' as [Heq|[y Hy]].
  - injection Heq as _ <- _ _ _ _ _. by left.
  - destruct (received_where y _ _ Hx Hab Hy Hlen) as [Hd|Hd]; [left|right; exact Hd]. simpl in Hd. by rewrite Hd.
Qed.
Lemma system_step_inv l t t' : duplex_inv t → dstep (DSystem l) t = Some t' → duplex_inv t'.
Proof.
  intros (g & Ha & Hl & Hread & Hwrite) Hstep.
  pose proof (system_where l t t' g Ha Hread) as Hwhere. pose proof Hstep as Hstep'.
  cbn [duplex_step] in Hstep. destruct (hinternal l) eqn:Hi; [|done].
  destruct (side_moves ReadHalf l _ _ _) as [[i r]|] eqn:Hr; [|done].
  destruct (side_moves WriteHalf l _ _ _) as [[o w]|] eqn:Hw; [|done].
  destruct (handle_step _ _ _ _ _ l _) as [c|] eqn:Hc; [|done]. injection Hstep as <-.
  destruct (received_len _ _ _ _ _ _ Hr) as (_ & Hor & Hfr & Habr).
  destruct (sent_memory _ _ _ _ _ _ Hw) as (Hmem & How & Hfw).
  destruct (alive_step false handle ptp_io ovs Hovs l _ g c Ha ltac:(by intros ->) Hc) as (g' & Ha' & Hm).
  exists g'. split; [done|]. split; [|split].
  - unfold lent_apart in *. cbn [d_read d_write]. by rewrite Hor, How, Hfr, Hfw.
  - destruct Hread as (x & Hx & Htr).
    destruct (side_system_tracks false handle ptp_io ovs ReadHalf l _ _ _ _ _ c g g' x Ha Hi Hr (Hm ReadHalf) Htr)
      as (x' & Hx' & Htr').
    exists x'. split; [destruct Hx' as [->|[y Hy]]; [done|by eapply is_transfer_step]|]. by destruct i.
  - cbn [d_read]. intros Hab. rewrite Habr in Hab. destruct (Hwrite Hab) as (y & Hy & Hty).
    destruct (side_system_tracks false handle ptp_io ovs WriteHalf l _ _ _ _ _ c g g' y Ha Hi Hw (Hm WriteHalf) Hty)
      as (y' & Hy' & Hty').
    assert (is_transfer WriteHalf (outbox_of w0) y') as Hyt
      by (destruct Hy' as [->|[z Hz]]; [done|by eapply is_transfer_step]).
    simpl in Hmem. destruct (Hwhere Hab Hstep') as [Hsame|(Hb & a & bs & Hch & Hin)]; cbn [d_wire shared_memory] in *.
    + exists y'. split; [done|]. cbn [d_handle d_wire d_write]. unfold outbox_of. simpl.
      rewrite Hsame. rewrite <- Hmem. by destruct o.
    + assert (keeps_off w a (length bs) = true) as Hk.
      { unfold keeps_off. rewrite Hfw, How. unfold lent_apart in Hl. destruct (borrowed (s_future (d_write t))); [|done].
        specialize (Hl Hb eq_refl). simpl in *. apply apart_spec. unfold in_buffer in Hin. lia. }
      destruct (side_other_tracks false handle ptp_io ovs WriteHalf a bs _ _ _ _ _ Hty' Hk) as (z & Hz & Htz).
      exists z. split; [by eapply is_transfer_step|]. cbn [d_handle d_wire d_write]. unfold outbox_of. simpl.
      rewrite Hch, <- Hmem. exact Htz.
Qed.

Lemma duplex_step_inv l t t' : duplex_inv t → dstep l t = Some t' → duplex_inv t'.
Proof. destruct l; [apply read_step|apply write_step|apply system_step_inv|apply other_step_inv]. Qed.

Lemma duplex_exec_inv ls t : duplex_exec false handle ptp_io ovs w0 ls = Some t → duplex_inv t.
Proof.
  apply (invariant (H := duplex_lts false handle ptp_io ovs w0) duplex_inv);
    [apply duplex_inv_start|intros l s s'; apply duplex_step_inv].
Qed.
End both.

(** ** Completions at once *)

(** The system never answers that an operation completed at once. *)
Definition dpends {waker} (l : dlabel waker) : bool := match l with DSystem l => hpends l | _ => true end.
Definition no_stale_duplex {waker} (posts : bool) (ls : list (dlabel waker)) : Prop :=
  posts = true → forallb dpends ls = true.

Section posts.
Context {W waker Fr Fw : Type} `{!AtomicWaker W waker} `{!IoFuture Fr} `{!IoFuture Fw}.
Context (handle ptp_io : Z) (ovs : half_id → Z).

Lemma side_step_pends {D F} `{!Device D} `{!IoFuture F} h l c (d : D) (s : side D F) :
  side_step (W := W) (waker := waker) true handle ptp_io ovs h l c d s =
  side_step false handle ptp_io ovs h l c d s.
Proof.
  unfold side_step, side_poll, side_drop. destruct l; try done; destruct (s_future s); try done;
    rewrite ?handle_step_pends by done; try done;
    destruct (clients c h) as [|[|] [[]| | |]]; try done; rewrite handle_step_pends by done; try done.
Qed.

Lemma duplex_exec_pends posts w0 (ls : list (dlabel waker)) :
  no_stale_duplex posts ls →
  duplex_exec (W := W) (Fr := Fr) (Fw := Fw) posts handle ptp_io ovs w0 ls =
  duplex_exec false handle ptp_io ovs w0 ls.
Proof.
  destruct posts; [|done]. intros Hls.
  apply (exec_agree (duplex_lts (W := W) true handle ptp_io ovs w0)
    (duplex_lts false handle ptp_io ovs w0) dpends); [|by apply Hls].
  intros l t Hl. change (duplex_step true handle ptp_io ovs l t = duplex_step false handle ptp_io ovs l t).
  destruct l as [l|l|l|a bs]; [| | |done]; unfold duplex_step; rewrite ?side_step_pends; try done.
  destruct (hinternal l); [|done]. destruct (side_moves ReadHalf _ _ _ _) as [[]|]; [|done].
  simpl. destruct (side_moves WriteHalf _ _ _ _) as [[]|]; [|done]. simpl. by rewrite handle_step_pends.
Qed.
End posts.

(** ** The guarantees *)

(** What a future over a stream has done: [P n], that it has moved [n] bytes of
    the [len] it was made for; [flight] operations are in flight. *)
Definition exact {F} (f : holder F) (len : Z) (flight : nat) (P : Z → Prop) : Prop :=
  match f with
  | Held _ | Polling _ => ∃ n, P n
  | Finished _ (Ok _) => P len ∧ flight = 0%nat
  | Finished _ (Err _) => (∃ n, P n) ∧ flight = 0%nat
  | Gone | Dropping _ => flight = 0%nat
  | Panicking _ => False
  end.

Section tcp.
Context {W waker Tr Tw : Type} `{!AtomicWaker W waker}.
Context (ior : Tr) (iow : Tw) (handle ptp_io : Z) (ovs : half_id → Z).
Abbreviation dconfig := (dconfig W waker (ReadExact Tr) (WriteAll Tw)).
Abbreviation dexec := (duplex_exec (IoFuture0 := read_exact_future ior) (IoFuture1 := write_all_future iow)).
Abbreviation dstep := (duplex_step (IoFuture0 := read_exact_future ior) (IoFuture1 := write_all_future iow)).
Implicit Types (t : dconfig).

(** The first [n] bytes the peer had sent when the future that reads was made
    are in its buffer, and the rest is still to come. *)
Definition was_read t (n : Z) : Prop :=
  let '(buf, before) := s_origin (d_read t) in
  0 ≤ n ≤ wsa_len buf ∧ n ≤ Z.of_nat (length (in_bytes before)) ∧
  mem_read (shared_memory (d_wire t)) (wsa_buf buf) (Z.to_nat n) = take (Z.to_nat n) (in_bytes before) ∧
  incoming (d_wire t) = skipn (Z.to_nat n) (in_bytes before).

(** The peer has been sent the first [n] bytes that the buffer of the future
    that writes had when it was made, after what it had been sent before. *)
Definition was_written t (n : Z) : Prop :=
  let '(buf, before) := s_origin (d_write t) in
  0 ≤ n ≤ wsa_len buf ∧
  outgoing (d_wire t) = out_bytes before ++ mem_read (out_memory before) (wsa_buf buf) (Z.to_nat n).

Lemma elsewhere_in buf (x y : inbox) : elsewhere buf x y → in_bytes y = in_bytes x.
Proof. induction 1 as [|x y z (a & bs & _ & ->) _ IH]; done. Qed.

Lemma elsewhere_out buf (x y : outbox) n :
  elsewhere buf x y → 0 ≤ n ≤ wsa_len buf →
  out_bytes y = out_bytes x ∧ mem_read (out_memory y) (wsa_buf buf) (Z.to_nat n) = mem_read (out_memory x) (wsa_buf buf) (Z.to_nat n).
Proof.
  induction 1 as [|x y z (a & bs & Ha%apart_spec & ->) _ IH]; intros Hn; [done|].
  destruct (IH Hn) as [-> ->]. split; [done|]. simpl. apply mem_read_outside. lia.
Qed.

(** The operations in flight on a half of the handle. *)
Definition flying t (h : half_id) : nat := in_flight (s_kernel (st (d_handle t)) h).

Lemma tracks_flight {D F} `{!Device D} h t g (d : D) (s : side D F) (x : tconfig W waker D F) :
  tracks ovs h (d_handle t) g d s x → in_flight (kn (t_half x)) = flying t h.
Proof. intros (d' & o & -> & [Hs _ _] & _). simpl. by injection Hs as _ ->. Qed.

Lemma reads_exactly g t (x : tconfig W waker inbox (ReadExact Tr)) n :
  tracks ovs ReadHalf (d_handle t) g (inbox_of (d_wire t)) (d_read t) x →
  borrowed (s_future (d_read t)) = true → moved x n → was_read t n.
Proof.
  intros (d & o & -> & _ & Ho) Hb Hm%moved_received. specialize (Ho Hb). apply elsewhere_in in Ho.
  unfold received in Hm. unfold was_read. cbn in *. destruct (s_origin (d_read t)) as [buf before]. simpl in *.
  destruct Hm as (Hn & Hl & Hm & Hi). rewrite Ho in *. split_and!; [lia..| |done]. rewrite Hm.
  rewrite <- (mem_read_write (in_memory o) (wsa_buf buf) (take (Z.to_nat n) (in_bytes before))) at 2.
  f_equal. rewrite length_take. lia.
Qed.

Lemma writes_exactly g t (x : tconfig W waker outbox (WriteAll Tw)) n :
  tracks ovs WriteHalf (d_handle t) g (outbox_of (d_wire t)) (d_write t) x →
  borrowed (s_future (d_write t)) = true → moved x n → was_written t n.
Proof.
  intros (d & o & -> & _ & Ho) Hb Hm%moved_sent. specialize (Ho Hb).
  unfold sent_to_peer in Hm. unfold was_written. cbn in *. destruct (s_origin (d_write t)) as [buf before]. simpl in *.
  destruct Hm as (Hn & Hl & Hm). destruct (elsewhere_out _ _ _ n Ho ltac:(lia)) as [Hbs Hrd].
  split; [lia|]. by rewrite Hm, Hbs, Hrd.
Qed.

(** C3. A stream that is read and written at once: whatever the two futures, the
    system, the callbacks on the one completion port and the rest of the
    program do, when [read_exact] has returned successfully its buffer
    contains exactly the next bytes of the peer, and when [write_all] has, the
    peer has been sent exactly the bytes its buffer had when it was made; at
    every other moment a prefix.  This holds as long as no future was dropped
    before it had finished ([write_all] is also at the mercy of a [read_exact]
    that was) and no operation that completes at once posts a packet. *)
Theorem duplex_transfers_are_exact posts w0 ls t :
  Inj (=) (=) ovs → no_stale_duplex posts ls → dexec posts handle ptp_io ovs w0 ls = Some t →
  s_abandoned (d_read t) = false →
  exact (s_future (d_read t)) (wsa_len (s_origin (d_read t)).1) (flying t ReadHalf) (was_read t) ∧
  (s_abandoned (d_write t) = false →
   exact (s_future (d_write t)) (wsa_len (s_origin (d_write t)).1) (flying t WriteHalf) (was_written t)).
Proof.
  intros Hovs Hst Hex Har. rewrite duplex_exec_pends in Hex by done.
  destruct (duplex_exec_inv (HR := read_laws ior) (IoFuture1 := write_all_future iow) handle ptp_io ovs Hovs w0 ls t Hex)
    as (g & Ha & _ & (x & [lsx Hx] & Htx) & Hwrite).
  destruct (Hwrite Har) as (y & [lsy Hy] & Hty). split; [|intros Haw].
  - pose proof (transfer_outcome (HF := read_laws ior) handle ptp_io _ ReadHalf _ lsx x Hx) as Ho.
    pose proof (tracks_flight _ _ _ _ _ _ Htx) as Hfl. pose proof (reads_exactly g t x) as Hre.
    pose proof Htx as (d & o & -> & _). cbn in *. specialize (Ho Har). rewrite <- Hfl. unfold exact.
    destruct (s_future (d_read t)) as [|f|f|f [[]|e]|f|e]; naive_solver.
  - pose proof (transfer_outcome (HF := write_laws iow) handle ptp_io _ WriteHalf _ lsy y Hy) as Ho.
    pose proof (tracks_flight _ _ _ _ _ _ Hty) as Hfl. pose proof (writes_exactly g t y) as Hre.
    pose proof Hty as (d & o & -> & _). cbn in *. specialize (Ho Haw). rewrite <- Hfl. unfold exact.
    destruct (s_future (d_write t)) as [|f|f|f [[]|e]|f|e]; naive_solver.
Qed.

(** C4. The system writes only where it was told to: a step of the handle, of a
    callback or of the system changes the memory of the program at an address
    of the buffer that a live [read_exact] borrows, or nowhere. *)
Theorem duplex_writes_only_the_lent_buffer posts w0 ls l t t' :
  Inj (=) (=) ovs → no_stale_duplex posts (ls ++ [DSystem l]) →
  dexec posts handle ptp_io ovs w0 ls = Some t → s_abandoned (d_read t) = false →
  dexec posts handle ptp_io ovs w0 (ls ++ [DSystem l]) = Some t' →
  ∀ a, shared_memory (d_wire t') !! a ≠ shared_memory (d_wire t) !! a →
    borrowed (s_future (d_read t)) = true ∧ in_buffer (s_origin (d_read t)).1 a 1.
Proof.
  intros Hovs Hst Hex Har Hex' a Hne. rewrite duplex_exec_pends in Hex' by done.
  rewrite duplex_exec_pends in Hex.
  2: { intros Hp. specialize (Hst Hp). rewrite forallb_app in Hst. by apply andb_prop in Hst as [? _]. }
  destruct (duplex_exec_inv (HR := read_laws ior) (IoFuture1 := write_all_future iow) handle ptp_io ovs Hovs w0 ls t Hex)
    as (g & Ha & _ & Hread & _).
  assert (dstep false handle ptp_io ovs (DSystem l) t = Some t') as Hstep.
  { unfold duplex_exec in Hex, Hex'. rewrite exec_app, Hex in Hex'. cbn [mbind option_bind exec] in Hex'.
    change (lstep (DSystem l) t) with (dstep false handle ptp_io ovs (DSystem l) t) in Hex'.
    by destruct (dstep false handle ptp_io ovs (DSystem l) t). }
  destruct (system_where (HR := read_laws ior) handle ptp_io ovs Hovs w0 l t t' g Ha Hread Har Hstep)
    as [Heq|(Hb & b & bs & Heq & Hin)]; [congruence|]. split; [done|].
  rewrite Heq in Hne. unfold mem_write in Hne.
  destruct ((map_seqZ b bs : memory) !! a) as [x|] eqn:Hx.
  - apply (lookup_map_seqZ_Some (M := gmap Z)) in Hx as [? Hx%lookup_lt_Some]. unfold in_buffer in *. lia.
  - rewrite lookup_union_r in Hne by done. done.
Qed.
End tcp.
