(* ===== verification/DuplexEx.v ===== *)
(** * A concrete run of both directions of a stream: witnesses *)

From S2P Require Import Prelude Prog Extern Win32 Socket.
From S2P Require Import IoState IoCells IoHandle IoHandleSys HandleSys HandleEx.
From S2P Require Import IoBuf Read Write Transfer TransferTcp Duplex DuplexThm.
From Stdlib Require Import Strings.Byte.

Definition bufr : WSABUF := {| wsa_len := 8; wsa_buf := 100 |}.
Definition bufw : WSABUF := {| wsa_len := 5; wsa_buf := 300 |}.

(** The peer sends [hello]; the program has it at 300. *)
Definition wire0 : wire :=
  {| shared_memory := mem_write ∅ 300 hello; incoming := hello; outgoing := [] |}.

Abbreviation dconf := (dconfig (option nat) nat (ReadExact unit) (WriteAll unit)).
Abbreviation dexec0 ls :=
  (duplex_exec (W := option nat) (IoFuture0 := read_exact_future tt) (IoFuture1 := write_all_future tt) true 1 2 ovs0 wire0 ls).

Definition dstart_pending (h : half_id) : list (dlabel nat) :=
  DSystem <$> hsteps h 3 ++ HClient h (AStart StartPending) :: hsteps h 2.
Definition dcallback (i n : nat) : list (dlabel nat) := DSystem <$> repeat (HCallback i) n.

(** Both futures are polled and left pending. *)
Definition both_pending : list (dlabel nat) :=
  [DRead (TNew bufr); DWrite (TNew bufw); DRead (TPoll 7%nat); DWrite (TPoll 9%nat)] ++
  dstart_pending ReadHalf ++ dstart_pending WriteHalf ++ [DWrite TReturn; DRead TReturn].

(** Both operations complete, five of eight bytes received; the callbacks run
    in the other order; the program writes elsewhere. *)
Definition both_called : list (dlabel nat) :=
  both_pending ++ [DSystem (HComplete ReadHalf 0 5); DSystem (HComplete WriteHalf 0 5); DOther 400 [x41];
    DSystem HDispatch; DSystem HDispatch] ++ dcallback 1 6 ++ dcallback 0 6 ++
  [DSystem (HRetire 1); DSystem (HRetire 0)].

(** Both futures take their results; the one that reads goes on. *)
Definition both_done : list (dlabel nat) :=
  both_called ++ DWrite (TPoll 9%nat) :: DRead (TPoll 8%nat) ::
  (DSystem <$> hsteps ReadHalf 3) ++ (DSystem <$> hsteps WriteHalf 3) ++ [DRead TReturn; DWrite TReturn] ++
  dstart_pending ReadHalf ++ DRead TReturn :: DSystem (HComplete ReadHalf 0 3) :: DSystem HDispatch ::
  dcallback 0 6 ++ DRead (TPoll 8%nat) :: (DSystem <$> hsteps ReadHalf 3) ++ [DRead TReturn].

Definition dreach (ls : list (dlabel nat)) : dconf := default (duplex_start wire0) (dexec0 ls).
Definition druns (ls : list (dlabel nat)) : bool := match dexec0 ls with Some _ => true | None => false end.
Lemma dreach_druns ls : druns ls = true → dexec0 ls = Some (dreach ls).
Proof. unfold druns, dreach. by destruct (dexec0 ls). Qed.

Lemma duplex_transfers_are_exact_witness :
  let t := dreach both_done in
  (mem_read (shared_memory (d_wire t)) 100 8 = take 8 hello ∧ outgoing (d_wire t) = take 5 hello) ∧
  was_read t 8 ∧ flying t ReadHalf = 0%nat ∧ was_written t 5 ∧ flying t WriteHalf = 0%nat.
Proof.
  intros t. split; [split; vm_compute; reflexivity|].
  assert (dexec0 both_done = Some t) as Hex by (apply dreach_druns; vm_compute; reflexivity).
  assert (no_stale_duplex true both_done) as Hst by (intros _; vm_compute; reflexivity).
  assert (s_abandoned (d_read t) = false) as Har by (vm_compute; reflexivity).
  assert (s_abandoned (d_write t) = false) as Haw by (vm_compute; reflexivity).
  assert (match s_future (d_read t) with Finished _ (Ok _) => true | _ => false end = true) as Hfr by (vm_compute; reflexivity).
  assert (match s_future (d_write t) with Finished _ (Ok _) => true | _ => false end = true) as Hfw by (vm_compute; reflexivity).
  assert ((s_origin (d_read t)).1 = bufr) as Hbr by (vm_compute; reflexivity).
  assert ((s_origin (d_write t)).1 = bufw) as Hbw by (vm_compute; reflexivity).
  clearbody t.
  destruct (duplex_transfers_are_exact tt tt 1 2 ovs0 true wire0 both_done t ovs0_inj Hst Hex Har) as [Hr Hw].
  specialize (Hw Haw). rewrite Hbr in Hr. rewrite Hbw in Hw. unfold exact in Hr, Hw.
  destruct (s_future (d_read t)) as [| | |f [[]|e]| |]; try discriminate Hfr.
  destruct (s_future (d_write t)) as [| | |f' [[]|e]| |]; try discriminate Hfw.
  exact (conj (proj1 Hr) (conj (proj2 Hr) Hw)).
Defined.

(** The completion of the first receive writes the first byte of the buffer. *)
Lemma duplex_writes_only_the_lent_buffer_witness :
  let t := dreach both_pending in
  let t' := dreach (both_pending ++ [DSystem (HComplete ReadHalf 0 5)]) in
  shared_memory (d_wire t') !! 100 = Some x68 ∧
  borrowed (s_future (d_read t)) = true ∧ in_buffer (s_origin (d_read t)).1 100 1.
Proof.
  intros t t'. split; [vm_compute; reflexivity|].
  apply (duplex_writes_only_the_lent_buffer tt tt 1 2 ovs0 true wire0 both_pending (HComplete ReadHalf 0 5) t t').
  - exact ovs0_inj.
  - intros _. vm_compute. reflexivity.
  - apply dreach_druns. vm_compute. reflexivity.
  - vm_compute. reflexivity.
  - apply dreach_druns. vm_compute. reflexivity.
  - vm_compute. discriminate.
Defined.
