(* ===== verification/SockAddr.v ===== *)
(** * Names and addresses: [src/src/net/sockaddr/get_addr_info.rs] and
    [to_socket_addrs.rs]

    Strings are lists of Unicode scalar values, wide strings lists of 16-bit
    units.  The parsers of the standard library ([str::parse]) and
    [SockAddr::from_raw_parts(..).as_std()] of socket2 are parameters.  The
    programs of a resolution act on its event, on the thread-local handle, and
    on the memory the system writes the list of addresses to. *)

From S2P Require Import Prelude Prog Extern Win32 Socket Threadpool Context.
From S2P Require Import IoState IoCells IoEvent.

(** ** Addresses of the standard library *)

Record Ipv4Addr := { v4_bits : Z }.
Record Ipv6Addr := { v6_bits : Z }.
Inductive IpAddr := V4 (a : Ipv4Addr) | V6 (a : Ipv6Addr).

Record SocketAddrV4 := { sin_addr : Ipv4Addr; sin_port : Z }.
Record SocketAddrV6 := { sin6_addr : Ipv6Addr; sin6_port : Z; sin6_flowinfo : Z; sin6_scope_id : Z }.
Inductive SocketAddr := AddrV4 (a : SocketAddrV4) | AddrV6 (a : SocketAddrV6).

(** [SocketAddr::new] *)
Definition socket_addr_new (ip : IpAddr) (port : Z) : SocketAddr :=
  match ip with
  | V4 a => AddrV4 {| sin_addr := a; sin_port := port |}
  | V6 a => AddrV6 {| sin6_addr := a; sin6_port := port; sin6_flowinfo := 0; sin6_scope_id := 0 |}
  end.

(** ** Strings *)

Definition str : Type := list Z.
Definition wstr : Type := list Z.
Definition COLON : Z := 58.

(** [OsStrExt::encode_wide] of a character: one unit, or a surrogate pair. *)
Definition encode_char (c : Z) : wstr :=
  if c <? 2 ^ 16 then [c]
  else let c := c - 2 ^ 16 in
       [55296 + Z.shiftr c 10; 56320 + Z.land c 1023].

Definition encode_wide (s : str) : wstr := flat_map encode_char s.

(** [to_wstr] *)
Definition to_wstr (s : str) : wstr := encode_wide s ++ [0].

(** [str::split(c)] *)
Fixpoint split (c : Z) (s : str) : list str :=
  match s with
  | [] => [[]]
  | x :: s =>
      if decide (x = c) then [] :: split c s
      else match split c s with
           | p :: ps => (x :: p) :: ps
           | [] => [[x]]
           end
  end.

(** [u16::to_string]: at most five digits. *)
Fixpoint digits (fuel : nat) (n : Z) : str :=
  match fuel with
  | O => []
  | S fuel => (if n <? 10 then [] else digits fuel (n / 10)) ++ [48 + n mod 10]
  end.
Definition u16_to_string (n : Z) : str := digits 5 n.

(** ** [get_addr_info] *)

(** A vector on the heap. *)
Record wvec := { as_ptr : Z; units : wstr }.

(** Where the allocator puts the parts of a [GetAddrInfoFuture]. *)
Record places := {
  at_host : Z; at_port : Z;
  at_hints : Z; at_result : Z;       (* the fields of GetAddrInfoFutureInner *)
  at_event : Z; at_overlapped : Z;
}.

Record GetAddrInfoFuture := {
  host : wvec;
  port : option wvec;
  inner_hints : Z;                   (* &self.inner.hints *)
  inner_result : Z;                  (* &self.inner.result *)
  event : io_result IoEvent;
}.

Record GetAddrInfoIter := {
  addrinfo : Z;
  current : Z;
}.

(** A node of the list of addresses, which the system allocates. *)
Record ADDRINFOEXW := { ai_addr : Z; ai_addrlen : Z; ai_next : Z }.

(** ** Actions *)

Inductive sact (waker : Type) :=
| SEvent (a : hact waker)        (* on the event of the future *)
| STls (a : tls)
| SSys (c : win32)
| SStored (place : Z)            (* read of the pointer the system has stored at [place] *)
| SNodes                         (* read of the nodes of the list, which nobody changes any more *)
| SFree (places : list Z).       (* the drop of a heap allocation *)
Arguments SEvent {waker} _.
Arguments STls {waker} _.
Arguments SSys {waker} _.
Arguments SStored {waker} _.
Arguments SNodes {waker}.
Arguments SFree {waker} _.

Definition sans {waker} (a : sact waker) : Type :=
  match a with
  | SEvent a => hans a
  | STls _ => option Handle
  | SSys c => win32_ans c
  | SStored _ => Z
  | SNodes => gmap Z ADDRINFOEXW
  | SFree _ => unit
  end.

#[export] Instance sact_win32 {waker} : HasWin32 (sact waker) sans := {
  win32_act := SSys;
  win32_res _ r := r;
}.
#[export] Instance sact_tls {waker} : HasTls (sact waker) sans := {
  tls_act := STls;
  tls_ans _ r := r;
}.

Section resolve.
Context {waker : Type}.
Abbreviation prog := (prog (sact waker) sans).

Definition on_future {A} (p : Prog.prog (hact waker) hans A) : prog A := translate SEvent (λ _ r, r) p.

(** What the name and the service are made of. *)
Definition host_and_port (host : str) (port : option Z) : str * option str :=
  match port with
  | Some p => (host, Some (u16_to_string p))
  | None =>
      match split COLON host with
      | host :: rest => (host, head rest)
      | [] => (host, None)           (* a split has a first part *)
      end
  end.

(** [get_addr_info] *)
Definition get_addr_info (at_ : places) (h : str) (p : option Z) (callback_environ : CallbackEnviron) :
    prog GetAddrInfoFuture :=
  let '(h, p) := host_and_port h p in
  event <- on_future (IoEvent.new (at_event at_) (at_overlapped at_) callback_environ) ;;
  Ret {| host := {| as_ptr := at_host at_; units := to_wstr h |};
         port := (λ p, {| as_ptr := at_port at_; units := to_wstr p |}) <$> p;
         inner_hints := at_hints at_; inner_result := at_result at_;
         event := event |}.

(** [GetAddrInfoFuture::poll] *)
Definition resolve_poll (self : GetAddrInfoFuture) (w : waker) :
    prog (Poll (io_result GetAddrInfoIter)) :=
  let host := as_ptr (host self) in
  let port := default null (as_ptr <$> port self) in
  match event self with
  | Ok event =>
      poll <- on_future (IoEvent.poll event w None
                (resolve_schedule host port (inner_hints self) (inner_result self))) ;;
      match poll with
      | Ready (Ok _) =>
          result <- act1 (SStored (inner_result self) : sact waker) ;;
          Ret (Ready (Ok {| addrinfo := result; current := result |}))
      | Ready (Err err) => Ret (Ready (Err err))
      | Pending => Ret Pending
      end
  | Err (OsError code) => Ret (Ready (Err (OsError code)))
  | Err (Custom _ _) => Ret (Ready (Err (OsError 0)))
  end.

(** The drop of a [GetAddrInfoFuture]: of its fields, in the order of their
    declaration; [buffers] are the allocations that are dropped before the
    event. *)
Definition buffers (self : GetAddrInfoFuture) : list (list Z) :=
  [as_ptr (host self)] ::
  match port self with Some p => [[as_ptr p]] | None => [] end ++
  [[inner_hints self; inner_result self]].

Fixpoint free_all (l : list (list Z)) (p : prog unit) : prog unit :=
  match l with
  | [] => p
  | b :: l => act1 (SFree b : sact waker) ;;; free_all l p
  end.

Definition resolve_drop (self : GetAddrInfoFuture) : prog unit :=
  free_all (buffers self)
    (match event self with
     | Ok event => on_future (IoEvent.drop event)
     | Err _ => Ret tt
     end).
End resolve.

(** ** The iterator *)

Section iterator.
(** The list the system allocated, and socket2's reading of an address. *)
Context (mem : gmap Z ADDRINFOEXW) (as_std : Z → Z → option SocketAddr).

(** [GetAddrInfoIter::next], which calls itself: [None] when [fuel] is used
    up. *)
Fixpoint info_next (fuel : nat) (self : GetAddrInfoIter) :
    option (GetAddrInfoIter * option SocketAddr + fault) :=
  match fuel with
  | O => None
  | S fuel =>
    if is_null (current self) then Some (inl (self, None)) else
    match mem !! current self with
    | None => Some (inr (Undefined "dereference of a dangling pointer"))
    | Some c =>
        let self := {| addrinfo := addrinfo self; current := ai_next c |} in
        match as_std (ai_addr c) (as_i32 (ai_addrlen c)) with
        | Some addr => Some (inl (self, Some addr))
        | None => info_next fuel self
        end
    end
  end.

(** [impl Drop for GetAddrInfoIter] *)
Definition info_drop {act ans} `{!HasWin32 act ans} (self : GetAddrInfoIter) : prog act ans unit :=
  sys (FreeAddrInfoExW (addrinfo self)).
End iterator.

(** ** [ToSocketAddrs] *)

Inductive ToSocketAddrsInner :=
| Immediate (addr : SocketAddr)
| Slice (addrs : list SocketAddr)
| Future (future : GetAddrInfoFuture).

(** The iterators: [Once], [Copied<Iter>], [GetAddrInfoIter]. *)
Inductive ToSocketAddrsIter :=
| ImmediateIter (addr : option SocketAddr)
| SliceIter (addrs : list SocketAddr)
| FutureIter (iter : GetAddrInfoIter).

(** The trait; [at_] is where the future allocates. *)
Class ToSocketAddrs (waker A : Type) :=
  to_socket_addrs : places → A → prog (sact waker) sans ToSocketAddrsInner.

Section to_socket_addrs.
Context {waker : Type}.
Abbreviation prog := (prog (sact waker) sans).

#[export] Instance addr_to_addrs : ToSocketAddrs waker SocketAddr :=
  λ _ addr, Ret (Immediate addr).

(** The macro [impl_into!] *)
Definition impl_into {A} (into : A → SocketAddr) : ToSocketAddrs waker A :=
  λ _ a, Ret (Immediate (into a)).

#[export] Instance v4_to_addrs : ToSocketAddrs waker SocketAddrV4 := impl_into AddrV4.
#[export] Instance v6_to_addrs : ToSocketAddrs waker SocketAddrV6 := impl_into AddrV6.
#[export] Instance ip_to_addrs : ToSocketAddrs waker (IpAddr * Z) :=
  impl_into (λ '(ip, port), socket_addr_new ip port).
#[export] Instance ip4_to_addrs : ToSocketAddrs waker (Ipv4Addr * Z) :=
  impl_into (λ '(ip, port), socket_addr_new (V4 ip) port).
#[export] Instance ip6_to_addrs : ToSocketAddrs waker (Ipv6Addr * Z) :=
  impl_into (λ '(ip, port), socket_addr_new (V6 ip) port).

#[export] Instance slice_to_addrs : ToSocketAddrs waker (list SocketAddr) :=
  λ _ addrs, Ret (Slice addrs).

(** [self.parse()] *)
Context (parse_addr : str → option SocketAddr) (parse_ip : str → option IpAddr).

(** [impl ToSocketAddrs for str] and for [String] *)
Definition str_to_addrs : ToSocketAddrs waker str := λ at_ s,
  match parse_addr s with
  | Some addr => Ret (Immediate addr)
  | None =>
      h <- Context.current ;;
      future <- get_addr_info at_ s None (callback_environ h) ;;
      Ret (Future future)
  end.

(** [impl ToSocketAddrs for (&str, u16)] and for [(String, u16)] *)
Definition host_to_addrs : ToSocketAddrs waker (str * Z) := λ at_ '(name, port),
  match parse_ip name with
  | Some ip => Ret (Immediate (socket_addr_new ip port))
  | None =>
      h <- Context.current ;;
      future <- get_addr_info at_ name (Some port) (callback_environ h) ;;
      Ret (Future future)
  end.

(** [impl ToSocketAddrs for &T] *)
Definition ref_to_addrs {A} (target : ToSocketAddrs waker A) : ToSocketAddrs waker A :=
  λ at_ a, target at_ a.

(** The [poll] of the future [sealed::ToSocketAddrs] *)
Definition addrs_poll (self : ToSocketAddrsInner) (w : waker) :
    prog (Poll (io_result ToSocketAddrsIter)) :=
  match self with
  | Immediate addr => Ret (Ready (Ok (ImmediateIter (Some addr))))
  | Slice addrs => Ret (Ready (Ok (SliceIter addrs)))
  | Future future =>
      p <- resolve_poll future w ;;
      Ret match p with
          | Ready (Ok iter) => Ready (Ok (FutureIter iter))
          | Ready (Err err) => Ready (Err err)
          | Pending => Pending
          end
  end.

(** Its drop. *)
Definition addrs_drop (self : ToSocketAddrsInner) : prog unit :=
  match self with
  | Future future => resolve_drop future
  | _ => Ret tt
  end.
End to_socket_addrs.

Section addrs_iterator.
Context (mem : gmap Z ADDRINFOEXW) (as_std : Z → Z → option SocketAddr).

(** [ToSocketAddrsIter::next] *)
Definition addrs_next (fuel : nat) (self : ToSocketAddrsIter) :
    option (ToSocketAddrsIter * option SocketAddr + fault) :=
  match self with
  | ImmediateIter addr => Some (inl (ImmediateIter None, addr))
  | SliceIter [] => Some (inl (SliceIter [], None))
  | SliceIter (addr :: addrs) => Some (inl (SliceIter addrs, Some addr))
  | FutureIter iter =>
      match info_next mem as_std fuel iter with
      | Some (inl (iter, addr)) => Some (inl (FutureIter iter, addr))
      | Some (inr f) => Some (inr f)
      | None => None
      end
  end.

(** [ToSocketAddrsIter::size_hint]; a list that fits in memory is shorter
    than [usize::MAX]. *)
Definition size_hint (self : ToSocketAddrsIter) : nat * option nat :=
  match self with
  | ImmediateIter (Some _) => (1%nat, Some 1%nat)
  | ImmediateIter None => (0%nat, Some 0%nat)
  | SliceIter addrs => (length addrs, Some (length addrs))
  | FutureIter _ => (0%nat, None)
  end.

(** A [for] loop over the iterator: the addresses it sees. *)
Fixpoint addrs_collect (fuel : nat) (self : ToSocketAddrsIter) :
    option (ToSocketAddrsIter * list SocketAddr + fault) :=
  match fuel with
  | O => None
  | S fuel' =>
    match addrs_next fuel self with
    | Some (inl (self, Some addr)) =>
        match addrs_collect fuel' self with
        | Some (inl (self, addrs)) => Some (inl (self, addr :: addrs))
        | r => r
        end
    | Some (inl (self, None)) => Some (inl (self, []))
    | Some (inr f) => Some (inr f)
    | None => None
    end
  end.
End addrs_iterator.

Section for_loop.
Context {waker : Type} (as_std : Z → Z → option SocketAddr).
Abbreviation prog := (prog (sact waker) sans).

(** Enough for a list without a cycle in the memory [mem]. *)
Definition loop_fuel (mem : gmap Z ADDRINFOEXW) (iter : ToSocketAddrsIter) : nat :=
  match iter with
  | ImmediateIter _ => 2
  | SliceIter addrs => S (length addrs)
  | FutureIter _ => S (2 * size mem)
  end.

(** [for addr in iter]: the addresses the body sees.  No body changes the
    list, so that it is read at once, and the loop over a list with a cycle
    never ends. *)
Definition for_addrs (iter : ToSocketAddrsIter) : prog (list SocketAddr) :=
  mem <- act1 (SNodes : sact waker) ;;
  match addrs_collect mem as_std (loop_fuel mem iter) iter with
  | Some (inl (_, addrs)) => Ret addrs
  | Some (inr f) => Fault f
  | None => loop (Ret None)
  end.

(** The drop of a [ToSocketAddrsIter]. *)
Definition iter_drop (self : ToSocketAddrsIter) : prog unit :=
  match self with
  | FutureIter iter => info_drop iter
  | _ => Ret tt
  end.
End for_loop.
