(* ===== verification/SockAddrThm.v ===== *)
(** * What name resolution guarantees *)

From S2P Require Import Prelude Prog Extern Win32 Socket Threadpool Context.
From S2P Require Import IoState IoCells IoEvent SockAddr.

(** ** Wide strings *)

(** A Unicode scalar value: what a Rust [char] is. *)
Definition scalar (c : Z) : Prop := 0 ≤ c < 55296 ∨ 57344 ≤ c < 1114112.

(** What the system reads of a wide string, which it is given as a pointer
    without a length: the units up to the first NUL.  [None]: it finds none
    and reads behind the end. *)
Fixpoint c_string (u : wstr) : option wstr :=
  match u with
  | [] => None
  | x :: u => if decide (x = 0) then Some [] else (λ u, x :: u) <$> c_string u
  end.

(** Decoding UTF-16. *)
Fixpoint decode_wide (u : wstr) : str :=
  match u with
  | [] => []
  | x :: u =>
      if decide (55296 ≤ x < 56320) then
        match u with
        | y :: u => (2 ^ 16 + (x - 55296) * 1024 + (y - 56320)) :: decode_wide u
        | [] => [x]
        end
      else x :: decode_wide u
  end.

(** The part of a string before its first NUL. *)
Fixpoint before_nul (s : str) : str :=
  match s with
  | [] => []
  | c :: s => if decide (c = 0) then [] else c :: before_nul s
  end.

Lemma encode_char_units c : scalar c → Forall (λ u, 0 ≤ u < 2 ^ 16) (encode_char c).
Proof.
  intros Hc. unfold encode_char, scalar in *. destruct (Z.ltb_spec c (2 ^ 16)).
  - repeat constructor; lia.
  - change 1023 with (Z.ones 10). rewrite Z.land_ones, Z.shiftr_div_pow2 by lia.
    repeat constructor; try (Z.to_euclidean_division_equations; lia).
Qed.

Lemma encode_char_cons c s :
  scalar c → c ≠ 0 → c_string (encode_char c ++ s) = (λ u, encode_char c ++ u) <$> c_string s.
Proof.
  intros Hc Hne. unfold encode_char, scalar in *. destruct (Z.ltb_spec c (2 ^ 16)); simpl.
  - by rewrite decide_False.
  - change 1023 with (Z.ones 10). rewrite Z.land_ones, Z.shiftr_div_pow2 by lia.
    rewrite !decide_False by (Z.to_euclidean_division_equations; lia). by destruct (c_string s).
Qed.

Lemma decode_encode_char c u : scalar c → decode_wide (encode_char c ++ u) = c :: decode_wide u.
Proof.
  intros Hc. unfold encode_char, scalar in *. destruct (Z.ltb_spec c (2 ^ 16)); simpl.
  - by rewrite decide_False by lia.
  - change 1023 with (Z.ones 10). rewrite Z.land_ones, Z.shiftr_div_pow2 by lia.
    rewrite decide_True by (Z.to_euclidean_division_equations; lia).
    f_equal. Z.to_euclidean_division_equations; lia.
Qed.

(** C31. A wide string is made of 16-bit units and ends itself: the system, which
    reads it without knowing its length, stops at a NUL that belongs to it,
    whatever lies behind it in memory, and decoding what it has read gives
    back the string up to its own first NUL, the whole string when it has none. *)
Theorem to_wstr_roundtrip (s : str) (behind : wstr) :
  Forall scalar s →
  Forall (λ u, 0 ≤ u < 2 ^ 16) (to_wstr s) ∧
  ∃ u, c_string (to_wstr s) = Some u ∧ c_string (to_wstr s ++ behind) = Some u ∧ decode_wide u = before_nul s.
Proof.
  unfold to_wstr. induction 1 as [|c s Hc _ (IHu & u & IH & IHb & Hu)]; simpl.
  { split; [repeat constructor; lia|]. by exists []. }
  rewrite <- !app_assoc in *. split.
  { apply Forall_app. split; [by apply encode_char_units|done]. }
  case_decide as Hz.
  - subst c. by exists [].
  - rewrite !encode_char_cons, IH, IHb by done. exists (encode_char c ++ u).
    split_and!; [done..|]. by rewrite decode_encode_char, Hu.
Qed.

Lemma to_wstr_roundtrip_witness :
  let s := [99; 233; 128512] in
  let behind := [97; 98] in
  to_wstr s = [99; 233; 55357; 56832; 0] ∧
  Forall (λ u, 0 ≤ u < 2 ^ 16) (to_wstr s) ∧
  ∃ u, c_string (to_wstr s) = Some u ∧ c_string (to_wstr s ++ behind) = Some u ∧ decode_wide u = before_nul s.
Proof.
  intros s behind. split; [vm_compute; reflexivity|]. apply (to_wstr_roundtrip s behind).
  unfold s, scalar. repeat constructor; lia.
Defined.

(** ** Names and services *)

(** Reading a decimal number. *)
Definition parse_decimal (s : str) : Z := fold_left (λ n d, n * 10 + (d - 48)) s 0.

Lemma parse_decimal_snoc s d : parse_decimal (s ++ [d]) = parse_decimal s * 10 + (d - 48).
Proof. unfold parse_decimal. by rewrite fold_left_app. Qed.

Lemma digits_parse fuel n : 0 ≤ n < 10 ^ Z.of_nat fuel → parse_decimal (digits fuel n) = n.
Proof.
  revert n. induction fuel as [|fuel IH]; intros n Hn; [simpl in *; unfold parse_decimal; simpl; lia|].
  rewrite Nat2Z.inj_succ, Z.pow_succ_r in Hn by lia. simpl. rewrite parse_decimal_snoc.
  destruct (Z.ltb_spec n 10).
  - rewrite Z.mod_small by lia. unfold parse_decimal. simpl. lia.
  - rewrite IH by (Z.to_euclidean_division_equations; lia).
    Z.to_euclidean_division_equations; lia.
Qed.

Lemma digits_ascii fuel n : 0 ≤ n → Forall (λ d, 48 ≤ d < 58) (digits fuel n).
Proof.
  revert n. induction fuel as [|fuel IH]; intros n Hn; simpl; [done|].
  apply Forall_app. split; [|repeat constructor; Z.to_euclidean_division_equations; lia].
  destruct (Z.ltb_spec n 10); [done|]. apply IH. Z.to_euclidean_division_equations; lia.
Qed.

Lemma split_no c s : c ∉ s → split c s = [s].
Proof.
  induction s as [|x s IH]; intros Hc; [done|]. simpl.
  rewrite decide_False by set_solver. rewrite IH by set_solver. done.
Qed.

Lemma split_first c s rest : c ∉ s → split c (s ++ c :: rest) = s :: split c rest.
Proof.
  induction s as [|x s IH]; intros Hc; simpl.
  - by rewrite decide_True.
  - rewrite decide_False by set_solver. by rewrite IH by set_solver.
Qed.

(** With a port the resolver is given the name as it is and the port in
    decimal; without one the name is what comes before the first colon, the
    service what comes between it and the next one, and the rest of the
    string is ignored. *)
Theorem host_and_port_spec (h s rest : str) (p : Z) :
  0 ≤ p < 2 ^ 16 → COLON ∉ h → COLON ∉ s →
  host_and_port h (Some p) = (h, Some (u16_to_string p)) ∧ parse_decimal (u16_to_string p) = p ∧
  host_and_port h None = (h, None) ∧
  host_and_port (h ++ COLON :: s) None = (h, Some s) ∧
  host_and_port (h ++ COLON :: s ++ COLON :: rest) None = (h, Some s).
Proof.
  intros Hp Hh Hs. unfold host_and_port, u16_to_string. split_and!.
  - done.
  - apply digits_parse. lia.
  - by rewrite split_no.
  - by rewrite split_first, split_no.
  - by rewrite split_first, split_first.
Qed.

Lemma host_and_port_spec_witness :
  u16_to_string 8080 = [56; 48; 56; 48] ∧
  host_and_port [97] (Some 8080) = ([97], Some (u16_to_string 8080)) ∧
  parse_decimal (u16_to_string 8080) = 8080 ∧
  host_and_port [97] None = ([97], None) ∧
  host_and_port ([97] ++ COLON :: [56; 48]) None = ([97], Some [56; 48]) ∧
  host_and_port ([97] ++ COLON :: [56; 48] ++ COLON :: [49]) None = ([97], Some [56; 48]).
Proof.
  split; [vm_compute; reflexivity|].
  apply (host_and_port_spec [97] [56; 48] [49] 8080); [done|by apply (bool_decide_unpack _)..].
Defined.

(** ** Iterators *)

#[local] Arguments as_i32 : simpl never.

Section iterators.
Context (mem : gmap Z ADDRINFOEXW) (as_std : Z → Z → option SocketAddr).

(** The linked list that starts at [p]. *)
Inductive linked : Z → list ADDRINFOEXW → Prop :=
| linked_nil : linked null []
| linked_cons p node nodes :
    p ≠ null → mem !! p = Some node → linked (ai_next node) nodes → linked p (node :: nodes).

(** The addresses of a list: the nodes that are not internet addresses are
    passed over. *)
Definition addresses (nodes : list ADDRINFOEXW) : list SocketAddr :=
  omap (λ n, as_std (ai_addr n) (as_i32 (ai_addrlen n))) nodes.

(** [iter] is in front of [addrs]; the list it may have to walk is [len] nodes
    long. *)
Inductive in_front : ToSocketAddrsIter → nat → list SocketAddr → Prop :=
| front_once a : in_front (ImmediateIter (Some a)) 0 [a]
| front_done : in_front (ImmediateIter None) 0 []
| front_slice addrs : in_front (SliceIter addrs) 0 addrs
| front_info hd p nodes :
    linked p nodes →
    in_front (FutureIter {| addrinfo := hd; current := p |}) (length nodes) (addresses nodes).

(** Advancing over a list: to the next address, or to its end. *)
Lemma info_next_spec hd p nodes fuel :
  linked p nodes → (length nodes < fuel)%nat →
  match addresses nodes with
  | [] => info_next mem as_std fuel {| addrinfo := hd; current := p |} =
          Some (inl ({| addrinfo := hd; current := null |}, None))
  | a :: addrs => ∃ p' nodes', linked p' nodes' ∧ addresses nodes' = addrs ∧
      (length nodes' < length nodes)%nat ∧
      info_next mem as_std fuel {| addrinfo := hd; current := p |} =
        Some (inl ({| addrinfo := hd; current := p' |}, Some a))
  end.
Proof.
  intros Hl. revert fuel. induction Hl as [|p node nodes Hp Hm Hl IH]; intros [|fuel] Hf; simpl in Hf; try lia.
  { done. }
  assert (is_null p = false) as Hnull by (by apply bool_decide_eq_false_2).
  unfold addresses in *. simpl. rewrite Hnull, Hm.
  destruct (as_std (ai_addr node) _) as [a|]; [exists (ai_next node), nodes; split_and!; [done|done|lia|done]|].
  specialize (IH fuel ltac:(lia)).
  change (list_omap _ _ ?f nodes) with (omap f nodes). destruct (omap _ nodes) as [|a addrs]; [done|].
  destruct IH as (p' & nodes' & ? & ? & ? & ?). exists p', nodes'. split_and!; [done..|lia|done].
Qed.

Lemma next_in_front iter len addrs fuel :
  in_front iter len addrs → (len < fuel)%nat →
  ∃ iter' len', addrs_next mem as_std fuel iter = Some (inl (iter', head addrs)) ∧
    in_front iter' len' (tail addrs) ∧ (len' + length (tail addrs) ≤ len + length addrs)%nat ∧
    (len' ≤ len)%nat.
Proof.
  intros Hi Hf. destruct Hi as [a| |[|a addrs]|hd p nodes Hl]; simpl.
  - do 2 eexists. split_and!; [done|constructor|simpl; lia|done].
  - do 2 eexists. split_and!; [done|constructor|simpl; lia|done].
  - do 2 eexists. split_and!; [done|constructor|simpl; lia|done].
  - do 2 eexists. split_and!; [done|constructor|simpl; lia|done].
  - pose proof (info_next_spec hd p nodes fuel Hl Hf) as Hn.
    destruct (addresses nodes) as [|a addrs].
    + rewrite Hn. exists (FutureIter {| addrinfo := hd; current := null |}), 0%nat.
      split_and!; [done| |simpl; lia|lia]. apply (front_info hd null []). constructor.
    + destruct Hn as (p' & nodes' & Hl' & <- & Hlen & ->).
      exists (FutureIter {| addrinfo := hd; current := p' |}), (length nodes').
      split_and!; [done|by constructor|simpl; lia|lia].
Qed.

(** A [for] loop over any of the three iterators ends and sees exactly the
    addresses the iterator is in front of, in order (of a list of the system
    the internet addresses, up to its null pointer); afterwards the iterator
    is at its end; and [size_hint] bounds the number of addresses. *)
Theorem for_loop_sees_every_address iter len addrs fuel :
  in_front iter len addrs → (len + length addrs < fuel)%nat →
  (∃ iter' len', addrs_collect mem as_std fuel iter = Some (inl (iter', addrs)) ∧ in_front iter' len' []) ∧
  ((size_hint iter).1 ≤ length addrs)%nat ∧
  ∀ n, (size_hint iter).2 = Some n → (length addrs ≤ n)%nat.
Proof.
  intros Hi Hf. split; [|destruct Hi; simpl; (split; [lia|intros n Hn; simplify_eq/=; lia])].
  revert iter len addrs Hi Hf. induction fuel as [|fuel IH]; intros iter len addrs Hi Hf; [lia|].
  destruct (next_in_front iter len addrs (S fuel) Hi ltac:(lia)) as (iter' & len' & Hn & Hi' & Hlen & Hle).
  cbn [addrs_collect]. rewrite Hn. destruct addrs as [|a addrs]; simpl in *.
  - by exists iter', len'.
  - destruct (IH iter' len' addrs Hi' ltac:(lia)) as (iter2 & len2 & -> & Hi2). by exists iter2, len2.
Qed.

(** A list has as many nodes as there are in memory, at most: otherwise it
    would have a cycle, and no end. *)
Lemma linked_unique p nodes nodes' : linked p nodes → linked p nodes' → nodes = nodes'.
Proof.
  intros Hl. revert nodes'. induction Hl as [|p node nodes Hp Hm _ IH]; intros nodes' Hl'.
  - by inversion Hl'.
  - inversion Hl' as [|p' node' nodes2 Hp' Hm' Hl2]; subst; [done|]. simplify_eq. f_equal. by apply IH.
Qed.
End iterators.

Lemma linked_delete mem q nodes p l :
  linked mem q nodes → linked mem p l → (length l < length nodes)%nat → linked (delete q mem) p l.
Proof.
  intros Hq Hl. induction Hl as [|p node l Hp Hm Hl IH]; intros Hlen; simpl in Hlen; [constructor|].
  apply linked_cons; [done| |apply IH; lia]. rewrite lookup_delete_ne; [done|]. intros ->.
  assert (nodes = node :: l) as -> by (eapply linked_unique; [done|]; by apply linked_cons). simpl in Hlen. lia.
Qed.

Lemma linked_length mem p nodes : linked mem p nodes → (length nodes ≤ size mem)%nat.
Proof.
  revert mem p. induction nodes as [|node nodes IH]; intros mem p Hl; simpl; [lia|].
  inversion Hl as [|p' node' nodes' Hp Hm Hl']; subst.
  specialize (IH (delete p mem) (ai_next node) ltac:(apply (linked_delete _ _ (node :: nodes)); [done|done|simpl; lia])).
  rewrite map_size_delete_Some in IH by done. assert (size mem ≠ 0%nat); [|lia].
  intros ->%map_size_empty_iff. done.
Qed.

Section for_loop.
Context (mem : gmap Z ADDRINFOEXW) (as_std : Z → Z → option SocketAddr).

Lemma front_fuel iter len addrs :
  in_front mem as_std iter len addrs → (len + length addrs < loop_fuel mem iter)%nat.
Proof.
  intros [a| |addrs'|hd p nodes Hl%linked_length]; simpl; [lia..|].
  assert (length (addresses as_std nodes) ≤ length nodes)%nat; [|lia].
  unfold addresses. clear. induction nodes as [|n nodes IH]; [done|]. simpl.
  destruct (as_std _ _); simpl; unfold omap in *; lia.
Qed.

(** What a run of the loop sees. *)
Definition nodes_read {waker} (e : Prog.event (sact waker) sans) : option (gmap Z ADDRINFOEXW) :=
  match e with Ev a r => match a return sans a → option (gmap Z ADDRINFOEXW) with SNodes => λ m, Some m | _ => λ _, None end r end.

Lemma for_addrs_runs {waker} iter tr (out : list SocketAddr + fault) :
  produces (for_addrs (waker := waker) as_std iter) tr out →
  ∃ m, tr = [Ev SNodes m] ∧
    match addrs_collect m as_std (loop_fuel m iter) iter with
    | Some (inl (_, addrs)) => out = inl addrs
    | Some (inr f) => out = inr f
    | None => False
    end.
Proof.
  intros Hp. pattern out, tr. change tr with ([] ++ tr). eapply wlp_produces; [|exact Hp]. clear Hp tr out.
  intros m. simpl. destruct (addrs_collect m as_std (loop_fuel m iter) iter) as [[[iter' addrs]|f]|] eqn:Hc; simpl.
  - exists m. by rewrite Hc.
  - exists m. by rewrite Hc.
  - by exists (λ _, True).
Qed.

(** C29. A [for] loop over any of the three kinds of addresses ends, and its
    body sees exactly the addresses the iterator is in front of, in order: of
    a list of the system the internet addresses, up to the null pointer, as
    the memory has it.  [size_hint] bounds their number. *)
Theorem for_addrs_sees_every_address {waker} iter len addrs tr (out : list SocketAddr + fault) :
  in_front mem as_std iter len addrs →
  (produces (for_addrs (waker := waker) as_std iter) (Ev SNodes mem :: tr) out ↔ tr = [] ∧ out = inl addrs) ∧
  ((size_hint iter).1 ≤ length addrs)%nat ∧ ∀ n, (size_hint iter).2 = Some n → (length addrs ≤ n)%nat.
Proof.
  intros Hi.
  destruct (for_loop_sees_every_address mem as_std iter len addrs (loop_fuel mem iter) Hi) as ((iter' & len' & Hc & _) & Hs);
    [by apply (front_fuel iter len)|].
  split; [|done]. split.
  - intros (m & Heq & Hout)%for_addrs_runs.
    pose proof (f_equal (λ l, head l ≫= nodes_read) Heq) as Hm. simpl in Hm. simplify_eq. by rewrite Hc in Hout.
  - intros [-> ->]. apply produces_act. rewrite Hc. constructor.
Qed.
End for_loop.

Section iterators_head.
Context (mem : gmap Z ADDRINFOEXW) (as_std : Z → Z → option SocketAddr).

(** The head of the list stays what is freed. *)
Lemma info_next_head fuel self self' a :
  info_next mem as_std fuel self = Some (inl (self', a)) → addrinfo self' = addrinfo self.
Proof.
  revert self. induction fuel as [|fuel IH]; intros self Hn; [done|]. simpl in Hn.
  destruct (is_null (current self)); simplify_eq/=; [done|].
  destruct (mem !! current self) as [c|]; [|done].
  destruct (as_std _ _); simplify_eq/=; [done|]. by apply IH in Hn.
Qed.
End iterators_head.

Lemma for_loop_sees_every_address_witness :
  let node a next := {| ai_addr := a; ai_addrlen := 16; ai_next := next |} in
  let mem : gmap Z ADDRINFOEXW := {[ 8 := node 1 16; 16 := node 2 24; 24 := node 3 0 ]} in
  let addr p := AddrV4 {| sin_addr := {| v4_bits := 0 |}; sin_port := p |} in
  let as_std a (len : Z) := if decide (a = 2) then None else Some (addr a) in
  let iter := FutureIter {| addrinfo := 8; current := 8 |} in
  (∃ iter' len', addrs_collect mem as_std 7 iter = Some (inl (iter', [addr 1; addr 3])) ∧
     in_front mem as_std iter' len' []) ∧
  ((size_hint iter).1 ≤ 2)%nat ∧ ∀ n, (size_hint iter).2 = Some n → (2 ≤ n)%nat.
Proof.
  intros node mem addr as_std iter.
  apply (for_loop_sees_every_address mem as_std iter 3 [addr 1; addr 3] 7); [|simpl; lia].
  apply (front_info mem as_std 8 8 [node 1 16; node 2 24; node 3 0]).
  repeat (apply linked_cons; [done|vm_compute; reflexivity|]). apply linked_nil.
Defined.

Lemma for_addrs_sees_every_address_witness :
  let node a next := {| ai_addr := a; ai_addrlen := 16; ai_next := next |} in
  let mem : gmap Z ADDRINFOEXW := {[ 8 := node 1 16; 16 := node 2 24; 24 := node 3 0 ]} in
  let addr p := AddrV4 {| sin_addr := {| v4_bits := 0 |}; sin_port := p |} in
  let as_std a (len : Z) := if decide (a = 2) then None else Some (addr a) in
  let iter := FutureIter {| addrinfo := 8; current := 8 |} in
  produces (for_addrs (waker := nat) as_std iter) [Ev SNodes mem] (inl [addr 1; addr 3]) ∧ ((size_hint iter).1 ≤ 2)%nat.
Proof.
  intros node mem addr as_std iter.
  assert (in_front mem as_std iter 3 [addr 1; addr 3]) as Hi.
  { apply (front_info mem as_std 8 8 [node 1 16; node 2 24; node 3 0]).
    repeat (apply linked_cons; [done|vm_compute; reflexivity|]). apply linked_nil. }
  destruct (for_addrs_sees_every_address mem as_std (waker := nat) iter 3 [addr 1; addr 3] [] (inl [addr 1; addr 3]) Hi) as (Hp & Hs & _).
  split; [apply Hp; split; reflexivity|exact Hs].
Defined.

(** ** What asking for addresses does

    A client asks of the types it is given as addresses that making the future
    closes no socket and takes and frees no list of addresses; the types of
    the crate have it. *)

Definition not_closesocket {waker} (a : sact waker) : Prop :=
  match a with
  | SEvent (HSys (closesocket _)) | SSys (closesocket _) => False
  | _ => True
  end.

(** The list an action frees, and whether it takes one. *)
Definition frees_list {waker} (a : sact waker) : option Z :=
  match a with
  | SEvent (HSys (FreeAddrInfoExW p)) | SSys (FreeAddrInfoExW p) => Some p
  | _ => None
  end.
Definition takes_list {waker} (a : sact waker) : bool := match a with SStored _ => true | _ => false end.
Definition no_list {waker} (a : sact waker) : Prop := frees_list a = None ∧ takes_list a = false.

Class ToSocketAddrsLaws (waker A : Type) `{!ToSocketAddrs waker A} := {
  to_addrs_quiet at_ (a : A) : within not_closesocket (to_socket_addrs (waker := waker) at_ a);
  to_addrs_no_list at_ (a : A) : within no_list (to_socket_addrs (waker := waker) at_ a);
}.

Section laws.
Context {waker : Type}.

#[export] Instance addr_laws : ToSocketAddrsLaws waker SocketAddr.
Proof. by split. Qed.
#[export] Instance v4_laws : ToSocketAddrsLaws waker SocketAddrV4.
Proof. by split. Qed.
#[export] Instance v6_laws : ToSocketAddrsLaws waker SocketAddrV6.
Proof. by split. Qed.
#[export] Instance ip_laws : ToSocketAddrsLaws waker (IpAddr * Z).
Proof. by split; intros ? []. Qed.
#[export] Instance ip4_laws : ToSocketAddrsLaws waker (Ipv4Addr * Z).
Proof. by split; intros ? []. Qed.
#[export] Instance ip6_laws : ToSocketAddrsLaws waker (Ipv6Addr * Z).
Proof. by split; intros ? []. Qed.
#[export] Instance slice_laws : ToSocketAddrsLaws waker (list SocketAddr).
Proof. by split. Qed.

Lemma current_within (ok : sact waker → Prop) : ok (STls TGet) → within ok Context.current.
Proof. intros Hok. split; [done|]. by intros [h|]. Qed.

Lemma get_addr_info_within (ok : sact waker → Prop) at_ h p ce :
  within (λ a, ok (SEvent a)) (IoEvent.new (at_event at_) (at_overlapped at_) ce) →
  within ok (get_addr_info at_ h p ce).
Proof.
  intros Hok. unfold get_addr_info. destruct (host_and_port h p).
  apply within_bind; [by apply within_translate|done].
Qed.

Lemma str_laws parse_addr : @ToSocketAddrsLaws waker str (str_to_addrs parse_addr).
Proof.
  split; intros at_ s; unfold to_socket_addrs, str_to_addrs; (destruct (parse_addr s); [done|]);
    (apply within_bind; [by apply current_within|]); intros h;
    (apply within_bind; [apply get_addr_info_within; solve_within|done]).
Qed.

Lemma host_laws parse_ip : @ToSocketAddrsLaws waker (str * Z) (host_to_addrs parse_ip).
Proof.
  split; intros at_ [s port]; unfold to_socket_addrs, host_to_addrs; (destruct (parse_ip s); [done|]);
    (apply within_bind; [by apply current_within|]); intros h;
    (apply within_bind; [apply get_addr_info_within; solve_within|done]).
Qed.

Lemma ref_laws {A} `{!ToSocketAddrs waker A} :
  ToSocketAddrsLaws waker A → @ToSocketAddrsLaws waker A (ref_to_addrs to_socket_addrs).
Proof. intros [Hq Hl]. by split. Qed.

(** The future, its drop and the iterator close none either. *)
Lemma resolve_poll_quiet self (w : waker) : within not_closesocket (resolve_poll self w).
Proof.
  unfold resolve_poll. destruct (event self) as [ev|[]]; [|done..]. apply within_bind.
  - apply within_translate. solve_within.
  - by intros [[]|].
Qed.

Lemma within_free_all ok bs (p : prog (sact waker) sans unit) :
  (∀ b, ok (SFree b)) → within ok p → within ok (free_all bs p).
Proof. intros Hok Hp. induction bs as [|b bs IH]; simpl; [done|]. split; [done|]. by intros []. Qed.

Lemma resolve_drop_quiet self : within (not_closesocket (waker := waker)) (resolve_drop self).
Proof.
  apply within_free_all; [done|]. destruct (event self) as [ev|]; [|done]. apply within_translate. solve_within.
Qed.

Lemma addrs_poll_quiet self (w : waker) : within not_closesocket (addrs_poll self w).
Proof.
  destruct self; [done..|]. apply within_bind; [apply resolve_poll_quiet|done].
Qed.

Lemma addrs_drop_quiet self : within (not_closesocket (waker := waker)) (addrs_drop self).
Proof. destruct self; [done..|]. apply resolve_drop_quiet. Qed.

Lemma for_addrs_quiet as_std iter : within (not_closesocket (waker := waker)) (for_addrs as_std iter).
Proof. split; [done|]. intros mem. simpl. destruct (addrs_collect _ _ _ _) as [[[]|]|]; done. Qed.

Lemma iter_drop_quiet iter : within (not_closesocket (waker := waker)) (iter_drop iter).
Proof. by destruct iter. Qed.
End laws.

#[export] Hint Resolve resolve_drop_quiet addrs_poll_quiet addrs_drop_quiet for_addrs_quiet iter_drop_quiet : wae.
