(* ===== verification/ResolveDrop.v ===== *)
(** * Dropping a name resolution: [src/src/net/sockaddr/get_addr_info.rs]

    A [GetAddrInfoFuture] that is given up drops its fields in the order of
    their declaration: the name, the service, the hints with the place of the
    result, and then the event, whose drop waits for the resolution.  The
    system still reads the first three when they are freed. *)

From S2P Require Import Prelude Prog Extern Win32 Socket Threadpool Context.
From S2P Require Import IoState IoCells IoEvent IoEventSys IoEventThm IoEventEx IoEventDrop SockAddr SockAddrThm.

(** ** The system

    That of the drop of an event, with the memory that has been freed. *)

Record rconfig (W waker : Type) := {
  r_event : econfig W waker;
  r_drop : option (prog (sact waker) sans unit);
  r_closed : list win32;
  r_freed : list Z;
}.
Arguments r_event {W waker} _.
Arguments r_drop {W waker} _.
Arguments r_closed {W waker} _.
Arguments r_freed {W waker} _.
Arguments Build_rconfig {W waker} _ _ _ _.

Section system.
Context {W waker : Type} `{!AtomicWaker W waker}.
Context (self : GetAddrInfoFuture) (ev : IoEvent) (w : waker).
Abbreviation rconfig := (rconfig W waker).

(** The resolution of [self], as its [poll] starts it. *)
Definition resolution : ekind :=
  KResolve (as_ptr (host self)) (default null (as_ptr <$> port self)) (inner_hints self) (inner_result self).

(** What the system reads and writes while the resolution is in flight. *)
Definition in_use : list Z := concat (buffers self).

Definition rstep (a : sact waker) (x : eanswer) (s : cells W waker * (ekernel * list win32) * list Z) :
    option (sans a * (cells W waker * (ekernel * list win32) * list Z)) :=
  let '(c, freed) := s in
  match a with
  | SFree b => Some (tt, (c, freed ++ b))
  | SEvent a => '(r, c') ← cells_step (dsys_step resolution) a x c; Some (r, (c', freed))
  | _ => None
  end.

Definition resolve_step (l : dlabel) (r : rconfig) : option rconfig :=
  match l with
  | DEvent l =>
      if enabled l (Build_dconfig (r_event r) ((λ _, Ret tt) <$> r_drop r) (r_closed r)) then
        c ← event_step resolution ev None w l (r_event r);
        Some (Build_rconfig c (r_drop r) (r_closed r) (r_freed r))
      else None
  | DDrop =>
      match ewho (r_event r), r_drop r with
      | EIdle, None => Some (Build_rconfig (r_event r) (Some (resolve_drop self)) (r_closed r) (r_freed r))
      | _, _ => None
      end
  | DStep =>
      p ← r_drop r;
      let c := r_event r in
      '(p', (cs, (k, closed), freed)) ←
        tstep rstep EDefault p (ecl c, (ekn c, r_closed r), r_freed r);
      Some (Build_rconfig (Build_econfig cs k (ewho c) (ecallbacks c) (ehistory c)) (Some p') closed freed)
  end.

#[export] Instance resolve_lts : LTS dlabel rconfig := {
  linit := Build_rconfig estart_config None [] [];
  lstep := resolve_step;
}.
Definition resolve_exec (ls : list dlabel) : option rconfig :=
  exec (H := resolve_lts) ls (linit (LTS := resolve_lts)).
End system.

(** ** What the drop does *)

Section theorems.
Context {W waker : Type} `{AtomicWakerLaws W waker}.
Context (self : GetAddrInfoFuture) (ev : IoEvent) (w : waker).
Context (Hev : event self = Ok ev).
Abbreviation rconfig := (rconfig W waker).
Abbreviation dconfig := (dconfig W waker).
Abbreviation rexec := (resolve_exec (W := W) self ev w).
Abbreviation rstep' := (resolve_step (W := W) self ev w).
Abbreviation dstep := (drop_step (W := W) (resolution self) ev None w).

(** The drop of the event within that of the future. *)
Definition represents (r : rconfig) (d : dconfig) : Prop :=
  d_event d = r_event r ∧ d_closed d = r_closed r ∧
  match r_drop r, d_drop d with
  | None, None => r_freed r = []
  | Some p, Some q =>
      ∃ freed rest, buffers self = freed ++ rest ∧ r_freed r = concat freed ∧
        p = free_all rest (on_future q) ∧ (rest ≠ [] → q = IoEvent.drop ev)
  | _, _ => False
  end.

Lemma tstep_event_drop {A} (p : prog (hact waker) hans A) x c freed :
  tstep (rstep (W := W) self) x (on_future p) (c, freed) =
  (λ y : prog (hact waker) hans A * _, (on_future y.1, (y.2, freed))) <$>
    tstep (cells_step (dsys_step (resolution self))) x p c.
Proof.
  destruct p as [a|a k|X body k|e]; simpl; [done| | |done].
  - by destruct (cells_step _ a x c) as [[r c']|].
  - unfold on_future. by rewrite translate_unroll.
Qed.

(** Every step of the drop of the future frees a buffer or is a step of the
    drop of the event. *)
Lemma represents_step l (r r' : rconfig) (d : dconfig) :
  represents r d → rstep' l r = Some r' →
  represents r' d ∨ ∃ d', dstep l d = Some d' ∧ represents r' d'.
Proof.
  intros (He & Hc & Hd) Hst. destruct d as [c q closed], r as [c' p closed' freed]. simpl in *. subst c' closed'.
  destruct l as [l| |]; simpl in Hst.
  - right. assert (enabled l (Build_dconfig c ((λ _, Ret tt) <$> p) closed) = enabled l (Build_dconfig c q closed)) as Hen.
    { destruct l; try done. by destruct p, q. }
    rewrite Hen in Hst. simpl. destruct (enabled l _); [|done].
    destruct (event_step _ ev None w l c) as [c1|]; [|done]. simplify_eq/=. by eexists.
  - destruct (ewho c) eqn:Hw; [|done]. destruct p; [done|]. destruct q; [done|]. simplify_eq/=. right.
    rewrite Hw. eexists. split; [done|]. split_and!; [done..|]. exists [], (buffers self). split_and!; try done.
    unfold resolve_drop. by rewrite Hev.
  - destruct p as [p|]; [|done]. destruct q as [q|]; [|done].
    destruct Hd as (bs & rest & Hb & -> & -> & Hq). destruct rest as [|b rest].
    + simpl free_all in Hst. simpl in Hst. rewrite tstep_event_drop in Hst.
      destruct (tstep (cells_step (dsys_step (resolution self))) EDefault q (ecl c, (ekn c, closed)))
        as [[q' [cs [k closed1]]]|] eqn:Hs; [|done]. simplify_eq/=. right. rewrite Hs. eexists. split; [done|].
      split_and!; [done..|]. exists bs, []. by split_and!.
    + left. simpl in Hst. simplify_eq/=. split_and!; [by destruct c|done|].
      exists (bs ++ [b]), rest. rewrite <- app_assoc. split_and!; [done| |done|].
      * rewrite concat_app. simpl. by rewrite app_nil_r.
      * intros _. by apply Hq.
Qed.

Lemma rexec_represents ls (r : rconfig) :
  rexec ls = Some r → ∃ ls' d, drop_exec (resolution self) ev None w ls' = Some d ∧ represents r d.
Proof.
  intros Hex.
  eapply (invariant (H := resolve_lts self ev w)
    (λ r : rconfig, ∃ ls' d, drop_exec (resolution self) ev None w ls' = Some d ∧ represents r d) ls r);
    [| |exact Hex].
  - exists []. eexists. split; [done|]. by split_and!.
  - intros l r1 r2 (ls' & d & Hex' & Hr) Hst.
    destruct (represents_step l r1 r2 d Hr Hst) as [Hr2|(d' & Hs & Hr2)]; [by exists ls', d|].
    exists (ls' ++ [l]), d'. split; [|done]. unfold drop_exec in *. rewrite exec_app, Hex'. simpl.
    change (lstep (LTS := drop_lts (resolution self) ev None w) l d) with (dstep l d). by rewrite Hs.
Qed.

(** The drop of the event still waits: when it has begun to close the event the
    resolution is over. *)
Lemma resolve_drop_waits ls (r : rconfig) :
  rexec ls = Some r → r_closed r ≠ [] → e_flight (ekn (r_event r)) = false.
Proof.
  intros Hex Hc. destruct (rexec_represents ls r Hex) as (ls' & d & Hd & He & Hcl & _).
  rewrite <- He. rewrite <- Hcl in Hc. apply drop_exec_inv in Hd as [[ph|] Hinv].
  - destruct Hinv as (Hinv & _ & Hclosed & Hwho & _ & Hlate). rewrite Hclosed in Hc.
    assert (late_drop ph = true) as Hl by (by destruct ph). apply Hlate in Hl.
    by destruct (not_busy_over _ _ _ _ _ Hinv Hwho Hl).
  - destruct Hinv as (_ & _ & Hclosed). by rewrite Hclosed in Hc.
Qed.

(** Freeing the buffers takes one step each, and nothing else moves. *)
Lemma free_all_steps bs (p : prog (sact waker) sans unit) (c : econfig W waker) closed freed :
  exec (H := resolve_lts self ev w) (replicate (length bs) DStep)
    (Build_rconfig c (Some (free_all bs p)) closed freed) =
  Some (Build_rconfig c (Some p) closed (freed ++ concat bs)).
Proof.
  revert freed. induction bs as [|b bs IH]; intros freed; simpl; [by rewrite app_nil_r|].
  destruct c. simpl. rewrite IH, <- app_assoc. done.
Qed.

(** What the system was told to read and to write is among what is freed. *)
Lemma resolution_in_use :
  ∃ host port hints result, resolution self = KResolve host port hints result ∧
    host ∈ in_use self ∧ (port = null ∨ port ∈ in_use self) ∧ hints ∈ in_use self ∧ result ∈ in_use self.
Proof.
  eexists _, _, _, _. split; [reflexivity|]. unfold in_use, buffers.
  destruct (SockAddr.port self); simpl; set_solver.
Qed.

(** C36. A resolution that is given up while the system works on it: before the
    drop of the event gets to wait for the end, the drop has freed the name, the
    service, the hints and the place the result is written to. *)
Theorem resolution_freed_in_flight ls (r : rconfig) :
  rexec ls = Some r → r_drop r = None → ewho (r_event r) = EIdle → e_flight (ekn (r_event r)) = true →
  ∃ r', rexec (ls ++ DDrop :: replicate (length (buffers self)) DStep) = Some r' ∧
    e_flight (ekn (r_event r')) = true ∧ r_closed r' = [] ∧
    ∃ host port hints result, resolution self = KResolve host port hints result ∧
      host ∈ r_freed r' ∧ (port = null ∨ port ∈ r_freed r') ∧ hints ∈ r_freed r' ∧ result ∈ r_freed r'.
Proof.
  intros Hex Hd Hwho Hf. destruct (rexec_represents ls r Hex) as (ls' & d & Hex' & _ & Hcl & Hr).
  rewrite Hd in Hr. destruct (d_drop d) eqn:Hdd; [done|]. apply drop_exec_inv in Hex' as [[ph|] Hinv].
  { destruct Hinv as (_ & Hx & _). congruence. }
  destruct Hinv as (_ & _ & Hc).
  destruct r as [c o closed freed]. simpl in Hd, Hwho, Hf, Hcl, Hr. subst o closed freed.
  exists (Build_rconfig c (Some (on_future (IoEvent.drop ev))) [] (in_use self)). split.
  { unfold resolve_exec in *. rewrite exec_app, Hex. cbn [mbind option_bind exec lstep resolve_lts resolve_step r_event r_drop r_closed r_freed].
    rewrite Hwho. cbn [mbind option_bind]. unfold resolve_drop. rewrite Hev, Hc. apply (free_all_steps (buffers self)). }
  split_and!; [done|done|]. apply resolution_in_use.
Qed.
End theorems.

(** ** Concrete schedules *)

(** The resolution of ["a:80"] whose event is [event0]. *)
Definition resolving0 : GetAddrInfoFuture := {|
  host := {| as_ptr := 8192; units := [97; 0] |};
  port := Some {| as_ptr := 8208; units := [56; 48; 0] |};
  inner_hints := 8224; inner_result := 8240;
  event := Ok event0;
|}.

Lemma resolution_freed_in_flight_witness :
  let ls := DEvent <$> epoll_pending 2 in
  ∃ r, resolve_exec (W := option nat) resolving0 event0 7%nat ls = Some r ∧
    ∃ r', resolve_exec (W := option nat) resolving0 event0 7%nat (ls ++ DDrop :: replicate 3 DStep) = Some r' ∧
      e_flight (ekn (r_event r')) = true ∧ r_closed r' = [].
Proof.
  intros ls.
  set (r := default (Build_rconfig estart_config None [] [])
              (resolve_exec (W := option nat) resolving0 event0 7%nat ls)).
  assert (resolve_exec (W := option nat) resolving0 event0 7%nat ls = Some r) as Hex by (vm_compute; reflexivity).
  assert (r_drop r = None) as Hd by (vm_compute; reflexivity).
  assert (ewho (r_event r) = EIdle) as Hw by (vm_compute; reflexivity).
  assert (e_flight (ekn (r_event r)) = true) as Hf by (vm_compute; reflexivity).
  clearbody r. exists r. split; [exact Hex|].
  destruct (resolution_freed_in_flight resolving0 event0 7%nat eq_refl ls r Hex Hd Hw Hf)
    as (r' & Hex' & Hf' & Hc' & _).
  exact (ex_intro _ r' (conj Hex' (conj Hf' Hc'))).
Defined.

(** ** What the drop leaves *)

(** A resolution that has succeeded and whose future is dropped before it is
    polled again: the list the system has allocated is never freed, only the
    iterator of a [Ready] frees it. *)
Lemma resolve_drop_leaks_the_list {waker} (self : GetAddrInfoFuture) :
  within (λ a : sact waker, frees_list a = None) (resolve_drop self).
Proof.
  unfold resolve_drop. apply within_free_all; [done|].
  destruct (event self) as [ev|]; [|done]. apply within_translate. solve_within.
Qed.
