(* ===== verification/Tcp.v ===== *)
(** * TCP: [src/src/net/tcp/listener.rs], [stream.rs], [split.rs], and the
    trait implementations of [read.rs] and [write.rs]

    The functions of this file build [IoEvent]s and [IoHandle]s, so their
    programs contain the actions of both, next to Win32 calls and the
    thread-local handle; those that are given addresses contain the actions of
    a resolution ([SockAddr]).  An [.await] is a loop that polls the inner
    future with the context of the poll in progress and suspends until the
    next one; the suspension names the local variables that are live in it,
    which are dropped when the future is given up there. *)

From S2P Require Import Prelude Prog Extern Win32 Threadpool Context.
From S2P Require Import IoState IoCells Socket IoHandle IoEvent IoBuf SockAddr.

(** ** Actions *)

(** A local variable of an [async] function that has a drop. *)
Inductive local :=
| LFuture (future : ToSocketAddrsInner)  (* the future of a resolution *)
| LIter (iter : ToSocketAddrsIter)       (* of the loop over the addresses *)
| LEvent (event : IoEvent).              (* Box<IoEvent> *)

Inductive nact (waker : Type) :=
| NEvent (a : hact waker)                (* on the cells of the event at hand *)
| NHandle (a : iact waker)               (* on the handle being built *)
| NTls (a : tls)
| NSys (c : win32)
| NAddrs (a : sact waker)                (* of a resolution *)
| NContext                               (* the waker of the poll in progress *)
| NSuspend (live : list local).          (* Poll::Pending, until the next poll *)
Arguments NEvent {waker} _.
Arguments NHandle {waker} _.
Arguments NTls {waker} _.
Arguments NSys {waker} _.
Arguments NAddrs {waker} _.
Arguments NContext {waker}.
Arguments NSuspend {waker} _.

Definition nans {waker} (a : nact waker) : Type :=
  match a with
  | NEvent a => hans a
  | NHandle a => ians a
  | NTls _ => option Handle
  | NSys c => win32_ans c
  | NAddrs a => sans a
  | NSuspend _ => unit
  | NContext => waker
  end.

#[export] Instance nact_win32 {waker} : HasWin32 (nact waker) nans := {
  win32_act := NSys;
  win32_res _ r := r;
}.
#[export] Instance nact_tls {waker} : HasTls (nact waker) nans := {
  tls_act := NTls;
  tls_ans _ r := r;
}.

(** ** Data *)

Record TcpListener := {
  l_socket : SOCKET;
  acceptex : Z;
  gaesa : Z;
}.

Record TcpStream (waker : Type) := { inner_handle : IoHandle waker }.
Arguments inner_handle {waker} _.
Arguments Build_TcpStream {waker} _.

Record Accept := {
  listener : TcpListener;
  client : result SOCKET Z;
  accept_event : result IoEvent Z;
  accept_buf : Z;
}.

Record Incoming := { inc_accept : Accept }.

(** Where the allocator puts an event, a handle and a buffer. *)
Record net_places := {
  np_event : Z; np_event_overlapped : Z;
  np_handle : Z; np_read_overlapped : Z; np_write_overlapped : Z;
  np_buf : Z;
  np_addrs : places;
}.

(** [mem::size_of::<SOCKADDR_IN6>() + 16] *)
Definition ADDR_SPACE : Z := 28 + 16.
Definition SOMAXCONN : Z := 2147483647.

(** The two addresses [connect] binds to: a [SOCKADDR_IN6] and a
    [SOCKADDR_IN], both with the family [AF_INET] and otherwise zero. *)
Definition any_in6 : sockaddr := {| sa_bytes := AF_INET :: replicate 27 0; sa_len := 28 |}.
Definition any_in : sockaddr := {| sa_bytes := AF_INET :: replicate 15 0; sa_len := 16 |}.

Section tcp.
Context {waker : Type}.
Abbreviation prog := (prog (nact waker) nans).

(** [SockAddr::from] of socket2, and [SockAddr::from_raw_parts(..).as_std()]. *)
Context (sock_addr : SocketAddr → sockaddr) (as_std : Z → Z → option SocketAddr).

Definition on_event {A} (p : Prog.prog (hact waker) hans A) : prog A := translate NEvent (λ _ r, r) p.
Definition on_addrs {A} (p : Prog.prog (sact waker) sans A) : prog A := translate NAddrs (λ _ r, r) p.
Definition on_handle {A} (p : Prog.prog (iact waker) ians A) : prog A := translate NHandle (λ _ r, r) p.

(** [WSAIoctl] with [SIO_GET_EXTENSION_FUNCTION_POINTER] *)
Definition extension_function (socket : SOCKET) (guid : extension) : prog (io_result Z) :=
  r <- sys (ExtensionFunction socket guid) ;;
  if decide (r.1 = 0 ∧ r.2 ≠ null) then Ret (Ok r.2)
  else err <- last_os_error ;; Ret (Err err).

Definition not_found : io_error := Custom NotFound "the provided address couldn't be resolved".

(** [IoHandle::new] for a connected socket. *)
Definition new_stream (at_ : net_places) (socket : SOCKET) (ce : CallbackEnviron) :
    prog (io_result (TcpStream waker)) :=
  inner <-? on_handle (IoHandle.new (np_handle at_) (np_read_overlapped at_) (np_write_overlapped at_)
    socket Socket.close Socket.read_schedule Socket.cancel Socket.write_schedule Socket.cancel ce) ;;
  Ret (Ok (Build_TcpStream inner)).

(** *** Awaiting *)

(** [.await], with the locals that are live across it *)
Definition await {R} (live : list local) (poll : waker → prog (Poll R)) : prog R :=
  loop (w <- act1 (NContext : nact waker) ;;
        p <- poll w ;;
        match p with
        | Ready r => Ret (Some r)
        | Pending => act1 (NSuspend live : nact waker) ;;; Ret None
        end).

(** [addr.to_socket_addrs().await]: the future is dropped when it is ready;
    [live] are the locals of the function around it. *)
Definition resolve {A} `{!ToSocketAddrs waker A} (live : list local) (at_ : net_places) (addr : A) :
    prog (io_result ToSocketAddrsIter) :=
  future <- on_addrs (to_socket_addrs (np_addrs at_) addr) ;;
  output <- await (LFuture future :: live) (λ w, on_addrs (addrs_poll future w)) ;;
  on_addrs (addrs_drop future) ;;;
  Ret output.

(** *** [TcpListener] *)

(** The loop over the addresses: whether one was bound, how many were tried. *)
Fixpoint try_bind (socket : SOCKET) (addrs : list SocketAddr) (tried : Z) : prog (bool * Z) :=
  match addrs with
  | [] => Ret (false, tried)
  | addr :: addrs =>
      ret <- sys (Bind socket (sock_addr addr)) ;;
      let tried := tried + 1 in
      if decide (ret = 0) then Ret (true, tried) else try_bind socket addrs tried
  end.

Definition bind {A} `{!ToSocketAddrs waker A} (at_ : net_places) (addr : A) : prog (io_result TcpListener) :=
  socket <-? Socket.new ;;
  acceptex <-? extension_function socket WSAID_ACCEPTEX ;;
  gaesa <-? extension_function socket WSAID_GETACCEPTEXSOCKADDRS ;;
  iter <-? resolve [] at_ addr ;;
  addrs <- on_addrs (for_addrs as_std iter) ;;
  b <- try_bind socket addrs 0 ;;
  on_addrs (iter_drop iter) ;;;
  let '(bound, tried) := b in
  if negb bound && (0 <? tried) then err <- last_os_error ;; Ret (Err err)
  else if negb bound then Ret (Err not_found)
  else
  ret <- sys (Listen socket SOMAXCONN) ;;
  if decide (ret ≠ 0) then err <- last_os_error ;; Ret (Err err)
  else Ret (Ok {| l_socket := socket; acceptex := acceptex; gaesa := gaesa |}).

(** [.map_err(|err| err.raw_os_error().unwrap())] *)
Definition raw_os_error {A} (r : io_result A) : prog (result A Z) :=
  match r with
  | Ok a => Ret (Ok a)
  | Err (OsError code) => Ret (Err code)
  | Err (Custom _ _) => Fault (Panicked "called `Option::unwrap()` on a `None` value")
  end.

(** [TcpListener::accept] *)
Definition accept (at_ : net_places) (self : TcpListener) : prog Accept :=
  socket <- Socket.new ;;
  client <- raw_os_error socket ;;
  h <- Context.current ;;
  e <- on_event (IoEvent.new (np_event at_) (np_event_overlapped at_) (callback_environ h)) ;;
  event <- raw_os_error e ;;
  Ret {| listener := self; client := client; accept_event := event; accept_buf := np_buf at_ |}.

(** [Accept::poll] *)
Definition accept_poll (at_ : net_places) (self : Accept) (w : waker) :
    prog (Poll (io_result (TcpStream waker * SocketAddr))) :=
  let socket := l_socket (listener self) in
  match client self with
  | Err code => Ret (Ready (Err (OsError code)))
  | Ok client =>
  match accept_event self with
  | Err code => Ret (Ready (Err (OsError code)))
  | Ok event =>
      poll <- on_event (IoEvent.poll event w (Some socket)
        (accept_schedule (acceptex (listener self)) socket client (accept_buf self) ADDR_SPACE)) ;;
      match poll with
      | Ready (Ok _) =>
          handle <- Context.current ;;
          addr <- sys (GetAcceptExSockaddrs (gaesa (listener self)) (accept_buf self) ADDR_SPACE ADDR_SPACE) ;;
          inner <- new_stream at_ client (callback_environ handle) ;;
          match inner with
          | Ok stream =>
              match as_std addr.1 addr.2 with
              | Some addr => Ret (Ready (Ok (stream, addr)))
              | None => Fault (Panicked "called `Option::unwrap()` on a `None` value")
              end
          | Err err => Ret (Ready (Err err))
          end
      | Ready (Err err) => Ret (Ready (Err err))
      | Pending => Ret Pending
      end
  end
  end.

(** The drop of an [Accept]: of its fields. *)
Definition accept_drop (self : Accept) : prog unit :=
  match accept_event self with
  | Ok event => on_event (IoEvent.drop event)
  | Err _ => Ret tt
  end.

(** [TcpListener::incoming] *)
Definition incoming (at_ : net_places) (self : TcpListener) : prog Incoming :=
  a <- accept at_ self ;; Ret {| inc_accept := a |}.

(** [Incoming::poll_next]; [next] is where the next [Accept] is put. *)
Definition poll_next (at_ next : net_places) (self : Incoming) (w : waker) :
    prog (Incoming * Poll (option (io_result (TcpStream waker * SocketAddr)))) :=
  let listener := listener (inc_accept self) in
  p <- accept_poll at_ (inc_accept self) w ;;
  match p with
  | Ready output =>
      a <- accept next listener ;;
      accept_drop (inc_accept self) ;;;
      Ret ({| inc_accept := a |}, Ready (Some output))
  | Pending => Ret (self, Pending)
  end.

(** [TcpListener::local_addr]: the listener owns its socket2 socket, which
    stays open when the [unwrap] panics. *)
Definition listener_addr (name : SOCKET → prog (io_result (option SocketAddr))) (self : TcpListener) :
    prog (io_result SocketAddr) :=
  a <- name (l_socket self) ;;
  match a with
  | Ok (Some a) => Ret (Ok a)
  | Ok None => Fault (Panicked "called `Option::unwrap()` on a `None` value")
  | Err e => Ret (Err e)
  end.

(** [TcpListener::ttl] and [set_ttl]: the function [op] of socket2. *)
Definition listener_option {T} (op : SOCKET → prog (io_result T)) (self : TcpListener) : prog (io_result T) :=
  op (l_socket self).

(** *** [TcpStream] *)

(** [sock_addr.as_ptr().read()]: a copy of one [SOCKADDR], 16 bytes. *)
Definition read_sockaddr (a : sockaddr) : sockaddr := {| sa_bytes := take 16 (sa_bytes a); sa_len := sa_len a |}.

(** [Connect]; [sockaddr] has both [addr] and [len]. *)
Record Connect := { c_connectex : Z; c_socket : SOCKET; c_event : IoEvent; c_addr : sockaddr }.

(** [Connect::poll] *)
Definition connect_poll (self : Connect) (w : waker) : prog (Poll (io_result unit)) :=
  on_event (IoEvent.poll (c_event self) w (Some (c_socket self))
    (connect_schedule (c_connectex self) (c_socket self) (c_addr self))).

(** The loop over the addresses: the last result, how many were tried. *)
Fixpoint try_connect (live : list local) (connectex : Z) (socket : SOCKET) (event : IoEvent) (addrs : list SocketAddr)
    (result : io_result unit) (tried : Z) : prog (io_result unit * Z) :=
  match addrs with
  | [] => Ret (result, tried)
  | addr :: addrs =>
      result <- await live (connect_poll {| c_connectex := connectex; c_socket := socket; c_event := event;
                                            c_addr := read_sockaddr (sock_addr addr) |}) ;;
      let tried := tried + 1 in
      match result with
      | Ok _ => Ret (result, tried)
      | Err _ => try_connect live connectex socket event addrs result tried
      end
  end.

(** A future that is given up while it is suspended is dropped: its live
    locals are, the last one first. *)
Definition drop_local (l : local) : prog unit :=
  match l with
  | LFuture future => on_addrs (addrs_drop future)
  | LIter iter => on_addrs (iter_drop iter)
  | LEvent event => on_event (IoEvent.drop event)
  end.

Fixpoint drop_locals (live : list local) : prog unit :=
  match live with
  | [] => Ret tt
  | l :: live => drop_local l ;;; drop_locals live
  end.

(** The [Box<IoEvent>] is dropped when the function is left. *)
Definition with_event {A} (event : IoEvent) (p : prog A) : prog A :=
  r <- p ;; on_event (IoEvent.drop event) ;;; Ret r.

Definition connect {A} `{!ToSocketAddrs waker A} (at_ : net_places) (addr : A) : prog (io_result (TcpStream waker)) :=
  handle <- Context.current ;;
  socket <-? Socket.new ;;
  ret <- sys (Bind socket any_in6) ;;
  bound <-? (if decide (ret ≠ 0) then
               ret <- sys (Bind socket any_in) ;;
               if decide (ret ≠ 0) then err <- last_os_error ;; Ret (Err err) else Ret (Ok tt)
             else Ret (Ok tt)) ;;
  connectex <-? extension_function socket WSAID_CONNECTEX ;;
  event <-? on_event (IoEvent.new (np_event at_) (np_event_overlapped at_) (callback_environ handle)) ;;
  with_event event (
    iter <-? resolve [LEvent event] at_ addr ;;
    addrs <- on_addrs (for_addrs as_std iter) ;;
    r <- try_connect [LIter iter; LEvent event] connectex socket event addrs (Err (OsError 0)) 0 ;;
    on_addrs (iter_drop iter) ;;;
    let '(result, tried) := r in
    match result with
    | Ok _ => handle <- Context.current ;; new_stream at_ socket (callback_environ handle)
    | Err err => if 0 <? tried then Ret (Err err) else Ret (Err not_found)
    end).

(** [TcpStream::with_socket]: a [Socket] on the stack that is forgotten when
    [f] returns, and dropped, which closes it, when [f] panics. *)
Definition with_socket {T} (self : TcpStream waker) (f : SOCKET → prog (T + fault)) : prog T :=
  let socket := handle (inner_handle self) in
  output <- f socket ;;
  match output with
  | inl output => Ret output
  | inr panic => sys (closesocket socket) ;;; Fault panic
  end.

(** [local_addr] and [peer_addr]; [name] is the function of socket2, whose
    address may not be an internet address. *)
Definition socket_name (name : SOCKET → prog (io_result (option SocketAddr))) (self : TcpStream waker) :
    prog (io_result SocketAddr) :=
  with_socket self (λ s,
    a <- name s ;;
    Ret match a with
        | Ok (Some a) => inl (Ok a)
        | Ok None => inr (Panicked "called `Option::unwrap()` on a `None` value")
        | Err e => inl (Err e)
        end).

(** [ttl], [set_ttl], [nodelay], [set_nodelay], [linger], [set_linger],
    [shutdown]: the function [op] of socket2 on the socket. *)
Definition socket_option {T} (op : SOCKET → prog (io_result T)) (self : TcpStream waker) : prog (io_result T) :=
  with_socket self (λ s, r <- op s ;; Ret (inl r)).

(** *** Reading and writing (read.rs, write.rs) *)

Definition stream_poll_read (self : TcpStream waker) (w : waker) (buf : IoSliceMut) :=
  IoHandle.poll_read (inner_handle self) w (as_mut_wsabuf buf).
Definition stream_cancel_read (self : TcpStream waker) (wait : bool) :=
  IoHandle.cancel_read (inner_handle self) wait.
Definition stream_poll_write (self : TcpStream waker) (w : waker) (buf : IoSlice) :=
  IoHandle.poll_write (inner_handle self) w (slice_as_wsabuf buf).
Definition stream_cancel_write (self : TcpStream waker) (wait : bool) :=
  IoHandle.cancel_write (inner_handle self) wait.
End tcp.

(** ** [TcpStream::split]

    The stream is an [Arc<IoHandle>]: an address whose strong count is shared
    state. *)

Abbreviation arcs := (gmap Z nat).

Record ArcStream := { arc : Z }.
Record ReadHalf := { rh_inner : ArcStream }.
Record WriteHalf := { wh_inner : ArcStream }.

(** [Arc::clone] *)
Definition arc_clone (a : ArcStream) (s : arcs) : ArcStream * arcs :=
  (a, <[arc a := S (default 0%nat (s !! arc a))]> s).

(** The drop of an [Arc]: whether it drops the [IoHandle]. *)
Definition arc_drop (a : ArcStream) (s : arcs) : bool * arcs :=
  match default 0%nat (s !! arc a) with
  | S (S n) => (false, <[arc a := S n]> s)
  | _ => (true, delete (arc a) s)
  end.

(** [TcpStream::split] *)
Definition split_stream (self : ArcStream) (s : arcs) : (ReadHalf * WriteHalf) * arcs :=
  let '(clone, s) := arc_clone self s in
  (({| rh_inner := clone |}, {| wh_inner := self |}), s).
