(* ===== verification/TcpThm.v ===== *)
(** * What binding, connecting and accepting guarantee *)

From S2P Require Import Prelude Prog Extern Win32 Threadpool Context.
From S2P Require Import IoState IoCells Socket IoHandle IoEvent SockAddr SockAddrThm Tcp.

Section events.
Context {waker : Type}.
Abbreviation prog := (prog (nact waker) nans).
Abbreviation event := (Prog.event (nact waker) nans).
Implicit Types (tr es : list event).

(** An event of the program itself, a system call. *)
Definition ev_sys (c : win32) (r : win32_ans c) : event := Ev (NSys c : nact waker) (r : nans (NSys c)).

(** The system call of an action, from wherever but a resolution it is made. *)
Definition call_of (a : nact waker) : option win32 :=
  match a with
  | NSys c | NEvent (HSys c) | NHandle (ISys c) | NHandle (On _ (HSys c)) => Some c
  | _ => None
  end.

Definition not_closing (a : nact waker) : Prop :=
  match a with
  | NAddrs a => not_closesocket a
  | a => match call_of a with Some (closesocket _) => False | _ => True end
  end.

(** No socket is closed. *)
Abbreviation quiet := (all_events not_closing).

Lemma quiet_snoc tr a (r : nans a) : quiet tr → not_closing a → quiet (tr ++ [Ev a r]).
Proof. intros Htr Ha. apply all_events_app. split; [done|]. apply all_events_cons; [done|apply all_events_nil]. Qed.

(** Win32 calls of the function itself that close no socket. *)
Definition plain (a : nact waker) : Prop :=
  match a with NSys (closesocket _) => False | NSys _ => True | _ => False end.

Lemma plain_quiet es : all_events plain es → quiet es.
Proof. intros Hes. eapply Forall_impl; [exact Hes|]. intros [a r]. by destruct a as [| | |[]| | |]. Qed.

(** A program that closes nothing, with its run. *)
Lemma wlp_quiet_run {A} (p : prog A) Q tr :
  within not_closing p → (∀ x es, quiet es → produces p es x → Q x (tr ++ es)) → wlp p Q tr.
Proof.
  intros Hp HQ. eapply wlp_mono; [|apply (wlp_with not_closing); [done|apply wlp_run]].
  intros x tr' [(es & -> & Hes) (es' & Heq & Hq)]. apply app_inv_head in Heq as <-. by apply HQ.
Qed.

(** An error that was reported by the system when the function returned. *)
Definition last_error (e : io_error) tr : Prop :=
  ∃ t r, tr = t ++ [ev_sys GetLastError r] ∧ e = OsError (as_i32 r).

Lemma last_error_app e tr es : last_error e es → last_error e (tr ++ es).
Proof. intros (t & r & -> & ->). exists (tr ++ t), r. by rewrite app_assoc. Qed.

Lemma last_error_cons e x tr : last_error e tr → last_error e (x :: tr).
Proof. apply (last_error_app e [x]). Qed.

Lemma last_error_snoc tr r : last_error (OsError (as_i32 r)) (tr ++ [ev_sys GetLastError r]).
Proof. by exists tr, r. Qed.

(** The thread pool was asked to watch a socket. *)
Definition handed_over (tr : list event) : Prop :=
  ∃ s this ce r, Ev (NHandle (ISys (CreateThreadpoolIo s this ce))) r ∈ tr.

Lemma handed_over_app tr1 tr2 : handed_over tr1 → handed_over (tr1 ++ tr2).
Proof. intros (s & this & ce & r & Hin). exists s, this, ce, r. set_solver. Qed.

Lemma handed_over_app_r tr1 tr2 : handed_over tr2 → handed_over (tr1 ++ tr2).
Proof. intros (s & this & ce & r & Hin). exists s, this, ce, r. set_solver. Qed.

End events.

(** Events of a known trace, one by one. *)
Ltac solve_events :=
  rewrite <- ?app_assoc; cbn [app];
  repeat first [ assumption | apply all_events_nil | apply all_events_cons; [done|]
               | by apply plain_quiet | solve [constructor] | constructor; [done|]
               | apply all_events_app; split | apply Forall_app; split | split ].

Section tcp.
Context {waker : Type}.
Abbreviation prog := (prog (nact waker) nans).
Abbreviation event := (Prog.event (nact waker) nans).
Context (sock_addr : SocketAddr → sockaddr) (as_std : Z → Z → option SocketAddr).
Context {A : Type} `{!ToSocketAddrs waker A, !ToSocketAddrsLaws waker A} (at_ : net_places) (addr : A).
Implicit Types (tr es : list event).
Abbreviation quiet := (all_events not_closing).

(** ** Pieces *)

Lemma await_within {R} ok live (poll : waker → prog (Poll R)) :
  ok NContext → ok (NSuspend live) → (∀ w, within ok (poll w)) → within ok (await live poll).
Proof.
  intros Hc Hs Hp. split; [|done]. split; [done|]. intros w. apply (within_bind ok (poll w)); [by apply Hp|].
  intros p. by destruct p.
Qed.

#[local] Opaque await.

Lemma on_addrs_quiet {B} (p : Prog.prog (sact waker) sans B) :
  within not_closesocket p → within not_closing (on_addrs p).
Proof. intros Hp. by apply within_translate. Qed.

#[local] Hint Resolve on_addrs_quiet : wae.

Lemma resolve_quiet live : within not_closing (resolve live at_ addr).
Proof.
  apply within_bind; [exact (on_addrs_quiet _ (to_addrs_quiet _ addr))|].
  intros future.
  apply within_bind; [apply await_within; [done..|]; intros w; eauto with wae|]. intros output.
  apply within_bind; [eauto with wae|done].
Qed.

(** The addresses that [addr] stands for, as the run [tr] finds them. *)
Definition resolves_to iter addrs tr : Prop :=
  ∃ live t1 t2, tr = t1 ++ t2 ∧ produces (resolve live at_ addr) t1 (inl (Ok iter)) ∧
    produces (on_addrs (for_addrs as_std iter)) t2 (inl addrs).

Definition drops_addrs iter tr : Prop := produces (on_addrs (waker := waker) (iter_drop iter)) tr (inl tt).

(** A resolution that fails, or panics. *)
Definition resolution_fails e tr : Prop :=
  ∃ live t1 t2, tr = t1 ++ t2 ∧ produces (resolve live at_ addr) t2 (inl (Err e)).
Definition resolution_panics f tr : Prop :=
  ∃ live t1 t2, tr = t1 ++ t2 ∧
    (produces (resolve live at_ addr) t2 (inr f) ∨ ∃ iter, produces (on_addrs (for_addrs as_std iter)) t2 (inr f)).

Lemma wlp_iter_drop iter Q tr :
  (∀ es, quiet es → drops_addrs iter es → Q (inl tt) (tr ++ es)) → wlp (on_addrs (iter_drop iter)) Q tr.
Proof.
  intros HQ. destruct iter as [o|l|iter].
  - rewrite <- (app_nil_r tr). apply HQ; [apply all_events_nil|constructor].
  - rewrite <- (app_nil_r tr). apply HQ; [apply all_events_nil|constructor].
  - intros []. apply (HQ [Ev (NAddrs (SSys (FreeAddrInfoExW (addrinfo iter)))) tt]); [by repeat constructor|].
    apply produces_act. constructor.
Qed.

(** Resolving, then looping over the addresses. *)
Lemma wlp_addrs {B} live (k : ToSocketAddrsIter → list SocketAddr → prog (io_result B)) Q tr :
  (∀ iter addrs es, quiet es → resolves_to iter addrs es → wlp (k iter addrs) Q (tr ++ es)) →
  (∀ e es, quiet es → resolution_fails e (tr ++ es) → Q (inl (Err e)) (tr ++ es)) →
  (∀ f es, quiet es → resolution_panics f (tr ++ es) → Q (inr f) (tr ++ es)) →
  wlp (iter <-? resolve live at_ addr ;; addrs <- on_addrs (for_addrs as_std iter) ;; k iter addrs) Q tr.
Proof.
  intros Hok Herr Hf. apply wlp_bind, wlp_quiet_run; [apply resolve_quiet|].
  intros [[iter|e]|f] es Hes Hp.
  - apply wlp_bind, wlp_quiet_run; [eauto with wae|]. intros [addrs|f] es2 Hes2 Hp2; rewrite <- app_assoc.
    + apply Hok; [by apply all_events_app|]. by exists live, es, es2.
    + apply Hf; [by apply all_events_app|]. exists live, (tr ++ es), es2. rewrite app_assoc. eauto.
  - apply Herr; [done|]. by exists live, tr, es.
  - apply Hf; [done|]. exists live, tr, es. eauto.
Qed.

Lemma wlp_socket_new (Q : io_result SOCKET + fault → list event → Prop) tr :
  (∀ s, s ≠ INVALID_SOCKET →
     Q (inl (Ok s)) (tr ++ [ev_sys (WSASocketW AF_UNSPEC SOCK_STREAM IPPROTO_TCP WSA_FLAG_OVERLAPPED) s])) →
  (∀ e es, quiet es → last_error e es → Q (inl (Err e)) (tr ++ es)) →
  wlp Socket.new Q tr.
Proof.
  intros Hok Herr s. simpl. case_decide as Hs; [by apply Hok|]. intros r. simpl. rewrite <- app_assoc.
  apply Herr; [by repeat constructor|]. by eexists [_], _.
Qed.

Lemma wlp_extension s g (Q : io_result Z + fault → list event → Prop) tr :
  (∀ f, f ≠ null → Q (inl (Ok f)) (tr ++ [ev_sys (ExtensionFunction s g) (0, f)])) →
  (∀ e es, quiet es → last_error e es → Q (inl (Err e)) (tr ++ es)) →
  wlp (extension_function s g) Q tr.
Proof.
  intros Hok Herr [ret f]. simpl. case_decide as Hf.
  - destruct Hf as [-> Hf]. by apply Hok.
  - intros r. simpl. rewrite <- app_assoc. apply Herr; [by repeat constructor|]. by eexists [_], _.
Qed.

(** The attempts that fail before one succeeds. *)
Definition failed_binds (s : SOCKET) (addrs : list SocketAddr) es : Prop :=
  Forall2 (λ a e, ∃ r, r ≠ 0 ∧ e = ev_sys (Bind s (sock_addr a)) r) addrs es.

Lemma failed_binds_nil s : failed_binds s [] [].
Proof. constructor. Qed.

Lemma failed_binds_plain s addrs es : failed_binds s addrs es → all_events plain es.
Proof.
  induction 1 as [|a e addrs es (r & _ & ->) _ IH]; [apply all_events_nil|]. by apply all_events_cons.
Qed.

Lemma wlp_try_bind s addrs tried (Q : (bool * Z) + fault → list event → Prop) tr :
  (∀ pre a post es, addrs = pre ++ a :: post → failed_binds s pre es →
     Q (inl (true, tried + Z.of_nat (length pre) + 1)) (tr ++ es ++ [ev_sys (Bind s (sock_addr a)) 0])) →
  (∀ es, failed_binds s addrs es → Q (inl (false, tried + Z.of_nat (length addrs))) (tr ++ es)) →
  wlp (try_bind sock_addr s addrs tried) Q tr.
Proof.
  revert tried tr. induction addrs as [|a addrs IH]; intros tried tr Hok Herr; simpl.
  { specialize (Herr [] (failed_binds_nil s)). simpl in Herr. by rewrite Z.add_0_r, app_nil_r in Herr. }
  intros ret. case_decide as Hr.
  - subst ret. simpl. specialize (Hok [] a addrs [] eq_refl (failed_binds_nil s)). simpl in Hok.
    by rewrite Z.add_0_r in Hok.
  - apply IH.
    + intros pre b post es -> Hes.
      specialize (Hok (a :: pre) b post (ev_sys (Bind s (sock_addr a)) ret :: es) eq_refl).
      rewrite <- app_assoc. simpl in *. replace (tried + 1 + Z.of_nat (length pre)) with
        (tried + Z.of_nat (S (length pre))) by lia. apply Hok. constructor; [by exists ret|done].
    + intros es Hes. specialize (Herr (ev_sys (Bind s (sock_addr a)) ret :: es)).
      rewrite <- app_assoc. simpl in *. replace (tried + 1 + Z.of_nat (length addrs)) with
        (tried + Z.of_nat (S (length addrs))) by lia. apply Herr. constructor; [by exists ret|done].
Qed.

(** ** [TcpListener::bind] *)

(** C26. [bind] succeeds when it has made a socket, found both extension
    functions, resolved the addresses, bound the first address that can be
    bound after failing on all those before it, freed the addresses, and
    started to listen: the listener has that socket and those functions.
    When it fails it has closed nothing, so the socket it made stays open for
    ever; the error is the last one of the system, or that of the resolution,
    or [NotFound] when the resolution yields no address.  It panics only when
    the resolution does. *)
Theorem bind_outcome tr (out : io_result TcpListener + fault) :
  produces (Tcp.bind sock_addr as_std at_ addr) tr out →
  match out with
  | inl (Ok l) => ∃ iter pre a post t es t',
      tr = [ev_sys (WSASocketW AF_UNSPEC SOCK_STREAM IPPROTO_TCP WSA_FLAG_OVERLAPPED) (l_socket l);
            ev_sys (ExtensionFunction (l_socket l) WSAID_ACCEPTEX) (0, acceptex l);
            ev_sys (ExtensionFunction (l_socket l) WSAID_GETACCEPTEXSOCKADDRS) (0, gaesa l)] ++ t ++ es ++
           [ev_sys (Bind (l_socket l) (sock_addr a)) 0] ++ t' ++ [ev_sys (Listen (l_socket l) SOMAXCONN) 0] ∧
      resolves_to iter (pre ++ a :: post) t ∧ failed_binds (l_socket l) pre es ∧ drops_addrs iter t' ∧
      l_socket l ≠ INVALID_SOCKET ∧ acceptex l ≠ null ∧ gaesa l ≠ null
  | inl (Err e) => quiet tr ∧
      (last_error e tr ∨ resolution_fails e tr ∨
       e = not_found ∧ ∃ iter t0 t t', tr = t0 ++ t ++ t' ∧ resolves_to iter [] t ∧ drops_addrs iter t')
  | inr f => quiet tr ∧ resolution_panics f tr
  end.
Proof.
  intros Hp. pattern out, tr. change tr with ([] ++ tr). eapply wlp_produces; [|exact Hp]. clear Hp tr out.
  unfold Tcp.bind. apply wlp_bind, wlp_socket_new; [|intros e es ? ?; split; [done|by left]].
  intros s Hs. simpl app.
  apply wlp_bind, wlp_extension; [|intros e es ? ?; split; [solve_events|left; by apply last_error_app]].
  intros f Hf. simpl app.
  apply wlp_bind, wlp_extension; [|intros e es ? ?; split; [solve_events|left; by apply last_error_app]].
  intros g Hg. apply wlp_addrs; [|intros; split; [solve_events|by auto]..].
  intros iter addrs es Hes Hres. apply wlp_bind, wlp_try_bind.
  - intros pre a post es' -> Hes'. apply failed_binds_plain in Hes' as Hpl.
    apply wlp_bind, wlp_iter_drop. intros t' Ht' Hdrop. simpl. intros ret. case_decide as Hret; simpl.
    + intros code. split; [solve_events|]. left. repeat apply last_error_cons. apply last_error_snoc.
    + subst ret. exists iter, pre, a, post, es, es', t'. split_and!; try done. by rewrite <- !app_assoc.
  - intros es' Hes'. apply failed_binds_plain in Hes' as Hpl. apply wlp_bind, wlp_iter_drop. intros t' Ht' Hdrop.
    destruct addrs as [|a addrs].
    + inversion Hes'; subst. simpl. split; [solve_events|]. right. right. split; [done|].
      eexists iter, [_; _; _], es, t'. split_and!; [|done..]. by rewrite app_nil_r.
    + simpl. intros code. split; [solve_events|]. left. repeat apply last_error_cons. apply last_error_snoc.
Qed.

(** ** [TcpStream::connect] *)

Lemma event_new_quiet this ov ce :
  within not_closing (on_event (waker := waker) (IoEvent.new this ov ce)).
Proof. apply within_translate. solve_within. Qed.

Lemma event_drop_quiet ev : within not_closing (on_event (waker := waker) (IoEvent.drop ev)).
Proof. apply within_translate. solve_within. Qed.

#[local] Opaque IoHandle.drop.

Lemma wlp_new_stream pl s ce (Q : io_result (TcpStream waker) + fault → list event → Prop) tr :
  (∀ st es, handle (inner_handle st) = s → quiet es → Q (inl (Ok st)) (tr ++ es)) →
  (∀ x es, (∀ st, x ≠ inl (Ok st)) → handed_over es → Q x (tr ++ es)) →
  wlp (new_stream pl s ce) Q tr.
Proof.
  intros Hok Herr. unfold new_stream. apply wlp_bind. unfold IoHandle.new. simpl. intros io.
  assert (handed_over (waker := waker) [Ev (NHandle (ISys (CreateThreadpoolIo s (np_handle pl) ce))) io]) as Hov.
  { exists s, (np_handle pl), ce, io. left. }
  destruct (is_null io).
  - intros code. apply wlp_translate_bind, (wlp_within (λ _, True)); [apply within_true|].
    intros x es _. rewrite <- !app_assoc.
    destruct x as [[]|f]; (apply Herr; [done|by apply handed_over_app]).
  - simpl. apply Hok; [done|]. solve_events.
Qed.

Lemma connect_poll_quiet c w : within not_closing (connect_poll (waker := waker) c w).
Proof. apply within_translate. solve_within. Qed.

(** One attempt to connect, with the polls it takes, to its outcome. *)
Definition attempt f s ev (a : SocketAddr) es (r : io_result unit) : Prop :=
  quiet es ∧ ∃ live, produces (await live (connect_poll (Build_Connect f s ev (read_sockaddr (sock_addr a))))) es (inl r).

(** The attempts to connect that fail before one succeeds. *)
Inductive failed_connects f s ev : list SocketAddr → list event → Prop :=
| failed_none : failed_connects f s ev [] []
| failed_one a e addrs es1 es2 :
    attempt f s ev a es1 (Err e) → failed_connects f s ev addrs es2 →
    failed_connects f s ev (a :: addrs) (es1 ++ es2).

Lemma failed_connects_quiet f s ev addrs es : failed_connects f s ev addrs es → quiet es.
Proof.
  induction 1 as [|a e addrs es1 es2 [? _] _ IH]; [apply all_events_nil|]. by apply all_events_app.
Qed.

Lemma wlp_attempt live f s ev a (Q : io_result unit + fault → list event → Prop) tr :
  (∀ r es, attempt f s ev a es r → Q (inl r) (tr ++ es)) →
  (∀ e es, quiet es → Q (inr e) (tr ++ es)) →
  wlp (await live (connect_poll (Build_Connect f s ev (read_sockaddr (sock_addr a))))) Q tr.
Proof.
  intros Hok Herr. apply wlp_quiet_run.
  - apply await_within; [done..|]. intros w. apply connect_poll_quiet.
  - intros [r|e] es Hes Hp; [apply Hok; by split; [|exists live]|by apply Herr].
Qed.

Lemma wlp_try_connect live f s ev addrs r0 tried (Q : (io_result unit * Z) + fault → list event → Prop) tr :
  (∀ pre a post es1 es2 n, addrs = pre ++ a :: post → failed_connects f s ev pre es1 →
     attempt f s ev a es2 (Ok tt) → Q (inl (Ok tt, n)) (tr ++ es1 ++ es2)) →
  (∀ r es n, failed_connects f s ev addrs es → (r = r0 ∨ ∃ e, r = Err e) → Q (inl (r, n)) (tr ++ es)) →
  (∀ e es, quiet es → Q (inr e) (tr ++ es)) →
  wlp (try_connect sock_addr live f s ev addrs r0 tried) Q tr.
Proof.
  revert r0 tried tr. induction addrs as [|a addrs IH]; intros r0 tried tr Hok Herr Hf; simpl try_connect.
  { specialize (Herr r0 [] tried). rewrite app_nil_r in Herr. apply Herr; [constructor|by left]. }
  apply wlp_bind, wlp_attempt; [|done].
  intros [[]|e] es1 Hes1.
  - specialize (Hok [] a addrs [] es1 (tried + 1) eq_refl). apply Hok; [constructor|done].
  - apply IH.
    + intros pre b post es es2 n -> Hes Hes2. rewrite <- app_assoc, (app_assoc es1).
      apply (Hok (a :: pre) b post (es1 ++ es) es2 n eq_refl); [by econstructor|done].
    + intros r es n Hes Hr. rewrite <- app_assoc.
      apply (Herr r (es1 ++ es) n); [by econstructor|]. right. destruct Hr as [->|?]; [by eexists|done].
    + intros e' es Hes. rewrite <- app_assoc. apply Hf. apply all_events_app. by destruct Hes1.
Qed.

Lemma wlp_current (Q : Handle + fault → list event → Prop) tr :
  (∀ x es, quiet es → Q x (tr ++ es)) → wlp Context.current Q tr.
Proof. intros HQ. apply (wlp_within not_closing); [|done]. by solve_within. Qed.

Definition created (s : SOCKET) : event :=
  ev_sys (WSASocketW AF_UNSPEC SOCK_STREAM IPPROTO_TCP WSA_FLAG_OVERLAPPED) s.

(** What a run of [connect] does and yields. *)
Definition connected (out : io_result (TcpStream waker) + fault) tr : Prop :=
  match out with
  | inl (Ok st) => quiet tr ∧ ∃ s f ev iter pre a post t1 t es1 es2 t2,
      tr = t1 ++ t ++ es1 ++ es2 ++ t2 ∧ resolves_to iter (pre ++ a :: post) t ∧
      failed_connects f s ev pre es1 ∧ attempt f s ev a es2 (Ok tt) ∧
      handle (inner_handle st) = s ∧ s ≠ INVALID_SOCKET ∧ created s ∈ t1
  | _ => quiet tr ∨ handed_over tr
  end.

Lemma connected_extend out tr es :
  quiet es → connected out tr → connected out (tr ++ es).
Proof.
  intros Hes. destruct out as [[st|e]|f]; simpl.
  - intros (Hq & s & f & ev & iter & pre & a & post & t1 & t & es1 & es2 & t2 & -> & ? & ? & ? & ? & ? & ?).
    split; [by apply all_events_app|]. exists s, f, ev, iter, pre, a, post, t1, t, es1, es2, (t2 ++ es).
    split_and!; try done. by rewrite <- !app_assoc.
  - intros [?|?]; [left; by apply all_events_app|right; by apply handed_over_app].
  - intros [?|?]; [left; by apply all_events_app|right; by apply handed_over_app].
Qed.

(** The part of [connect] that owns an event. *)
Lemma wlp_connect_tail s f ev tr :
  quiet tr → s ≠ INVALID_SOCKET → created s ∈ tr →
  wlp (iter <-? resolve [LEvent ev] at_ addr ;;
       addrs <- on_addrs (for_addrs as_std iter) ;;
       r <- try_connect sock_addr [LIter iter; LEvent ev] f s ev addrs (Err (OsError 0)) 0 ;;
       on_addrs (iter_drop iter) ;;;
       let '(result, tried) := r in
       match result with
       | Ok _ => handle <- Context.current ;; new_stream at_ s (callback_environ handle)
       | Err err => if 0 <? tried then Ret (Err err) else Ret (Err not_found)
       end) connected tr.
Proof.
  intros Htr Hs Hin. apply wlp_addrs; [|intros; left; solve_events..].
  intros iter addrs t Ht Hres. apply wlp_bind, wlp_try_connect.
  - intros pre a post es es' n -> Hes Hes'. apply wlp_bind, wlp_iter_drop. intros t' Ht' _. apply wlp_bind, wlp_current.
    apply failed_connects_quiet in Hes as Hq. pose proof (proj1 Hes') as Hq'.
    intros [h|e] es1 Hes1; [|left; solve_events]. apply wlp_new_stream.
    + intros st es2 Hst Hes2. split; [solve_events|].
      exists s, f, ev, iter, pre, a, post, tr, t, es, es', (t' ++ es1 ++ es2).
      split_and!; try done. by rewrite <- !app_assoc.
    + intros x es2 Hx Hov.
      destruct x as [[st|e]|e]; [by destruct (Hx st)|right; by apply handed_over_app_r..].
  - intros r es n Hes Hr. apply failed_connects_quiet in Hes as Hq. apply wlp_bind, wlp_iter_drop. intros t' Ht' _.
    destruct r as [|e]; [by destruct Hr as [|[? ?]]|]. case_match; left; solve_events.
  - intros e es Hes. left. solve_events.
Qed.

(** C25. [connect] succeeds when it has made a socket, resolved the addresses
    and connected the socket to the first address that accepts it after
    failing on all those before it: the stream has that socket, and nothing
    was closed.  When it fails, or panics, without having handed the socket
    over to the thread pool, it has closed nothing: the socket it made stays
    open for ever. *)
Theorem connect_outcome tr (out : io_result (TcpStream waker) + fault) :
  produces (connect sock_addr as_std at_ addr) tr out → connected out tr.
Proof.
  intros Hp. change tr with ([] ++ tr). eapply wlp_produces; [|exact Hp]. clear Hp tr out.
  apply wlp_bind, wlp_current. intros [h|e] es0 Hes0; [|left; solve_events].
  apply wlp_bind, wlp_socket_new; [|intros e es Hes _; left; solve_events].
  intros s Hs. apply wlp_bind. intros ret. apply wlp_bind.
  apply (wlp_within not_closing); [solve_within|].
  intros [[[]|e]|e] es1 Hes1; [|left; solve_events..].
  apply wlp_bind, wlp_extension; [|intros e es Hes _; left; solve_events].
  intros f Hf. apply wlp_bind, (wlp_within not_closing); [apply event_new_quiet|].
  intros [[ev|e]|e] es2 Hes2; [|left; solve_events..].
  unfold with_event. apply wlp_bind. eapply wlp_mono; [|apply wlp_connect_tail; [solve_events|done|unfold created; set_solver]].
  intros [r|e] tr' Htr'; [|done]. apply wlp_bind, (wlp_within not_closing); [apply event_drop_quiet|].
  intros [[]|e] es3 Hes3; [by apply (connected_extend (inl r))|].
  apply (connected_extend _ _ es3) in Htr'; [|done]. destruct r as [st|]; [by left; destruct Htr'|done].
Qed.

(** An attempt to connect is given a copy of one [SOCKADDR]. *)
Definition copies_an_address (a : nact waker) : Prop :=
  match a with
  | NEvent (HSys (ConnectEx _ _ addr _)) => ∃ a, addr = read_sockaddr (sock_addr a)
  | _ => True
  end.

Lemma try_connect_copies live f s ev addrs r n : within copies_an_address (try_connect sock_addr live f s ev addrs r n).
Proof.
  revert r n. induction addrs as [|a addrs IH]; intros r n; [done|]. simpl try_connect.
  apply within_bind; [|by intros []]. apply await_within; [done..|]. intros w. apply within_translate.
  simpl. solve_within. by exists a.
Qed.

Lemma event_new_copies this ov ce : within copies_an_address (on_event (waker := waker) (IoEvent.new this ov ce)).
Proof. apply within_translate. solve_within. Qed.

Lemma event_drop_copies ev : within copies_an_address (on_event (waker := waker) (IoEvent.drop ev)).
Proof. apply within_translate. solve_within. Qed.

Lemma on_handle_copies {B} (p : Prog.prog (iact waker) ians B) : within copies_an_address (on_handle p).
Proof. apply within_translate. simpl. apply within_true. Qed.

#[local] Opaque IoEvent.new IoHandle.new IoEvent.drop.

Lemma on_addrs_copies {B} (p : Prog.prog (sact waker) sans B) : within copies_an_address (on_addrs p).
Proof. apply within_translate. simpl. apply within_true. Qed.

Lemma resolve_copies live : within copies_an_address (resolve live at_ addr).
Proof.
  apply within_bind; [apply on_addrs_copies|]. intros future.
  apply within_bind; [apply await_within; [done..|]; intros w; apply on_addrs_copies|]. intros output.
  apply within_bind; [apply on_addrs_copies|done].
Qed.

Lemma connect_copies : within copies_an_address (connect sock_addr as_std at_ addr).
Proof.
  unfold connect, with_event, new_stream, extension_function.
  repeat first [ done | apply try_connect_copies | apply event_new_copies | apply event_drop_copies | apply on_handle_copies
               | apply resolve_copies | apply on_addrs_copies
               | apply within_bind | intro | case_match | progress simpl | split ].
Qed.

(** C40. Whatever the addresses, [connect] hands the system an object of at most
    16 bytes together with the length of the whole address: for an address of
    28 bytes, what an IPv6 address takes, the system reads past the object. *)
Theorem connect_truncates_addresses tr (out : io_result (TcpStream waker) + fault) f s ev given (r : Z) :
  produces (connect sock_addr as_std at_ addr) tr out → Ev (NEvent (HSys (ConnectEx f s given ev))) r ∈ tr →
  ∃ a, sa_len given = sa_len (sock_addr a) ∧ sa_bytes given = take 16 (sa_bytes (sock_addr a)) ∧
       (sa_len (sock_addr a) = 28 → Z.of_nat (length (sa_bytes given)) < sa_len given).
Proof.
  intros Hp Hin.
  assert (all_events copies_an_address tr) as Hall.
  { change tr with ([] ++ tr). revert Hp.
    apply (wlp_produces _ (λ _ tr, all_events copies_an_address tr)), (wlp_within copies_an_address);
      [apply connect_copies|done]. }
  destruct (proj1 (Forall_forall _ _) Hall _ Hin) as [a ->]. exists a. split_and!; [done..|].
  intros Hlen. simpl. rewrite length_take, Hlen. lia.
Qed.

End tcp.

(** ** [TcpListener::accept] *)

Section accept.
Context {waker : Type}.
Abbreviation prog := (prog (nact waker) nans).
Abbreviation event := (Prog.event (nact waker) nans).
Implicit Types (tr es : list event).
Context (as_std : Z → Z → option SocketAddr).
Abbreviation quiet := (all_events not_closing).

(** A task polls the future at most [n] times, until it is ready. *)
Fixpoint accept_polls (n : nat) at_ (a : Accept) (w : waker) :
    prog (Poll (io_result (TcpStream waker * SocketAddr))) :=
  match n with
  | O => Ret Pending
  | S n =>
      p <- accept_poll as_std at_ a w ;;
      match p with
      | Pending => accept_polls n at_ a w
      | Ready r => Ret (Ready r)
      end
  end.

(** The life of an [Accept]: made, polled, dropped. *)
Definition accept_life (n : nat) at_ (l : TcpListener) (w : waker) :
    prog (Poll (io_result (TcpStream waker * SocketAddr))) :=
  a <- accept at_ l ;;
  p <- accept_polls n at_ a w ;;
  accept_drop a ;;;
  Ret p.

Definition accepted (out : Poll (io_result (TcpStream waker * SocketAddr)) + fault) tr : Prop :=
  match out with
  | inl (Ready (Ok (st, _))) => quiet tr ∧ created (handle (inner_handle st)) ∈ tr
  | inl Pending => quiet tr
  | _ => quiet tr ∨ handed_over tr
  end.

Lemma accepted_extend out tr es : quiet es → accepted out tr → accepted out (tr ++ es).
Proof.
  intros Hes. assert (quiet tr ∨ handed_over tr → quiet (tr ++ es) ∨ handed_over (tr ++ es)) as Hother.
  { intros [?|?]; [left; by apply all_events_app|right; by apply handed_over_app]. }
  destruct out as [[[[st a]|e]|]|f]; simpl; try done.
  2:{ intros ?. by apply all_events_app. }
  intros [? ?]. split; [by apply all_events_app|set_solver].
Qed.

(** The socket an [Accept] was given. *)
Definition client_in (a : Accept) tr : Prop := ∀ s, client a = Ok s → created s ∈ tr.

Lemma wlp_accept at_ l (Q : Accept + fault → list event → Prop) tr :
  (∀ a es, quiet es → client_in a es → Q (inl a) (tr ++ es)) →
  (∀ f es, quiet es → Q (inr f) (tr ++ es)) →
  wlp (accept at_ l) Q tr.
Proof.
  intros Hok Herr.
  assert (∀ c es, quiet es → (∀ s, c = Ok s → created s ∈ es) →
    wlp (h <- Context.current ;;
         e <- on_event (IoEvent.new (np_event at_) (np_event_overlapped at_) (callback_environ h)) ;;
         event <- raw_os_error e ;;
         Ret {| listener := l; client := c; accept_event := event; accept_buf := np_buf at_ |}) Q (tr ++ es)) as Hrest.
  { intros c es Hes Hc. apply wlp_bind, wlp_current.
    intros [h|f] es1 Hes1; [|rewrite <- app_assoc; apply Herr; solve_events].
    apply wlp_bind, (wlp_within not_closing); [apply event_new_quiet|].
    intros [[ev|[code|? ?]]|f] es2 Hes2; rewrite <- !app_assoc; simpl;
      first [ by apply Herr; solve_events | apply Hok; [solve_events|] ].
    - intros s Heq. apply Hc in Heq. set_solver.
    - intros s Heq. apply Hc in Heq. set_solver. }
  unfold accept. apply wlp_bind, wlp_socket_new.
  - intros s _. apply wlp_bind. apply Hrest; [solve_events|]. intros ? [= ->]. left.
  - intros e es Hes (t & r & _ & ->). apply wlp_bind. apply Hrest; [solve_events|done].
Qed.

Lemma event_poll_quiet ev w h f s c buf space :
  within not_closing (on_event (waker := waker) (IoEvent.poll ev w h (accept_schedule f s c buf space))).
Proof. apply within_translate. solve_within. Qed.

Lemma client_in_app a tr es : client_in a tr → client_in a (tr ++ es).
Proof. intros Ha s Hs. apply Ha in Hs. set_solver. Qed.

Lemma wlp_accept_poll at_ a w tr :
  quiet tr → client_in a tr →
  wlp (accept_poll as_std at_ a w) (λ p tr', accepted p tr' ∧ (p = inl Pending → client_in a tr')) tr.
Proof.
  intros Htr Ha. unfold accept_poll.
  destruct (client a) as [c|code] eqn:Hc; [|by split; [left|]]. pose proof (Ha c Hc) as Hin.
  destruct (accept_event a) as [ev|code]; [|by split; [left|]].
  apply wlp_bind, (wlp_within not_closing); [apply event_poll_quiet|].
  intros [[[[]|e]|]|f] es Hes; [|split; [|try done]..]; [|left; solve_events|simpl; solve_events| |left; solve_events].
  2:{ intros _. by apply client_in_app. }
  apply wlp_bind, wlp_current. intros [h|f] es1 Hes1; [|split; [left; solve_events|done]].
  apply wlp_bind. intros addr. apply wlp_bind, wlp_new_stream.
  - intros st es2 Hst Hes2. simpl. case_match; (split; [|done]); [|left; solve_events].
    split; [solve_events|]. rewrite Hst. set_solver.
  - intros x es2 Hx Hov.
    destruct x as [[st|e]|f]; [by destruct (Hx st)|(split; [|done]); right; by apply handed_over_app_r..].
Qed.

Lemma wlp_accept_polls n at_ a w tr :
  quiet tr → client_in a tr → wlp (accept_polls n at_ a w) accepted tr.
Proof.
  revert tr. induction n as [|n IH]; intros tr Htr Ha; [done|].
  apply wlp_bind. eapply wlp_mono; [|by apply wlp_accept_poll].
  intros [[r|]|f] tr' [Hacc Hin]; [done| |done]. apply IH; [done|by apply Hin].
Qed.

(** C27. The life of an [Accept], however often it is polled: a stream it yields
    has the socket that was made for it, and nothing was closed; in every
    other case (it is dropped before it is ready, the connection fails, the
    future panics) nothing is closed unless the socket was handed over to the
    thread pool, so the socket made for the client stays open for ever. *)
Theorem accept_outcome n at_ l w tr (out : Poll (io_result (TcpStream waker * SocketAddr)) + fault) :
  produces (accept_life n at_ l w) tr out → accepted out tr.
Proof.
  intros Hp. change tr with ([] ++ tr). eapply wlp_produces; [|exact Hp]. clear Hp tr out.
  apply wlp_bind, wlp_accept; [|intros f es Hes; left; solve_events].
  intros a es Hes Ha. apply wlp_bind. eapply wlp_mono; [|by apply wlp_accept_polls].
  intros [p|f] tr' Htr'; [|done]. unfold accept_drop. apply wlp_bind.
  destruct (accept_event a) as [ev|]; [|done].
  apply (wlp_within not_closing); [apply event_drop_quiet|]. intros [[]|f] es1 Hes1.
  - by apply (accepted_extend (inl p)).
  - apply (accepted_extend (inl p) _ es1) in Htr'; [|done]. destruct p as [[[st addr]|]|]; [|done|by left].
    left. by destruct Htr'.
Qed.

(** ** [TcpStream::with_socket] *)

(** Asking a stream for an address that is not an internet address panics
    and closes the socket of the stream, which still owns it: its drop will
    close it a second time.  In every other case nothing is closed. *)
Theorem socket_name_outcome (self : TcpStream waker) (a : io_result (option SocketAddr)) tr out :
  produces (socket_name (λ _, Ret a) self) tr out ↔
  match a with
  | Ok (Some addr) => tr = [] ∧ out = inl (Ok addr)
  | Err e => tr = [] ∧ out = inl (Err e)
  | Ok None =>
      out = inr (Panicked "called `Option::unwrap()` on a `None` value") ∧
      ∃ r, tr = [ev_sys (closesocket (handle (inner_handle self))) r]
  end.
Proof.
  split.
  - intros Hp. pattern out, tr. change tr with ([] ++ tr). eapply wlp_produces; [|exact Hp]. clear Hp tr out.
    destruct a as [[addr|]|e]; simpl; [done| |done]. intros r. split; [done|by exists r].
  - destruct a as [[addr|]|e].
    + intros [-> ->]. constructor.
    + intros (-> & r & ->). apply produces_act. constructor.
    + intros [-> ->]. constructor.
Qed.
End accept.

(** ** [TcpStream::split] *)

(** The two halves of a stream can be dropped in either order: the first
    drop leaves the handle alone, the second one drops it. *)
Theorem split_halves_drop_once (self : ArcStream) (s : arcs) :
  s !! arc self = Some 1%nat →
  let '((r, w), s1) := split_stream self s in
  (∃ s2, arc_drop (rh_inner r) s1 = (false, s2) ∧ arc_drop (wh_inner w) s2 = (true, delete (arc self) s)) ∧
  (∃ s2, arc_drop (wh_inner w) s1 = (false, s2) ∧ arc_drop (rh_inner r) s2 = (true, delete (arc self) s)).
Proof.
  intros Hs. unfold split_stream, arc_clone, arc_drop. rewrite Hs. simpl.
  rewrite lookup_insert_eq. simpl. rewrite insert_insert_eq.
  split; eexists; (split; [done|]); rewrite lookup_insert_eq; simpl; by rewrite delete_insert_eq.
Qed.

Lemma split_halves_drop_once_witness :
  let self := {| arc := 8 |} in let s : arcs := {[ 8 := 1%nat; 16 := 3%nat ]} in
  let '((r, w), s1) := split_stream self s in
  (∃ s2, arc_drop (rh_inner r) s1 = (false, s2) ∧ arc_drop (wh_inner w) s2 = (true, delete (arc self) s)) ∧
  (∃ s2, arc_drop (wh_inner w) s1 = (false, s2) ∧ arc_drop (rh_inner r) s2 = (true, delete (arc self) s)).
Proof. apply (split_halves_drop_once {| arc := 8 |} {[ 8 := 1%nat; 16 := 3%nat ]}). reflexivity. Defined.
