(* ===== verification/TcpEx.v ===== *)
(** * Concrete runs of binding, connecting and accepting: witnesses *)

From S2P Require Import Prelude Prog Extern Win32 Threadpool Context.
From S2P Require Import IoState IoCells Socket IoHandle IoEvent SockAddr SockAddrThm Tcp TcpThm.

(** ** Answers *)

(** A system where every call succeeds; the sockets, handles and functions it
    makes are numbered. *)
Definition system (c : win32) : win32_ans c :=
  match c with
  | WSASocketW _ _ _ _ => 7
  | Bind _ _ | Listen _ _ => 0
  | ExtensionFunction _ _ => (0, 512)
  | GetAcceptExSockaddrs _ _ _ _ => (4096, 16)
  | GetAddrInfoExW _ _ _ _ _ => 0
  | c => win32_answer 1 c
  end.

(** A cell that is [IDLE]. *)
Definition idle_cell (a : atomic) : atomic_ans a :=
  match a with
  | ALoad => IDLE
  | AStore _ => tt
  | ASwap _ => IDLE
  | ACompareExchange current _ => bool_decide (current = IDLE)
  end.

Definition event_answer (a : hact nat) : hans a :=
  match a with
  | HState a => idle_cell a
  | HResultGet => None
  | HResultSet _ _ | HRegister _ | HWake | HMayBlock => tt
  | HSys c => system c
  end.

(** Where the system has put the list of addresses. *)
Definition list_at : Z := 4104.

Section answers.
Context (nodes : gmap Z ADDRINFOEXW) (connect_to : sockaddr → Z).
Definition answer (a : nact nat) : nans a :=
  match a with
  | NEvent (HSys (ConnectEx _ _ addr _)) => connect_to addr
  | NEvent a | NAddrs (SEvent a) => event_answer a
  | NHandle (On _ a) => event_answer a
  | NHandle (ISys c) => system c
  | NTls _ | NAddrs (STls _) => Some (handle0 Normal)
  | NSys c | NAddrs (SSys c) => system c
  | NAddrs (SStored _) => list_at
  | NAddrs SNodes => nodes
  | NAddrs (SFree _) | NSuspend _ => tt
  | NContext => 9%nat
  end.
End answers.

(** ** Addresses: an IPv4 address takes 16 bytes, an IPv6 address 28. *)

Definition v4 (n : Z) : SocketAddr := AddrV4 {| sin_addr := {| v4_bits := n |}; sin_port := 80 |}.
Definition v6 (n : Z) : SocketAddr :=
  AddrV6 {| sin6_addr := {| v6_bits := n |}; sin6_port := 80; sin6_flowinfo := 0; sin6_scope_id := 0 |}.

Definition raw_addr (a : SocketAddr) : sockaddr :=
  match a with
  | AddrV4 a => {| sa_bytes := AF_INET :: replicate 14 0 ++ [v4_bits (sin_addr a)]; sa_len := 16 |}
  | AddrV6 a => {| sa_bytes := AF_INET6 :: replicate 26 0 ++ [v6_bits (sin6_addr a)]; sa_len := 28 |}
  end.

Definition places0 : net_places :=
  {| np_event := 8; np_event_overlapped := 16; np_handle := 24; np_read_overlapped := 32;
     np_write_overlapped := 40; np_buf := 48;
     np_addrs := {| at_host := 8192; at_port := 8208; at_hints := 8224; at_result := 8240;
                    at_event := 56; at_overlapped := 64 |} |}.

(** Names are resolved by the system, to two addresses and a node that is not
    one. *)
#[export] Instance names : ToSocketAddrs nat (str * Z) := host_to_addrs (λ _, None).
#[export] Instance names_laws : ToSocketAddrsLaws nat (str * Z) := host_laws (λ _, None).

Definition node (addr next : Z) : ADDRINFOEXW := {| ai_addr := addr; ai_addrlen := 16; ai_next := next |}.
Definition two_nodes : gmap Z ADDRINFOEXW :=
  {[ list_at := node 0 4112; 4112 := node 1 4120; 4120 := node 2 0 ]}.
Definition as_std (addr _ : Z) : option SocketAddr := if decide (addr = 0) then None else Some (v4 addr).

(** ** Witnesses *)

Definition run_of {A} (nodes : gmap Z ADDRINFOEXW) (connect_to : sockaddr → Z)
    (p : prog (nact nat) nans A) : list (Prog.event (nact nat) nans) * (A + fault) :=
  default ([], inr (Panicked "")) (follow 300 (answer nodes connect_to) p).

Lemma run_of_produces {A} nodes connect_to (p : prog (nact nat) nans A) :
  (if follow 300 (answer nodes connect_to) p is Some _ then true else false) = true →
  produces p (run_of nodes connect_to p).1 (run_of nodes connect_to p).2.
Proof.
  unfold run_of. destruct (follow _ _ _) as [[tr out]|] eqn:Hf; [|done]. intros _.
  by eapply follow_produces.
Qed.

Lemma bind_outcome_witness :
  let l := {| l_socket := 7; acceptex := 512; gaesa := 512 |} in
  let p := Tcp.bind raw_addr as_std places0 ([97], 80) in
  let r := run_of two_nodes (λ _, TRUE) p in
  produces p r.1 (inl (Ok l)) ∧
  ∃ iter pre a post t es n, resolves_to as_std (A := str * Z) places0 ([97], 80) iter (pre ++ a :: post) t ∧
    failed_binds (waker := nat) raw_addr (l_socket l) pre es ∧ length r.1 = (5 + length t + length es + n)%nat.
Proof.
  intros l p r.
  assert (r.2 = inl (Ok l)) as Hout by (vm_compute; reflexivity).
  assert (produces p r.1 (inl (Ok l))) as Hp
    by (rewrite <- Hout; apply run_of_produces; vm_compute; reflexivity).
  split; [exact Hp|].
  destruct (bind_outcome raw_addr as_std places0 ([97], 80) r.1 _ Hp) as (iter & pre & a & post & t & es & t' & Htr & Hres & Hes & _).
  exists iter, pre, a, post, t, es, (length t'). split; [exact Hres|]. split; [exact Hes|]. rewrite Htr.
  rewrite !length_app. simpl. lia.
Defined.

(** The second address accepts the connection. *)
Definition second_accepts (a : sockaddr) : Z :=
  if decide (last (sa_bytes a) = Some 2) then TRUE else FALSE.

Lemma connect_outcome_witness :
  let p := connect raw_addr as_std places0 ([97], 80) in
  let r := run_of two_nodes second_accepts p in
  produces p r.1 r.2 ∧ match r.2 with inl (Ok _) => true | _ => false end = true ∧
  connected raw_addr as_std (A := str * Z) places0 ([97], 80) r.2 r.1.
Proof.
  intros p r.
  assert (produces p r.1 r.2) as Hp by (apply run_of_produces; vm_compute; reflexivity).
  split; [exact Hp|]. split; [vm_compute; reflexivity|].
  exact (connect_outcome raw_addr as_std places0 ([97], 80) r.1 r.2 Hp).
Defined.

Lemma connect_truncates_addresses_witness :
  let p := connect raw_addr as_std places0 [v6 1] in
  let r := run_of ∅ (λ _, TRUE) p in
  let addr := read_sockaddr (raw_addr (v6 1)) in
  let call := Ev (NEvent (HSys (ConnectEx 512 7 addr 16)) : nact nat) TRUE in
  produces p r.1 r.2 ∧ call ∈ r.1 ∧
  ∃ a, sa_len addr = sa_len (raw_addr a) ∧ sa_bytes addr = take 16 (sa_bytes (raw_addr a)) ∧
       (sa_len (raw_addr a) = 28 → Z.of_nat (length (sa_bytes addr)) < sa_len addr).
Proof.
  intros p r addr call.
  assert (produces p r.1 r.2) as Hp by (apply run_of_produces; vm_compute; reflexivity).
  assert (call ∈ r.1) as Hin.
  { vm_compute. repeat first [left; reflexivity | right]. }
  split; [exact Hp|]. split; [exact Hin|].
  exact (connect_truncates_addresses raw_addr as_std places0 [v6 1] r.1 r.2 512 7 16 addr TRUE Hp Hin).
Defined.

Lemma accept_outcome_witness :
  let l := {| l_socket := 5; acceptex := 512; gaesa := 513 |} in
  let as_std (_ _ : Z) := Some (v4 1) in
  let r := run_of ∅ (λ _, TRUE) (accept_life as_std 2 places0 l 9%nat) in
  produces (accept_life as_std 2 places0 l 9%nat) r.1 r.2 ∧
  match r.2 with inl (Ready (Ok _)) => true | _ => false end = true ∧ accepted r.2 r.1.
Proof.
  intros l as_std r.
  assert (produces (accept_life as_std 2 places0 l 9%nat) r.1 r.2) as Hp
    by (apply run_of_produces; vm_compute; reflexivity).
  split; [exact Hp|]. split; [vm_compute; reflexivity|].
  exact (accept_outcome as_std 2 places0 l 9%nat r.1 r.2 Hp).
Defined.
