(* ===== verification/ResolveThm.v ===== *)
(** * The lists of addresses that [bind] and [connect] resolve

    The system allocates a list for a resolution; the future takes the pointer
    to it, and the iterator frees it.  Here the lists that [bind] and
    [connect] take and free are counted, along whole runs. *)

From S2P Require Import Prelude Prog Extern Win32 Threadpool Context.
From S2P Require Import IoState IoCells Socket IoHandle IoEvent SockAddr SockAddrThm Tcp TcpThm TcpEx.

Section lists.
Context {waker : Type}.
Abbreviation prog := (prog (nact waker) nans).
Abbreviation event := (Prog.event (nact waker) nans).
Implicit Types (tr es : list event).

(** ** The lists a run takes and frees *)

Definition taken_by (e : event) : option Z :=
  match e with
  | Ev a r =>
      match a return nans a → option Z with
      | NAddrs a => match a return sans a → option Z with SStored _ => λ p, Some p | _ => λ _, None end
      | _ => λ _, None
      end r
  end.

(** Whoever frees it. *)
Definition frees (a : nact waker) : option Z :=
  match a with
  | NAddrs a => frees_list a
  | a => match call_of a with Some (FreeAddrInfoExW p) => Some p | _ => None end
  end.
Definition freed_by (e : event) : option Z := let '(Ev a _) := e in frees a.

Definition taken tr : list Z := omap taken_by tr.
Definition freed tr : list Z := omap freed_by tr.

(** The list an iterator owns. *)
Definition owned (iter : ToSocketAddrsIter) : list Z :=
  match iter with FutureIter iter => [addrinfo iter] | _ => [] end.

(** An action that has nothing to do with lists. *)
Definition other (a : nact waker) : Prop :=
  match a with NAddrs a => no_list a | a => frees a = None end.

Lemma taken_app tr es : taken (tr ++ es) = taken tr ++ taken es.
Proof. unfold taken. apply omap_app. Qed.

Lemma freed_app tr es : freed (tr ++ es) = freed tr ++ freed es.
Proof. unfold freed. apply omap_app. Qed.

(** [es] takes [t] and frees [f]. *)
Definition moves_lists es t f : Prop := taken es = t ∧ freed es = f.

Lemma moves_app es1 es2 t1 f1 t2 f2 :
  moves_lists es1 t1 f1 → moves_lists es2 t2 f2 → moves_lists (es1 ++ es2) (t1 ++ t2) (f1 ++ f2).
Proof. intros [<- <-] [<- <-]. split; [apply taken_app|apply freed_app]. Qed.

Lemma other_moves es : all_events other es → moves_lists es [] [].
Proof.
  induction 1 as [|[a r] es Ha _ [IHt IHf]]; [done|].
  assert (taken_by (Ev a r) = None ∧ freed_by (Ev a r) = None) as [Ht Hf].
  { destruct a as [| | | |[]| |]; simpl in *; unfold no_list in Ha; naive_solver. }
  unfold moves_lists, taken, freed in *. cbn [omap list_omap]. by rewrite Ht, Hf.
Qed.

Lemma wlp_other {A} (p : prog A) Q tr :
  within other p → (∀ x es, moves_lists es [] [] → Q x (tr ++ es)) → wlp p Q tr.
Proof. intros Hp HQ. apply (wlp_within other); [done|]. intros x es Hes. by apply HQ, other_moves. Qed.

(** ** Resolving *)

Lemma on_addrs_other {B} (p : Prog.prog (sact waker) sans B) : within no_list p → within other (on_addrs p).
Proof. intros Hp. by apply within_translate. Qed.

Lemma wlp_addrs_poll future (w : waker) (Q : Poll (io_result ToSocketAddrsIter) + fault → list event → Prop) tr :
  (∀ iter es, moves_lists es (owned iter) [] → Q (inl (Ready (Ok iter))) (tr ++ es)) →
  (∀ x es, (∀ iter, x ≠ inl (Ready (Ok iter))) → moves_lists es [] [] → Q x (tr ++ es)) →
  wlp (on_addrs (addrs_poll future w)) Q tr.
Proof.
  intros Hok Hno. unfold on_addrs. destruct future as [a|l|future]; simpl.
  - rewrite <- (app_nil_r tr). by apply Hok.
  - rewrite <- (app_nil_r tr). by apply Hok.
  - apply wlp_translate_bind. unfold resolve_poll. destruct (SockAddr.event future) as [ev|e].
    + apply wlp_translate_bind. apply wlp_other.
      { apply within_translate, within_translate. solve_within. }
      intros [[[[]|e]|]|f] es Hes; simpl; [|by apply Hno..].
      intros p. rewrite <- app_assoc. apply Hok. by apply (moves_app _ _ [] [] [p] []).
    + destruct e; simpl; rewrite <- (app_nil_r tr); by apply Hno.
Qed.

Lemma addrs_drop_other future : within other (on_addrs (waker := waker) (addrs_drop future)).
Proof.
  destruct future as [| |future]; [done..|]. apply on_addrs_other, within_free_all; [done|].
  destruct (SockAddr.event future); [|done]. apply within_translate. solve_within.
Qed.

Context {A : Type} `{!ToSocketAddrs waker A, !ToSocketAddrsLaws waker A} (at_ : net_places) (addr : A).

Lemma wlp_resolve live (Q : io_result ToSocketAddrsIter + fault → list event → Prop) tr :
  (∀ iter es, moves_lists es (owned iter) [] → Q (inl (Ok iter)) (tr ++ es)) →
  (∀ e es, moves_lists es [] [] → Q (inl (Err e)) (tr ++ es)) →
  (∀ f es, Q (inr f) (tr ++ es)) →
  wlp (resolve live at_ addr) Q tr.
Proof.
  intros Hok Herr Hf. apply wlp_bind, wlp_other; [exact (on_addrs_other _ (to_addrs_no_list _ addr))|].
  intros [future|f] es Hes; [|done].
  assert (∀ r es, moves_lists es (match r with Ok iter => owned iter | Err _ => [] end) [] →
    wlp (on_addrs (addrs_drop future) ;;; Ret r) Q (tr ++ es)) as Hend.
  { intros r es1 Hes1. apply wlp_bind, wlp_other; [apply addrs_drop_other|]. intros [[]|f] es2 Hes2; rewrite <- app_assoc; [|done].
    pose proof (moves_app _ _ _ _ _ _ Hes1 Hes2) as Hes12. rewrite !app_nil_r in Hes12. destruct r; [by apply Hok|by apply Herr]. }
  apply wlp_bind. exists (λ tr', ∃ es, tr' = tr ++ es ∧ moves_lists es [] []). split; [by exists es|].
  intros ? (es1 & -> & Hes1) w. rewrite <- app_assoc. do 2 apply wlp_bind.
  assert (moves_lists (es1 ++ [Ev NContext w]) [] []) as Hes1' by (by apply (moves_app _ _ [] [] [] [])).
  apply wlp_addrs_poll.
  - intros iter es2 Hes2. simpl. rewrite <- app_assoc. apply (Hend (Ok iter)).
    by apply (moves_app _ _ [] [] _ []).
  - intros x es2 Hx Hes2. rewrite <- app_assoc. pose proof (moves_app _ _ _ _ _ _ Hes1' Hes2) as Hes12.
    destruct x as [[[iter|e]|]|f]; [by destruct (Hx iter)|by apply (Hend (Err e))| |by apply Hf].
    intros []. eexists. rewrite <- app_assoc. split; [reflexivity|]. by apply (moves_app _ _ [] [] [] []).
Qed.

(** ** [bind] and [connect] *)

Context (sock_addr : SocketAddr → sockaddr) (as_std : Z → Z → option SocketAddr).

(** A run that has returned has freed the lists it has taken: one at most. *)
Definition settled {R} (out : R + fault) tr : Prop :=
  match out with
  | inl _ => ∃ l, moves_lists tr l l ∧ (length l ≤ 1)%nat
  | inr _ => True
  end.

(** The steps that have nothing to do with lists, before and after. *)
Lemma settle_before {R} (p : prog R) (Q : R + fault → list event → Prop) tr :
  within other p → moves_lists tr [] [] →
  (∀ r es, moves_lists es [] [] → Q (inl r) es) → (∀ f es, Q (inr f) es) → wlp p Q tr.
Proof.
  intros Hp Htr HQ Hf. apply wlp_other; [done|]. intros [r|f] es Hes; [|done].
  apply HQ. by apply (moves_app _ _ [] [] [] []).
Qed.

Lemma settle_after {R} (p : prog R) tr l :
  within other p → moves_lists tr l l → (length l ≤ 1)%nat → wlp p settled tr.
Proof.
  intros Hp Htr Hl. apply wlp_other; [done|]. intros [r|f] es Hes; [|done]. exists l. split; [|done].
  pose proof (moves_app _ _ _ _ _ _ Htr Hes) as Hm. by rewrite !app_nil_r in Hm.
Qed.

(** A loop over the addresses of a resolution, which the iterator's drop ends. *)
Lemma settle_addrs {B R} live (k : ToSocketAddrsIter → list SocketAddr → prog B) (rest : B → prog (io_result R)) tr :
  (∀ iter addrs, within other (k iter addrs)) → (∀ b, within other (rest b)) → moves_lists tr [] [] →
  wlp (iter <-? resolve live at_ addr ;; addrs <- on_addrs (for_addrs as_std iter) ;;
       b <- k iter addrs ;; on_addrs (iter_drop iter) ;;; rest b) settled tr.
Proof.
  intros Hk Hrest Htr. apply wlp_bind, wlp_resolve; [| |done].
  2:{ intros e es Hes. exists []. split; [|simpl; lia]. by apply (moves_app _ _ [] [] [] []). }
  intros iter es Hes.
  apply wlp_bind, wlp_other; [apply on_addrs_other; split; [done|]; intros mem; simpl; by destruct (addrs_collect _ _ _ _) as [[[]|]|]|].
  intros [addrs|f] es1 Hes1; [|done]. apply wlp_bind, wlp_other; [done|]. intros [b|f] es2 Hes2; [|done].
  pose proof (moves_app _ _ _ _ _ _ Htr Hes) as H1. pose proof (moves_app _ _ _ _ _ _ H1 Hes1) as H2.
  pose proof (moves_app _ _ _ _ _ _ H2 Hes2) as H3. rewrite !app_nil_r in H3. simpl in H3.
  apply wlp_bind. destruct iter as [o|l|iter]; [by apply (settle_after _ _ []); simpl; [|done|lia]..|].
  simpl. intros []. apply (settle_after _ _ [addrinfo iter]); [done| |simpl; lia].
  by apply (moves_app _ _ [addrinfo iter] [] [] [addrinfo iter]).
Qed.

Lemma try_bind_other s addrs n : within other (try_bind (waker := waker) sock_addr s addrs n).
Proof.
  revert n. induction addrs as [|a addrs IH]; intros n; [done|]. split; [done|]. intros r. simpl.
  by case_decide.
Qed.

#[local] Opaque await.

Lemma try_connect_other live f s ev addrs r n : within other (try_connect (waker := waker) sock_addr live f s ev addrs r n).
Proof.
  revert r n. induction addrs as [|a addrs IH]; intros r n; [done|]. simpl try_connect.
  apply within_bind; [|by intros []]. apply await_within; [done..|]. intros w. apply within_translate.
  solve_within.
Qed.

Lemma new_stream_other pl s ce : within other (new_stream (waker := waker) pl s ce).
Proof.
  apply within_bind; [|by intros []]. apply within_translate. unfold IoHandle.new, IoHandle.drop. solve_within.
Qed.

(** What comes before the resolution. *)
Lemma settle_step {B R} (p : prog B) (k : B → prog (io_result R)) tr :
  within other p → moves_lists tr [] [] → (∀ b tr', moves_lists tr' [] [] → wlp (k b) settled tr') →
  wlp (Prog.bind p k) settled tr.
Proof.
  intros Hp Htr Hk. apply wlp_bind, wlp_other; [done|]. intros [b|f] es Hes; [|done].
  apply Hk. by apply (moves_app _ _ [] [] [] []).
Qed.

Lemma settle_try {B R} (p : prog (io_result B)) (k : B → prog (io_result R)) tr :
  within other p → moves_lists tr [] [] → (∀ b tr', moves_lists tr' [] [] → wlp (k b) settled tr') →
  wlp (x <-? p ;; k x) settled tr.
Proof.
  intros Hp Htr Hk. apply settle_step; [done..|]. intros [b|e] tr' Htr'; [by apply Hk|].
  exists []. split; [done|simpl; lia].
Qed.

Lemma extension_other s g : within other (extension_function (waker := waker) s g).
Proof. solve_within. Qed.

Lemma event_other {B} (p : Prog.prog (hact waker) hans B) :
  within (λ a, frees (NEvent a) = None) p → within other (on_event p).
Proof. intros Hp. by apply within_translate. Qed.

Lemma bind_settles : wlp (Tcp.bind sock_addr as_std at_ addr) settled [].
Proof.
  apply settle_try; [solve_within|done|]. intros s tr Htr.
  apply settle_try; [apply extension_other|done|]. intros f tr1 Htr1.
  apply settle_try; [apply extension_other|done|]. intros g tr2 Htr2.
  apply (settle_addrs [] (λ _ addrs, try_bind sock_addr s addrs 0)); [|solve_within|done].
  intros iter addrs. apply try_bind_other.
Qed.

Lemma connect_settles : wlp (connect sock_addr as_std at_ addr) settled [].
Proof.
  apply settle_step; [solve_within|done|]. intros h tr Htr.
  apply settle_try; [solve_within|done|]. intros s tr1 Htr1.
  apply settle_step; [done|done|]. intros ret tr2 Htr2.
  apply settle_try; [solve_within|done|]. intros [] tr3 Htr3.
  apply settle_try; [apply extension_other|done|]. intros f tr4 Htr4.
  apply settle_try; [apply event_other; solve_within|done|]. intros ev tr5 Htr5.
  unfold with_event. apply wlp_bind. eapply wlp_mono.
  2:{ apply (settle_addrs _ (λ iter addrs, try_connect sock_addr [LIter iter; LEvent ev] f s ev addrs (Err (OsError 0)) 0)); [|  |exact Htr5].
      - intros iter addrs. apply try_connect_other.
      - intros [[[]|e] n]; [|by case_match]. apply within_bind; [by solve_within|]. intros h'. apply new_stream_other. }
  intros [r|e] tr' Hr; [|done]. destruct Hr as (l & Hl & Hn). apply (settle_after _ _ l); [|done..].
  apply within_bind; [|done]. apply event_other. solve_within.
Qed.

(** Whatever addresses they are given, when [bind] and [connect] return they
    have freed every list of addresses that a resolution gave them, once,
    by its head, and nothing else that the system has allocated for a
    resolution; a run takes one list at most. *)
Theorem resolved_list_is_freed_once tr :
  (∀ r, produces (Tcp.bind sock_addr as_std at_ addr) tr (inl r) → freed tr = taken tr ∧ (length (taken tr) ≤ 1)%nat) ∧
  (∀ r, produces (connect sock_addr as_std at_ addr) tr (inl r) → freed tr = taken tr ∧ (length (taken tr) ≤ 1)%nat).
Proof.
  assert (∀ {R} (r : R) tr, settled (inl r) tr → freed tr = taken tr ∧ (length (taken tr) ≤ 1)%nat) as Hs.
  { intros R r t (l & [-> ->] & Hl). done. }
  split; intros r Hp; apply (Hs _ r).
  - exact (wlp_produces _ _ _ _ _ bind_settles Hp).
  - exact (wlp_produces _ _ _ _ _ connect_settles Hp).
Qed.
End lists.

Lemma resolved_list_is_freed_once_witness :
  let p := connect raw_addr as_std places0 ([97], 80) in
  let tr := (run_of two_nodes second_accepts p).1 in
  (∃ r, produces p tr (inl r)) ∧ taken tr = [list_at] ∧ freed tr = taken tr ∧ (length (taken tr) ≤ 1)%nat.
Proof.
  intros p tr.
  assert (produces p tr (run_of two_nodes second_accepts p).2) as Hp by (apply run_of_produces; vm_compute; reflexivity).
  assert (match (run_of two_nodes second_accepts p).2 with inl _ => true | _ => false end = true) as Hret
    by (vm_compute; reflexivity).
  assert (taken tr = [list_at]) as Ht by (vm_compute; reflexivity).
  destruct (run_of two_nodes second_accepts p).2 as [r|]; [|discriminate Hret].
  split; [by exists r|]. split; [exact Ht|].
  exact (proj2 (resolved_list_is_freed_once (A := str * Z) places0 ([97], 80) raw_addr as_std tr) r Hp).
Defined.
