(* ===== verification/Resources.v ===== *)
(** * What binding and connecting own

    The system calls of [bind] and [connect] take and return resources:
    events and waits, the listening or connecting socket, its entry in the
    thread pool, the list of addresses of a resolution.  [turns es l l']
    says that a run [es] that starts with the resources [l] ends with [l'];
    [uses p l Q] is a triple over the resources held, which in addition asks
    that at each suspension everything but a socket belongs to a live local.
    A list of addresses is made by the system before the program knows where it
    is; two marks count those made and those fetched. *)

From S2P Require Import Prelude Prog Reach Extern Win32 Threadpool Context.
From S2P Require Import IoState IoCells Socket IoHandle IoEvent SockAddr SockAddrThm Tcp.

(** ** Resources *)

Inductive resource :=
| REvent (h : HANDLE)
| RWait (wait : Z)
| RIo (io : Z)
| RList (info : Z)
| RSocket (s : SOCKET)
(* two marks, which nothing takes back *)
| RMade       (* the system has accepted a resolution, and makes its list *)
| RFetched.   (* the program has fetched the pointer of a list *)

#[export] Instance resource_eq_dec : EqDecision resource.
Proof. solve_decision. Defined.

(** What a call gives, with its answer. *)
Definition gives (c : win32) : win32_ans c → list resource :=
  match c with
  | CreateEventW _ _ => λ h, if is_null h then [] else [REvent h]
  | CreateThreadpoolWait _ _ => λ p, if is_null p then [] else [RWait p]
  | CreateThreadpoolIo _ _ _ => λ p, if is_null p then [] else [RIo p]
  | WSASocketW _ _ _ _ => λ s, if decide (s = INVALID_SOCKET) then [] else [RSocket s]
  | GetAddrInfoExW _ _ _ _ _ => λ ret, if decide (ret = 0) then [RMade]
                                       else if decide (ret = WSA_IO_PENDING) then [RMade] else []
  | _ => λ _, []
  end.

(** What it takes back. *)
Definition returns (c : win32) : list resource :=
  match c with
  | CloseHandle h => [REvent h]
  | CloseThreadpoolWait p => [RWait p]
  | CloseThreadpoolIo p => [RIo p]
  | FreeAddrInfoExW p => [RList p]
  | closesocket s => [RSocket s]
  | _ => []
  end.

(** The list of a resolution belongs to nobody from the moment the system makes
    it until the program fetches its pointer: the lists that the program has
    lost are those made but not fetched. *)
Definition is_made (r : resource) : bool := match r with RMade => true | _ => false end.
Definition is_mark (r : resource) : bool := match r with RMade | RFetched => true | _ => false end.

Lemma made_replicate l : forallb is_made l = true → ∃ n, l = replicate n RMade.
Proof.
  induction l as [|[] l IH]; intros Hl; try done; [by exists 0%nat|]. destruct (IH Hl) as [n ->]. by exists (S n).
Qed.

(** The owners. *)
Definition owned_event (e : IoEvent) : list resource :=
  (if is_null (ev_wait e) then [] else [RWait (ev_wait e)]) ++ [REvent (ev_event e)].

Definition owned_future (f : ToSocketAddrsInner) : list resource :=
  match f with
  | Future future => match event future with Ok e => owned_event e | Err _ => [] end
  | _ => []
  end.

Definition owned_iter (i : ToSocketAddrsIter) : list resource :=
  match i with FutureIter iter => [RList (addrinfo iter)] | _ => [] end.

Definition owned_by (l : local) : list resource :=
  match l with
  | LFuture f => owned_future f
  | LIter i => owned_iter i
  | LEvent e => owned_event e
  end.

Definition owned (live : list local) : list resource := flat_map owned_by live.

(** The marks of a resolution that is going on: none without a resolution, else
    whatever the system has accepted, and nothing was fetched. *)
Definition resolving (f : ToSocketAddrsInner) (k : list resource) : Prop :=
  match f with Future _ => ∃ n, k = replicate n RMade | _ => k = [] end.

(** And of one that is over: its list was fetched. *)
Definition resolved (i : ToSocketAddrsIter) (k : list resource) : Prop :=
  match i with FutureIter _ => ∃ n, k = RFetched :: replicate n RMade | _ => k = [] end.

(** Where a future that is suspended stands. *)
Definition marks (live : list local) (k : list resource) : Prop :=
  match live with
  | LFuture f :: _ => resolving f k
  | LIter i :: _ => resolved i k
  | _ => False
  end.

Lemma resolving_more f k n : resolving f k → match f with Future _ => True | _ => n = 0%nat end →
  resolving f (replicate n RMade ++ k).
Proof. destruct f; simpl; [by intros -> ->..|]. intros [m ->] _. exists (n + m)%nat. by rewrite replicate_add. Qed.

Lemma resolving_marks f k : resolving f k → forallb is_mark k = true.
Proof. destruct f; [by intros ->..|]. intros [n ->]. by induction n. Qed.

Lemma resolved_marks i k : resolved i k → forallb is_mark k = true.
Proof. destruct i; [by intros ->..|]. intros [n ->]. simpl. by induction n. Qed.

Section resources.
Context {waker : Type}.
Abbreviation prog := (prog (nact waker) nans).
Abbreviation event := (Prog.event (nact waker) nans).
Implicit Types (tr es : list event) (l : list resource).

(** The list of a resolution comes to the program when it reads the pointer. *)
Definition given_by (e : event) : list resource :=
  match e with
  | Ev a r =>
      match a return nans a → list resource with
      | NSys c | NEvent (HSys c) | NHandle (ISys c) | NHandle (On _ (HSys c))
      | NAddrs (SSys c) | NAddrs (SEvent (HSys c)) => gives c
      | NAddrs (SStored _) => λ p, [RList p; RFetched]
      | _ => λ _, []
      end r
  end.

Definition returns_act (a : nact waker) : list resource :=
  match a with
  | NSys c | NEvent (HSys c) | NHandle (ISys c) | NHandle (On _ (HSys c))
  | NAddrs (SSys c) | NAddrs (SEvent (HSys c)) => returns c
  | _ => []
  end.
Definition returned_by (e : event) : list resource := let '(Ev a _) := e in returns_act a.

Definition given tr : list resource := flat_map given_by tr.
Definition returned tr : list resource := flat_map returned_by tr.

(** ** Runs *)

Definition turns es l l' : Prop := given es ++ l ≡ₚ returned es ++ l'.

Lemma turns_nil l l' : l ≡ₚ l' → turns [] l l'.
Proof. done. Qed.

Lemma turns_app es1 es2 l1 l2 l3 : turns es1 l1 l2 → turns es2 l2 l3 → turns (es1 ++ es2) l1 l3.
Proof.
  unfold turns, given, returned. intros H1 H2. rewrite !flat_map_app.
  rewrite <- app_assoc, (Permutation_app_swap_app _ (flat_map given_by es2)), H1.
  rewrite (Permutation_app_swap_app (flat_map given_by es2)), H2. by rewrite <- app_assoc.
Qed.

Lemma turns_frame es l l' k : turns es l l' → turns es (l ++ k) (l' ++ k).
Proof. unfold turns. rewrite !app_assoc. by intros ->. Qed.

Lemma turns_proper es l1 l2 l1' l2' : l1 ≡ₚ l2 → l1' ≡ₚ l2' → turns es l1 l1' → turns es l2 l2'.
Proof. unfold turns. by intros -> ->. Qed.

#[export] Instance turns_perm es : Proper ((≡ₚ) ==> (≡ₚ) ==> iff) (turns es).
Proof. intros l1 l2 Hl l1' l2' Hl'. unfold turns. by rewrite Hl, Hl'. Qed.
(** ** The triple *)

(** A suspended future: all it owns is in a live local, but for a socket; beside
    that there are the marks of its resolution. *)
Definition rests (live : list local) l : Prop :=
  ∃ s k, marks live k ∧ l ≡ₚ owned live ++ RSocket s :: k.

Definition at_rest (a : nact waker) tr : Prop :=
  match a with
  | NSuspend live => ∃ l, turns tr [] l ∧ rests live l
  | _ => True
  end.

Definition uses {A} (p : prog A) l (Q : A → list resource → Prop) : Prop :=
  ∀ tr, turns tr [] l →
    wls at_rest p (λ x tr', match x with
                            | inl a => ∃ l', turns tr' [] l' ∧ Q a l'
                            | inr _ => True
                            end) tr.

(** An action that moves no resource. *)
Definition idle (a : nact waker) : Prop :=
  match a with
  | NSuspend _ => False
  | a => returns_act a = [] ∧ ∀ r : nans a, given_by (Ev a r) = []
  end.

Lemma idle_intro a :
  match a with NSuspend _ => False | _ => True end →
  returns_act a = [] → (∀ r : nans a, given_by (Ev a r) = []) → idle a.
Proof. by destruct a. Qed.

Lemma idle_returns a : idle a → returns_act a = [].
Proof. destruct a; by intros []. Qed.

Lemma idle_gives a (r : nans a) : idle a → given_by (Ev a r) = [].
Proof. destruct a; try (by intros [? Hg]; apply Hg). done. Qed.

Lemma idle_turns es l : all_events idle es → turns es l l.
Proof.
  induction 1 as [|[a r] es Ha _ IH]; [done|]. apply (turns_app [_] es l l l); [|done].
  pose proof (idle_returns a Ha) as Hr. pose proof (idle_gives a r Ha) as Hg.
  unfold turns, given, returned. cbn [flat_map]. unfold returned_by. by rewrite Hr, Hg.
Qed.

Lemma uses_ret {A} (a : A) l Q : Q a l → uses (Ret a) l Q.
Proof. intros HQ tr Htr. by exists l. Qed.

Lemma uses_fault {A} f l (Q : A → list resource → Prop) : uses (Fault f) l Q.
Proof. by intros tr Htr. Qed.

Lemma uses_bind {A B} (p : prog A) (k : A → prog B) l Q :
  uses p l (λ a l', uses (k a) l' Q) → uses (Prog.bind p k) l Q.
Proof.
  intros Hp tr Htr. apply wls_bind. eapply wls_mono; [|by apply Hp].
  intros [a|f] tr'; [|done]. intros (l' & Hl' & Hk). by apply Hk.
Qed.

Lemma uses_mono {A} (p : prog A) l (Q Q' : A → list resource → Prop) :
  (∀ a l', Q a l' → Q' a l') → uses p l Q → uses p l Q'.
Proof.
  intros HQ Hp tr Htr. eapply wls_mono; [|by apply Hp]. intros [a|f] tr'; [|done].
  intros (l' & Hl' & Ha). eauto.
Qed.

Lemma uses_perm {A} (p : prog A) l l' Q : l ≡ₚ l' → uses p l' Q → uses p l Q.
Proof. intros Hl Hp tr Htr. apply Hp. by rewrite <- Hl. Qed.

Lemma uses_idle {A} (p : prog A) l (Q : A → list resource → Prop) :
  within idle p → (∀ a, Q a l) → uses p l Q.
Proof.
  intros Hp HQ tr Htr. apply (wls_within at_rest idle); [by intros []|done|].
  intros [a|f] es Hes; [|done]. exists l. split; [|done]. eapply turns_app; [exact Htr|by apply idle_turns].
Qed.

Lemma uses_act {A} a (k : nans a → prog A) l Q :
  match a with NSuspend _ => False | _ => True end →
  (∀ r, ∃ l', turns [Ev a r] l l' ∧ uses (k r) l' Q) → uses (Act a k) l Q.
Proof.
  intros Ha Hk tr Htr. split; [by destruct a|]. intros r. destruct (Hk r) as (l' & Hl' & Hu). apply Hu.
  by eapply turns_app.
Qed.

Lemma uses_suspend {A} live (k : unit → prog A) l Q :
  rests live l → uses (k tt) l Q → uses (Act (NSuspend live) k) l Q.
Proof. intros Hl Hk tr Htr. split; [by exists l|]. intros []. apply Hk. by eapply turns_app. Qed.

Lemma uses_loop {A X} (I : list resource → Prop) (body : prog (option X)) (k : X → prog A) l Q :
  (∀ l, I l → uses body l (λ o l', match o with None => I l' | Some x => uses (k x) l' Q end)) →
  I l → uses (Loop body k) l Q.
Proof.
  intros Hb Hl tr Htr. exists (λ tr, ∃ l, turns tr [] l ∧ I l). split; [by exists l|]. intros tr' (l1 & Htr' & Hl1).
  eapply wls_mono; [|exact (Hb l1 Hl1 tr' Htr')]. intros [[x|]|f] tr2; [| |done].
  - intros (l' & Hl' & Hu). by apply Hu.
  - intros (l' & Hl' & Hp). by exists l'.
Qed.

(** *** Programs that only make lists *)

Definition making (a : nact waker) : Prop :=
  match a with
  | NSuspend _ => False
  | a => returns_act a = [] ∧ ∀ r : nans a, forallb is_made (given_by (Ev a r)) = true
  end.

Lemma making_intro a :
  match a with NSuspend _ => False | _ => True end →
  returns_act a = [] → (∀ r : nans a, forallb is_made (given_by (Ev a r)) = true) → making a.
Proof. by destruct a. Qed.

Lemma making_turns es l : all_events making es → ∃ n, turns es l (replicate n RMade ++ l).
Proof.
  intros Hes. revert l. induction Hes as [|[a r] es Ha _ IH]; intros l; [by exists 0%nat|].
  assert (returns_act a = [] ∧ forallb is_made (given_by (Ev a r)) = true) as [Hr Hg].
  { destruct a; (done || (destruct Ha as [Hr Hg]; split; [exact Hr|apply Hg])). }
  destruct (made_replicate _ Hg) as [n Hn]. destruct (IH (replicate n RMade ++ l)) as [m Hm].
  exists (m + n)%nat. rewrite replicate_add, <- app_assoc. apply (turns_app [Ev a r] es l (replicate n RMade ++ l)); [|exact Hm].
  unfold turns, given, returned. cbn [flat_map]. unfold returned_by. by rewrite Hr, Hn, app_nil_r.
Qed.

Lemma uses_making {A} (p : prog A) l (Q : A → list resource → Prop) :
  within making p → (∀ a n, Q a (replicate n RMade ++ l)) → uses p l Q.
Proof.
  intros Hp HQ tr Htr. apply (wls_within at_rest making); [by intros []|done|].
  intros [a|f] es Hes; [|done]. destruct (making_turns es l Hes) as [n Hn].
  exists (replicate n RMade ++ l). split; [by eapply turns_app|done].
Qed.

(** The rest of a function goes on only when the first part succeeds. *)
Lemma uses_try {A B} (p : prog (io_result A)) (k : A → prog (io_result B)) l Q :
  uses p l (λ r l', match r with Ok a => uses (k a) l' Q | Err e => Q (Err e) l' end) →
  uses (x <-? p ;; k x) l Q.
Proof.
  intros Hp. apply uses_bind. eapply uses_mono; [|exact Hp]. intros [a|e] l' Hl'; [done|]. by apply uses_ret.
Qed.
(** ** Events *)

(** The programs of an event, wherever they are embedded. *)
Section events.
Context (f : hact waker → nact waker) (g : ∀ a, nans (f a) → hans a).
Context (Hrest : ∀ a, match f a with NSuspend _ => False | _ => True end).
Context (Hreturns : ∀ c, returns_act (f (HSys c)) = returns c).
Context (Hgives : ∀ c r, given_by (Ev (f (HSys c)) r) = gives c (g (HSys c) r)).
Context (Hidle : ∀ a, match a with HSys _ => True | _ => idle (f a) end).

Lemma turns_call c r l l' : gives c (g (HSys c) r) ++ l ≡ₚ returns c ++ l' → turns [Ev (f (HSys c)) r] l l'.
Proof. unfold turns, given, returned. cbn [flat_map]. unfold returned_by. by rewrite Hgives, Hreturns, !app_nil_r. Qed.

(** An event program that makes calls without resources only. *)
Definition idle_hact (a : hact waker) : Prop :=
  match a with HSys c => returns c = [] ∧ ∀ r, gives c r = [] | _ => True end.

Lemma idle_embedded {A} (p : Prog.prog (hact waker) hans A) :
  within idle_hact p → within idle (translate f g p).
Proof.
  intros Hp. apply within_translate. induction p as [A a|A a k IH|A X b IHb k IHk|A e]; simpl in Hp |- *; [done| | |done].
  - destruct Hp as [Ha Hk]. split; [|eauto]. specialize (Hidle a). destruct a; [exact Hidle..|].
    destruct Ha as [Hr Hg]. apply idle_intro; [apply Hrest|by rewrite Hreturns|]. intros r. by rewrite Hgives, Hg.
  - destruct Hp as [Hb Hk]. eauto.
Qed.

(** The same for one that makes lists. *)
Definition making_hact (a : hact waker) : Prop :=
  match a with HSys c => returns c = [] ∧ ∀ r, forallb is_made (gives c r) = true | _ => True end.

Lemma making_embedded {A} (p : Prog.prog (hact waker) hans A) :
  within making_hact p → within making (translate f g p).
Proof.
  intros Hp. apply within_translate. induction p as [A a|A a k IH|A X b IHb k IHk|A e]; simpl in Hp |- *; [done| | |done].
  - destruct Hp as [Ha Hk]. split; [|eauto]. specialize (Hidle a). apply making_intro; [apply Hrest|..].
    + destruct a; try apply (idle_returns _ Hidle). destruct Ha as [Hr _]. by rewrite Hreturns.
    + intros r. destruct a; try by rewrite (idle_gives _ _ Hidle). destruct Ha as [_ Hg]. by rewrite Hgives.
  - destruct Hp as [Hb Hk]. eauto.
Qed.

Lemma uses_call {A} c (k : nans (f (HSys c)) → prog A) l Q :
  (∀ r, ∃ l', gives c (g (HSys c) r) ++ l ≡ₚ returns c ++ l' ∧ uses (k r) l' Q) → uses (Act (f (HSys c)) k) l Q.
Proof.
  intros Hk. apply uses_act; [apply Hrest|]. intros r. destruct (Hk r) as (l' & Hl' & Hu). exists l'.
  split; [by apply turns_call|done].
Qed.

Lemma uses_event_drop ev l (Q : unit → list resource → Prop) :
  Q tt l → uses (translate f g (IoEvent.drop ev)) (owned_event ev ++ l) Q.
Proof.
  intros HQ. unfold IoEvent.drop, owned_event. rewrite !translate_bind.
  apply uses_bind, uses_idle; [apply idle_embedded; solve_within|]. intros _. cbv beta. rewrite ?translate_bind.
  apply uses_bind, uses_idle; [apply idle_embedded; solve_within|]. intros _. cbv beta. rewrite ?translate_bind.
  apply uses_bind. rewrite <- app_assoc.
  assert (uses (translate f g (sys (CloseHandle (ev_event ev)) ;;; Ret tt)) ([REvent (ev_event ev)] ++ l) Q) as Hclose.
  { apply uses_call. intros r. exists l. split; [done|]. by apply uses_ret. }
  destruct (is_null (ev_wait ev)); [apply uses_ret; exact Hclose|].
  apply uses_call. intros r. exists ([REvent (ev_event ev)] ++ l). split; [done|]. apply uses_ret. exact Hclose.
Qed.

#[local] Opaque IoEvent.drop.

Lemma uses_event_new this ov ce l (Q : io_result IoEvent → list resource → Prop) :
  (∀ ev, Q (Ok ev) (owned_event ev ++ l)) → (∀ e, Q (Err e) l) →
  uses (translate f g (IoEvent.new this ov ce)) l Q.
Proof.
  intros Hok Herr. unfold IoEvent.new. apply uses_call. intros h. simpl.
  destruct (is_null (g _ h)) eqn:Hh; eexists; (split; [done|]).
  { apply uses_call. intros e. eexists. split; [done|]. by apply uses_ret. }
  apply uses_call. intros p. simpl. destruct (is_null (g _ p)) eqn:Hp; eexists; (split; [done|]).
  - apply uses_call. intros e. eexists. split; [done|]. simpl. rewrite translate_bind.
    apply uses_bind. apply (uses_event_drop (Build_IoEvent null ov (g _ h)) l). by apply uses_ret.
  - apply uses_call. intros r. eexists. split; [done|]. apply uses_ret.
    specialize (Hok (Build_IoEvent (g _ p) ov (g _ h))). unfold owned_event in Hok. simpl in Hok. by rewrite Hp in Hok.
Qed.
End events.

(** The two places an event has: the function itself, and its resolution. *)
Lemma uses_new this ov ce l (Q : io_result IoEvent → list resource → Prop) :
  (∀ ev, Q (Ok ev) (owned_event ev ++ l)) → (∀ e, Q (Err e) l) →
  uses (on_event (IoEvent.new this ov ce)) l Q.
Proof. apply (uses_event_new NEvent); [done..|]. by intros []. Qed.

Lemma uses_drop ev l (Q : unit → list resource → Prop) :
  Q tt l → uses (on_event (IoEvent.drop ev)) (owned_event ev ++ l) Q.
Proof. apply (uses_event_drop NEvent); [done..|]. by intros []. Qed.

Lemma event_idle {A} (p : Prog.prog (hact waker) hans A) : within idle_hact p → within idle (on_event p).
Proof. apply (idle_embedded NEvent); [done..|]. by intros []. Qed.

Lemma uses_addrs_new this ov ce l (Q : io_result IoEvent → list resource → Prop) :
  (∀ ev, Q (Ok ev) (owned_event ev ++ l)) → (∀ e, Q (Err e) l) →
  uses (on_addrs (on_future (IoEvent.new this ov ce))) l Q.
Proof.
  unfold on_addrs, on_future. rewrite translate_translate.
  apply (uses_event_new (λ a, NAddrs (SEvent a))); [done..|]. by intros [].
Qed.

Lemma uses_addrs_drop_event ev l (Q : unit → list resource → Prop) :
  Q tt l → uses (on_addrs (on_future (IoEvent.drop ev))) (owned_event ev ++ l) Q.
Proof.
  unfold on_addrs, on_future. rewrite translate_translate.
  apply (uses_event_drop (λ a, NAddrs (SEvent a))); [done..|]. by intros [].
Qed.

Lemma addrs_event_making {A} (p : Prog.prog (hact waker) hans A) :
  within making_hact p → within making (on_addrs (on_future p)).
Proof.
  unfold on_addrs, on_future. rewrite translate_translate.
  apply (making_embedded (λ a, NAddrs (SEvent a))); [done..|]. by intros [].
Qed.

(** ** A resolution *)

Lemma uses_addrs_poll future (w : waker) k l (Q : Poll (io_result ToSocketAddrsIter) → list resource → Prop) :
  resolving future k →
  (∀ iter k', resolved iter k' → Q (Ready (Ok iter)) (owned_iter iter ++ k' ++ l)) →
  (∀ e k', resolving future k' → Q (Ready (Err e)) (k' ++ l)) →
  (∀ k', resolving future k' → Q Pending (k' ++ l)) →
  uses (on_addrs (addrs_poll future w)) (k ++ l) Q.
Proof.
  intros Hk Hok Herr Hp. unfold on_addrs. destruct future as [a|addrs|future]; simpl.
  - rewrite Hk. by apply uses_ret, (Hok (ImmediateIter (Some a)) []).
  - rewrite Hk. by apply uses_ret, (Hok (SliceIter addrs) []).
  - rewrite translate_bind. unfold resolve_poll. destruct (SockAddr.event future) as [ev|[code|]].
    + rewrite translate_bind. apply uses_bind, uses_bind, uses_making; [apply addrs_event_making; solve_within|].
      intros p n. pose proof (resolving_more _ _ n Hk I) as (m & Hm). rewrite app_assoc, Hm.
      destruct p as [[[]|e]|]; [|by apply uses_ret, uses_ret, Herr; exists m|by apply uses_ret, uses_ret, Hp; exists m].
      apply uses_act; [done|]. intros p. exists ([RList p] ++ (RFetched :: replicate m RMade) ++ l).
      split; [unfold turns; reflexivity|].
      apply uses_ret, uses_ret, (Hok (FutureIter {| addrinfo := p; current := p |})). by exists m.
    + by apply uses_bind, uses_ret, uses_ret, Herr.
    + by apply uses_bind, uses_ret, uses_ret, Herr.
Qed.

Lemma uses_free_all bs (p : Prog.prog (sact waker) sans unit) l Q :
  uses (on_addrs p) l Q → uses (on_addrs (free_all bs p)) l Q.
Proof.
  intros Hp. induction bs as [|b bs IH]; [done|]. apply uses_act; [done|]. intros []. exists l. by split.
Qed.

Lemma uses_addrs_drop future l (Q : unit → list resource → Prop) :
  Q tt l → uses (on_addrs (addrs_drop future)) (owned_future future ++ l) Q.
Proof.
  intros HQ. destruct future as [a|addrs|future]; [by apply uses_ret..|]. apply uses_free_all. simpl.
  destruct (SockAddr.event future); [by apply uses_addrs_drop_event|by apply uses_ret].
Qed.

Lemma uses_iter_drop iter l (Q : unit → list resource → Prop) :
  Q tt l → uses (on_addrs (iter_drop iter)) (owned_iter iter ++ l) Q.
Proof.
  intros HQ. destruct iter as [a|addrs|iter]; [by apply uses_ret..|]. apply uses_act; [done|].
  intros []. exists l. split; [unfold turns; reflexivity|by apply uses_ret].
Qed.

Lemma uses_locals live l (Q : unit → list resource → Prop) :
  Q tt l → uses (drop_locals live) (owned live ++ l) Q.
Proof.
  intros HQ. induction live as [|x live IH]; [by apply uses_ret|]. apply uses_bind. unfold owned. simpl.
  rewrite <- app_assoc. destruct x; [by apply uses_addrs_drop|by apply uses_iter_drop|by apply uses_drop].
Qed.

(** *** Asking for addresses

    A type of addresses makes a future that owns what the making took. *)

Class ToSocketAddrsOwns (A : Type) `{!ToSocketAddrs waker A} :=
  uses_to_addrs at_ (a : A) l (Q : ToSocketAddrsInner → list resource → Prop) :
    (∀ future, Q future (owned_future future ++ l)) → uses (on_addrs (to_socket_addrs (waker := waker) at_ a)) l Q.

Lemma current_idle : within idle (on_addrs (waker := waker) Context.current).
Proof. apply within_translate, current_within. by split. Qed.

Lemma uses_get_addr_info at_ h p ce l (Q : ToSocketAddrsInner → list resource → Prop) :
  (∀ future, Q future (owned_future future ++ l)) →
  uses (on_addrs (future <- get_addr_info at_ h p ce ;; Ret (Future future))) l Q.
Proof.
  intros HQ. unfold get_addr_info, on_addrs. destruct (host_and_port h p) as [h' p'].
  rewrite !translate_bind. apply uses_bind, uses_bind, uses_addrs_new.
  - intros ev. apply uses_ret, uses_ret. refine (HQ (Future (Build_GetAddrInfoFuture _ _ _ _ (Ok ev)))).
  - intros e. apply uses_ret, uses_ret. refine (HQ (Future (Build_GetAddrInfoFuture _ _ _ _ (Err e)))).
Qed.

Lemma impl_into_owns {A} (into : A → SocketAddr) : @ToSocketAddrsOwns A (impl_into into).
Proof. intros at_ a l Q HQ. apply uses_ret, (HQ (Immediate (into a))). Qed.

#[export] Instance addr_owns : ToSocketAddrsOwns SocketAddr := impl_into_owns _.
#[export] Instance v4_owns : ToSocketAddrsOwns SocketAddrV4 := impl_into_owns _.
#[export] Instance v6_owns : ToSocketAddrsOwns SocketAddrV6 := impl_into_owns _.
#[export] Instance ip_owns : ToSocketAddrsOwns (IpAddr * Z) := impl_into_owns _.
#[export] Instance ip4_owns : ToSocketAddrsOwns (Ipv4Addr * Z) := impl_into_owns _.
#[export] Instance ip6_owns : ToSocketAddrsOwns (Ipv6Addr * Z) := impl_into_owns _.

#[export] Instance slice_owns : ToSocketAddrsOwns (list SocketAddr).
Proof. intros at_ addrs l Q HQ. apply uses_ret, (HQ (Slice addrs)). Qed.

Lemma str_owns parse_addr : @ToSocketAddrsOwns str (str_to_addrs parse_addr).
Proof.
  intros at_ s l Q HQ. unfold to_socket_addrs, str_to_addrs.
  destruct (parse_addr s) as [a|]; [apply uses_ret, (HQ (Immediate a))|].
  unfold on_addrs. rewrite translate_bind. apply uses_bind, uses_idle; [apply current_idle|].
  intros h. by apply uses_get_addr_info.
Qed.

Lemma host_owns parse_ip : @ToSocketAddrsOwns (str * Z) (host_to_addrs parse_ip).
Proof.
  intros at_ [s port] l Q HQ. unfold to_socket_addrs, host_to_addrs.
  destruct (parse_ip s) as [ip|]; [apply uses_ret, (HQ (Immediate (socket_addr_new ip port)))|].
  unfold on_addrs. rewrite translate_bind. apply uses_bind, uses_idle; [apply current_idle|].
  intros h. by apply uses_get_addr_info.
Qed.

Lemma ref_owns {A} `{!ToSocketAddrs waker A} :
  ToSocketAddrsOwns A → @ToSocketAddrsOwns A (ref_to_addrs to_socket_addrs).
Proof. done. Qed.

(** *** Awaiting *)

Lemma uses_await {R} (I : list resource → Prop) live (poll : waker → prog (Poll R)) l (Q : R → list resource → Prop) :
  (∀ l, I l → rests live l) →
  (∀ w l, I l → uses (poll w) l (λ p l', match p with Ready r => Q r l' | Pending => I l' end)) →
  I l → uses (await live poll) l Q.
Proof.
  intros Hrest Hp. apply uses_loop. intros l1 Hl1. apply uses_act; [done|]. intros w. exists l1. split; [done|].
  apply uses_bind. eapply uses_mono; [|by apply Hp]. intros [r|] l' Hl'; [by apply uses_ret, uses_ret|].
  apply uses_suspend; [by apply Hrest|]. by apply uses_ret.
Qed.
End resources.
Arguments ToSocketAddrsOwns : clear implicits.
Arguments ToSocketAddrsOwns waker A {_}.
