(* ===== verification/ResourcesThm.v ===== *)
(** * [bind] and [connect] account for what they take

    Whether the function returns or its future is given up, everything the
    system gave it has been returned, but for what the result owns and for
    the socket of a failure. *)

From S2P Require Import Prelude Prog Reach Extern Win32 Threadpool Context.
From S2P Require Import IoState IoCells Socket IoHandle IoEvent SockAddr SockAddrThm Tcp TcpThm TcpEx Resources.

Section network.
Context {waker : Type}.
Abbreviation prog := (prog (nact waker) nans).
Abbreviation event := (Prog.event (nact waker) nans).
Context (sock_addr : SocketAddr → sockaddr) (as_std : Z → Z → option SocketAddr).
Context {A : Type} `{!ToSocketAddrs waker A, !ToSocketAddrsOwns waker A} (at_ : net_places) (addr : A).
Implicit Types (tr es : list event) (l : list resource).

(** ** Pieces *)

Lemma uses_resolve live l s (Q : io_result ToSocketAddrsIter → list resource → Prop) :
  l ≡ₚ owned live ++ [RSocket s] →
  (∀ iter k, resolved iter k → Q (Ok iter) (owned_iter iter ++ k ++ l)) →
  (∀ e k, forallb is_mark k = true → Q (Err e) (k ++ l)) →
  uses (resolve live at_ addr) l Q.
Proof.
  intros Hl Hok Herr. unfold resolve. apply uses_bind, uses_to_addrs. intros future. apply uses_bind.
  apply (uses_await (λ l', ∃ k, resolving future k ∧ l' ≡ₚ k ++ owned_future future ++ l)).
  - intros l' (k & Hk & Hl'). exists s, k. split; [done|]. rewrite Hl', Hl. unfold owned. simpl. solve_Permutation.
  - intros w l' (k & Hk & Hl'). eapply uses_perm; [exact Hl'|]. apply uses_addrs_poll; [done|..].
    + intros iter k' Hk'. apply uses_bind. eapply uses_perm; [|apply uses_addrs_drop, uses_ret, (Hok iter k' Hk')].
      solve_Permutation.
    + intros e k' Hk'. apply uses_bind. eapply uses_perm; [|apply uses_addrs_drop, uses_ret, (Herr e k')].
      { solve_Permutation. }
      by eapply resolving_marks.
    + intros k' Hk'. by exists k'.
  - exists []. split; [|done]. destruct future; [done..|]. by exists 0%nat.
Qed.

(** A failure that reports the last error. *)
Lemma uses_last_error {R} l (Q : io_result R → list resource → Prop) :
  (∀ e, Q (Err e) l) → uses (waker := waker) (err <- last_os_error ;; Ret (Err err)) l Q.
Proof.
  intros HQ. apply uses_act; [done|]. intros e. exists l. split; [unfold turns; reflexivity|]. by apply uses_ret.
Qed.

Lemma uses_socket l (Q : io_result SOCKET → list resource → Prop) :
  (∀ s, Q (Ok s) (RSocket s :: l)) → (∀ e, Q (Err e) l) → uses (Socket.new (act := nact waker)) l Q.
Proof.
  intros Hok Herr. apply uses_act; [done|]. intros s. simpl. case_decide as Hs.
  - exists (RSocket s :: l). split; [|by apply uses_ret]. unfold turns, given. simpl. by rewrite decide_False.
  - exists l. split; [unfold turns, given; simpl; by rewrite decide_True|].
    by apply uses_last_error.
Qed.

Lemma context_idle : within (ans := nans) (idle (waker := waker)) Context.current.
Proof. split; [done|]. by intros [h|]. Qed.

Lemma uses_extension s g l (Q : io_result Z → list resource → Prop) :
  (∀ r, Q r l) → uses (extension_function (waker := waker) s g) l Q.
Proof. intros HQ. apply uses_idle; [solve_within|done]. Qed.

Lemma for_addrs_idle iter : within idle (on_addrs (waker := waker) (for_addrs as_std iter)).
Proof. split; [done|]. intros mem. simpl. by destruct (addrs_collect _ _ _ _) as [[[]|]|]. Qed.

Lemma try_bind_idle s addrs n : within idle (try_bind (waker := waker) sock_addr s addrs n).
Proof.
  revert n. induction addrs as [|a addrs IH]; intros n; [done|]. split; [done|]. intros r. simpl.
  by case_decide.
Qed.

#[local] Opaque await.

Lemma uses_try_connect live f s ev addrs r n l (Q : io_result unit * Z → list resource → Prop) :
  rests live l → (∀ x, Q x l) → uses (try_connect (waker := waker) sock_addr live f s ev addrs r n) l Q.
Proof.
  intros Hl HQ. revert r n. induction addrs as [|a addrs IH]; intros r n; [by apply uses_ret|]. simpl try_connect.
  apply uses_bind, (uses_await (λ l', l' = l)); [by intros ? ->| |done]. intros w ? ->.
  apply uses_idle; [apply event_idle; solve_within|].
  intros [[[]|e]|]; [by apply uses_ret|apply IH|done].
Qed.

(** The drop of a handle whose entry in the thread pool could not be made. *)
Lemma uses_half_built s ov1 ov2 sched1 sched2 l (Q : unit → list resource → Prop) :
  Q tt l →
  uses (waker := waker) (on_handle (IoHandle.drop {| handle := s; ptp_io := null; close := Socket.close;
    IoHandle.read := {| overlapped := ov1; half_schedule := sched1; half_cancel := Socket.cancel |};
    IoHandle.write := {| overlapped := ov2; half_schedule := sched2; half_cancel := Socket.cancel |} |}))
    (RSocket s :: l) Q.
Proof.
  intros HQ. unfold IoHandle.drop, on_handle. rewrite translate_bind.
  apply uses_bind, uses_idle; [apply within_translate; solve_within|]. intros _. cbv beta. rewrite translate_bind.
  apply uses_bind, uses_idle; [apply within_translate; solve_within|]. intros _.
  apply uses_act; [done|]. intros r. exists l. split; [unfold turns; reflexivity|]. by apply uses_ret.
Qed.

#[local] Opaque IoHandle.drop.

(** [IoHandle::new]: a failure closes the socket. *)
Lemma uses_new_stream pl s ce l (Q : io_result (TcpStream waker) → list resource → Prop) :
  (∀ st, handle (inner_handle st) = s → Q (Ok st) (RIo (ptp_io (inner_handle st)) :: RSocket s :: l)) →
  (∀ e, Q (Err e) l) → uses (new_stream pl s ce) (RSocket s :: l) Q.
Proof.
  intros Hok Herr. apply uses_try. unfold IoHandle.new, on_handle. apply uses_act; [done|]. intros io. simpl.
  destruct (is_null io) eqn:Hio.
  - exists (RSocket s :: l). split; [unfold turns, given; simpl; by rewrite Hio|].
    apply uses_act; [done|]. intros e. exists (RSocket s :: l). split; [unfold turns; reflexivity|]. simpl.
    rewrite translate_bind. apply uses_bind, uses_half_built. by apply uses_ret.
  - exists (RIo io :: RSocket s :: l). split; [unfold turns, given; simpl; by rewrite Hio|].
    apply uses_ret, uses_ret. match goal with |- Q (Ok ?st) _ => exact (Hok st eq_refl) end.
Qed.
(** ** The two functions *)

(** What is left when a function returns: what its result owns, or the socket
    of a failure that came after the socket was made; and marks.  On success
    there are none, or the list of the resolution was fetched. *)
Definition settled {R} (kept : R → list resource) (r : io_result R) l : Prop :=
  match r with
  | Ok r => ∃ k, (k = [] ∨ ∃ n, k = RFetched :: replicate n RMade) ∧ l ≡ₚ kept r ++ k
  | Err _ => ∃ k, forallb is_mark k = true ∧ (l ≡ₚ k ∨ ∃ s, l ≡ₚ RSocket s :: k)
  end.

Definition listener_owns (self : TcpListener) : list resource := [RSocket (l_socket self)].
Definition stream_owns (self : TcpStream waker) : list resource :=
  [RIo (ptp_io (inner_handle self)); RSocket (handle (inner_handle self))].

Lemma settled_none {R} (kept : R → list resource) e : settled kept (Err e) [].
Proof. exists []. by split; [|left]. Qed.

Lemma settled_socket {R} (kept : R → list resource) e s k : forallb is_mark k = true → settled kept (Err e) (k ++ [RSocket s]).
Proof. intros Hk. exists k. split; [done|]. right. exists s. by rewrite Permutation_app_comm. Qed.

Lemma settled_perm {R} (kept : R → list resource) r l l' : l ≡ₚ l' → settled kept r l' → settled kept r l.
Proof. intros Hl. unfold settled. destruct r; by setoid_rewrite Hl. Qed.

Lemma settled_ok {R} (kept : R → list resource) r iter k :
  resolved iter k → settled kept (Ok r) (kept r ++ k).
Proof. intros Hk. exists k. split; [|done]. destruct iter; [by left..|by right]. Qed.

#[local] Hint Resolve settled_none settled_socket resolved_marks : core.

Lemma bind_uses : uses (Tcp.bind sock_addr as_std at_ addr) [] (settled listener_owns).
Proof.
  assert (∀ e s, settled listener_owns (Err e) [RSocket s]) as Hs by (intros e s; by apply (settled_socket _ e s [])).
  apply uses_try, uses_socket; [|done]. intros s.
  apply uses_try, uses_extension. intros [f|e]; [|done].
  apply uses_try, uses_extension. intros [g|e]; [|done].
  apply uses_try, (uses_resolve _ _ s); [done| |by intros e k Hk; apply settled_socket]. intros iter k Hk.
  apply uses_bind, uses_idle; [apply for_addrs_idle|]. intros addrs.
  apply uses_bind, uses_idle; [apply try_bind_idle|]. intros [bound tried].
  apply uses_bind, uses_iter_drop. simpl.
  destruct (negb bound && (0 <? tried)); [by apply uses_last_error; eauto|].
  destruct (negb bound); [by apply uses_ret; eauto|].
  apply uses_act; [done|]. intros ret. exists (k ++ [RSocket s]). split; [unfold turns; reflexivity|]. simpl.
  case_decide; [by apply uses_last_error; eauto|]. apply uses_ret. eapply settled_perm; [apply Permutation_app_comm|].
  by apply (settled_ok listener_owns {| l_socket := s; acceptex := f; gaesa := g |} iter).
Qed.

(** What [connect] does once it has its event. *)
Lemma connect_uses_event s ev (p : prog (io_result (TcpStream waker))) :
  uses p (owned_event ev ++ [RSocket s]) (λ r l', ∃ l, l' ≡ₚ owned_event ev ++ l ∧ settled stream_owns r l) →
  uses (with_event ev p) (owned_event ev ++ [RSocket s]) (settled stream_owns).
Proof.
  intros Hp. apply uses_bind. eapply uses_mono; [|exact Hp]. intros r l' (l & Hl & Hr).
  apply uses_bind. eapply uses_perm; [exact Hl|]. apply uses_drop. by apply uses_ret.
Qed.

Lemma connect_uses : uses (connect sock_addr as_std at_ addr) [] (settled stream_owns).
Proof.
  assert (∀ e s, settled stream_owns (Err e) [RSocket s]) as Hs by (intros e s; by apply (settled_socket _ e s [])).
  apply uses_bind, uses_idle; [apply context_idle|]. intros h.
  apply uses_try, uses_socket; [|done]. intros s.
  apply uses_bind, uses_idle; [done|]. intros ret.
  apply uses_try, uses_idle; [solve_within|]. intros [[]|e]; [|done].
  apply uses_try, uses_extension. intros [f|e]; [|done].
  apply uses_try, uses_new; [|done]. intros ev. apply connect_uses_event.
  apply uses_try, (uses_resolve _ _ s); [by unfold owned; simpl; rewrite app_nil_r| |]; cycle 1.
  { intros e k Hk. exists (k ++ [RSocket s]). split; [solve_Permutation|by apply settled_socket]. }
  intros iter k Hk. apply uses_bind, uses_idle; [apply for_addrs_idle|]. intros addrs.
  apply uses_bind, uses_try_connect.
  { exists s, k. split; [done|]. unfold owned. simpl. rewrite app_nil_r. solve_Permutation. }
  intros [result tried]. apply uses_bind, uses_iter_drop. destruct result as [[]|e].
  - apply uses_bind, uses_idle; [apply context_idle|]. intros h'.
    eapply uses_perm; [|apply (uses_new_stream _ s _ (owned_event ev ++ k))]; [solve_Permutation|..].
    + intros st Hst. exists (stream_owns st ++ k). split; [|by eapply settled_ok]. unfold stream_owns. rewrite Hst.
      solve_Permutation.
    + intros e. exists k. split; [done|]. exists k. eauto.
  - assert (∀ e, ∃ l, k ++ owned_event ev ++ [RSocket s] ≡ₚ owned_event ev ++ l ∧ settled stream_owns (Err e) l) as He.
    { intros e'. exists (k ++ [RSocket s]). split; [solve_Permutation|eauto]. }
    destruct (0 <? tried); by apply uses_ret.
Qed.

(** A function that accounts for what it takes: the two ends of its runs, and
    the drop of its future at each suspension.  What the drop does not return
    is the socket, and, when the future waits for its resolution ([marks]),
    every list the system has made or makes for it. *)
Definition accounts {R} (p : prog (io_result R)) (kept : R → list resource) : Prop :=
  ∀ tr,
    (∀ r, produces p tr (inl r) → ∃ l, turns tr [] l ∧ settled kept r l) ∧
    (∀ live es, reaches p tr (NSuspend live) → produces (drop_locals live) es (inl tt) →
       ∃ s k, marks live k ∧ turns (tr ++ es) [] (RSocket s :: k)).

Lemma uses_accounts {R} (p : prog (io_result R)) kept : uses p [] (settled kept) → accounts p kept.
Proof.
  intros Hu tr. specialize (Hu [] (turns_nil _ _ (Permutation_refl []))). split.
  - intros r Hp. exact (wlp_produces _ _ _ _ _ (wls_wlp _ _ _ _ Hu) Hp).
  - intros live es Hr Hd. destruct (wls_reaches _ _ _ _ _ _ Hu Hr) as (l & Hl & s & k & Hk & Hperm).
    rewrite Hperm in Hl. exists s, k. split; [done|].
    pose proof (uses_locals (waker := waker) live (RSocket s :: k) (λ _ l, l = RSocket s :: k) eq_refl _ Hl) as Hu'.
    by destruct (wlp_produces _ _ _ _ _ (wls_wlp _ _ _ _ Hu') Hd) as (l' & Hl' & ->).
Qed.

(** An action that asks the system to cancel an operation. *)
Definition not_cancelling (a : nact waker) : Prop :=
  match a with
  | NSys c | NEvent (HSys c) | NHandle (ISys c) | NHandle (On _ (HSys c))
  | NAddrs (SSys c) | NAddrs (SEvent (HSys c)) => match c with CancelIoEx _ _ => False | _ => True end
  | _ => True
  end.

#[local] Transparent IoEvent.drop.

Lemma drop_locals_not_cancelling live : within not_cancelling (drop_locals live).
Proof.
  induction live as [|x live IH]; [done|]. apply within_bind; [|done]. destruct x as [future|iter|ev].
  - apply within_translate. destruct future as [| |future]; [done..|]. apply within_free_all; [done|].
    destruct (SockAddr.event future); [|done]. apply within_translate. solve_within.
  - by destruct iter.
  - apply within_translate. solve_within.
Qed.

End network.

(** ** A future that is given up *)

#[export] Instance names_owns : ToSocketAddrsOwns nat (str * Z) := host_owns (λ _, None).

(** The resolution, or the first attempt to connect, is left in flight. *)
Definition in_flight (resolution : bool) (a : nact nat) : nans a :=
  match a with
  | NAddrs (SEvent (HSys (GetAddrInfoExW _ _ _ _ _))) => if resolution then WSA_IO_PENDING else 0
  | NEvent (HSys (ConnectEx _ _ _ _)) => FALSE
  | NEvent (HSys WSAGetLastError) => WSA_IO_PENDING
  | a => answer two_nodes (λ _, TRUE) a
  end.

Definition suspended (_ : list (Prog.event (nact nat) nans)) (a : nact nat) : bool :=
  match a with NSuspend _ => true | _ => false end.

(** [connect] up to its first suspension, and the drop of its locals. *)
Definition given_up (resolution : bool) : list (Prog.event (nact nat) nans) * list local :=
  match follow_to 300 (in_flight resolution) suspended [] (connect raw_addr as_std places0 ([97], 80)) with
  | Some (tr, NSuspend live) => (tr, live)
  | _ => ([], [])
  end.

Definition dropped (resolution : bool) : list (Prog.event (nact nat) nans) * (unit + fault) :=
  run_of two_nodes (λ _, TRUE) (drop_locals (given_up resolution).2).

Definition lists_made (tr : list (Prog.event (nact nat) nans)) : nat := length (filter (λ r, r = RMade) (given tr)).

