(* ===== verification/ConnectSys.v ===== *)
(** * [TcpStream::connect] in its environment: the loop over the addresses

    The task of [connect] tries the addresses one after the other, with one
    [IoEvent] for all the attempts (src/src/net/tcp/stream.rs, the loop of
    [connect]).  Here that loop runs against the system of IoEventSys: the
    system completes the attempts, the thread pool runs the callback, and the
    executor polls the task again, when it was woken or also when it was not. *)

From S2P Require Import Prelude Prog Extern Win32 Socket.
From S2P Require Import IoState IoCells IoEvent IoEventSys SockAddr Tcp.

(** ** State *)

Abbreviation cresult := (io_result unit * Z)%type.

Inductive ctask (waker : Type) :=
| CSuspended (p : prog (nact waker) nans cresult)   (* between two polls; [p] is what the next one runs *)
| CRunning (p : prog (nact waker) nans cresult)
| CFinished (r : cresult).
Arguments CSuspended {waker} _.
Arguments CRunning {waker} _.
Arguments CFinished {waker} _.

(** [woken] of the cells has the wake-ups since the last poll began. *)
Record cconfig (W waker : Type) := {
  c_cells : cells W waker;
  c_kernel : ekernel;
  c_task : ctask waker;
  c_callbacks : list (prog (hact waker) hans unit);
  c_calls : list sockaddr;               (* the addresses [ConnectEx] was called with *)
  c_ends : list (io_result unit);        (* how the attempts ended, in the system *)
}.
Arguments c_cells {W waker} _.
Arguments c_kernel {W waker} _.
Arguments c_task {W waker} _.
Arguments c_callbacks {W waker} _.
Arguments c_calls {W waker} _.
Arguments c_ends {W waker} _.
Arguments Build_cconfig {W waker} _ _ _ _ _ _.

Inductive clabel :=
| LPoll                      (* the executor polls the task *)
| LTask (a : eanswer)        (* one action of the poll *)
| LSuspend                   (* it returns [Pending] *)
| LFinish                    (* the loop is left *)
| LComplete (err : Z)        (* the system completes the attempt in flight *)
| LFire                      (* the thread pool runs the callback of the wait *)
| LCallback (i : nat)        (* one action of a callback *)
| LRetire (i : nat).         (* a finished callback ends *)

(** ** The transition system *)

Section system.
Context {W waker : Type} `{!AtomicWaker W waker} `{!EqDecision waker}.
Context (sock_addr : SocketAddr → sockaddr).

(** The arguments of the loop, the waker of the task, and whether the executor
    also polls a task that was not woken. *)
Context (connectex : Z) (socket : SOCKET) (event : IoEvent) (addrs : list SocketAddr).
Context (w : waker) (spurious : bool).
Abbreviation prog := (prog (nact waker) nans).
Abbreviation cconfig := (cconfig W waker).

(** What a call answers does not depend on the address. *)
Definition connect_kind (addr : sockaddr) : ekind := KConnect connectex socket addr.
Definition no_addr : sockaddr := {| sa_bytes := []; sa_len := 0 |}.
Definition csys : ∀ c : win32, eanswer → ekernel → option (win32_ans c * ekernel) :=
  esys_step (connect_kind no_addr).

Definition net_step (a : nact waker) (x : eanswer) (s : cells W waker * ekernel) :
    option (nans a * (cells W waker * ekernel)) :=
  match a with
  | NEvent a => cells_step csys a x s
  | NContext => Some (w, s)
  | _ => None
  end.

(** The addresses are those of a slice; what is live in the loop does not
    matter to a run that is not given up. *)
Definition live : list local := [LIter (SliceIter addrs); LEvent event].

Definition cstart : cconfig := {|
  c_cells := Build_cells IoState.new result_new aw_new [w];
  c_kernel := {| e_flight := false; e_outcome := None; e_signaled := false; e_armed := true; e_error := 0 |};
  c_task := CSuspended (try_connect sock_addr live connectex socket event addrs (Err (OsError 0)) 0);
  c_callbacks := []; c_calls := []; c_ends := [];
|}.

Definition cwith (c : cconfig) (s : cells W waker * ekernel) task callbacks : cconfig :=
  Build_cconfig s.1 s.2 task callbacks (c_calls c) (c_ends c).

(** The call of [ConnectEx] among the actions. *)
Definition called (a : option (nact waker)) : option sockaddr :=
  match a with
  | Some (NEvent (HSys (ConnectEx _ _ addr _))) => Some addr
  | _ => None
  end.

(** The config after an action of the task: a call is recorded, with how the
    attempt ended when it is over at once. *)
Definition record_call (a : option (nact waker)) (c : cconfig) : cconfig :=
  match called a with
  | Some addr =>
      Build_cconfig (c_cells c) (c_kernel c) (c_task c) (c_callbacks c) (c_calls c ++ [addr])
        (c_ends c ++ option_list (e_outcome (c_kernel c)))
  | None => c
  end.

(** The program after [NSuspend]. *)
Definition resume {A} (p : prog A) : option (prog A) :=
  match p with
  | Act a k =>
      match a return (nans a → prog A) → option (prog A) with
      | NSuspend _ => λ k, Some (k tt)
      | _ => λ _, None
      end k
  | _ => None
  end.

Definition clear_woken (c : cells W waker) : cells W waker :=
  Build_cells (c_state c) (c_result c) (c_waker c) [].

Definition connect_step (l : clabel) (c : cconfig) : option cconfig :=
  let k := c_kernel c in
  match l with
  | LPoll =>
      match c_task c with
      | CSuspended p =>
          if spurious || bool_decide (w ∈ woken (c_cells c)) then
            Some (cwith c (clear_woken (c_cells c), k) (CRunning p) (c_callbacks c))
          else None
      | _ => None
      end
  | LTask a =>
      match c_task c with
      | CRunning p =>
          '(p', s') ← tstep net_step a p (c_cells c, k);
          Some (record_call (next_act p) (cwith c s' (CRunning p') (c_callbacks c)))
      | _ => None
      end
  | LSuspend =>
      match c_task c with
      | CRunning p => p' ← resume p; Some (cwith c (c_cells c, k) (CSuspended p') (c_callbacks c))
      | _ => None
      end
  | LFinish =>
      match c_task c with
      | CRunning (Ret r) => Some (cwith c (c_cells c, k) (CFinished r) (c_callbacks c))
      | _ => None
      end
  | LComplete e =>
      if e_flight k then
        Some (Build_cconfig (c_cells c)
                {| e_flight := false; e_outcome := Some (eresult e); e_signaled := true;
                   e_armed := e_armed k; e_error := e_error k |}
                (c_task c) (c_callbacks c) (c_calls c) (c_ends c ++ [eresult e]))
      else None
  | LFire =>
      if e_armed k && e_signaled k then
        Some (cwith c (c_cells c, eset (e_signaled k) false (e_error k) k) (c_task c)
                (c_callbacks c ++ [callback WAIT_OBJECT_0]))
      else None
  | LCallback i =>
      p ← c_callbacks c !! i;
      '(p', s') ← tstep (cells_step csys) EDefault p (c_cells c, k);
      Some (cwith c s' (c_task c) (<[i := p']> (c_callbacks c)))
  | LRetire i =>
      match c_callbacks c !! i with
      | Some (Ret tt) => Some (cwith c (c_cells c, k) (c_task c) (delete i (c_callbacks c)))
      | _ => None
      end
  end.

#[export] Instance connect_lts : LTS clabel cconfig := {
  linit := cstart;
  lstep := connect_step;
}.

Definition connect_exec (ls : list clabel) : option cconfig := exec (H := connect_lts) ls cstart.
End system.
