(* ===== verification/ConnectThm.v ===== *)
(** * What the loop of [connect] yields *)

From S2P Require Import Prelude Prog Extern Win32 Socket.
From S2P Require Import IoState IoCells IoEvent IoEventSys IoEventThm SockAddr Tcp ConnectSys.

Section connect.
Context {W waker : Type} `{AtomicWakerLaws W waker} `{!EqDecision waker}.
Context (sock_addr : SocketAddr → sockaddr).
Context (connectex : Z) (socket : SOCKET) (event : IoEvent) (addrs : list SocketAddr).
Context (w : waker) (spurious : bool).
Abbreviation prog := (prog (nact waker) nans).
Abbreviation cconfig := (cconfig W waker).
Abbreviation cells := (cells W waker).
Abbreviation result := (io_result unit).
Abbreviation cexec := (connect_exec (W := W) sock_addr connectex socket event addrs w spurious).
Abbreviation cstep := (connect_step (W := W) connectex socket w spurious).
Abbreviation live := (ConnectSys.live event addrs).
Abbreviation knd := (connect_kind connectex socket no_addr).
Abbreviation Einv := (einv knd (Some socket) w).
Implicit Types (ph : ephase) (c g : cells) (k : ekernel) (fs old : list fphase).
Implicit Types (calls : list sockaddr) (ends : list result).

(** ** Program counters *)

Definition object (a : SocketAddr) : sockaddr := read_sockaddr (sock_addr a).

(** The end of an attempt: the next one, or the end of the loop. *)
Definition next (rest : list SocketAddr) (n : Z) (r : result) : prog cresult :=
  match r with
  | Ok _ => Ret (r, n + 1)
  | Err _ => try_connect sock_addr live connectex socket event rest r (n + 1)
  end.

(** One turn of the await, and what follows the poll in it. *)
Definition after_poll (p : Poll result) : prog (option result) :=
  match p with
  | Ready r => Ret (Some r)
  | Pending => act1 (NSuspend live : nact waker) ;;; Ret None
  end.

Definition turn (a : SocketAddr) : prog (option result) :=
  w <- act1 (NContext : nact waker) ;;
  p <- connect_poll (Build_Connect connectex socket event (object a)) w ;;
  after_poll p.

Definition turns (a : SocketAddr) (rest : list SocketAddr) (n : Z) (o : option result) : prog cresult :=
  match o with Some r => next rest n r | None => Loop (turn a) (next rest n) end.

Inductive cpos :=
| PLoop (a : SocketAddr) (rest : list SocketAddr) (n : Z)              (* at the head of the await *)
| PContext (a : SocketAddr) (rest : list SocketAddr) (n : Z)
| PPoll (a : SocketAddr) (rest : list SocketAddr) (n : Z) (ph : ephase)
| POut (r : cresult).

Definition eden' (a : SocketAddr) : ephase → Prog.prog (hact waker) hans (Poll result) :=
  eden (connect_kind connectex socket (object a)) event (Some socket) w.

Definition cden (p : cpos) : prog cresult :=
  match p with
  | PLoop a rest n => Loop (turn a) (next rest n)
  | PContext a rest n => Prog.bind (turn a) (turns a rest n)
  | PPoll a rest n ph => Prog.bind (Prog.bind (on_event (eden' a ph)) after_poll) (turns a rest n)
  | POut r => Ret r
  end.

(** Where the loop stands with addresses left to try. *)
Definition head (rest : list SocketAddr) (r : result) (n : Z) : cpos :=
  match rest with [] => POut (r, n) | a :: rest => PLoop a rest n end.

Lemma cden_head rest r n : cden (head rest r n) = try_connect sock_addr live connectex socket event rest r n.
Proof. by destruct rest. Qed.

Definition is_done (ph : ephase) : bool := match ph with EP_done _ => true | _ => false end.

(** A program on the event steps as it does alone. *)
Lemma tstep_on_event {A} (p : Prog.prog (hact waker) hans A) x s :
  tstep (net_step (W := W) connectex socket w) x (on_event p) s =
  (λ y : Prog.prog (hact waker) hans A * _, (on_event y.1, y.2)) <$>
    tstep (cells_step (csys connectex socket)) x p s.
Proof.
  destruct p as [a|a k|X body k|e]; simpl; [done| | |done].
  - by destruct (cells_step _ a x s) as [[r s']|].
  - unfold on_event. by rewrite translate_unroll.
Qed.

Lemma running_on_event {A} (p : Prog.prog (hact waker) hans A) : running (on_event p) = running p.
Proof. apply running_translate. Qed.

Lemma eden_running a ph : is_done ph = false → running (eden' a ph) = true.
Proof. by destruct ph. Qed.

(** One step of the poll, through the table of the phases of an event. *)
Lemma poll_step a rest n ph x c k :
  is_done ph = false → (ph = EP_get → c_result c = result_set WAIT_OBJECT_0 0) →
  tstep (net_step connectex socket w) x (cden (PPoll a rest n ph)) (c, k) =
  (λ y, (cden (PPoll a rest n y.1), y.2)) <$> enext knd (Some socket) w ph x c k.
Proof.
  intros Hd Hget. simpl cden. pose proof (eden_running a ph Hd) as Hr.
  rewrite tstep_bind; [rewrite tstep_bind; [rewrite tstep_on_event|by rewrite running_on_event]|].
  - pose proof (enext_step (connect_kind connectex socket (object a)) event (Some socket) w ph x c k Hget) as He.
    change (csys connectex socket) with (esys_step (connect_kind connectex socket (object a))).
    unfold eden'. rewrite He. change (enext (connect_kind connectex socket (object a))) with (enext knd (waker := waker)).
    by destruct (enext knd (Some socket) w ph x c k) as [[ph' s]|].
  - rewrite <- running_on_event in Hr. by destruct (on_event (eden' a ph)).
Qed.

(** The only call of [ConnectEx] in a poll. *)
Lemma called_poll a rest n ph :
  called (next_act (cden (PPoll a rest n ph))) = match ph with EP_call => Some (object a) | _ => None end.
Proof. destruct ph as [| | | | | | | | | | | | | |[[]|]]; try done; simpl; by destruct rest. Qed.

Lemma record_call_poll a rest n ph (c : cconfig) :
  record_call (next_act (cden (PPoll a rest n ph))) c =
  match ph with
  | EP_call => Build_cconfig (c_cells c) (c_kernel c) (c_task c) (c_callbacks c) (c_calls c ++ [object a])
                 (c_ends c ++ option_list (e_outcome (c_kernel c)))
  | _ => c
  end.
Proof. unfold record_call. rewrite called_poll. by destruct ph. Qed.

(** ** The invariant

    A callback that has published its result may still be about to wake the
    task when the next attempt begins.  The invariant follows the callback of
    the attempt at hand on a copy [g] of the cells from which such leftovers
    take no waker. *)

(** A callback that has published its result. *)
Definition past (f : fphase) : Prop := match f with FWake | FEnd => True | _ => False end.

Definition agree c g : Prop := c_state c = c_state g ∧ c_result c = c_result g.

Lemma enext_agree ph x c g k ph' c' k' :
  agree c g → enext knd (Some socket) w ph x c k = Some (ph', (c', k')) →
  ∃ g', enext knd (Some socket) w ph x g k = Some (ph', (g', k')) ∧ agree c' g'.
Proof.
  intros [Hs Hr] Hn. destruct ph; simpl in *; rewrite <- ?Hs; try done;
    try (simplify_eq/=; by eexists).
  - case_decide; simplify_eq/=; by eexists.
  - destruct x as [|x]; [done|]. destruct (estart_op _ x k) as [[z k1]|]; simplify_eq/=. by eexists.
  - destruct (equery k) as [[z k1]|]; simplify_eq/=. by eexists.
Qed.

Lemma fnext_agree f c g f' c' :
  agree c g → fnext f c = Some (f', c') → ∃ g', fnext f g = Some (f', g') ∧ agree c' g'.
Proof.
  intros [Hs Hr] Hn. destruct f; simpl in *; rewrite <- ?Hs; try done;
    try (simplify_eq/=; by eexists).
  - case_decide; simplify_eq/=; by eexists.
  - destruct (aw_take (c_waker c)), (aw_take (c_waker g)). simplify_eq/=. by eexists.
Qed.

Lemma fnext_past f c g f' c' :
  past f → agree c g → fnext f c = Some (f', c') → past f' ∧ agree c' g.
Proof.
  intros Hf [Hs Hr] Hn. destruct f; try done. simpl in Hn.
  by destruct (aw_take (c_waker c)); simplify_eq/=.
Qed.

(** What a failed attempt leaves for the next one. *)
Definition tidy k fs : Prop := e_armed k = true ∧ e_signaled k = false ∧ Forall past fs.

Definition clean (o : option ephase) k fs : Prop :=
  match o with
  | Some (EP_get | EP_query _ | EP_take _ | EP_report | EP_idle (Err _) | EP_done (Ready (Err _))) => tidy k fs
  | Some EP_error => success knd (e_error k) = false → e_error k ≠ WSA_IO_PENDING → tidy k fs
  | _ => True
  end.

#[local] Arguments success : simpl never.

Lemma clean_client ph x g k fs h ph' g' k' :
  Einv (Some ph) g k fs h → clean (Some ph) k fs → (ph = EP_call → tidy k fs) →
  enext knd (Some socket) w ph x g k = Some (ph', (g', k')) → clean (Some ph') k' fs.
Proof.
  intros Hi Hc Hcall Hn.
  destruct ph as [| | | |r| | | | | | |hd|ret| |p]; simpl in Hn; simplify_eq/=; try done.
  - by case_decide.
  - by case_decide; simplify_eq/=.
  - destruct x as [|x]; [done|]. unfold estart_op, after_start in Hn. simpl in Hn.
    destruct x as [| |e]; simplify_eq/=; [done|done|]. case_decide; simplify_eq/=.
    destruct (Hcall eq_refl) as (? & ? & ?). by intros _ _.
  - destruct (success knd (e_error k')) eqn:Hs; [done|]. case_decide; [done|]. by apply Hc.
  - destruct Hi as [[]|[]|r _ _ _ [_ Hs] Hfs _|? []]. split_and!; [done|done|].
    destruct Hfs as [[-> _]|[[->| ->] _]]; repeat constructor.
  - unfold equery in Hn. destruct (e_flight k); [done|].
    destruct (e_outcome k) as [[|[]]|]; simplify_eq/=; done.
  - by case_decide.
Qed.

Lemma tidy_callback k fs i f g f' g' :
  tidy k fs → fs !! i = Some f → fnext f g = Some (f', g') → tidy k (<[i := f']> fs).
Proof.
  intros (? & ? & Hp) Hi Hn. split_and!; [done..|]. apply Forall_insert; [done|].
  by eapply fnext_past; [eapply Forall_lookup_1|..].
Qed.

Lemma clean_mono o k fs k' fs' :
  (tidy k fs → tidy k' fs') → e_error k' = e_error k → clean o k fs → clean o k' fs'.
Proof. intros Ht He. destruct o as [[| | | |[]| | | | | | | | | |[[]|]]|]; simpl; rewrite ?He; auto. Qed.

Lemma clean_in_flight o g k fs h k' : Einv o g k fs h → e_flight k = true → e_error k' = e_error k → clean o k' fs.
Proof.
  intros [? (? & _) _ _|Hph _ _ _|? _ _ (? & _) _ _ _|? _ _] Hf He; [congruence| |congruence|congruence].
  destruct o as [[| | | |[]| | | | | | | | | |[[]|]]|]; simpl in *; try done.
  rewrite He. by destruct Hph as (_ & -> & _).
Qed.

Definition failed (errs : list io_error) : list result := Err <$> errs.

(** The attempt to connect to [a], after those to [pre] that ended with
    [errs]; [o] is the point of the poll in progress, if there is one. *)
Abbreviation pendings := (Forall (λ p : Poll result, p = Pending)).

Definition before_call (o : option ephase) (st : io_state) : Prop :=
  match o with
  | None | Some (EP_start | EP_schedule) => st = IDLE
  | Some EP_call => st = SCHEDULING
  | _ => False
  end.

Definition after_call' (o : option ephase) (h : list (Poll result)) : Prop :=
  match o with
  | None | Some (EP_start | EP_schedule | EP_wait) => h ≠ []
  | Some EP_call => False
  | _ => True
  end.

Record fresh o g k fs (pre : list SocketAddr) (errs : list io_error) calls ends : Prop := {
  fr_state : before_call o (c_state g);
  fr_kernel : e_flight k = false ∧ e_signaled k = false ∧ e_armed k = true;
  fr_callbacks : fs = [];
  fr_calls : calls = object <$> pre;
  fr_ends : ends = failed errs;
}.

Record begun (a : SocketAddr) o g k fs pre errs calls ends : Prop := {
  be_inv : ∃ h, Einv o g k fs h ∧ pendings h ∧ after_call' o h;
  be_clean : clean o k fs;
  be_flight : e_flight k = true → e_outcome k = None;
  be_calls : calls = object <$> pre ++ [a];
  be_ends : ends = failed errs ++ option_list (e_outcome k);
}.

Definition attempted a o g k fs pre errs calls ends : Prop :=
  fresh o g k fs pre errs calls ends ∨ begun a o g k fs pre errs calls ends.

Lemma fresh_einv o g k fs pre errs calls ends :
  fresh o g k fs pre errs calls ends → Einv o g k fs [].
Proof. intros [? ? -> _ _]. by apply inv_new. Qed.

(** The task moves within a poll. *)
Lemma begun_not_idle a o g k fs pre errs calls ends :
  begun a o g k fs pre errs calls ends →
  match o with None | Some (EP_start | EP_schedule) => c_state g ≠ IDLE | _ => True end.
Proof.
  intros [(h & Hi & Hh & Hc) _ _ _ _]. destruct Hi as [_ _ _ ->|_ _ Hop _|r Hst _ _ _ _ _|_ Ho _].
  - by destruct o as [[]|].
  - destruct (on_its_way_state _ _ _ Hop) as [-> |[-> | ->]]; by destruct o as [[]|].
  - rewrite Hst. by destruct o as [[]|].
  - destruct o as [[]|]; try done. destruct Ho as (_ & h' & r & -> & _).
    by apply Forall_app in Hh as [_ [=]%Forall_singleton].
Qed.

Lemma attempted_begin a g k fs pre errs calls ends :
  attempted a None g k fs pre errs calls ends → attempted a (Some EP_start) g k fs pre errs calls ends.
Proof.
  intros [[]|[(h & Hi & Hh & Hc) _ ? ? ?]]; [left|right]; split; try done.
  exists h. split_and!; [|done..]. apply begin_inv; [done|by apply existsb_all_pending].
Qed.

Lemma after_call_step ph x g k h ph' g' k' :
  after_call' (Some ph) h → match ph with EP_schedule => c_state g ≠ IDLE | _ => True end →
  enext knd (Some socket) w ph x g k = Some (ph', (g', k')) → after_call' (Some ph') h.
Proof.
  intros Hc Hs Hn. destruct ph; simpl in Hc, Hn; simplify_eq/=; try done.
  - by case_decide.
  - case_decide; [done|]. by simplify_eq/=.
  - destruct (success knd (e_error k')); [done|]. by case_decide.
  - unfold equery in Hn. repeat case_match; by simplify_eq/=.
  - by case_decide.
Qed.

Lemma enext_kernel ph x g k ph' g' k' :
  ph ≠ EP_call → enext knd (Some socket) w ph x g k = Some (ph', (g', k')) →
  e_flight k' = e_flight k ∧ e_outcome k' = e_outcome k.
Proof.
  intros Hph Hn. destruct ph; simpl in Hn; simplify_eq/=; try done.
  - by case_decide; simplify_eq/=.
  - unfold equery in Hn. repeat case_match; by simplify_eq/=.
Qed.

Lemma begun_step a ph x g k fs pre errs calls ends ph' g' k' :
  begun a (Some ph) g k fs pre errs calls ends →
  enext knd (Some socket) w ph x g k = Some (ph', (g', k')) →
  begun a (Some ph') g' k' fs pre errs calls ends.
Proof.
  intros Hb Hn. pose proof (begun_not_idle _ _ _ _ _ _ _ _ _ Hb) as Hidle. simpl in Hidle.
  destruct Hb as [(h & Hi & Hh & Hc) Hcl Hfl Hcalls Hends].
  assert (e_flight k' = e_flight k ∧ e_outcome k' = e_outcome k) as [Hf Ho].
  { eapply (enext_kernel ph); [by intros ->|exact Hn]. }
  split; [| |by rewrite Hf, Ho|done|by rewrite Ho].
  - exists h. split_and!; [by eapply client_inv|done|].
    eapply after_call_step; [exact Hc|by destruct ph|exact Hn].
  - eapply clean_client; [done|done| |exact Hn]. by intros ->.
Qed.

Lemma fresh_step a ph x g k fs pre errs calls ends ph' g' k' :
  fresh (Some ph) g k fs pre errs calls ends →
  enext knd (Some socket) w ph x g k = Some (ph', (g', k')) →
  match ph with
  | EP_call => begun a (Some ph') g' k' fs pre errs (calls ++ [object a]) (ends ++ option_list (e_outcome k'))
  | _ => fresh (Some ph') g' k' fs pre errs calls ends
  end.
Proof.
  intros Hf Hn. pose proof (fresh_einv _ _ _ _ _ _ _ _ Hf) as Hi.
  destruct Hf as [Hst Hk -> -> ->]. destruct ph; try done; simpl in Hst.
  - simpl in Hn. rewrite Hst in Hn. simplify_eq/=. by split.
  - simpl in Hn. rewrite Hst in Hn. simplify_eq/=. by split.
  - split; [| | |by rewrite fmap_app|done].
    + exists []. split_and!; [by eapply client_inv|done|].
      simpl in Hn. destruct x as [|x]; [done|]. destruct (estart_op _ x k) as [[z k1]|]; simplify_eq/=.
      unfold after_start. simpl. by case_decide.
    + eapply clean_client; [done|done| |exact Hn]. intros _. by destruct Hk as (_ & ? & ?).
    + simpl in Hn. destruct x as [|x]; [done|]. unfold estart_op in Hn.
      destruct x; repeat case_decide; by simplify_eq/=.
Qed.

(** The environment moves. *)
Lemma attempted_callback a o g k fs pre errs calls ends i f f' g' :
  attempted a o g k fs pre errs calls ends → fs !! i = Some f → fnext f g = Some (f', g') →
  attempted a o g' k (<[i := f']> fs) pre errs calls ends.
Proof.
  intros [[? ? -> ? ?]|[(h & Hi & Hh & Hc) Hcl ? ? ?]] Hf Hn; [done|right]. split; [|by eapply clean_mono, Hcl; [intros; eapply tidy_callback|]|done..].
  exists h. split_and!; [by eapply callback_inv|done..].
Qed.

Lemma attempted_retire a o g k fs pre errs calls ends i :
  attempted a o g k fs pre errs calls ends → fs !! i = Some FEnd →
  attempted a o g k (delete i fs) pre errs calls ends.
Proof.
  intros [[? ? -> ? ?]|[(h & Hi & Hh & Hc) Hcl ? ? ?]] Hf; [done|right]. split; [| |done..].
  - exists h. split_and!; [by apply retire_inv|done..].
  - eapply clean_mono, Hcl; [|done]. intros (? & ? & ?). split_and!; [done..|by apply Forall_delete].
Qed.

Lemma attempted_fire a o g k fs pre errs calls ends :
  attempted a o g k fs pre errs calls ends → e_armed k && e_signaled k = true →
  attempted a o g (eset (e_signaled k) false (e_error k) k) (fs ++ [FStart]) pre errs calls ends.
Proof.
  intros [[? (? & ? & ?) ? ? ?]|[(h & Hi & Hh & Hc) Hcl ? ? ?]] Hs.
  { apply andb_prop in Hs as [_ ?]. congruence. }
  right. split; [| |done..].
  - exists h. split_and!; [by apply fire_inv|done..].
  - eapply clean_mono, Hcl; [|done]. intros (_ & ? & _). apply andb_prop in Hs as [_ ?]. congruence.
Qed.

Lemma attempted_complete a o g k fs pre errs calls ends e :
  attempted a o g k fs pre errs calls ends → e_flight k = true →
  attempted a o g {| e_flight := false; e_outcome := Some (eresult e); e_signaled := true;
                     e_armed := e_armed k; e_error := e_error k |} fs pre errs calls (ends ++ [eresult e]).
Proof.
  intros [[? (? & ? & ?) ? ? ?]|[(h & Hi & Hh & Hc) Hcl Hfl ? Hends]] Hf; [congruence|right]. split; [| |done..|].
  - exists h. split_and!; [by apply complete_inv|done..].
  - by eapply clean_in_flight.
  - rewrite Hends, (Hfl Hf). simpl. by rewrite app_nil_r.
Qed.

(** A poll ends. *)
Lemma attempted_suspend a g k fs pre errs calls ends :
  attempted a (Some (EP_done Pending)) g k fs pre errs calls ends →
  attempted a None g k fs pre errs calls ends.
Proof.
  intros [[[] _ _ _ _]|[(h & Hi & Hh & Hc) Hcl ? ? ?]]. right. split; [|done..].
  exists (h ++ [Pending]). split_and!; [by apply return_inv| |by destruct h].
  apply Forall_app. by split; [|apply Forall_singleton].
Qed.

Lemma attempted_ready a r g k fs pre errs calls ends :
  attempted a (Some (EP_done (Ready r))) g k fs pre errs calls ends →
  e_flight k = false ∧ calls = object <$> pre ++ [a] ∧ ends = failed errs ++ [r] ∧
  match r with
  | Ok _ => True
  | Err e => Forall past fs ∧ ∀ calls ends, calls = object <$> pre ++ [a] → ends = failed (errs ++ [e]) →
      fresh None g k [] (pre ++ [a]) (errs ++ [e]) calls ends
  end.
Proof.
  intros [[[] _ _ _ _]|[(h & Hi & Hh & Hc) Hcl _ -> ->]].
  destruct Hi as [[]|[]|? _ _ _ []|Hf (Hst & _ & [Ho|[? _]]) _]; [|done].
  rewrite Ho. split_and!; [done..|]. destruct r as [|e]; [done|]. destruct Hcl as (? & ? & ?).
  split; [done|]. intros calls ends -> ->. by split.
Qed.

(** What the loop yields, given the calls made and how the attempts ended:
    every address before the last one tried failed; the last one accepted, or
    it was the last of the list and its error is the result. *)
Definition verdict (r : cresult) calls ends : Prop :=
  ∃ pre errs, length errs = length pre ∧
  match r.1 with
  | Ok _ => ∃ a rest, addrs = pre ++ a :: rest ∧ r.2 = Z.of_nat (length pre) + 1 ∧
      calls = object <$> pre ++ [a] ∧ ends = failed errs ++ [Ok tt]
  | Err e => addrs = pre ∧ r.2 = Z.of_nat (length pre) ∧ calls = object <$> pre ∧ ends = failed errs ∧
      e = default (OsError 0) (last errs)
  end.

Definition spot (a : SocketAddr) rest (n : Z) (o : option ephase) g k fs calls ends : Prop :=
  ∃ pre errs, addrs = pre ++ a :: rest ∧ n = Z.of_nat (length pre) ∧ length errs = length pre ∧
    attempted a o g k fs pre errs calls ends.

(** ** The abstract machine

    A state of the system, seen through the tables of the phases: the leftover
    callbacks [v_old] next to those of the attempt at hand [v_fs], the cells
    next to the copy [v_ghost]. *)

Inductive stage := Suspended | Running | Finished.

Record view := View {
  v_stage : stage;
  v_pos : cpos;
  v_cells : cells;
  v_ghost : cells;
  v_old : list fphase;
  v_fs : list fphase;
  v_kernel : ekernel;
  v_calls : list sockaddr;
  v_ends : list result;
}.

(** The view after a step of the poll, to the phase [ph']. *)
Definition arrive a rest n ph' c g old fs k calls ends : view :=
  match ph' with
  | EP_done (Ready (Ok r)) => View Running (POut (Ok r, n + 1)) c g old fs k calls ends
  | EP_done (Ready (Err e)) => View Running (head rest (Err e) (n + 1)) c g (old ++ fs) [] k calls ends
  | _ => View Running (PPoll a rest n ph') c g old fs k calls ends
  end.

Inductive move : clabel → view → view → Prop :=
| move_poll p c g old fs k calls ends (Hw : spurious = true ∨ w ∈ woken c) :
    move LPoll (View Suspended p c g old fs k calls ends) (View Running p (clear_woken c) g old fs k calls ends)
| move_loop x a rest n c g old fs k calls ends :
    move (LTask x) (View Running (PLoop a rest n) c g old fs k calls ends)
         (View Running (PContext a rest n) c g old fs k calls ends)
| move_context x a rest n c g old fs k calls ends :
    move (LTask x) (View Running (PContext a rest n) c g old fs k calls ends)
         (View Running (PPoll a rest n EP_start) c g old fs k calls ends)
| move_step a rest n ph x ph' c c' g g' old fs k k' calls ends
    (Hc : enext knd (Some socket) w ph x c k = Some (ph', (c', k')))
    (Hg : enext knd (Some socket) w ph x g k = Some (ph', (g', k')))
    (Hph : ph ≠ EP_call) :
    move (LTask x) (View Running (PPoll a rest n ph) c g old fs k calls ends)
         (arrive a rest n ph' c' g' old fs k' calls ends)
| move_call a rest n x ph' c c' g g' old fs k k' calls ends
    (Hc : enext knd (Some socket) w EP_call x c k = Some (ph', (c', k')))
    (Hg : enext knd (Some socket) w EP_call x g k = Some (ph', (g', k'))) :
    move (LTask x) (View Running (PPoll a rest n EP_call) c g old fs k calls ends)
         (View Running (PPoll a rest n ph') c' g' old fs k'
            (calls ++ [object a]) (ends ++ option_list (e_outcome k')))
| move_suspend a rest n c g old fs k calls ends :
    move LSuspend (View Running (PPoll a rest n (EP_done Pending)) c g old fs k calls ends)
         (View Suspended (PLoop a rest n) c g old fs k calls ends)
| move_finish r c g old fs k calls ends :
    move LFinish (View Running (POut r) c g old fs k calls ends) (View Finished (POut r) c g old fs k calls ends)
| move_complete st p c g old fs k calls ends e (Hf : e_flight k = true) :
    move (LComplete e) (View st p c g old fs k calls ends)
         (View st p c g old fs {| e_flight := false; e_outcome := Some (eresult e); e_signaled := true;
                                  e_armed := e_armed k; e_error := e_error k |} calls (ends ++ [eresult e]))
| move_fire st p c g old fs k calls ends (Hs : e_armed k && e_signaled k = true) :
    move LFire (View st p c g old fs k calls ends)
         (View st p c g old (fs ++ [FStart]) (eset (e_signaled k) false (e_error k) k) calls ends)
| move_leftover st p c c' g old fs k calls ends i f f' (Hi : old !! i = Some f)
    (Hc : fnext f c = Some (f', c')) :
    move (LCallback i) (View st p c g old fs k calls ends) (View st p c' g (<[i := f']> old) fs k calls ends)
| move_callback st p c c' g g' old fs k calls ends i f f' (Hle : (length old ≤ i)%nat)
    (Hi : fs !! (i - length old)%nat = Some f)
    (Hc : fnext f c = Some (f', c')) (Hg : fnext f g = Some (f', g')) :
    move (LCallback i) (View st p c g old fs k calls ends)
         (View st p c' g' old (<[(i - length old)%nat := f']> fs) k calls ends)
| move_retire_leftover st p c g old fs k calls ends i (Hi : old !! i = Some FEnd) :
    move (LRetire i) (View st p c g old fs k calls ends) (View st p c g (delete i old) fs k calls ends)
| move_retire st p c g old fs k calls ends i (Hle : (length old ≤ i)%nat)
    (Hi : fs !! (i - length old)%nat = Some FEnd) :
    move (LRetire i) (View st p c g old fs k calls ends)
         (View st p c g old (delete (i - length old)%nat fs) k calls ends).

Definition task_of (st : stage) (p : cpos) : ctask waker → Prop := λ t,
  match st with
  | Suspended => t = CSuspended (cden p)
  | Running => t = CRunning (cden p)
  | Finished => ∃ r, p = POut r ∧ t = CFinished r
  end.

(** The state of the system a view is a view of. *)
Definition views (v : view) (c : cconfig) : Prop :=
  task_of (v_stage v) (v_pos v) (c_task c) ∧ c_callbacks c = fden <$> v_old v ++ v_fs v ∧
  c_cells c = v_cells v ∧ c_kernel c = v_kernel v ∧ c_calls c = v_calls v ∧ c_ends c = v_ends v.

(** ** The invariant of the machine *)

Definition cpos_inv (p : cpos) g k fs calls ends : Prop :=
  match p with
  | PLoop a rest n | PContext a rest n => spot a rest n None g k fs calls ends
  | PPoll a rest n ph => spot a rest n (Some ph) g k fs calls ends ∧ ∀ r, ph ≠ EP_done (Ready r)
  | POut r => verdict r calls ends ∧ e_flight k = false
  end.

Record valid (v : view) : Prop := {
  va_old : Forall past (v_old v);
  va_agree : agree (v_cells v) (v_ghost v);
  va_pos : cpos_inv (v_pos v) (v_ghost v) (v_kernel v) (v_fs v) (v_calls v) (v_ends v);
}.

Definition vstart : view :=
  let g := Build_cells IoState.new result_new aw_new [w] in
  View Suspended (head addrs (Err (OsError 0)) 0) g g [] []
    {| e_flight := false; e_outcome := None; e_signaled := false; e_armed := true; e_error := 0 |} [] [].

Lemma views_start : views vstart (cstart sock_addr connectex socket event addrs w).
Proof. split_and!; try done. simpl. by rewrite cden_head. Qed.

Lemma valid_start : valid vstart.
Proof.
  split; [done..|]. unfold vstart. simpl. destruct addrs as [|a rest] eqn:Ha; simpl.
  - split; [|done]. exists [], []. rewrite Ha. by split_and!.
  - exists [], []. split_and!; [by rewrite Ha|done..|]. by left.
Qed.

Lemma spot_step a rest n ph x g k fs calls ends ph' g' k' :
  spot a rest n (Some ph) g k fs calls ends →
  enext knd (Some socket) w ph x g k = Some (ph', (g', k')) →
  match ph with
  | EP_call => spot a rest n (Some ph') g' k' fs (calls ++ [object a]) (ends ++ option_list (e_outcome k'))
  | _ => spot a rest n (Some ph') g' k' fs calls ends
  end.
Proof.
  intros (pre & errs & Ha & Hn & Hlen & Hatt) Hs.
  assert (match ph with
          | EP_call => attempted a (Some ph') g' k' fs pre errs (calls ++ [object a]) (ends ++ option_list (e_outcome k'))
          | _ => attempted a (Some ph') g' k' fs pre errs calls ends
          end) as Hatt'.
  { destruct Hatt as [Hf|Hb].
    - eapply fresh_step in Hf as Hf'; [|exact Hs].
      destruct ph; try (by left); try (by right).
    - eapply begun_step in Hb as Hb'; [|exact Hs].
      destruct ph; try (by right). by destruct Hb as [(? & _ & _ & []) _ _ _ _]. }
  destruct ph; exists pre, errs; done.
Qed.

Lemma spot_callback a rest n o g k fs calls ends i f f' g' :
  spot a rest n o g k fs calls ends → fs !! i = Some f → fnext f g = Some (f', g') →
  spot a rest n o g' k (<[i := f']> fs) calls ends.
Proof. intros (pre & errs & ? & ? & ? & ?) ? ?. exists pre, errs. split_and!; [done..|]. by eapply attempted_callback. Qed.

Lemma spot_retire a rest n o g k fs calls ends i :
  spot a rest n o g k fs calls ends → fs !! i = Some FEnd → spot a rest n o g k (delete i fs) calls ends.
Proof. intros (pre & errs & ? & ? & ? & ?) ?. exists pre, errs. split_and!; [done..|]. by apply attempted_retire. Qed.

Lemma spot_fire a rest n o g k fs calls ends :
  spot a rest n o g k fs calls ends → e_armed k && e_signaled k = true →
  spot a rest n o g (eset (e_signaled k) false (e_error k) k) (fs ++ [FStart]) calls ends.
Proof. intros (pre & errs & ? & ? & ? & ?) ?. exists pre, errs. split_and!; [done..|]. by apply attempted_fire. Qed.

Lemma spot_complete a rest n o g k fs calls ends e :
  spot a rest n o g k fs calls ends → e_flight k = true →
  spot a rest n o g {| e_flight := false; e_outcome := Some (eresult e); e_signaled := true;
                       e_armed := e_armed k; e_error := e_error k |} fs calls (ends ++ [eresult e]).
Proof. intros (pre & errs & ? & ? & ? & ?) ?. exists pre, errs. split_and!; [done..|]. by apply attempted_complete. Qed.

(** After a step of the poll. *)
Lemma arrive_valid a rest n ph c g old fs k calls ends :
  spot a rest n (Some ph) g k fs calls ends → Forall past old → agree c g →
  valid (arrive a rest n ph c g old fs k calls ends).
Proof.
  intros Hs Hold Hag. assert ((∃ r, ph = EP_done (Ready r)) ∨ ∀ r, ph ≠ EP_done (Ready r)) as [[r ->]|Hnr].
  { destruct ph as [| | | | | | | | | | | | | |[]]; by eauto. }
  2:{ destruct ph as [| | | | | | | | | | | | | |[r|]]; try by split. by destruct (Hnr r). }
  destruct Hs as (pre & errs & Ha & -> & Hlen & Hatt).
  destruct (attempted_ready _ _ _ _ _ _ _ _ _ Hatt) as (Hf & -> & -> & Hr).
  destruct r as [[]|e]; simpl.
  - split; [done..|]. split; [|done]. exists pre, errs. split; [done|]. simpl. eauto 10.
  - destruct Hr as [Hp Hr]. split; [by apply Forall_app|done|]. simpl.
    assert (length (errs ++ [e]) = length (pre ++ [a])) as Hlen' by (rewrite !length_app; simpl; lia).
    assert (failed errs ++ [Err e] = failed (errs ++ [e])) as Hfa by (unfold failed; by rewrite fmap_app).
    assert (Z.of_nat (length pre) + 1 = Z.of_nat (length (pre ++ [a]))) as Hn by (rewrite length_app; simpl; lia).
    destruct rest as [|b rest]; simpl.
    + split; [|done]. exists (pre ++ [a]), (errs ++ [e]). split; [done|]. simpl. by rewrite last_snoc.
    + exists (pre ++ [a]), (errs ++ [e]). split_and!; [by rewrite <- app_assoc|done..|]. left. by apply Hr.
Qed.

Lemma valid_move l v v' : move l v v' → valid v → valid v'.
Proof.
  intros Hm [Hold Hag Hp].
  destruct Hm as [p c g old fs k calls ends Hw|a rest n x c g old fs k calls ends|a rest n x c g old fs k calls ends
    |a rest n ph x ph' c c' g g' old fs k k' calls ends Hc Hg Hph|a rest n x ph' c c' g g' old fs k k' calls ends Hc Hg
    |a rest n c g old fs k calls ends|r c g old fs k calls ends|st p c g old fs k calls ends e Hf
    |st p c g old fs k calls ends Hs|st p c c' g old fs k calls ends i f f' Hi Hc
    |st p c c' g g' old fs k calls ends i f f' Hle Hi Hc Hg|st p c g old fs k calls ends i Hi
    |st p c g old fs k calls ends i Hle Hi]; simpl in Hold, Hag, Hp.
  - by split.
  - by split.
  - split; [done..|]. split; [|done]. destruct Hp as (pre & errs & ? & ? & ? & Hatt). exists pre, errs.
    split_and!; [done..|]. by apply attempted_begin.
  - destruct Hp as [Hp _]. apply (enext_agree _ _ _ g) in Hc as (g1 & Hg1 & Hag1); [|done].
    rewrite Hg in Hg1. simplify_eq. apply arrive_valid; [|done..].
    eapply spot_step in Hp; [|exact Hg]. by destruct ph.
  - destruct Hp as [Hp _]. apply (enext_agree _ _ _ g) in Hc as (g1 & Hg1 & Hag1); [|done].
    rewrite Hg in Hg1. simplify_eq. eapply spot_step in Hp; [|exact Hg]. split; [done..|]. split; [done|].
    intros r ->. simpl in Hg. destruct x as [|x]; [done|]. destruct (estart_op _ x k) as [[z k1]|]; [|done].
    injection Hg as Hz _ _. unfold after_start in Hz. simpl in Hz. by case_decide.
  - split; [done..|]. destruct Hp as [(pre & errs & ? & ? & ? & Hatt) _]. exists pre, errs. split_and!; [done..|].
    by apply attempted_suspend.
  - by split.
  - split; [done..|]. destruct p as [a rest n|a rest n|a rest n ph|r]; [by apply spot_complete..| |].
    + destruct Hp. split; [by apply spot_complete|done].
    + destruct Hp. simpl in *. congruence.
  - split; [done..|]. destruct p as [a rest n|a rest n|a rest n ph|r]; [by apply spot_fire..| |done].
    destruct Hp. split; [by apply spot_fire|done].
  - destruct (fnext_past f _ g f' c' (Forall_lookup_1 _ _ _ _ Hold Hi) Hag Hc) as [Hf' Hag'].
    split; [by apply Forall_insert|done..].
  - destruct (fnext_agree _ _ _ _ _ Hag Hc) as (g1 & Hg1 & Hag'). rewrite Hg in Hg1. simplify_eq.
    split; [done..|]. destruct p as [a rest n|a rest n|a rest n ph|r]; [by eapply spot_callback..| |done].
    destruct Hp. split; [by eapply spot_callback|done].
  - split; [by apply Forall_delete|done..].
  - split; [done..|]. destruct p as [a rest n|a rest n|a rest n ph|r]; [by apply spot_retire..| |done].
    destruct Hp. split; [by apply spot_retire|done].
Qed.
(** ** The system is an instance of the machine *)

Lemma resume_poll a rest n ph :
  resume (cden (PPoll a rest n ph)) =
  match ph with
  | EP_done Pending => Some (cden (PLoop a rest n))
  | EP_done (Ready (Err _)) => resume (cden (PPoll a rest n ph))
  | _ => None
  end.
Proof. destruct ph as [| | | | | | | | | | | | | |[[]|]]; try done. Qed.

Lemma task_arrive a rest n ph c g old fs k calls ends cbs :
  cbs = fden <$> old ++ fs →
  views (arrive a rest n ph c g old fs k calls ends)
    (Build_cconfig c k (CRunning (cden (PPoll a rest n ph))) cbs calls ends).
Proof.
  intros ->. destruct ph as [| | | | | | | | | | | | | |[[]|]]; try by split_and!.
  split_and!; try done; simpl; [by rewrite cden_head|by rewrite app_nil_r].
Qed.

Lemma spot_get a rest n g k fs calls ends :
  spot a rest n (Some EP_get) g k fs calls ends → c_result g = result_set WAIT_OBJECT_0 0.
Proof. intros (? & ? & _ & _ & _ & [[[] _ _ _ _]|[(? & Hi & _) _ _ _ _]]). by eapply einv_get. Qed.

(** The view of a task at a phase of the poll. *)
Lemma poll_moves a rest n ph x c k t' c' k' old fs g cbs calls ends :
  valid (View Running (PPoll a rest n ph) c g old fs k calls ends) → cbs = fden <$> old ++ fs →
  tstep (net_step connectex socket w) x (cden (PPoll a rest n ph)) (c, k) = Some (t', (c', k')) →
  ∃ v', move (LTask x) (View Running (PPoll a rest n ph) c g old fs k calls ends) v' ∧
    views v' (record_call (next_act (cden (PPoll a rest n ph))) (Build_cconfig c' k' (CRunning t') cbs calls ends)).
Proof.
  intros [_ Hag [Hp Hnr]] -> Hst. simpl in Hag, Hp, Hnr. destruct (is_done ph) eqn:Hd.
  { destruct ph as [| | | | | | | | | | | | | |[r|]]; try done. by destruct (Hnr r). }
  rewrite poll_step in Hst; [|done|].
  2:{ intros ->. rewrite (proj2 Hag). by eapply spot_get. }
  destruct (enext knd (Some socket) w ph x c k) as [[ph' [c1 k1]]|] eqn:Hc; [|done].
  apply (inj Some) in Hst. injection Hst as <- <- <-.
  destruct (enext_agree _ _ _ g _ _ _ _ Hag Hc) as (g1 & Hg & _). rewrite record_call_poll.
  assert (ph = EP_call ∨ ph ≠ EP_call) as [->|Hph] by (destruct ph; by auto).
  - eexists. split; [by eapply move_call|]. by split_and!.
  - exists (arrive a rest n ph' c1 g1 old fs k1 calls ends). split; [by eapply move_step|].
    destruct ph; try done; by apply task_arrive.
Qed.

Lemma task_moves x (v : view) (c c' : cconfig) :
  views v c → valid v → cstep (LTask x) c = Some c' → ∃ v', move (LTask x) v v' ∧ views v' c'.
Proof.
  destruct v as [st p c0 g old fs k calls ends]. intros (Ht & Hcb & Hc & Hk & Hca & He) Hv Hst.
  destruct c as [c1 k1 t cbs ca en]. simpl in *. subst c0 k1 ca en.
  destruct t as [|q|]; try done. destruct st; try done; [|by destruct Ht as (? & _ & ?)].
  injection Ht as ->. destruct p as [a rest n|a rest n|a rest n ph|r]; [| | |done].
  - assert (Some (Build_cconfig c1 k (CRunning (cden (PContext a rest n))) cbs calls ends) = Some c')
      as He by exact Hst. apply (inj Some) in He as <-.
    eexists. split; [apply move_loop|]. by split_and!.
  - assert (Some (Build_cconfig c1 k (CRunning (cden (PPoll a rest n EP_start))) cbs calls ends) = Some c')
      as He by exact Hst. apply (inj Some) in He as <-.
    eexists. split; [apply move_context|]. by split_and!.
  - destruct (tstep (net_step connectex socket w) x (cden (PPoll a rest n ph)) (c1, k)) as [[t' [c2 k2]]|] eqn:Hs; [|done].
    assert (Some (record_call (next_act (cden (PPoll a rest n ph)))
              (Build_cconfig c2 k2 (CRunning t') cbs calls ends)) = Some c') as He by exact Hst.
    apply (inj Some) in He as <-. by eapply poll_moves.
Qed.

Lemma callback_moves i (v : view) (c c' : cconfig) :
  views v c → valid v → cstep (LCallback i) c = Some c' → ∃ v', move (LCallback i) v v' ∧ views v' c'.
Proof.
  destruct v as [st p c0 g old fs k calls ends]. intros (Ht & Hcb & Hc & Hk & Hca & He) [Hold Hag Hp] Hst.
  destruct c as [c1 k1 t cbs ca en]. simpl in *. subst c0 k1 ca en cbs.
  rewrite list_lookup_fmap in Hst. destruct ((old ++ fs) !! i) as [f|] eqn:Hi; [|done]. simpl in Hst.
  unfold csys in Hst. rewrite fnext_step in Hst. destruct (fnext f c1) as [[f' c2]|] eqn:Hn; [|done].
  apply (inj Some) in Hst as <-. apply lookup_app_Some in Hi as [Hi|[Hle Hi]].
  - eexists. split; [by eapply move_leftover|]. split_and!; try done.
    simpl. by rewrite <- list_fmap_insert, insert_app_l by (by eapply lookup_lt_Some).
  - destruct (fnext_agree _ _ _ _ _ Hag Hn) as (g1 & Hn' & _).
    eexists. split; [by eapply move_callback|]. split_and!; try done.
    simpl. by rewrite <- list_fmap_insert, insert_app_r_alt by done.
Qed.

Lemma retire_moves i (v : view) (c c' : cconfig) :
  views v c → cstep (LRetire i) c = Some c' → ∃ v', move (LRetire i) v v' ∧ views v' c'.
Proof.
  destruct v as [st p c0 g old fs k calls ends]. intros (Ht & Hcb & Hc & Hk & Hca & He) Hst.
  destruct c as [c1 k1 t cbs ca en]. simpl in *. subst c0 k1 ca en cbs.
  rewrite list_lookup_fmap in Hst. destruct ((old ++ fs) !! i) as [f|] eqn:Hi; [|done]. simpl in Hst.
  destruct (fden f) as [[]| | |] eqn:Hf; try done. apply (inj Some) in Hst as <-.
  apply fden_ret in Hf as ->. apply lookup_app_Some in Hi as [Hi|[Hle Hi]].
  - eexists. split; [by eapply move_retire_leftover|]. split_and!; try done.
    simpl. by rewrite <- list_fmap_delete, delete_app_l by (by eapply lookup_lt_Some).
  - eexists. split; [by eapply move_retire|]. split_and!; try done.
    simpl. by rewrite <- list_fmap_delete, delete_app_r by done.
Qed.

(** Every step of the system is a move of the machine. *)
Lemma step_moves l (v : view) (c c' : cconfig) :
  views v c → valid v → cstep l c = Some c' → ∃ v', move l v v' ∧ views v' c'.
Proof.
  intros Hv Hva Hst. destruct l as [|x| | |e| |i|i];
    [|by eapply task_moves| | | | |by eapply callback_moves|by eapply retire_moves];
    destruct v as [st p c0 g old fs k calls ends]; destruct Hv as (Ht & Hcb & Hc & Hk & Hca & He);
    destruct c as [c1 k1 t cbs ca en]; simpl in *; subst c0 k1 ca en cbs.
  - destruct t as [q| |]; try done. destruct st; try done; [|by destruct Ht as (? & _ & ?)]. injection Ht as ->.
    destruct (spurious || _) eqn:Hw; [|done]. apply (inj Some) in Hst as <-.
    eexists. split; [apply move_poll|by split_and!].
    apply orb_prop in Hw as [?|?%bool_decide_eq_true]; [by left|by right].
  - destruct t as [|q|]; try done. destruct st; try done; [|by destruct Ht as (? & _ & ?)]. injection Ht as ->.
    destruct p as [a rest n|a rest n|a rest n ph|r]; try done. rewrite resume_poll in Hst.
    destruct Hva as [_ _ [_ Hnr]]. simpl in Hnr.
    destruct ph as [| | | | | | | | | | | | | |[r|]]; try done. { by destruct (Hnr r). }
    apply (inj Some) in Hst as <-. eexists. split; [apply move_suspend|by split_and!].
  - destruct t as [|q|]; try done. destruct st; try done; [|by destruct Ht as (? & _ & ?)].
    destruct q as [r| | |]; try done. injection Ht as Ht. apply (inj Some) in Hst as <-.
    destruct p as [a rest n|a rest n|a rest n ph|r']; try done.
    { destruct Hva as [_ _ [_ Hnr]]. simpl in Hnr. destruct ph as [| | | | | | | | | | | | | |[r'|]]; try done. by destruct (Hnr r'). }
    injection Ht as ->. eexists. split; [apply move_finish|]. split_and!; try done. by eexists.
  - destruct (e_flight k) eqn:Hf; [|done]. apply (inj Some) in Hst as <-.
    eexists. split; [by apply move_complete|by split_and!].
  - destruct (e_armed k && e_signaled k) eqn:Hf; [|done]. apply (inj Some) in Hst as <-.
    eexists. split; [by apply move_fire|]. split_and!; try done. simpl. by rewrite app_assoc, !fmap_app.
Qed.

(** What every reachable state is a view of. *)
Inductive reach : view → Prop :=
| reach_start : reach vstart
| reach_move l v v' : reach v → move l v v' → reach v'.

Lemma reach_valid v : reach v → valid v.
Proof. induction 1 as [|l v v' _ IH Hm]; [apply valid_start|by eapply valid_move]. Qed.

Lemma exec_views ls (c : cconfig) : cexec ls = Some c → ∃ v, reach v ∧ views v c.
Proof.
  intros Hex.
  eapply (invariant (H := connect_lts sock_addr connectex socket event addrs w spurious)
    (λ c : cconfig, ∃ v, reach v ∧ views v c) ls c); [| |exact Hex].
  - exists vstart. split; [constructor|apply views_start].
  - intros l c1 c2 (v & Hr & Hv) Hst. destruct (step_moves l v c1 c2 Hv (reach_valid v Hr) Hst) as (v' & Hm & Hv').
    exists v'. split; [by econstructor|done].
Qed.

Lemma length_failed errs : length (failed errs) = length errs.
Proof. apply length_fmap. Qed.

(** No address is tried before the attempt on the one before it is over. *)
Definition in_order calls ends (flight : bool) : Prop :=
  calls = object <$> take (length calls) addrs ∧
  length calls = (length ends + if flight then 1 else 0)%nat.

Lemma begun_outcome a o g k fs pre errs calls ends :
  begun a o g k fs pre errs calls ends → length (option_list (e_outcome k)) = (if e_flight k then 0 else 1)%nat.
Proof.
  intros [(h & Hi & Hh & Hc) _ Hfl _ _]. destruct (e_flight k) eqn:Hf; [by rewrite Hfl|].
  assert (∃ r, e_outcome k = Some r) as [r ->]; [|done].
  destruct Hi as [? _ _ ->|_ _ Hop _|r _ _ (_ & ? & _) _ _ _|_ Ho _].
  - by destruct o as [[]|].
  - destruct Hop as [(_ & _ & _ & [[? _]|(_ & _ & r & ? & _)])|(f & _ & _ & _ & (r & ? & _) & _)]; [congruence|by eexists..].
  - by eexists.
  - destruct o as [[| | | | | | | | | | | | | |[]]|]; simpl in Ho; try done.
    + destruct Ho as (_ & _ & _ & ?). by eexists.
    + destruct Ho as (_ & _ & ?). by eexists.
    + destruct Ho as (_ & _ & ? & _). by eexists.
    + destruct Ho as (_ & _ & [?|[? _]]); [by eexists|done].
    + destruct Ho as (_ & h' & r & -> & _). by apply Forall_app in Hh as [_ [=]%Forall_singleton].
Qed.

Lemma spot_in_order a rest n o g k fs calls ends :
  spot a rest n o g k fs calls ends → in_order calls ends (e_flight k).
Proof.
  intros (pre & errs & Ha & _ & Hlen & [[_ (-> & _) _ -> ->]|Hb]); unfold in_order.
  - rewrite !length_fmap, length_failed, Hlen, Ha, take_app_length. split; [done|lia].
  - pose proof (begun_outcome _ _ _ _ _ _ _ _ _ Hb) as Ho. destruct Hb as [_ _ _ -> ->].
    rewrite !length_app, !length_fmap, !length_app, length_failed, Ho, Hlen, Ha. simpl.
    split; [|destruct (e_flight k); lia].
    rewrite (cons_middle a pre rest), app_assoc, take_app_length' by (rewrite length_app; done). done.
Qed.

Lemma verdict_in_order r calls ends : verdict r calls ends → in_order calls ends false.
Proof.
  unfold in_order. intros (pre & errs & Hlen & Hr). destruct (r.1) as [[]|e].
  - destruct Hr as (a & rest & Ha & _ & -> & ->). rewrite !length_app, !length_fmap, !length_app, length_failed, Hlen, Ha. simpl.
    rewrite (cons_middle a pre rest), app_assoc, take_app_length' by (rewrite length_app; done). split; [done|lia].
  - destruct Hr as (Ha & _ & -> & -> & _). rewrite !length_fmap, length_failed, Hlen, Ha, firstn_all. split; [done|lia].
Qed.

(** C5. However the polls, the completions of the attempts and the callbacks
    interleave, and also when the executor polls the task without reason,
    [connect] tries the addresses in order, one after the other, and each
    attempt has its own outcome: the loop is left with [Ok] when the system
    has accepted the last address tried and refused all those before it, and
    with an error when it has refused all the addresses; the error is that of
    the last one. *)
Theorem connect_delivery (ls : list clabel) (c : cconfig) :
  cexec ls = Some c →
  in_order (c_calls c) (c_ends c) (e_flight (c_kernel c)) ∧
  ∀ r, c_task c = CFinished r → verdict r (c_calls c) (c_ends c).
Proof.
  intros (v & Hr%reach_valid & (Ht & _ & _ & Hk & Hca & He))%exec_views. destruct Hr as [_ _ Hp].
  rewrite Hk, Hca, He. split.
  - destruct (v_pos v) as [a rest n|a rest n|a rest n ph|r]; [by eapply spot_in_order..| |].
    + destruct Hp as [Hp _]. by eapply spot_in_order.
    + destruct Hp as [Hp ->]. by eapply verdict_in_order.
  - intros r Hr. rewrite Hr in Ht. destruct (v_stage v); try done. destruct Ht as (r' & Hpos & [= ->]).
    rewrite Hpos in Hp. apply Hp.
Qed.
End connect.
