(* ===== verification/ConnectWake.v ===== *)
(** * Whether [connect] is woken

    When the future of [connect] is only polled because it was woken, as the
    executor polls the future of a task, the wake-up of an attempt is never
    lost.  When it is polled for other reasons, as a future that waits for
    several others polls them all, it may be: the callback of an attempt that
    failed can take the waker of the next one. *)

From S2P Require Import Prelude Prog Extern Win32 Socket.
From S2P Require Import IoState IoCells IoEvent IoEventSys IoEventThm SockAddr Tcp ConnectSys ConnectThm.

Section wake.
Context {W waker : Type} `{AtomicWakerLaws W waker} `{!EqDecision waker}.
Context (sock_addr : SocketAddr → sockaddr).
Context (connectex : Z) (socket : SOCKET) (event : IoEvent) (addrs : list SocketAddr) (w : waker).
Abbreviation cconfig := (cconfig W waker).
Abbreviation cells := (cells W waker).
Abbreviation view := (view (W := W) (waker := waker)).
Abbreviation cexec := (connect_exec (W := W) sock_addr connectex socket event addrs w false).
Abbreviation cstep := (connect_step (W := W) connectex socket w false).
Abbreviation move := (move sock_addr connectex socket w false).
Abbreviation reach := (reach sock_addr connectex socket addrs w false).
Abbreviation valid := (valid sock_addr connectex socket addrs w).
Abbreviation views := (views sock_addr connectex socket event addrs w).
Abbreviation knd := (connect_kind connectex socket no_addr).
Implicit Types (ph : ephase) (c g : cells) (k : ekernel) (fs old : list fphase) (v : view).

(** No callback is about to wake the task. *)
Definition calm fs : Prop := Forall (λ f, f ≠ FWake) fs.

(** The states in which the poll can be at a phase. *)
Definition allowed ph (st : io_state) : Prop :=
  match ph with
  | EP_start => st = IDLE ∨ st = READY
  | EP_schedule | EP_report | EP_done (Ready _) => st = IDLE
  | EP_call | EP_error | EP_idle _ | EP_register | EP_pend => st = SCHEDULING
  | EP_reset | EP_rearm | EP_get | EP_query _ | EP_take _ => st = READY
  | EP_wait | EP_done Pending => False
  end.

(** The task was woken since its last poll began exactly when the result is
    there and the callback is over. *)
Definition told c g fs : Prop := w ∈ woken c ↔ c_state g = READY ∧ calm fs.

Definition notified v : Prop :=
  let '(View st p c g old fs k calls _) := v in
  match st, p with
  | Suspended, POut _ => calls = [] ∧ w ∈ woken c
  | Suspended, PLoop _ _ _ => c_state g = IDLE ∧ calls = [] ∧ w ∈ woken c ∨ c_state g ≠ IDLE ∧ told c g fs
  | Suspended, _ => False
  | Running, PPoll _ _ _ (EP_done Pending) => c_state g ≠ IDLE ∧ told c g fs
  | Running, PLoop _ _ _ | Running, PContext _ _ _ => allowed EP_start (c_state g) ∧ woken c = [] ∧ calm fs
  | Running, PPoll _ _ _ ph => allowed ph (c_state g) ∧ woken c = [] ∧ calm fs
  | _, _ => True
  end.

Record wakes v : Prop := {
  wk_old : Forall (λ f, f = FEnd) (v_old v);
  wk_waker : c_waker (v_cells v) = c_waker (v_ghost v);
  wk_notified : notified v;
}.

Lemma wakes_start : wakes (vstart addrs w).
Proof.
  split; [done..|]. unfold vstart. simpl. destruct addrs; simpl; [|left]; split_and!; try done; set_solver.
Qed.

#[local] Arguments success : simpl never.

Lemma enext_allowed ph x g k ph' g' k' :
  allowed ph (c_state g) → enext knd (Some socket) w ph x g k = Some (ph', (g', k')) →
  match ph' with EP_done Pending => c_state g' = PENDING | _ => allowed ph' (c_state g') end.
Proof.
  intros Ha Hn. destruct ph; simpl in Ha, Hn; try done.
  - destruct Ha as [Ha|Ha]; rewrite Ha in Hn; by simplify_eq/=.
  - rewrite Ha in Hn. by simplify_eq/=.
  - destruct x as [|x]; [done|]. destruct (estart_op knd x k) as [[z k1]|]; simplify_eq/=.
    unfold after_start. simpl. by case_decide.
  - destruct (success knd (e_error k)); [by simplify_eq/=|]. case_decide; by simplify_eq/=.
  - by simplify_eq/=.
  - by simplify_eq/=.
  - by simplify_eq/=.
  - by simplify_eq/=.
  - by simplify_eq/=.
  - by simplify_eq/=.
  - destruct (equery k) as [[z k1]|]; by simplify_eq/=.
  - case_decide; by simplify_eq/=.
  - by simplify_eq/=.
Qed.

Lemma enext_woken ph x c k ph' c' k' :
  enext knd (Some socket) w ph x c k = Some (ph', (c', k')) → woken c' = woken c.
Proof.
  intros Hn. destruct ph; simpl in Hn; try done; try by simplify_eq/=.
  - case_decide; by simplify_eq/=.
  - destruct x as [|x]; [done|]. destruct (estart_op knd x k) as [[z k1]|]; by simplify_eq/=.
  - destruct (equery k) as [[z k1]|]; by simplify_eq/=.
Qed.

Lemma enext_waker ph x c g k ph' c' g' k' :
  c_waker c = c_waker g → c_state c = c_state g →
  enext knd (Some socket) w ph x c k = Some (ph', (c', k')) →
  enext knd (Some socket) w ph x g k = Some (ph', (g', k')) → c_waker c' = c_waker g'.
Proof.
  intros Hw Hs Hc Hg. destruct ph; simpl in Hc, Hg; try done; try (simplify_eq/=; congruence).
  - rewrite Hs in Hc. case_decide; by simplify_eq/=.
  - destruct x as [|x]; [done|]. destruct (estart_op knd x k) as [[z k1]|]; by simplify_eq/=.
  - destruct (equery k) as [[z k1]|]; by simplify_eq/=.
Qed.

Lemma fnext_waker f c g f' c' g' :
  c_waker c = c_waker g → fnext f c = Some (f', c') → fnext f g = Some (f', g') → c_waker c' = c_waker g'.
Proof.
  intros Hw Hc Hg. destruct f; simpl in Hc, Hg; try done; try (simplify_eq/=; congruence).
  - case_decide; case_decide; by simplify_eq/=.
  - rewrite Hw in Hc. destruct (aw_take (c_waker g)). by simplify_eq/=.
Qed.

Lemma calm_insert fs i f f' :
  fs !! i = Some f → f ≠ FWake → f' ≠ FWake → calm (<[i := f']> fs) ↔ calm fs.
Proof.
  intros Hi Hf Hf'. split; intros Hc.
  - rewrite <- (list_insert_id fs i f Hi), <- (list_insert_insert_eq fs i f f'). by apply Forall_insert.
  - by apply Forall_insert.
Qed.

Lemma calm_delete fs i : fs !! i = Some FEnd → calm (delete i fs) ↔ calm fs.
Proof.
  intros Hi. rewrite delete_take_drop. rewrite <- (take_drop_middle fs i FEnd Hi) at 3. unfold calm.
  rewrite !Forall_app, Forall_cons. naive_solver.
Qed.

Lemma calm_snoc fs : calm (fs ++ [FStart]) ↔ calm fs.
Proof. unfold calm. rewrite Forall_app, Forall_singleton. naive_solver. Qed.

(** What [notified] depends on. *)
Lemma notified_ext st p c g old fs k calls ends c' g' fs' old' k' ends' :
  woken c' = woken c → c_state g' = c_state g → (calm fs' ↔ calm fs) →
  notified (View st p c g old fs k calls ends) → notified (View st p c' g' old' fs' k' calls ends').
Proof.
  intros Hw Hs Hc. unfold notified, told. rewrite Hw, Hs.
  destruct st, p as [| |a rest n ph|]; try (by auto); try (rewrite Hc; by auto).
  destruct ph as [| | | | | | | | | | | | | |[]]; rewrite Hc; by auto.
Qed.

Lemma notified_poll a rest n ph c g old fs k calls ends :
  match ph with EP_done Pending => c_state g = PENDING | _ => allowed ph (c_state g) end →
  woken c = [] → calm fs → notified (View Running (PPoll a rest n ph) c g old fs k calls ends).
Proof.
  intros Hst Hw Hc. assert (c_state g = PENDING → c_state g ≠ IDLE ∧ told c g fs) as Hp.
  { intros Hp. unfold told. rewrite Hp, Hw. split; [done|]. split; [set_solver|]. by intros [? _]. }
  destruct ph as [| | | | | | | | | | | | | |[]]; simpl; by auto.
Qed.

Lemma past_calm fs : Forall past fs → calm fs → Forall (λ f, f = FEnd) fs.
Proof.
  intros Hp Hc. apply Forall_forall. intros f Hf.
  pose proof (proj1 (Forall_forall _ _) Hp f Hf). pose proof (proj1 (Forall_forall _ _) Hc f Hf). by destruct f.
Qed.

Lemma wakes_arrive a rest n ph c g old fs k calls ends :
  valid (arrive a rest n ph c g old fs k calls ends) →
  match ph with EP_done Pending => c_state g = PENDING | _ => allowed ph (c_state g) end →
  woken c = [] → calm fs → c_waker c = c_waker g → Forall (λ f, f = FEnd) old →
  wakes (arrive a rest n ph c g old fs k calls ends).
Proof.
  intros Hv Hst Hw Hc Hwk Hold. unfold arrive in *.
  destruct ph as [| | | | | | | | | | | | | |[[[]|e]|]]; try (split; [done..|]; by apply notified_poll).
  - by split.
  - split; [|done|].
    + apply Forall_app. split; [done|]. apply past_calm; [|done]. by apply va_old, Forall_app in Hv as [_ ?].
    + destruct rest; simpl; [done|]. split_and!; [by left|done|by apply Forall_nil].
Qed.

(** What a callback in progress says of the state. *)
Lemma spot_fired a rest n o g k fs calls ends i f :
  spot sock_addr connectex socket addrs w a rest n o g k fs calls ends → fs !! i = Some f →
  match f with
  | FReady => c_state g = CALLBACK ∧ fs = [FReady]
  | FWake => o = None ∨ o = Some (EP_done Pending) → c_state g = READY ∧ fs = [FWake] ∧ has_waker w g
  | _ => True
  end.
Proof.
  intros (pre & errs & _ & _ & _ & [[_ _ -> _ _]|[(h & Hi & Hh & _) _ _ _ _]]) Hf; [done|].
  destruct Hi as [_ _ -> _|_ _ [(-> & _)|(f' & -> & _ & _ & _ & Hfi)] _|r Hst _ _ _ [[-> Hw]|[[->| ->] _]] _|_ Ho Hfs];
    try done; try (destruct i as [|i]; [|done]; simplify_eq/=).
  - destruct f; try done. by destruct Hfi.
  - done.
  - done.
  - pose proof (Forall_lookup_1 _ _ _ _ Hfs Hf) as Hharm. destruct f; try done. intros [->| ->]; [|done].
    destruct Ho as (_ & h' & r & -> & _). by apply Forall_app in Hh as [_ [=]%Forall_singleton].
Qed.

Lemma fnext_woken f c f' c' : fnext f c = Some (f', c') → f ≠ FWake → woken c' = woken c.
Proof. intros Hn Hf. destruct f; simpl in Hn; try done; try case_decide; by simplify_eq/=. Qed.

(** A callback moves while the task cannot have been told. *)
Lemma told_callback c g fs c' g' i f f' :
  c_waker c = c_waker g → agree c g → fs !! i = Some f →
  match f with
  | FReady => c_state g = CALLBACK ∧ fs = [FReady]
  | FWake => c_state g = READY ∧ fs = [FWake] ∧ has_waker w g
  | _ => True
  end →
  fnext f c = Some (f', c') → fnext f g = Some (f', g') → c_state g ≠ IDLE → told c g fs →
  c_state g' ≠ IDLE ∧ told c' g' (<[i := f']> fs).
Proof.
  intros Hwk [Hag _] Hi Hf Hc Hg Hne Ht. unfold told in *.
  destruct (decide (f = FWake)) as [->|Hnw].
  { destruct Hf as (Hst & -> & Hw). destruct i as [|i]; [|done]. unfold has_waker in Hw. simpl in *.
    rewrite Hwk in Hc. destruct (aw_take (c_waker g)) as [o aw]. simplify_eq/=. rewrite Hst.
    split; [done|]. split; intros _; [|set_solver]. split; [done|]. by apply Forall_singleton. }
  rewrite (fnext_woken _ _ _ _ Hc Hnw). clear Hc. destruct f; try done; simpl in Hg.
  - simplify_eq/=. rewrite (calm_insert fs i FStart) by done. by split.
  - case_decide; simplify_eq/=. all: rewrite (calm_insert fs i FTest) by done; by split.
  - case_decide as Hp; simplify_eq/=.
    + split; [done|]. rewrite Ht, Hp. split; by intros [? _].
    + rewrite (calm_insert fs i FSwap) by done. by split.
  - simplify_eq/=. rewrite (calm_insert fs i FSet) by done. by split.
  - destruct Hf as [Hst ->]. destruct i as [|i]; [|done]. simplify_eq/=. split; [done|]. rewrite Ht, Hst.
    split; [by intros [? _]|]. intros [_ [Hca _]%Forall_cons]. by destruct Hca.
Qed.

(** A callback moves while the poll is at work. *)
Lemma calm_callback_step ph g fs g' i f f' :
  allowed ph (c_state g) → fs !! i = Some f → (f = FReady → c_state g = CALLBACK) →
  fnext f g = Some (f', g') → calm fs → c_state g' = c_state g ∧ f ≠ FWake ∧ calm (<[i := f']> fs).
Proof.
  intros Ha Hi Hf Hg Hc. pose proof (Forall_lookup_1 _ _ _ _ Hc Hi) as Hnw.
  assert (c_state g ≠ PENDING ∧ c_state g ≠ CALLBACK) as [Hnp Hncb].
  { destruct ph as [| | | | | | | | | | | | | |[]]; simpl in Ha; try done; try (by rewrite Ha);
      destruct Ha as [-> | ->]; done. }
  assert (c_state g' = c_state g ∧ f' ≠ FWake) as [Hs Hnw'].
  { destruct f; simpl in Hg; try done; try (by simplify_eq/=).
    - case_decide; by simplify_eq/=.
    - rewrite decide_False in Hg by done. by simplify_eq/=.
    - by destruct Hncb, Hf. }
  split_and!; [done..|]. by apply Forall_insert.
Qed.

Lemma spot_idle a rest n g k fs calls ends :
  spot sock_addr connectex socket addrs w a rest n None g k fs calls ends → c_state g = IDLE → fs = [].
Proof. intros (pre & errs & _ & _ & _ & [[_ _ ? _ _]|Hb]) Hst; [done|]. by apply begun_not_idle in Hb. Qed.

Lemma polling_notified a rest n ph x c g old fs k calls ends ph' g' k' :
  enext knd (Some socket) w ph x g k = Some (ph', (g', k')) →
  notified (View Running (PPoll a rest n ph) c g old fs k calls ends) →
  allowed ph (c_state g) ∧ woken c = [] ∧ calm fs.
Proof. by destruct ph. Qed.

Lemma notified_callback st p c c' g g' old fs k calls ends i f f' :
  c_waker c = c_waker g → agree c g →
  cpos_inv sock_addr connectex socket addrs w p g k fs calls ends →
  fs !! i = Some f → fnext f c = Some (f', c') → fnext f g = Some (f', g') →
  notified (View st p c g old fs k calls ends) → notified (View st p c' g' old (<[i := f']> fs) k calls ends).
Proof.
  intros Hwk Hag Hp Hi Hc Hg Hn.
  assert (∀ ph, allowed ph (c_state g) ∧ woken c = [] ∧ calm fs → (f = FReady → c_state g = CALLBACK) →
    allowed ph (c_state g') ∧ woken c' = [] ∧ calm (<[i := f']> fs)) as Hcalm.
  { intros ph (Ha & Hw & Hca) Hr. destruct (calm_callback_step ph g fs g' i f f') as (-> & ? & ?); [done..|].
    split_and!; [done| |done]. by erewrite fnext_woken. }
  destruct st; simpl in Hn |- *; [| |done].
  - destruct p as [a rest n|a rest n|a rest n ph|r]; try done.
    + pose proof (spot_fired _ _ _ _ _ _ _ _ _ _ _ Hp Hi) as Hf.
      destruct Hn as [[Hst _]|[Hne Ht]]; [by rewrite (spot_idle _ _ _ _ _ _ _ _ Hp Hst) in Hi|]. right.
      eapply told_callback; [done..| |done|done|done|done]. destruct f; try done. by apply Hf; left.
    + split; [by apply Hn|]. destruct Hn as [_ Hn].
      destruct (decide (f = FWake)) as [->|Hf]; [|by erewrite fnext_woken]. simpl in Hc.
      destruct (aw_take (c_waker c)) as [o aw]. simplify_eq/=. set_solver.
  - destruct p as [a rest n|a rest n|a rest n ph|r]; try done.
    + pose proof (spot_fired _ _ _ _ _ _ _ _ _ _ _ Hp Hi) as Hf.
      apply (Hcalm EP_start); [done|]. intros ->. by destruct Hf.
    + pose proof (spot_fired _ _ _ _ _ _ _ _ _ _ _ Hp Hi) as Hf.
      apply (Hcalm EP_start); [done|]. intros ->. by destruct Hf.
    + destruct Hp as [Hp Hnr]. pose proof (spot_fired _ _ _ _ _ _ _ _ _ _ _ Hp Hi) as Hf.
      assert (f = FReady → c_state g = CALLBACK) as Hr by (intros ->; by destruct Hf).
      destruct ph as [| | | | | | | | | | | | | |[r|]]; try (by apply (Hcalm _ Hn Hr)).
      destruct Hn as [Hne Ht].
      eapply told_callback; [done..| |done|done|done|done]. destruct f; try done. by apply Hf; right.
Qed.

Lemma wakes_move l v v' : move l v v' → valid v → valid v' → wakes v → wakes v'.
Proof.
  intros Hm [_ Hag Hp] Hv' [Hold Hwk Hn].
  destruct Hm as [p c g old fs k calls ends Hw|x a rest n c g old fs k calls ends|x a rest n c g old fs k calls ends
    |a rest n ph x ph' c c' g g' old fs k k' calls ends Hc Hg Hph|a rest n x ph' c c' g g' old fs k k' calls ends Hc Hg
    |a rest n c g old fs k calls ends|r c g old fs k calls ends|st p c g old fs k calls ends e Hf
    |st p c g old fs k calls ends Hs|st p c c' g old fs k calls ends i f f' Hi Hc
    |st p c c' g g' old fs k calls ends i f f' Hle Hi Hc Hg|st p c g old fs k calls ends i Hi
    |st p c g old fs k calls ends i Hle Hi]; simpl in Hag, Hp, Hold, Hwk.
  - split; [done..|]. destruct Hw as [[=]|Hw]. destruct p as [a rest n|a rest n|a rest n ph|r]; simpl in Hn |- *; try done.
    destruct Hn as [[Hst _]|[_ Ht]].
    + split_and!; [by left|done|]. rewrite (spot_idle _ _ _ _ _ _ _ _ Hp Hst). by apply Forall_nil.
    + apply Ht in Hw as [? ?]. split_and!; [by right|done..].
  - by split.
  - by split.
  - destruct (polling_notified _ _ _ _ _ _ _ _ _ _ _ _ _ _ _ Hg Hn) as (Ha & Hw & Hcalm).
    apply wakes_arrive; [done|by eapply enext_allowed|by erewrite enext_woken|done| |done].
    eapply enext_waker; [done|by destruct Hag|done..].
  - destruct (polling_notified _ _ _ _ _ _ _ _ _ _ _ _ _ _ _ Hg Hn) as (Ha & Hw & Hcalm).
    split; [done| |].
    + eapply enext_waker; [done|by destruct Hag|done..].
    + apply notified_poll; [by eapply enext_allowed|by erewrite enext_woken|done].
  - split; [done..|]. by right.
  - by split.
  - split; [done..|]. by eapply notified_ext, Hn.
  - split; [done..|]. by eapply notified_ext, Hn; [..|apply calm_snoc].
  - pose proof (Forall_lookup_1 _ _ _ _ Hold Hi) as ->. done.
  - split; [done|by eapply fnext_waker|]. by eapply notified_callback.
  - split; [by apply Forall_delete|done|]. by eapply notified_ext, Hn.
  - split; [done..|]. by eapply notified_ext, Hn; [..|apply calm_delete].
Qed.

Lemma reach_wakes v : reach v → wakes v.
Proof.
  induction 1 as [|l v v' Hr IH Hm]; [apply wakes_start|].
  apply reach_valid in Hr as Hv. eapply wakes_move; [done|done| |done]. by eapply valid_move.
Qed.

(** ** The thread pool alone *)

#[local] Instance lts : LTS clabel cconfig := connect_lts sock_addr connectex socket event addrs w false.

Definition pool_label (l : clabel) : bool := match l with LFire | LCallback _ => true | _ => false end.

(** One action of the callback of the attempt at hand, of a suspended task. *)
Lemma callback_step v (c : cconfig) f f' c' g' :
  reach v → views v c → v_fs v = [f] → fnext f (v_cells v) = Some (f', c') → fnext f (v_ghost v) = Some (f', g') →
  let v' := View (v_stage v) (v_pos v) c' g' (v_old v) [f'] (v_kernel v) (v_calls v) (v_ends v) in
  ∃ c1 : cconfig, cstep (LCallback (length (v_old v))) c = Some c1 ∧ reach v' ∧ views v' c1 ∧ c_task c1 = c_task c.
Proof.
  intros Hr (Ht & Hcb & Hc & Hk & Hca & He) Hfs Hn Hg v'. destruct v as [st p c0 g old fs k calls ends].
  simpl in *. subst fs.
  assert (move (LCallback (length old)) (View st p c0 g old [f] k calls ends) v') as Hm.
  { subst v'. pose proof (move_callback sock_addr connectex socket w false st p c0 c' g g' old [f] k calls ends
      (length old) f f' (Nat.le_refl _)) as Hm. rewrite Nat.sub_diag in Hm. by apply Hm. }
  exists (cwith c (c', k) (c_task c) (fden <$> old ++ [f'])).
  split; [|split; [by econstructor|split; [by split_and!|done]]].
  unfold connect_step. rewrite Hcb, list_lookup_fmap, lookup_app_r, Nat.sub_diag by lia. simpl.
  unfold csys. rewrite Hc, Hk, fnext_step, Hn. simpl.
  by rewrite <- list_fmap_insert, insert_app_r_alt, Nat.sub_diag by lia.
Qed.

(** The state of an attempt that a suspended task waits for. *)
Lemma waiting_state a rest n g k fs calls ends :
  spot sock_addr connectex socket addrs w a rest n None g k fs calls ends → c_state g ≠ IDLE → e_flight k = false →
  c_state g ≠ SCHEDULING ∧
  (fs = [] ∧ e_armed k && e_signaled k = true ∧ c_state g ≠ READY ∨
   c_state g = READY ∧ calm fs ∨ ∃ f, fs = [f] ∧ f ≠ FEnd).
Proof.
  intros (pre & errs & _ & _ & _ & [[Hst _ _ _ _]|[(h & Hi & Hh & Hc) _ _ _ _]]) Hne Hf; [done|].
  split; [by eapply idle_not_scheduling|].
  destruct Hi as [? _ _ _|Hph _ [(-> & Hst & Ha & [[? _]|(_ & Hs & _)])|(f & -> & _ & _ & _ & Hfi)] _
    |r Hst _ _ _ [[-> _]|[[->| ->] _]] _|_ (? & _) _]; try done; try congruence.
  - left. rewrite Ha, Hs. split_and!; [done..|]. by destruct Hst as [-> | ->].
  - right. right. exists f. split; [done|]. by intros ->.
  - right. right. by exists FWake.
  - right. left. split; [done|by apply Forall_nil].
  - right. left. split; [done|by repeat constructor].
Qed.

(** The callback of an attempt runs to its end. *)
Lemma run_callback m v (c : cconfig) f a rest n :
  (frank f ≤ m)%nat → reach v → views v c → v_stage v = Suspended → v_pos v = PLoop a rest n →
  v_fs v = [f] → c_state (v_ghost v) ≠ IDLE → e_flight (v_kernel v) = false →
  ∃ ls v' (c' : cconfig), exec ls c = Some c' ∧ forallb pool_label ls = true ∧ reach v' ∧ views v' c' ∧
    c_task c' = c_task c ∧ v_stage v' = Suspended ∧ v_pos v' = PLoop a rest n ∧
    c_state (v_ghost v') = READY ∧ calm (v_fs v').
Proof.
  revert v c f. induction m as [m IH] using lt_wf_ind. intros v c f Hm Hr Hv Hst Hpos Hfs Hne Hfl.
  pose proof (reach_valid _ _ _ _ _ _ v Hr) as [_ Hag Hp]. rewrite Hpos in Hp.
  destruct (waiting_state _ _ _ _ _ _ _ _ Hp Hne Hfl) as [Hns [(Heq & _)|[[Hready Hcalm]|(f0 & Heq & Hf)]]];
    [by rewrite Hfs in Heq|by exists [], v, c|]. rewrite Hfs in Heq. injection Heq as <-.
  destruct (fnext_progress f (v_cells v) Hf) as (f' & c1 & Hn & Hlt); [by rewrite (proj1 Hag)|].
  destruct (fnext_agree _ _ _ _ _ Hag Hn) as (g1 & Hg & _).
  destruct (callback_step v c f f' c1 g1 Hr Hv Hfs Hn Hg) as (c2 & Hst2 & Hr2 & Hv2 & Ht2).
  assert (c_state g1 ≠ IDLE) as Hne1.
  { destruct f; simpl in Hg; try (by injection Hg as <- <-); try done.
    - case_decide; by injection Hg as <- <-.
    - destruct (aw_take (c_waker (v_ghost v))). by injection Hg as <- <-. }
  destruct (IH (frank f') ltac:(lia) _ c2 f' ltac:(lia) Hr2 Hv2) as (ls & v' & c' & Hex & Hls & Hr' & Hv' & Ht' & ?);
    [done..|].
  exists (LCallback (length (v_old v)) :: ls), v', c'. split_and!; try done; [|congruence|naive_solver..].
  change (cstep (LCallback (length (v_old v))) c ≫= exec ls = Some c'). by rewrite Hst2.
Qed.

(** The thread pool runs until the task is woken. *)
Lemma pool_tells v (c : cconfig) a rest n :
  reach v → views v c → v_stage v = Suspended → v_pos v = PLoop a rest n →
  c_state (v_ghost v) ≠ IDLE → e_flight (v_kernel v) = false →
  ∃ ls v' (c' : cconfig), exec ls c = Some c' ∧ forallb pool_label ls = true ∧ reach v' ∧ views v' c' ∧
    c_task c' = c_task c ∧ v_stage v' = Suspended ∧ v_pos v' = PLoop a rest n ∧
    c_state (v_ghost v') = READY ∧ calm (v_fs v').
Proof.
  intros Hr Hv Hst Hpos Hne Hfl.
  pose proof (reach_valid _ _ _ _ _ _ v Hr) as [_ _ Hp]. rewrite Hpos in Hp.
  destruct (waiting_state _ _ _ _ _ _ _ _ Hp Hne Hfl) as [Hns [(Heq & Hs & _)|[[Hready Hcalm]|(f & Heq & Hf)]]];
    [|by exists [], v, c|by eapply run_callback].
  destruct v as [st p c0 g old fs k calls ends]. simpl in *. subst st p fs.
  set (v1 := View Suspended (PLoop a rest n) c0 g old ([] ++ [FStart]) (eset (e_signaled k) false (e_error k) k) calls ends).
  assert (reach v1) as Hr1 by (econstructor; [exact Hr|by apply move_fire]).
  destruct Hv as (Ht & Hcb & Hc & Hk & Hca & He). simpl in *.
  set (c1 := cwith c (c0, eset (e_signaled k) false (e_error k) k) (c_task c) (c_callbacks c ++ [callback WAIT_OBJECT_0])).
  destruct (run_callback 6 v1 c1 FStart a rest n) as (ls & v' & c' & Hex & Hls & Hr' & Hv' & Ht' & ?);
    [simpl; lia|done| |done..|].
  { split_and!; try done. simpl. by rewrite Hcb, !fmap_app, app_nil_r. }
  exists (LFire :: ls), v', c'. split_and!; try done; [|naive_solver..].
  change (cstep LFire c ≫= exec ls = Some c'). unfold connect_step. by rewrite Hk, Hs, Hc.
Qed.

(** No wake-up is lost when the task is only polled because it was woken: once
    the attempt it waits for is over, the thread pool alone can run to a state
    where the task has been woken since its last poll, and the result is there
    for the poll that follows. *)
Theorem connect_wakes (ls : list clabel) (c : cconfig) p :
  cexec ls = Some c → c_task c = CSuspended p → e_flight (c_kernel c) = false →
  ∃ ls1 (c1 : cconfig), forallb pool_label ls1 = true ∧ cexec (ls ++ ls1) = Some c1 ∧
    c_task c1 = CSuspended p ∧ w ∈ woken (c_cells c1) ∧ (c_state (c_cells c1) = READY ∨ c_calls c1 = []).
Proof.
  intros Hex Ht Hf. destruct (exec_views _ _ _ _ _ _ _ _ _ Hex) as (v & Hr & Hv).
  assert (∀ ls1 (c1 : cconfig), exec ls1 c = Some c1 → cexec (ls ++ ls1) = Some c1) as Happ.
  { intros ls1 c1 Hex1. unfold connect_exec in *. by rewrite exec_app, Hex. }
  pose proof (reach_wakes v Hr) as [_ _ Hn].
  pose proof Hv as (Htv & _ & Hc & Hk & Hca & _). rewrite Ht in Htv.
  destruct (v_stage v) eqn:Hst; [|done|by destruct Htv as (? & _ & ?)].
  assert (∀ v (c1 : cconfig), views v c1 → v_calls v = [] ∧ w ∈ woken (v_cells v) →
    w ∈ woken (c_cells c1) ∧ (c_state (c_cells c1) = READY ∨ c_calls c1 = [])) as Hstart.
  { intros v1 c1 (_ & _ & -> & _ & -> & _) [-> Hw]. auto. }
  destruct (v_pos v) as [a rest n|a rest n|a rest n ph|r] eqn:Hpos;
    destruct v as [st p0 c0 g old fs k calls ends]; simpl in *; subst st p0; simpl in Hn; try done.
  - destruct Hn as [(_ & Hn)|[Hne _]].
    { exists [], c. split_and!; [done|by apply Happ|done|by eapply Hstart..]. }
    rewrite Hk in Hf.
    destruct (pool_tells _ c a rest n Hr Hv eq_refl eq_refl Hne Hf)
      as (ls1 & v' & c1 & Hex1 & Hls1 & Hr' & Hv' & Ht' & Hst' & Hpos' & Hready & Hcalm).
    pose proof (reach_wakes v' Hr') as [_ _ Hn']. pose proof (reach_valid _ _ _ _ _ _ v' Hr') as [_ [Hag _] _].
    exists ls1, c1. split_and!; [done|by apply Happ|congruence| |left].
    + destruct Hv' as (_ & _ & -> & _). destruct v' as [st p0 c2 g2 old2 fs2 k2 calls2 ends2]. simpl in *.
      subst st p0. simpl in Hn'. destruct Hn' as [(? & _)|[_ Htold]]; [congruence|by apply Htold].
    + destruct Hv' as (_ & _ & -> & _). by rewrite Hag.
  - exists [], c. split_and!; [done|by apply Happ|done|by eapply Hstart..].
Qed.
End wake.
