(* ===== verification/ConnectTerm.v ===== *)
(** * [connect] ends

    When the task is only polled because it was woken, every schedule of the
    loop of [connect] is finite but for the turns in which a callback waits for
    the poll to leave [SCHEDULING], and the only state in which nothing can
    happen is the one in which the loop has been left. *)

From S2P Require Import Prelude Prog Extern Win32 Socket.
From S2P Require Import IoState IoCells IoEvent IoEventSys IoEventThm SockAddr Tcp ConnectSys ConnectThm ConnectWake.

(** A callback reads [SCHEDULING], and will read the state again. *)
Definition spins {W waker} (l : clabel) (c : cconfig W waker) : bool :=
  match l with
  | LCallback i =>
      match c_callbacks c !! i with
      | Some p => match next_act p with
                  | Some (HState ALoad) => bool_decide (c_state (c_cells c) = SCHEDULING)
                  | _ => false
                  end
      | None => false
      end
  | _ => false
  end.

Section term.
Context {W waker : Type} `{AtomicWakerLaws W waker} `{!EqDecision waker}.
Context (sock_addr : SocketAddr → sockaddr).
Context (connectex : Z) (socket : SOCKET) (event : IoEvent) (addrs : list SocketAddr) (w : waker).
Abbreviation cconfig := (cconfig W waker).
Abbreviation cells := (cells W waker).
Abbreviation view := (view (W := W) (waker := waker)).
Abbreviation cexec := (connect_exec (W := W) sock_addr connectex socket event addrs w false).
Abbreviation cstep := (connect_step (W := W) connectex socket w false).
Abbreviation move := (move sock_addr connectex socket w false).
Abbreviation reach := (reach sock_addr connectex socket addrs w false).
Abbreviation valid := (valid sock_addr connectex socket addrs w).
Abbreviation views := (views sock_addr connectex socket event addrs w).
Abbreviation knd := (connect_kind connectex socket no_addr).
Implicit Types (ph : ephase) (c g : cells) (k : ekernel) (fs old : list fphase) (v : view).

(** The turns spent waiting in a schedule. *)
Fixpoint spun (ls : list clabel) (c : cconfig) : nat :=
  match ls with
  | [] => 0
  | l :: ls => (if spins l c then 1 else 0) + match cstep l c with Some c' => spun ls c' | None => 0 end
  end.

(** ** How many moves are left *)

Definition phase_rank (st : io_state) ph : nat :=
  match ph with
  | EP_start => if decide (st = IDLE) then 32 else 10
  | EP_schedule => 31 | EP_call => 30 | EP_error => 17 | EP_register => 16 | EP_pend => 15
  | EP_done Pending => 14 | EP_reset => 9 | EP_rearm => 8 | EP_get => 7 | EP_query _ => 6 | EP_take _ => 5
  | EP_report | EP_idle _ => 4
  | EP_wait | EP_done (Ready _) => 0
  end.

Definition pos_rank (stg : stage) (st : io_state) (p : cpos) : nat :=
  match p with
  | PLoop _ rest _ =>
      40 * length rest + (match stg with Suspended => 1 | _ => 0 end) + if decide (st = IDLE) then 34 else 12
  | PContext _ rest _ => 40 * length rest + if decide (st = IDLE) then 33 else 11
  | PPoll _ rest _ ph => 40 * length rest + phase_rank st ph
  | POut _ => match stg with Suspended => 2 | Running => 1 | Finished => 0 end
  end.

Definition kernel_rank k : nat :=
  (if e_flight k then 1 else 0) + if e_armed k && (e_signaled k || e_flight k) then 9 else 0.

Definition callbacks_rank fs : nat := total (λ f, S (frank f)) fs.

Definition rank v : nat :=
  pos_rank (v_stage v) (c_state (v_ghost v)) (v_pos v) + kernel_rank (v_kernel v) +
  callbacks_rank (v_old v) + callbacks_rank (v_fs v).

#[local] Arguments success : simpl never.

(** A step of the poll of a task that is only polled when it was woken. *)
Lemma enext_rank ph x g k ph' g' k' :
  allowed ph (c_state g) → ph ≠ EP_call → (ph = EP_rearm → e_signaled k = false ∧ e_flight k = false) →
  enext knd (Some socket) w ph x g k = Some (ph', (g', k')) →
  (match ph' with EP_done (Ready _) => 4 | _ => S (phase_rank (c_state g') ph') end ≤ phase_rank (c_state g) ph)%nat ∧
  (kernel_rank k' ≤ kernel_rank k)%nat.
Proof.
  intros Ha Hph Hre Hn. destruct ph; simpl in Ha, Hn |- *; try done.
  - destruct Ha as [Ha|Ha]; rewrite Ha in Hn |- *; simplify_eq/=; by split.
  - rewrite Ha in Hn. simplify_eq/=. by split.
  - destruct (success knd (e_error k)); [simplify_eq/=; split; lia|]. case_decide; simplify_eq/=; split; lia.
  - simplify_eq/=. split; lia.
  - simplify_eq/=. split; lia.
  - simplify_eq/=. split; lia.
  - simplify_eq/=. split; [lia|]. unfold kernel_rank. simpl.
    destruct (e_armed k), (e_flight k), (e_signaled k); simpl; lia.
  - simplify_eq/=. split; [lia|]. unfold kernel_rank. simpl. destruct (Hre eq_refl) as [-> ->]. simpl. lia.
  - simplify_eq/=. split; lia.
  - unfold equery in Hn. destruct (e_flight k) eqn:Hf; [done|].
    assert (kernel_rank k' = kernel_rank k ∧ ∃ z, ph' = EP_take z ∧ g' = g) as (-> & z & -> & ->).
    { destruct (e_outcome k) as [[|[]]|]; simplify_eq/=; by eauto. }
    simpl. split; lia.
  - case_decide; simplify_eq/=; split; lia.
  - simplify_eq/=. split; lia.
Qed.

Lemma call_rank x g k ph' g' k' :
  enext knd (Some socket) w EP_call x g k = Some (ph', (g', k')) → e_armed k && (e_signaled k || e_flight k) = false →
  (phase_rank (c_state g') ph' + kernel_rank k' < 30)%nat.
Proof.
  intros Hn Hk. simpl in Hn. destruct x as [|x]; [done|]. unfold estart_op, after_start in Hn. simpl in Hn.
  destruct x as [| |e]; simplify_eq/=.
  - unfold kernel_rank. simpl. destruct (e_armed k); simpl; lia.
  - unfold kernel_rank. simpl. destruct (e_armed k); simpl; lia.
  - case_decide; simplify_eq/=. unfold kernel_rank. simpl. destruct (e_armed k), (e_signaled k); simpl; lia.
Qed.

Lemma fnext_rank f c f' c' :
  fnext f c = Some (f', c') →
  (frank f' < frank f)%nat ∨ f = FTest ∧ f' = FStart ∧ c_state c = SCHEDULING.
Proof.
  intros Hn. destruct f; simpl in Hn; try done; try (simplify_eq/=; left; lia).
  - case_decide; simplify_eq/=; [by right|left; lia].
  - case_decide; simplify_eq/=; left; lia.
  - destruct (aw_take (c_waker c)). simplify_eq/=. left. lia.
Qed.

Lemma fnext_idle f g f' g' : fnext f g = Some (f', g') → c_state g' = IDLE → c_state g = IDLE.
Proof.
  intros Hn Hs. destruct f; simpl in Hn; try done; try (by simplify_eq/=).
  - case_decide; by simplify_eq/=.
  - destruct (aw_take (c_waker g)). by simplify_eq/=.
Qed.

Lemma pos_rank_idle stg st st' p :
  (st' = IDLE → st = IDLE) → (pos_rank stg st' p ≤ pos_rank stg st p)%nat.
Proof.
  intros Hs. destruct p as [a rest n|a rest n|a rest n ph|r]; simpl; [| |destruct ph; simpl; try lia|lia];
    (destruct (decide (st' = IDLE)) as [Hst|]; [rewrite decide_True by auto; lia|]); case_decide; lia.
Qed.

Lemma callbacks_rank_insert fs i f f' :
  fs !! i = Some f →
  (callbacks_rank (<[i := f']> fs) + S (frank f) = callbacks_rank fs + S (frank f'))%nat.
Proof. apply (total_insert (λ f, S (frank f))). Qed.

Lemma callbacks_rank_delete fs i :
  fs !! i = Some FEnd → (callbacks_rank (delete i fs) + 1 = callbacks_rank fs)%nat.
Proof. apply (total_delete (λ f, S (frank f))). Qed.

Lemma callbacks_rank_app fs1 fs2 : callbacks_rank (fs1 ++ fs2) = (callbacks_rank fs1 + callbacks_rank fs2)%nat.
Proof. apply (total_app (λ f, S (frank f))). Qed.

(** The call is made in a system at rest. *)
Lemma spot_call a rest n g k fs calls ends :
  spot sock_addr connectex socket addrs w a rest n (Some EP_call) g k fs calls ends →
  e_armed k && (e_signaled k || e_flight k) = false.
Proof.
  intros (pre & errs & _ & _ & _ & [[_ (-> & -> & ->) _ _ _]|[(h & _ & _ & []) _ _ _ _]]). done.
Qed.

(** The wait is armed again after the event was reset. *)
Lemma spot_rearm a rest n g k fs calls ends :
  spot sock_addr connectex socket addrs w a rest n (Some EP_rearm) g k fs calls ends →
  e_signaled k = false ∧ e_flight k = false.
Proof.
  intros (pre & errs & _ & _ & _ & [[[] _ _ _ _]|[(h & Hi & _ & _) _ _ _ _]]).
  by destruct Hi as [[] _ _ _|[] _ _ _|r _ _ (? & _) [_ ?] _ _|_ [] _].
Qed.

Lemma spot_query a rest n h g k fs calls ends :
  spot sock_addr connectex socket addrs w a rest n (Some (EP_query h)) g k fs calls ends → e_flight k = false.
Proof.
  intros (pre & errs & _ & _ & _ & [[[] _ _ _ _]|[(hs & Hi & _ & _) _ _ _ _]]).
  by destruct Hi as [[] _ _ _|[] _ _ _|r _ _ (? & _) _ _ _|_ [] _].
Qed.

Definition waits_at l v : Prop :=
  ∃ i, l = LCallback i ∧ (v_old v ++ v_fs v) !! i = Some FTest ∧ c_state (v_cells v) = SCHEDULING.

Lemma arrive_rank a rest n ph c g old fs k calls ends m :
  (match ph with EP_done (Ready _) => 4 | _ => S (phase_rank (c_state g) ph) end ≤ m)%nat →
  allowed ph (c_state g) ∨ ph = EP_done Pending →
  (rank (arrive (W := W) (waker := waker) a rest n ph c g old fs k calls ends) <
   40 * length rest + m + kernel_rank k + callbacks_rank old + callbacks_rank fs)%nat.
Proof.
  intros Hm Ha.
  assert ((∃ r, ph = EP_done (Ready r)) ∨
    arrive (W := W) (waker := waker) a rest n ph c g old fs k calls ends =
      View Running (PPoll a rest n ph) c g old fs k calls ends ∧
    (S (phase_rank (c_state g) ph) ≤ m)%nat) as [[r ->]|[-> Hle]].
  { destruct ph as [| | | | | | | | | | | | | |[]]; by eauto. }
  - unfold rank. destruct r as [r|e]; simpl; [lia|]. rewrite callbacks_rank_app.
    change (callbacks_rank []) with 0%nat. destruct Ha as [Hs|]; [|done].
    destruct rest; simpl in *; [lia|]. rewrite Hs. simpl. lia.
  - unfold rank. simpl. lia.
Qed.

Lemma rank_move l v v' :
  move l v v' → valid v → wakes w v → (rank v' < rank v)%nat ∨ waits_at l v ∧ (rank v' ≤ S (rank v))%nat.
Proof.
  intros Hm [_ Hag Hp] [_ _ Hn].
  destruct Hm as [p c g old fs k calls ends Hw|x a rest n c g old fs k calls ends|x a rest n c g old fs k calls ends
    |a rest n ph x ph' c c' g g' old fs k k' calls ends Hc Hg Hph|a rest n x ph' c c' g g' old fs k k' calls ends Hc Hg
    |a rest n c g old fs k calls ends|r c g old fs k calls ends|st p c g old fs k calls ends e Hf
    |st p c g old fs k calls ends Hs|st p c c' g old fs k calls ends i f f' Hi Hc
    |st p c c' g g' old fs k calls ends i f f' Hle Hi Hc Hg|st p c g old fs k calls ends i Hi
    |st p c g old fs k calls ends i Hle Hi]; simpl in Hag, Hp.
  - left. unfold rank. simpl. destruct p; simpl in *; try done; lia.
  - left. unfold rank. simpl. case_decide; lia.
  - left. unfold rank. simpl. case_decide; lia.
  - left. destruct Hp as [Hp _].
    eapply polling_notified in Hn as (Ha & _ & _); [|exact Hg].
    assert (ph = EP_rearm → e_signaled k = false ∧ e_flight k = false) as Hre by (intros ->; by eapply spot_rearm).
    destruct (enext_rank _ _ _ _ _ _ _ Ha Hph Hre Hg) as [Hr Hk].
    eapply enext_allowed in Ha as Ha'; [|exact Hg].
    pose proof (arrive_rank a rest n ph' c' g' old fs k' calls ends _ Hr) as Har. unfold rank at 2. simpl.
    assert (allowed ph' (c_state g') ∨ ph' = EP_done Pending) as Hph'.
    { destruct ph' as [| | | | | | | | | | | | | |[]]; auto. }
    specialize (Har Hph'). lia.
  - left. destruct Hp as [Hp _]. pose proof (call_rank _ _ _ _ _ _ Hg (spot_call _ _ _ _ _ _ _ _ Hp)) as Hr.
    unfold rank. simpl. lia.
  - left. unfold rank. simpl. destruct Hn as [Hn _]. rewrite decide_False by done. lia.
  - left. unfold rank. simpl. lia.
  - left. unfold rank, kernel_rank. simpl. rewrite Hf. destruct (e_armed k), (e_signaled k); simpl; lia.
  - left. unfold rank, kernel_rank. simpl. rewrite callbacks_rank_app.
    apply andb_prop in Hs as [-> ->]. change (callbacks_rank [FStart]) with 7%nat. simpl. lia.
  - pose proof (callbacks_rank_insert old i f f' Hi) as Hins. unfold rank, waits_at. simpl.
    destruct (fnext_rank _ _ _ _ Hc) as [Hr|(-> & -> & Hs)]; [left; lia|right]. simpl in Hins. split; [|lia].
    exists i. split_and!; [done| |done]. by apply lookup_app_l_Some.
  - pose proof (callbacks_rank_insert fs _ f f' Hi) as Hins.
    pose proof (pos_rank_idle st (c_state g) (c_state g') p (fnext_idle _ _ _ _ Hg)) as Hpos.
    unfold rank, waits_at. simpl.
    destruct (fnext_rank _ _ _ _ Hc) as [Hr|(-> & -> & Hs)]; [left; lia|right]. simpl in Hins. split; [|lia].
    exists i. split_and!; [done| |done]. by rewrite lookup_app_r.
  - pose proof (callbacks_rank_delete old i Hi). left. unfold rank. simpl. lia.
  - pose proof (callbacks_rank_delete fs _ Hi). left. unfold rank. simpl. lia.
Qed.

Lemma waits_spins l v (c : cconfig) : views v c → waits_at l v → spins l c = true.
Proof.
  intros (_ & Hcb & Hc & _) (i & -> & Hi & Hs). simpl. rewrite Hcb, list_lookup_fmap, Hi, Hc. simpl.
  by apply bool_decide_eq_true.
Qed.

Lemma rank_exec ls v (c c' : cconfig) :
  reach v → views v c → exec (H := connect_lts sock_addr connectex socket event addrs w false) ls c = Some c' →
  (length ls ≤ rank v + 2 * spun ls c)%nat.
Proof.
  revert v c. induction ls as [|l ls IH]; intros v c Hr Hv Hex; simpl; [lia|].
  change (cstep l c ≫= exec (H := connect_lts sock_addr connectex socket event addrs w false) ls = Some c') in Hex.
  destruct (cstep l c) as [c1|] eqn:Hst; [|done]. simpl in Hex.
  pose proof (reach_valid _ _ _ _ _ _ v Hr) as Hva.
  destruct (step_moves _ _ _ _ _ _ _ l v c c1 Hv Hva Hst) as (v1 & Hm & Hv1).
  assert (reach v1) as Hr1 by (by econstructor). specialize (IH v1 c1 Hr1 Hv1 Hex).
  destruct (rank_move l v v1 Hm Hva (reach_wakes _ _ _ _ _ v Hr)) as [Hlt|[Hw Hle]]; [lia|].
  rewrite (waits_spins l v c Hv Hw). lia.
Qed.

Lemma rank_start : (rank (vstart addrs w) ≤ 40 * length addrs + 2)%nat.
Proof. unfold rank, vstart. simpl. unfold kernel_rank, callbacks_rank. destruct addrs; simpl; lia. Qed.

(** ** What can happen *)

Lemma task_enabled v (c : cconfig) :
  reach v → views v c → v_stage v = Running → ∃ l (c' : cconfig), cstep l c = Some c' ∧ spins l c = false.
Proof.
  intros Hr (Ht & _ & Hc & Hk & _) Hst. pose proof (reach_valid _ _ _ _ _ _ v Hr) as [_ Hag Hp].
  rewrite Hst in Ht. simpl in Ht. destruct (v_pos v) as [a rest n|a rest n|a rest n ph|r] eqn:Hpos.
  - exists (LTask EDefault). unfold connect_step. rewrite Ht. by eexists.
  - exists (LTask EDefault). unfold connect_step. rewrite Ht. by eexists.
  - destruct Hp as [Hp Hnr]. rewrite <- Hc in Hag. destruct (is_done ph) eqn:Hd.
    { destruct ph as [| | | | | | | | | | | | | |[r|]]; try done; [by destruct (Hnr r)|].
      exists LSuspend. unfold connect_step. rewrite Ht. by eexists. }
    assert (∃ x y, enext knd (Some socket) w ph x (c_cells c) (c_kernel c) = Some y) as (x & y & Hn).
    { destruct ph; try done; try (by exists EDefault; eexists); [by exists (EStart EDone); eexists|].
      exists EDefault. simpl. unfold equery. rewrite Hk, (spot_query _ _ _ _ _ _ _ _ _ Hp). by repeat case_match; eexists. }
    exists (LTask x). unfold connect_step. rewrite Ht, poll_step, Hn; [by eexists|done|].
    intros ->. rewrite (proj2 Hag). by eapply spot_get.
  - exists LFinish. unfold connect_step. rewrite Ht. by eexists.
Qed.

(** As long as the loop has not been left something can happen that is not a
    turn of a waiting callback. *)
Lemma can_move v (c : cconfig) :
  reach v → views v c → v_stage v ≠ Finished → ∃ l (c' : cconfig), cstep l c = Some c' ∧ spins l c = false.
Proof.
  intros Hr Hv Hst. destruct (v_stage v) eqn:Hstage; [|by eapply task_enabled|done].
  pose proof Hv as (Ht & Hcb & Hc & Hk & _). rewrite Hstage in Ht. simpl in Ht.
  destruct (decide (w ∈ woken (c_cells c))) as [Hw|Hw].
  { exists LPoll. unfold connect_step. rewrite Ht, bool_decide_eq_true_2 by done. by eexists. }
  destruct (e_flight (c_kernel c)) eqn:Hf.
  { exists (LComplete 0). unfold connect_step. rewrite Hf. by eexists. }
  pose proof (reach_valid _ _ _ _ _ _ v Hr) as [_ Hag Hp]. pose proof (reach_wakes _ _ _ _ _ v Hr) as [_ _ Hn].
  destruct v as [stg p c0 g old fs k calls ends]. simpl in *. subst stg c0 k.
  destruct p as [a rest n|a rest n|a rest n ph|r]; try done; [|by destruct Hn].
  destruct Hn as [(_ & _ & ?)|[Hne Htold]]; [done|].
  destruct (waiting_state _ _ _ _ _ _ _ _ _ _ _ _ _ Hp Hne Hf) as [Hns [(-> & Hs & _)|[Hready|(f & -> & Hfe)]]].
  - exists LFire. unfold connect_step. rewrite Hs. by eexists.
  - destruct Hw. by apply Htold.
  - destruct (fnext_progress f (c_cells c) Hfe) as (f' & c1 & Hfn & _); [by rewrite (proj1 Hag)|].
    destruct (fnext_agree _ _ _ _ _ Hag Hfn) as (g1 & Hg & _).
    destruct (callback_step _ _ _ _ _ _ _ c f f' c1 g1 Hr Hv eq_refl Hfn Hg) as (c2 & Hst2 & _).
    exists (LCallback (length old)), c2. split; [done|]. simpl. rewrite Hcb, list_lookup_fmap.
    destruct ((old ++ [f]) !! length old) as [f0|]; [|done]. simpl. destruct (next_act (fden f0)) as [[[]| | | | | |]|]; try done.
    apply bool_decide_eq_false. by rewrite (proj1 Hag).
Qed.

(** C6. When the task is only polled because it was woken, [connect] ends: a
    schedule has at most forty steps for each address and two more, besides those in which a
    callback reads [SCHEDULING] and comes back to reading it; and as long as the
    loop has not been left there is another kind of step to make. *)
Theorem connect_terminates (ls : list clabel) (c : cconfig) :
  cexec ls = Some c →
  (length ls ≤ 40 * length addrs + 2 + 2 * spun ls (cstart sock_addr connectex socket event addrs w))%nat ∧
  ((∃ r, c_task c = CFinished r) ∨ ∃ l (c' : cconfig), cstep l c = Some c' ∧ spins l c = false).
Proof.
  intros Hex. split.
  - pose proof (rank_exec ls _ _ c (reach_start _ _ _ _ _ _) (views_start _ _ _ _ _ _) Hex). pose proof rank_start. lia.
  - destruct (exec_views _ _ _ _ _ _ _ _ _ Hex) as (v & Hr & Hv).
    destruct (v_stage v) eqn:Hst; [right; by eapply can_move; rewrite ?Hst..|].
    left. destruct Hv as (Ht & _). rewrite Hst in Ht. destruct Ht as (r & _ & ?). by exists r.
Qed.
End term.
