(* ===== verification/ConnectEx.v ===== *)
(** * Concrete runs of the loop of [connect]: witnesses, and a lost wake-up *)

From S2P Require Import Prelude Prog Extern Win32 Socket.
From S2P Require Import IoState IoCells IoEvent IoEventSys IoEventEx SockAddr Tcp TcpEx ConnectSys ConnectThm ConnectWake ConnectTerm.

Abbreviation conf := (cconfig (option nat) nat).

(** ** Pieces of schedules *)

Abbreviation connect_run := (connect_exec (W := option nat) raw_addr 512 7 event0 [v4 1; v4 2] 9%nat).

Definition connect_reach (spurious : bool) (ls : list clabel) : conf :=
  default (cstart raw_addr 512 7 event0 [v4 1; v4 2] 9%nat) (connect_run spurious ls).

Lemma connect_reach_run spurious ls :
  (if connect_run spurious ls is Some _ then true else false) = true →
  connect_run spurious ls = Some (connect_reach spurious ls).
Proof. unfold connect_reach. by destruct (connect_run spurious ls). Qed.

Definition task_steps (n : nat) : list clabel := replicate n (LTask EDefault).

(** An attempt, from the head of the await, that is left in flight. *)
Definition attempt_pending : list clabel :=
  task_steps 4 ++ [LTask (EStart EPending)] ++ task_steps 3 ++ [LSuspend].

(** A poll up to the end of the attempt it finds completed; one more step when
    the attempt failed. *)
Definition take_end (n : nat) : list clabel := LPoll :: task_steps n.

(** The callback of an attempt, but for its last action, the wake. *)
Definition callback_to_wake : list clabel := LFire :: replicate 5 (LCallback 0).

Definition whole_callback : list clabel := callback_to_wake ++ [LCallback 0; LRetire 0].

(** The first address refuses, the second one accepts. *)
Definition second_accepts_run : list clabel :=
  LPoll :: attempt_pending ++ [LComplete 10061] ++ whole_callback ++
  take_end 9 ++ attempt_pending ++ [LComplete 0] ++ whole_callback ++ take_end 8 ++ [LFinish].

(** ** Witnesses *)

Lemma connect_delivery_witness :
  let c := connect_reach false second_accepts_run in
  connect_run false second_accepts_run = Some c ∧
  c_task c = CFinished (Ok tt, 2) ∧
  verdict raw_addr [v4 1; v4 2] (Ok tt, 2) (c_calls c) (c_ends c) ∧
  c_ends c = [Err (OsError 10061); Ok tt].
Proof.
  intros c.
  assert (connect_run false second_accepts_run = Some c) as Hex
    by (apply connect_reach_run; vm_compute; reflexivity).
  assert (c_task c = CFinished (Ok tt, 2)) as Ht by (vm_compute; reflexivity).
  assert (c_ends c = [Err (OsError 10061); Ok tt]) as He by (vm_compute; reflexivity).
  clearbody c. split; [exact Hex|]. split; [exact Ht|]. split; [|exact He].
  exact (proj2 (connect_delivery raw_addr 512 7 event0 [v4 1; v4 2] 9%nat false second_accepts_run c Hex) _ Ht).
Defined.

Lemma connect_wakes_witness :
  let ls := LPoll :: attempt_pending ++ [LComplete 10061] in
  let c := connect_reach false ls in
  woken (c_cells c) = [] ∧
  ∃ ls1 (c1 : conf), forallb pool_label ls1 = true ∧ connect_run false (ls ++ ls1) = Some c1 ∧
    9%nat ∈ woken (c_cells c1) ∧ (c_state (c_cells c1) = READY ∨ c_calls c1 = []).
Proof.
  intros ls c.
  assert (connect_run false ls = Some c) as Hex
    by (apply connect_reach_run; vm_compute; reflexivity).
  assert (woken (c_cells c) = []) as Hw by (vm_compute; reflexivity).
  assert (∃ p, c_task c = CSuspended p) as [p Hp] .
  { assert (match c_task c with CSuspended _ => true | _ => false end = true) as Hs by (vm_compute; reflexivity).
    clearbody c. destruct (c_task c) as [p| |]; [by exists p|done..]. }
  assert (e_flight (c_kernel c) = false) as Hf by (vm_compute; reflexivity).
  clearbody c. split; [exact Hw|].
  destruct (connect_wakes raw_addr 512 7 event0 [v4 1; v4 2] 9%nat ls c p Hex Hp Hf)
    as (ls1 & c1 & Hls & Hex1 & _ & Hw1 & Hr).
  exists ls1, c1. split; [exact Hls|]. split; [exact Hex1|]. split; [exact Hw1|exact Hr].
Defined.

Lemma connect_terminates_witness :
  let c := connect_reach false second_accepts_run in
  let start : conf := cstart raw_addr 512 7 event0 [v4 1; v4 2] 9%nat in
  let turns := spun (W := option nat) 512 7 9%nat second_accepts_run start in
  connect_run false second_accepts_run = Some c ∧ length second_accepts_run = 57%nat ∧
  (length second_accepts_run ≤ 40 * 2 + 2 + 2 * turns)%nat.
Proof.
  intros c start turns.
  assert (connect_run false second_accepts_run = Some c) as Hex
    by (apply connect_reach_run; vm_compute; reflexivity).
  clearbody c. split; [exact Hex|]. split; [reflexivity|].
  exact (proj1 (connect_terminates raw_addr 512 7 event0 [v4 1; v4 2] 9%nat second_accepts_run c Hex)).
Defined.

(** ** A lost wake-up *)

(** A poll nobody asked for finds the first attempt refused before its
    callback has woken the task, and starts the second attempt, whose waker
    that callback then takes; while the task is polled for this wake-up the
    second attempt completes, and its callback finds no waker. *)
Definition losing_run : list clabel :=
  LPoll :: attempt_pending ++ [LComplete 10061] ++ callback_to_wake ++
  take_end 9 ++ attempt_pending ++ [LCallback 0; LRetire 0] ++
  take_end 3 ++ [LComplete 0] ++ whole_callback ++ task_steps 2 ++ [LSuspend].

(** C35. One poll without a wake-up is enough for [connect] to wait for ever: the
    second attempt has succeeded and its result is there, the task waits
    and was not woken since its last poll began, and nothing is left to
    happen. *)
Theorem connect_loses_a_wake_up :
  ∃ (c : conf) p, connect_run true losing_run = Some c ∧
    c_ends c = [Err (OsError 10061); Ok tt] ∧ c_state (c_cells c) = READY ∧
    c_task c = CSuspended p ∧ woken (c_cells c) = [] ∧
    ∀ l, l ≠ LPoll → connect_step 512 7 9%nat true l c = None.
Proof.
  assert (connect_run true losing_run = Some (connect_reach true losing_run)) as Hex
    by (apply connect_reach_run; vm_compute; reflexivity).
  set (c := connect_reach true losing_run) in *.
  assert (c_ends c = [Err (OsError 10061); Ok tt]) as He by (vm_compute; reflexivity).
  assert (c_cells c = Build_cells READY (Some (Ok 0)) (Some 9%nat) []) as Hc by (vm_compute; reflexivity).
  assert (e_flight (c_kernel c) = false ∧ e_armed (c_kernel c) = false) as [Hf Ha] by (vm_compute; by split).
  assert (length (c_callbacks c) = 0%nat) as Hcb by (vm_compute; reflexivity).
  assert (match c_task c with CSuspended _ => true | _ => false end = true) as Hs by (vm_compute; reflexivity).
  clearbody c. destruct (c_task c) as [p| |] eqn:Ht; [|done..]. apply nil_length_inv in Hcb.
  exists c, p. split; [exact Hex|]. clear Hex. rewrite Hc. split_and!; [done..|]. intros l Hl. unfold connect_step. rewrite Ht, Hf, Ha, Hcb.
  by destruct l.
Qed.
