(* ===== verification/IncomingThm.v ===== *)
(** * What a stream of incoming connections guarantees

    [Incoming] (listener.rs) polls one [Accept] after the other.  The theorem
    is about any number of polls of one stream. *)

From S2P Require Import Prelude Prog Extern Win32 Threadpool Context.
From S2P Require Import IoState IoCells Socket IoHandle IoEvent SockAddr Tcp TcpThm TcpEx.

Section incoming.
Context {waker : Type}.
Abbreviation prog := (prog (nact waker) nans).
Abbreviation event := (Prog.event (nact waker) nans).
Context (as_std : Z → Z → option SocketAddr).
Implicit Types (tr es : list event) (w : waker).
Abbreviation output := (Poll (option (io_result (TcpStream waker * SocketAddr)))).

(** ** The sockets a run has made *)

Definition made (e : event) : option SOCKET :=
  match e with
  | Ev a r =>
      match a return nans a → option SOCKET with
      | NSys c => match c return win32_ans c → option SOCKET with
                  | WSASocketW _ _ _ _ => λ s : Z, if decide (s = INVALID_SOCKET) then None else Some s
                  | _ => λ _, None
                  end
      | _ => λ _, None
      end r
  end.
Definition sockets tr : list SOCKET := omap made tr.

Definition makes_none (a : nact waker) : Prop :=
  match a with NSys (WSASocketW _ _ _ _) => False | _ => True end.

Lemma sockets_app tr es : sockets (tr ++ es) = sockets tr ++ sockets es.
Proof. unfold sockets. apply omap_app. Qed.

Lemma sockets_none es : all_events makes_none es → sockets es = [].
Proof.
  induction 1 as [|[a r] es Ha _ IH]; [done|].
  assert (made (Ev a r) = None) as Hm by (by destruct a as [| | |[]| | |]).
  unfold sockets in *. cbn [omap list_omap]. by rewrite Hm.
Qed.

(** ** Polling a stream [n] times *)

(** [at_ k] is where the allocator puts the [k]-th [Accept] and its stream. *)
Fixpoint incoming_polls (n k : nat) (at_ : nat → net_places) (self : Incoming) w : prog (list output) :=
  match n with
  | O => Ret []
  | S n =>
      r <- poll_next as_std (at_ k) (at_ (S k)) self w ;;
      let '(self, p) := r in
      ps <- incoming_polls n (S k) at_ self w ;;
      Ret (p :: ps)
  end.

Definition incoming_life (n : nat) at_ (l : TcpListener) w : prog (list output) :=
  self <- incoming (at_ 0%nat) l ;; incoming_polls n 0 at_ self w.

(** The sockets of the streams it has yielded. *)
Definition yielded (p : output) : list SOCKET :=
  match p with Ready (Some (Ok (st, _))) => [handle (inner_handle st)] | _ => [] end.

Definition client_socket (a : Accept) : list SOCKET :=
  match client a with Ok s => [s] | Err _ => [] end.

Definition is_ready_poll (p : output) : bool := match p with Ready _ => true | Pending => false end.

(** ** One [Accept] *)

Lemma accept_sockets at_ (l : TcpListener) tr :
  wlp (accept (waker := waker) at_ l)
    (λ r tr', match r with inl a => sockets tr' = sockets tr ++ client_socket a | inr _ => True end) tr.
Proof.
  assert (∀ c tr1, sockets tr1 = sockets tr ++ match c with Ok s => [s] | Err _ => [] end →
    wlp (h <- Context.current ;;
         e <- on_event (IoEvent.new (np_event at_) (np_event_overlapped at_) (callback_environ h)) ;;
         event <- raw_os_error e ;;
         Ret {| listener := l; client := c; accept_event := event; accept_buf := np_buf at_ |})
      (λ r tr', match r with inl a => sockets tr' = sockets tr ++ client_socket a | inr _ => True end) tr1) as Hrest.
  { intros c tr1 Htr. apply wlp_bind, (wlp_within makes_none); [by solve_within|].
    intros [h|f] es1 Hes1; [|done]. apply wlp_bind, (wlp_within makes_none).
    { apply within_translate. solve_within. }
    intros [[ev|[code|? ?]]|f] es2 Hes2; simpl; try done;
      by rewrite !sockets_app, (sockets_none es1), (sockets_none es2), !app_nil_r. }
  unfold accept. apply wlp_bind. intros s. simpl. case_decide as Hs.
  - apply (Hrest (Ok s)). rewrite sockets_app. unfold sockets at 2. simpl. by rewrite decide_False.
  - intros code. simpl. apply (Hrest (Err (as_i32 code))). rewrite !sockets_app. unfold sockets at 2 3. simpl.
    by rewrite decide_True, !app_nil_r.
Qed.

#[local] Opaque IoHandle.drop.

Lemma accept_poll_makes_none at_ a w : within makes_none (accept_poll as_std at_ a w).
Proof.
  unfold accept_poll, new_stream, on_event, on_handle.
  repeat first [ done | apply within_bind | apply within_translate, within_true | case_match | intro
               | solve [by solve_within] ].
Qed.

Lemma accept_poll_socket at_ a w tr :
  wlp (accept_poll as_std at_ a w)
    (λ r _, match r with inl (Ready (Ok (st, _))) => client a = Ok (handle (inner_handle st)) | _ => True end) tr.
Proof.
  unfold accept_poll. destruct (client a) as [c|code]; [|done].
  destruct (accept_event a) as [ev|code]; [|done].
  apply wlp_bind, (wlp_within (λ _, True)); [apply within_true|].
  intros [[[[]|e]|]|f] es _; try done.
  apply wlp_bind, wlp_current. intros [h|f] es1 _; [|done].
  apply wlp_bind. intros addr. apply wlp_bind, wlp_new_stream.
  - intros st es2 Hst _. simpl. case_match; simpl; [by rewrite Hst|done].
  - intros [[st|e]|f] es2 Hx _; simpl; try done. by destruct (Hx st).
Qed.

Lemma accept_drop_makes_none a : within makes_none (accept_drop (waker := waker) a).
Proof.
  unfold accept_drop. destruct (accept_event a); [|done]. apply within_translate. solve_within.
Qed.

(** ** The stream *)

(** One poll: what it yields has the socket of the current [Accept], and a
    new [Accept], with a new socket, takes its place. *)
Lemma poll_next_sockets at_ next (self : Incoming) w tr :
  wlp (poll_next as_std at_ next self w)
    (λ r tr', match r with
              | inl (self', p) =>
                  p ≠ Ready None ∧ sublist (yielded p) (client_socket (inc_accept self)) ∧
                  (p = Pending ∧ self' = self ∧ sockets tr' = sockets tr ∨
                   is_ready_poll p = true ∧ sockets tr' = sockets tr ++ client_socket (inc_accept self'))
              | inr _ => True
              end) tr.
Proof.
  unfold poll_next. apply wlp_bind.
  eapply wlp_mono; [|apply wlp_with; [apply accept_poll_makes_none|apply accept_poll_socket]].
  intros [[output|]|f] tr1 [Hout (es & -> & Hes)]; [| |done].
  - apply wlp_bind. eapply wlp_mono; [|apply accept_sockets]. intros [a|f] tr2; [|done]. intros Htr2.
    apply wlp_bind, (wlp_within makes_none); [apply accept_drop_makes_none|].
    intros [[]|f] es3 Hes3; simpl; [|done]. split; [done|]. split.
    + unfold client_socket. destruct output as [[st addr]|e]; [by rewrite Hout|apply sublist_nil_l].
    + right. split; [done|].
      by rewrite sockets_app, (sockets_none es3), app_nil_r, Htr2, sockets_app, (sockets_none es), app_nil_r.
  - split; [done|]. split; [apply sublist_nil_l|]. left.
    by rewrite sockets_app, (sockets_none es), app_nil_r.
Qed.

Lemma incoming_polls_sockets n k at_ (self : Incoming) w tr :
  wlp (incoming_polls n k at_ self w)
    (λ r tr', match r with
              | inl ps => (Ready None ∉ ps) ∧ ∃ more, sockets tr' = sockets tr ++ more ∧
                  sublist (mjoin (yielded <$> ps)) (client_socket (inc_accept self) ++ more)
              | inr _ => True
              end) tr.
Proof.
  revert k self tr. induction n as [|n IH]; intros k self tr; simpl.
  { split; [apply not_elem_of_nil|]. exists []. rewrite app_nil_r. split; [done|apply sublist_nil_l]. }
  apply wlp_bind. eapply wlp_mono; [|apply poll_next_sockets].
  intros [[self' p]|f] tr1; [|done]. intros (Hp & Hy & Hs).
  apply wlp_bind. eapply wlp_mono; [|apply IH]. intros [ps|f] tr2; [|done].
  intros (Hps & more & Htr & Hsub). simpl. split; [by apply not_elem_of_cons|].
  destruct Hs as [(-> & -> & Hs)|(Hr & Hs)]; rewrite Hs in Htr.
  - exists more. by simpl.
  - exists (client_socket (inc_accept self') ++ more). split; [by rewrite Htr, app_assoc|].
    by apply sublist_app.
Qed.

(** C28. A stream of incoming connections never ends, and every connection it
    yields has a socket of its own: the sockets of the streams it has
    yielded are, in order, some of the sockets that were made, each of them
    at most once, however often it is polled and whatever the system does. *)
Theorem incoming_streams_have_their_own_socket n at_ (l : TcpListener) w tr (ps : list output) :
  produces (incoming_life n at_ l w) tr (inl ps) →
  (Ready None ∉ ps) ∧ sublist (mjoin (yielded <$> ps)) (sockets tr) ∧
  (NoDup (sockets tr) → NoDup (mjoin (yielded <$> ps))).
Proof.
  intros Hp.
  assert ((Ready None ∉ ps) ∧ sublist (mjoin (yielded <$> ps)) (sockets tr)) as [Hn Hs].
  { change tr with ([] ++ tr).
    refine (wlp_produces _ (λ r tr, match r with inl ps => (Ready None ∉ ps) ∧ sublist (mjoin (yielded <$> ps)) (sockets tr)
                                              | inr _ => True end) [] tr (inl ps) _ Hp).
    apply wlp_bind. unfold incoming. apply wlp_bind. eapply wlp_mono; [|apply accept_sockets].
    intros [a|f] tr1; [|done]. intros Htr1. simpl. eapply wlp_mono; [|apply incoming_polls_sockets].
    intros [ps'|f] tr2; [|done]. intros (Hn & more & Htr2 & Hsub). split; [done|]. by rewrite Htr2, Htr1. }
  split_and!; [done..|]. intros Hnd. by eapply sublist_NoDup.
Qed.
End incoming.

(** Two polls of a stream, a connection each. *)
Lemma incoming_streams_have_their_own_socket_witness :
  let l := {| l_socket := 5; acceptex := 512; gaesa := 513 |} in
  let life := incoming_life (waker := nat) (λ _ _, Some (v4 1)) 2 (λ _, places0) l 9%nat in
  let r := run_of ∅ (λ _, TRUE) life in
  let ps := match r.2 with inl ps => ps | inr _ => [] end in
  produces life r.1 (inl ps) ∧ mjoin (yielded <$> ps) = [7; 7] ∧ sockets r.1 = [7; 7; 7] ∧
  (Ready None ∉ ps) ∧ sublist (mjoin (yielded <$> ps)) (sockets r.1).
Proof.
  intros l life r ps.
  assert (r.2 = inl ps) as Hout.
  { assert (match r.2 with inl _ => true | inr _ => false end = true) as Hok by (vm_compute; reflexivity).
    unfold ps. clearbody r. by destruct r.2. }
  assert (produces life r.1 (inl ps)) as Hp
    by (rewrite <- Hout; apply run_of_produces; vm_compute; reflexivity).
  split; [exact Hp|]. split; [vm_compute; reflexivity|]. split; [vm_compute; reflexivity|].
  destruct (incoming_streams_have_their_own_socket (λ _ _, Some (v4 1)) 2 (λ _, places0) l 9%nat r.1 ps Hp)
    as (Hn & Hs & _).
  exact (conj Hn Hs).
Defined.
