(* ===== verification/Debug.v ===== *)
(** * The [Debug] implementations

    What each type shows of itself.  [Formatter] is part of the standard
    library: [debug_struct] is a name with fields, and a value of a foreign
    type is shown by its own implementation.  The types that hold a socket ask
    the system for its addresses while they are formatted, so their [fmt] is
    a program. *)

From S2P Require Import Prelude Prog Extern Win32 Threadpool Context.
From S2P Require Import IoState IoCells Socket IoHandle IoEvent IoBuf SockAddr Tcp TcpThm TcpEx.
From Stdlib Require Import Strings.Byte.

Inductive shown :=
| Foreign (v : Z)                                        (* a raw pointer or a socket *)
| Address (a : SocketAddr)
| PriorityOf (p : Priority)
| Byte (b : byte)
| MaybeUninit                                            (* a byte that may not be initialised *)
| List (l : list shown)
| Struct (name : string) (fields : list (string * shown))  (* debug_struct(name).field(..).finish() *)
| Tuple (name : string).                                 (* debug_tuple(name).finish() *)

(** ** Types without a socket *)

(** threadpool.rs, context.rs, task/spawn.rs *)
Definition handle_fmt (self : Handle) : shown :=
  Struct "Handle" [("pool", Foreign (Pool (inner_callback_environ (inner self))));
                   ("priority", PriorityOf (handle_priority self))].
Definition guard_fmt (self : ContextGuard) : shown := Struct "ContextGuard" [].
Definition join_fmt (task : shown) : shown := Struct "JoinHandle" [("task", task)].

(** io/read/ext.rs, io/write/ext.rs *)
Definition read_fmt : shown := Struct "Read" [].
Definition read_exact_fmt : shown := Struct "ReadExact" [].
Definition write_fmt : shown := Struct "Write" [].
Definition write_all_fmt : shown := Struct "WriteExact" [].

(** io/read/mod.rs, io/write/mod.rs: [fmt::Debug::fmt(&**self, f)].  The bytes
    of an [IoSliceMut] need not be initialised, and are not read. *)
Definition slice_mut_fmt (self : IoSliceMut) : shown :=
  List (replicate (Z.to_nat (s_len (deref self))) MaybeUninit).
Definition slice_fmt (m : memory) (self : IoSlice) : shown :=
  List (Byte <$> mem_read m (s_ptr (slice_deref self)) (Z.to_nat (s_len (slice_deref self)))).

(** to_socket_addrs.rs *)
Definition to_socket_addrs_fmt : shown := Tuple "ToSocketAddrs".
Definition to_socket_addrs_iter_fmt : shown := Tuple "ToSocketAddrsIter".

(** ** Types with a socket *)

Section tcp.
Context {waker : Type}.
Abbreviation prog := (prog (nact waker) nans).
Abbreviation event := (Prog.event (nact waker) nans).

(** [local_name] and [peer_name] are the functions of socket2. *)
Context (local_name peer_name : SOCKET → prog (io_result (option SocketAddr))).

(** [if let Ok(addr) = addr { dbg.field(name, &addr); }] *)
Definition field (name : string) (addr : io_result SocketAddr) : list (string * shown) :=
  match addr with Ok addr => [(name, Address addr)] | Err _ => [] end.

(** listener.rs *)
Definition listener_fmt (self : TcpListener) : prog shown :=
  addr <- listener_addr local_name self ;;
  Ret (Struct "TcpListener" (("socket", Foreign (l_socket self)) :: field "addr" addr)).
Definition accept_fmt (self : Accept) : prog shown :=
  l <- listener_fmt (listener self) ;; Ret (Struct "Accept" [("listener", l)]).
Definition incoming_fmt (self : Incoming) : prog shown :=
  l <- listener_fmt (listener (inc_accept self)) ;; Ret (Struct "Incoming" [("listener", l)]).

(** The common body of stream.rs and split.rs. *)
Definition ends_fmt (name : string) (self : TcpStream waker) : prog shown :=
  addr <- socket_name local_name self ;;
  peer <- socket_name peer_name self ;;
  Ret (Struct name (field "addr" addr ++ field "peer" peer)).
Definition stream_fmt : TcpStream waker → prog shown := ends_fmt "TcpListener".
Definition read_half_fmt : TcpStream waker → prog shown := ends_fmt "ReadHalf".
Definition write_half_fmt : TcpStream waker → prog shown := ends_fmt "WriteHalf".
End tcp.

(** ** Formatting a stream *)

Section outcome.
Context {waker : Type}.
Abbreviation event := (Prog.event (nact waker) nans).

(** What an address lookup leads to. *)
Definition looked_up (a : io_result (option SocketAddr)) : option (io_result SocketAddr) :=
  match a with Ok (Some a) => Some (Ok a) | Ok None => None | Err e => Some (Err e) end.

(** Formatting a stream, or one of its halves, shows the addresses the system
    knows, under a name that for a stream is not its own.  When an address is
    not an internet address it panics, and has closed the socket that the
    stream still owns; in every other case it closes nothing. *)
Theorem formatting_a_stream name (local peer : io_result (option SocketAddr)) (self : TcpStream waker)
    (tr : list event) (out : shown + fault) :
  produces (ends_fmt (λ _, Ret local) (λ _, Ret peer) name self) tr out ↔
  match looked_up local, looked_up peer with
  | Some a, Some p => tr = [] ∧ out = inl (Struct name (field "addr" a ++ field "peer" p))
  | _, _ => out = inr (Panicked "called `Option::unwrap()` on a `None` value") ∧
      ∃ r, tr = [ev_sys (closesocket (handle (inner_handle self))) r]
  end.
Proof.
  split.
  - intros Hp. pattern out, tr. change tr with ([] ++ tr). eapply wlp_produces; [|exact Hp]. clear Hp tr out.
    destruct local as [[a|]|e], peer as [[p|]|e']; simpl; try done.
    all: intros r; split; [done|by exists r].
  - destruct local as [[a|]|e], peer as [[p|]|e']; simpl.
    all: first [ intros [-> ->]; constructor | intros (-> & r & ->); apply produces_act; constructor ].
Qed.
End outcome.
