(* ===== verification/Macros.v ===== *)
(** * The attribute macros: [src/macros/src/lib.rs]

    [#[wae::main]] and [#[wae::test]] turn an [async fn] into a function that
    builds a thread pool and blocks on the body.  Token streams and their
    parsers (syn, darling, quote) are parameters; the generated function is a
    record of its parts, with the calls on the builder it contains. *)

From S2P Require Import Prelude Prog Win32 Threadpool.

Section macros.
Context {Tokens Attributes Item Path Sig Block Attr Vis Error : Type}.

(** ** Data *)

Record EntryArgs := {
  ea_max_threads : option Z;
  ea_min_threads : option Z;
  ea_path : option Path;
}.

(** [ItemFn]; whether the signature is [async] is apart from the rest of it. *)
Record ItemFn := {
  attrs : list Attr;
  vis : Vis;
  asyncness : bool;
  sig : Sig;
  block : Block;
}.

(** A call on the builder in the generated code. *)
Inductive builder_call :=
| CallMaxThreads (n : Z)     (* .max_threads(n) *)
| CallMinThreads (n : Z).    (* .min_threads(n) *)

(** The generated function:
<<
    #header #(#attrs)* #vis #sig {
        #path::Threadpool::builder() <calls> .build().unwrap().block_on(async #block)
    }
>> *)
Record Generated := {
  g_test : bool;                     (* #[::core::prelude::v1::test] *)
  g_attrs : list Attr;
  g_vis : Vis;
  g_async : bool;
  g_sig : Sig;
  g_path : Path;
  g_calls : list builder_call;
  g_block : Block;
}.

(** ** Code *)

(** The path [::wae], the error [entry] reports, and the quotations. *)
Context (wae : Path) (missing_async : Sig → Error)
  (render : Generated → Tokens) (to_compile_error : Error → Tokens).

(** [entry] *)
Definition entry (args : EntryArgs) (input : ItemFn) (test : bool) : result Tokens Error :=
  if negb (asyncness input) then Err (missing_async (sig input)) else
  let path := default wae (ea_path args) in
  let max_threads := match ea_max_threads args with
                     | Some maximum => [CallMaxThreads maximum]
                     | None => []
                     end in
  let min_threads := match ea_min_threads args with
                     | Some minimum => [CallMinThreads minimum]
                     | None => []
                     end in
  Ok (render {| g_test := test; g_attrs := attrs input; g_vis := vis input; g_async := false;
                g_sig := sig input; g_path := path; g_calls := max_threads ++ min_threads;
                g_block := block input |}).

(** The parsers: [parse_macro_input!] returns its error as tokens. *)
Context (parse_args : Tokens → result Attributes Tokens) (parse_item : Tokens → result ItemFn Tokens)
  (from_list : Attributes → result EntryArgs Tokens).

Definition attribute (test : bool) (args input : Tokens) : Tokens :=
  match parse_args args with
  | Err e => e
  | Ok args =>
      match parse_item input with
      | Err e => e
      | Ok input =>
          match from_list args with
          | Err e => e
          | Ok args =>
              match entry args input test with
              | Ok ts => ts
              | Err err => to_compile_error err
              end
          end
      end
  end.

(** [#[main]], [#[test]] *)
Definition main : Tokens → Tokens → Tokens := attribute false.
Definition test : Tokens → Tokens → Tokens := attribute true.

(** ** What the generated function does *)

(** The builder the calls leave. *)
Definition apply_call (b : Builder) (c : builder_call) : Builder :=
  match c with
  | CallMaxThreads n => Threadpool.max_threads b n
  | CallMinThreads n => Threadpool.min_threads b n
  end.

Definition configure (b : Builder) (calls : list builder_call) : Builder := fold_left apply_call calls b.

(** Up to the pool: [Threadpool::builder()..build().unwrap()]. *)
Definition generated_pool (at_ : Priority → Z) (g : Generated) : prog win32 win32_ans Threadpool :=
  b <- builder ;;
  p <- build at_ (configure b (g_calls g)) ;;
  match p with
  | Ok pool => Ret pool
  | Err _ => Fault (Panicked "called `Result::unwrap()` on an `Err` value")
  end.

(** Two arguments that both appear set both fields. *)
Lemma configure_calls b (max min : option Z) :
  configure b (match max with Some n => [CallMaxThreads n] | None => [] end ++
               match min with Some n => [CallMinThreads n] | None => [] end) =
  {| b_max_threads := default (b_max_threads b) min; b_min_threads := default (b_min_threads b) max;
     b_net := b_net b |}.
Proof. by destruct b, max, min. Qed.
End macros.

(** The rendering that keeps the record, to look at what is generated. *)
Section generated.
Context {Path Sig Block Attr Vis : Type} (wae : Path).
Abbreviation Gen := (Generated (Path := Path) (Sig := Sig) (Block := Block) (Attr := Attr) (Vis := Vis)).
Implicit Types (input : ItemFn (Sig := Sig) (Block := Block) (Attr := Attr) (Vis := Vis)).

Definition generate args input test : result Gen Sig := entry wae (λ s, s) (λ g, g) args input test.

(** C39. The attribute refuses a function that is not [async]; otherwise the
    generated function keeps the attributes, visibility, signature and block,
    is no longer [async], and builds a pool whose minimum number of threads is
    the argument [max_threads] and whose maximum is the argument
    [min_threads]. *)
Theorem entry_swaps_the_thread_limits args input t :
  match generate args input t with
  | Err s => asyncness input = false ∧ s = sig input
  | Ok g =>
      asyncness input = true ∧ g_async g = false ∧ g_test g = t ∧
      (g_attrs g, g_vis g, g_sig g, g_block g) = (attrs input, vis input, sig input, block input) ∧
      g_path g = default wae (ea_path args) ∧
      ∀ b, configure b (g_calls g) =
        {| b_max_threads := default (b_max_threads b) (ea_min_threads args);
           b_min_threads := default (b_min_threads b) (ea_max_threads args); b_net := b_net b |}
  end.
Proof.
  unfold generate, entry. destruct (asyncness input) eqn:Ha; simpl; [|done].
  split_and!; try done. intros b. apply configure_calls.
Qed.
End generated.
